(* ===== verification/_CoqProject ===== *)
-Q . S2P
Prelude.v
Prog.v
Sessions.v
Conc.v
Lifetimes.v
Hash.v
Text.v
Types.v
Layout.v
Words.v
Embedding.v
Stopping.v
Shm.v
Process.v
Pool.v
Slots.v
Region.v
Stamping.v
Recovery.v
Ownership.v
Publisher.v
Subscriber.v
Conservation.v
Clients.v
Knowledge.v
Integrity.v
Overtaken.v
Confinement.v
Delivery.v
Reception.v
Membership.v
Channel.v
Waiting.v
Naming.v
Registry.v
Directory.v
Topics.v
Blackboard.v
Board.v
Crash.v
Tenure.v
Seqlock.v
WaitAny.v
Node.v
Network.v
Probe.v
Syscalls.v
WinProbe.v
Liveness.v
Timing.v
Handles.v
Objects.v
WinObjects.v
Wake.v
WinWake.v
