(* ===== verification/Prelude.v ===== *)
(** * Kickmsg: publish and subscribe over shared memory, verified

    ** The program

    A region ([src/Region.cc]) is a shared-memory object with a pool of slots and
    up to [max_subs] rings.  A publisher ([src/Publisher.cc]) takes a slot, writes
    a sample and delivers its slot number to every live ring; a subscriber
    ([src/Subscriber.cc]) claims a ring and reads samples by reference.  All of it
    is lock free, every process may crash anywhere, and no index found in shared
    memory is trusted.  A registry ([src/Registry.cc]) lists the participants of a
    namespace, a blackboard ([src/Blackboard.cc]) holds the last value of each key
    under a seqlock, and a node ([src/Node.cc]) maps logical names to the objects
    of all three.  Below are the shared-memory objects and the socket wakes of the
    operating system ([src/os]).

    ** How it is modelled

    A C++ function is a value of [prog L A] ([Prog.v]): a tree of atomic accesses
    to a memory with locations [L], of system calls and of unbounded loops, ending
    in a value or an exception.  Locations are symbolic ([Layout.loc],
    [Registry.rloc], [Blackboard.bloc]); [Layout.loc_at] gives the byte address of
    each.  The same program has three semantics: [run], a function, executes it alone
    and has total correctness [wp] and [returns]; [Conc.v] interleaves any number
    of programs one atomic action at a time, with the logic [safe]; [Lifetimes.v] adds
    processes that start and die and a lock between them.  Integers are
    [Z], wrapped where the C++ type wraps ([u16], [u32], [u64], [i64] below).  Code
    over the operating system is a state and error monad over a kernel that is a
    parameter ([Syscalls.v]), with the logic [does].

    ** The files

    - Foundations: [Prelude] (integers, bits, bytes, memories, automation),
      [Prog], [Conc], [Lifetimes], [Sessions] (sequences of calls and simulations between
      them), [Embedding] (programs without unbounded loops; programs placed in a
      larger memory), [Stopping] (programs that stop for ever), [Syscalls], [Text].
    - Data: [Hash] ([src/Hash.cc]), [Types] ([types.h], [src/types.cc]: sequence,
      claim and state words, schemas, configuration), [Layout] (geometry of
      [src/Region.cc]), [Words] (copies through shared memory), [Naming].
    - The region: [Pool] and [Slots] (free stack, entries, accounting of slots),
      [Region] (create, open, schema, recovery, diagnosis), [Publisher],
      [Subscriber], [WaitAny], [Process] ([src/os/Process.cc]), [Shm] (the
      interface of a named object).
    - Its theorems: [Stamping], [Recovery], [Ownership], [Conservation], [Clients],
      [Knowledge], [Integrity], [Confinement], [Delivery], [Reception],
      [Membership], [Channel], [Waiting]; [Overtaken] is a run of the online
      recovery that goes wrong.
    - The registry: [Registry]; its theorems [Directory] and [Topics].
    - The blackboard: [Blackboard]; its theorems [Board], [Crash], [Tenure] and
      [Seqlock].
    - Nodes: [Node]; their theorems [Network].
    - The operating system ([src/os], a version of each file per platform): [Probe]
      and [WinProbe] (probes of a process), under the interface of [Liveness];
      [Timing] (clocks, sleeps, futex waits); [Handles], the interface of
      shared-memory objects, with [Objects] for POSIX and [WinObjects] for Windows;
      [Wake] ([src/Waker.cc] and the POSIX sockets) and [WinWake] (Winsock).

    State follows the code: [Publisher.publisher], [Subscriber.subscriber],
    [Subscriber.SampleView], [Blackboard.board], [Blackboard.Writer],
    [Blackboard.Reader], [Registry.registry], [Node.node], [Handles.handle] and
    [Wake.backend] are the C++ objects with their members, passed through the
    operations; what is shared is in the memory.  An operation has the name of the
    method, and long ones are cut where their loop changes phase.

    ** What is proved

    - Under every interleaving, with crashes: every slot is free, reserved once or
      referenced exactly as often as entries and processes refer to it, payloads
      are never written while read, and a view's bytes stay as they are
      ([Clients]); a sample received is, byte for byte, a sample sent ([Knowledge],
      [Integrity]); every access is inside the mapping, aligned, and keeps the type
      of the field, even next to a writer of arbitrary words ([Confinement]); a
      reading of a board is one whole write, and readings never go back
      ([Seqlock]).
    - Under every interleaving of processes that start and die, if their lock tokens
      differ: one thread at most of those that run holds the board lock, even while locks are taken from the
      dead, and who declared a key keeps it until it releases it ([Tenure]).
    - Refinement of specifications, for calls that do not overlap: a region whose pool
      has more slots than its rings have entries is a bounded drop-oldest queue per
      subscriber, from its creation on ([Channel]);
      the registry is a directory ([Directory]); the blackboard is a table of
      posts ([Board]); a topic of a namespace is one channel for the nodes that
      name it ([Network]).
    - Crashes: once all processes have ended, the offline recovery returns exactly
      the leaked slots ([Clients], [Recovery]); a process may crash at any step of
      any call on a board, and once the next one has swept, the board answers as
      one of the tables the call may leave ([Crash]).
    - Ends: a send ends in one of three outcomes whatever the rings hold
      ([Delivery]); blocking receives and waits on many subscribers end, and come
      back with nothing only after their timeout ([Waiting]; [WaitAny] also when the
      caller asks for a [poll_cap] of 0); a drain
      of a wake descriptor ends however fast datagrams arrive ([Wake]).
    - Data: accepted geometry is memory safe and the creator's is accepted
      ([Layout]); stamping and opening, schemas, [/proc] lines and creation modes
      round-trip ([Stamping], [Types], [Probe], [Objects]); the packed words, names
      and hashes do what their comments say ([Types], [Naming], [Hash]).
    - The operating system: handles to shared-memory objects leak nothing on either
      platform if objects are got on handles that are not open, as the library does
      ([Handles], from the laws [Objects] and [WinObjects] prove; getting one on an
      open handle is a leak, [Objects.reopening_leaks]), and getting an object is all or nothing; an owner that runs is never taken for
      dead, on any platform ([Liveness]); opening a wake is all or nothing, two ends
      that name a topic share an address, and the datagram of a signal makes the
      waiting descriptor readable if it is delivered ([Wake], [WinWake]); sleeps are
      not cut short but on Windows, and no
      time wraps ([Timing]).

    ** Fuel and bounds

    [run] counts steps of a program, loops included; every theorem about a result
    says that some fuel gives it ([wp], [returns]), never only that a result, if
    any, is right.  Where fuel is an argument of a definition ([Text.decimal],
    [Timing.sleep_loop], [Wake.drain_loop], [Wake.backend_signal]) the theorem that
    uses it says how much is enough.  Loops the code bounds (64 turns of [try_receive], 256
    datagrams of a drain) are bounded in the model by the same constants.

    ** Assumptions and what is not modelled

    - Every action is sequentially consistent; memory orders and fences have no
      effect.  Alone, a weak compare-exchange succeeds when the word matches; in
      [Conc] it may fail spuriously.
    - Reuse of a generation or a claim after a full lap of its counter (2^32 or
      more writes between a read and the compare-exchange that relies on it) is
      excluded by [timely] in [Conc]; sizes and timeouts are those the C++ types
      hold.
    - Padding and the bytes no field owns are not locations.
    - The refinements of channels, directories, tables and topics are for calls
      that do not overlap; overlapping calls are the subject of [Clients],
      [Integrity], [Confinement], [Seqlock] and [Tenure].  [Integrity] is for publishers that
      write what they publish: a handle published beyond what was written shows
      the bytes the slot held before.  [Crash] takes one crash at a time, followed by
      a sweep.  [reclaim_orphaned_slots] is offline, as its contract asks.
    - What a [Node] call changed of its node before it throws is lost, the node stays
      as it was before; the spin counter of [Publisher.wait_for_commit] is unbounded
      where the code's is an [int].
    - A node's peers that still map an object that was replaced under its name are
      not tracked; [Shm] is an interface, and [Objects] states over the system
      calls what its implementations do.
    - [Tenure] takes each process to read its own start time, pids of 32 bits, and
      lock tokens that differ between processes that may run: a pid that is reused
      with a start time of the same fingerprint breaks the lock
      ([Tenure.collision_breaks_lock]).  What the system says of processes is true
      when it says it.  Handles stay with the thread that made them.
    - [Blackboard] reads the caller's identity afresh where the code
      caches it; [Process.self_identity_cached] says the two agree.
    - What is documented of system calls is a class the theorems of [Objects],
      [WinObjects], [WinProbe], [Timing], [Wake] and [WinWake] assume ([Documented]
      in each; datagrams may get lost; the fields of [Liveness.linux] and [Liveness.darwin]), with a concrete
      kernel that satisfies it; a probe sees the process table of one moment; in programs, futexes, clocks and process probes are actions of
      [Prog] with the meaning their callers rely on.
    - Left out: the Python bindings, the command-line tools, examples and benchmarks,
      which only call the library; in the modelled files, messages on standard error,
      and [std::string] and [std::vector] allocation failures.  Regions, registries
      and boards use the names of Linux ([Naming.compose_shm_name]).

    This file: machine-width arithmetic ([u16], [u32], [u64]: the value an unsigned
    C++ integer of that width holds), bits, total memories as functions with an
    update, byte lists in little-endian order, and the tactics and hint databases
    the components share. *)

From stdpp Require Export prelude functions strings.
From Stdlib Require Export ZArith Lia FunctionalExtensionality.

#[global] Open Scope Z_scope.
#[export] Set Warnings "-clear-no-such-hyp".

(** [lia] knows division and remainder in every file of the library. *)
Ltac Zify.zify_post_hook ::= Z.div_mod_to_equations.

(** ** Unsigned machine integers *)

Definition u8 (x : Z) : Z := x `mod` 256.
Definition u16 (x : Z) : Z := x `mod` 65536.
Definition u32 (x : Z) : Z := x `mod` 4294967296.
Definition u64 (x : Z) : Z := x `mod` 18446744073709551616.

(** [static_cast<int64_t>] and [static_cast<int32_t>] *)
Definition i64 (x : Z) : Z := (x + 9223372036854775808) `mod` 18446744073709551616 - 9223372036854775808.
Definition i32 (x : Z) : Z := (x + 2147483648) `mod` 4294967296 - 2147483648.

Abbreviation U32_MAX := 4294967295.
Abbreviation U64_MAX := 18446744073709551615.

Definition is_u8 (x : Z) : Prop := 0 <= x < 256.
Definition is_u16 (x : Z) : Prop := 0 <= x < 65536.
Definition is_u32 (x : Z) : Prop := 0 <= x < 4294967296.
Definition is_u64 (x : Z) : Prop := 0 <= x < 18446744073709551616.

#[export] Instance is_u8_dec x : Decision (is_u8 x).
Proof. unfold is_u8. apply _. Defined.
#[export] Instance is_u16_dec x : Decision (is_u16 x).
Proof. unfold is_u16. apply _. Defined.
#[export] Instance is_u32_dec x : Decision (is_u32 x).
Proof. unfold is_u32. apply _. Defined.
#[export] Instance is_u64_dec x : Decision (is_u64 x).
Proof. unfold is_u64. apply _. Defined.

Create HintDb word.
Create Rewrite HintDb word.

Lemma u8_range x : is_u8 (u8 x).
Proof. unfold is_u8, u8. lia. Qed.
Lemma u16_range x : is_u16 (u16 x).
Proof. unfold is_u16, u16. lia. Qed.
Lemma u32_range x : is_u32 (u32 x).
Proof. unfold is_u32, u32. lia. Qed.
Lemma u64_range x : is_u64 (u64 x).
Proof. unfold is_u64, u64. lia. Qed.

Lemma u8_small x : is_u8 x → u8 x = x.
Proof. unfold is_u8, u8. intros. by rewrite Z.mod_small. Qed.
Lemma u16_small x : is_u16 x → u16 x = x.
Proof. unfold is_u16, u16. intros. by rewrite Z.mod_small. Qed.
Lemma u32_small x : is_u32 x → u32 x = x.
Proof. unfold is_u32, u32. intros. by rewrite Z.mod_small. Qed.
Lemma u64_small x : is_u64 x → u64 x = x.
Proof. unfold is_u64, u64. intros. by rewrite Z.mod_small. Qed.

Lemma u64_id x : 0 <= x → x <= U64_MAX → u64 x = x.
Proof. intros. apply u64_small. unfold is_u64. lia. Qed.

Lemma le_div_mul n a b : 0 < b → n <= a `div` b → n * b <= a.
Proof.
  intros Hb Hn. pose proof (Z.mul_div_le a b Hb).
  pose proof (Z.mul_le_mono_nonneg_r _ _ b ltac:(lia) Hn). lia.
Qed.

Lemma mul_ge_r a b : 1 <= a → 0 <= b → b <= a * b.
Proof. intros. rewrite <- (Z.mul_1_l b) at 1. by apply Z.mul_le_mono_nonneg_r. Qed.

#[export] Hint Resolve u8_range u16_range u32_range u64_range : word.
#[export] Hint Rewrite u8_small u16_small u32_small u64_small
  using (unfold is_u8, is_u16, is_u32, is_u64 in *; lia) : word.

(** Solve a goal about word bounds by unfolding them into [lia] facts. *)
Ltac word :=
  unfold is_u8, is_u16, is_u32, is_u64, u8, u16, u32, u64 in *; lia.

(** [lia] without the hypotheses on remainders and quotients. *)
Ltac lin :=
  repeat match goal with
  | H : context [Z.modulo _ _] |- _ => clear H
  | H : context [Z.div _ _] |- _ => clear H
  end; lia.

(** Drop the wrap-arounds [lia] can see do not happen. *)
Ltac unwrap := autorewrite with word in *.

(** Destruct the boolean test a [match]/[if] of the goal depends on. *)
Ltac case_bool :=
  match goal with
  | |- context [if ?b then _ else _] =>
      let E := fresh "E" in destruct b eqn:E
  end.

(** ** Bits *)

Lemma land_ones_mod x n : 0 <= n → Z.land x (2 ^ n - 1) = x `mod` 2 ^ n.
Proof. intros. by rewrite <- Z.land_ones, Z.ones_equiv, Z.sub_1_r. Qed.

Lemma testbit_small x n i : 0 <= x < 2 ^ n → n <= i → Z.testbit x i = false.
Proof.
  intros [? ?] ?. destruct (decide (x = 0)) as [->|]; [apply Z.bits_0|].
  apply Z.bits_above_log2; [lia|].
  apply Z.log2_lt_pow2; [lia|]. eapply Z.lt_le_trans; [done|].
  apply Z.pow_le_mono_r; lia.
Qed.

Lemma lor_disjoint_add x y n :
  0 <= n → 0 <= y < 2 ^ n → x `mod` 2 ^ n = 0 → Z.lor x y = x + y.
Proof.
  intros Hn Hy Hx. rewrite Z.add_nocarry_lxor.
  - apply Z.bits_inj'. intros i Hi. rewrite Z.lor_spec, Z.lxor_spec.
    destruct (decide (i < n)).
    + replace (Z.testbit x i) with false; [by destruct (Z.testbit y i)|].
      symmetry. rewrite <- (Z.mod_pow2_bits_low x n i) by lia.
      by rewrite Hx, Z.bits_0.
    + rewrite (testbit_small y n i) by lia. by destruct (Z.testbit x i).
  - apply Z.bits_inj'. intros i Hi. rewrite Z.land_spec, Z.bits_0.
    destruct (decide (i < n)).
    + replace (Z.testbit x i) with false; [done|].
      symmetry. rewrite <- (Z.mod_pow2_bits_low x n i) by lia.
      by rewrite Hx, Z.bits_0.
    + rewrite (testbit_small y n i) by lia. by destruct (Z.testbit x i).
Qed.

(** [x lor y] of two words in which [x] only uses the bits from [n] up. *)
Lemma lor_shift_add x y n :
  0 <= n → 0 <= y < 2 ^ n → Z.lor (Z.shiftl x n) y = x * 2 ^ n + y.
Proof.
  intros Hn Hy. rewrite Z.shiftl_mul_pow2 by done.
  apply (lor_disjoint_add _ _ n); [done|done|]. by rewrite Z.mod_mul by lia.
Qed.

(** Masking the bits below position [k] of a [w]-bit word, [& ~(2^k - 1)],
    rounds down to a multiple of [2^k]. *)
Lemma land_clear_low w x k :
  0 <= k <= w → 0 <= x < 2 ^ w →
  Z.land x (Z.ldiff (Z.ones w) (Z.ones k)) = x - x `mod` 2 ^ k.
Proof.
  intros Hk Hx. replace (x - x `mod` 2 ^ k) with (Z.shiftl (Z.shiftr x k) k).
  - apply Z.bits_inj'. intros i Hi.
    rewrite Z.land_spec, Z.ldiff_spec, Z.shiftl_spec by lia.
    destruct (decide (i < k)).
    + rewrite (Z.ones_spec_low k) by lia.
      rewrite (Z.testbit_neg_r _ (i - k)) by lia. by rewrite !andb_false_r.
    + rewrite (Z.ones_spec_high k) by lia.
      rewrite Z.shiftr_spec by lia. replace (i - k + k) with i by lia.
      destruct (decide (i < w)).
      * rewrite Z.ones_spec_low by lia. by rewrite andb_true_r.
      * by rewrite (testbit_small x w i) by lia.
  - rewrite Z.shiftl_mul_pow2, Z.shiftr_div_pow2 by lia.
    pose proof (Z.div_mod x (2 ^ k)). lia.
Qed.

Lemma ones_ldiff w k : 0 <= k <= w → Z.ldiff (Z.ones w) (Z.ones k) = 2 ^ w - 1 - (2 ^ k - 1).
Proof.
  intros Hk. rewrite Z.ldiff_ones_r by lia. rewrite Z.shiftr_div_pow2, Z.shiftl_mul_pow2 by lia.
  rewrite Z.ones_equiv. replace w with (k + (w - k)) by lia. rewrite Z.pow_add_r by lia.
  assert (0 < 2 ^ k) by (apply Z.pow_pos_nonneg; lia).
  assert (0 < 2 ^ (w - k)) by (apply Z.pow_pos_nonneg; lia).
  replace (Z.pred (2 ^ k * 2 ^ (w - k)) `div` 2 ^ k) with (2 ^ (w - k) - 1); [nia|].
  apply (Z.div_unique _ _ _ (2 ^ k - 1)); nia.
Qed.

Lemma land_lnot_round x k :
  0 <= k <= 64 → is_u64 x → Z.land x (U64_MAX - (2 ^ k - 1)) = x - x `mod` 2 ^ k.
Proof.
  intros Hk Hx. change U64_MAX with (2 ^ 64 - 1). rewrite <- ones_ldiff by lia.
  by apply land_clear_low.
Qed.

Lemma land_lnot_round32 x k :
  0 <= k <= 32 → is_u32 x → Z.land x (U32_MAX - (2 ^ k - 1)) = x - x `mod` 2 ^ k.
Proof.
  intros Hk Hx. change U32_MAX with (2 ^ 32 - 1). rewrite <- ones_ldiff by lia.
  by apply land_clear_low.
Qed.

(** ** Memories: total functions updated at a point *)

Section memory.
Context {L : Type} `{EqDecision L}.

Lemma upd_same (m : L → Z) l v : (<[l:=v]> m) l = v.
Proof. apply fn_lookup_insert. Qed.
Lemma upd_ne (m : L → Z) l l' v : l ≠ l' → (<[l:=v]> m) l' = m l'.
Proof. intros. by apply fn_lookup_insert_ne. Qed.
Lemma upd_dec (m : L → Z) l l' v :
  (<[l:=v]> m) l' = if decide (l = l') then v else m l'.
Proof. reflexivity. Qed.
(** Storing what is there changes nothing. *)
Lemma upd_upd (m : L → Z) l v v' : <[l:=v]> (<[l:=v']> m) = <[l:=v]> m.
Proof. extensionality l'. rewrite !upd_dec. by case_decide. Qed.
Lemma upd_id (m : L → Z) l v : m l = v → <[l:=v]> m = m.
Proof.
  intros <-. apply functional_extensionality. intros l'. rewrite upd_dec.
  by destruct (decide _) as [->|].
Qed.
End memory.

Create Rewrite HintDb mem.
#[export] Hint Rewrite @upd_same : mem.
#[export] Hint Rewrite @upd_ne using congruence : mem.

(** Look through memory updates at locations [congruence] can compare. *)
Ltac mem := autorewrite with mem in *.

(** ** Little-endian bytes *)

(** The [n] low bytes of [x], least significant first (a [memcpy] of an
    integer on the little-endian targets the library supports). *)
Fixpoint le_bytes (n : nat) (x : Z) : list Z :=
  match n with
  | O => []
  | S n' => x `mod` 256 :: le_bytes n' (x `div` 256)
  end.

Fixpoint le_word (bs : list Z) : Z :=
  match bs with
  | [] => 0
  | b :: bs' => b + 256 * le_word bs'
  end.

Lemma le_bytes_length n x : length (le_bytes n x) = n.
Proof. revert x; induction n as [|n IH]; intros x; simpl; [done|by rewrite IH]. Qed.

Lemma le_bytes_byte n x : Forall is_u8 (le_bytes n x).
Proof.
  revert x; induction n as [|n IH]; intros x; cbn [le_bytes]; constructor; auto. word.
Qed.

Lemma le_word_le_bytes n x : le_word (le_bytes n x) = x `mod` 256 ^ Z.of_nat n.
Proof.
  revert x; induction n as [|n IH]; intros x.
  { simpl. by rewrite Z.mod_1_r. }
  cbn [le_bytes le_word]. rewrite IH, Nat2Z.inj_succ, Z.pow_succ_r by lia.
  rewrite Z.rem_mul_r by lia. lia.
Qed.

Lemma le_word_range bs :
  Forall is_u8 bs → 0 <= le_word bs < 256 ^ Z.of_nat (length bs).
Proof.
  induction 1 as [|b bs Hb _ IH]; [simpl; lia|].
  cbn [le_word length]. rewrite Nat2Z.inj_succ, Z.pow_succ_r by lia. word.
Qed.

Lemma le_bytes_le_word bs n :
  Forall is_u8 bs → length bs = n → le_bytes n (le_word bs) = bs.
Proof.
  intros Hbs <-. induction Hbs as [|b bs Hb Hbs IH]; [done|].
  cbn [length le_word le_bytes].
  replace ((b + 256 * le_word bs) `mod` 256) with b by word.
  replace ((b + 256 * le_word bs) `div` 256) with (le_word bs) by word.
  by rewrite IH.
Qed.

#[global] Arguments le_bytes : simpl never.

(** ** Lists *)

Lemma list_lookup_Z_lt {A} (l : list A) (i : nat) x :
  l !! i = Some x → (i < length l)%nat.
Proof. apply lookup_lt_Some. Qed.

(** The index of the first element that passes a test. *)
Fixpoint first_index {A} (f : A → bool) (l : list A) : option nat :=
  match l with
  | [] => None
  | x :: l => if f x then Some 0%nat else S <$> first_index f l
  end.

Lemma first_index_is {A} (f : A → bool) l i x :
  l !! i = Some x → f x = true → (∀ j y, (j < i)%nat → l !! j = Some y → f y = false) →
  first_index f l = Some i.
Proof.
  revert i. induction l as [|y l IH]; intros i Hi Hx Hbefore; [done|].
  destruct i as [|i]; cbn in *.
  - injection Hi as ->. by rewrite Hx.
  - rewrite (Hbefore 0%nat y) by (done || lia). rewrite (IH i); [done|done|done|].
    intros j z Hj Hz. apply (Hbefore (S j)); [lia|done].
Qed.

Lemma first_index_none {A} (f : A → bool) l :
  (∀ j y, l !! j = Some y → f y = false) → first_index f l = None.
Proof.
  induction l as [|y l IH]; intros Hall; [done|]. cbn. rewrite (Hall 0%nat y) by done.
  rewrite IH; [done|]. intros j. apply (Hall (S j)).
Qed.

Lemma first_index_lookup {A} (f : A → bool) l i :
  first_index f l = Some i → ∃ x, l !! i = Some x ∧ f x = true.
Proof.
  revert i. induction l as [|y l IH]; intros i; cbn; [done|].
  destruct (f y) eqn:Hy; [intros [= <-]; eauto|].
  destruct (first_index f l) as [k|]; [|done]. intros [= <-]. by apply IH.
Qed.

Lemma NoDup_filter_neq {A} `{EqDecision A} (l : list A) x :
  NoDup l → x ∉ filter (.≠ x) l.
Proof. intros _ [? _]%list_elem_of_filter. done. Qed.

Lemma filter_neq_perm {A} `{EqDecision A} (l : list A) x :
  NoDup l → x ∈ l → x :: filter (.≠ x) l ≡ₚ l.
Proof.
  intros Hnd Hx. apply NoDup_Permutation; [|done|].
  - constructor; [by apply NoDup_filter_neq|by apply NoDup_filter].
  - intros y. rewrite elem_of_cons, list_elem_of_filter. destruct (decide (y = x)); naive_solver.
Qed.

(** The bytes of a name as message text. *)
Definition text_of_bytes (bs : list Z) : string :=
  foldr (λ b s, String.String (Ascii.ascii_of_N (Z.to_N b)) s) ""%string bs.

(** [0; 1; ...; n - 1] *)
Definition upto (n : Z) : list Z := map Z.of_nat (seq 0 (Z.to_nat n)).

Lemma elem_of_upto n i : i ∈ upto n ↔ 0 <= i < n.
Proof.
  unfold upto. rewrite list_elem_of_fmap. setoid_rewrite elem_of_seq. split.
  - intros (k & -> & Hk). lia.
  - intros Hi. exists (Z.to_nat i). lia.
Qed.

Lemma upto_S n : 0 <= n → upto (n + 1) = upto n ++ [n].
Proof.
  intros Hn. unfold upto. replace (Z.to_nat (n + 1)) with (S (Z.to_nat n)) by lia.
  rewrite seq_S, map_app. cbn. by rewrite Z2Nat.id.
Qed.

Lemma NoDup_upto n : NoDup (upto n).
Proof. unfold upto. apply NoDup_fmap_2; [intros ? ?; lia|]. apply NoDup_seq. Qed.

(** ** Sums over lists *)

Section total.
Context {A : Type}.
Implicit Types (f : A → Z) (xs : list A).

Fixpoint total f xs : Z :=
  match xs with
  | [] => 0
  | x :: xs => f x + total f xs
  end.

Lemma total_ext f f' xs : (∀ x, x ∈ xs → f x = f' x) → total f xs = total f' xs.
Proof.
  induction xs as [|x xs IH]; intros Hf; simpl; [done|].
  rewrite (Hf x) by set_solver. rewrite IH by set_solver. done.
Qed.

Lemma total_nonneg f xs : (∀ x, x ∈ xs → 0 <= f x) → 0 <= total f xs.
Proof.
  induction xs as [|x xs IH]; intros Hf; simpl; [done|].
  pose proof (Hf x ltac:(set_solver)). pose proof (IH ltac:(set_solver)). lia.
Qed.

(** A sum whose terms change at one element only. *)
Lemma total_app f xs ys : total f (xs ++ ys) = total f xs + total f ys.
Proof. induction xs as [|x xs IH]; cbn [app total]; lia. Qed.

Lemma total_zero f xs : (∀ x, x ∈ xs → f x = 0) → total f xs = 0.
Proof.
  induction xs as [|x xs IH]; intros Hf; [done|]. cbn [total].
  rewrite Hf, IH; [done|intros; apply Hf|]; set_solver.
Qed.

Lemma total_change f f' x xs :
  NoDup xs → x ∈ xs → (∀ y, y ∈ xs → y ≠ x → f' y = f y) →
  total f' xs = total f xs - f x + f' x.
Proof.
  induction xs as [|y xs IH]; intros Hnd Hx Hf; [set_solver|].
  apply NoDup_cons in Hnd as [Hy Hnd]. simpl.
  apply elem_of_cons in Hx as [->|Hx].
  - rewrite (total_ext f' f xs); [lia|]. intros z Hz. apply Hf; set_solver.
  - rewrite IH by set_solver. rewrite (Hf y) by set_solver. lia.
Qed.

Lemma total_le_length f xs :
  (∀ x, x ∈ xs → f x <= 1) → total f xs <= Z.of_nat (length xs).
Proof.
  induction xs as [|x xs IH]; intros Hf; [done|]. cbn [total length].
  pose proof (Hf x ltac:(set_solver)). pose proof (IH ltac:(set_solver)). lia.
Qed.
End total.
