(* ===== verification/Prog.v ===== *)
(** * Programs over shared memory

    The language the code is translated into.  A C++ function becomes a value
    of [prog L A]: a tree of atomic actions on a shared memory with locations
    [L] (loads, stores, compare-exchanges, fetch-adds), of calls into the
    operating system (clock, sleep, futex, process probes) and of unbounded
    [Loop]s, ending in a returned value or a thrown exception.

    Two semantics are given.  [run] executes a program alone, with the memory
    and the system state as explicit state; it is a function, so examples
    evaluate.  [wp] is total correctness for [run]: the program ends, and its
    outcome satisfies the postcondition.  [Conc.v] interleaves programs.

    Memory orders: every action is sequentially consistent, so fences are not
    actions of the language. *)

From S2P Require Import Prelude.

(** ** Exceptions *)

Inductive exn_kind :=
  | runtime_error
  | invalid_argument
  | length_error
  | system_error
  | version_mismatch.

Record exn := Exn { exn_kind_of : exn_kind; exn_what : string }.

(** ** Actions and programs *)

Section language.
Context {L : Type}.

Inductive act : Type → Type :=
  | Load (l : L) : act Z
  | Store (l : L) (v : Z) : act unit
  | Cas (l : L) (expected desired : Z) : act (bool * Z)
  | CasWeak (l : L) (expected desired : Z) : act (bool * Z)
  | FetchAdd (wrap : Z → Z) (l : L) (d : Z) : act Z
  | FutexWait (l : L) (expected timeout : Z) : act unit
  | FutexWakeAll (l : L) : act unit
  | BackendSignal : act unit
  | MonotonicNs : act Z
  | SinceEpoch : act Z
  | Yield : act unit
  | Sleep (ns : Z) : act unit
  | CurrentPid : act Z
  | ProcessExists (pid : Z) : act bool
  | ProcessProbe (pid : Z) : act (Z * bool).

Inductive prog (A : Type) : Type :=
  | Ret (a : A)
  | Throw (e : exn)
  | Act {R : Type} (a : act R) (k : R → prog A)
  | Loop {S B : Type} (body : S → prog (S + B)) (s : S) (k : B → prog A).

Arguments Ret {A} a.
Arguments Throw {A} e.
Arguments Act {A R} a k.
Arguments Loop {A S B} body s k.

Fixpoint bind {A B} (p : prog A) (f : A → prog B) : prog B :=
  match p with
  | Ret a => f a
  | Throw e => Throw e
  | Act a k => Act a (λ r, bind (k r) f)
  | Loop body s k => Loop body s (λ b, bind (k b) f)
  end.

(** One turn of a [while (true)] loop: [inl] goes round again, [inr] leaves. *)
Definition unroll {A S B} (body : S → prog (S + B)) (s : S) (k : B → prog A) : prog A :=
  bind (body s) (λ r,
    match r with
    | inl s' => Loop body s' k
    | inr b => k b
    end).

Definition loop {S B} (s : S) (body : S → prog (S + B)) : prog B := Loop body s Ret.

(** [for (i = lo; i < lo + n; ++i)]: [inl] is [continue], [inr] leaves the
    loop (a [break] or a [return]) with a value. *)
Fixpoint for_ {S B} (n : nat) (i : Z) (s : S) (body : Z → S → prog (S + B)) : prog (S + B) :=
  match n with
  | O => Ret (inl s)
  | S n' => bind (body i s) (λ r,
      match r with
      | inl s' => for_ n' (i + 1) s' body
      | inr b => Ret (inr b)
      end)
  end.

(** [for] without [break]: the body only updates the state. *)
Fixpoint foreach {S} (n : nat) (i : Z) (s : S) (body : Z → S → prog S) : prog S :=
  match n with
  | O => Ret s
  | S n' => bind (body i s) (λ s', foreach n' (i + 1) s' body)
  end.

(** [try { p } catch (...)]: the exception as a value. *)
Fixpoint try_ {A} (p : prog A) : prog (A + exn) :=
  match p with
  | Ret a => Ret (inl a)
  | Throw e => Ret (inr e)
  | Act a k => Act a (λ r, try_ (k r))
  | Loop body s k =>
      Loop (λ s0, bind (try_ (body s0)) (λ r,
              match r with
              | inl (inl s') => Ret (inl s')
              | inl (inr b) => Ret (inr (inl b))
              | inr e => Ret (inr (inr e))
              end)) s
           (λ r, match r with
                 | inl b => try_ (k b)
                 | inr e => Ret (inr e)
                 end)
  end.

Definition load (l : L) : prog Z := Act (Load l) Ret.
Definition store (l : L) (v : Z) : prog unit := Act (Store l v) Ret.
Definition compare_exchange_strong (l : L) (expected desired : Z) : prog (bool * Z) :=
  Act (Cas l expected desired) Ret.
Definition compare_exchange_weak (l : L) (expected desired : Z) : prog (bool * Z) :=
  Act (CasWeak l expected desired) Ret.
Definition fetch_add (wrap : Z → Z) (l : L) (d : Z) : prog Z := Act (FetchAdd wrap l d) Ret.
Definition fetch_sub (wrap : Z → Z) (l : L) (d : Z) : prog Z := Act (FetchAdd wrap l (- d)) Ret.
Definition futex_wait (l : L) (expected timeout : Z) : prog unit :=
  Act (FutexWait l expected timeout) Ret.
Definition futex_wake_all (l : L) : prog unit := Act (FutexWakeAll l) Ret.
Definition backend_signal : prog unit := Act BackendSignal Ret.
Definition monotonic_ns : prog Z := Act MonotonicNs Ret.
Definition since_epoch : prog Z := Act SinceEpoch Ret.
Definition yield : prog unit := Act Yield Ret.
Definition sleep (ns : Z) : prog unit := Act (Sleep ns) Ret.
Definition current_pid : prog Z := Act CurrentPid Ret.
Definition process_exists (pid : Z) : prog bool := Act (ProcessExists pid) Ret.
Definition process_probe (pid : Z) : prog (Z * bool) := Act (ProcessProbe pid) Ret.

Definition when (b : bool) (p : prog unit) : prog unit := if b then p else Ret tt.
End language.

Arguments act L R : clear implicits.
Arguments prog L A : clear implicits.
Arguments Ret {L A} a.
Arguments Throw {L A} e.
Arguments Act {L A R} a k.
Arguments Loop {L A S B} body s k.

Declare Scope prog_scope.
Delimit Scope prog_scope with prog.
Bind Scope prog_scope with prog.
Notation "x <- p ;; q" := (bind p (λ x, q))
  (at level 100, p at next level, q at level 200, right associativity) : prog_scope.
Notation "' pat <- p ;; q" := (bind p (λ x, match x with pat => q end))
  (at level 20, pat pattern, p at level 99, q at level 200) : prog_scope.
Notation "p ;; q" := (bind p (λ _ : unit, q))
  (at level 100, q at level 200, right associativity) : prog_scope.
(** Run [p] for its effect, dropping its value. *)
Notation "p ;;; q" := (bind p (λ _, q))
  (at level 100, q at level 200, right associativity) : prog_scope.
#[global] Open Scope prog_scope.

(** The same program on another memory: [f] places its locations. *)
Section embed.
Context {L L' : Type} (f : L → L').

Definition embed_act {R} (a : act L R) : act L' R :=
  match a in act _ R return act L' R with
  | Load l => Load (f l)
  | Store l v => Store (f l) v
  | Cas l e d => Cas (f l) e d
  | CasWeak l e d => CasWeak (f l) e d
  | FetchAdd wrap l d => FetchAdd wrap (f l) d
  | FutexWait l e t => FutexWait (f l) e t
  | FutexWakeAll l => FutexWakeAll (f l)
  | BackendSignal => BackendSignal
  | MonotonicNs => MonotonicNs
  | SinceEpoch => SinceEpoch
  | Yield => Yield
  | Sleep ns => Sleep ns
  | CurrentPid => CurrentPid
  | ProcessExists pid => ProcessExists pid
  | ProcessProbe pid => ProcessProbe pid
  end.

Fixpoint embed {A} (p : prog L A) : prog L' A :=
  match p with
  | Ret a => Ret a
  | Throw e => Throw e
  | Act a k => Act (embed_act a) (λ r, embed (k r))
  | Loop body s k => Loop (λ s, embed (body s)) s (λ b, embed (k b))
  end.
End embed.

Definition throw {L A} (k : exn_kind) (msg : string) : prog L A := Throw (Exn k msg).

(** ** Executing a program alone *)

(** The operating system as a lone process sees it: the monotonic clock, the
    time one clock read takes, the wall clock, the caller's pid, and the
    process table (start time, and whether the process is an unreaped zombie). *)
Record os := Os {
  os_clock : Z;
  os_tick : Z;
  os_epoch : Z;
  os_pid : Z;
  os_procs : Z → option (Z * bool);
  os_signals : nat
}.

Record world (L : Type) := World {
  w_mem : L → Z;
  w_os : os;
  w_wakes : list L
}.
Arguments World {L} w_mem w_os w_wakes.
Arguments w_mem {L} w.
Arguments w_os {L} w.
Arguments w_wakes {L} w.

Definition set_mem {L} (w : world L) (m : L → Z) : world L := World m (w_os w) (w_wakes w).
Definition set_os {L} (w : world L) (o : os) : world L := World (w_mem w) o (w_wakes w).
Definition os_advance (o : os) (d : Z) : os :=
  Os (os_clock o + d) (os_tick o) (os_epoch o) (os_pid o) (os_procs o) (os_signals o).
Definition os_signal (o : os) : os :=
  Os (os_clock o) (os_tick o) (os_epoch o) (os_pid o) (os_procs o) (S (os_signals o)).

Section exec.
Context {L : Type} `{EqDecision L}.

Definition write (l : L) (v : Z) (w : world L) : world L := set_mem w (<[l:=v]> (w_mem w)).

Definition exec_cas (l : L) (expected desired : Z) (w : world L) : (bool * Z) * world L :=
  let v := w_mem w l in
  if v =? expected then ((true, v), write l desired w) else ((false, v), w).

Definition exec {R} (a : act L R) (w : world L) : R * world L :=
  match a in act _ R return R * world L with
  | Load l => (w_mem w l, w)
  | Store l v => (tt, write l v w)
  | Cas l e d => exec_cas l e d w
  | CasWeak l e d => exec_cas l e d w
  | FetchAdd wrap l d => (w_mem w l, write l (wrap (w_mem w l + d)) w)
  | FutexWait l e t =>
      (tt, if u32 (w_mem w l) =? u32 e then set_os w (os_advance (w_os w) (Z.max 0 t)) else w)
  | FutexWakeAll l => (tt, World (w_mem w) (w_os w) (l :: w_wakes w))
  | BackendSignal => (tt, set_os w (os_signal (w_os w)))
  | MonotonicNs => (os_clock (w_os w), set_os w (os_advance (w_os w) (os_tick (w_os w))))
  | SinceEpoch => (os_epoch (w_os w), w)
  | Yield => (tt, w)
  | Sleep ns => (tt, set_os w (os_advance (w_os w) (Z.max 0 ns)))
  | CurrentPid => (os_pid (w_os w), w)
  | ProcessExists pid => (bool_decide (is_Some (os_procs (w_os w) pid)) && negb (pid =? 0), w)
  | ProcessProbe pid =>
      (if pid =? 0 then (0, false) else default (0, false) (os_procs (w_os w) pid), w)
  end.

Inductive outcome (A : Type) := Val (a : A) | Exc (e : exn).
Arguments Val {A} a.
Arguments Exc {A} e.

(** [fuel] bounds the number of actions and loop turns on the longest path. *)
Fixpoint run (fuel : nat) {A} (p : prog L A) (w : world L) : option (outcome A * world L) :=
  match fuel with
  | O => None
  | S n =>
      match p with
      | Ret a => Some (Val a, w)
      | Throw e => Some (Exc e, w)
      | Act a k => let '(r, w') := exec a w in run n (k r) w'
      | Loop body s k =>
          match run n (body s) w with
          | Some (Val (inl s'), w') => run n (Loop body s' k) w'
          | Some (Val (inr b), w') => run n (k b) w'
          | Some (Exc e, w') => Some (Exc e, w')
          | None => None
          end
      end
  end.

Definition wp {A} (p : prog L A) (w : world L) (Q : outcome A → world L → Prop) : Prop :=
  ∃ fuel o w', run fuel p w = Some (o, w') ∧ Q o w'.
End exec.

Arguments Val {A} a.
Arguments Exc {A} e.

(** The program returns (it does not throw) and the value satisfies [Q]. *)
Definition returns {L} `{EqDecision L} {A} (p : prog L A) (w : world L)
    (Q : A → world L → Prop) : Prop :=
  wp p w (λ o w', match o with Val a => Q a w' | Exc _ => False end).

(** The program throws [e]. *)
Definition throws {L} `{EqDecision L} {A} (p : prog L A) (w : world L)
    (e : exn) (Q : world L → Prop) : Prop :=
  wp p w (λ o w', match o with Val _ => False | Exc e' => e' = e ∧ Q w' end).

(** ** Rules *)

Section rules.
Context {L : Type} `{EqDecision L}.
Implicit Types (w : world L).

Lemma run_mono n m {A} (p : prog L A) w r :
  run n p w = Some r → (n ≤ m)%nat → run m p w = Some r.
Proof.
  revert m A p w r. induction n as [|n IH]; intros m A p w r Hr Hle; [done|].
  destruct m as [|m]; [lia|]. destruct p as [a|e|R a k|T C body s k]; simpl in *; auto.
  - destruct (exec a w). eapply IH; [done|lia].
  - destruct (run n (body s) w) as [[[[s'|b]|e] w1]|] eqn:Hb; [..|done];
      rewrite (IH m _ _ _ _ Hb) by lia; auto; eapply IH; eauto; lia.
Qed.

Lemma run_bind {A B} n (p : prog L A) (f : A → prog L B) w o w' m r :
  run n p w = Some (o, w') →
  run m (match o with Val a => f a | Exc e => Throw e end) w' = Some r →
  run (n + m) (bind p f) w = Some r.
Proof.
  revert p w. induction n as [|n IH]; intros p w Hrun Hm; [done|].
  destruct p as [a|e|R a k|T C body s k]; simpl in Hrun.
  - injection Hrun as <- <-. eapply run_mono; [exact Hm|lia].
  - injection Hrun as <- <-. eapply run_mono; [exact Hm|lia].
  - simpl. destruct (exec a w) as [x w1]. eauto.
  - simpl. destruct (run n (body s) w) as [[[[s'|b]|e] w1]|] eqn:Hb; [..|done];
      rewrite (run_mono _ (n + m) _ _ _ Hb) by lia.
    + apply (IH (Loop body s' k) w1); auto.
    + eauto.
    + injection Hrun as <- <-.
      destruct m; [done|]. injection Hm as <-. done.
Qed.

Lemma wp_mono {A} (p : prog L A) w (Q Q' : outcome A → world L → Prop) :
  wp p w Q → (∀ o w', Q o w' → Q' o w') → wp p w Q'.
Proof. intros (n & o & w' & ? & ?) HQ. exists n, o, w'. auto. Qed.

Lemma wp_ret {A} (a : A) w (Q : outcome A → world L → Prop) :
  Q (Val a) w → wp (Ret a) w Q.
Proof. intros. by exists 1%nat, (Val a), w. Qed.

Lemma wp_throw {A} e w (Q : outcome A → world L → Prop) :
  Q (Exc e) w → wp (Throw e) w Q.
Proof. intros. by exists 1%nat, (Exc e), w. Qed.

Lemma wp_bind {A B} (p : prog L A) (f : A → prog L B) w (Q : outcome B → world L → Prop) :
  wp p w (λ o w', match o with Val a => wp (f a) w' Q | Exc e => Q (Exc e) w' end) →
  wp (bind p f) w Q.
Proof.
  intros (n & o & w' & Hn & Ho). destruct o as [a|e].
  - destruct Ho as (m & o & w2 & Hm & HQ). exists (n + m)%nat, o, w2.
    split; [|done]. by eapply run_bind.
  - exists (n + 1)%nat, (Exc e), w'. split; [|done]. by eapply run_bind.
Qed.

Lemma wp_act {R A} (a : act L R) (k : R → prog L A) w (Q : outcome A → world L → Prop) :
  (let '(r, w') := exec a w in wp (k r) w' Q) → wp (Act a k) w Q.
Proof.
  destruct (exec a w) as [r w'] eqn:He. intros (n & o & w2 & Hn & HQ).
  exists (S n), o, w2. simpl. by rewrite He.
Qed.

(** A loop turn. *)
Lemma wp_loop {A S B} (body : S → prog L (S + B)) s (k : B → prog L A) w
    (Q : outcome A → world L → Prop) :
  wp (body s) w (λ o w', match o with
                         | Val (inl s') => wp (Loop body s' k) w' Q
                         | Val (inr b) => wp (k b) w' Q
                         | Exc e => Q (Exc e) w' end) →
  wp (Loop body s k) w Q.
Proof.
  intros (n & o & w' & Hn & Ho).
  destruct o as [[s'|b]|e].
  - destruct Ho as (m & o & w2 & Hm & HQ). exists (1 + (n + m))%nat, o, w2.
    split; [|done]. simpl. rewrite (run_mono _ (n + m) _ _ _ Hn) by lia.
    eapply run_mono; [exact Hm|lia].
  - destruct Ho as (m & o & w2 & Hm & HQ). exists (1 + (n + m))%nat, o, w2.
    split; [|done]. simpl. rewrite (run_mono _ (n + m) _ _ _ Hn) by lia.
    eapply run_mono; [exact Hm|lia].
  - exists (1 + n)%nat, (Exc e), w'. split; [|done]. simpl. by rewrite Hn.
Qed.

(** [run] is a function, so a program has at most one outcome. *)
Lemma wp_det {A} (p : prog L A) w (Q Q' : outcome A → world L → Prop) :
  wp p w Q → wp p w Q' → wp p w (λ o w', Q o w' ∧ Q' o w').
Proof.
  intros (n & o & w1 & Hn & HQ) (m & o' & w2 & Hm & HQ').
  exists n, o, w1. split; [done|]. split; [done|].
  pose proof (run_mono n (n + m) _ _ _ Hn ltac:(lia)) as E1.
  pose proof (run_mono m (n + m) _ _ _ Hm ltac:(lia)) as E2.
  rewrite E1 in E2. by injection E2 as -> ->.
Qed.

(** *** The rules for programs that return *)

Lemma returns_mono {A} (p : prog L A) w (Q Q' : A → world L → Prop) :
  returns p w Q → (∀ a w', Q a w' → Q' a w') → returns p w Q'.
Proof. intros Hp HQ. eapply wp_mono; [exact Hp|]. intros [a|e] w'; auto. Qed.

Lemma returns_ret {A} (a : A) w (Q : A → world L → Prop) : Q a w → returns (Ret a) w Q.
Proof. intros. by apply wp_ret. Qed.

Lemma returns_bind {A B} (p : prog L A) (f : A → prog L B) w (Q : B → world L → Prop) :
  returns p w (λ a w', returns (f a) w' Q) → returns (bind p f) w Q.
Proof. intros Hp. apply wp_bind. eapply wp_mono; [exact Hp|]. by intros [a|e] w'. Qed.

Lemma returns_act {R A} (a : act L R) (f : R → prog L A) w (Q : A → world L → Prop) :
  returns (f (exec a w).1) (exec a w).2 Q → returns (Act a f) w Q.
Proof. intros Hf. apply wp_act. by destruct (exec a w). Qed.

Lemma returns_loop {A S B} (body : S → prog L (S + B)) s (k : B → prog L A) w
    (Q : A → world L → Prop) :
  returns (body s) w (λ r w', match r with
                              | inl s' => returns (Loop body s' k) w' Q
                              | inr b => returns (k b) w' Q end) →
  returns (Loop body s k) w Q.
Proof.
  intros Hb. apply wp_loop. eapply wp_mono; [exact Hb|]. by intros [[s'|b]|e] w'.
Qed.

(** After a part that returns. *)
Lemma wp_bind_returns {A B} (p : prog L A) (f : A → prog L B) w (Q : outcome B → world L → Prop) :
  returns p w (λ a w', wp (f a) w' Q) → wp (bind p f) w Q.
Proof. intros Hp. apply wp_bind. eapply wp_mono; [exact Hp|]. by intros [a|e] w'. Qed.

Lemma returns_wp {A} (p : prog L A) w (Q : outcome A → world L → Prop) :
  returns p w (λ a, Q (Val a)) → wp p w Q.
Proof. intros Hp. eapply wp_mono; [exact Hp|]. by intros [a|e] w'. Qed.

(** [try] gives the outcome as a value. *)
Lemma returns_try {A} (p : prog L A) w (Q : A + exn → world L → Prop) :
  wp p w (λ o w', Q (match o with Val a => inl a | Exc e => inr e end) w') → returns (try_ p) w Q.
Proof.
  intros (n & o & w' & Hn & HQ). revert A p w o w' Q Hn HQ.
  induction n as [|n IH]; intros A p w o w' Q Hn HQ; [done|].
  destruct p as [a|e|R a k|T C body s k]; cbn [run try_] in *.
  - injection Hn as <- <-. by apply returns_ret.
  - injection Hn as <- <-. by apply returns_ret.
  - apply returns_act. destruct (exec a w) as [r w1]. by eapply IH.
  - apply returns_loop, returns_bind.
    destruct (run n (body s) w) as [[[[s'|b]|e] w1]|] eqn:Hb; [..|done];
      (eapply IH; [exact Hb|]; apply returns_ret).
    + by apply (IH _ (Loop body s' k) _ _ _ _ Hn).
    + by eapply IH.
    + injection Hn as <- <-. by apply returns_ret.
Qed.

(** A loop whose turns decrease a measure ends. *)
Lemma returns_loop_wf {A S B} (body : S → prog L (S + B)) (k : B → prog L A)
    (Q : A → world L → Prop) (Inv : nat → S → world L → Prop) n s w :
  Inv n s w →
  (∀ n s w, Inv n s w →
    returns (body s) w (λ r w', match r with
      | inl s' => ∃ n', (n' < n)%nat ∧ Inv n' s' w'
      | inr b => returns (k b) w' Q end)) →
  returns (Loop body s k) w Q.
Proof.
  intros Hi Hbody. revert s w Hi.
  induction n as [n IH] using lt_wf_ind. intros s w Hi.
  apply returns_loop. eapply returns_mono; [by apply Hbody|].
  intros [s'|b] w'; [|done]. intros (n' & Hn' & Hi'). eauto.
Qed.

(** [for] loops: an invariant indexed by the loop variable. *)
Lemma returns_for {S B} n lo (s : S) (body : Z → S → prog L (S + B)) w
    (Inv : Z → S → world L → Prop) (Q : S + B → world L → Prop) :
  Inv lo s w →
  (∀ i s w, lo ≤ i < lo + Z.of_nat n → Inv i s w →
    returns (body i s) w (λ r w', match r with
      | inl s' => Inv (i + 1) s' w'
      | inr b => Q (inr b) w' end)) →
  (∀ s w, Inv (lo + Z.of_nat n) s w → Q (inl s) w) →
  returns (for_ n lo s body) w Q.
Proof.
  revert lo s w. induction n as [|n IH]; intros lo s w Hi Hb HQ.
  - apply returns_ret, HQ. by replace (lo + Z.of_nat 0) with lo by lia.
  - simpl. apply returns_bind. eapply returns_mono; [apply Hb; [lia|done]|].
    intros [s'|b] w' Hr; [|by apply returns_ret].
    apply IH; [done| |].
    + intros i s1 w1 Hlt. apply Hb. lia.
    + intros s1 w1 Hinv. apply HQ. by replace (lo + Z.of_nat (Datatypes.S n))
        with (lo + 1 + Z.of_nat n) by lia.
Qed.

(** The same for loops that may throw. *)
Lemma wp_for {S B} n lo (s : S) (body : Z → S → prog L (S + B)) w
    (Inv : Z → S → world L → Prop) (Q : outcome (S + B) → world L → Prop) :
  Inv lo s w →
  (∀ i s w, lo ≤ i < lo + Z.of_nat n → Inv i s w →
    wp (body i s) w (λ o w', match o with
      | Val (inl s') => Inv (i + 1) s' w'
      | Val (inr b) => Q (Val (inr b)) w'
      | Exc e => Q (Exc e) w' end)) →
  (∀ s w, Inv (lo + Z.of_nat n) s w → Q (Val (inl s)) w) →
  wp (for_ n lo s body) w Q.
Proof.
  revert lo s w. induction n as [|n IH]; intros lo s w Hi Hb HQ.
  - apply wp_ret, HQ. by replace (lo + Z.of_nat 0) with lo by lia.
  - cbn [for_]. apply wp_bind. eapply wp_mono; [apply Hb; [lia|done]|].
    intros [[s'|b]|e] w' Hr; [|by apply wp_ret|done].
    apply IH; [done| |].
    + intros i s1 w1 Hlt. apply Hb. lia.
    + intros s1 w1 Hinv. apply HQ. by replace (lo + Z.of_nat (Datatypes.S n))
        with (lo + 1 + Z.of_nat n) by lia.
Qed.

(** One turn of a [for] loop. *)
Lemma wp_for_turn {S B} n lo (s : S) (body : Z → S → prog L (S + B)) w
    (Q : outcome (S + B) → world L → Prop) :
  wp (body lo s) w (λ o w', match o with
    | Val (inl s') => wp (for_ n (lo + 1) s' body) w' Q
    | Val (inr b) => Q (Val (inr b)) w'
    | Exc e => Q (Exc e) w' end) →
  wp (for_ (Datatypes.S n) lo s body) w Q.
Proof.
  intros Hb. apply wp_bind. eapply wp_mono; [exact Hb|].
  intros [[s'|b]|e] w' HQ; [done|by apply wp_ret|done].
Qed.

Lemma returns_for_turn {S B} n lo (s : S) (body : Z → S → prog L (S + B)) w
    (Q : S + B → world L → Prop) :
  returns (body lo s) w (λ r w', match r with
    | inl s' => returns (for_ n (lo + 1) s' body) w' Q
    | inr b => Q (inr b) w' end) →
  returns (for_ (Datatypes.S n) lo s body) w Q.
Proof.
  intros Hb. apply returns_bind. eapply returns_mono; [exact Hb|].
  intros [s'|b] w' HQ; [done|by apply returns_ret].
Qed.

Lemma returns_foreach {S} n lo (s : S) (body : Z → S → prog L S) w
    (Inv : Z → S → world L → Prop) (Q : S → world L → Prop) :
  Inv lo s w →
  (∀ i s w, lo ≤ i < lo + Z.of_nat n → Inv i s w → returns (body i s) w (Inv (i + 1))) →
  (∀ s w, Inv (lo + Z.of_nat n) s w → Q s w) →
  returns (foreach n lo s body) w Q.
Proof.
  revert lo s w. induction n as [|n IH]; intros lo s w Hi Hb HQ.
  - apply returns_ret, HQ. by replace (lo + Z.of_nat 0) with lo by lia.
  - simpl. apply returns_bind. eapply returns_mono; [apply Hb; [lia|done]|].
    intros s' w' Hr. apply IH; [done| |].
    + intros i s1 w1 Hlt. apply Hb. lia.
    + intros s1 w1 Hinv. apply HQ. by replace (lo + Z.of_nat (Datatypes.S n))
        with (lo + 1 + Z.of_nat n) by lia.
Qed.

(** A loop whose turns only compute. *)
Lemma returns_foreach_pure {S} n lo (s : S) (body : Z → S → prog L S) (F : S → Z → S) w
    (Q : S → world L → Prop) :
  (∀ i s, lo <= i < lo + Z.of_nat n → returns (body i s) w (λ s' w', s' = F s i ∧ w' = w)) →
  Q (fold_left F (map (λ k, lo + Z.of_nat k) (seq 0 n)) s) w →
  returns (foreach n lo s body) w Q.
Proof.
  revert lo s. induction n as [|n IH]; intros lo s Hb HQ; [by apply returns_ret|].
  cbn [foreach]. apply returns_bind. eapply returns_mono; [apply Hb; lia|].
  intros s' w' [-> ->]. apply IH; [intros; apply Hb; lia|].
  cbn [seq map fold_left] in HQ. rewrite Z.add_0_r, <- seq_shift, map_map in HQ.
  replace (map (λ k, lo + 1 + Z.of_nat k) (seq 0 n)) with (map (λ k, lo + Z.of_nat (Datatypes.S k)) (seq 0 n));
    [done|]. apply map_ext. lia.
Qed.

Lemma returns_foreach_upto {S} n (s : S) (body : Z → S → prog L S) (F : S → Z → S) w
    (Q : S → world L → Prop) :
  (∀ i s, 0 <= i < n → returns (body i s) w (λ s' w', s' = F s i ∧ w' = w)) →
  Q (fold_left F (upto n) s) w →
  returns (foreach (Z.to_nat n) 0 s body) w Q.
Proof.
  intros Hb HQ. apply (returns_foreach_pure _ _ _ _ F); [intros; apply Hb; lia|].
  unfold upto in HQ. erewrite map_ext; [exact HQ|]. done.
Qed.
End rules.

(** *** Rules for the primitives, on a world given by its parts *)

Section primitives.
Context {L : Type} `{EqDecision L}.
Implicit Types (l : L) (m : L → Z) (o : os) (ws : list L).

Lemma returns_load l m o ws (Q : Z → world L → Prop) :
  Q (m l) (World m o ws) → returns (load l) (World m o ws) Q.
Proof. intros. apply returns_act. by apply returns_ret. Qed.

Lemma returns_store l v m o ws (Q : unit → world L → Prop) :
  Q tt (World (<[l:=v]> m) o ws) → returns (store l v) (World m o ws) Q.
Proof. intros. apply returns_act. by apply returns_ret. Qed.

Lemma returns_cas l e d m o ws (Q : bool * Z → world L → Prop) :
  (m l = e → Q (true, e) (World (<[l:=d]> m) o ws)) →
  (m l ≠ e → Q (false, m l) (World m o ws)) →
  returns (compare_exchange_strong l e d) (World m o ws) Q.
Proof.
  intros Hyes Hno. apply returns_act. cbn [exec]. unfold exec_cas. cbn [w_mem].
  destruct (Z.eqb_spec (m l) e) as [E|E]; apply returns_ret; cbn [fst snd];
    [rewrite E; by apply Hyes|by apply Hno].
Qed.

Lemma returns_cas_weak l e d m o ws (Q : bool * Z → world L → Prop) :
  (m l = e → Q (true, e) (World (<[l:=d]> m) o ws)) →
  (m l ≠ e → Q (false, m l) (World m o ws)) →
  returns (compare_exchange_weak l e d) (World m o ws) Q.
Proof.
  intros Hyes Hno. apply returns_act. cbn [exec]. unfold exec_cas. cbn [w_mem].
  destruct (Z.eqb_spec (m l) e) as [E|E]; apply returns_ret; cbn [fst snd];
    [rewrite E; by apply Hyes|by apply Hno].
Qed.

(** A compare-exchange on the value just read succeeds. *)
Lemma returns_cas_weak_hit l d m o ws (Q : bool * Z → world L → Prop) :
  Q (true, m l) (World (<[l:=d]> m) o ws) →
  returns (compare_exchange_weak l (m l) d) (World m o ws) Q.
Proof. intros. by apply returns_cas_weak. Qed.

Lemma returns_fetch_add wrap l d m o ws (Q : Z → world L → Prop) :
  Q (m l) (World (<[l:=wrap (m l + d)]> m) o ws) →
  returns (fetch_add wrap l d) (World m o ws) Q.
Proof. intros. apply returns_act. by apply returns_ret. Qed.

Lemma returns_fetch_sub wrap l d m o ws (Q : Z → world L → Prop) :
  Q (m l) (World (<[l:=wrap (m l - d)]> m) o ws) →
  returns (fetch_sub wrap l d) (World m o ws) Q.
Proof. intros. apply returns_act. by apply returns_ret. Qed.

(** A futex wait sleeps for its timeout when the word has the expected value. *)
Lemma returns_futex_wait l e t m o ws (Q : unit → world L → Prop) :
  (u32 (m l) = u32 e → Q tt (World m (os_advance o (Z.max 0 t)) ws)) →
  (u32 (m l) ≠ u32 e → Q tt (World m o ws)) →
  returns (futex_wait l e t) (World m o ws) Q.
Proof.
  intros Hyes Hno. apply returns_act. cbn [exec w_mem fst snd].
  destruct (Z.eqb_spec (u32 (m l)) (u32 e)); apply returns_ret; auto.
Qed.

Lemma returns_futex_wake_all l m o ws (Q : unit → world L → Prop) :
  Q tt (World m o (l :: ws)) → returns (futex_wake_all l) (World m o ws) Q.
Proof. intros. apply returns_act. by apply returns_ret. Qed.

Lemma returns_backend_signal m o ws (Q : unit → world L → Prop) :
  Q tt (World m (os_signal o) ws) → returns backend_signal (World m o ws) Q.
Proof. intros. apply returns_act. by apply returns_ret. Qed.

Lemma returns_monotonic_ns m o ws (Q : Z → world L → Prop) :
  Q (os_clock o) (World m (os_advance o (os_tick o)) ws) → returns monotonic_ns (World m o ws) Q.
Proof. intros. apply returns_act. by apply returns_ret. Qed.

Lemma returns_since_epoch m o ws (Q : Z → world L → Prop) :
  Q (os_epoch o) (World m o ws) → returns since_epoch (World m o ws) Q.
Proof. intros. apply returns_act. by apply returns_ret. Qed.

Lemma returns_yield m o ws (Q : unit → world L → Prop) :
  Q tt (World m o ws) → returns yield (World m o ws) Q.
Proof. intros. apply returns_act. by apply returns_ret. Qed.

Lemma returns_sleep ns m o ws (Q : unit → world L → Prop) :
  Q tt (World m (os_advance o (Z.max 0 ns)) ws) → returns (sleep ns) (World m o ws) Q.
Proof. intros. apply returns_act. by apply returns_ret. Qed.

Lemma returns_current_pid m o ws (Q : Z → world L → Prop) :
  Q (os_pid o) (World m o ws) → returns current_pid (World m o ws) Q.
Proof. intros. apply returns_act. by apply returns_ret. Qed.

Lemma returns_process_exists pid m o ws (Q : bool → world L → Prop) :
  Q (bool_decide (is_Some (os_procs o pid)) && negb (pid =? 0)) (World m o ws) →
  returns (process_exists pid) (World m o ws) Q.
Proof. intros. apply returns_act. by apply returns_ret. Qed.

Lemma returns_process_probe pid m o ws (Q : Z * bool → world L → Prop) :
  Q (if pid =? 0 then (0, false) else default (0, false) (os_procs o pid)) (World m o ws) →
  returns (process_probe pid) (World m o ws) Q.
Proof. intros. apply returns_act. by apply returns_ret. Qed.

Lemma returns_when (b : bool) (p : prog L unit) w (Q : unit → world L → Prop) :
  (b = true → returns p w Q) → (b = false → Q tt w) → returns (when b p) w Q.
Proof. intros. destruct b; [by auto|]. apply returns_ret. auto. Qed.

(** One turn of a loop in the middle of a program. *)
Lemma returns_loop_turn {S B} (s : S) (body : S → prog L (S + B)) w (Q : B → world L → Prop) :
  returns (body s) w (λ r w', match r with
                              | inl s' => returns (loop s' body) w' Q
                              | inr b => Q b w' end) →
  returns (loop s body) w Q.
Proof.
  intros Hb. apply returns_loop. eapply returns_mono; [exact Hb|].
  intros [s'|b] w'; [done|]. apply returns_ret.
Qed.

Lemma returns_loop_measure {S B} (body : S → prog L (S + B)) (Q : B → world L → Prop)
    (Inv : nat → S → world L → Prop) n s w :
  Inv n s w →
  (∀ n s w, Inv n s w →
    returns (body s) w (λ r w', match r with
      | inl s' => ∃ n', (n' < n)%nat ∧ Inv n' s' w'
      | inr b => Q b w' end)) →
  returns (loop s body) w Q.
Proof.
  intros Hi Hb. eapply returns_loop_wf; [exact Hi|]. intros n' s' w' Hi'.
  eapply returns_mono; [by apply Hb|]. intros [s2|b] w2; [done|]. apply returns_ret.
Qed.
End primitives.

(** Execute the next step of the program of the goal; a compare-exchange leaves
    a goal per outcome. *)
Ltac step :=
  match goal with
  | |- returns (bind _ _) _ _ => apply returns_bind
  | |- returns (Ret _) _ _ => apply returns_ret
  | |- returns (load _) _ _ => apply returns_load
  | |- returns (store _ _) _ _ => apply returns_store
  | |- returns (compare_exchange_strong _ _ _) _ _ => apply returns_cas; intros
  | |- returns (compare_exchange_weak ?l (?m ?l) _) (World ?m _ _) _ => apply returns_cas_weak_hit
  | |- returns (compare_exchange_weak _ _ _) _ _ => apply returns_cas_weak; intros
  | |- returns (fetch_add _ _ _) _ _ => apply returns_fetch_add
  | |- returns (fetch_sub _ _ _) _ _ => apply returns_fetch_sub
  | |- returns (futex_wait _ _ _) _ _ => apply returns_futex_wait; intros
  | |- returns (futex_wake_all _) _ _ => apply returns_futex_wake_all
  | |- returns backend_signal _ _ => apply returns_backend_signal
  | |- returns monotonic_ns _ _ => apply returns_monotonic_ns
  | |- returns since_epoch _ _ => apply returns_since_epoch
  | |- returns yield _ _ => apply returns_yield
  | |- returns (sleep _) _ _ => apply returns_sleep
  | |- returns current_pid _ _ => apply returns_current_pid
  | |- returns (process_exists _) _ _ => apply returns_process_exists
  | |- returns (process_probe _) _ _ => apply returns_process_probe
  | |- returns (when _ _) _ _ => apply returns_when; intros
  | |- returns (loop _ _) _ _ => apply returns_loop_turn
  | |- returns (if ?b then _ else _) _ _ => let E := fresh "E" in destruct b eqn:E
  | |- wp (bind _ _) _ _ => apply wp_bind_returns
  | |- wp (Ret _) _ _ => apply wp_ret
  | |- wp (throw _ _) _ _ => apply wp_throw
  | |- wp (if ?b then _ else _) _ _ => let E := fresh "E" in destruct b eqn:E
  | |- throws _ _ _ _ => unfold throws
  | |- (λ _ _, _) _ _ => idtac
  end; lazy beta match.

Ltac steps := repeat step.

(** Take the branch of a test that computes. *)
Ltac known :=
  repeat match goal with
  | |- returns (if ?b then _ else _) _ _ =>
      let v := eval vm_compute in b in
      match v with true => change b with true | false => change b with false end; lazy iota
  | |- wp (if ?b then _ else _) _ _ =>
      let v := eval vm_compute in b in
      match v with true => change b with true | false => change b with false end; lazy iota
  end.
