(* ===== verification/Sessions.v ===== *)
(** * Sessions of calls, and simulations between them

    A session is a sequence of calls, each made by the process and in the system
    it is given with, after the previous one has returned.  [plays] is the
    session on the shared memory; [promised_all] is the same session on an
    abstract state.  [plays_promised] lifts a simulation of single calls. *)

From S2P Require Import Prelude Prog.

Section sessions.
(** The calls [C] and replies [R]; [E] is what the callers keep (handles). *)
Context {L : Type} `{EqDecision L} {E C R : Type} (perform : C → E → prog L (R * E)).
Implicit Types (m : L → Z) (o : os) (cs : list (os * C)).

(** Every call returns, and the replies, the handles and the memory at the end
    satisfy [Q]. *)
Fixpoint plays cs (e : E) m (Q : list R → E → (L → Z) → Prop) : Prop :=
  match cs with
  | [] => Q [] e m
  | (o, c) :: cs =>
      returns (perform c e) (World m o []) (λ '(x, e) w, plays cs e (w_mem w) (λ xs, Q (x :: xs)))
  end.

Lemma plays_mono cs e m (Q Q' : list R → E → (L → Z) → Prop) :
  plays cs e m Q → (∀ xs e m, Q xs e m → Q' xs e m) → plays cs e m Q'.
Proof.
  revert e m Q Q'. induction cs as [|[o c] cs IH]; intros e m Q Q' Hp HQ; cbn [plays] in *; [by apply HQ|].
  eapply returns_mono; [exact Hp|]. intros [x e'] w' Hx. eapply IH; [exact Hx|]. auto.
Qed.

(** The abstract state [A], and what is promised of one call. *)
Context {A : Type} (promised : os → C → A → R * A).

Fixpoint promised_all cs (a : A) : list R * A :=
  match cs with
  | [] => ([], a)
  | (o, c) :: cs =>
      let '(x, a) := promised o c a in
      let '(xs, a) := promised_all cs a in
      (x :: xs, a)
  end.

(** The relation may depend on how many calls are still to come. *)
Context (rel : nat → E → (L → Z) → A → Prop) (call_ok : C → Prop).

Definition simulates : Prop :=
  ∀ k o c e m a, rel (S k) e m a → call_ok c →
    returns (perform c e) (World m o []) (λ '(x, e') w,
      x = (promised o c a).1 ∧ rel k e' (w_mem w) (promised o c a).2).

Lemma plays_promised cs k e m a :
  simulates → rel (length cs + k) e m a → Forall (λ '(_, c), call_ok c) cs →
  plays cs e m (λ xs e' m', xs = (promised_all cs a).1 ∧ rel k e' m' (promised_all cs a).2).
Proof.
  intros Hsim. revert e m a. induction cs as [|[o c] cs IH]; intros e m a Hrel Hcs; [done|].
  apply Forall_cons in Hcs as [Hc Hcs]. cbn [plays promised_all].
  eapply returns_mono; [eapply Hsim; [exact Hrel|exact Hc]|]. intros [x e'] w [-> Hrel'].
  destruct (promised o c a) as [x a']. cbn [fst snd] in *.
  eapply plays_mono; [by apply IH|]. intros xs e2 m2 [-> Hrel2].
  by destruct (promised_all cs a').
Qed.
End sessions.
