(* ===== verification/Conc.v ===== *)
(** * Interleavings of programs

    The second semantics of [Prog.v]: any number of programs run on one memory,
    one atomic action at a time, in any order.  A program that is no longer
    scheduled has crashed.  Weak compare-exchanges may fail spuriously; the
    operating system may answer any value of the call's type.

    A word whose reuse is told by a wrapping tag ([watch]) counts its writes.
    An execution is timely when no compare-exchange of it relies on a value
    read [lap] or more writes ago, [lap] being the period of the tag.

    [safe] is a logic for these executions: each thread owns a multiset of
    tokens, the memory satisfies an invariant of all the tokens together, and
    every action keeps the invariant, changing no token but its thread's.
    [guard] is what an action requires of its thread's tokens. *)

From stdpp Require Import gmultiset.
From S2P Require Import Prelude Prog.

Lemma bind_assoc {L A B C} (p : prog L A) (f : A → prog L B) (g : B → prog L C) :
  bind (bind p f) g = bind p (λ a, bind (f a) g).
Proof.
  revert B f g. induction p as [a|e|R a k IH|A S T body _ s k IH]; intros B f g; cbn; try done;
    f_equal; apply functional_extensionality; auto.
Qed.

Lemma bind_ret {L A} (p : prog L A) : bind p Ret = p.
Proof.
  induction p as [a|e|R A a k IH|A S B body _ s k IH]; cbn [bind]; [done|done|..];
    f_equal; apply functional_extensionality; intros r; apply IH.
Qed.

Lemma bind_unroll {L A B S T} (body : S → prog L (S + T)) s (k : T → prog L A) (f : A → prog L B) :
  bind (unroll body s k) f = unroll body s (λ b, bind (k b) f).
Proof.
  unfold unroll. rewrite bind_assoc. f_equal. apply functional_extensionality. by intros [].
Qed.

(** An exception as a value. *)
Definition caught {A} (o : outcome A) : A + exn :=
  match o with Val a => inl a | Exc e => inr e end.

Lemma try_bind {L A B} (p : prog L A) (f : A → prog L B) :
  try_ (bind p f) = bind (try_ p) (λ r, match r with inl a => try_ (f a) | inr e => Ret (inr e) end).
Proof.
  revert B f. induction p as [a|e|R a k IH|A S T body _ s k IH]; intros B f; cbn; try done;
    f_equal; apply functional_extensionality; [by auto|]. intros [b|e]; auto.
Qed.

(** The tokens of one thread, and of the others. *)
Lemma owns_split `{Countable T} (owns : list (gmultiset T)) t own :
  owns !! t = Some own →
  ∃ env, ⋃+ owns = own ⊎ env ∧ ∀ own', ⋃+ <[t:=own']> owns = own' ⊎ env.
Proof.
  revert t. induction owns as [|o owns IH]; intros [|t] Ht; try done; cbn in *.
  - injection Ht as ->. by exists (⋃+ owns).
  - destruct (IH t Ht) as (env & -> & Henv). exists (o ⊎ env).
    split; [multiset_solver|]. intros own'. rewrite Henv. multiset_solver.
Qed.

(** Setting one of several holdings aside. *)
Lemma union_take {A} `{Countable T} (f : A → gmultiset T) (l : list A) k x :
  l !! k = Some x → ⋃+ (f <$> l) = f x ⊎ ⋃+ (f <$> delete k l).
Proof.
  revert k. induction l as [|y l IH]; intros [|k] Hk; try done.
  - by injection Hk as ->.
  - change (l !! k = Some x) in Hk. change (delete (S k) (y :: l)) with (y :: delete k l).
    change (f y ⊎ ⋃+ (f <$> l) = f x ⊎ (f y ⊎ ⋃+ (f <$> delete k l))).
    rewrite (IH k Hk). multiset_solver.
Qed.

Section conc.
Context {L : Type} `{EqDecision L}.
Context (watch : L → bool) (lap : Z).
Implicit Types (m : L → Z) (cnt seen : Z).

(** ** Actions *)

(** What [a] can answer on [m], and the memory it leaves. *)
Definition astep {R} (a : act L R) m (r : R) m' : Prop :=
  match a in act _ R return R → Prop with
  | Load l => λ r, r = m l ∧ m' = m
  | Store l v => λ _, m' = <[l:=v]> m
  | Cas l e d => λ r, (m l = e ∧ r = (true, e) ∧ m' = <[l:=d]> m) ∨
                      (m l ≠ e ∧ r = (false, m l) ∧ m' = m)
  | CasWeak l e d => λ r, (m l = e ∧ r = (true, e) ∧ m' = <[l:=d]> m) ∨
                          (r = (false, m l) ∧ m' = m)
  | FetchAdd wrap l d => λ r, r = m l ∧ m' = <[l:=wrap (m l + d)]> m
  | CurrentPid => λ r, is_u64 r ∧ m' = m
  | ProcessProbe _ => λ r, is_u64 r.1 ∧ m' = m
  | _ => λ _, m' = m
  end r.

(** The location [a] reads with its write counter. *)
Definition reads {R} (a : act L R) : option L :=
  match a with
  | Load l | Cas l _ _ | CasWeak l _ _ | FetchAdd _ l _ => Some l
  | _ => None
  end.

Definition writes {R} (a : act L R) (r : R) : option L :=
  match a in act _ R return R → option L with
  | Store l _ | FetchAdd _ l _ => λ _, Some l
  | Cas l _ _ | CasWeak l _ _ => λ r, if r.1 : bool then Some l else None
  | _ => λ _, None
  end r.

Definition watched (o : option L) : bool :=
  match o with Some l => watch l | None => false end.

Definition count {R} (a : act L R) (r : R) cnt : Z :=
  if watched (writes a r) then cnt + 1 else cnt.

(** The writes of the watched word the thread has seen. *)
Definition look {R} (a : act L R) (r : R) cnt seen : Z :=
  if watched (reads a) then count a r cnt else seen.

Definition timely {R} (a : act L R) cnt seen : Prop :=
  match a with
  | Cas l _ _ | CasWeak l _ _ => watch l = true → cnt - seen < lap
  | _ => True
  end.

(** An action that writes nothing. *)
Definition readonly {R} (a : act L R) : bool :=
  match a with Store _ _ | Cas _ _ _ | CasWeak _ _ _ | FetchAdd _ _ _ => false | _ => true end.

Lemma astep_readonly {R} (a : act L R) m r m' : readonly a = true → astep a m r m' → m' = m.
Proof.
  destruct a; intros Ha Hs; first [discriminate Ha|exact Hs|exact (proj2 Hs)].
Qed.

(** ** Threads *)

Record thread := Thread { t_prog : prog L unit; t_seen : Z }.
Record config := Config { c_mem : L → Z; c_count : Z; c_threads : list thread }.

(** Thread [t] makes a step: an action, or a loop begins a turn. *)
Inductive step : config → config → Prop :=
  | step_act m cnt ts t R (a : act L R) k seen r m' :
      ts !! t = Some (Thread (Act a k) seen) →
      timely a cnt seen →
      astep a m r m' →
      step (Config m cnt ts)
           (Config m' (count a r cnt) (<[t := Thread (k r) (look a r cnt seen)]> ts))
  | step_loop m cnt ts t S B (body : S → prog L (S + B)) s k seen :
      ts !! t = Some (Thread (Loop body s k) seen) →
      step (Config m cnt ts) (Config m cnt (<[t := Thread (unroll body s k) seen]> ts)).

Definition reachable : config → config → Prop := rtc step.

Lemma reachable_threads c c' : reachable c c' → length (c_threads c') = length (c_threads c).
Proof.
  induction 1 as [|c c1 c' [] _ IH]; [done|..]; cbn in *; by rewrite IH, length_insert.
Qed.

(** Only the location an action writes changes. *)
Lemma astep_other {R} (a : act L R) m r m' l :
  astep a m r m' → writes a r ≠ Some l → m' l = m l.
Proof.
  destruct a; cbn; try (by intros ->); try (by intros [_ ->]).
  - intros -> Hl. apply upd_ne. congruence.
  - intros [(_ & -> & ->)|(_ & _ & ->)] Hl; [|done]. apply upd_ne. cbn in Hl. congruence.
  - intros [(_ & -> & ->)|(_ & ->)] Hl; [|done]. apply upd_ne. cbn in Hl. congruence.
  - intros [_ ->] Hl. apply upd_ne. congruence.
Qed.

(** ** The logic *)

Context {T : Type} `{Countable T}.
Context (guard : ∀ R, act L R → gmultiset T → Prop).
Context (Inv : (L → Z) → Z → gmultiset T → Prop).
Implicit Types (own env : gmultiset T).

Abbreviation post A := (outcome A → Z → gmultiset T → Prop).

(** For [n] steps, [p] with the tokens [own] keeps the invariant, and [Q] holds
    of its outcome, of the writes it has seen and of the tokens it ends with. *)
Fixpoint safe (n : nat) {A} (p : prog L A) seen own (Q : post A) : Prop :=
  match n with
  | O => True
  | S n =>
      match p with
      | Ret a => Q (Val a) seen own
      | Throw e => Q (Exc e) seen own
      | Act a k =>
          guard _ a own ∧
          ∀ m cnt env r m', Inv m cnt (own ⊎ env) → timely a cnt seen → astep a m r m' →
            ∃ own', Inv m' (count a r cnt) (own' ⊎ env) ∧
                    safe n (k r) (look a r cnt seen) own' Q
      | Loop body s k => safe n (unroll body s k) seen own Q
      end
  end.

Lemma safe_mono n {A} (p : prog L A) seen own (Q Q' : post A) :
  safe n p seen own Q → (∀ o seen' own', Q o seen' own' → Q' o seen' own') →
  safe n p seen own Q'.
Proof.
  revert A p seen own Q Q'. induction n as [|n IH]; intros A p seen own Q Q' Hp HQ; [done|].
  destruct p as [a|e|R a k|S B body s k]; cbn [safe] in *; eauto.
  destruct Hp as [Hg Hp]. split; [done|]. intros m cnt env r m' HI Ht Ha.
  destruct (Hp m cnt env r m' HI Ht Ha) as (own' & ? & ?). eauto.
Qed.

Lemma safe_le n n' {A} (p : prog L A) seen own (Q : post A) :
  safe n p seen own Q → (n' ≤ n)%nat → safe n' p seen own Q.
Proof.
  revert A p seen own Q n'. induction n as [|n IH]; intros A p seen own Q n' Hp Hn.
  { by destruct n'; [|lia]. }
  destruct n' as [|n']; [done|].
  destruct p as [a|e|R a k|S B body s k]; cbn [safe] in *; [done|done| |apply IH; [done|lia]].
  destruct Hp as [Hg Hp]. split; [done|]. intros m cnt env r m' HI Ht Ha.
  destruct (Hp m cnt env r m' HI Ht Ha) as (own' & ? & ?). exists own'. split; [done|].
  eapply IH; [done|lia].
Qed.

Lemma safe_ret n {A} (a : A) seen own (Q : post A) :
  Q (Val a) seen own → safe n (Ret a) seen own Q.
Proof. by destruct n. Qed.

Lemma safe_throw n {A} (e : exn) seen own (Q : post A) :
  Q (Exc e) seen own → safe n (Throw e) seen own Q.
Proof. by destruct n. Qed.

Lemma safe_bind n {A B} (p : prog L A) (f : A → prog L B) seen own (Q : post B) :
  safe n p seen own (λ o seen' own', match o with
                                     | Val a => safe n (f a) seen' own' Q
                                     | Exc e => Q (Exc e) seen' own' end) →
  safe n (bind p f) seen own Q.
Proof.
  revert A p f seen own Q. induction n as [|n IH]; intros A p f seen own Q Hp; [done|].
  assert (∀ C (q : prog L C) (h : C → prog L B) seen own,
    safe n q seen own (λ o seen' own', match o with
                                       | Val a => safe (S n) (h a) seen' own' Q
                                       | Exc e => Q (Exc e) seen' own' end) →
    safe n (bind q h) seen own Q) as IH'.
  { intros C q h seen' own' Hq. apply IH. eapply safe_mono; [exact Hq|].
    intros [a|e] seen2 own2 HQ; [|done]. eapply safe_le; [apply HQ|lia]. }
  destruct p as [a|e|R a k|S' B' body s k]; cbn [bind].
  - apply Hp.
  - apply Hp.
  - cbn [safe] in *. destruct Hp as [Hg Hp]. split; [done|]. intros m cnt env r m' HI Ht Ha.
    destruct (Hp m cnt env r m' HI Ht Ha) as (own' & ? & ?). eauto.
  - cbn [safe] in *. rewrite <- bind_unroll. by apply IH'.
Qed.

(** Tokens the program does not use stay. *)
Lemma safe_frame n {A} (p : prog L A) seen own F (Q : post A) :
  (∀ R (a : act L R) own own', guard R a own → own ⊆ own' → guard R a own') →
  safe n p seen own Q →
  safe n p seen (own ⊎ F) (λ o seen' own', ∃ own2, own' = own2 ⊎ F ∧ Q o seen' own2).
Proof.
  intros Hmono. revert A p seen own Q. induction n as [|n IH]; intros A p seen own Q Hp; [done|].
  destruct p as [a|e|R a k|S B body s k]; cbn [safe] in *; [by eauto..| |by auto].
  destruct Hp as [Hg Hp]. split; [eapply Hmono; [done|multiset_solver]|].
  intros m cnt env r m' HI Ht Ha. rewrite <- (assoc_L (⊎)) in HI.
  destruct (Hp m cnt _ r m' HI Ht Ha) as (own' & HI' & Hs). exists (own' ⊎ F).
  rewrite <- (assoc_L (⊎)). auto.
Qed.

(** A loop keeps an invariant of its state. *)
Lemma safe_loop n {S B} (body : S → prog L (S + B)) (J : S → Z → gmultiset T → Prop)
    s seen own (Q : post B) :
  J s seen own →
  (∀ n s seen own, J s seen own → safe n (body s) seen own (λ o seen' own', match o with
     | Val (inl s') => J s' seen' own'
     | Val (inr b) => Q (Val b) seen' own'
     | Exc e => Q (Exc e) seen' own' end)) →
  safe n (loop s body) seen own Q.
Proof.
  intros HJ Hb. revert s seen own HJ. induction n as [|n IH]; intros s seen own HJ; [done|].
  cbn [safe loop]. unfold unroll. apply safe_bind. eapply safe_mono; [by apply Hb|].
  intros [[s'|b]|e] seen' own' HQ; [by apply IH|by apply safe_ret|done].
Qed.

(** A handler sees the tokens the program had when it threw. *)
Lemma safe_try n {A} (p : prog L A) seen own (Q : post (A + exn)) :
  safe n p seen own (λ o seen' own', Q (Val (caught o)) seen' own') →
  safe n (try_ p) seen own Q.
Proof.
  revert A p seen own Q. induction n as [|n IH]; intros A p seen own Q Hp; [done|].
  destruct p as [a|e|R a k|S B body s k]; cbn [safe try_] in *; [done|done| |].
  - destruct Hp as [Hg Hp]. split; [done|]. intros m cnt env r m' HI Ht Ha.
    destruct (Hp m cnt env r m' HI Ht Ha) as (own' & ? & ?). eauto.
  - apply IH in Hp. revert Hp. unfold unroll. rewrite try_bind, bind_assoc.
    match goal with |- safe _ ?p _ _ _ → safe _ ?q _ _ _ => replace q with p; [done|] end.
    f_equal. apply functional_extensionality. by intros [[s'|b]|e].
Qed.

(** *** Specifications *)

(** [p], started with the tokens [own], never throws, and [Q] holds of the value
    it returns and of the tokens it is left with. *)
Definition spec {A} own (p : prog L A) (Q : A → gmultiset T → Prop) : Prop :=
  ∀ n seen, safe n p seen own (λ o _ own', match o with Val a => Q a own' | Exc _ => False end).

Lemma spec_mono {A} own (p : prog L A) (Q Q' : A → gmultiset T → Prop) :
  spec own p Q → (∀ a own', Q a own' → Q' a own') → spec own p Q'.
Proof. intros Hp HQ n seen. eapply safe_mono; [apply Hp|]. intros [a|e] _ own'; auto. Qed.

Lemma spec_ret {A} own (a : A) (Q : A → gmultiset T → Prop) : Q a own → spec own (Ret a) Q.
Proof. intros HQ n seen. by apply safe_ret. Qed.

Lemma spec_bind {A B} own (p : prog L A) (f : A → prog L B) (Q : B → gmultiset T → Prop) :
  spec own p (λ a own', spec own' (f a) Q) → spec own (bind p f) Q.
Proof.
  intros Hp n seen. apply safe_bind. eapply safe_mono; [apply Hp|].
  intros [a|e] seen' own' HQ; [apply HQ|done].
Qed.

Lemma spec_frame {A} own F (p : prog L A) (Q : A → gmultiset T → Prop) :
  (∀ R (a : act L R) own own', guard R a own → own ⊆ own' → guard R a own') →
  spec own p (λ a own', Q a (own' ⊎ F)) → spec (own ⊎ F) p Q.
Proof.
  intros Hg Hp n seen. eapply safe_mono; [eapply safe_frame; [done|apply Hp]|].
  intros [a|e] _ own'; [|naive_solver]. by intros (own2 & -> & HQ).
Qed.

Lemma spec_loop {S B} (body : S → prog L (S + B)) (J : S → gmultiset T → Prop) s own
    (Q : B → gmultiset T → Prop) :
  J s own →
  (∀ s own, J s own → spec own (body s) (λ r own', match r with
     | inl s' => J s' own'
     | inr b => Q b own' end)) →
  spec own (loop s body) Q.
Proof.
  intros HJ Hb n seen. apply (safe_loop _ _ (λ s _ own, J s own)); [done|].
  intros n' s' seen' own' HJ'. eapply safe_mono; [by apply Hb|]. by intros [[s2|b]|e] seen2 own2.
Qed.

Lemma spec_for {S B} k lo (s : S) (body : Z → S → prog L (S + B)) own
    (J : Z → S → gmultiset T → Prop) (Q : S + B → gmultiset T → Prop) :
  J lo s own →
  (∀ i s own, lo <= i < lo + Z.of_nat k → J i s own → spec own (body i s) (λ r own', match r with
     | inl s' => J (i + 1) s' own'
     | inr b => Q (inr b) own' end)) →
  (∀ s own, J (lo + Z.of_nat k) s own → Q (inl s) own) →
  spec own (for_ k lo s body) Q.
Proof.
  revert lo s own. induction k as [|k IH]; intros lo s own HJ Hb HQ.
  - apply spec_ret, HQ. by rewrite Z.add_0_r.
  - cbn [for_]. apply spec_bind. eapply spec_mono; [apply Hb; [lia|done]|].
    intros [s'|b] own' Hr; [|by apply spec_ret].
    apply IH; [done|intros; apply Hb; [lia|done]|].
    intros s2 own2 HJ2. apply HQ. by replace (lo + Z.of_nat (Datatypes.S k))
      with (lo + 1 + Z.of_nat k) by lia.
Qed.

Lemma spec_foreach {S} k lo (s : S) (body : Z → S → prog L S) own
    (J : Z → S → gmultiset T → Prop) (Q : S → gmultiset T → Prop) :
  J lo s own →
  (∀ i s own, lo <= i < lo + Z.of_nat k → J i s own → spec own (body i s) (J (i + 1))) →
  (∀ s own, J (lo + Z.of_nat k) s own → Q s own) →
  spec own (foreach k lo s body) Q.
Proof.
  revert lo s own. induction k as [|k IH]; intros lo s own HJ Hb HQ.
  - apply spec_ret, HQ. by rewrite Z.add_0_r.
  - cbn [foreach]. apply spec_bind. eapply spec_mono; [apply Hb; [lia|done]|].
    intros s' own' Hr. apply IH; [done|intros; apply Hb; [lia|done]|].
    intros s2 own2 HJ2. apply HQ. by replace (lo + Z.of_nat (Datatypes.S k))
      with (lo + 1 + Z.of_nat k) by lia.
Qed.

(** One action. *)
Lemma spec_act {R} (a : act L R) own (Q : R → gmultiset T → Prop) :
  guard _ a own →
  (∀ m cnt seen env r m', Inv m cnt (own ⊎ env) → timely a cnt seen → astep a m r m' →
     ∃ own', Inv m' (count a r cnt) (own' ⊎ env) ∧ Q r own') →
  spec own (Act a Ret) Q.
Proof.
  intros Hg Ha n seen. destruct n as [|n]; [done|]. split; [done|].
  intros m cnt env r m' HI Ht Hs. destruct (Ha m cnt seen env r m' HI Ht Hs) as (own' & ? & ?).
  exists own'. split; [done|]. by apply safe_ret.
Qed.

Lemma spec_readonly {R} (a : act L R) own (Q : R → gmultiset T → Prop) :
  readonly a = true → guard _ a own → (∀ r, Q r own) → spec own (Act a Ret) Q.
Proof.
  intros Ha Hg HQ. apply spec_act; [done|]. intros m cnt seen env r m' HI _ Hs. exists own.
  split; [|done]. rewrite (astep_readonly _ _ _ _ Ha Hs).
  destruct a; try discriminate Ha; exact HI.
Qed.

(** Writes to a word without a counter. *)
Section write.
Context (l : L) (Hl : watch l = false).

Lemma spec_store v own own' (Q : unit → gmultiset T → Prop) :
  guard _ (Store l v) own →
  (∀ m cnt env, Inv m cnt (own ⊎ env) → Inv (<[l:=v]> m) cnt (own' ⊎ env)) →
  Q tt own' → spec own (store l v) Q.
Proof using Hl.
  intros Hg HI HQ. apply spec_act; [done|]. intros m cnt seen env [] m' HI' _ ->.
  exists own'. unfold count. cbn. rewrite Hl. auto.
Qed.

Lemma spec_fetch_add wrap d own (Q : Z → gmultiset T → Prop) :
  guard _ (FetchAdd wrap l d) own →
  (∀ m cnt env, Inv m cnt (own ⊎ env) →
     ∃ own', Inv (<[l := wrap (m l + d)]> m) cnt (own' ⊎ env) ∧ Q (m l) own') →
  spec own (fetch_add wrap l d) Q.
Proof using Hl.
  intros Hg HI. apply spec_act; [done|]. intros m cnt seen env r m' HI' _ [-> ->].
  unfold count. cbn. rewrite Hl. auto.
Qed.

Lemma spec_cas e d own (Q : bool * Z → gmultiset T → Prop) :
  guard _ (Cas l e d) own →
  (∀ m cnt env, Inv m cnt (own ⊎ env) → m l = e →
     ∃ own', Inv (<[l:=d]> m) cnt (own' ⊎ env) ∧ Q (true, e) own') →
  (∀ v, Q (false, v) own) →
  spec own (compare_exchange_strong l e d) Q.
Proof using Hl.
  intros Hg HI HQ. apply spec_act; [done|].
  intros m cnt seen env r m' HI' _ [(He & -> & ->)|(_ & -> & ->)];
    unfold count; cbn; rewrite ?Hl; eauto.
Qed.

Lemma spec_cas_weak e d own (Q : bool * Z → gmultiset T → Prop) :
  guard _ (CasWeak l e d) own →
  (∀ m cnt env, Inv m cnt (own ⊎ env) → m l = e →
     ∃ own', Inv (<[l:=d]> m) cnt (own' ⊎ env) ∧ Q (true, e) own') →
  (∀ v, Q (false, v) own) →
  spec own (compare_exchange_weak l e d) Q.
Proof using Hl.
  intros Hg HI HQ. apply spec_act; [done|].
  intros m cnt seen env r m' HI' _ [(He & -> & ->)|(-> & ->)];
    unfold count; cbn; rewrite ?Hl; eauto.
Qed.
End write.

Lemma spec_when (b : bool) own (p : prog L unit) (Q : unit → gmultiset T → Prop) :
  (b = true → spec own p Q) → (b = false → Q tt own) → spec own (when b p) Q.
Proof. intros. destruct b; [by auto|]. apply spec_ret. auto. Qed.

(** ** Soundness *)

(** For [n] more steps, each thread is safe with its tokens, and the invariant
    holds of all of them together. *)
Record pool_safe (n : nat) (Qs : list (post unit)) (c : config)
    (owns : list (gmultiset T)) : Prop := {
  ps_inv : Inv (c_mem c) (c_count c) (⋃+ owns);
  ps_length : length owns = length (c_threads c);
  ps_threads : ∀ t th own Q, c_threads c !! t = Some th → owns !! t = Some own →
    Qs !! t = Some Q → safe n (t_prog th) (t_seen th) own Q;
  ps_posts : length Qs = length (c_threads c)
}.

Lemma pool_update n Qs m cnt ts owns t th' own' env m' cnt' own Q :
  pool_safe (S n) Qs (Config m cnt ts) owns →
  owns !! t = Some own → Qs !! t = Some Q →
  (∀ own', ⋃+ <[t:=own']> owns = own' ⊎ env) →
  Inv m' cnt' (own' ⊎ env) →
  safe n (t_prog th') (t_seen th') own' Q →
  pool_safe n Qs (Config m' cnt' (<[t:=th']> ts)) (<[t:=own']> owns).
Proof.
  intros [_ Hlen Hts HQs] Ho HQ Henv HI Hs. cbn [c_mem c_count c_threads] in *.
  split; cbn [c_mem c_count c_threads].
  - by rewrite Henv.
  - by rewrite !length_insert.
  - intros u th o Q' Hth Ho' HQ'. destruct (decide (u = t)) as [->|Hne].
    + apply list_lookup_insert_Some in Hth as [(_ & <- & _)|(? & _)]; [|done].
      apply list_lookup_insert_Some in Ho' as [(_ & <- & _)|(? & _)]; [|done].
      by simplify_eq.
    + rewrite list_lookup_insert_ne in Hth by done. rewrite list_lookup_insert_ne in Ho' by done.
      eapply safe_le; [by eapply Hts|lia].
  - by rewrite length_insert.
Qed.

Lemma pool_step n Qs c c' owns :
  pool_safe (S n) Qs c owns → step c c' → ∃ owns', pool_safe n Qs c' owns'.
Proof.
  intros Hp Hstep. pose proof Hp as [HI Hlen Hts HQs].
  assert (∀ t th, c_threads c !! t = Some th →
    ∃ own Q, owns !! t = Some own ∧ Qs !! t = Some Q) as Hget.
  { intros t th Ht%lookup_lt_Some. rewrite <- Hlen in Ht at 1.
    destruct (lookup_lt_is_Some_2 _ _ Ht) as [own ?]. rewrite Hlen, <- HQs in Ht.
    destruct (lookup_lt_is_Some_2 _ _ Ht) as [Q ?]. eauto. }
  destruct Hstep as [m cnt ts t R a k seen r m' Ht Htime Ha|m cnt ts t S' B body s k seen Ht];
    cbn [c_mem c_count c_threads] in *; destruct (Hget _ _ Ht) as (own & Q & Ho & HQ);
    destruct (owns_split _ _ _ Ho) as (env & HE & Henv);
    pose proof (Hts _ _ _ _ Ht Ho HQ) as Hs; cbn [t_prog t_seen safe] in Hs.
  - destruct Hs as [_ Hs]. rewrite HE in HI.
    destruct (Hs m cnt env r m' HI Htime Ha) as (own' & HI' & Hs').
    exists (<[t:=own']> owns). by eapply pool_update.
  - exists (<[t:=own]> owns). eapply pool_update; try done. by rewrite <- HE.
Qed.

(** Threads that start with nothing, never throw and end with nothing. *)
Definition leaves_nothing : post unit :=
  λ o _ own, match o with Val _ => own = ∅ | Exc _ => False end.

Lemma launch_safe {A} (f : A → prog L unit) (l : list A) m cnt n :
  Inv m cnt ∅ → Forall (λ x, spec ∅ (f x) (λ _ own, own = ∅)) l →
  pool_safe n (replicate (length l) leaves_nothing) (Config m cnt (map (λ x, Thread (f x) 0) l))
    (replicate (length l) ∅).
Proof.
  intros HI Hl. split; cbn [c_mem c_count c_threads].
  - replace (⋃+ replicate (length l) ∅) with (∅ : gmultiset T); [done|].
    induction (length l) as [|k IH]; [done|].
    change (∅ = ∅ ⊎ ⋃+ replicate k (∅ : gmultiset T)). by rewrite <- IH, (left_id_L ∅ (⊎)).
  - by rewrite length_replicate, length_map.
  - intros t th own Q Ht [-> _]%lookup_replicate [-> _]%lookup_replicate.
    rewrite list_lookup_fmap in Ht. destruct (l !! t) as [x|] eqn:Hx; [|done].
    injection Ht as <-. exact (Forall_lookup_1 _ _ _ _ Hl Hx n 0).
  - by rewrite length_replicate, length_map.
Qed.

Lemma pool_reachable Qs c c' owns :
  (∀ n, pool_safe n Qs c owns) → reachable c c' → ∀ n, ∃ owns', pool_safe n Qs c' owns'.
Proof.
  intros Hc Hr n. apply rtc_nsteps in Hr as [k Hr].
  assert (∀ owns, pool_safe (k + n) Qs c owns → ∃ owns', pool_safe n Qs c' owns') as Hgo; [|by eauto].
  clear Hc. induction Hr as [c|k c c1 c' Hs Hr IH]; intros owns0 Hp; [by eauto|].
    cbn in Hp. destruct (pool_step _ _ _ _ _ Hp Hs) as [owns1 ?]. eauto.
Qed.

(** In every reachable state the invariant holds of the threads' tokens, every
    pending action is allowed to its thread, and the postconditions hold of the
    threads that have ended. *)
Lemma reachable_safe Qs c c' owns :
  (∀ n, pool_safe n Qs c owns) → reachable c c' →
  ∃ owns', Inv (c_mem c') (c_count c') (⋃+ owns') ∧
    length owns' = length (c_threads c') ∧
    (∀ t R (a : act L R) k seen, c_threads c' !! t = Some (Thread (Act a k) seen) →
       ∃ own, owns' !! t = Some own ∧ guard _ a own) ∧
    (∀ t seen, c_threads c' !! t = Some (Thread (Ret tt) seen) →
       ∃ own Q, owns' !! t = Some own ∧ Qs !! t = Some Q ∧ Q (Val tt) seen own).
Proof.
  intros Hc Hr. destruct (pool_reachable _ _ _ _ Hc Hr 1%nat) as [owns' [HI Hlen Hts HQs]].
  assert (∀ t th, c_threads c' !! t = Some th →
    ∃ own Q, owns' !! t = Some own ∧ Qs !! t = Some Q) as Hget.
  { intros t th Ht%lookup_lt_Some. pose proof Ht as Ht'. rewrite <- Hlen in Ht. rewrite <- HQs in Ht'.
    destruct (lookup_lt_is_Some_2 _ _ Ht), (lookup_lt_is_Some_2 _ _ Ht'). eauto. }
  exists owns'. split_and!; [done|done| |].
  - intros t R a k seen Ht. destruct (Hget _ _ Ht) as (own & Q & Ho & HQ).
    pose proof (Hts _ _ _ _ Ht Ho HQ) as [Hg _]. eauto.
  - intros t seen Ht. destruct (Hget _ _ Ht) as (own & Q & Ho & HQ).
    pose proof (Hts _ _ _ _ Ht Ho HQ). eauto.
Qed.

(** What a thread throws, its postcondition allows. *)
Lemma reachable_throw Qs c c' owns t e seen :
  (∀ n, pool_safe n Qs c owns) → reachable c c' →
  c_threads c' !! t = Some (Thread (Throw e) seen) → ∃ own Q, Qs !! t = Some Q ∧ Q (Exc e) seen own.
Proof.
  intros Hc Hr Ht. destruct (pool_reachable _ _ _ _ Hc Hr 1%nat) as [owns' [_ Hlen Hts HQs]].
  apply lookup_lt_Some in Ht as Hlt. pose proof Hlt as Hlt'. rewrite <- Hlen in Hlt. rewrite <- HQs in Hlt'.
  destruct (lookup_lt_is_Some_2 _ _ Hlt) as [own Ho], (lookup_lt_is_Some_2 _ _ Hlt') as [Q HQ].
  exists own, Q. split; [done|]. exact (Hts _ _ _ _ Ht Ho HQ).
Qed.
End conc.

Arguments thread L : clear implicits.
Arguments config L : clear implicits.

(** ** Playing a schedule *)

Section play.
Context {L : Type} `{EqDecision L} (watch : L → bool) (lap : Z) (o : os).

(** The system's answers have the type of the calls. *)
Definition os_typed : Prop :=
  is_u64 (os_pid o) ∧ ∀ pid, is_u64 (default (0, false) (os_procs o pid)).1.

Definition timely_b {R} (a : act L R) (cnt seen : Z) : bool :=
  match a with
  | Cas l _ _ | CasWeak l _ _ => negb (watch l) || (cnt - seen <? lap)
  | _ => true
  end.

(** Thread [t] makes a step, the system answering as in [o]. *)
Definition turn (t : nat) (c : config L) : config L :=
  match c_threads c !! t with
  | Some (Thread (Act a k) seen) =>
      let '(r, w) := exec a (World (c_mem c) o []) in
      if timely_b a (c_count c) seen then
        Config (w_mem w) (count watch a r (c_count c))
          (<[t := Thread (k r) (look watch a r (c_count c) seen)]> (c_threads c))
      else c
  | Some (Thread (Loop body s k) seen) =>
      Config (c_mem c) (c_count c) (<[t := Thread (unroll body s k) seen]> (c_threads c))
  | _ => c
  end.

Fixpoint play (schedule : list nat) (c : config L) : config L :=
  match schedule with
  | [] => c
  | t :: ts => play ts (turn t c)
  end.

Section typed.
Context (Ho : os_typed).

Lemma exec_astep {R} (a : act L R) m :
  astep a m (exec a (World m o [])).1 (w_mem (exec a (World m o [])).2).
Proof using Type*.
  destruct Ho as [Hpid Hprobe]. destruct a; cbn; try done.
  - unfold exec_cas. cbn. destruct (Z.eqb_spec (m l) expected); subst; naive_solver.
  - unfold exec_cas. cbn. destruct (Z.eqb_spec (m l) expected); subst; naive_solver.
  - by destruct (_ =? _).
  - destruct (pid =? 0); [done|]. split; [apply Hprobe|done].
Qed.

Lemma turn_step t c : step watch lap c (turn t c) ∨ turn t c = c.
Proof using Type*.
  destruct c as [m cnt ts]. unfold turn. cbn [c_threads c_mem c_count].
  destruct (ts !! t) as [[[a|e|R a k|S B body s k] seen]|] eqn:Ht; auto.
  - pose proof (exec_astep a m) as Ha. destruct (exec a (World m o [])) as [r w]. cbn in Ha.
    destruct (timely_b a cnt seen) eqn:Htime; auto. left. apply step_act; [done| |done].
    destruct a; cbn in *; try done; intros Hl; rewrite Hl in Htime; cbn in Htime; lia.
  - left. by apply step_loop.
Qed.

Lemma turn_reachable t c : reachable watch lap c (turn t c).
Proof using Type*. destruct (turn_step t c) as [? | ->]; [by apply rtc_once|apply rtc_refl]. Qed.

Lemma play_reachable schedule c : reachable watch lap c (play schedule c).
Proof using Type*.
  revert c. induction schedule as [|t ts IH]; intros c; [apply rtc_refl|].
  etrans; [apply turn_reachable|apply IH].
Qed.
End typed.
End play.
