(* ===== verification/Lifetimes.v ===== *)
(** * Processes that live and die around a lock

    The third semantics of [Prog.v]: threads belong to processes, a process
    starts, may die at any time and takes its threads with it, and the system
    answers the truth about the processes that run.  A thread makes a sequence of
    calls; one word of the memory is a lock, whose holder alone may write the
    [guarded] locations.

    [safe] is the logic: a thread owns a multiset of tokens; an invariant relates
    the guarded locations, the lives of the processes and all tokens; a thread
    that holds the lock knows the guarded locations and the tokens of the others,
    for neither changes under it.  [never_two_holders] and [ledger] are what a
    program that is [safe] keeps. *)

From stdpp Require Import gmultiset.
From S2P Require Import Prelude Prog Conc.

Inductive life := Unborn | Alive | Dead.
#[export] Instance life_eq_dec : EqDecision life.
Proof. solve_decision. Defined.

(** The lives of all processes there will ever be. *)
Abbreviation lives := (nat → life).

Definition ages (x y : life) : Prop :=
  match x, y with
  | Unborn, _ | Alive, Alive | Alive, Dead | Dead, Dead => True
  | _, _ => False
  end.
Definition age (st st' : lives) : Prop := ∀ q, ages (st q) (st' q).

Lemma age_refl st : age st st.
Proof. intros q. by destruct (st q). Qed.
Lemma age_trans st1 st2 st3 : age st1 st2 → age st2 st3 → age st1 st3.
Proof. intros H1 H2 q. specialize (H1 q). specialize (H2 q). by destruct (st1 q), (st2 q), (st3 q). Qed.
Lemma age_birth st q : st q = Unborn → age st (<[q:=Alive]> st).
Proof.
  intros Hq q'. destruct (decide (q = q')) as [<-|Hne].
  - by rewrite Hq.
  - rewrite fn_lookup_insert_ne by done. by destruct (st q').
Qed.
Lemma age_death st q : st q = Alive → age st (<[q:=Dead]> st).
Proof.
  intros Hq q'. destruct (decide (q = q')) as [<-|Hne].
  - by rewrite fn_lookup_insert, Hq.
  - rewrite fn_lookup_insert_ne by done. by destruct (st q').
Qed.
Lemma age_dead st st' q : age st st' → st q = Dead → st' q = Dead.
Proof. intros Ha Hq. specialize (Ha q). rewrite Hq in Ha. by destruct (st' q). Qed.
Lemma age_born st st' q : age st st' → st q ≠ Unborn → st' q ≠ Unborn.
Proof. intros Ha Hq. specialize (Ha q). by destruct (st q), (st' q). Qed.

Section lifetimes.
Context {L : Type} `{EqDecision L} (lock : L) (guarded : L → bool).
(** Of each process: its pid, its start time and its lock token. *)
Context (pid start mark : nat → Z).
(** The lives at the start: a process that is dead then never runs. *)
Context (base : lives).
Implicit Types (m : L → Z) (st : lives) (q : nat).

(** ** Actions *)

(** What the system may answer a thread of process [q]: a process that runs
    exists, and its start time is the one reported, unless it is withheld from
    another process. *)
Definition truthful {A} (a : act L A) q st : A → Prop :=
  match a in act _ A return A → Prop with
  | CurrentPid => λ r, r = pid q
  | ProcessExists p => λ r, r = false → ∀ q', st q' = Alive → pid q' ≠ p
  | ProcessProbe p => λ r, ∀ q', st q' = Alive → pid q' = p →
      r = (start q', false) ∨ (q' ≠ q ∧ r = (0, false))
  | _ => λ _, True
  end.

(** Does the thread hold the lock after [a] has answered [r]? *)
Definition holding {A} (a : act L A) : A → bool → bool :=
  match a in act _ A return A → bool → bool with
  | Store l _ => λ _ h, if decide (l = lock) then false else h
  | Cas l _ _ | CasWeak l _ _ => λ r h, if decide (l = lock) then r.1 || h else h
  | _ => λ _ h, h
  end.

(** ** The logic *)

Context {T : Type} `{Countable T}.
Context (Inv : (L → Z) → lives → gmultiset T → Prop).
Implicit Types (own env toks : gmultiset T).

(** What the holder of the lock knows: the guarded locations and the tokens of
    the others. *)
Abbreviation phase := (option ((L → Z) * gmultiset T)).
Implicit Types (ph : phase).

Definition agree (μ m : L → Z) : Prop := ∀ l, guarded l = true → m l = μ l.

Definition sees ph m env : Prop :=
  match ph with
  | None => True
  | Some (μ, known) => known = env ∧ agree μ m
  end.

Definition held ph : bool := match ph with Some _ => true | None => false end.

(** The processes are those of the start, and whoever holds the lock has been born. *)
Definition lock_ok m st : Prop :=
  age base st ∧ (m lock = 0 ∨ ∃ q, mark q = m lock ∧ base q ≠ Dead ∧ st q ≠ Unborn).

(** What an action may write. *)
Definition allowed {A} (a : act L A) q ph : Prop :=
  match a with
  | Store l v => (l = lock → v = 0 ∧ held ph = true) ∧ (guarded l = true → held ph = true)
  | Cas l _ d => (l = lock → d = mark q ∧ held ph = false) ∧ (guarded l = true → held ph = true)
  | CasWeak l _ _ | FetchAdd _ l _ => l ≠ lock ∧ (guarded l = true → held ph = true)
  | _ => True
  end.

(** The lock may be taken from nobody, or from the dead. *)
Definition takes_from_dead {A} (a : act L A) st : A → Prop :=
  match a in act _ A return A → Prop with
  | Cas l e _ => λ r, l = lock → r.1 = true → e = 0 ∨ ∀ q, mark q = e → st q ≠ Alive
  | _ => λ _, True
  end.

Abbreviation post A := (outcome A → lives → phase → gmultiset T → Prop).

(** For [n] steps, [p] run by process [q] keeps the invariant, follows the rules
    of the lock and keeps [K] of its tokens; [Q] holds at its end.  [st] bounds
    the lives from below. *)
Fixpoint safe (K : gmultiset T → Prop) (n : nat) {A} (p : prog L A) q st ph own (Q : post A) : Prop :=
  match n with
  | O => True
  | S n =>
      K own ∧
      match p with
      | Ret a => Q (Val a) st ph own
      | Throw e => Q (Exc e) st ph own
      | Act a k =>
          allowed a q ph ∧
          ∀ m st' env r m', age st st' → st' q = Alive → lock_ok m st' →
            Inv m st' (own ⊎ env) → sees ph m env → astep a m r m' → truthful a q st' r →
            takes_from_dead a st' r ∧
            ∃ st2 own' ph', age st2 st' ∧ Inv m' st' (own' ⊎ env) ∧ sees ph' m' env ∧
              held ph' = holding a r (held ph) ∧ (held ph = false → held ph' = false → own' = own) ∧
              safe K n (k r) q st2 ph' own' Q
      | Loop body s k => safe K n (unroll body s k) q st ph own Q
      end
  end.

Section rules.
Context (K : gmultiset T → Prop) (q : nat).
Abbreviation safely n p st ph own Q := (safe K n p q st ph own Q).

Lemma safely_mono n {A} (p : prog L A) st ph own (Q Q' : post A) :
  safely n p st ph own Q → (∀ o st' ph' own', K own' → Q o st' ph' own' → Q' o st' ph' own') →
  safely n p st ph own Q'.
Proof.
  revert A p st ph own Q Q'. induction n as [|n IH]; intros A p st ph own Q Q' Hp HQ; [done|].
  destruct p as [a|e|A' a k|S B body s k]; cbn [safe] in *; destruct Hp as [HK Hp]; (split; [done|]); [by auto..| |by eauto].
  destruct Hp as [Hg Hp]. split; [done|]. intros m st' env r m' Ha Hq Hl HI Hs Hm Ht.
  destruct (Hp m st' env r m' Ha Hq Hl HI Hs Hm Ht) as (Hd & st2 & own' & ph' & ? & ? & ? & ? & ? & ?).
  split; [done|]. exists st2, own', ph'. split_and!; try done. eauto.
Qed.

Lemma safely_le n n' {A} (p : prog L A) st ph own (Q : post A) :
  safely n p st ph own Q → (n' ≤ n)%nat → safely n' p st ph own Q.
Proof.
  revert A p st ph own Q n'. induction n as [|n IH]; intros A p st ph own Q n' Hp Hn.
  { by destruct n'; [|lia]. }
  destruct n' as [|n']; [done|].
  destruct p as [a|e|A' a k|S B body s k]; cbn [safe] in *; destruct Hp as [HK Hp]; (split; [done|]); try done.
  - destruct Hp as [Hg Hp]. split; [done|]. intros m st' env r m' Ha Hq Hl HI Hs Hm Ht.
    destruct (Hp m st' env r m' Ha Hq Hl HI Hs Hm Ht) as (Hd & st2 & own' & ph' & ? & ? & ? & ? & ? & ?).
    split; [done|]. exists st2, own', ph'. split_and!; try done. eapply IH; [done|lia].
  - eapply IH; [done|lia].
Qed.

Lemma safely_ret n {A} (a : A) st ph own (Q : post A) :
  K own → Q (Val a) st ph own → safely n (Ret a) st ph own Q.
Proof. by destruct n. Qed.

Lemma safely_throw n {A} (e : exn) st ph own (Q : post A) :
  K own → Q (Exc e) st ph own → safely n (Throw e) st ph own Q.
Proof. by destruct n. Qed.

Lemma safely_bind n {A B} (p : prog L A) (f : A → prog L B) st ph own (Q : post B) :
  safely n p st ph own (λ o st' ph' own', match o with
     | Val a => safely n (f a) st' ph' own' Q
     | Exc e => Q (Exc e) st' ph' own' end) →
  safely n (bind p f) st ph own Q.
Proof.
  revert A p f st ph own Q. induction n as [|n IH]; intros A p f st ph own Q Hp; [done|].
  assert (∀ D (p : prog L D) (h : D → prog L B) st ph own,
    safely n p st ph own (λ o st' ph' own', match o with
       | Val a => safely (S n) (h a) st' ph' own' Q
       | Exc e => Q (Exc e) st' ph' own' end) →
    safely n (bind p h) st ph own Q) as IH'.
  { intros D p' h st' ph' own' Hq. apply IH. eapply safely_mono; [exact Hq|].
    intros [a|e] st2 ph2 own2 _ HQ; [|done]. eapply safely_le; [apply HQ|lia]. }
  destruct p as [a|e|A' a k|S' B' body s k]; cbn [bind].
  - apply Hp.
  - apply Hp.
  - cbn [safe] in *. destruct Hp as [HK [Hg Hp]]. split; [done|]. split; [done|].
    intros m st' env r m' Ha Hq Hl HI Hs Hm Ht.
    destruct (Hp m st' env r m' Ha Hq Hl HI Hs Hm Ht) as (Hd & st2 & own' & ph' & ? & ? & ? & ? & ? & ?).
    split; [done|]. exists st2, own', ph'. split_and!; try done. by apply IH'.
  - cbn [safe] in *. destruct Hp as [HK Hp]. split; [done|]. rewrite <- bind_unroll. by apply IH'.
Qed.

(** A loop keeps an invariant of its state. *)
Lemma safely_loop n {S B} (body : S → prog L (S + B)) (J : S → lives → phase → gmultiset T → Prop)
    s st ph own (Q : post B) :
  J s st ph own → (∀ s st ph own, J s st ph own → K own) →
  (∀ n s st ph own, J s st ph own → safely n (body s) st ph own (λ o st' ph' own', match o with
     | Val (inl s') => J s' st' ph' own'
     | Val (inr b) => Q (Val b) st' ph' own'
     | Exc e => Q (Exc e) st' ph' own' end)) →
  safely n (loop s body) st ph own Q.
Proof.
  intros HJ HK Hb. revert s st ph own HJ. induction n as [|n IH]; intros s st ph own HJ; [done|].
  cbn [safe loop]. split; [by eapply HK|]. unfold unroll. apply safely_bind. eapply safely_mono; [by apply Hb|].
  intros [[s'|b]|e] st' ph' own' HK' Hp; [by apply IH|by apply safely_ret|done].
Qed.

Lemma safely_try n {A} (p : prog L A) st ph own (Q : post (A + exn)) :
  safely n p st ph own (λ o st' ph' own', Q (Val (caught o)) st' ph' own') →
  safely n (try_ p) st ph own Q.
Proof.
  revert A p st ph own Q. induction n as [|n IH]; intros A p st ph own Q Hp; [done|].
  destruct p as [a|e|A' a k|S B body s k]; cbn [safe try_] in *; destruct Hp as [HK Hp]; (split; [done|]); try done.
  - destruct Hp as [Hg Hp]. split; [done|]. intros m st' env r m' Ha Hq Hl HI Hs Hm Ht.
    destruct (Hp m st' env r m' Ha Hq Hl HI Hs Hm Ht) as (Hd & st2 & own' & ph' & ? & ? & ? & ? & ? & ?).
  split; [done|]. exists st2, own', ph'. split_and!; try done. eauto.
  - apply IH in Hp. revert Hp. unfold unroll. rewrite try_bind, bind_assoc.
    match goal with |- safe _ _ ?p _ _ _ _ _ → safe _ _ ?p' _ _ _ _ _ => replace p' with p; [done|] end.
    f_equal. apply functional_extensionality. by intros [[s'|b]|e].
Qed.

(** ** Specifications *)

Definition spec st ph own {A} (p : prog L A) (Q : post A) : Prop := ∀ n, safely n p st ph own Q.

Lemma rule_mono st ph own {A} (p : prog L A) (Q Q' : post A) :
  spec st ph own p Q → (∀ o st' ph' own', K own' → Q o st' ph' own' → Q' o st' ph' own') →
  spec st ph own p Q'.
Proof. intros Hp HQ n. by eapply safely_mono. Qed.

Lemma rule_ret st ph own {A} (a : A) (Q : post A) :
  K own → Q (Val a) st ph own → spec st ph own (Ret a) Q.
Proof. intros HK HQ n. by apply safely_ret. Qed.

Lemma rule_throw st ph own {A} (e : exn) (Q : post A) :
  K own → Q (Exc e) st ph own → spec st ph own (Throw e) Q.
Proof. intros HK HQ n. by apply safely_throw. Qed.

Lemma rule_bind st ph own {A B} (p : prog L A) (f : A → prog L B) (Q : post B) :
  spec st ph own p (λ o st' ph' own', match o with
     | Val a => spec st' ph' own' (f a) Q
     | Exc e => Q (Exc e) st' ph' own' end) →
  spec st ph own (bind p f) Q.
Proof.
  intros Hp n. apply safely_bind. eapply safely_mono; [apply Hp|]. intros [a|e] st' ph' own' _ HQ; [apply HQ|done].
Qed.

(** A call whose specification is known. *)
Lemma rule_call st ph own {A B} (p : prog L A) (P : A → lives → phase → gmultiset T → Prop)
    (f : A → prog L B) (Q : post B) :
  spec st ph own p (λ o st' ph' own', match o with Val a => P a st' ph' own' | Exc _ => False end) →
  (∀ a st' ph' own', K own' → P a st' ph' own' → spec st' ph' own' (f a) Q) →
  spec st ph own (bind p f) Q.
Proof. intros Hp Hf. apply rule_bind. eapply rule_mono; [exact Hp|]. intros [a|e] st' ph' own' HK HP; [by apply Hf|done]. Qed.

Lemma rule_loop {S B} (body : S → prog L (S + B)) (J : S → lives → phase → gmultiset T → Prop)
    s st ph own (Q : post B) :
  J s st ph own → (∀ s st ph own, J s st ph own → K own) →
  (∀ s st ph own, J s st ph own → spec st ph own (body s) (λ o st' ph' own', match o with
     | Val (inl s') => J s' st' ph' own'
     | Val (inr b) => Q (Val b) st' ph' own'
     | Exc e => Q (Exc e) st' ph' own' end)) →
  spec st ph own (loop s body) Q.
Proof. intros HJ HK Hb n. eapply safely_loop; [done..|]. intros n' s' st' ph' own' HJ'. by apply Hb. Qed.

Lemma rule_for {S B} k lo (s : S) (body : Z → S → prog L (S + B)) st ph own
    (J : Z → S → lives → phase → gmultiset T → Prop) (Q : post (S + B)) :
  K own → J lo s st ph own →
  (∀ i s st ph own, lo <= i < lo + Z.of_nat k → K own → J i s st ph own →
     spec st ph own (body i s) (λ o st' ph' own', match o with
       | Val (inl s') => J (i + 1) s' st' ph' own'
       | Val (inr b) => Q (Val (inr b)) st' ph' own'
       | Exc e => Q (Exc e) st' ph' own' end)) →
  (∀ s st ph own, J (lo + Z.of_nat k) s st ph own → Q (Val (inl s)) st ph own) →
  spec st ph own (for_ k lo s body) Q.
Proof.
  revert lo s st ph own. induction k as [|k IH]; intros lo s st ph own HK HJ Hb HQ.
  - apply rule_ret; [done|]. apply HQ. by rewrite Z.add_0_r.
  - cbn [for_]. apply rule_bind. eapply rule_mono; [apply Hb; [lia|done..]|].
    intros [[s'|b]|e] st' ph' own' HK' Hr; [|by apply rule_ret|done].
    apply IH; [done|done|intros; apply Hb; [lia|done..]|].
    intros s2 st2 ph2 own2 HJ2. apply HQ.
    by replace (lo + Z.of_nat (Datatypes.S k)) with (lo + 1 + Z.of_nat k) by lia.
Qed.

Lemma rule_foreach {S} k lo (s : S) (body : Z → S → prog L S) st ph own
    (J : Z → S → lives → phase → gmultiset T → Prop) (Q : post S) :
  K own → J lo s st ph own →
  (∀ i s st ph own, lo <= i < lo + Z.of_nat k → K own → J i s st ph own →
     spec st ph own (body i s) (λ o st' ph' own', match o with
       | Val s' => J (i + 1) s' st' ph' own'
       | Exc e => Q (Exc e) st' ph' own' end)) →
  (∀ s st ph own, J (lo + Z.of_nat k) s st ph own → Q (Val s) st ph own) →
  spec st ph own (foreach k lo s body) Q.
Proof.
  revert lo s st ph own. induction k as [|k IH]; intros lo s st ph own HK HJ Hb HQ.
  - apply rule_ret; [done|]. apply HQ. by rewrite Z.add_0_r.
  - cbn [foreach]. apply rule_bind. eapply rule_mono; [apply Hb; [lia|done..]|].
    intros [s'|e] st' ph' own' HK' Hr; [|done].
    apply IH; [done|done|intros; apply Hb; [lia|done..]|].
    intros s2 st2 ph2 own2 HJ2. apply HQ.
    by replace (lo + Z.of_nat (Datatypes.S k)) with (lo + 1 + Z.of_nat k) by lia.
Qed.

Lemma rule_try st ph own {A} (p : prog L A) (Q : post (A + exn)) :
  spec st ph own p (λ o st' ph' own', Q (Val (caught o)) st' ph' own') → spec st ph own (try_ p) Q.
Proof. intros Hp n. by apply safely_try. Qed.

Lemma rule_when st ph own (b : bool) (p : prog L unit) (Q : post unit) :
  K own → (b = true → spec st ph own p Q) → (b = false → Q (Val tt) st ph own) →
  spec st ph own (when b p) Q.
Proof. intros HK Hp HQ. destruct b; [by apply Hp|]. apply rule_ret; auto. Qed.

(** *** Rules of the actions *)

(** The invariant is of the guarded locations, and outlasts births and deaths. *)
Context (Hguard : guarded lock = false).
Context (Inv_ext : ∀ m m' st toks, agree m m' → Inv m st toks → Inv m' st toks).

Lemma agree_refl μ : agree μ μ.
Proof. done. Qed.
Lemma agree_sym μ m : agree μ m → agree m μ.
Proof. intros Ha l Hl. symmetry. by apply Ha. Qed.
Lemma agree_write μ m l v : agree μ m → agree (<[l:=v]> μ) (<[l:=v]> m).
Proof. intros Ha l' Hl. rewrite !upd_dec. case_decide; [done|by apply Ha]. Qed.
Lemma agree_other μ m l v : guarded l = false → agree μ m → agree μ (<[l:=v]> m).
Proof. intros Hl Ha l' Hl'. rewrite upd_ne by congruence. by apply Ha. Qed.

Lemma sees_write ph m env l v : guarded l = false → sees ph m env → sees ph (<[l:=v]> m) env.
Proof. destruct ph as [[μ known]|]; [|done]. intros Hl [-> Ha]. split; [done|by apply agree_other]. Qed.

(** What the holder knows is so. *)
Lemma sees_inv μ known m env st own :
  sees (Some (μ, known)) m env → Inv m st (own ⊎ env) → Inv μ st (own ⊎ known).
Proof using Inv_ext. intros [-> Ha] HI. eapply Inv_ext; [|done]. by apply agree_sym. Qed.

(** The location an action writes, if any. *)
Definition touches {A} (a : act L A) : option L :=
  match a with
  | Store l _ | Cas l _ _ | CasWeak l _ _ | FetchAdd _ l _ => Some l
  | _ => None
  end.

Definition idle {A} (a : act L A) : Prop := ∀ l, touches a = Some l → l ≠ lock ∧ guarded l = false.

Lemma idle_allowed {A} (a : act L A) ph : idle a → allowed a q ph.
Proof. destruct a; cbn; try done; intros Hi; destruct (Hi _ eq_refl) as [? Hl]; rewrite Hl; done. Qed.
Lemma idle_holding {A} (a : act L A) r h : idle a → holding a r h = h.
Proof. destruct a; cbn; try done; intros Hi; destruct (Hi _ eq_refl); by rewrite decide_False. Qed.
Lemma idle_takes {A} (a : act L A) st r : idle a → takes_from_dead a st r.
Proof. destruct a; cbn; try done. intros Hi. by destruct (Hi _ eq_refl). Qed.
Lemma idle_agree {A} (a : act L A) m r m' : idle a → astep a m r m' → agree m m'.
Proof.
  intros Hi Hs l Hl. destruct (touches a) as [l'|] eqn:Ht.
  - destruct (Hi _ Ht) as [_ Hl']. eapply astep_other; [done|]. intros Hw.
    assert (l' = l) as ->; [|congruence]. destruct a; cbn in *; try done; try congruence; destruct r as [[] ?]; cbn in *; congruence.
  - rewrite (astep_readonly a m r m') by (by destruct a || done). done.
Qed.
Lemma agree_trans m1 m2 m3 : agree m1 m2 → agree m2 m3 → agree m1 m3.
Proof. intros H1 H2 l Hl. rewrite H2 by done. by apply H1. Qed.

(** An action that writes neither the lock nor a guarded location. *)
Lemma rule_ask st ph own {A} (a : act L A) (Q : post A) :
  K own → idle a →
  (∀ m st' env r m', age st st' → st' q = Alive → lock_ok m st' → Inv m st' (own ⊎ env) →
     sees ph m env → astep a m r m' → truthful a q st' r → ∃ st2, age st2 st' ∧ Q (Val r) st2 ph own) →
  spec st ph own (Act a Ret) Q.
Proof using Inv_ext Hguard.
  intros HK Hi HQ n. destruct n as [|n]; [done|]. split; [done|]. split; [by apply idle_allowed|].
  intros m st' env r m' Ha Hq Hl HI Hs Hm Ht. split; [by apply idle_takes|].
  destruct (HQ m st' env r m' Ha Hq Hl HI Hs Hm Ht) as (st2 & Hage & HQ').
  pose proof (idle_agree a m r m' Hi Hm) as Hag. exists st2, own, ph. split_and!; try done.
  - by eapply Inv_ext.
  - destruct ph as [[μ known]|]; [|done]. destruct Hs as [-> Hs]. split; [done|by eapply agree_trans].
  - by rewrite idle_holding.
  - by apply safely_ret.
Qed.

Lemma rule_idle st ph own {A} (a : act L A) (Q : post A) :
  K own → idle a → (∀ r, Q (Val r) st ph own) → spec st ph own (Act a Ret) Q.
Proof using Inv_ext Hguard. intros HK Hi HQ. apply rule_ask; [done..|]. intros m st' env r m' Ha _ _ _ _ _ _. eauto. Qed.

(** The holder reads a guarded location, and learns the invariant. *)
Lemma rule_read st μ known own l (Q : post Z) :
  K own → guarded l = true →
  (∀ st', age st st' → st' q = Alive → Inv μ st' (own ⊎ known) →
     ∃ st2, age st2 st' ∧ Q (Val (μ l)) st2 (Some (μ, known)) own) →
  spec st (Some (μ, known)) own (load l) Q.
Proof using Inv_ext Hguard.
  intros HK Hl HQ. apply rule_ask; [done|done|]. intros m st' env r m' Ha Hq _ HI Hs Hm _.
  destruct (HQ st' Ha Hq (sees_inv _ _ _ _ _ _ Hs HI)) as (st2 & ? & HQ'). exists st2. split; [done|].
  destruct Hm as [-> _]. destruct Hs as [_ Hs]. by rewrite (Hs l Hl).
Qed.

(** The holder writes a guarded location. *)
Lemma rule_write st μ known own l v (Q : post unit) :
  K own → guarded l = true →
  (∀ st', age st st' → st' q = Alive → Inv μ st' (own ⊎ known) →
     ∃ st2 own', age st2 st' ∧ Inv (<[l:=v]> μ) st' (own' ⊎ known) ∧
       K own' ∧ Q (Val tt) st2 (Some (<[l:=v]> μ, known)) own') →
  spec st (Some (μ, known)) own (store l v) Q.
Proof using Inv_ext Hguard.
  intros HK Hl HQ n. destruct n as [|n]; [done|]. assert (l ≠ lock) as Hne by congruence. split; [done|]. split; [done|].
  intros m st' env r m' Ha Hq _ HI Hs Hm _. cbn in Hm. subst m'. split; [done|]. destruct r.
  destruct (HQ st' Ha Hq (sees_inv _ _ _ _ _ _ Hs HI)) as (st2 & own' & ? & HI' & HK' & HQ'). destruct Hs as [-> Hs].
  exists st2, own', (Some (<[l:=v]> μ, env)). split_and!; try done.
  - eapply Inv_ext; [|done]. by apply agree_write.
  - split; [done|]. by apply agree_write.
  - cbn. by rewrite decide_False.
  - by apply safely_ret.
Qed.

Lemma rule_bump st μ known own wrap l d (Q : post Z) :
  K own → guarded l = true →
  (∀ st', age st st' → st' q = Alive → Inv μ st' (own ⊎ known) →
     ∃ st2 own', age st2 st' ∧ Inv (<[l:=wrap (μ l + d)]> μ) st' (own' ⊎ known) ∧
       K own' ∧ Q (Val (μ l)) st2 (Some (<[l:=wrap (μ l + d)]> μ, known)) own') →
  spec st (Some (μ, known)) own (fetch_add wrap l d) Q.
Proof using Inv_ext Hguard.
  intros HK Hl HQ n. destruct n as [|n]; [done|]. assert (l ≠ lock) as Hne by congruence. split; [done|]. split; [done|].
  intros m st' env r m' Ha Hq _ HI Hs [-> ->] _. split; [done|].
  destruct (HQ st' Ha Hq (sees_inv _ _ _ _ _ _ Hs HI)) as (st2 & own' & ? & HI' & HK' & HQ'). destruct Hs as [-> Hs].
  rewrite (Hs l Hl). exists st2, own', (Some (<[l:=wrap (μ l + d)]> μ, env)). split_and!; try done.
  - eapply Inv_ext; [|done]. by apply agree_write.
  - split; [done|]. by apply agree_write.
  - by apply safely_ret.
Qed.

Lemma rule_unlock st μ known own (Q : post unit) :
  K own → Q (Val tt) st None own → spec st (Some (μ, known)) own (store lock 0) Q.
Proof using Inv_ext Hguard.
  intros HK HQ n. destruct n as [|n]; [done|]. split; [done|]. split; [split; [done|congruence]|].
  intros m st' env [] m' Ha Hq _ HI Hs Hm _. cbn in Hm. subst m'. split; [done|].
  exists st, own, None. split_and!; try done.
  - eapply Inv_ext; [|done]. by apply agree_other.
  - cbn. by rewrite decide_True.
  - by apply safely_ret.
Qed.

Lemma rule_take st own e (Q : post (bool * Z)) :
  K own → (e = 0 ∨ ∀ q', mark q' = e → st q' = Dead) →
  (∀ v, Q (Val (false, v)) st None own) →
  (∀ st' μ known, age st st' → Inv μ st' (own ⊎ known) → Q (Val (true, e)) st' (Some (μ, known)) own) →
  spec st None own (compare_exchange_strong lock e (mark q)) Q.
Proof using Inv_ext Hguard.
  intros HK He Hno Hyes n. destruct n as [|n]; [done|]. split; [done|]. split; [split; [done|congruence]|].
  intros m st' env r m' Ha Hq _ HI _ Hm _. split.
  { cbn. intros _ _. destruct He as [->|He]; [by left|right]. intros q' Hq'. by rewrite (age_dead st st' q' Ha (He q' Hq')). }
  destruct Hm as [(_ & -> & ->)|(_ & -> & ->)].
  - assert (Inv (<[lock:=mark q]> m) st' (own ⊎ env)) as HI'.
    { eapply Inv_ext; [|done]. by apply agree_other. }
    exists st', own, (Some (<[lock:=mark q]> m, env)). split_and!; try done; [apply age_refl|cbn; by rewrite decide_True|].
    apply safely_ret; [done|]. by apply Hyes.
  - exists st, own, None. split_and!; try done; [cbn; by rewrite decide_True|]. by apply safely_ret.
Qed.
End rules.

(** ** Executions *)

(** The calls of a thread, what it keeps between them, and the answers. *)
Context {C E R : Type} (perform : nat → C → E → prog L (R * E)).

(** A thread: its process, the calls it still makes, what it keeps, the call in
    progress, whether it holds the lock, and the answers it got so far, each with
    what the thread kept when it called. *)
Record thread := Thread {
  t_proc : nat;
  t_calls : list C;
  t_kept : E;
  t_run : option (prog L (R * E));
  t_holds : bool;
  t_told : list (E * C * R)
}.

Record system := System { s_mem : L → Z; s_lives : lives; s_threads : list thread }.

Definition running (s : system) (t : nat) (th : thread) : Prop :=
  s_threads s !! t = Some th ∧ s_lives s (t_proc th) = Alive.

Inductive step : system → system → Prop :=
  | step_call m st ts t q c cs e h told :
      ts !! t = Some (Thread q (c :: cs) e None h told) → st q = Alive →
      step (System m st ts)
           (System m st (<[t := Thread q (c :: cs) e (Some (perform q c e)) h told]> ts))
  | step_act m st ts t q cs e A (a : act L A) k h told r m' :
      ts !! t = Some (Thread q cs e (Some (Act a k)) h told) → st q = Alive →
      astep a m r m' → truthful a q st r →
      step (System m st ts)
           (System m' st (<[t := Thread q cs e (Some (k r)) (holding a r h) told]> ts))
  | step_loop m st ts t q cs e S B (body : S → prog L (S + B)) s k h told :
      ts !! t = Some (Thread q cs e (Some (Loop body s k)) h told) → st q = Alive →
      step (System m st ts)
           (System m st (<[t := Thread q cs e (Some (unroll body s k)) h told]> ts))
  | step_return m st ts t q c cs e r e' h told :
      ts !! t = Some (Thread q (c :: cs) e (Some (Ret (r, e'))) h told) → st q = Alive →
      step (System m st ts)
           (System m st (<[t := Thread q cs e' None h (told ++ [(e, c, r)])]> ts))
  | step_birth m st ts q :
      st q = Unborn → step (System m st ts) (System m (<[q := Alive]> st) ts)
  | step_death m st ts q :
      st q = Alive → step (System m st ts) (System m (<[q := Dead]> st) ts).

Definition reachable : system → system → Prop := rtc step.

(** Nobody has called yet, and the lock is free. *)
Definition fresh (s : system) : Prop :=
  s_mem s lock = 0 ∧
  ∀ t th, s_threads s !! t = Some th → t_run th = None ∧ t_holds th = false ∧ t_told th = [].

(** ** Soundness *)

Context (Hguard : guarded lock = false).
Context (Inv_ext : ∀ m m' st toks, agree m m' → Inv m st toks → Inv m' st toks).
Context (Inv_age : ∀ m st st' toks, age st st' → Inv m st toks → Inv m st' toks).
Context (Hmark : ∀ q, mark q ≠ 0).
(** The calls that are made, what a thread owns between them and during one, and
    what it is told. *)
Context (Valid : C → Prop).
Context (Ready : nat → E → gmultiset T → Prop).
Context (Keeps : nat → C → E → gmultiset T → Prop).
Context (Says : nat → E → C → R → Prop).

Definition ends q c e : post (R * E) := λ o st ph own,
  match o with Val (r, e') => ph = None ∧ Ready q e' own ∧ Says q e c r | Exc _ => True end.

Definition honest : Prop := ∀ q c e own st,
  Valid c → Ready q e own → spec (Keeps q c e) q st None own (perform q c e) (ends q c e).

Record ghost := Ghost { g_phase : phase; g_own : gmultiset T }.
Implicit Types (gs : list ghost) (s : system).

Abbreviation owns gs := (g_own <$> gs).
Definition others gs (t : nat) : gmultiset T := ⋃+ <[t := ∅]> (owns gs).

Definition thread_ok (n : nat) st (th : thread) (gh : ghost) : Prop :=
  t_holds th = held (g_phase gh) ∧
  (st (t_proc th) = Unborn → g_phase gh = None) ∧
  Forall (λ '(e, c, r), Says (t_proc th) e c r) (t_told th) ∧
  Forall Valid (t_calls th) ∧
  match t_run th with
  | None => g_phase gh = None ∧ Ready (t_proc th) (t_kept th) (g_own gh)
  | Some p => ∃ st0 c cs, age st0 st ∧ t_calls th = c :: cs ∧
      safe (Keeps (t_proc th) c (t_kept th)) n p (t_proc th) st0 (g_phase gh) (g_own gh)
        (ends (t_proc th) c (t_kept th))
  end.

Definition holder (s : system) (t : nat) (th : thread) : Prop := running s t th ∧ t_holds th = true.

Record fine (n : nat) s gs : Prop := {
  fi_lock : lock_ok (s_mem s) (s_lives s);
  fi_inv : Inv (s_mem s) (s_lives s) (⋃+ owns gs);
  fi_length : length gs = length (s_threads s);
  fi_threads : ∀ t th gh, s_threads s !! t = Some th → gs !! t = Some gh → thread_ok n (s_lives s) th gh;
  fi_holders : ∀ t th gh, holder s t th → gs !! t = Some gh →
    sees (g_phase gh) (s_mem s) (others gs t) ∧ s_mem s lock = mark (t_proc th);
  fi_one : ∀ t t' th th', holder s t th → holder s t' th' → t = t'
}.

Lemma others_split gs t gh : gs !! t = Some gh → ⋃+ owns gs = g_own gh ⊎ others gs t.
Proof.
  intros Ht. destruct (owns_split (owns gs) t (g_own gh)) as (env & -> & Henv); [by rewrite list_lookup_fmap, Ht|].
  unfold others. rewrite Henv. by rewrite (left_id_L ∅ (⊎)).
Qed.

Lemma others_insert gs t gh : others (<[t := gh]> gs) t = others gs t.
Proof. unfold others. by rewrite list_fmap_insert, list_insert_insert_eq. Qed.

(** A thread whose tokens stay is the same to the others. *)
Lemma others_same gs t t' gh gh' :
  gs !! t = Some gh → g_own gh' = g_own gh → others (<[t := gh']> gs) t' = others gs t'.
Proof.
  intros Ht Ho. unfold others. rewrite list_fmap_insert, Ho. f_equal. f_equal. apply list_insert_id.
  by rewrite list_lookup_fmap, Ht.
Qed.

Lemma thread_ok_mono n n' st st' th gh :
  (n' ≤ n)%nat → age st st' → (st' (t_proc th) = Unborn → st (t_proc th) = Unborn) →
  thread_ok n st th gh → thread_ok n' st' th gh.
Proof.
  intros Hn Ha Hu (Hh & Hun & Htold & Hval & Hrun). split; [done|]. split; [auto|]. split; [done|]. split; [done|].
  destruct (t_run th) as [p|]; [|done]. destruct Hrun as (st0 & c & cs & Ha0 & Hc & Hs).
  exists st0, c, cs. split; [by eapply age_trans|]. split; [done|]. by eapply safely_le.
Qed.

Lemma age_unborn st st' q : age st st' → st' q = Unborn → st q = Unborn.
Proof. intros Ha Hq. specialize (Ha q). rewrite Hq in Ha. by destruct (st q). Qed.

(** Either no other thread that runs holds the lock, or what its holder knows is
    left alone. *)
Definition apart s (t : nat) : Prop := ∀ t' th, t' ≠ t → holder s t' th → False.

Lemma fine_update n m st ts gs t th gh m' th' gh' :
  fine (S n) (System m st ts) gs →
  ts !! t = Some th → gs !! t = Some gh → st (t_proc th) = Alive → t_proc th' = t_proc th →
  lock_ok m' st → Inv m' st (g_own gh' ⊎ others gs t) → thread_ok n st th' gh' →
  sees (g_phase gh') m' (others gs t) → (held (g_phase gh') = true → m' lock = mark (t_proc th)) →
  apart (System m st ts) t ∨
    (g_own gh' = g_own gh ∧ held (g_phase gh') = held (g_phase gh) ∧ agree m m' ∧ m' lock = m lock) →
  fine n (System m' st (<[t := th']> ts)) (<[t := gh']> gs).
Proof using perform.
  intros [Hl HI Hlen Hts Hh Hone] Ht Hg Hq Hp Hl' HI' Hok Hs Hm Hor. cbn [s_mem s_lives s_threads] in *.
  pose proof (Hts _ _ _ Ht Hg) as (Hhold & _). pose proof Hok as (Hhold' & _).
  assert (∀ u thu, holder (System m' st (<[t := th']> ts)) u thu → u ≠ t →
    holder (System m st ts) u thu ∧ g_own gh' = g_own gh ∧ held (g_phase gh') = held (g_phase gh) ∧
    agree m m' ∧ m' lock = m lock) as Hother.
  { intros u thu [[Hu Hlu] Hhu] Hne. cbn in Hu. rewrite list_lookup_insert_ne in Hu by done.
    assert (holder (System m st ts) u thu) as Hhold2 by done. split; [done|].
    destruct Hor as [Hor|?]; [|done]. by destruct (Hor u thu Hne). }
  split; cbn [s_mem s_lives s_threads].
  - done.
  - rewrite (others_split _ t gh') by (by apply list_lookup_insert_eq; eapply lookup_lt_Some).
    by rewrite others_insert.
  - by rewrite !length_insert.
  - intros u thu ghu Hu Hgu. destruct (decide (u = t)) as [->|Hne].
    + rewrite list_lookup_insert_eq in Hu by (by eapply lookup_lt_Some).
      rewrite list_lookup_insert_eq in Hgu by (by eapply lookup_lt_Some). by simplify_eq.
    + rewrite list_lookup_insert_ne in Hu by done. rewrite list_lookup_insert_ne in Hgu by done.
      eapply (thread_ok_mono (S n)); [lia|apply age_refl|done|]. by eapply Hts.
  - intros u thu ghu Hu Hgu. destruct (decide (u = t)) as [->|Hne].
    + destruct Hu as [[Hu _] Hhu]. cbn in Hu.
      rewrite list_lookup_insert_eq in Hu by (by eapply lookup_lt_Some).
      rewrite list_lookup_insert_eq in Hgu by (by eapply lookup_lt_Some). simplify_eq.
      rewrite others_insert, Hp. split; [done|]. apply Hm. by rewrite <- Hhold'.
    + destruct (Hother u thu Hu Hne) as (Hu' & Hown & _ & Hag & Hlk).
      rewrite list_lookup_insert_ne in Hgu by done. destruct (Hh u thu ghu Hu' Hgu) as [Hsee Hmk].
      rewrite (others_same _ _ _ gh) by done. rewrite Hlk. split; [|done].
      destruct (g_phase ghu) as [[μ known]|]; [|done]. destruct Hsee as [-> Hsee]. split; [done|].
      by eapply agree_trans.
  - intros u u' thu thu' Hu Hu'. destruct (decide (u = t)) as [->|Hne], (decide (u' = t)) as [->|Hne']; [done| | |].
    + destruct (Hother _ _ Hu' Hne') as (Hold & _ & Hsame & _). destruct Hu as [[Hu Hlu] Hhu]. cbn in Hu.
      rewrite list_lookup_insert_eq in Hu by (by eapply lookup_lt_Some). simplify_eq.
      eapply (Hone t u'); [|done]. split; [split; [done|]|]; [by rewrite <- Hp|]. congruence.
    + destruct (Hother _ _ Hu Hne) as (Hold & _ & Hsame & _). destruct Hu' as [[Hu' Hlu] Hhu]. cbn in Hu'.
      rewrite list_lookup_insert_eq in Hu' by (by eapply lookup_lt_Some). simplify_eq.
      eapply (Hone u t); [done|]. split; [split; [done|]|]; [by rewrite <- Hp|]. congruence.
    + destruct (Hother _ _ Hu Hne) as [? _], (Hother _ _ Hu' Hne') as [? _]. by eapply Hone.
Qed.

(** What an allowed action does to the lock and to the guarded locations. *)
Lemma act_outside {A} (a : act L A) q ph m r m' :
  allowed a q ph → held ph = false → astep a m r m' → holding a r false = false →
  agree m m' ∧ m' lock = m lock.
Proof using Type.
  clear -mark. intros Hal Hh Hs Hhold. assert (∀ l, writes a r = Some l → l ≠ lock ∧ guarded l = false) as Hw.
  { intros l Hw. destruct a; cbn in *; try done; rewrite Hh in Hal; try (destruct r as [[] ?]; [|done]); cbn in *;
      injection Hw as ->; destruct (decide (l = lock)), (guarded l); naive_solver. }
  split; [intros l Hl|]; (eapply astep_other; [done|]); intros Hc; destruct (Hw _ Hc); congruence.
Qed.

Lemma act_lock {A} (a : act L A) q ph m r m' :
  allowed a q ph → astep a m r m' →
  m' lock = m lock ∨ m' lock = 0 ∨ m' lock = mark q ∧ holding a r false = true.
Proof using Type.
  clear -mark. intros Hal Hs. destruct (writes a r) as [l|] eqn:Hw.
  - destruct (decide (l = lock)) as [->|Hne]; [|left; eapply astep_other; [done|congruence]].
    destruct a; cbn in *; try done; [|destruct r as [[] ?]; [|done]|destruct r as [[] ?]; [|done]|]; cbn in *; simplify_eq.
    + right; left. rewrite upd_same. naive_solver.
    + right; right. rewrite decide_True by done. destruct Hs as [(_ & _ & ->)|(_ & [=] & _)].
      rewrite upd_same. naive_solver.
    + naive_solver.
    + naive_solver.
  - left. eapply astep_other; [done|congruence].
Qed.

Lemma act_keeps_holding {A} (a : act L A) q ph m r m' :
  allowed a q ph → held ph = true → holding a r true = true → astep a m r m' → m' lock = m lock.
Proof using Type.
  clear -mark. intros Hal Hh Hhold Hs. eapply astep_other; [done|]. intros Hw.
  destruct a; cbn in *; try done; rewrite Hh in Hal; try (destruct r as [[] ?]; [|done]); cbn in *; simplify_eq.
  - by rewrite decide_True in Hhold.
  - naive_solver.
  - naive_solver.
  - naive_solver.
Qed.

(** Whoever takes the lock takes it from nobody that runs. *)
Lemma act_takes {A} (a : act L A) q ph m st r m' :
  allowed a q ph → held ph = false → holding a r false = true → astep a m r m' → takes_from_dead a st r →
  (m lock = 0 ∨ ∀ q', mark q' = m lock → st q' ≠ Alive) ∧ m' lock = mark q.
Proof using Type.
  clear -mark. intros Hal Hh Hhold Hs Ht. destruct a; cbn in *; try done; try by case_decide.
  - case_decide as Hl; [|done]. destruct r as [[] v]; [|done]. destruct Hs as [(<- & _ & ->)|(_ & [=] & _)].
    subst l. rewrite upd_same. split; [by apply Ht|naive_solver].
  - case_decide as Hl; [|done]. naive_solver.
Qed.

Lemma holding_true {A} (a : act L A) r : holding a r false = true → holding a r true = true.
Proof. destruct a; cbn; try done; case_decide; try done; by rewrite orb_true_r. Qed.

Lemma holding_writes {A} (a : act L A) r : holding a r false = true → writes a r = Some lock.
Proof. destruct a; cbn; try done; case_decide; try done; destruct r as [[] ?]; naive_solver. Qed.

Lemma fine_act n m st ts gs t q cs e A (a : act L A) k h told r m' :
  fine (S n) (System m st ts) gs →
  ts !! t = Some (Thread q cs e (Some (Act a k)) h told) → st q = Alive →
  astep a m r m' → truthful a q st r →
  ∃ gs', fine n (System m' st (<[t := Thread q cs e (Some (k r)) (holding a r h) told]> ts)) gs'.
Proof using perform Hmark.
  intros Hf Ht Hq Hs Htr. pose proof Hf as [Hl HI Hlen Hts Hh Hone]. cbn [s_mem s_lives s_threads] in *.
  destruct (lookup_lt_is_Some_2 gs t) as [gh Hg]; [rewrite Hlen; by eapply lookup_lt_Some|].
  destruct (Hts _ _ _ Ht Hg) as (Hhold & Hun & Htold & Hval & st0 & c & cs' & Ha0 & Hc & Hsafe). cbn in Hhold, Htold, Hval, Hc, Hsafe.
  destruct Hsafe as (_ & Hal & Hsafe).
  assert (held (g_phase gh) = true → holder (System m st ts) t (Thread q cs e (Some (Act a k)) h told)) as Hholder.
  { intros Hd. split; [done|]. cbn. congruence. }
  assert (sees (g_phase gh) m (others gs t)) as Hsee.
  { destruct (g_phase gh) as [φ|] eqn:Hφ; [|done].
    destruct (Hh t _ gh (Hholder eq_refl) Hg) as [Hsee _]. by rewrite Hφ in Hsee. }
  rewrite (others_split _ _ _ Hg) in HI.
  destruct (Hsafe m st _ r m' Ha0 Hq Hl HI Hsee Hs Htr) as (Htake & st2 & own' & ph' & Ha2 & HI' & Hsee' & Hheld & Hown & Hsafe').
  exists (<[t := Ghost ph' own']> gs).
  eapply fine_update; try done; cbn [g_phase g_own t_proc t_holds t_told t_run t_calls t_kept].
  - destruct Hl as [Hbase Hl]. split; [done|].
    destruct (act_lock _ _ _ _ _ _ Hal Hs) as [Hlk|[Hlk|[Hlk _]]]; rewrite Hlk; [done|by left|].
    right. exists q. rewrite Hq. split_and!; [done| |done]. intros Hd. specialize (Hbase q). by rewrite Hd, Hq in Hbase.
  - split; [cbn; congruence|]. split; [cbn; congruence|]. split; [done|]. split; [done|]. cbn. by exists st2, c, cs'.
  - intros Hd. rewrite Hheld in Hd. destruct (held (g_phase gh)) eqn:Hb.
    + rewrite (act_keeps_holding a q (g_phase gh) m r m') by done. by destruct (Hh t _ gh (Hholder eq_refl) Hg).
    + by destruct (act_takes a q (g_phase gh) m st r m').
  - destruct (held (g_phase gh)) eqn:Hb; [left|destruct (holding a r false) eqn:Hr; [left|right]].
    + intros t' th Hne Hth. apply Hne. symmetry. by eapply Hone.
    + intros t' th Hne Hth. destruct (act_takes a q (g_phase gh) m st r m') as [Hdead _]; try done.
      destruct (lookup_lt_is_Some_2 gs t') as [gh' Hg']; [rewrite Hlen; destruct Hth as [[Hth _] _]; by eapply lookup_lt_Some|].
      destruct (Hh _ _ _ Hth Hg') as [_ Hmk]. cbn in Hmk. destruct Hth as [[_ Halive] _]. cbn in Halive.
      destruct Hdead as [H0|Hd]; [by destruct (Hmark (t_proc th)); congruence|]. by apply (Hd (t_proc th)).
    + destruct (act_outside a q (g_phase gh) m r m') as [? ?]; try done. split; [by apply Hown; congruence|]. split; [congruence|done].
Qed.

(** A step that leaves the memory and the tokens alone. *)
Lemma fine_still n m st ts gs t th gh th' :
  fine (S n) (System m st ts) gs →
  ts !! t = Some th → gs !! t = Some gh → st (t_proc th) = Alive → t_proc th' = t_proc th →
  thread_ok n st th' gh → fine n (System m st (<[t := th']> ts)) gs.
Proof using perform.
  intros Hf Ht Hg Hq Hp Hok. pose proof Hf as [Hl HI Hlen Hts Hh Hone]. cbn [s_mem s_lives s_threads] in *.
  pose proof (Hts _ _ _ Ht Hg) as (Hhold & _).
  assert (held (g_phase gh) = true → sees (g_phase gh) m (others gs t) ∧ m lock = mark (t_proc th)) as Hsee.
  { intros Hd. by eapply (Hh t th gh); [split; [split|congruence]|]. }
  rewrite <- (list_insert_id gs t gh Hg). eapply fine_update; try done.
  - by rewrite <- (others_split _ _ _ Hg).
  - destruct (g_phase gh) as [φ|] eqn:Hφ; [|done]. by apply Hsee.
  - intros Hd. by apply Hsee.
  - by right.
Qed.

Lemma fine_age n m st st' ts gs :
  fine (S n) (System m st ts) gs → age st st' →
  (∀ q, st' q = Alive → st q = Alive ∨ st q = Unborn) →
  fine n (System m st' ts) gs.
Proof using perform Inv_age.
  intros [Hl HI Hlen Hts Hh Hone] Ha Hq. cbn [s_mem s_lives s_threads] in *.
  assert (∀ t th, holder (System m st' ts) t th → holder (System m st ts) t th) as Hold.
  { intros t th [[Ht Hal] Hd]. split; [split; [done|]|done]. cbn in *. destruct (Hq _ Hal) as [?|Hu]; [done|].
    destruct (lookup_lt_is_Some_2 gs t) as [gh Hg]; [rewrite Hlen; by eapply lookup_lt_Some|].
    destruct (Hts _ _ _ Ht Hg) as (Hhold & Hun & _). rewrite (Hun Hu) in Hhold. by rewrite Hhold in Hd. }
  split; cbn [s_mem s_lives s_threads]; try done.
  - destruct Hl as [Hbase Hl]. split; [by eapply age_trans|]. destruct Hl as [?|(q & ? & ? & ?)]; [by left|right]. exists q. split_and!; [done|done|by eapply age_born].
  - by eapply Inv_age.
  - intros t th gh Ht Hg. eapply (thread_ok_mono (S n)); [lia|done| |by eapply Hts].
    by apply age_unborn.
  - intros t th gh Hth Hg. by eapply (Hh t th gh); [apply Hold|].
  - intros t t' th th' Hth Hth'. eapply Hone; by apply Hold.
Qed.

Lemma fine_step n s s' gs :
  honest → fine (S n) s gs → step s s' → ∃ gs', fine n s' gs'.
Proof using Hmark Inv_age.
  intros Hhon Hf Hs. pose proof Hf as [_ _ Hlen Hts _ _].
  assert (∀ t th, s_threads s !! t = Some th → ∃ gh, gs !! t = Some gh ∧ thread_ok (S n) (s_lives s) th gh) as Hget.
  { intros t th Ht. destruct (lookup_lt_is_Some_2 gs t) as [gh Hg]; [rewrite Hlen; by eapply lookup_lt_Some|]. eauto. }
  destruct Hs as [m st ts t q c cs e h told Ht Hq|m st ts t q cs e A a k h told r m' Ht Hq Ha Htr
    |m st ts t q cs e S' B body s k h told Ht Hq|m st ts t q c cs e r e' h told Ht Hq|m st ts q Hq|m st ts q Hq];
    cbn [s_threads s_lives] in *.
  - destruct (Hget _ _ Ht) as (gh & Hg & Hhold & Hun & Htold & Hval & Hrun). exists gs.
    eapply fine_still; try done. split; [done|]. split; [done|]. split; [done|]. split; [done|]. cbn in *.
    destruct Hrun as [Hph Hready].
    exists st, c, cs. split; [apply age_refl|]. split; [done|]. rewrite Hph.
    apply Hhon; [by inversion_clear Hval|done].
  - by eapply fine_act.
  - destruct (Hget _ _ Ht) as (gh & Hg & Hhold & Hun & Htold & Hval & st0 & c & cs' & Ha & Hc & HK & Hrun). exists gs.
    eapply fine_still; try done. split; [done|]. split; [done|]. split; [done|]. split; [done|]. cbn. by exists st0, c, cs'.
  - destruct (Hget _ _ Ht) as (gh & Hg & Hhold & Hun & Htold & Hval & st0 & c' & cs' & Ha & Hc & HK & Hrun). cbn in *.
    injection Hc as <- <-. destruct Hrun as (Hph & Hready & Hsays). exists gs.
    eapply fine_still; try done. split; [done|]. split; [done|]. split; [|split; [by inversion_clear Hval|done]]. cbn.
    apply Forall_app. split; [done|]. by apply Forall_singleton.
  - exists gs. eapply fine_age; [done|by apply age_birth|]. intros q' Hq'.
    destruct (decide (q = q')) as [<-|Hne]; [by right|left]. by rewrite fn_lookup_insert_ne in Hq'.
  - exists gs. eapply fine_age; [done|by apply age_death|]. intros q' Hq'.
    destruct (decide (q = q')) as [<-|Hne]; [by left|left]. by rewrite fn_lookup_insert_ne in Hq'.
Qed.

Lemma fine_reachable s s' gs :
  honest → (∀ n, fine n s gs) → reachable s s' → ∀ n, ∃ gs', fine n s' gs'.
Proof using Hmark Inv_age.
  intros Hhon Hs Hr n. apply rtc_nsteps in Hr as [k Hr].
  assert (∀ gs, fine (k + n) s gs → ∃ gs', fine n s' gs') as Hgo; [|by eauto].
  clear Hs. induction Hr as [s|k s s1 s' Hst Hr IH]; intros gs0 Hf; [by eauto|].
  cbn in Hf. destruct (fine_step _ _ _ _ Hhon Hf Hst) as [gs1 ?]. eauto.
Qed.

(** Threads that have not called yet own nothing. *)
Lemma fine_fresh s :
  s_lives s = base → fresh s → Inv (s_mem s) (s_lives s) ∅ → (∀ t th, s_threads s !! t = Some th → Forall Valid (t_calls th) ∧ Ready (t_proc th) (t_kept th) ∅) →
  ∀ n, fine n s (replicate (length (s_threads s)) (Ghost None ∅)).
Proof using perform.
  intros Hs [Hl Hths] HI Hready n. split.
  - split; [rewrite Hs; apply age_refl|by left].
  - rewrite fmap_replicate. cbn. replace (⋃+ replicate (length (s_threads s)) ∅) with (∅ : gmultiset T); [done|].
    induction (length (s_threads s)) as [|k IH]; [done|]. 
    change (∅ = ∅ ⊎ ⋃+ replicate k (∅ : gmultiset T)). by rewrite <- IH, (left_id_L ∅ (⊎)).
  - by rewrite length_replicate.
  - intros t th gh Ht [-> _]%lookup_replicate. destruct (Hths _ _ Ht) as (Hr & Hd & Ho).
    destruct (Hready _ _ Ht).
    split; [done|]. split; [done|]. rewrite Hr, Ho. by split_and!.
  - intros t th gh [[Ht _] Hd] _. destruct (Hths _ _ Ht) as (_ & Hd' & _). congruence.
  - intros t t' th th' [[Ht _] Hd] _. destruct (Hths _ _ Ht) as (_ & Hd' & _). congruence.
Qed.

(** *** What is kept *)

Section kept.
Context (Hhonest : honest) (s0 s : system).
Context (Hlives : s_lives s0 = base) (Hfresh : fresh s0) (HInv : Inv (s_mem s0) (s_lives s0) ∅).
Context (HReady : ∀ t th, s_threads s0 !! t = Some th →
  Forall Valid (t_calls th) ∧ Ready (t_proc th) (t_kept th) ∅).
Context (Hreach : reachable s0 s).

Lemma reachable_fine n : ∃ gs, fine n s gs.
Proof using All.
  eapply fine_reachable; [done| |done]. by apply fine_fresh.
Qed.

(** Two threads that run never both hold the lock. *)
Lemma never_two_holders t t' th th' : holder s t th → holder s t' th' → t = t'.
Proof using All. destruct (reachable_fine 0) as [gs Hf]. by eapply fi_one. Qed.

(** Only the holder's steps change a guarded location. *)
Lemma holder_writes s' l :
  step s s' → guarded l = true → s_mem s' l ≠ s_mem s l →
  ∃ t th, holder s t th ∧ ∀ t', t' ≠ t → s_threads s' !! t' = s_threads s !! t'.
Proof using All.
  intros Hs Hl Hne. destruct (reachable_fine 1) as [gs [_ _ Hlen Hts _ _]].
  destruct Hs as [m st ts t q c cs e h told Ht Hq|m st ts t q cs e A a k h told r m' Ht Hq Ha Htr
    |m st ts t q cs e S' B body s1 k h told Ht Hq|m st ts t q c cs e r e' h told Ht Hq|m st ts q Hq|m st ts q Hq];
    cbn [s_mem s_lives s_threads] in *; try done.
  destruct (lookup_lt_is_Some_2 gs t) as [gh Hg]; [rewrite Hlen; by eapply lookup_lt_Some|].
  destruct (Hts _ _ _ Ht Hg) as (Hhold & Hun & Htold & Hval & st0 & c & cs' & Ha0 & Hc & HK & Hal & _).
  cbn [t_holds] in Hhold. destruct (held (g_phase gh)) eqn:Hh.
  - eexists t, _. split; [by split|]. intros t' Ht'. by rewrite list_lookup_insert_ne.
  - destruct (holding a r false) eqn:Hr.
    + destruct Hne. eapply astep_other; [done|]. rewrite (holding_writes _ _ Hr). congruence.
    + destruct (act_outside a q (g_phase gh) m r m') as [Hag _]; try done. by destruct Hne; apply Hag.
Qed.

(** The invariant holds of the threads' tokens, and each thread has kept its own. *)
Lemma ledger :
  ∃ owns : list (gmultiset T), Inv (s_mem s) (s_lives s) (⋃+ owns) ∧
    ∀ t th, s_threads s !! t = Some th → ∃ own, owns !! t = Some own ∧
      Forall (λ '(e, c, r), Says (t_proc th) e c r) (t_told th) ∧
      match t_run th with
      | None => Ready (t_proc th) (t_kept th) own
      | Some _ => ∃ c cs, t_calls th = c :: cs ∧ Keeps (t_proc th) c (t_kept th) own
      end.
Proof using All.
  destruct (reachable_fine 1) as [gs [_ HI Hlen Hts _ _]]. exists (owns gs). split; [done|].
  intros t th Ht. destruct (lookup_lt_is_Some_2 gs t) as [gh Hg]; [rewrite Hlen; by eapply lookup_lt_Some|].
  exists (g_own gh). split; [by rewrite list_lookup_fmap, Hg|].
  destruct (Hts _ _ _ Ht Hg) as (_ & _ & Htold & _ & Hrun). split; [done|].
  destruct (t_run th); [|by destruct Hrun]. destruct Hrun as (st0 & c & cs & _ & Hc & Hs). exists c, cs.
  split; [done|]. by destruct Hs.
Qed.
End kept.
End lifetimes.

Arguments system L C E R : clear implicits.
Arguments thread L C E R : clear implicits.

(** ** Playing a schedule *)

Inductive event := Turn (t : nat) | Birth (q : nat) | Death (q : nat).

Section play.
Context {L : Type} `{EqDecision L} (lock : L) (pid start : nat → Z) {C E R : Type}.
Context (perform : nat → C → E → prog L (R * E)).
(** All processes there will ever be. *)
Context (procs : list nat).
Implicit Types (st : lives) (s : system L C E R).

Definition with_pid st (p : Z) : option nat :=
  List.find (λ q, bool_decide (st q = Alive) && (pid q =? p)) procs.

(** What process [q] is answered. *)
Definition answers (q : nat) st : os :=
  Os 0 1000 0 (pid q) (λ p, match with_pid st p with Some q' => Some (start q', false) | None => None end) 0.

Definition turn (t : nat) s : system L C E R :=
  match s_threads s !! t with
  | Some (Thread q cs e run h told) =>
      if decide (s_lives s q = Alive) then
        match run, cs with
        | None, c :: _ =>
            System (s_mem s) (s_lives s) (<[t := Thread q cs e (Some (perform q c e)) h told]> (s_threads s))
        | Some (Act a k), _ =>
            let '(r, w) := exec a (World (s_mem s) (answers q (s_lives s)) []) in
            System (w_mem w) (s_lives s)
              (<[t := Thread q cs e (Some (k r)) (holding lock a r h) told]> (s_threads s))
        | Some (Loop body x k), _ =>
            System (s_mem s) (s_lives s)
              (<[t := Thread q cs e (Some (unroll body x k)) h told]> (s_threads s))
        | Some (Ret (r, e')), c :: cs =>
            System (s_mem s) (s_lives s)
              (<[t := Thread q cs e' None h (told ++ [(e, c, r)])]> (s_threads s))
        | _, _ => s
        end
      else s
  | None => s
  end.

(** A pid is given to one process at a time. *)
Definition happen (ev : event) s : system L C E R :=
  match ev with
  | Turn t => turn t s
  | Birth q =>
      if bool_decide (s_lives s q = Unborn) && bool_decide (q ∈ procs) &&
         bool_decide (with_pid (s_lives s) (pid q) = None)
      then System (s_mem s) (<[q := Alive]> (s_lives s)) (s_threads s) else s
  | Death q =>
      if decide (s_lives s q = Alive)
      then System (s_mem s) (<[q := Dead]> (s_lives s)) (s_threads s) else s
  end.

Definition play (evs : list event) s : system L C E R := fold_left (λ s ev, happen ev s) evs s.

Definition typed_processes : Prop := ∀ q, q ∈ procs → is_u64 (pid q) ∧ pid q ≠ 0 ∧ is_u64 (start q).

(** The processes that run are known and their pids differ. *)
Definition sane st : Prop :=
  (∀ q, st q = Alive → q ∈ procs) ∧
  (∀ q q', st q = Alive → st q' = Alive → pid q = pid q' → q = q').

Context (Hprocs : typed_processes).

Lemma with_pid_none st p : sane st → with_pid st p = None → ∀ q, st q = Alive → pid q ≠ p.
Proof using Type.
  intros [Hin _] Hn q Hq Hp. unfold with_pid in Hn.
  pose proof (find_none _ _ Hn q (proj1 (list_elem_of_In _ _) (Hin q Hq))) as Hf. cbn in Hf.
  rewrite bool_decide_eq_true_2, Hp, Z.eqb_refl in Hf by done. done.
Qed.

Lemma with_pid_some st p q : with_pid st p = Some q → st q = Alive ∧ pid q = p ∧ q ∈ procs.
Proof using Type.
  intros [Hin Hf]%find_some. apply andb_true_iff in Hf as [Hq%bool_decide_eq_true Hp%Z.eqb_eq].
  by rewrite list_elem_of_In.
Qed.

Lemma answers_typed q st : q ∈ procs → os_typed (answers q st).
Proof using Hprocs.
  intros Hq. split; [apply Hprocs, Hq|]. intros p. cbn. destruct (with_pid st p) as [q'|] eqn:Hp; [|done].
  apply with_pid_some in Hp as (_ & _ & Hin). by destruct (Hprocs q' Hin) as (_ & _ & ?).
Qed.

Lemma answers_truthful {A} (a : act L A) q st m :
  sane st → q ∈ procs → truthful pid start a q st (exec a (World m (answers q st) [])).1.
Proof using Hprocs.
  intros Hs Hq. destruct a; cbn; try done.
  - rewrite andb_false_iff, bool_decide_eq_false, negb_false_iff, Z.eqb_eq.
    intros Hr q' Hq' Hp. destruct (Hprocs q') as (_ & Hz & _); [by apply Hs|]. destruct Hr as [Hr|Hr]; [|congruence].
    destruct (with_pid st pid0) as [q2|] eqn:Hw; [by destruct Hr; eexists|].
    by apply (with_pid_none st pid0 Hs Hw q').
  - intros q' Hq' Hp. left. destruct (Hprocs q') as (_ & Hz & _); [by apply Hs|].
    rewrite (proj2 (Z.eqb_neq _ _)) by congruence. destruct (with_pid st pid0) as [q2|] eqn:Hw.
    + apply with_pid_some in Hw as (H2 & Hp2 & _). by rewrite (proj2 Hs q' q2 Hq' H2) by congruence.
    + by destruct (with_pid_none st pid0 Hs Hw q' Hq').
Qed.

Lemma happen_sane ev s : sane (s_lives s) → sane (s_lives (happen ev s)).
Proof using Type.
  intros Hs. destruct ev as [t|q|q]; cbn.
  - unfold turn. destruct (s_threads s !! t) as [[q cs e run h told]|]; [|done]. case_decide; [|done].
    destruct run as [[[r e']|x|A a k|S B body x k]|], cs; try done; by destruct (exec _ _).
  - destruct (bool_decide _ && _ && _) eqn:Hb; [|done]. cbn.
    apply andb_true_iff in Hb as [[Hu%bool_decide_eq_true Hin%bool_decide_eq_true]%andb_true_iff Hn%bool_decide_eq_true].
    split.
    + intros q' Hq'. destruct (decide (q = q')) as [<-|Hne]; [done|].
      rewrite fn_lookup_insert_ne in Hq' by done. by apply Hs.
    + assert (∀ q', q ≠ q' → (<[q := Alive]> (s_lives s)) q' = Alive → s_lives s q' = Alive) as Hold.
      { intros q' Hne. by rewrite fn_lookup_insert_ne. }
      intros q1 q2 H1 H2 Hp. destruct (decide (q = q1)) as [<-|Hn1], (decide (q = q2)) as [<-|Hn2]; [done| | |].
      * by destruct (with_pid_none _ _ Hs Hn q2 (Hold _ Hn2 H2)).
      * by destruct (with_pid_none _ _ Hs Hn q1 (Hold _ Hn1 H1)).
      * by apply Hs; [apply Hold|apply Hold|].
  - case_decide; [|done]. cbn. assert (∀ q', (<[q := Dead]> (s_lives s)) q' = Alive → s_lives s q' = Alive) as Hold.
    { intros q' Hq'. destruct (decide (q = q')) as [<-|Hne]; [by rewrite fn_lookup_insert in Hq'|].
      by rewrite fn_lookup_insert_ne in Hq'. }
    split; [intros; by apply Hs, Hold|]. intros; apply Hs; auto.
Qed.

Lemma happen_step ev s :
  sane (s_lives s) → step lock pid start perform s (happen ev s) ∨ happen ev s = s.
Proof using Hprocs.
  intros Hs. destruct s as [m st ts], ev as [t|q|q]; cbn.
  - unfold turn. cbn. destruct (ts !! t) as [[q cs e run h told]|] eqn:Ht; [|by right]. case_decide as Hq; [|by right].
    destruct run as [[[r e']|x|A a k|S B body x k]|]; [| | | |]; try (destruct cs as [|c cs]; [by right|]); try (by right).
    + left. by apply step_return.
    + pose proof (answers_truthful a q st m Hs (proj1 Hs q Hq)) as Htr.
      pose proof (exec_astep (λ _ : L, false) (answers q st) (answers_typed q st (proj1 Hs q Hq)) a m) as Ha.
      destruct (exec a _) as [r w]. cbn in Htr, Ha. left. by apply step_act.
    + left. by apply step_loop.
    + left. by apply step_call.
  - destruct (bool_decide _ && _ && _) eqn:Hb; [|by right]. left.
    apply andb_true_iff in Hb as [[Hu%bool_decide_eq_true _]%andb_true_iff _]. by apply step_birth.
  - case_decide; [left|by right]. by apply step_death.
Qed.

Lemma played_reachable evs s :
  sane (s_lives s) → reachable lock pid start perform s (play evs s).
Proof using Hprocs.
  revert s. induction evs as [|ev evs IH]; intros s Hs; [apply rtc_refl|]. cbn.
  etrans; [|by apply IH, happen_sane]. destruct (happen_step ev s Hs) as [? | ->]; [by apply rtc_once|apply rtc_refl].
Qed.
End play.
