(* ===== verification/Hash.v ===== *)
(** * FNV-1a hashing ([src/Hash.cc], [include/kickmsg/Hash.h])

    Byte ranges are lists of byte values.  The typed overload hashes the object
    representation of a value, here its little-endian bytes. *)

From S2P Require Import Prelude.

(** Bytes of a string literal. *)
Fixpoint str (s : string) : list Z :=
  match s with
  | EmptyString => []
  | String c s' => Z.of_N (Ascii.N_of_ascii c) :: str s'
  end.

Module Hash.
Definition FNV1A_64_OFFSET_BASIS : Z := 14695981039346656037.
Definition FNV1A_64_PRIME : Z := 1099511628211.

(** One turn of the byte loop: [h ^= p\[i\]; h *= FNV1A_64_PRIME]. *)
Definition fnv1a_step (h b : Z) : Z := u64 (Z.lxor h b * FNV1A_64_PRIME).

Definition fnv1a_64 (data : list Z) (seed : Z) : Z := foldl fnv1a_step seed data.

(** The typed overload: an object of [n] bytes holding [v]. *)
Definition fnv1a_64_int (n : nat) (v : Z) (seed : Z) : Z := fnv1a_64 (le_bytes n v) seed.

Definition fnv1a_64_str (s : list Z) : Z := fnv1a_64 s FNV1A_64_OFFSET_BASIS.

Definition identity_from_fnv1a (descriptor : list Z) : list Z :=
  le_bytes 8 (fnv1a_64_str descriptor) ++ replicate 56 0.

(** ** Properties *)

Lemma lxor_u64 x y : is_u64 x → is_u64 y → is_u64 (Z.lxor x y).
Proof.
  unfold is_u64. intros Hx Hy. split; [by apply Z.lxor_nonneg; lia|].
  destruct (decide (Z.lxor x y = 0)) as [->|Hne]; [lia|].
  change 18446744073709551616 with (2 ^ 64).
  apply Z.log2_lt_pow2; [pose proof (proj2 (Z.lxor_nonneg x y)); lia|].
  eapply Z.le_lt_trans; [apply Z.log2_lxor; lia|].
  apply Z.max_lub_lt.
  - destruct (decide (x = 0)) as [->|]; [by compute|]. apply Z.log2_lt_pow2; lia.
  - destruct (decide (y = 0)) as [->|]; [by compute|]. apply Z.log2_lt_pow2; lia.
Qed.

Lemma fnv1a_step_range h b : is_u64 (fnv1a_step h b).
Proof. apply u64_range. Qed.

Lemma fnv1a_64_range data seed : is_u64 seed → is_u64 (fnv1a_64 data seed).
Proof.
  unfold fnv1a_64. revert seed. induction data as [|b data IH]; intros seed Hs; simpl; [done|].
  apply IH, fnv1a_step_range.
Qed.

Lemma fnv1a_64_app a b seed : fnv1a_64 (a ++ b) seed = fnv1a_64 b (fnv1a_64 a seed).
Proof. apply foldl_app. Qed.

(** The prime is odd, so it has an inverse modulo [2^64] and a turn of the
    loop loses nothing of the running hash. *)
Definition FNV1A_64_PRIME_INV : Z := 14886173955864302971.

Lemma mul_prime_cancel x :
  is_u64 x → u64 (u64 (x * FNV1A_64_PRIME) * FNV1A_64_PRIME_INV) = x.
Proof.
  intros Hx. unfold u64. rewrite Z.mul_mod_idemp_l by lia. rewrite <- Z.mul_assoc.
  rewrite <- Z.mul_mod_idemp_r by lia.
  assert (E : (FNV1A_64_PRIME * FNV1A_64_PRIME_INV) `mod` 18446744073709551616 = 1) by reflexivity.
  rewrite E, Z.mul_1_r. by apply u64_small.
Qed.

Lemma lxor_cancel_r x y b : Z.lxor x b = Z.lxor y b → x = y.
Proof.
  intros E. rewrite <- (Z.lxor_0_r x), <- (Z.lxor_0_r y), <- (Z.lxor_nilpotent b).
  by rewrite <- !Z.lxor_assoc, E.
Qed.

Lemma fnv1a_step_lxor h b h' b' :
  is_u64 h → is_u64 h' → is_u8 b → is_u8 b' →
  fnv1a_step h b = fnv1a_step h' b' → Z.lxor h b = Z.lxor h' b'.
Proof.
  unfold fnv1a_step. intros Hh Hh' Hb Hb' E.
  rewrite <- (mul_prime_cancel (Z.lxor h b)) by (apply lxor_u64; word).
  rewrite <- (mul_prime_cancel (Z.lxor h' b')) by (apply lxor_u64; word).
  by rewrite E.
Qed.

Lemma fnv1a_64_seed_inj data seed seed' :
  Forall is_u8 data → is_u64 seed → is_u64 seed' →
  fnv1a_64 data seed = fnv1a_64 data seed' → seed = seed'.
Proof.
  intros Hd. revert seed seed'. unfold fnv1a_64.
  induction Hd as [|b data Hb Hd IH]; intros s s' Hs Hs' E; simpl in E; [done|].
  apply IH in E; [|apply fnv1a_step_range..].
  eapply lxor_cancel_r, (fnv1a_step_lxor _ b _ b); eauto.
Qed.

Lemma fnv1a_64_byte_inj data b b' seed :
  Forall is_u8 data → is_u8 b → is_u8 b' → is_u64 seed →
  fnv1a_64 (b :: data) seed = fnv1a_64 (b' :: data) seed → b = b'.
Proof.
  intros Hd Hb Hb' Hs E. change (fnv1a_64 data (fnv1a_step seed b) =
    fnv1a_64 data (fnv1a_step seed b')) in E.
  apply fnv1a_64_seed_inj in E; [|done|apply fnv1a_step_range..].
  apply fnv1a_step_lxor in E; [|done..].
  rewrite !(Z.lxor_comm seed) in E. by eapply lxor_cancel_r.
Qed.

(** Two inputs that differ in one byte never hash alike, whatever surrounds
    that byte and whatever was hashed before. *)
Theorem fnv1a_64_single_byte pre b b' post seed :
  Forall is_u8 post → is_u8 b → is_u8 b' → is_u64 seed → b ≠ b' →
  fnv1a_64 (pre ++ b :: post) seed ≠ fnv1a_64 (pre ++ b' :: post) seed.
Proof.
  intros Hpost Hb Hb' Hs Hne E. rewrite !fnv1a_64_app in E.
  apply fnv1a_64_byte_inj in E; auto using fnv1a_64_range.
Qed.

Lemma fnv1a_64_single_byte_witness :
  fnv1a_64 (str "topi" ++ 99 :: str "_a") FNV1A_64_OFFSET_BASIS
    ≠ fnv1a_64 (str "topi" ++ 100 :: str "_a") FNV1A_64_OFFSET_BASIS.
Proof.
  apply fnv1a_64_single_byte; [|vm_compute; intuition discriminate..].
  repeat constructor; vm_compute; intuition discriminate.
Defined.

Example fnv1a_64_empty : fnv1a_64_str (str "") = 14695981039346656037.
Proof. reflexivity. Qed.
Example fnv1a_64_a : fnv1a_64_str (str "a") = 12638187200555641996.
Proof. vm_compute. reflexivity. Qed.
Example fnv1a_64_foobar : fnv1a_64_str (str "foobar") = 9625390261332436968.
Proof. vm_compute. reflexivity. Qed.
End Hash.
