(* ===== verification/Text.v ===== *)
(** * Text as the C library reads and prints it

    Text is a list of bytes.  What the sources use of [<cstring>], [<cctype>],
    [<cstdio>] and [<cstdlib>]: the end of a string, the character classes, and
    decimal numbers. *)

From S2P Require Import Prelude Prog.

Definition SPACE : Z := 32.

(** The bytes before the terminating NUL. *)
Fixpoint c_string (s : list Z) : list Z :=
  match s with
  | [] => []
  | c :: s => if c =? 0 then [] else c :: c_string s
  end.

Definition isdigit (c : Z) : bool := (48 <=? c) && (c <=? 57).
Definition isspace (c : Z) : bool := (c =? SPACE) || ((9 <=? c) && (c <=? 13)).

Fixpoint scan_digits (s : list Z) (v : Z) : Z :=
  match s with
  | c :: s => if isdigit c then scan_digits s (v * 10 + (c - 48)) else v
  | [] => v
  end.

Fixpoint skip_isspace (s : list Z) : list Z :=
  match s with
  | c :: t => if isspace c then skip_isspace t else s
  | [] => []
  end.

(** ["%llu"] *)
Fixpoint decimal_loop (fuel : nat) (v : Z) : list Z :=
  match fuel with
  | O => []
  | S fuel => (if v <? 10 then [] else decimal_loop fuel (v / 10)) ++ [48 + v mod 10]
  end.
Definition decimal (v : Z) : list Z := decimal_loop 20 v.

(** ** Lemmas *)

Lemma c_string_whole s : Forall (λ c, c ≠ 0) s → c_string s = s.
Proof. induction 1 as [|c s Hc _ IH]; cbn; [done|]. rewrite (proj2 (Z.eqb_neq c 0)) by done. by rewrite IH. Qed.

(** *** Decimal numbers *)

Definition value (ds : list Z) (v : Z) : Z := fold_left (λ v c, v * 10 + (c - 48)) ds v.

Lemma scan_digits_app ds t v :
  Forall (λ c, isdigit c = true) ds → scan_digits (ds ++ t) v = scan_digits t (value ds v).
Proof. intros Hd. revert v. induction Hd as [|c ds Hc _ IH]; intros v; cbn; [done|]. rewrite Hc. apply IH. Qed.

Lemma decimal_digits fuel v : 0 <= v → Forall (λ c, isdigit c = true) (decimal_loop fuel v).
Proof.
  revert v. induction fuel as [|fuel IH]; intros v Hv; cbn [decimal_loop]; [constructor|].
  apply Forall_app. split.
  - destruct (v <? 10); [constructor|]. apply IH. apply Z.div_pos; lia.
  - constructor; [|constructor]. pose proof (Z.mod_pos_bound v 10). unfold isdigit.
    apply andb_true_intro. split; apply Z.leb_le; lia.
Qed.

Lemma decimal_length fuel v : (length (decimal_loop fuel v) <= fuel)%nat.
Proof.
  revert v. induction fuel as [|fuel IH]; intros v; cbn [decimal_loop]; [done|].
  rewrite length_app. pose proof (IH (v / 10)). destruct (v <? 10); cbn [length]; lia.
Qed.

Lemma decimal_value fuel v : 0 <= v < 10 ^ Z.of_nat fuel → value (decimal_loop fuel v) 0 = v.
Proof.
  revert v. induction fuel as [|fuel IH]; intros v Hv; [cbn in *; lia|].
  cbn [decimal_loop]. unfold value. rewrite fold_left_app. cbn [fold_left].
  rewrite Nat2Z.inj_succ, Z.pow_succ_r in Hv by lia.
  destruct (Z.ltb_spec v 10) as [Hlt|Hge].
  - cbn [fold_left]. rewrite Z.mod_small by lia. lia.
  - fold (value (decimal_loop fuel (v / 10)) 0). rewrite IH by (split; [apply Z.div_pos|apply Z.div_lt_upper_bound]; lia).
    pose proof (Z.div_mod v 10). lia.
Qed.

Lemma decimal_nonempty v : ∃ c t, decimal v = c :: t.
Proof.
  unfold decimal. cbn [decimal_loop]. destruct ((if v <? 10 then _ else _) ++ _) as [|c t] eqn:E; [|eauto].
  by apply app_eq_nil in E as [_ ?].
Qed.
