(* ===== verification/Types.v ===== *)
(** * Shared words and layout types ([include/kickmsg/types.h], [src/types.cc])

    The constants and packed words of the shared-memory ABI, each constexpr
    helper as a function on [Z] with the width of its C++ result, and the
    structures the regions are described with.  The lemmas give every packed
    word its arithmetic reading. *)

From S2P Require Import Prelude Hash.
Import Hash.

Module Types.
Definition MAGIC : Z := 0x4B49434B4D534721.
Definition VERSION : Z := 10.
Definition INVALID_SLOT : Z := 4294967295.
Definition CACHE_LINE : Z := 64.
Definition MAX_POOL_SIZE : Z := Z.shiftl 1 24 - 2.
Definition MAX_PAYLOAD_SIZE : Z := 2147483647.
Definition MAX_SUBSCRIBERS : Z := 65535.

(** ** Sequence words: [tag:2 | pos:62] *)

Definition SEQ_LOCK_BIT : Z := Z.shiftl 1 63.
Definition SEQ_REPAIR_BIT : Z := Z.shiftl 1 62.

Definition seq_is_locked (seq : Z) : bool := negb (Z.land seq SEQ_LOCK_BIT =? 0).
Definition seq_lock (pos : Z) : Z := Z.lor SEQ_LOCK_BIT pos.
Definition seq_repair (pos : Z) : Z := Z.lor (Z.lor SEQ_LOCK_BIT SEQ_REPAIR_BIT) pos.
Definition seq_is_skip (seq : Z) : bool :=
  Z.land seq (Z.lor SEQ_LOCK_BIT SEQ_REPAIR_BIT) =? SEQ_REPAIR_BIT.
Definition seq_skip (pos : Z) : Z := Z.lor SEQ_REPAIR_BIT (u64 (pos + 1)).
Definition seq_pos (seq : Z) : Z := Z.land seq (SEQ_REPAIR_BIT - 1).

Definition DEFAULT_COMMIT_TIMEOUT : Z := 10000.

(** ** Schemas *)

Record SchemaInfo := {
  identity : list Z;
  layout : list Z;
  name : list Z;
  version : Z;
  identity_algo : Z;
  layout_algo : Z;
  flags : Z;
  blob_hash : list Z;
  blob_size : Z;
  blob_algo : Z;
  reserved : list Z
}.

Module schema.
Definition Unset : Z := 0.
Definition Claiming : Z := 1.
Definition Set_ : Z := 2.

Definition Equal : Z := 0.
Definition Identity : Z := Z.shiftl 1 0.
Definition Layout : Z := Z.shiftl 1 1.
Definition Version : Z := Z.shiftl 1 2.
Definition Name : Z := Z.shiftl 1 3.
Definition IdentityAlgo : Z := Z.shiftl 1 4.
Definition LayoutAlgo : Z := Z.shiftl 1 5.
Definition Blob : Z := Z.shiftl 1 6.
Definition BlobAlgo : Z := Z.shiftl 1 7.

Inductive Algo :=
  | fnv1a_64 | xxh64 | xxh3_64 | xxh3_128 | crc32c
  | md5 | sha1 | sha256 | sha384 | sha512 | sha3_256 | sha3_512
  | blake2s_256 | blake2b_256 | blake2b_512 | blake3_256.

(** The switch label a tag selects; [None] is [default]. *)
Definition algo_of_tag (algo : Z) : option Algo :=
  match algo with
  | 1 => Some fnv1a_64
  | 2 => Some xxh64
  | 3 => Some xxh3_64
  | 4 => Some xxh3_128
  | 5 => Some crc32c
  | 16 => Some md5
  | 17 => Some sha1
  | 18 => Some sha256
  | 19 => Some sha384
  | 20 => Some sha512
  | 21 => Some sha3_256
  | 22 => Some sha3_512
  | 23 => Some blake2s_256
  | 24 => Some blake2b_256
  | 25 => Some blake2b_512
  | 26 => Some blake3_256
  | _ => None
  end.

Definition user_base : Z := 0x80000000.

Definition digest_size (algo : Z) : Z :=
  match algo_of_tag algo with
  | Some fnv1a_64 => 8
  | Some xxh64 => 8
  | Some xxh3_64 => 8
  | Some xxh3_128 => 16
  | Some crc32c => 4
  | Some md5 => 16
  | Some sha1 => 20
  | Some sha256 => 32
  | Some sha384 => 48
  | Some sha512 => 64
  | Some sha3_256 => 32
  | Some sha3_512 => 64
  | Some blake2s_256 => 32
  | Some blake2b_256 => 32
  | Some blake2b_512 => 64
  | Some blake3_256 => 32
  | None => 0
  end.

Definition algo_name (algo : Z) : option string :=
  match algo_of_tag algo with
  | Some fnv1a_64 => Some "fnv1a_64"%string
  | Some xxh64 => Some "xxh64"%string
  | Some xxh3_64 => Some "xxh3_64"%string
  | Some xxh3_128 => Some "xxh3_128"%string
  | Some crc32c => Some "crc32c"%string
  | Some md5 => Some "md5"%string
  | Some sha1 => Some "sha1"%string
  | Some sha256 => Some "sha256"%string
  | Some sha384 => Some "sha384"%string
  | Some sha512 => Some "sha512"%string
  | Some sha3_256 => Some "sha3_256"%string
  | Some sha3_512 => Some "sha3_512"%string
  | Some blake2s_256 => Some "blake2s_256"%string
  | Some blake2b_256 => Some "blake2b_256"%string
  | Some blake2b_512 => Some "blake2b_512"%string
  | Some blake3_256 => Some "blake3_256"%string
  | None => None
  end.

(** [std::strncmp (a, b, n) != 0]: compare through NUL or [n] bytes. *)
Fixpoint strncmp_ne (n : nat) (a b : list Z) : bool :=
  match n with
  | O => false
  | S n' =>
      let ca := default 0 (head a) in
      let cb := default 0 (head b) in
      if negb (ca =? cb) then true
      else if ca =? 0 then false
      else strncmp_ne n' (tail a) (tail b)
  end.

Definition flag (c : bool) (bit d : Z) : Z := if c then Z.lor d bit else d.

Definition diff (a b : SchemaInfo) : Z :=
  let d := Equal in
  let d := flag (bool_decide (identity a ≠ identity b)) Identity d in
  let d := flag (bool_decide (layout a ≠ layout b)) Layout d in
  let d := flag (bool_decide (version a ≠ version b)) Version d in
  let d := flag (strncmp_ne 128 (name a) (name b)) Name d in
  let d := flag (bool_decide (identity_algo a ≠ identity_algo b)) IdentityAlgo d in
  let d := flag (bool_decide (layout_algo a ≠ layout_algo b)) LayoutAlgo d in
  let d := flag (bool_decide (blob_hash a ≠ blob_hash b)) Blob d in
  flag (bool_decide (blob_algo a ≠ blob_algo b)) BlobAlgo d.
End schema.

(** [SchemaInfo] as the 512 bytes a [memcpy] of it moves. *)
Definition schema_bytes (s : SchemaInfo) : list Z :=
  identity s ++ layout s ++ name s ++ le_bytes 4 (version s) ++ le_bytes 4 (identity_algo s) ++
  le_bytes 4 (layout_algo s) ++ le_bytes 4 (flags s) ++ blob_hash s ++
  le_bytes 4 (blob_size s) ++ le_bytes 4 (blob_algo s) ++ reserved s.

Definition sub_bytes (off len : nat) (bs : list Z) : list Z := take len (drop off bs).

Definition schema_of_bytes (bs : list Z) : SchemaInfo := {|
  identity := sub_bytes 0 64 bs;
  layout := sub_bytes 64 64 bs;
  name := sub_bytes 128 128 bs;
  version := le_word (sub_bytes 256 4 bs);
  identity_algo := le_word (sub_bytes 260 4 bs);
  layout_algo := le_word (sub_bytes 264 4 bs);
  flags := le_word (sub_bytes 268 4 bs);
  blob_hash := sub_bytes 272 64 bs;
  blob_size := le_word (sub_bytes 336 4 bs);
  blob_algo := le_word (sub_bytes 340 4 bs);
  reserved := sub_bytes 344 168 bs
|}.

Definition SCHEMA_INFO_SIZE : Z := 512.

(** The field sizes of the struct. *)
Record schema_wf (s : SchemaInfo) : Prop := {
  swf_identity : length (identity s) = 64%nat ∧ Forall is_u8 (identity s);
  swf_layout : length (layout s) = 64%nat ∧ Forall is_u8 (layout s);
  swf_name : length (name s) = 128%nat ∧ Forall is_u8 (name s);
  swf_version : is_u32 (version s);
  swf_identity_algo : is_u32 (identity_algo s);
  swf_layout_algo : is_u32 (layout_algo s);
  swf_flags : is_u32 (flags s);
  swf_blob_hash : length (blob_hash s) = 64%nat ∧ Forall is_u8 (blob_hash s);
  swf_blob_size : is_u32 (blob_size s);
  swf_blob_algo : is_u32 (blob_algo s);
  swf_reserved : length (reserved s) = 168%nat ∧ Forall is_u8 (reserved s)
}.

(** ** Channels *)

Module channel.
Definition None_ : Z := 0.
Definition PubSub : Z := 1.
Definition Broadcast : Z := 2.

Record Config := {
  max_subscribers : Z;
  sub_ring_capacity : Z;
  pool_size : Z;
  max_payload_size : Z;
  commit_timeout : Z;
  cfg_schema : option SchemaInfo;
  schema_capacity : Z;
  schema_blob : list Z;
  cfg_identity : Z
}.

Definition default_config : Config := {|
  max_subscribers := 16;
  sub_ring_capacity := 64;
  pool_size := 256;
  max_payload_size := 4096;
  commit_timeout := DEFAULT_COMMIT_TIMEOUT;
  cfg_schema := None;
  schema_capacity := 0;
  schema_blob := [];
  cfg_identity := 0
|}.

(** The field types of the struct ([std::size_t], [microseconds]). *)
Record config_typed (cfg : Config) : Prop := {
  ct_max_subscribers : is_u64 (max_subscribers cfg);
  ct_sub_ring_capacity : is_u64 (sub_ring_capacity cfg);
  ct_pool_size : is_u64 (pool_size cfg);
  ct_max_payload_size : is_u64 (max_payload_size cfg);
  ct_schema_capacity : is_u64 (schema_capacity cfg);
  ct_identity : is_u64 (cfg_identity cfg)
}.
End channel.

Definition compute_config_hash (type : Z) (cfg : channel.Config) : Z :=
  let h := fnv1a_64_int 4 type FNV1A_64_OFFSET_BASIS in
  let h := fnv1a_64_int 8 (channel.max_subscribers cfg) h in
  let h := fnv1a_64_int 8 (channel.sub_ring_capacity cfg) h in
  let h := fnv1a_64_int 8 (channel.pool_size cfg) h in
  let h := fnv1a_64_int 8 (channel.max_payload_size cfg) h in
  let h := fnv1a_64_int 8 (u64 (channel.commit_timeout cfg)) h in
  fnv1a_64_int 8 (channel.schema_capacity cfg) h.

(** ** Claim words: [tag:40 | slot + 1:24] *)

Definition META_SLOT_BITS : Z := 24.
Definition META_SLOT_MASK : Z := Z.shiftl 1 META_SLOT_BITS - 1.
Definition META_TAG_MASK : Z := Z.shiftl 1 40 - 1.

Definition meta_tag (m : Z) : Z := Z.shiftr m META_SLOT_BITS.
Definition meta_slot_biased (m : Z) : Z := u32 (Z.land m META_SLOT_MASK).
Definition meta_pack (pos slot_idx : Z) : Z :=
  let tag := Z.land (u64 (pos + 1)) META_TAG_MASK in
  Z.lor (u64 (Z.shiftl tag META_SLOT_BITS)) (Z.land (u64 (slot_idx + 1)) META_SLOT_MASK).
Definition meta_precedes (m pos : Z) : bool :=
  let diff := Z.land (u64 (meta_tag m - Z.land (u64 (pos + 1)) META_TAG_MASK)) META_TAG_MASK in
  negb (diff =? 0) && negb (Z.land diff (Z.shiftl 1 39) =? 0).

(** Validated local copy of the region geometry. *)
Record Geometry := {
  sub_rings_offset : Z;
  sub_ring_stride : Z;
  sub_ring_capacity : Z;
  sub_ring_mask : Z;
  pool_offset : Z;
  slot_stride : Z;
  pool_size : Z;
  slot_data_size : Z;
  max_subs : Z;
  commit_timeout_us : Z;
  schema_blob_offset : Z;
  schema_blob_capacity : Z
}.

(** ** Ring state words: [in_flight:30 | state:2] *)

Module ring.
Definition Free : Z := 0.
Definition Live : Z := 1.
Definition Draining : Z := 2.
Definition Reclaiming : Z := 3.

Definition STATE_MASK : Z := 3.
Definition IN_FLIGHT_ONE : Z := 4.

Definition get_state (packed : Z) : Z := Z.land packed STATE_MASK.
Definition get_in_flight (packed : Z) : Z := Z.shiftr packed 2.
Definition make_packed (s in_flight : Z) : Z := Z.lor (u32 (Z.shiftl in_flight 2)) s.
(** [(old & ~STATE_MASK) | s] *)
Definition with_state (old s : Z) : Z := Z.lor (Z.land old (U32_MAX - STATE_MASK)) s.

Definition WaiterNone : Z := 0.
Definition WaiterFutex : Z := 1.
Definition WaiterCarrier : Z := 2.
End ring.

(** ** Structure sizes and field offsets of the shared-memory ABI *)

Definition SIZEOF_HEADER : Z := 832.
Definition SIZEOF_SUB_RING_HEADER : Z := 2 * CACHE_LINE.
Definition SIZEOF_ENTRY : Z := 16.
Definition SIZEOF_SLOT_HEADER : Z := 16.

Definition align_up (val alignment : Z) : Z :=
  Z.land (u64 (val + alignment - 1)) (U64_MAX - (alignment - 1)).

Definition is_power_of_two (n : Z) : bool := (0 <? n) && (Z.land n (u64 (n - 1)) =? 0).

(** ** Tagged pool indices: [gen:32 | idx:32] *)

Definition tagged_pack (gen idx : Z) : Z := Z.lor (u64 (Z.shiftl gen 32)) idx.
Definition tagged_idx (tagged : Z) : Z := u32 tagged.
Definition tagged_gen (tagged : Z) : Z := u32 (Z.shiftr tagged 32).

(** ** Arithmetic readings of the packed words *)

Definition is_pos (p : Z) : Prop := 0 <= p < 4611686018427387904.

Lemma land_top x k : 0 <= k → 0 <= x < 2 ^ (k + 1) → Z.land x (Z.shiftl 1 k) = (x `div` 2 ^ k) * 2 ^ k.
Proof.
  intros Hk Hx. rewrite Z.shiftl_1_l. apply Z.bits_inj'. intros i Hi.
  rewrite Z.land_spec, Z.pow2_bits_eqb by lia.
  destruct (Z.eqb_spec k i) as [->|Hne].
  - rewrite andb_true_r, Z.mul_pow2_bits by lia. rewrite Z.sub_diag, Z.div_pow2_bits by lia.
    by rewrite Z.add_0_l.
  - rewrite andb_false_r, Z.mul_pow2_bits by lia.
    destruct (decide (i < k)); [by rewrite Z.testbit_neg_r by lia|].
    rewrite Z.div_pow2_bits by lia. symmetry. apply (testbit_small x (k + 1)); lia.
Qed.

Lemma seq_is_locked_ltb x : is_u64 x → seq_is_locked x = (SEQ_LOCK_BIT <=? x).
Proof.
  intros Hx. unfold seq_is_locked, SEQ_LOCK_BIT. rewrite land_top by word.
  change (Z.shiftl 1 63) with 9223372036854775808. change (2 ^ 63) with 9223372036854775808.
  unfold is_u64 in Hx. destruct (Z.leb_spec 9223372036854775808 x); lia.
Qed.

Lemma seq_pos_mod x : seq_pos x = x `mod` SEQ_REPAIR_BIT.
Proof. apply (land_ones_mod x 62). lia. Qed.

Lemma seq_is_skip_spec x :
  is_u64 x → seq_is_skip x = (SEQ_REPAIR_BIT <=? x) && (x <? SEQ_LOCK_BIT).
Proof.
  intros Hx. unfold seq_is_skip.
  change (Z.lor SEQ_LOCK_BIT SEQ_REPAIR_BIT) with (U64_MAX - (2 ^ 62 - 1)).
  rewrite land_lnot_round by (done || lia).
  change (2 ^ 62) with 4611686018427387904.
  change SEQ_REPAIR_BIT with 4611686018427387904.
  change SEQ_LOCK_BIT with 9223372036854775808.
  unfold is_u64 in Hx. lia.
Qed.

Lemma seq_lock_val p : is_pos p → seq_lock p = SEQ_LOCK_BIT + p.
Proof.
  intros Hp. apply (lor_disjoint_add _ _ 62); [lia|done|reflexivity].
Qed.
Lemma seq_repair_val p : is_pos p → seq_repair p = SEQ_LOCK_BIT + SEQ_REPAIR_BIT + p.
Proof.
  intros Hp. unfold seq_repair. change (Z.lor SEQ_LOCK_BIT SEQ_REPAIR_BIT)
    with (SEQ_LOCK_BIT + SEQ_REPAIR_BIT).
  apply (lor_disjoint_add _ _ 62); [lia|done|reflexivity].
Qed.
Lemma seq_skip_val p : is_pos (p + 1) → seq_skip p = SEQ_REPAIR_BIT + (p + 1).
Proof.
  intros Hp. unfold seq_skip. rewrite u64_small by (unfold is_pos in *; word).
  apply (lor_disjoint_add _ _ 62); [lia|done|reflexivity].
Qed.

Lemma meta_pack_val pos s :
  meta_pack pos s = (u64 (pos + 1) `mod` 1099511627776) * 16777216 + u64 (s + 1) `mod` 16777216.
Proof.
  unfold meta_pack, META_TAG_MASK, META_SLOT_MASK, META_SLOT_BITS.
  rewrite !Z.shiftl_1_l, !land_ones_mod by lia.
  change (2 ^ 40) with 1099511627776. change (2 ^ 24) with 16777216.
  rewrite u64_small.
  - apply (lor_shift_add _ _ 24); [lia|]. change (2 ^ 24) with 16777216. word.
  - rewrite Z.shiftl_mul_pow2 by lia. change (2 ^ 24) with 16777216. word.
Qed.

Lemma meta_tag_div m : meta_tag m = m `div` 16777216.
Proof. unfold meta_tag, META_SLOT_BITS. by rewrite Z.shiftr_div_pow2 by lia. Qed.

Lemma meta_slot_biased_mod m : meta_slot_biased m = m `mod` 16777216.
Proof.
  unfold meta_slot_biased, META_SLOT_MASK, META_SLOT_BITS.
  rewrite Z.shiftl_1_l, land_ones_mod by lia. change (2 ^ 24) with 16777216. word.
Qed.

Lemma meta_tag_mask x : Z.land x META_TAG_MASK = x `mod` 1099511627776.
Proof. apply (land_ones_mod x 40). lia. Qed.

Lemma meta_tag_pack pos s : meta_tag (meta_pack pos s) = u64 (pos + 1) `mod` 1099511627776.
Proof. rewrite meta_tag_div, meta_pack_val. lia. Qed.

Lemma meta_slot_biased_pack pos s :
  0 <= s < 16777215 → meta_slot_biased (meta_pack pos s) = s + 1.
Proof. intros. rewrite meta_slot_biased_mod, meta_pack_val. word. Qed.

(** Clearing a claim's slot keeps its position. *)
Lemma meta_cleared_slot w : meta_slot_biased (Z.ldiff w META_SLOT_MASK) = 0.
Proof.
  unfold meta_slot_biased. replace (Z.land (Z.ldiff w META_SLOT_MASK) META_SLOT_MASK) with 0; [done|].
  apply Z.bits_inj'. intros k Hk. rewrite Z.land_spec, Z.ldiff_spec, Z.bits_0.
  by destruct (Z.testbit w k), (Z.testbit META_SLOT_MASK k).
Qed.

Lemma meta_cleared_tag w : meta_tag (Z.ldiff w META_SLOT_MASK) = meta_tag w.
Proof.
  unfold meta_tag. rewrite Z.shiftr_ldiff.
  change (Z.shiftr META_SLOT_MASK META_SLOT_BITS) with 0. apply Z.ldiff_0_r.
Qed.

(** [meta_precedes] on the tag of a position is the 40-bit serial order. *)
Lemma meta_precedes_tag m pos :
  0 <= meta_tag m < 1099511627776 →
  meta_precedes m pos =
    (549755813888 <=? (meta_tag m - u64 (pos + 1)) `mod` 1099511627776).
Proof.
  intros Ht. unfold meta_precedes. cbv zeta. rewrite !meta_tag_mask.
  replace (u64 (meta_tag m - u64 (pos + 1) `mod` 1099511627776) `mod` 1099511627776)
    with ((meta_tag m - u64 (pos + 1)) `mod` 1099511627776) by word.
  set (d := (meta_tag m - u64 (pos + 1)) `mod` 1099511627776).
  assert (0 <= d < 1099511627776) by (subst d; lia).
  rewrite (land_top d 39) by (change (2 ^ (39 + 1)) with 1099511627776; lia).
  change (2 ^ 39) with 549755813888. lia.
Qed.

Lemma tagged_pack_val gen idx :
  is_u32 gen → is_u32 idx → tagged_pack gen idx = gen * 4294967296 + idx.
Proof.
  intros Hg Hi. unfold tagged_pack. rewrite u64_small.
  - apply (lor_shift_add _ _ 32); [lia|done].
  - rewrite Z.shiftl_mul_pow2 by lia. change (2 ^ 32) with 4294967296. word.
Qed.

Lemma tagged_idx_pack gen idx : is_u32 gen → is_u32 idx → tagged_idx (tagged_pack gen idx) = idx.
Proof. intros. unfold tagged_idx. rewrite tagged_pack_val by done. word. Qed.

Lemma tagged_gen_pack gen idx : is_u32 gen → is_u32 idx → tagged_gen (tagged_pack gen idx) = gen.
Proof.
  intros. unfold tagged_gen. rewrite tagged_pack_val, Z.shiftr_div_pow2 by (done || lia).
  change (2 ^ 32) with 4294967296. word.
Qed.

Lemma tagged_pack_range gen idx : is_u32 gen → is_u32 idx → is_u64 (tagged_pack gen idx).
Proof. intros. rewrite tagged_pack_val by done. word. Qed.

Lemma tagged_split t : is_u64 t → t = tagged_pack (tagged_gen t) (tagged_idx t).
Proof.
  intros Ht. rewrite tagged_pack_val by (unfold tagged_gen, tagged_idx; auto with word).
  unfold tagged_gen, tagged_idx. rewrite Z.shiftr_div_pow2 by lia.
  change (2 ^ 32) with 4294967296. word.
Qed.

Lemma get_state_mod p : ring.get_state p = p `mod` 4.
Proof. apply (land_ones_mod p 2). lia. Qed.

Lemma get_in_flight_div p : ring.get_in_flight p = p `div` 4.
Proof. unfold ring.get_in_flight. by rewrite Z.shiftr_div_pow2 by lia. Qed.

Lemma make_packed_val s n : 0 <= s < 4 → 0 <= n < 1073741824 → ring.make_packed s n = n * 4 + s.
Proof.
  intros Hs Hn. unfold ring.make_packed. rewrite u32_small.
  - apply (lor_shift_add _ _ 2); [lia|done].
  - rewrite Z.shiftl_mul_pow2 by lia. change (2 ^ 2) with 4. word.
Qed.

Lemma with_state_val p s : is_u32 p → 0 <= s < 4 → ring.with_state p s = p - p `mod` 4 + s.
Proof.
  intros Hp Hs. unfold ring.with_state.
  change ring.STATE_MASK with (2 ^ 2 - 1). rewrite land_lnot_round32 by (done || lia).
  apply (lor_disjoint_add _ _ 2); [lia|done|]. change (2 ^ 2) with 4. lia.
Qed.

Lemma align_up_val x k :
  0 <= k <= 64 → 0 <= x → x + 2 ^ k - 1 < 18446744073709551616 →
  align_up x (2 ^ k) = (x + 2 ^ k - 1) - (x + 2 ^ k - 1) `mod` 2 ^ k.
Proof.
  intros Hk Hx Hlt. assert (0 < 2 ^ k) by (apply Z.pow_pos_nonneg; lia).
  unfold align_up. rewrite u64_small by word. apply land_lnot_round; [lia|word].
Qed.

Lemma align_up_line x :
  0 <= x → x + 63 < 18446744073709551616 →
  align_up x CACHE_LINE = (x + 63) - (x + 63) `mod` 64.
Proof.
  intros. change CACHE_LINE with (2 ^ 6). rewrite align_up_val by lia.
  change (2 ^ 6) with 64. by replace (x + 64 - 1) with (x + 63) by lia.
Qed.

(** What [align_up] to a cache line promises. *)
Lemma align_up_line_spec x :
  0 <= x → x + 63 < 18446744073709551616 →
  x <= align_up x CACHE_LINE <= x + 63 ∧ align_up x CACHE_LINE `mod` 64 = 0.
Proof. intros. rewrite align_up_line by lia. lia. Qed.

Lemma is_power_of_two_exists n :
  is_u64 n → is_power_of_two n = true → ∃ k, 0 <= k < 64 ∧ n = 2 ^ k.
Proof.
  unfold is_power_of_two. intros Hn [Hpos Hand]%andb_prop.
  apply Z.ltb_lt in Hpos. apply Z.eqb_eq in Hand. rewrite u64_small in Hand by word.
  exists (Z.log2 n). pose proof (Z.log2_spec n Hpos) as [Hlo Hhi].
  pose proof (Z.log2_nonneg n). split.
  { split; [done|]. apply Z.log2_lt_pow2; [done|]. change (2 ^ 64) with 18446744073709551616. word. }
  destruct (decide (n = 2 ^ Z.log2 n)) as [|Hne]; [done|exfalso].
  assert (Hl : Z.log2 (n - 1) = Z.log2 n).
  { apply Z.log2_unique; [done|]. split; lia. }
  assert (Z.testbit (Z.land n (n - 1)) (Z.log2 n) = true).
  { rewrite Z.land_spec, Z.bit_log2 by done. rewrite <- Hl at 1. apply Z.bit_log2. lia. }
  rewrite Hand, Z.bits_0 in *. done.
Qed.

Lemma is_power_of_two_pow k : 0 <= k < 64 → is_power_of_two (2 ^ k) = true.
Proof.
  intros Hk. unfold is_power_of_two. assert (0 < 2 ^ k) by (apply Z.pow_pos_nonneg; lia).
  assert (2 ^ k <= 2 ^ 63) by (apply Z.pow_le_mono_r; lia).
  change (2 ^ 63) with 9223372036854775808 in *.
  rewrite u64_small by word. rewrite (proj2 (Z.ltb_lt _ _)) by done. simpl.
  rewrite land_ones_mod by lia. by rewrite Z.mod_same by lia.
Qed.

Lemma land_pow2_mask x n : is_u64 n → is_power_of_two n = true → Z.land x (n - 1) = x `mod` n.
Proof.
  intros Hn Hp. destruct (is_power_of_two_exists n Hn Hp) as (k & Hk & ->).
  apply land_ones_mod. lia.
Qed.

(** *** [SchemaInfo] as bytes *)

Lemma schema_bytes_length s : schema_wf s → length (schema_bytes s) = 512%nat.
Proof.
  intros []. unfold schema_bytes. rewrite !length_app, !le_bytes_length.
  intuition. lia.
Qed.

Lemma schema_bytes_u8 s : schema_wf s → Forall is_u8 (schema_bytes s).
Proof. intros []. unfold schema_bytes. rewrite !Forall_app. intuition auto using le_bytes_byte. Qed.

Lemma sub_bytes_app off len a b :
  (length a <= off)%nat → sub_bytes off len (a ++ b) = sub_bytes (off - length a) len b.
Proof. intros. unfold sub_bytes. by rewrite drop_app_ge by lia. Qed.

Lemma sub_bytes_here len a b : length a = len → sub_bytes 0 len (a ++ b) = a.
Proof. intros <-. unfold sub_bytes. rewrite drop_0. by rewrite take_app_length. Qed.

Lemma le_word_bytes4 v : is_u32 v → le_word (le_bytes 4 v) = v.
Proof. intros. rewrite le_word_le_bytes. change (256 ^ Z.of_nat 4) with 4294967296. word. Qed.

#[local] Opaque le_bytes.

Lemma schema_of_bytes_bytes s : schema_wf s → schema_of_bytes (schema_bytes s) = s.
Proof.
  intros [[H1 _] [H2 _] [H3 _] H4 H5 H6 H7 [H8 _] H9 H10 [H11 _]]. destruct s; simpl in *.
  unfold schema_of_bytes, schema_bytes; simpl.
  f_equal.
  all: repeat first
    [ rewrite sub_bytes_here by (rewrite ?le_bytes_length; lia)
    | rewrite sub_bytes_app by (rewrite ?le_bytes_length; lia);
      rewrite ?le_bytes_length, ?H1, ?H2, ?H3, ?H8; simpl Nat.sub ].
  all: try (apply le_word_bytes4; done).
  all: try done.
  unfold sub_bytes. rewrite drop_0, take_ge by lia. done.
Qed.

(** ** What the words promise *)

(** The four words a ring entry's sequence can hold for a position are told
    apart by the code's three tests, and carry the position back. *)
Theorem seq_words_table p :
  is_pos (p + 1) → is_pos p →
  (seq_is_locked (p + 1) = false ∧ seq_is_skip (p + 1) = false ∧ seq_pos (p + 1) = p + 1) ∧
  (seq_is_locked (seq_skip p) = false ∧ seq_is_skip (seq_skip p) = true ∧
     seq_pos (seq_skip p) = p + 1) ∧
  (seq_is_locked (seq_lock p) = true ∧ seq_is_skip (seq_lock p) = false ∧
     seq_pos (seq_lock p) = p) ∧
  (seq_is_locked (seq_repair p) = true ∧ seq_is_skip (seq_repair p) = false ∧
     seq_pos (seq_repair p) = p) ∧
  NoDup [p + 1; seq_skip p; seq_lock p; seq_repair p].
Proof.
  intros Hp1 Hp. rewrite seq_lock_val, seq_repair_val, seq_skip_val by done.
  change SEQ_LOCK_BIT with 9223372036854775808.
  change SEQ_REPAIR_BIT with 4611686018427387904. unfold is_pos in *.
  rewrite !seq_is_locked_ltb, !seq_is_skip_spec, !seq_pos_mod by word.
  change SEQ_LOCK_BIT with 9223372036854775808.
  change SEQ_REPAIR_BIT with 4611686018427387904.
  repeat split; try lia.
  repeat (constructor; [rewrite ?elem_of_cons, ?elem_of_nil; lia|]). constructor.
Qed.

Lemma seq_words_table_witness : seq_is_skip (seq_skip 7) = true ∧ seq_pos (seq_skip 7) = 8.
Proof.
  destruct (seq_words_table 7) as (_ & (_ & H1 & H2) & _); [vm_compute; split; congruence..|].
  exact (conj H1 H2).
Defined.

(** C28. A claim word gives back its slot, and its tag orders it against any
    position less than [2^39] away. *)
Theorem meta_claim_order pos slot_idx pos' :
  0 <= pos → pos + 1 < 18446744073709551616 → 0 <= slot_idx <= MAX_POOL_SIZE →
  0 <= pos' → pos' + 1 < 18446744073709551616 → Z.abs (pos - pos') < 549755813888 →
  meta_slot_biased (meta_pack pos slot_idx) = slot_idx + 1 ∧
  meta_tag (meta_pack pos slot_idx) = (pos + 1) `mod` 1099511627776 ∧
  meta_precedes (meta_pack pos slot_idx) pos' = (pos <? pos').
Proof.
  change MAX_POOL_SIZE with 16777214. intros Hp Hp1 Hs Hq Hq1 Hd.
  rewrite meta_slot_biased_pack by lia. rewrite meta_tag_pack.
  rewrite u64_small by word. split; [done|]. split; [done|].
  rewrite meta_precedes_tag by (rewrite meta_tag_pack; lia).
  rewrite meta_tag_pack, !u64_small by word.
  rewrite Zminus_mod_idemp_l. replace (pos + 1 - (pos' + 1)) with (pos - pos') by lia.
  destruct (Z.ltb_spec pos pos').
  - apply Z.leb_le. lia.
  - apply Z.leb_gt. lia.
Qed.

Lemma meta_claim_order_witness :
  meta_precedes (meta_pack 1099511627775 3) 1099511627780 = true.
Proof.
  destruct (meta_claim_order 1099511627775 3 1099511627780) as (_ & _ & H);
    [vm_compute; intuition congruence..|]. exact H.
Defined.

(** A schema moved through shared memory byte by byte comes back unchanged. *)
Theorem schema_bytes_roundtrip s :
  schema_wf s →
  length (schema_bytes s) = Z.to_nat SCHEMA_INFO_SIZE ∧ schema_of_bytes (schema_bytes s) = s.
Proof. intros Hs. split; [by apply schema_bytes_length|by apply schema_of_bytes_bytes]. Qed.

Definition sample_schema : SchemaInfo := {|
  identity := replicate 64 1; layout := replicate 64 2;
  name := str "my/Pose" ++ replicate 121 0;
  version := 2; identity_algo := 1; layout_algo := 0; flags := 0;
  blob_hash := replicate 64 0; blob_size := 0; blob_algo := 0; reserved := replicate 168 0
|}.

Lemma sample_schema_wf : schema_wf sample_schema.
Proof. by constructor; vm_compute; repeat (split || constructor || congruence). Qed.

Lemma schema_bytes_roundtrip_witness :
  schema_of_bytes (schema_bytes sample_schema) = sample_schema.
Proof. exact (proj2 (schema_bytes_roundtrip _ sample_schema_wf)). Defined.
End Types.
