(* ===== verification/Layout.v ===== *)
(** * Region geometry ([src/Region.cc], the checks and the layout arithmetic)

    [validate_config], [compute_layout] and [validate_snapshot] as functions
    into a value or the exception they throw, with every [std::size_t] result
    wrapped to 64 bits; the locations of a region, and the byte address each of
    them has ([sub_ring_at], [ring_entries], [slot_at], [slot_data]).

    The theorems: the layout of an accepted configuration does not wrap and is
    line-aligned; geometry that passes [validate_snapshot] gives every location
    an aligned address inside the mapping, and distinct locations disjoint
    bytes; the geometry a creator stamps is one every opener accepts. *)

From S2P Require Import Prelude Prog Hash Types.
Import Types.

(** A value or the exception thrown. *)
Abbreviation res A := (A + exn)%type.

(** [if (bad) { throw std::runtime_error(msg); } k] *)
Definition check {A} (bad : bool) (msg : string) (k : res A) : res A :=
  if bad then inr (Exn runtime_error msg) else k.

Definition res_bind {A B} (r : res A) (f : A → res B) : res B :=
  match r with inl a => f a | inr e => inr e end.

(** A checked value in a program. *)
Definition of_res {L A} (r : res A) : prog L A :=
  match r with inl a => Ret a | inr e => Throw e end.

Abbreviation SIZE_MAX := U64_MAX.

Module Layout.
Definition validate_config (type : Z) (cfg : channel.Config) : res unit :=
  check (negb (type =? channel.PubSub) && negb (type =? channel.Broadcast))
    "Unsupported channel type" $
  check (negb (is_power_of_two (channel.sub_ring_capacity cfg)))
    "sub_ring_capacity must be a power of 2" $
  check (channel.pool_size cfg =? 0) "pool_size must be > 0" $
  check (MAX_POOL_SIZE <? channel.pool_size cfg) "pool_size exceeds MAX_POOL_SIZE" $
  check (channel.max_subscribers cfg =? 0) "max_subscribers must be > 0" $
  check (MAX_SUBSCRIBERS <? channel.max_subscribers cfg)
    "max_subscribers exceeds MAX_SUBSCRIBERS" $
  check (channel.max_payload_size cfg =? 0) "max_payload_size must be > 0" $
  check (MAX_PAYLOAD_SIZE <? channel.max_payload_size cfg)
    "max_payload_size exceeds MAX_PAYLOAD_SIZE" $
  check (U32_MAX <? channel.schema_capacity cfg) "schema_capacity exceeds 4 GiB" $
  check (channel.schema_capacity cfg <? Z.of_nat (length (channel.schema_blob cfg)))
    "schema_blob exceeds schema_capacity" $
  check (negb (bool_decide (channel.schema_blob cfg = [])) &&
         bool_decide (channel.cfg_schema cfg = None))
    "schema_blob requires schema" $
  inl tt.

Record RegionLayout := {
  l_header_size : Z;
  l_ring_stride : Z;
  l_slot_stride : Z;
  l_schema_blob_offset : Z;
  l_sub_rings_offset : Z;
  l_pool_offset : Z;
  l_total_size : Z;
  l_creator_len : Z
}.

(** [creator_name] is the bytes before the NUL, or [None] for a null pointer. *)
Definition compute_layout (cfg : channel.Config) (creator_name : option (list Z))
    : res RegionLayout :=
  match creator_name with
  | None => inr (Exn runtime_error "creator_name must not be null")
  | Some creator_name =>
      let name_len := Z.of_nat (length creator_name) in
      check (65535 <? name_len) "creator_name exceeds 65535 bytes" $
      check ((SIZE_MAX - SIZEOF_SUB_RING_HEADER - CACHE_LINE) `div` SIZEOF_ENTRY
               <? channel.sub_ring_capacity cfg)
        "Config too large: ring stride overflows" $
      check (SIZE_MAX - SIZEOF_SLOT_HEADER - CACHE_LINE <? channel.max_payload_size cfg)
        "Config too large: slot stride overflows" $
      let creator_len := u16 name_len in
      let header_size := align_up (u64 (SIZEOF_HEADER + creator_len)) CACHE_LINE in
      let ring_stride := align_up
        (u64 (SIZEOF_SUB_RING_HEADER + u64 (channel.sub_ring_capacity cfg * SIZEOF_ENTRY)))
        CACHE_LINE in
      let slot_stride := align_up
        (u64 (SIZEOF_SLOT_HEADER + channel.max_payload_size cfg)) CACHE_LINE in
      let schema_blob_offset := header_size in
      check (u64 (SIZE_MAX - schema_blob_offset - CACHE_LINE) <? channel.schema_capacity cfg)
        "Config too large: schema_capacity overflows" $
      let sub_rings_offset := align_up
        (u64 (schema_blob_offset + channel.schema_capacity cfg)) CACHE_LINE in
      check (u64 (SIZE_MAX - sub_rings_offset) `div` ring_stride <? channel.max_subscribers cfg)
        "Config too large: subscriber rings overflow" $
      let pool_offset :=
        u64 (sub_rings_offset + u64 (channel.max_subscribers cfg * ring_stride)) in
      check (u64 (SIZE_MAX - pool_offset) `div` slot_stride <? channel.pool_size cfg)
        "Config too large: slot pool overflow" $
      let total_size := u64 (pool_offset + u64 (channel.pool_size cfg * slot_stride)) in
      inl {| l_header_size := header_size;
             l_ring_stride := ring_stride;
             l_slot_stride := slot_stride;
             l_schema_blob_offset := schema_blob_offset;
             l_sub_rings_offset := sub_rings_offset;
             l_pool_offset := pool_offset;
             l_total_size := total_size;
             l_creator_len := creator_len |}
  end.

(** The geometry [stamp_new_region] keeps. *)
Definition geometry_of_layout (cfg : channel.Config) (l : RegionLayout) : Geometry := {|
  sub_rings_offset := l_sub_rings_offset l;
  sub_ring_stride := l_ring_stride l;
  sub_ring_capacity := channel.sub_ring_capacity cfg;
  sub_ring_mask := u64 (channel.sub_ring_capacity cfg - 1);
  pool_offset := l_pool_offset l;
  slot_stride := l_slot_stride l;
  pool_size := channel.pool_size cfg;
  slot_data_size := channel.max_payload_size cfg;
  max_subs := channel.max_subscribers cfg;
  commit_timeout_us := u64 (channel.commit_timeout cfg);
  schema_blob_offset := l_schema_blob_offset l;
  schema_blob_capacity := channel.schema_capacity cfg
|}.

Record HeaderSnapshot := {
  geometry : Geometry;
  snap_channel_type : Z;
  snap_total_size : Z;
  snap_creator_name_len : Z
}.

Definition validate_snapshot (snapshot : HeaderSnapshot) (size : Z) : res unit :=
  let g := geometry snapshot in
  let total_size := snap_total_size snapshot in
  check (size <? total_size) "Buffer smaller than embedded region total_size" $
  check (negb (snap_channel_type snapshot =? channel.PubSub) &&
         negb (snap_channel_type snapshot =? channel.Broadcast))
    "Header geometry: unsupported channel type" $
  check (total_size <? SIZEOF_HEADER) "Header geometry: total_size smaller than Header" $
  check ((max_subs g =? 0) || (pool_size g =? 0) || (slot_data_size g =? 0) ||
         (sub_ring_capacity g =? 0) || (slot_stride g =? 0) || (sub_ring_stride g =? 0))
    "Header geometry: zero-cardinality field" $
  check (MAX_POOL_SIZE <? pool_size g) "Header geometry: pool_size exceeds MAX_POOL_SIZE" $
  check (MAX_PAYLOAD_SIZE <? slot_data_size g)
    "Header geometry: slot_data_size exceeds MAX_PAYLOAD_SIZE" $
  check (MAX_SUBSCRIBERS <? max_subs g) "Header geometry: max_subs exceeds MAX_SUBSCRIBERS" $
  check (negb (is_power_of_two (sub_ring_capacity g)))
    "Header geometry: sub_ring_capacity not a power of 2" $
  check (negb (sub_ring_mask g =? u64 (sub_ring_capacity g - 1)))
    "Header geometry: sub_ring_mask inconsistent with capacity" $
  check ((sub_rings_offset g <? SIZEOF_HEADER) || (pool_offset g <=? sub_rings_offset g) ||
         (total_size <=? pool_offset g))
    "Header geometry: ring/pool offsets out of range" $
  check ((schema_blob_offset g <? SIZEOF_HEADER) || (sub_rings_offset g <? schema_blob_offset g))
    "Header geometry: schema blob offset out of range" $
  check ((U32_MAX <? schema_blob_capacity g) ||
         (u64 (sub_rings_offset g - schema_blob_offset g) <? schema_blob_capacity g))
    "Header geometry: schema blob capacity out of range" $
  check (u64 (schema_blob_offset g - SIZEOF_HEADER) <? snap_creator_name_len snapshot)
    "Header geometry: creator_name_len exceeds tail" $
  check (negb (schema_blob_offset g `mod` CACHE_LINE =? 0) ||
         negb (sub_rings_offset g `mod` CACHE_LINE =? 0) ||
         negb (pool_offset g `mod` CACHE_LINE =? 0) ||
         negb (sub_ring_stride g `mod` CACHE_LINE =? 0) ||
         negb (slot_stride g `mod` CACHE_LINE =? 0))
    "Header geometry: offset or stride not cache-line aligned" $
  check (total_size `div` SIZEOF_ENTRY <? sub_ring_capacity g)
    "Header geometry: sub_ring_capacity exceeds region" $
  let min_ring_stride :=
    u64 (SIZEOF_SUB_RING_HEADER + u64 (sub_ring_capacity g * SIZEOF_ENTRY)) in
  check (sub_ring_stride g <? min_ring_stride) "Header geometry: sub_ring_stride too small" $
  check (u64 (total_size - SIZEOF_SLOT_HEADER) <? slot_data_size g)
    "Header geometry: slot_data_size exceeds region" $
  let min_slot_stride := u64 (SIZEOF_SLOT_HEADER + slot_data_size g) in
  check (slot_stride g <? min_slot_stride) "Header geometry: slot_stride too small" $
  let rings_space := u64 (pool_offset g - sub_rings_offset g) in
  check (rings_space `div` sub_ring_stride g <? max_subs g)
    "Header geometry: subscriber rings overflow pool_offset" $
  let pool_space := u64 (total_size - pool_offset g) in
  check (pool_space `div` slot_stride g <? pool_size g)
    "Header geometry: slot pool overflow total_size" $
  inl tt.

(** ** Locations *)

Inductive hfield :=
  | magic | h_version | h_channel_type | h_total_size | h_sub_rings_offset | h_pool_offset
  | h_max_subs | h_sub_ring_capacity | h_sub_ring_mask | h_pool_size | h_slot_data_size
  | h_slot_stride | h_sub_ring_stride | h_schema_blob_offset | h_schema_blob_capacity
  | h_commit_timeout_us | h_config_hash | h_creator_pid | h_created_at_ns | h_creator_name_len
  | schema_state | free_top | steal_count | identity_hash.

Inductive rfield :=
  | state_flight | owner_pid | owner_starttime | write_pos | has_waiter | dropped_count
  | lost_count.

Inductive efield := sequence | meta.

Inductive sfield := refcount | next_free | payload_len.

Inductive loc :=
  | Hdr (f : hfield)
  | SchemaByte (j : Z)
  | NameByte (j : Z)
  | BlobByte (j : Z)
  | Ring (i : Z) (f : rfield)
  | Ent (i idx : Z) (f : efield)
  | Slot (s : Z) (f : sfield)
  | SlotByte (s j : Z).

#[export] Instance hfield_eq_dec : EqDecision hfield.
Proof. solve_decision. Defined.
#[export] Instance rfield_eq_dec : EqDecision rfield.
Proof. solve_decision. Defined.
#[export] Instance efield_eq_dec : EqDecision efield.
Proof. solve_decision. Defined.
#[export] Instance sfield_eq_dec : EqDecision sfield.
Proof. solve_decision. Defined.
#[export] Instance loc_eq_dec : EqDecision loc.
Proof. solve_decision. Defined.

(** [offsetof] and [sizeof] of the header fields. *)
Definition hfield_at (f : hfield) : Z * Z :=
  match f with
  | magic => (0, 8) | h_version => (8, 4) | h_channel_type => (12, 4)
  | h_total_size => (16, 8) | h_sub_rings_offset => (24, 8) | h_pool_offset => (32, 8)
  | h_max_subs => (40, 8) | h_sub_ring_capacity => (48, 8) | h_sub_ring_mask => (56, 8)
  | h_pool_size => (64, 8) | h_slot_data_size => (72, 8) | h_slot_stride => (80, 8)
  | h_sub_ring_stride => (88, 8) | h_schema_blob_offset => (96, 8)
  | h_schema_blob_capacity => (104, 8) | h_commit_timeout_us => (112, 8)
  | h_config_hash => (120, 8) | h_creator_pid => (128, 8) | h_created_at_ns => (136, 8)
  | h_creator_name_len => (144, 2)
  | schema_state => (192, 4)
  | free_top => (768, 8) | steal_count => (776, 8) | identity_hash => (784, 8)
  end.
Definition SCHEMA_DATA_OFFSET : Z := 256.

Definition rfield_at (f : rfield) : Z * Z :=
  match f with
  | state_flight => (0, 4) | owner_pid => (8, 8) | owner_starttime => (16, 8)
  | write_pos => (64, 8) | has_waiter => (72, 4) | dropped_count => (80, 8)
  | lost_count => (88, 8)
  end.

Definition efield_at (f : efield) : Z * Z :=
  match f with sequence => (0, 8) | meta => (8, 8) end.

Definition sfield_at (f : sfield) : Z * Z :=
  match f with refcount => (0, 4) | next_free => (4, 4) | payload_len => (8, 4) end.

Definition sub_ring_at (g : Geometry) (idx : Z) : Z :=
  sub_rings_offset g + idx * sub_ring_stride g.
Definition ring_entries (ring : Z) : Z := ring + SIZEOF_SUB_RING_HEADER.
Definition slot_at (g : Geometry) (idx : Z) : Z := pool_offset g + idx * slot_stride g.
Definition slot_data (slot : Z) : Z := slot + SIZEOF_SLOT_HEADER.

(** Byte offset from the base of the mapping, and size, of a location. *)
Definition loc_at (g : Geometry) (l : loc) : Z * Z :=
  match l with
  | Hdr f => hfield_at f
  | SchemaByte j => (SCHEMA_DATA_OFFSET + j, 1)
  | NameByte j => (SIZEOF_HEADER + j, 1)
  | BlobByte j => (schema_blob_offset g + j, 1)
  | Ring i f => (sub_ring_at g i + (rfield_at f).1, (rfield_at f).2)
  | Ent i idx f =>
      (ring_entries (sub_ring_at g i) + idx * SIZEOF_ENTRY + (efield_at f).1, (efield_at f).2)
  | Slot s f => (slot_at g s + (sfield_at f).1, (sfield_at f).2)
  | SlotByte s j => (slot_data (slot_at g s) + j, 1)
  end.

(** The locations a region of geometry [g] and name length [n] has. *)
Definition loc_valid (g : Geometry) (n : Z) (l : loc) : Prop :=
  match l with
  | Hdr _ => True
  | SchemaByte j => 0 <= j < SCHEMA_INFO_SIZE
  | NameByte j => 0 <= j < n
  | BlobByte j => 0 <= j < schema_blob_capacity g
  | Ring i _ => 0 <= i < max_subs g
  | Ent i idx _ => 0 <= i < max_subs g ∧ 0 <= idx < sub_ring_capacity g
  | Slot s _ => 0 <= s < pool_size g
  | SlotByte s j => 0 <= s < pool_size g ∧ 0 <= j < slot_data_size g
  end.

(** ** Reading a chain of checks *)

Lemma check_ok {A} b msg (k : res A) a : check b msg k = inl a ↔ b = false ∧ k = inl a.
Proof. unfold check. destruct b; intuition congruence. Qed.

(** Split the hypothesis that a chain of checks succeeded into its facts. *)
Ltac checks H :=
  repeat match type of H with
  | check _ _ _ = inl _ =>
      let E := fresh "C" in apply check_ok in H; destruct H as [E H];
      rewrite ?orb_false_iff, ?andb_false_iff, ?negb_false_iff, ?Z.ltb_ge, ?Z.leb_gt,
        ?Z.eqb_eq, ?Z.eqb_neq in E
  end.

(** Prove that a chain of checks succeeds: one goal per check. *)
Ltac checks_pass := repeat (apply check_ok; split).

(** ** Validated geometry *)

Record geometry_ok (g : Geometry) (name_len total_size : Z) : Prop := {
  gk_max_subs : 1 <= max_subs g <= MAX_SUBSCRIBERS;
  gk_pool_size : 1 <= pool_size g <= MAX_POOL_SIZE;
  gk_slot_data : 1 <= slot_data_size g <= MAX_PAYLOAD_SIZE;
  gk_capacity : is_u64 (sub_ring_capacity g) ∧ is_power_of_two (sub_ring_capacity g) = true;
  gk_mask : sub_ring_mask g = sub_ring_capacity g - 1;
  gk_name : 0 <= name_len ∧ SIZEOF_HEADER + name_len <= schema_blob_offset g;
  gk_blob_cap : schema_blob_capacity g <= U32_MAX;
  gk_blob : 0 <= schema_blob_capacity g ∧
    schema_blob_offset g + schema_blob_capacity g <= sub_rings_offset g;
  gk_ring_stride :
    SIZEOF_SUB_RING_HEADER + sub_ring_capacity g * SIZEOF_ENTRY <= sub_ring_stride g;
  gk_slot_stride : SIZEOF_SLOT_HEADER + slot_data_size g <= slot_stride g;
  gk_rings : sub_rings_offset g + max_subs g * sub_ring_stride g <= pool_offset g;
  gk_pool : pool_offset g + pool_size g * slot_stride g <= total_size;
  gk_total : total_size <= SIZE_MAX;
  gk_align : schema_blob_offset g `mod` 64 = 0 ∧ sub_rings_offset g `mod` 64 = 0 ∧
    pool_offset g `mod` 64 = 0 ∧ sub_ring_stride g `mod` 64 = 0 ∧ slot_stride g `mod` 64 = 0
}.

(** The types of the header fields a snapshot copies. *)
Record geometry_typed (g : Geometry) : Prop := {
  gt_sub_rings_offset : is_u64 (sub_rings_offset g);
  gt_sub_ring_stride : is_u64 (sub_ring_stride g);
  gt_sub_ring_capacity : is_u64 (sub_ring_capacity g);
  gt_sub_ring_mask : is_u64 (sub_ring_mask g);
  gt_pool_offset : is_u64 (pool_offset g);
  gt_slot_stride : is_u64 (slot_stride g);
  gt_pool_size : is_u64 (pool_size g);
  gt_slot_data_size : is_u64 (slot_data_size g);
  gt_max_subs : is_u64 (max_subs g);
  gt_commit_timeout_us : is_u64 (commit_timeout_us g);
  gt_schema_blob_offset : is_u64 (schema_blob_offset g);
  gt_schema_blob_capacity : is_u64 (schema_blob_capacity g)
}.

Definition snapshot_typed (s : HeaderSnapshot) : Prop :=
  geometry_typed (geometry s) ∧ is_u32 (snap_channel_type s) ∧ is_u64 (snap_total_size s) ∧
  is_u16 (snap_creator_name_len s).

Lemma pow2_times_16 n : is_u64 n → is_power_of_two n = true →
  n * 16 < 18446744073709551616 → n * 16 <= 9223372036854775808.
Proof.
  intros Hn Hp Hlt. destruct (is_power_of_two_exists n Hn Hp) as (k & Hk & ->).
  change 16 with (2 ^ 4) in *. rewrite <- Z.pow_add_r in * by lia.
  change 18446744073709551616 with (2 ^ 64) in Hlt. apply Z.pow_lt_mono_r_iff in Hlt; [|lia..].
  change 9223372036854775808 with (2 ^ 63). apply Z.pow_le_mono_r; lia.
Qed.

Lemma validate_snapshot_ok s size :
  snapshot_typed s → is_u64 size → validate_snapshot s size = inl tt →
  geometry_ok (geometry s) (snap_creator_name_len s) (snap_total_size s) ∧
  snap_total_size s <= size.
Proof.
  intros ([] & _ & Ht & Hn) Hs H. unfold validate_snapshot in H. cbv zeta in H.
  checks H.
  unfold SIZEOF_SUB_RING_HEADER, SIZEOF_ENTRY, SIZEOF_SLOT_HEADER, SIZEOF_HEADER, CACHE_LINE,
    is_u64, is_u16 in *.
  destruct C2 as [[[[[? ?] ?] ?] ?] ?]. destruct C8 as [[? ?] ?]. destruct C9 as [? ?].
  destruct C10 as [? C10]. destruct C12 as [[[[? ?] ?] ?] ?].
  rewrite u64_id in C10, C11, C15, C17, C18 by lia.
  apply le_div_mul in C13, C17, C18; [|lia..].
  assert (Hcap : sub_ring_capacity (geometry s) * 16 <= 9223372036854775808)
    by (apply pow2_times_16; unfold is_u64; auto; lia).
  rewrite (u64_id (_ * 16)) in C14 by lia. rewrite u64_id in C14, C16 by lia.
  rewrite u64_id in C7 by lia.
  split; [|done]. constructor; unfold SIZEOF_SUB_RING_HEADER, SIZEOF_ENTRY,
    SIZEOF_SLOT_HEADER, SIZEOF_HEADER, CACHE_LINE, is_u64; try done; lia.
Qed.

(** ** Addresses *)

Definition disjoint (a b : Z * Z) : Prop := a.1 + a.2 <= b.1 ∨ b.1 + b.2 <= a.1.

Lemma strided_sep base s i i' o w o' w' :
  i ≠ i' → 0 <= o → o + w <= s → 0 <= o' → o' + w' <= s →
  disjoint (base + i * s + o, w) (base + i' * s + o', w').
Proof. unfold disjoint. simpl. intros. assert (i + 1 <= i' ∨ i' + 1 <= i) by lia. nia. Qed.

Lemma strided_in base s i n o w :
  0 <= i < n → 0 <= o → o + w <= s → 0 <= s →
  base <= base + i * s + o ∧ base + i * s + o + w <= base + n * s.
Proof. intros. assert ((i + 1) * s <= n * s) by nia. nia. Qed.

Lemma strided_aligned base s i o w :
  base `mod` 64 = 0 → s `mod` 64 = 0 → o `mod` w = 0 → (w | 64) → 0 < w →
  (base + i * s + o) `mod` w = 0.
Proof.
  intros Hb Hs Ho [k Hk] Hw. apply Z.mod_divide in Hb, Hs, Ho; [|lia..].
  destruct Hb as [b ->], Hs as [t ->], Ho as [q ->]. apply Z.mod_divide; [lia|].
  exists (b * k + i * t * k + q). rewrite Hk. ring.
Qed.

(** A location is a fixed area of the header, or lies at an offset within
    the [i]-th ring or the [s]-th slot. *)
Inductive area := AHeader | AName | ABlob | ARing (i : Z) | ASlot (s : Z).

#[export] Instance area_eq_dec : EqDecision area.
Proof. solve_decision. Defined.

Definition loc_area (l : loc) : area :=
  match l with
  | Hdr _ | SchemaByte _ => AHeader
  | NameByte _ => AName
  | BlobByte _ => ABlob
  | Ring i _ | Ent i _ _ => ARing i
  | Slot s _ | SlotByte s _ => ASlot s
  end.

Definition area_at (g : Geometry) (n : Z) (a : area) : Z * Z :=
  match a with
  | AHeader => (0, SIZEOF_HEADER)
  | AName => (SIZEOF_HEADER, n)
  | ABlob => (schema_blob_offset g, schema_blob_capacity g)
  | ARing i => (sub_rings_offset g + i * sub_ring_stride g, sub_ring_stride g)
  | ASlot s => (pool_offset g + s * slot_stride g, slot_stride g)
  end.

Definition area_valid (g : Geometry) (a : area) : Prop :=
  match a with
  | ARing i => 0 <= i < max_subs g
  | ASlot s => 0 <= s < pool_size g
  | _ => True
  end.

Section addresses.
Context (g : Geometry) (n total : Z) (Hg : geometry_ok g n total).

Lemma area_in_region a : area_valid g a →
  0 <= (area_at g n a).1 ∧ (area_at g n a).1 + (area_at g n a).2 <= total.
Proof.
  destruct Hg. unfold SIZEOF_SUB_RING_HEADER, SIZEOF_ENTRY, SIZEOF_SLOT_HEADER, SIZEOF_HEADER,
    CACHE_LINE, is_u64 in *. intros Ha.
  assert (0 <= max_subs g * sub_ring_stride g) by (apply Z.mul_nonneg_nonneg; lia).
  assert (0 <= pool_size g * slot_stride g) by (apply Z.mul_nonneg_nonneg; lia).
  destruct a as [| | |i|s]; simpl in *; unfold SIZEOF_HEADER; try lia.
  - pose proof (strided_in (sub_rings_offset g) (sub_ring_stride g) i (max_subs g) 0
      (sub_ring_stride g) Ha). lia.
  - pose proof (strided_in (pool_offset g) (slot_stride g) s (pool_size g) 0
      (slot_stride g) Ha). lia.
Qed.

Lemma areas_disjoint a b : area_valid g a → area_valid g b → a ≠ b →
  disjoint (area_at g n a) (area_at g n b).
Proof.
  destruct Hg. unfold SIZEOF_SUB_RING_HEADER, SIZEOF_ENTRY, SIZEOF_SLOT_HEADER, SIZEOF_HEADER,
    CACHE_LINE, is_u64 in *. intros Ha Hb Hne.
  assert (Hr : ∀ i, 0 <= i < max_subs g →
    sub_rings_offset g <= sub_rings_offset g + i * sub_ring_stride g ∧
    sub_rings_offset g + i * sub_ring_stride g + sub_ring_stride g <= pool_offset g).
  { intros i Hi. pose proof (strided_in (sub_rings_offset g) (sub_ring_stride g) i (max_subs g) 0
      (sub_ring_stride g) Hi). lia. }
  assert (Hs : ∀ i, 0 <= i < pool_size g →
    pool_offset g <= pool_offset g + i * slot_stride g).
  { intros i Hi. pose proof (strided_in (pool_offset g) (slot_stride g) i (pool_size g) 0
      (slot_stride g) Hi). lia. }
  assert (0 <= max_subs g * sub_ring_stride g) by (apply Z.mul_nonneg_nonneg; lia).
  destruct a as [| | |i|s], b as [| | |i'|s']; simpl in *; try congruence;
    unfold disjoint; simpl; unfold SIZEOF_HEADER;
    repeat match goal with
    | Hi : 0 <= ?i < max_subs g |- _ => pose proof (Hr i Hi); clear Hi
    | Hi : 0 <= ?i < pool_size g |- _ => pose proof (Hs i Hi); clear Hi
    end; try lia.
  - assert (i ≠ i') by congruence.
    assert (i + 1 <= i' ∨ i' + 1 <= i) as [?|?] by lia; [left|right]; nia.
  - assert (s ≠ s') by congruence.
    assert (s + 1 <= s' ∨ s' + 1 <= s) as [?|?] by lia; [left|right]; nia.
Qed.

(** A location within its area. *)
Definition loc_rel (l : loc) : Z * Z :=
  match l with
  | Hdr f => hfield_at f
  | SchemaByte j => (SCHEMA_DATA_OFFSET + j, 1)
  | NameByte j => (j, 1)
  | BlobByte j => (j, 1)
  | Ring _ f => rfield_at f
  | Ent _ idx f => (SIZEOF_SUB_RING_HEADER + idx * SIZEOF_ENTRY + (efield_at f).1, 8)
  | Slot _ f => sfield_at f
  | SlotByte _ j => (SIZEOF_SLOT_HEADER + j, 1)
  end.

Lemma loc_at_rel l :
  loc_at g l = ((area_at g n (loc_area l)).1 + (loc_rel l).1, (loc_rel l).2).
Proof.
  destruct l as [f|j|j|j|i f|i idx f|s f|s j]; simpl;
    unfold sub_ring_at, slot_at, ring_entries, slot_data; f_equal; try lia;
    by destruct f.
Qed.

Lemma loc_rel_in l : loc_valid g n l →
  0 <= (loc_rel l).1 ∧ 0 < (loc_rel l).2 ∧
  (loc_rel l).1 + (loc_rel l).2 <= (area_at g n (loc_area l)).2 ∧
  ((loc_rel l).2 | 64) ∧ (loc_rel l).1 `mod` (loc_rel l).2 = 0.
Proof.
  destruct Hg. unfold SIZEOF_SUB_RING_HEADER, SIZEOF_ENTRY, SIZEOF_SLOT_HEADER, SIZEOF_HEADER,
    CACHE_LINE, is_u64 in *.
  assert (D1 : (1 | 64)) by (by exists 64). assert (D2 : (2 | 64)) by (by exists 32).
  assert (D4 : (4 | 64)) by (by exists 16). assert (D8 : (8 | 64)) by (by exists 8).
  destruct l as [f|j|j|j|i f|i idx f|s f|s j]; simpl; unfold SIZEOF_SUB_RING_HEADER,
    SIZEOF_ENTRY, SIZEOF_SLOT_HEADER, SIZEOF_HEADER, SCHEMA_INFO_SIZE, SCHEMA_DATA_OFFSET,
    CACHE_LINE; intros Hl; try destruct f; simpl;
    repeat split; try assumption; try reflexivity; try lia.
Qed.

Lemma rel_disjoint l l' : loc_valid g n l → loc_valid g n l' →
  loc_area l = loc_area l' → l ≠ l' → disjoint (loc_rel l) (loc_rel l').
Proof.
  unfold disjoint, SIZEOF_SUB_RING_HEADER, CACHE_LINE.
  intros Hl Hl' Ha Hne.
  destruct l as [f|j|j|j|i f|i idx f|s f|s j], l' as [f'|j'|j'|j'|i' f'|i' idx' f'|s' f'|s' j'];
    simpl in Ha; try discriminate Ha; simpl in *;
    unfold SIZEOF_SUB_RING_HEADER, SIZEOF_ENTRY, SIZEOF_SLOT_HEADER, SCHEMA_INFO_SIZE,
      SCHEMA_DATA_OFFSET, CACHE_LINE in *; try injection Ha as ->.
  - destruct f, f'; simpl; congruence || lia.
  - destruct f; simpl; lia.
  - destruct f'; simpl; lia.
  - assert (j ≠ j') by congruence. lia.
  - assert (j ≠ j') by congruence. lia.
  - assert (j ≠ j') by congruence. lia.
  - destruct f, f'; simpl; congruence || lia.
  - destruct f, f'; simpl; lia.
  - destruct f, f'; simpl; lia.
  - destruct (decide (idx = idx')) as [->|?]; [assert (f ≠ f') by congruence|];
      destruct f, f'; simpl; congruence || lia.
  - destruct f, f'; simpl; congruence || lia.
  - destruct f; simpl; lia.
  - destruct f'; simpl; lia.
  - assert (j ≠ j') by congruence. lia.
Qed.

Lemma loc_area_valid l : loc_valid g n l → area_valid g (loc_area l).
Proof. destruct l; simpl; intuition. Qed.

Lemma loc_in_region l : loc_valid g n l →
  0 <= (loc_at g l).1 ∧ 0 < (loc_at g l).2 ∧ (loc_at g l).1 + (loc_at g l).2 <= total.
Proof.
  intros Hl. pose proof (area_in_region _ (loc_area_valid l Hl)).
  pose proof (loc_rel_in l Hl). rewrite loc_at_rel. simpl. lia.
Qed.

Lemma area_aligned a : area_valid g a → a ≠ AName → (area_at g n a).1 `mod` 64 = 0.
Proof.
  destruct Hg. destruct gk_align0 as (? & ? & ? & ? & ?).
  destruct a; simpl; try done; intros _ _.
  - apply Z.mod_divide in H0, H2; [|lia..]. destruct H0 as [? ->], H2 as [? ->]. lia.
  - apply Z.mod_divide in H1, H3; [|lia..]. destruct H1 as [? ->], H3 as [? ->]. lia.
Qed.

Lemma loc_aligned l : loc_valid g n l → (loc_at g l).1 `mod` (loc_at g l).2 = 0.
Proof.
  intros Hl. pose proof (loc_rel_in l Hl) as (_ & Hw & _ & Hd & Hm).
  rewrite loc_at_rel. cbn [fst snd].
  destruct (decide (loc_area l = AName)) as [Ha|Ha].
  - destruct l; try done. simpl. apply Z.mod_1_r.
  - pose proof (area_aligned _ (loc_area_valid l Hl) Ha) as H64.
    apply Z.mod_divide in H64, Hm; [|lia..]. apply Z.mod_divide; [lia|].
    apply Z.divide_add_r; [|done]. eapply Z.divide_trans; [exact Hd|exact H64].
Qed.

Lemma locs_disjoint l l' : loc_valid g n l → loc_valid g n l' → l ≠ l' →
  disjoint (loc_at g l) (loc_at g l').
Proof.
  intros Hl Hl' Hne. pose proof (loc_rel_in l Hl). pose proof (loc_rel_in l' Hl').
  destruct (decide (loc_area l = loc_area l')) as [Ha|Ha].
  - pose proof (rel_disjoint l l' Hl Hl' Ha Hne) as Hd.
    rewrite !loc_at_rel, Ha. unfold disjoint in *. simpl in *. lia.
  - pose proof (areas_disjoint _ _ (loc_area_valid l Hl) (loc_area_valid l' Hl') Ha) as Hd.
    rewrite !loc_at_rel. unfold disjoint in *. simpl in *. lia.
Qed.
End addresses.

(** ** The computed layout *)

(** [align_up] to a cache line on unbounded integers. *)
Definition line_up (x : Z) : Z := (x + 63) `div` 64 * 64.

Lemma align_up_line_up x : 0 <= x → x + 63 < 18446744073709551616 →
  align_up x CACHE_LINE = line_up x.
Proof. intros. rewrite align_up_line by done. unfold line_up. lia. Qed.

Lemma line_up_spec x : x <= line_up x <= x + 63 ∧ line_up x `mod` 64 = 0.
Proof. unfold line_up. lia. Qed.

Lemma line_up_bounds x : x <= line_up x <= x + 63.
Proof. apply line_up_spec. Qed.
Lemma line_up_mod x : line_up x `mod` 64 = 0.
Proof. apply line_up_spec. Qed.

(** The layout as the design describes it, without machine arithmetic. *)
Definition ideal_layout (cfg : channel.Config) (name_len : Z) : RegionLayout :=
  let header_size := line_up (832 + name_len) in
  let ring_stride := line_up (128 + channel.sub_ring_capacity cfg * 16) in
  let slot_stride := line_up (16 + channel.max_payload_size cfg) in
  let sub_rings_offset := line_up (header_size + channel.schema_capacity cfg) in
  let pool_offset := sub_rings_offset + channel.max_subscribers cfg * ring_stride in
  {| l_header_size := header_size;
     l_ring_stride := ring_stride;
     l_slot_stride := slot_stride;
     l_schema_blob_offset := header_size;
     l_sub_rings_offset := sub_rings_offset;
     l_pool_offset := pool_offset;
     l_total_size := pool_offset + channel.pool_size cfg * slot_stride;
     l_creator_len := name_len |}.

Lemma validate_config_ok type cfg :
  validate_config type cfg = inl tt →
  (type = channel.PubSub ∨ type = channel.Broadcast) ∧
  is_power_of_two (channel.sub_ring_capacity cfg) = true ∧
  channel.pool_size cfg ≠ 0 ∧ channel.pool_size cfg <= MAX_POOL_SIZE ∧
  channel.max_subscribers cfg ≠ 0 ∧ channel.max_subscribers cfg <= MAX_SUBSCRIBERS ∧
  channel.max_payload_size cfg ≠ 0 ∧ channel.max_payload_size cfg <= MAX_PAYLOAD_SIZE ∧
  channel.schema_capacity cfg <= U32_MAX ∧
  Z.of_nat (length (channel.schema_blob cfg)) <= channel.schema_capacity cfg ∧
  (channel.schema_blob cfg = [] ∨ is_Some (channel.cfg_schema cfg)).
Proof.
  unfold validate_config. intros H. checks H.
  split; [exact C|]. repeat (split; [assumption|]).
  - destruct C9 as [C9|C9]; [left; by apply bool_decide_eq_true in C9|right].
    apply bool_decide_eq_false in C9. by destruct (channel.cfg_schema cfg); [eauto|].
Qed.

Lemma compute_layout_ideal type cfg name l :
  channel.config_typed cfg → validate_config type cfg = inl tt →
  compute_layout cfg (Some name) = inl l →
  l = ideal_layout cfg (Z.of_nat (length name)) ∧
  Z.of_nat (length name) <= 65535 ∧ l_total_size l <= SIZE_MAX.
Proof.
  intros [] (_ & Hpow & Hp0 & Hp & Hs0 & Hs & Hd0 & Hd & Hsc & Hb & _)%validate_config_ok H.
  unfold compute_layout in H. cbv zeta in H.
  unfold is_u64, SIZEOF_SUB_RING_HEADER, SIZEOF_SLOT_HEADER, SIZEOF_ENTRY, SIZEOF_HEADER,
    MAX_SUBSCRIBERS, MAX_PAYLOAD_SIZE in *.
  change MAX_POOL_SIZE with 16777214 in *. change (2 * CACHE_LINE) with 128 in *.
  set (n := Z.of_nat (length name)) in *.
  apply check_ok in H as [Hn H]. apply Z.ltb_ge in Hn.
  apply check_ok in H as [Hcap H]. apply Z.ltb_ge in Hcap. change CACHE_LINE with 64 in Hcap at 1.
  apply check_ok in H as [_ H].
  assert (0 <= n) by (unfold n; lia).
  assert (channel.sub_ring_capacity cfg * 16 <= 18446744073709551423) by lia.
  rewrite u16_small in H by (unfold is_u16; lia).
  rewrite !(u64_id (832 + n)) in H by lin.
  rewrite !(u64_id (16 + _)) in H by lin.
  rewrite !(u64_id (_ * 16)) in H by lin. rewrite !(u64_id (128 + _)) in H by lin.
  rewrite (align_up_line_up (832 + n)) in H by lin.
  rewrite (align_up_line_up (128 + _)) in H by lin.
  rewrite (align_up_line_up (16 + _)) in H by lin.
  pose proof (line_up_bounds (832 + n)).
  pose proof (line_up_bounds (128 + channel.sub_ring_capacity cfg * 16)) as Hrs.
  pose proof (line_up_bounds (16 + channel.max_payload_size cfg)) as Hss.
  apply check_ok in H as [_ H].
  rewrite !(u64_id (line_up (832 + n) + _)) in H by lin.
  rewrite !(align_up_line_up (line_up (832 + n) + _)) in H by lin.
  pose proof (line_up_bounds (line_up (832 + n) + channel.schema_capacity cfg)) as Hsr.
  assert (0 <= channel.max_subscribers cfg * line_up (128 + channel.sub_ring_capacity cfg * 16))
    by (apply Z.mul_nonneg_nonneg; lia).
  assert (0 <= channel.pool_size cfg * line_up (16 + channel.max_payload_size cfg))
    by (apply Z.mul_nonneg_nonneg; lia).
  apply check_ok in H as [Hrings H]. apply Z.ltb_ge in Hrings.
  rewrite u64_id in Hrings by lin. apply le_div_mul in Hrings; [|lin].
  rewrite !(u64_id (channel.max_subscribers cfg * _)) in H by lin.
  rewrite !(u64_id (line_up (line_up (832 + n) + _) + _)) in H by lin.
  apply check_ok in H as [Hpool H]. apply Z.ltb_ge in Hpool.
  rewrite u64_id in Hpool by lin. apply le_div_mul in Hpool; [|lin].
  rewrite !(u64_id (channel.pool_size cfg * _)) in H by lin.
  rewrite !u64_id in H by lin. injection H as <-. unfold ideal_layout. cbn [l_total_size].
  split; [done|]. lin.
Qed.

Lemma geometry_of_layout_typed type cfg name l :
  channel.config_typed cfg → validate_config type cfg = inl tt →
  compute_layout cfg (Some name) = inl l →
  geometry_ok (geometry_of_layout cfg l) (Z.of_nat (length name)) (l_total_size l) ∧
  snapshot_typed {| geometry := geometry_of_layout cfg l; snap_channel_type := type;
                    snap_total_size := l_total_size l;
                    snap_creator_name_len := l_creator_len l |}.
Proof.
  intros Hty Hv Hl. pose proof (compute_layout_ideal _ _ _ _ Hty Hv Hl) as (-> & Hn & Ht).
  destruct Hty. apply validate_config_ok in Hv as
    (Htype & Hpow & Hp0 & Hp & Hs0 & Hs & Hd0 & Hd & Hsc & _).
  clear Hl. set (n := Z.of_nat (length name)) in *. assert (0 <= n) by (unfold n; lin).
  unfold is_u64, MAX_SUBSCRIBERS, MAX_PAYLOAD_SIZE in *. change MAX_POOL_SIZE with 16777214 in *.
  unfold ideal_layout in *. cbn [l_total_size] in *.
  pose proof (line_up_bounds (832 + n)).
  pose proof (line_up_bounds (128 + channel.sub_ring_capacity cfg * 16)).
  pose proof (line_up_bounds (16 + channel.max_payload_size cfg)).
  pose proof (line_up_bounds (line_up (832 + n) + channel.schema_capacity cfg)).
  assert (0 <= channel.max_subscribers cfg * line_up (128 + channel.sub_ring_capacity cfg * 16))
    by (apply Z.mul_nonneg_nonneg; lin).
  assert (0 <= channel.pool_size cfg * line_up (16 + channel.max_payload_size cfg))
    by (apply Z.mul_nonneg_nonneg; lin).
  assert (0 < channel.sub_ring_capacity cfg).
  { unfold is_power_of_two in Hpow. apply andb_prop in Hpow as [?%Z.ltb_lt _]. done. }
  assert (Hmask : u64 (channel.sub_ring_capacity cfg - 1) = channel.sub_ring_capacity cfg - 1)
    by (apply u64_id; lin).
  assert (line_up (128 + channel.sub_ring_capacity cfg * 16) <=
          channel.max_subscribers cfg * line_up (128 + channel.sub_ring_capacity cfg * 16)) by (apply mul_ge_r; lin).
  assert (line_up (16 + channel.max_payload_size cfg) <=
          channel.pool_size cfg * line_up (16 + channel.max_payload_size cfg)) by (apply mul_ge_r; lin).
  assert (Hpo : (line_up (line_up (832 + n) + channel.schema_capacity cfg) +
    channel.max_subscribers cfg * line_up (128 + channel.sub_ring_capacity cfg * 16)) `mod` 64 = 0).
  { unfold line_up. rewrite Z.mul_assoc, <- Z.mul_add_distr_r. apply Z.mod_mul. lin. }
  split.
  - constructor; cbn -[line_up u64 is_power_of_two Z.mul Z.add Z.modulo];
      unfold SIZEOF_SUB_RING_HEADER, SIZEOF_SLOT_HEADER, SIZEOF_ENTRY,
      SIZEOF_HEADER, MAX_SUBSCRIBERS, MAX_PAYLOAD_SIZE, is_u64;
      change MAX_POOL_SIZE with 16777214; change CACHE_LINE with 64.
    all: try lin.
    + split; [lin|exact Hpow].
    + split; [apply line_up_mod|]. split; [apply line_up_mod|]. split; [exact Hpo|].
      split; apply line_up_mod.
  - assert (is_u32 type) by (unfold is_u32; destruct Htype as [-> | ->]; by compute).
    split; [|split; [done|]];
      cbn -[line_up u64 Z.mul Z.add Z.modulo]; unfold is_u64, is_u16; [|lin].
    constructor; cbn -[line_up u64 Z.mul Z.add Z.modulo];
      try apply u64_range; unfold is_u64; lin.
Qed.

(** The converse of [validate_snapshot_ok]. *)
Lemma geometry_ok_accepted s size :
  snapshot_typed s → is_u64 size →
  geometry_ok (geometry s) (snap_creator_name_len s) (snap_total_size s) →
  snap_channel_type s = channel.PubSub ∨ snap_channel_type s = channel.Broadcast →
  snap_total_size s <= size →
  validate_snapshot s size = inl tt.
Proof.
  intros ([] & _ & Ht & Hn) Hs [] Htype Hle.
  unfold SIZEOF_SUB_RING_HEADER, SIZEOF_ENTRY, SIZEOF_SLOT_HEADER, SIZEOF_HEADER, CACHE_LINE,
    is_u64, is_u16, MAX_SUBSCRIBERS, MAX_PAYLOAD_SIZE in *.
  change MAX_POOL_SIZE with 16777214 in *.
  destruct gk_capacity0 as [? Hpow].
  assert (0 < sub_ring_capacity (geometry s)).
  { unfold is_power_of_two in Hpow. apply andb_prop in Hpow as [?%Z.ltb_lt _]. done. }
  assert (sub_ring_stride (geometry s) <=
    max_subs (geometry s) * sub_ring_stride (geometry s)) by (apply mul_ge_r; lin).
  assert (slot_stride (geometry s) <= pool_size (geometry s) * slot_stride (geometry s))
    by (apply mul_ge_r; lin).
  unfold validate_snapshot. cbv zeta.
  unfold SIZEOF_SUB_RING_HEADER, SIZEOF_ENTRY, SIZEOF_SLOT_HEADER, SIZEOF_HEADER, CACHE_LINE,
    MAX_SUBSCRIBERS, MAX_PAYLOAD_SIZE. change MAX_POOL_SIZE with 16777214.
  rewrite (u64_id (_ * 16)) by lin. rewrite !u64_id by lin.
  checks_pass; try reflexivity;
    rewrite ?orb_false_iff, ?negb_false_iff, ?Z.ltb_ge, ?Z.leb_gt, ?Z.eqb_eq, ?Z.eqb_neq.
  - lin.
  - destruct Htype as [-> | ->]; reflexivity.
  - lin.
  - lin.
  - lin.
  - lin.
  - lin.
  - exact Hpow.
  - exact gk_mask0.
  - lin.
  - lin.
  - lin.
  - lin.
  - intuition.
  - apply Z.div_le_lower_bound; lin.
  - lin.
  - lin.
  - lin.
  - apply Z.div_le_lower_bound; lin.
  - apply Z.div_le_lower_bound; lin.
Qed.

Lemma layout_accepted type cfg name l size :
  channel.config_typed cfg → validate_config type cfg = inl tt →
  compute_layout cfg (Some name) = inl l → is_u64 size → l_total_size l <= size →
  validate_snapshot {| geometry := geometry_of_layout cfg l; snap_channel_type := type;
                       snap_total_size := l_total_size l;
                       snap_creator_name_len := l_creator_len l |} size = inl tt.
Proof.
  intros Hty Hv Hl Hs Hle. pose proof (compute_layout_ideal _ _ _ _ Hty Hv Hl) as (Hi & Hn & Ht).
  destruct (geometry_of_layout_typed _ _ _ _ Hty Hv Hl) as [Hg Hst].
  apply geometry_ok_accepted; try done.
  - cbn [geometry snap_creator_name_len snap_total_size].
    replace (l_creator_len l) with (Z.of_nat (length name)) by (by rewrite Hi). exact Hg.
  - cbn. by apply validate_config_ok in Hv as [? _].
Qed.

(** ** Properties *)

(** C24. Any header a peer wrote that passes [validate_snapshot] only leads to
    aligned addresses inside the mapping, and to disjoint bytes for distinct
    locations: reading or writing one field, entry, slot or payload byte of
    the region never touches another. *)
Theorem validated_geometry_memory_safe s size :
  snapshot_typed s → is_u64 size → validate_snapshot s size = inl tt →
  (∀ l, loc_valid (geometry s) (snap_creator_name_len s) l →
    0 <= (loc_at (geometry s) l).1 ∧ 0 < (loc_at (geometry s) l).2 ∧
    (loc_at (geometry s) l).1 + (loc_at (geometry s) l).2 <= size ∧
    (loc_at (geometry s) l).1 `mod` (loc_at (geometry s) l).2 = 0) ∧
  (∀ l l', loc_valid (geometry s) (snap_creator_name_len s) l →
    loc_valid (geometry s) (snap_creator_name_len s) l' → l ≠ l' →
    disjoint (loc_at (geometry s) l) (loc_at (geometry s) l')).
Proof.
  intros Hty Hs H. destruct (validate_snapshot_ok s size Hty Hs H) as [Hg Hle]. split.
  - intros l Hl. pose proof (loc_in_region _ _ _ Hg l Hl).
    pose proof (loc_aligned _ _ _ Hg l Hl). intuition lia.
  - intros l l'. exact (locs_disjoint _ _ _ Hg l l').
Qed.

(** C25. The layout arithmetic of an accepted configuration is exact: no 64-bit
    operation in it wraps, and every later opener of the region accepts the
    header that is stamped from it. *)
Theorem layout_exact_and_accepted type cfg name l size :
  channel.config_typed cfg → validate_config type cfg = inl tt →
  compute_layout cfg (Some name) = inl l → is_u64 size → l_total_size l <= size →
  l = ideal_layout cfg (Z.of_nat (length name)) ∧ l_total_size l <= SIZE_MAX ∧
  validate_snapshot {| geometry := geometry_of_layout cfg l; snap_channel_type := type;
                       snap_total_size := l_total_size l;
                       snap_creator_name_len := l_creator_len l |} size = inl tt.
Proof.
  intros Hty Hv Hl Hs Hle. pose proof (compute_layout_ideal _ _ _ _ Hty Hv Hl) as (Hi & Hn & Ht).
  split; [done|]. split; [done|]. by eapply layout_accepted.
Qed.

Lemma default_config_layout :
  ∃ l, compute_layout channel.default_config (Some (str "sensor")) = inl l ∧
       l_total_size l = 1084288.
Proof. eexists. split; vm_compute; reflexivity. Qed.

Lemma default_config_typed : channel.config_typed channel.default_config.
Proof. by constructor; vm_compute; intuition congruence. Qed.

Lemma layout_exact_and_accepted_witness :
  ∃ l, compute_layout channel.default_config (Some (str "sensor")) = inl l ∧
       l = ideal_layout channel.default_config 6.
Proof.
  eexists. split; [vm_compute; reflexivity|].
  refine (proj1 (layout_exact_and_accepted channel.PubSub channel.default_config (str "sensor")
    _ 2000000 default_config_typed _ _ _ _)); vm_compute; intuition congruence.
Defined.

Definition sample_snapshot : HeaderSnapshot := {|
  geometry := {| sub_rings_offset := 896; sub_ring_stride := 192; sub_ring_capacity := 4;
                 sub_ring_mask := 3; pool_offset := 1280; slot_stride := 64; pool_size := 8;
                 slot_data_size := 40; max_subs := 2; commit_timeout_us := 10000;
                 schema_blob_offset := 832; schema_blob_capacity := 64 |};
  snap_channel_type := channel.PubSub;
  snap_total_size := 1792;
  snap_creator_name_len := 0
|}.

Lemma validated_geometry_memory_safe_witness :
  disjoint (loc_at (geometry sample_snapshot) (Ent 1 3 meta))
           (loc_at (geometry sample_snapshot) (Slot 0 refcount)).
Proof.
  refine (proj2 (validated_geometry_memory_safe sample_snapshot 4096 _ _ _) _ _ _ _ _);
    try (vm_compute; intuition congruence).
  split; [constructor|]; vm_compute; intuition congruence.
Defined.
End Layout.
