(* ===== verification/Words.v ===== *)
(** * Moving bytes through shared memory ([store_words], [load_words], [memcpy])

    [store_words] and [load_words] of [src/types.cc] move a byte string as
    whole 64-bit words, a partial last word zero-padded on store.  [memcpy_in]
    and [memcpy_out] are [std::memcpy] into and out of shared bytes.  The
    array moved is given by the location of its [i]-th element. *)

From S2P Require Import Prelude Prog.

Section words.
Context {L : Type}.
Implicit Types (base : Z → L) (bs : list Z).

Definition memcpy_in base bs : prog L unit :=
  foreach (length bs) 0 tt (λ j _, store (base j) (nth (Z.to_nat j) bs 0)).

Definition memcpy_out base (len : Z) : prog L (list Z) :=
  foreach (Z.to_nat len) 0 [] (λ j out, b <- load (base j) ;; Ret (out ++ [b])).

(** [std::memset (at, 0, len)] *)
Definition memset_zero base (len : Z) : prog L unit :=
  foreach (Z.to_nat len) 0 tt (λ j _, store (base j) 0).

(** [std::memset] to zero of the bytes the locations [ls] model. *)
Fixpoint zero_locs (ls : list L) : prog L unit :=
  match ls with
  | [] => Ret tt
  | l :: ls => store l 0 ;; zero_locs ls
  end.

Definition word_at bs (w n : nat) : Z := le_word (take n (drop (8 * w) bs)).

Definition store_words base (src : list Z) : prog L unit :=
  let full := (length src / 8)%nat in
  foreach full 0 tt (λ w _, store (base w) (word_at src (Z.to_nat w) 8)) ;;
  let rest := (length src `mod` 8)%nat in
  when (negb (rest =? 0)%nat) (store (base (Z.of_nat full)) (word_at src full rest)).

Definition load_words base (len : Z) : prog L (list Z) :=
  let len := Z.to_nat len in
  let full := (len / 8)%nat in
  out <- foreach full 0 [] (λ w out, word <- load (base w) ;; Ret (out ++ le_bytes 8 word)) ;;
  let rest := (len `mod` 8)%nat in
  if (rest =? 0)%nat then Ret out
  else
    word <- load (base (Z.of_nat full)) ;;
    Ret (out ++ le_bytes rest word).
End words.

(** ** The memory they leave *)

Section effect.
Context {L : Type} `{EqDecision L}.
Implicit Types (base : Z → L) (m : L → Z) (w : world L).

(** [m] with [vs] stored at [base i], [base (i + 1)], ... *)
Fixpoint store_list base (i : Z) (vs : list Z) m : L → Z :=
  match vs with
  | [] => m
  | v :: vs' => store_list base (i + 1) vs' (<[base i:=v]> m)
  end.

Lemma store_list_other base i vs m l :
  (∀ j, i <= j < i + Z.of_nat (length vs) → l ≠ base j) → store_list base i vs m l = m l.
Proof.
  revert i m. induction vs as [|v vs IH]; intros i m Hl; simpl; [done|].
  rewrite IH.
  - apply upd_ne. intros E. apply (Hl i); [simpl; lia|done].
  - intros j Hj. apply Hl. simpl. lia.
Qed.

Lemma store_list_at base i vs m j v :
  Inj (=) (=) base → vs !! j = Some v → store_list base i vs m (base (i + Z.of_nat j)) = v.
Proof.
  intros Hinj. revert i m j. induction vs as [|v' vs IH]; intros i m j Hj; [done|].
  destruct j as [|j]; cbn [store_list lookup list_lookup] in *.
  - injection Hj as ->. rewrite Z.add_0_r,  store_list_other; [apply upd_same|].
    intros j Hj' E. apply Hinj in E. lia.
  - replace (i + Z.of_nat (S j)) with ((i + 1) + Z.of_nat j) by lia. exact (IH _ _ _ Hj).
Qed.

Lemma store_list_snoc base i vs v m :
  store_list base i (vs ++ [v]) m = <[base (i + Z.of_nat (length vs)):=v]> (store_list base i vs m).
Proof.
  revert i m. induction vs as [|v' vs IH]; intros i m; simpl.
  - by rewrite Z.add_0_r.
  - rewrite IH. by replace (i + 1 + Z.of_nat (length vs)) with (i + Z.of_nat (S (length vs))) by lia.
Qed.

(** The values of [n] consecutive locations. *)
Definition load_list base (i : Z) (n : nat) m : list Z :=
  map (λ j, m (base (i + Z.of_nat j))) (seq 0 n).

Lemma load_list_S base i n m :
  load_list base i (S n) m = load_list base i n m ++ [m (base (i + Z.of_nat n))].
Proof. unfold load_list. rewrite seq_S, map_app. done. Qed.

Lemma load_store_list base i vs m :
  Inj (=) (=) base → load_list base i (length vs) (store_list base i vs m) = vs.
Proof.
  intros Hinj. apply list_eq. intros j. unfold load_list.
  rewrite list_lookup_fmap. destruct (vs !! j) as [v|] eqn:E.
  - pose proof (lookup_lt_Some _ _ _ E). rewrite lookup_seq_lt by done. simpl.
    f_equal. by apply store_list_at.
  - apply lookup_ge_None in E. by rewrite lookup_seq_ge by done.
Qed.

Lemma load_list_ext base i n m m' :
  (∀ j, i <= j < i + Z.of_nat n → m (base j) = m' (base j)) →
  load_list base i n m = load_list base i n m'.
Proof.
  intros Hm. unfold load_list. apply map_ext_in. intros j Hj%in_seq. apply Hm. lia.
Qed.

Lemma returns_store_loop base (f : Z → Z) n w (Q : unit → world L → Prop) :
  Q tt (set_mem w (store_list base 0 (map (λ j, f (Z.of_nat j)) (seq 0 n)) (w_mem w))) →
  returns (foreach n 0 tt (λ j _, store (base j) (f j))) w Q.
Proof.
  intros HQ. eapply (returns_foreach _ _ _ _ _ (λ i _ w',
    w' = set_mem w (store_list base 0 (map (λ j, f (Z.of_nat j)) (seq 0 (Z.to_nat i))) (w_mem w)))).
  - by destruct w.
  - intros i [] w' Hi ->. unfold store. apply returns_act. cbn [exec fst snd]. apply returns_ret.
    unfold write. replace (Z.to_nat (i + 1)) with (S (Z.to_nat i)) by lia.
    rewrite seq_S, map_app. cbn [map]. rewrite store_list_snoc, length_map, length_seq, Nat.add_0_l.
    by rewrite !Z2Nat.id by lia.
  - intros [] w' ->. rewrite Z.add_0_l, Nat2Z.id. done.
Qed.

Lemma returns_memcpy_in base bs w (Q : unit → world L → Prop) :
  Q tt (set_mem w (store_list base 0 bs (w_mem w))) → returns (memcpy_in base bs) w Q.
Proof.
  intros HQ. unfold memcpy_in. apply returns_store_loop.
  replace (map _ _) with bs; [done|]. apply list_eq. intros j.
  rewrite list_lookup_fmap. destruct (bs !! j) as [v|] eqn:E.
  - pose proof (lookup_lt_Some _ _ _ E). rewrite lookup_seq_lt by done. simpl.
    rewrite Nat2Z.id. f_equal. symmetry. by apply nth_lookup_Some.
  - apply lookup_ge_None in E. by rewrite lookup_seq_ge by done.
Qed.

Lemma returns_memset_zero base n w (Q : unit → world L → Prop) :
  Q tt (set_mem w (store_list base 0 (replicate (Z.to_nat n) 0) (w_mem w))) →
  returns (memset_zero base n) w Q.
Proof.
  intros HQ. unfold memset_zero. apply (returns_store_loop base (λ _, 0)).
  pose proof (const_fmap (A:=nat) (λ _, 0) (seq 0 (Z.to_nat n)) 0 (λ _ _ _, eq_refl)) as E.
  rewrite length_seq in E. by rewrite <- E in HQ.
Qed.

Lemma returns_memcpy_out base n w (Q : list Z → world L → Prop) :
  Q (load_list base 0 (Z.to_nat n) (w_mem w)) w → returns (memcpy_out base n) w Q.
Proof.
  intros HQ. unfold memcpy_out.
  eapply (returns_foreach _ _ _ _ _ (λ i out w',
    w' = w ∧ out = load_list base 0 (Z.to_nat i) (w_mem w))).
  - done.
  - intros i out w' Hi [-> ->]. cbn. apply returns_act. cbn [exec fst snd]. apply returns_ret.
    split; [done|]. replace (Z.to_nat (i + 1)) with (S (Z.to_nat i)) by lia.
    rewrite load_list_S. by rewrite Z2Nat.id by lia.
  - intros out w' [-> ->]. by rewrite Z.add_0_l, Nat2Z.id.
Qed.

Lemma returns_zero_locs ls m o ws (Q : unit → world L → Prop) :
  (∀ m', (∀ l, l ∈ ls → m' l = 0) → (∀ l, l ∉ ls → m' l = m l) → Q tt (World m' o ws)) →
  returns (zero_locs ls) (World m o ws) Q.
Proof.
  revert m. induction ls as [|l ls IH]; intros m HQ; cbn [zero_locs].
  - apply returns_ret, HQ; [intros l Hl; by apply not_elem_of_nil in Hl|done].
  - apply returns_bind, returns_store, IH. intros m' H0 Hm'. apply HQ.
    + intros l' [->|Hl]%elem_of_cons; [|by apply H0].
      destruct (decide (l ∈ ls)) as [?|Hn]; [by apply H0|]. rewrite Hm' by done. apply upd_same.
    + intros l' [Hne Hl']%not_elem_of_cons. rewrite Hm' by done. by apply upd_ne.
Qed.
End effect.

(** *** Whole words *)

(** Words that hold [n] bytes. *)
Definition nwords (n : nat) : nat := (n / 8 + if n `mod` 8 =? 0 then 0 else 1)%nat.

(** The words [store_words] stores. *)
Definition words_of (src : list Z) : list Z :=
  map (λ w, word_at src w 8) (seq 0 (nwords (length src))).

(** The first [len] bytes of words. *)
Definition unwords (len : nat) (ws : list Z) : list Z := take len (concat (map (le_bytes 8) ws)).

Lemma nwords_step n : (0 < n)%nat → nwords n = S (nwords (n - 8)).
Proof.
  intros Hn. unfold nwords. destruct (Nat.le_gt_cases 8 n).
  - replace n with (n - 8 + 1 * 8)%nat at 1 2 by lia. rewrite Nat.div_add, Nat.Div0.mod_add by lia. lia.
  - replace (n - 8)%nat with 0%nat by lia. rewrite Nat.div_small, Nat.mod_small by lia.
    destruct (Nat.eqb_spec n 0); [lia|done].
Qed.

Lemma nwords_bound n : (n <= 8 * nwords n)%nat.
Proof.
  unfold nwords. pose proof (Nat.div_mod_eq n 8) as E. destruct (Nat.eqb_spec (n `mod` 8) 0); [lia|].
  pose proof (Nat.mod_upper_bound n 8). lia.
Qed.

Lemma length_words_of src : length (words_of src) = nwords (length src).
Proof. unfold words_of. by rewrite length_map, length_seq. Qed.

Lemma words_of_step src : src ≠ [] → words_of src = le_word (take 8 src) :: words_of (drop 8 src).
Proof.
  intros Hs. unfold words_of. rewrite nwords_step by (by destruct src; cbn; [|lia]).
  rewrite length_drop. cbn [seq map]. f_equal.
  rewrite <- seq_shift, map_map. apply map_ext. intros w. unfold word_at. do 2 f_equal.
  rewrite drop_drop. f_equal. lia.
Qed.

Lemma length_words_bytes ws : length (concat (map (le_bytes 8) ws)) = (8 * length ws)%nat.
Proof. induction ws as [|w ws IH]; [done|]. cbn [map concat length]. rewrite length_app, le_bytes_length, IH. lia. Qed.

Lemma le_bytes_S n x : le_bytes (S n) x = x `mod` 256 :: le_bytes n (x `div` 256).
Proof. done. Qed.

Lemma le_bytes_short bs n :
  Forall is_u8 bs → (length bs <= n)%nat → le_bytes n (le_word bs) = bs ++ replicate (n - length bs) 0.
Proof.
  revert n. induction bs as [|b bs IH]; intros n Hbs Hn; cbn [length le_word] in *.
  - rewrite Nat.sub_0_r. clear. induction n as [|n IH]; [done|].
    rewrite le_bytes_S, Zdiv_0_l, IH. done.
  - apply Forall_cons in Hbs as [Hb Hbs]. destruct n as [|n]; [lia|]. rewrite le_bytes_S.
    replace ((b + 256 * le_word bs) `mod` 256) with b by word.
    replace ((b + 256 * le_word bs) `div` 256) with (le_word bs) by word.
    rewrite IH by (done || lia). done.
Qed.

(** Bytes stored as words and read back. *)
Lemma unwords_words_of src : Forall is_u8 src → unwords (length src) (words_of src) = src.
Proof.
  unfold unwords. remember (length src) as n eqn:En. revert src En.
  induction n as [n IH] using lt_wf_ind. intros src En Hsrc.
  destruct (decide (src = [])) as [->|Hne]; [by subst|].
  rewrite words_of_step by done. cbn [map concat].
  pose proof (length_take src 8) as Ht. destruct (Nat.le_gt_cases (length src) 8) as [Hs|Hs].
  - rewrite (take_ge src) by done. rewrite le_bytes_short by done. subst n.
    rewrite <- app_assoc, take_app_length'; done.
  - rewrite le_bytes_le_word; [|by apply Forall_take|lia].
    rewrite take_app, Ht, take_ge by lia. replace (n - 8 `min` length src)%nat with (length (drop 8 src)) by (rewrite length_drop; lia).
    rewrite (IH (length (drop 8 src))); [apply take_drop|rewrite length_drop; lia|done|by apply Forall_drop].
Qed.

Lemma word_at_last src :
  word_at src (length src / 8) (length src `mod` 8) = word_at src (length src / 8) 8.
Proof.
  unfold word_at. pose proof (Nat.div_mod_eq (length src) 8). pose proof (Nat.mod_upper_bound (length src) 8).
  f_equal. rewrite !take_ge; [done|rewrite length_drop; lia..].
Qed.

Lemma take_le_bytes k n x : (k <= n)%nat → take k (le_bytes n x) = le_bytes k x.
Proof.
  revert n x. induction k as [|k IH]; intros n x Hk; [by rewrite take_0|].
  destruct n as [|n]; [lia|]. rewrite !le_bytes_S. cbn [take]. rewrite IH by lia. done.
Qed.

Lemma unwords_full ws : unwords (8 * length ws) ws = concat (map (le_bytes 8) ws).
Proof. unfold unwords. apply take_ge. rewrite length_words_bytes. lia. Qed.

Lemma unwords_last n ws x :
  length ws = (n / 8)%nat → (n `mod` 8 ≠ 0)%nat →
  unwords n (ws ++ [x]) = concat (map (le_bytes 8) ws) ++ le_bytes (n `mod` 8) x.
Proof.
  intros Hl Hr. unfold unwords. pose proof (Nat.div_mod_eq n 8). pose proof (Nat.mod_upper_bound n 8).
  rewrite map_app, concat_app, take_app, length_words_bytes. cbn [map concat]. rewrite app_nil_r.
  rewrite take_ge by (rewrite length_words_bytes; lia). f_equal. rewrite Hl.
  replace (n - 8 * (n / 8))%nat with (n `mod` 8)%nat by lia. apply take_le_bytes. lia.
Qed.

Section whole.
Context {L : Type} `{EqDecision L}.
Implicit Types (base : Z → L).

Lemma returns_store_words base src (w : world L) (Q : unit → world L → Prop) :
  Q tt (set_mem w (store_list base 0 (words_of src) (w_mem w))) → returns (store_words base src) w Q.
Proof.
  intros HQ. unfold store_words. cbn zeta. apply returns_bind.
  apply (returns_store_loop base (λ w, word_at src (Z.to_nat w) 8)).
  assert (map (λ j, word_at src (Z.to_nat (Z.of_nat j)) 8) (seq 0 (length src / 8)) =
          map (λ j, word_at src j 8) (seq 0 (length src / 8))) as ->.
  { apply map_ext. intros j. by rewrite Nat2Z.id. }
  unfold words_of, nwords in HQ. apply returns_when; intros Hr.
  - apply negb_true_iff in Hr. rewrite Hr in HQ. destruct w as [m o ws]. cbn [set_mem w_mem w_os w_wakes] in *.
    apply returns_store. rewrite Nat.add_1_r, seq_S, map_app in HQ. cbn [map] in HQ.
    rewrite store_list_snoc, length_map, length_seq in HQ. rewrite word_at_last. exact HQ.
  - apply negb_false_iff in Hr. by rewrite Hr, Nat.add_0_r in HQ.
Qed.

Lemma returns_load_words base len (w : world L) (Q : list Z → world L → Prop) :
  Q (unwords (Z.to_nat len) (load_list base 0 (nwords (Z.to_nat len)) (w_mem w))) w →
  returns (load_words base len) w Q.
Proof.
  intros HQ. unfold load_words. cbn zeta. set (n := Z.to_nat len) in *. apply returns_bind.
  eapply (returns_foreach _ _ _ _ _ (λ i out w',
    w' = w ∧ out = concat (map (le_bytes 8) (load_list base 0 (Z.to_nat i) (w_mem w))))).
  - done.
  - intros i out w' Hi [-> ->]. destruct w as [m o ws]. apply returns_bind, returns_load, returns_ret.
    split; [done|]. replace (Z.to_nat (i + 1)) with (S (Z.to_nat i)) by lia. cbn [w_mem].
    rewrite load_list_S, map_app, concat_app. cbn [map concat]. rewrite app_nil_r.
    by rewrite Z2Nat.id by lia.
  - intros out w' [-> ->]. rewrite Z.add_0_l, Nat2Z.id. unfold nwords in HQ.
    destruct (Nat.eqb_spec (n `mod` 8) 0) as [E|E].
    + apply returns_ret. rewrite Nat.add_0_r in HQ.
      replace n with (8 * length (load_list base 0 (n / 8) (w_mem w)))%nat in HQ at 1.
      * by rewrite unwords_full in HQ.
      * unfold load_list. rewrite length_map, length_seq. pose proof (Nat.div_mod_eq n 8). lia.
    + destruct w as [m o ws]. apply returns_bind, returns_load, returns_ret. cbn [w_mem] in *.
      rewrite Nat.add_1_r, load_list_S in HQ.
      rewrite unwords_last in HQ by (done || unfold load_list; by rewrite length_map, length_seq). exact HQ.
Qed.
End whole.
