(* ===== verification/Embedding.v ===== *)
(** * Programs without loops, and programs placed in a larger memory

    A program that has no unbounded loop ends whatever memory it finds; [tame]
    says so syntactically, with the locations it may write, what it may return
    and what it may throw.  [wp_embed]: a program placed in a larger memory does
    there what it does in its own, and touches nothing else. *)

From S2P Require Import Prelude Prog Conc Words.

Section tame.
Context {L : Type}.

(** [p] has no unbounded loop, writes [P] only, returns [Q] and throws [E]. *)
Fixpoint tame (P : L → Prop) {A} (p : prog L A) (Q : A → Prop) (E : exn → Prop) : Prop :=
  match p with
  | Ret a => Q a
  | Throw e => E e
  | Act a k => ∀ r, (∀ l, writes a r = Some l → P l) ∧ tame P (k r) Q E
  | Loop _ _ _ => False
  end.

Implicit Types (P : L → Prop) (E : exn → Prop).

Lemma tame_mono P {A} (p : prog L A) (Q Q' : A → Prop) E E' :
  tame P p Q E → (∀ a, Q a → Q' a) → (∀ e, E e → E' e) → tame P p Q' E'.
Proof.
  revert Q Q'. induction p as [a|e|R A a k IH|A S B body _ s k _]; intros Q Q' Hp HQ HE; cbn in *; auto.
  intros r. destruct (Hp r) as [Hl Hk]. split; [done|]. by eapply IH.
Qed.

Lemma tame_ret P {A} (a : A) (Q : A → Prop) E : Q a → tame P (Ret a) Q E.
Proof. done. Qed.
Lemma tame_throw P {A} (e : exn) (Q : A → Prop) E : E e → tame P (Throw e) Q E.
Proof. done. Qed.

Lemma tame_bind P {A B} (p : prog L A) (f : A → prog L B) (Q : B → Prop) E :
  tame P p (λ a, tame P (f a) Q E) E → tame P (bind p f) Q E.
Proof.
  revert f Q. induction p as [a|e|R A a k IH|A S B' body _ s k _]; intros f Q Hp; cbn in *; auto.
  intros r. destruct (Hp r) as [Hl Hk]. split; [done|]. by apply IH.
Qed.

Lemma tame_call P {A B} (p : prog L A) (R : A → Prop) (f : A → prog L B) (Q : B → Prop) E :
  tame P p R E → (∀ a, R a → tame P (f a) Q E) → tame P (bind p f) Q E.
Proof. intros Hp Hf. by eapply tame_bind, tame_mono. Qed.

Lemma tame_then P {A} (p : prog L A) (R Q : A → Prop) E :
  tame P p R E → (∀ a, R a → Q a) → tame P p Q E.
Proof. intros Hp Hf. by eapply tame_mono. Qed.

Lemma tame_act P {R} (a : act L R) (Q : R → Prop) E :
  (∀ r l, writes a r = Some l → P l) → (∀ r, Q r) → tame P (Act a Ret) Q E.
Proof. intros Ha HQ r. split; [by apply Ha|apply HQ]. Qed.

Lemma tame_for P {S B} n lo (s : S) (body : Z → S → prog L (S + B)) (J : S → Prop) (Q : S + B → Prop) E :
  J s → (∀ i s, J s → tame P (body i s) (λ r, match r with inl s' => J s' | inr b => Q (inr b) end) E) →
  (∀ s, J s → Q (inl s)) → tame P (for_ n lo s body) Q E.
Proof.
  revert lo s. induction n as [|n IH]; intros lo s HJ Hb HQ; cbn [for_]; [by apply tame_ret, HQ|].
  eapply tame_call; [by apply Hb|]. intros [s'|b] Hr; [by apply IH|by apply tame_ret].
Qed.

Lemma tame_foreach P {S} n lo (s : S) (body : Z → S → prog L S) (J : S → Prop) E :
  J s → (∀ i s, J s → tame P (body i s) J E) → tame P (foreach n lo s body) J E.
Proof.
  revert lo s. induction n as [|n IH]; intros lo s HJ Hb; cbn [foreach]; [done|].
  eapply tame_call; [by apply Hb|]. intros s' HJ'. by apply IH.
Qed.

Lemma tame_try P {A} (p : prog L A) (Q : A + exn → Prop) E E' :
  tame P p (λ a, Q (inl a)) E → (∀ e, E e → Q (inr e)) → tame P (try_ p) Q E'.
Proof.
  revert Q. induction p as [a|e|R A a k IH|A S B body _ s k _]; intros Q Hp HE; cbn in *; auto.
  intros r. destruct (Hp r) as [Hl Hk]. split; [done|]. by apply IH.
Qed.

Lemma tame_when P (b : bool) (p : prog L unit) (Q : unit → Prop) E :
  (b = true → tame P p Q E) → Q tt → tame P (when b p) Q E.
Proof. intros Hp HQ. destruct b; [by apply Hp|by apply tame_ret]. Qed.

(** *** Running one alone *)

(** What the system calls of a program leave alone. *)
Definition steady (o o' : os) : Prop :=
  os_tick o' = os_tick o ∧ os_pid o' = os_pid o ∧ os_procs o' = os_procs o.

Lemma steady_refl o : steady o o.
Proof. done. Qed.
Lemma steady_trans o1 o2 o3 : steady o1 o2 → steady o2 o3 → steady o1 o3.
Proof. unfold steady. intros (-> & -> & ->) (-> & -> & ->). done. Qed.

Context `{EqDecision L}.

Lemma exec_steady {R} (a : act L R) w : steady (w_os w) (w_os (exec a w).2).
Proof.
  destruct a; cbn; try done; unfold exec_cas; by destruct (_ =? _).
Qed.

Lemma exec_writes {R} (a : act L R) w l :
  writes a (exec a w).1 ≠ Some l → w_mem (exec a w).2 l = w_mem w l.
Proof.
  destruct a; cbn; try done; unfold exec_cas;
    try (destruct (_ =? _) eqn:E; cbn); intros Hl; try done; apply upd_ne; congruence.
Qed.

Lemma wp_tame P {A} (p : prog L A) (Q : A → Prop) E w :
  tame P p Q E → wp p w (λ o w',
    match o with Val a => Q a | Exc e => E e end ∧ steady (w_os w) (w_os w') ∧
    ∀ l, ¬ P l → w_mem w' l = w_mem w l).
Proof.
  revert w Q. induction p as [a|e|R A a k IH|A S B body _ s k _]; intros w Q Hp; cbn in Hp.
  - by apply wp_ret.
  - by apply wp_throw.
  - apply wp_act. pose proof (exec_steady a w) as Hos. pose proof (exec_writes a w) as Hw.
    destruct (exec a w) as [r w1]. destruct (Hp r) as [Hl Hk]. cbn [fst snd] in *.
    eapply wp_mono; [by apply IH|]. intros o w' (HQ & Ho & Hm).
    split; [done|]. split; [by eapply steady_trans|]. intros l HP. rewrite Hm by done.
    apply Hw. intros Hc. by apply HP, Hl.
  - done.
Qed.
End tame.

Ltac tames :=
  repeat lazymatch goal with
  | |- tame _ (bind _ _) _ _ => apply tame_bind
  | |- tame _ (Ret _) _ _ => apply tame_ret
  | |- tame _ (Throw _) _ _ => apply tame_throw
  | |- tame _ (throw _ _) _ _ => apply tame_throw
  | |- tame _ (load _) _ _ => apply tame_act; [done|intros ?]
  | |- tame _ (store _ _) _ _ => apply tame_act; [done|intros []]
  | |- tame _ (compare_exchange_strong _ _ _) _ _ => apply tame_act; [done|intros [? ?]]
  | |- tame _ (compare_exchange_weak _ _ _) _ _ => apply tame_act; [done|intros [? ?]]
  | |- tame _ (fetch_add _ _ _) _ _ => apply tame_act; [done|intros ?]
  | |- tame _ current_pid _ _ => apply tame_act; [done|intros ?]
  | |- tame _ since_epoch _ _ => apply tame_act; [done|intros ?]
  | |- tame _ monotonic_ns _ _ => apply tame_act; [done|intros ?]
  | |- tame _ (process_probe _) _ _ => apply tame_act; [done|intros [? ?]]
  | |- tame _ (process_exists _) _ _ => apply tame_act; [done|intros ?]
  | |- tame _ (sleep _) _ _ => apply tame_act; [done|intros []]
  | |- tame _ yield _ _ => apply tame_act; [done|intros []]
  | |- tame _ (when _ _) _ _ => apply tame_when; [intros _|]
  | |- tame _ (if ?b then _ else _) _ _ => destruct b
  end; lazy beta match.

(** A call whose specification [t] proves. *)
Tactic Notation "tame_by" tactic3(t) :=
  lazymatch goal with
  | |- tame _ (bind _ _) _ _ => eapply tame_call; [t|]
  | _ => eapply tame_then; [t|]
  end; lazy beta.

(** The next call returns [R]. *)
Tactic Notation "tame_with" uconstr(R) :=
  lazymatch goal with
  | |- tame _ (bind _ _) _ _ => apply tame_call with R
  | _ => apply tame_then with R
  end; lazy beta.

(** The moves of bytes are loops of a known number of turns. *)
Section moves.
Context {L : Type} (P : L → Prop).

Lemma tame_memset base len E : (∀ i, P (base i)) → tame P (memset_zero (L := L) base len) (λ _, True) E.
Proof. intros HP. apply tame_foreach; [done|]. intros. apply tame_act; [by intros [] l [= <-]|done]. Qed.
Lemma tame_memcpy_in base bs E : (∀ i, P (base i)) → tame P (memcpy_in (L := L) base bs) (λ _, True) E.
Proof. intros HP. apply tame_foreach; [done|]. intros. apply tame_act; [by intros [] l [= <-]|done]. Qed.
Lemma tame_store_words base src E : (∀ i, P (base i)) → tame P (store_words (L := L) base src) (λ _, True) E.
Proof.
  intros HP. unfold store_words. eapply tame_call; [apply (tame_foreach _ _ _ _ _ (λ _, True)); [done|]; intros|].
  { apply tame_act; [by intros [] l [= <-]|done]. }
  intros _ _. apply tame_when; [intros _|done]. apply tame_act; [by intros [] l [= <-]|done].
Qed.
Lemma tame_load_words base len E : tame P (load_words (L := L) base len) (λ _, True) E.
Proof.
  unfold load_words. eapply tame_call; [apply (tame_foreach _ _ _ _ _ (λ _, True)); [done|]; intros; by tames|].
  intros out _. by tames.
Qed.
End moves.

Section stamps.
Context {L : Type}.
Abbreviation anywhere := (λ _ : L, True).

Lemma tame_zero_locs (ls : list L) E : tame anywhere (zero_locs ls) (λ _, True) E.
Proof. induction ls as [|l ls IH]; cbn [zero_locs]; tames; [done|exact IH]. Qed.
End stamps.

(** ** Placing a program *)

Section place.
Context {L L' : Type} (f : L → L').

(** Placed in a larger memory, the program writes the places of what it wrote. *)
Lemma tame_embed (P : L' → Prop) {A} (p : prog L A) (Q : A → Prop) E :
  tame (λ l, P (f l)) p Q E → tame P (embed f p) Q E.
Proof.
  revert Q. induction p as [a|e|R A a k IH|A S B body _ s k _]; intros Q Hp; cbn in *; auto.
  intros r. destruct (Hp r) as [Hl Hk]. split; [|by apply IH].
  intros l. destruct a; cbn in *; try done; intros Hw;
    repeat match type of Hw with (if ?b then _ else _) = _ => destruct b end; simplify_eq; by apply Hl.
Qed.

(** All of it goes to [P]. *)
Lemma tame_placed (P : L' → Prop) {A} (p : prog L A) (Q : A → Prop) E :
  (∀ l, P (f l)) → tame (λ _, True) p Q E → tame P (embed f p) Q E.
Proof.
  intros HP Hp. apply tame_embed. revert Q Hp.
  induction p as [a|e|R A a k IH|A S B body _ s k _]; intros Q Hp; cbn in *; auto.
  intros r. destruct (Hp r) as [_ Hk]. auto.
Qed.

Context (found : L' → option L).
Context (Hfound : ∀ l l', found l' = Some l ↔ l' = f l).

(** The larger memory [M] with [m] in the place of the smaller one. *)
Definition place (m : L → Z) (M : L' → Z) : L' → Z := λ l',
  match found l' with Some l => m l | None => M l' end.

Lemma found_place l : found (f l) = Some l.
Proof using Hfound. by apply Hfound. Qed.

Lemma place_at m M l : place m M (f l) = m l.
Proof using Hfound. unfold place. by rewrite found_place. Qed.

Lemma place_other m M l' : (∀ l, l' ≠ f l) → place m M l' = M l'.
Proof using Hfound.
  intros Hl. unfold place. destruct (found l') as [l|] eqn:E; [|done]. by apply Hfound, Hl in E.
Qed.

Lemma place_same M : place (λ l, M (f l)) M = M.
Proof using Hfound.
  apply functional_extensionality. intros l'. unfold place.
  destruct (found l') as [l|] eqn:E; [|done]. apply Hfound in E. by subst.
Qed.

Context `{EqDecision L, EqDecision L'}.

Lemma place_upd m M l v : <[f l := v]> (place m M) = place (<[l := v]> m) M.
Proof using Hfound.
  apply functional_extensionality. intros l'. destruct (decide (l' = f l)) as [->|Hne].
  - by rewrite place_at, !upd_same.
  - rewrite upd_ne by done. unfold place. destruct (found l') as [k|] eqn:E; [|done].
    rewrite upd_ne; [done|]. intros ->. apply Hfound in E. congruence.
Qed.

Context (M : L' → Z) (WS : list L').

Definition placed (w : world L) : world L' :=
  World (place (w_mem w) M) (w_os w) (map f (w_wakes w) ++ WS).

Lemma exec_embed {R} (a : act L R) w :
  exec (embed_act f a) (placed w) = ((exec a w).1, placed (exec a w).2).
Proof using Hfound.
  destruct w as [m o ws].
  destruct a; cbn; unfold exec_cas, placed, write, set_mem, set_os; cbn;
    rewrite ?place_at, ?place_upd; try done; by destruct (_ =? _); rewrite ?place_upd.
Qed.

Lemma run_embed n {A} (p : prog L A) w :
  run n (embed f p) (placed w) = (λ '(o, w'), (o, placed w')) <$> run n p w.
Proof using Hfound.
  revert A p w. induction n as [|n IH]; intros A p w; [done|].
  destruct p as [a|e|R a k|S B body s k]; cbn [run embed]; [done|done| |].
  - rewrite exec_embed. destruct (exec a w) as [r w1]. apply IH.
  - rewrite IH. destruct (run n (body s) w) as [[[[s'|b]|e] w1]|]; cbn; [|apply IH|done|done].
    apply (IH _ (Loop body s' k)).
Qed.
End place.

Lemma wp_embed {L L'} `{EqDecision L, EqDecision L'} (f : L → L') (found : L' → option L)
    {A} (p : prog L A) (W : world L') (Q : outcome A → world L' → Prop) :
  (∀ l l', found l' = Some l ↔ l' = f l) →
  wp p (World (λ l, w_mem W (f l)) (w_os W) []) (λ o w', Q o (placed f found (w_mem W) (w_wakes W) w')) →
  wp (embed f p) W Q.
Proof.
  intros Hf (n & o & w' & Hr & HQ). exists n, o, (placed f found (w_mem W) (w_wakes W) w'). split; [|done].
  destruct W as [M O WS].
  assert (World M O WS = placed f found M WS (World (λ l, M (f l)) O [])) as E.
  { unfold placed. cbn. by rewrite (place_same f found Hf). }
  rewrite E at 1. cbn [w_mem w_os w_wakes] in *. rewrite (run_embed f found Hf). by rewrite Hr.
Qed.

Lemma returns_embed {L L'} `{EqDecision L, EqDecision L'} (f : L → L') (found : L' → option L)
    {A} (p : prog L A) (W : world L') (Q : A → world L' → Prop) :
  (∀ l l', found l' = Some l ↔ l' = f l) →
  returns p (World (λ l, w_mem W (f l)) (w_os W) []) (λ a w', Q a (placed f found (w_mem W) (w_wakes W) w')) →
  returns (embed f p) W Q.
Proof.
  intros Hf Hp. by apply (wp_embed f found p W (λ o w', match o with Val a => Q a w' | Exc _ => False end) Hf).
Qed.
