(* ===== verification/Stopping.v ===== *)
(** * Programs that stop for ever

    [after n p w]: where [p], running alone from [w], is after [n] steps, and may
    crash.  [through I p w Q]: wherever [p] stops the memory satisfies [I], and
    it ends with [Q]. *)

From S2P Require Import Prelude Prog Conc Embedding.

Section stopping.
Context {L : Type} `{EqDecision L}.
Implicit Types (w : world L) (I : (L → Z) → Prop).

Fixpoint after (n : nat) {A} (p : prog L A) w : world L :=
  match n with
  | O => w
  | S n =>
      match p with
      | Ret _ | Throw _ => w
      | Act a k => let '(r, w') := exec a w in after n (k r) w'
      | Loop body s k => after n (unroll body s k) w
      end
  end.

Lemma after_ret n {A} (a : A) w : after n (Ret a) w = w.
Proof. by destruct n. Qed.
Lemma after_throw n {A} (e : exn) w : after n (Throw (A := A) e) w = w.
Proof. by destruct n. Qed.

(** A stop in [p] is a stop in [bind p f]. *)
Lemma after_bind_prefix n {A B} (p : prog L A) (f : A → prog L B) w :
  ∃ k, after k (bind p f) w = after n p w.
Proof.
  revert A p f w. induction n as [|n IH]; intros A p f w; [by exists 0%nat|].
  destruct p as [a|e|R a k|S C body s k]; cbn [bind after].
  - by exists 0%nat.
  - by exists 0%nat.
  - destruct (exec a w) as [r w'] eqn:Ea. destruct (IH _ (k r) f w') as [j Hj].
    exists (Datatypes.S j). cbn. by rewrite Ea.
  - destruct (IH _ (unroll body s k) f w) as [j Hj]. exists (Datatypes.S j). cbn [after].
    by rewrite <- bind_unroll.
Qed.

(** Once [p] has ended, [bind p f] is in [f]. *)
Lemma after_bind_suffix n {A B} (p : prog L A) (f : A → prog L B) w a w1 :
  run n p w = Some (Val a, w1) → ∃ k, ∀ i, after (k + i) (bind p f) w = after i (f a) w1.
Proof.
  revert A B p f w a w1. induction n as [|n IH]; intros A B p f w a w1 Hr; [done|].
  destruct p as [x|e|R x k|S C body s k]; cbn [run bind] in *.
  - injection Hr as -> ->. by exists 0%nat.
  - done.
  - destruct (exec x w) as [r w'] eqn:Ea. destruct (IH _ _ (k r) f w' a w1 Hr) as [j Hj].
    exists (Datatypes.S j). intros i. cbn [Nat.add after]. by rewrite Ea.
  - destruct (run n (body s) w) as [[[[s'|b]|e] w2]|] eqn:Hb; [..|done].
    + destruct (IH _ _ _ (λ r, match r with inl s' => Loop body s' (λ b, bind (k b) f)
                               | inr b => bind (k b) f end) _ _ _ Hb) as [j1 Hj1].
      destruct (IH _ _ (Loop body s' k) f w2 a w1 Hr) as [j2 Hj2].
      exists (Datatypes.S (j1 + j2)). intros i. cbn [Nat.add after]. rewrite <- Nat.add_assoc.
      unfold unroll. rewrite Hj1. apply Hj2.
    + destruct (IH _ _ _ (λ r, match r with inl s' => Loop body s' (λ b, bind (k b) f)
                               | inr b => bind (k b) f end) _ _ _ Hb) as [j1 Hj1].
      destruct (IH _ _ (k b) f w2 a w1 Hr) as [j2 Hj2].
      exists (Datatypes.S (j1 + j2)). intros i. cbn [Nat.add after]. rewrite <- Nat.add_assoc.
      unfold unroll. rewrite Hj1. apply Hj2.
    + done.
Qed.

(** A stop in [bind p f] is a stop in [p], or in [f] after [p] has ended. *)
Lemma after_bind n k {A B} (p : prog L A) (f : A → prog L B) w o w1 :
  run n p w = Some (o, w1) →
  (∃ j, after k (bind p f) w = after j p w) ∨
  (∃ a j, o = Val a ∧ after k (bind p f) w = after j (f a) w1).
Proof.
  revert A B p f w o w1 k. induction n as [|n IH]; intros A B p f w o w1 k Hr; [done|].
  destruct p as [x|e|R x c|S C body s c]; cbn [run] in Hr.
  - injection Hr as <- <-. right. by exists x, k.
  - injection Hr as <- <-. left. exists 0%nat. cbn. by rewrite after_throw.
  - destruct k as [|k]; [left; by exists 0%nat|]. cbn [bind after].
    destruct (exec x w) as [r w'] eqn:Ea.
    destruct (IH _ _ (c r) f w' o w1 k Hr) as [[j Hj]|H1]; [left|by right].
    exists (Datatypes.S j). cbn. by rewrite Ea.
  - destruct k as [|k]; [left; by exists 0%nat|]. cbn [bind after].
    set (turn := λ r : S + C, match r with inl s' => Loop body s' (λ b, bind (c b) f) | inr b => bind (c b) f end).
    change (unroll body s (λ b, bind (c b) f)) with (bind (body s) turn).
    assert (∀ r w2, run n (body s) w = Some (Val r, w2) → ∀ i, ∃ j,
      after j (Loop body s c) w = after i (match r with inl s' => Loop body s' c | inr b => c b end) w2) as Hnext.
    { intros r w2 Hb i. destruct (after_bind_suffix _ _ (λ r, match r with inl s' => Loop body s' c | inr b => c b end)
        _ _ _ Hb) as [j Hj]. exists (Datatypes.S (j + i)). cbn [after]. unfold unroll. apply Hj. }
    destruct (run n (body s) w) as [[ob w2]|] eqn:Hb; [|done].
    destruct (IH _ _ (body s) turn w ob w2 k Hb) as [[j Hj]|(r & j & -> & Hj)].
    { left. destruct (after_bind_prefix j (body s)
        (λ r, match r with inl s' => Loop body s' c | inr b => c b end) w) as [i Hi].
      exists (Datatypes.S i). cbn [after]. unfold unroll. by rewrite Hi. }
    rewrite Hj. destruct r as [s'|b]; cbn [turn].
    + destruct (IH _ _ (Loop body s' c) f w2 o w1 j Hr) as [[i Hi]|H1]; [left|by right].
      cbn [bind] in Hi. rewrite Hi. destruct (Hnext _ _ eq_refl i) as [i' Hi']. by exists i'.
    + destruct (IH _ _ (c b) f w2 o w1 j Hr) as [[i Hi]|H1]; [left|by right].
      rewrite Hi. destruct (Hnext _ _ eq_refl i) as [i' Hi']. by exists i'.
Qed.

(** The last stop is the end. *)
Lemma after_end n {A} (p : prog L A) w o w1 : run n p w = Some (o, w1) → ∃ k, after k p w = w1.
Proof.
  intros Hr. destruct o as [a|e].
  - destruct (after_bind_suffix n p Ret w a w1 Hr) as [k Hk]. exists k.
    specialize (Hk 0%nat). rewrite Nat.add_0_r in Hk. by rewrite bind_ret in Hk.
  - revert A p w Hr. induction n as [|n IH]; intros A p w Hr; [done|].
    destruct p as [x|x|R x k|S C body s k]; cbn [run] in Hr; [done| | |].
    + injection Hr as _ <-. by exists 0%nat.
    + destruct (exec x w) as [r w'] eqn:Ea. destruct (IH _ _ _ Hr) as [j Hj]. exists (Datatypes.S j).
      cbn [after]. by rewrite Ea.
    + destruct (run n (body s) w) as [[[[s'|b]|x] w2]|] eqn:Hb; [..|done].
      * destruct (after_bind_suffix _ _ (λ r, match r with inl s' => Loop body s' k | inr b => k b end) _ _ _ Hb) as [j1 Hj1].
        destruct (IH _ (Loop body s' k) _ Hr) as [j2 Hj2]. exists (Datatypes.S (j1 + j2)). cbn [after]. unfold unroll.
        by rewrite Hj1.
      * destruct (after_bind_suffix _ _ (λ r, match r with inl s' => Loop body s' k | inr b => k b end) _ _ _ Hb) as [j1 Hj1].
        destruct (IH _ (k b) _ Hr) as [j2 Hj2]. exists (Datatypes.S (j1 + j2)). cbn [after]. unfold unroll.
        by rewrite Hj1.
      * injection Hr as -> <-. destruct (IH _ _ _ Hb) as [j Hj].
        destruct (after_bind_prefix j (body s) (λ r, match r with inl s' => Loop body s' k | inr b => k b end) w) as [i Hi].
        exists (Datatypes.S i). cbn [after]. unfold unroll. by rewrite Hi.
Qed.

(** ** Invariants of every stop *)

Definition through I {A} (p : prog L A) w (Q : outcome A → world L → Prop) : Prop :=
  (∀ n, I (w_mem (after n p w))) ∧ wp p w Q.

Implicit Types (m : L → Z).

Lemma through_mono I {A} (p : prog L A) w (Q Q' : outcome A → world L → Prop) :
  through I p w Q → (∀ o w', Q o w' → Q' o w') → through I p w Q'.
Proof. intros [HI Hp] HQ. split; [done|]. by eapply wp_mono. Qed.

(** The end is a stop too. *)
Lemma through_end I {A} (p : prog L A) w (Q : outcome A → world L → Prop) :
  through I p w (λ o w', I (w_mem w') → Q o w') → through I p w Q.
Proof.
  intros [HI (n & o & w1 & Hr & Ho)]. split; [done|]. exists n, o, w1. split; [done|]. apply Ho.
  destruct (after_end n p w o w1 Hr) as [k <-]. apply HI.
Qed.

Lemma through_weaken I (I' : (L → Z) → Prop) {A} (p : prog L A) w (Q : outcome A → world L → Prop) :
  through I p w Q → (∀ m, I m → I' m) → through I' p w Q.
Proof. intros [HI Hp] HW. split; [intros n; apply HW, HI|done]. Qed.

Lemma through_ret I {A} (a : A) w (Q : outcome A → world L → Prop) :
  I (w_mem w) → Q (Val a) w → through I (Ret a) w Q.
Proof. intros HI HQ. split; [intros n; by rewrite after_ret|by apply wp_ret]. Qed.

Lemma through_throw I {A} (e : exn) w (Q : outcome A → world L → Prop) :
  I (w_mem w) → Q (Exc e) w → through I (Throw e) w Q.
Proof. intros HI HQ. split; [intros n; by rewrite after_throw|by apply wp_throw]. Qed.

Lemma through_act I {R A} (a : act L R) (k : R → prog L A) w (Q : outcome A → world L → Prop) :
  I (w_mem w) → through I (k (exec a w).1) (exec a w).2 Q → through I (Act a k) w Q.
Proof.
  intros HI [Hs Hp]. split.
  - intros [|n]; [done|]. cbn [after]. destruct (exec a w). apply Hs.
  - apply wp_act. by destruct (exec a w).
Qed.

Lemma through_bind I {A B} (p : prog L A) (f : A → prog L B) w (Q : outcome B → world L → Prop) :
  through I p w (λ o w', match o with Val a => through I (f a) w' Q | Exc e => Q (Exc e) w' end) →
  through I (bind p f) w Q.
Proof.
  intros [HI (n & o & w1 & Hr & Ho)]. split.
  - intros k. destruct (after_bind n k p f w o w1 Hr) as [[j ->]|(a & j & -> & ->)]; [done|]. apply Ho.
  - apply wp_bind. exists n, o, w1. split; [done|]. destruct o; [exact (proj2 Ho)|exact Ho].
Qed.

Lemma through_loop I {A S B} (body : S → prog L (S + B)) s (k : B → prog L A) w
    (Q : outcome A → world L → Prop) :
  through I (body s) w (λ o w', match o with
    | Val (inl s') => through I (Loop body s' k) w' Q
    | Val (inr b) => through I (k b) w' Q
    | Exc e => Q (Exc e) w' end) →
  through I (Loop body s k) w Q.
Proof.
  intros [HI (n & o & w1 & Hr & Ho)]. split.
  - intros [|j]; [apply (HI 0%nat)|]. cbn [after]. unfold unroll.
    destruct (after_bind n j (body s) (λ r, match r with inl s' => Loop body s' k | inr b => k b end)
      w o w1 Hr) as [[i ->]|([s'|b] & i & -> & ->)]; [done|apply Ho..].
  - apply wp_loop. exists n, o, w1. split; [done|]. destruct o as [[s'|b]|e]; [apply Ho..|exact Ho].
Qed.

(** A part that writes only where [I] does not look. *)
Lemma through_within I P {A} (p : prog L A) w (Qt : A → Prop) E (Q : outcome A → world L → Prop) :
  tame P p Qt E → (∀ m', (∀ l, ¬ P l → m' l = w_mem w l) → I m') → wp p w Q → through I p w Q.
Proof.
  intros Ht HI Hp. split; [|done]. clear Hp Q. intros n.
  apply HI. clear HI. revert A p w Qt Ht.
  induction n as [|n IH]; intros A p w Qt Ht; [done|].
  destruct p as [a|e|R a k|S B body s k]; [done|done| |done].
  cbn [after]. pose proof (exec_writes a w) as Hw. destruct (exec a w) as [r w1].
  destruct (Ht r) as [Hl Hk]. cbn [fst snd] in *. intros l HP. rewrite (IH _ _ _ _ Hk) by done.
  apply Hw. intros Hc. by apply HP, Hl.
Qed.

(** The stops, where the outcome is known. *)
Lemma through_and I {A} (p : prog L A) w (Q : outcome A → world L → Prop) :
  through I p w (λ _ _, True) → wp p w Q → through I p w Q.
Proof. by intros [HI _] Hp. Qed.

(** The same for a part whose last write [I] sees. *)
Fixpoint tame_till (P : L → Prop) {A} (p : prog L A) : Prop :=
  match p with
  | Ret _ | Throw _ => True
  | Act a k => ∀ r, match k r with
                    | Ret _ | Throw _ => True
                    | _ => ∀ l, writes a r = Some l → P l
                    end ∧ tame_till P (k r)
  | Loop _ _ _ => False
  end.

Lemma tame_till_bind P {A B} (p : prog L A) (f : A → prog L B) Qt E :
  tame P p Qt E → (∀ a, tame_till P (f a)) → tame_till P (bind p f).
Proof.
  intros Hp Hf. revert f Hf Qt Hp. induction p as [a|e|R A a k IH|A S C body _ s k _]; intros f Hf Qt Hp; cbn in *; auto.
  intros r. destruct (Hp r) as [Hl Hk]. split; [by destruct (bind (k r) f)|]. by eapply IH.
Qed.

Lemma through_till I P {A} (p : prog L A) w (Q : outcome A → world L → Prop) :
  tame_till P p → (∀ m', (∀ l, ¬ P l → m' l = w_mem w l) → I m') → wp p w Q →
  (∀ o w', Q o w' → I (w_mem w')) → through I p w Q.
Proof.
  intros Ht HI Hp HQ. split; [|done]. revert w HI Hp.
  induction p as [a|e|R A a k IH|A S B body _ s k _]; intros w HI Hp n; cbn in Ht.
  - rewrite after_ret. by apply HI.
  - rewrite after_throw. by apply HI.
  - destruct n as [|n]; [by apply HI|]. cbn [after].
    destruct Hp as (f & o & w2 & Hr & Ho). destruct f as [|f]; [done|]. cbn [run] in Hr.
    pose proof (exec_writes a w) as Hw. destruct (exec a w) as [r w1]. cbn [fst snd] in Hw.
    destruct (Ht r) as [Hl Hk].
    assert (wp (k r) w1 Q) as Hp1 by (by exists f, o, w2).
    destruct (k r) as [x|x| |] eqn:Ek.
    + rewrite after_ret. destruct f; [done|]. injection Hr as <- <-. by eapply HQ.
    + rewrite after_throw. destruct f; [done|]. injection Hr as <- <-. by eapply HQ.
    + rewrite <- Ek in *. eapply IH; [exact Hk|exact HQ| |exact Hp1]. intros m' Hm'. apply HI. intros l HP. rewrite Hm' by done.
      apply Hw. intros Hc. by apply HP, Hl.
    + done.
  - done.
Qed.

(** A handler is as far as the program was. *)
Lemma through_try I {A} (p : prog L A) w (Q : outcome (A + exn) → world L → Prop) :
  through I p w (λ o w', Q (Val (caught o)) w') → through I (try_ p) w Q.
Proof.
  intros [HI Hp]. split.
  - intros n. assert (∃ k, after n (try_ p) w = after k p w) as [k ->]; [|done]. clear HI Hp Q.
    revert A p w. induction n as [|n IH]; intros A p w; [by exists 0%nat|].
    destruct p as [a|e|R a k|S B body s k]; cbn [try_ after].
    + by exists 0%nat.
    + by exists 0%nat.
    + destruct (exec a w) as [r w'] eqn:Ea. destruct (IH _ (k r) w') as [j Hj].
      exists (Datatypes.S j). cbn [after]. by rewrite Ea.
    + destruct (IH _ (unroll body s k) w) as [j Hj]. exists (Datatypes.S j). cbn [after]. rewrite <- Hj.
      f_equal. unfold unroll. rewrite try_bind, bind_assoc. f_equal. apply functional_extensionality.
      by intros [[s'|b]|e].
  - apply returns_wp, returns_try. eapply wp_mono; [exact Hp|]. by intros [a|e].
Qed.

(** *** Programs that return *)

Abbreviation goes I p w Q :=
  (through I p w (λ o w', match o with Val a => Q a w' | Exc _ => False end)).

Lemma through_bind_goes I {A B} (p : prog L A) (f : A → prog L B) w (Q : outcome B → world L → Prop) :
  goes I p w (λ a w', through I (f a) w' Q) → through I (bind p f) w Q.
Proof. intros Hp. apply through_bind. eapply through_mono; [exact Hp|]. by intros [a|e]. Qed.

Lemma through_within_returns I P {A} (p : prog L A) w (Qt : A → Prop) E (Q : A → world L → Prop) :
  tame P p Qt E → (∀ m', (∀ l, ¬ P l → m' l = w_mem w l) → I m') → returns p w Q → goes I p w Q.
Proof. intros. by eapply through_within. Qed.

Lemma through_for I {S B} n lo (s : S) (body : Z → S → prog L (S + B)) w
    (Inv : Z → S → world L → Prop) (Q : outcome (S + B) → world L → Prop) :
  Inv lo s w → (∀ i s w, Inv i s w → I (w_mem w)) →
  (∀ i s w, lo <= i < lo + Z.of_nat n → Inv i s w →
    through I (body i s) w (λ o w', match o with
      | Val (inl s') => Inv (i + 1) s' w'
      | Val (inr b) => I (w_mem w') ∧ Q (Val (inr b)) w'
      | Exc e => Q (Exc e) w' end)) →
  (∀ s w, Inv (lo + Z.of_nat n) s w → Q (Val (inl s)) w) →
  through I (for_ n lo s body) w Q.
Proof.
  intros Hi HI. revert lo s w Hi. induction n as [|n IH]; intros lo s w Hi Hb HQ.
  - apply through_ret; [by eapply HI|]. apply HQ. by rewrite Z.add_0_r.
  - cbn [for_]. apply through_bind. eapply through_mono; [apply Hb; [lia|done]|].
    intros [[s'|b]|e] w' Hr; [|destruct Hr; by apply through_ret|done].
    apply IH; [done| |].
    + intros i s1 w1 Hlt. apply Hb. lia.
    + intros s1 w1 Hinv. apply HQ. by replace (lo + Z.of_nat (Datatypes.S n))
        with (lo + 1 + Z.of_nat n) by lia.
Qed.

Lemma through_foreach I {S} n lo (s : S) (body : Z → S → prog L S) w
    (Inv : Z → S → world L → Prop) (Q : outcome S → world L → Prop) :
  Inv lo s w → (∀ i s w, Inv i s w → I (w_mem w)) →
  (∀ i s w, lo <= i < lo + Z.of_nat n → Inv i s w → goes I (body i s) w (Inv (i + 1))) →
  (∀ s w, Inv (lo + Z.of_nat n) s w → Q (Val s) w) →
  through I (foreach n lo s body) w Q.
Proof.
  intros Hi HI. revert lo s w Hi. induction n as [|n IH]; intros lo s w Hi Hb HQ.
  - apply through_ret; [by eapply HI|]. apply HQ. by rewrite Z.add_0_r.
  - cbn [foreach]. apply through_bind_goes. eapply through_mono; [apply Hb; [lia|done]|].
    intros [s'|e] w' Hr; [|done]. apply IH; [done| |].
    + intros i s1 w1 Hlt. apply Hb. lia.
    + intros s1 w1 Hinv. apply HQ. by replace (lo + Z.of_nat (Datatypes.S n))
        with (lo + 1 + Z.of_nat n) by lia.
Qed.

(** *** Actions *)

Lemma through_read I {R} (a : act L R) w (Q : outcome R → world L → Prop) :
  I (w_mem w) → w_mem (exec a w).2 = w_mem w → Q (Val (exec a w).1) (exec a w).2 → through I (Act a Ret) w Q.
Proof. intros HI Hm HQ. apply through_act; [done|]. apply through_ret; [by rewrite Hm|done]. Qed.

Lemma through_load I l m o ws (Q : outcome Z → world L → Prop) :
  I m → Q (Val (m l)) (World m o ws) → through I (load l) (World m o ws) Q.
Proof. intros HI HQ. by apply (through_read I (Load l)). Qed.

Lemma through_store I l v m o ws (Q : outcome unit → world L → Prop) :
  I m → I (<[l:=v]> m) → (I (<[l:=v]> m) → Q (Val tt) (World (<[l:=v]> m) o ws)) →
  through I (store l v) (World m o ws) Q.
Proof. intros. apply through_act; [done|]. apply through_ret; auto. Qed.

Lemma through_fetch_add I wrap l d m o ws (Q : outcome Z → world L → Prop) :
  I m → I (<[l:=wrap (m l + d)]> m) →
  (I (<[l:=wrap (m l + d)]> m) → Q (Val (m l)) (World (<[l:=wrap (m l + d)]> m) o ws)) →
  through I (fetch_add wrap l d) (World m o ws) Q.
Proof. intros. apply through_act; [done|]. apply through_ret; auto. Qed.

Lemma through_monotonic I m o ws (Q : outcome Z → world L → Prop) :
  I m → Q (Val (os_clock o)) (World m (os_advance o (os_tick o)) ws) →
  through I monotonic_ns (World m o ws) Q.
Proof. intros HI HQ. by apply (through_read I MonotonicNs). Qed.

(** A part that changes nothing. *)
Lemma through_pure I {A} (p : prog L A) m o ws (Qt : A → Prop) E (Q : outcome A → world L → Prop) :
  tame (λ _, False) p Qt E → I m → wp p (World m o ws) Q → through I p (World m o ws) Q.
Proof.
  intros Ht HI Hp. eapply through_within; [exact Ht| |exact Hp]. intros m' Hm.
  replace m' with m; [done|]. apply functional_extensionality. intros l. symmetry. apply Hm. tauto.
Qed.
End stopping.
