(* ===== verification/Shm.v ===== *)
(** * Named shared memory ([include/kickmsg/os/SharedMemory.h])

    What the components need of [SharedMemory]: the object behind one name, as
    operations on programs.  Each backend ([src/os/linux], [posix], [darwin],
    [windows]) is a wrapper of system calls and implements this interface. *)

From S2P Require Import Prelude Prog.

(** The named object a component opens.  Creating and opening return the size
    mapped; [try_create] is exclusive, [try_open] is [None] while the object
    is missing or has no size yet. *)
Class SharedMemory (L : Type) := {
  shm_create : Z → prog L Z;
  shm_try_create : Z → prog L bool;
  shm_open : prog L Z;
  shm_try_open : prog L (option Z);
  shm_unlink : prog L unit
}.
