(* ===== verification/Process.v ===== *)
(** * Process identity and liveness ([src/os/Process.cc])

    The probes themselves ([current_pid], [process_exists], [process_probe])
    are operating-system calls, actions of [Prog.v].  The verdicts built on
    them are translated here: the per-process identity cache, and
    [owner_is_dead], the guard every reclaim path uses. *)

From S2P Require Import Prelude Prog.

Module Process.
Section process.
Context {L : Type}.

Definition process_starttime (pid : Z) : prog L Z :=
  '(starttime, _) <- process_probe pid ;;
  Ret starttime.

Record SelfIdentity := { self_pid : Z; self_starttime : Z }.

(** The caller's identity, read afresh. *)
Definition self_identity_uncached : prog L SelfIdentity :=
  pid <- current_pid ;;
  starttime <- process_starttime pid ;;
  Ret {| self_pid := pid; self_starttime := starttime |}.

(** The process-wide cache: [g_self_pid], [g_self_starttime]. *)
Definition self_identity (g_self_pid g_self_starttime : Z) : prog L (SelfIdentity * (Z * Z)) :=
  if g_self_pid =? 0 then
    pid <- current_pid ;;
    starttime <- process_starttime pid ;;
    Ret ({| self_pid := pid; self_starttime := starttime |}, (pid, starttime))
  else
    Ret ({| self_pid := g_self_pid; self_starttime := g_self_starttime |},
         (g_self_pid, g_self_starttime)).

(** The [pthread_atfork] child handler. *)
Definition forget_self_identity (g_self_pid g_self_starttime : Z) : Z * Z :=
  (0, g_self_starttime).

Definition owner_is_dead (pid recorded_starttime : Z) : prog L bool :=
  if pid =? 0 then Ret false
  else
    alive <- process_exists pid ;;
    if negb alive then Ret true
    else
      '(starttime, exited) <- process_probe pid ;;
      if exited : bool then Ret true
      else if (recorded_starttime =? 0) || (starttime =? 0) then Ret false
      else Ret (negb (recorded_starttime =? starttime)).
End process.
Arguments self_identity {L}.

(** ** Specification *)

(** What the process table says about a pid: gone, an unreaped zombie, or
    running since a start time. *)
Definition dead_verdict (procs : Z → option (Z * bool)) (pid recorded : Z) : bool :=
  if pid =? 0 then false
  else match procs pid with
  | None => true
  | Some (_, true) => true
  | Some (starttime, false) =>
      negb (recorded =? 0) && negb (starttime =? 0) && negb (recorded =? starttime)
  end.

(** The calling process's start time and identity, as it reads them. *)
Definition starttime_of (o : os) : Z :=
  if os_pid o =? 0 then 0 else (default (0, false) (os_procs o (os_pid o))).1.
Definition identity_of (o : os) : SelfIdentity :=
  {| self_pid := os_pid o; self_starttime := starttime_of o |}.

Section spec.
Context {L : Type} `{EqDecision L}.
Implicit Types (w : world L).

Lemma returns_owner_is_dead pid recorded w (Q : bool → world L → Prop) :
  Q (dead_verdict (os_procs (w_os w)) pid recorded) w →
  returns (owner_is_dead pid recorded) w Q.
Proof.
  unfold dead_verdict, owner_is_dead. intros HQ.
  destruct (Z.eqb_spec pid 0) as [->|Hne]; [by apply returns_ret|].
  unfold process_exists, process_probe. cbn [bind]. apply returns_act. cbn [exec fst snd].
  rewrite (proj2 (Z.eqb_neq pid 0)) by done. rewrite andb_true_r.
  destruct (os_procs (w_os w) pid) as [[t z]|] eqn:E.
  - rewrite bool_decide_eq_true_2 by eauto. cbn [negb bind].
    apply returns_act. cbn [exec fst snd].
    rewrite (proj2 (Z.eqb_neq pid 0)) by done. rewrite E. simpl.
    destruct z; [by apply returns_ret|].
    destruct (Z.eqb_spec recorded 0); destruct (Z.eqb_spec t 0); cbn [orb negb andb] in *;
      by apply returns_ret.
  - rewrite bool_decide_eq_false_2 by (by intros []). cbn [negb]. by apply returns_ret.
Qed.

Lemma returns_own_starttime m o ws (Q : Z → world L → Prop) :
  Q (starttime_of o) (World m o ws) → returns (process_starttime (os_pid o)) (World m o ws) Q.
Proof.
  unfold process_starttime, starttime_of. intros HQ. do 2 step.
  destruct (os_pid o =? 0); [by step|]. by destruct (default (0, false) (os_procs o (os_pid o))); step.
Qed.

Lemma returns_self_identity m o ws (Q : SelfIdentity → world L → Prop) :
  Q (identity_of o) (World m o ws) → returns self_identity_uncached (World m o ws) Q.
Proof.
  unfold self_identity_uncached. intros HQ. do 3 step. apply returns_own_starttime. lazy beta. by step.
Qed.
(** ** The cache, over forks *)

(** What happens to a process: it asks for its identity, or it forks and we follow
    the child, which gets a pid of its own. *)
Inductive event := Asks | Forks (child : Z).

Definition with_pid (o : os) (pid : Z) : os :=
  Os (os_clock o) (os_tick o) (os_epoch o) pid (os_procs o) (os_signals o).

(** The system seen by the process, and its cache. *)
Definition happens (e : event) (s : os * (Z * Z)) : os * (Z * Z) :=
  let '(o, (pid, starttime)) := s in
  match e with
  | Asks =>
      match run 10 (self_identity pid starttime) (World (λ _ : L, 0) o []) with
      | Some (Val (_, cache), _) => (o, cache)
      | _ => s
      end
  | Forks child => (with_pid o child, forget_self_identity pid starttime)
  end.

(** Empty, or right. *)
Definition coherent (s : os * (Z * Z)) : Prop :=
  s.2.1 = 0 ∨ s.2 = (os_pid s.1, starttime_of s.1).

Lemma returns_self_identity_cached o c m ws (Q : SelfIdentity * (Z * Z) → world L → Prop) :
  coherent (o, c) → Q (identity_of o, (os_pid o, starttime_of o)) (World m o ws) →
  returns (self_identity c.1 c.2) (World m o ws) Q.
Proof.
  intros Hc HQ. unfold self_identity. destruct (Z.eqb_spec c.1 0) as [Hz|Hz].
  - do 3 step. apply returns_own_starttime. by step.
  - destruct Hc as [Hc|Hc]; [done|]. cbn in Hc. subst c. by step.
Qed.

Lemma happens_coherent e s : coherent s → coherent (happens e s).
Proof.
  destruct s as [o [pid starttime]], e as [|child]; cbn [happens]; intros Hc; [|by left].
  destruct (returns_self_identity_cached o (pid, starttime) (λ _, 0) [] (λ '(_, c) _, c = (os_pid o, starttime_of o)) Hc eq_refl)
    as (n & [[i c]|x] & w' & Hr & Hres); [|done]. subst c. cbn [fst snd] in Hr.
  destruct (run 10 _ _) as [[[[i2 c]|x] w2]|] eqn:Hr2; [|done..].
  apply (run_mono _ (n + 10)) in Hr; [|lia]. apply (run_mono _ (n + 10)) in Hr2; [|lia].
  rewrite Hr in Hr2. injection Hr2 as <- <- <-. by right.
Qed.

(** C31. The identity a process reads through its cache is the one it would read
    afresh, through any number of forks; and as long as the process shows in the
    process table nobody takes it for dead. *)
Theorem self_identity_cached es o (m : L → Z) ws :
  let '(o', (pid, starttime)) := foldl (λ s e, happens e s) (o, (0, 0)) es in
  (∃ t, os_procs o' (os_pid o') = Some (t, false)) →
  returns (cached <- self_identity pid starttime ;;
           fresh <- self_identity_uncached ;;
           dead <- owner_is_dead (self_pid cached.1) (self_starttime cached.1) ;;
           Ret (cached.1, fresh, dead)) (World m o' ws)
    (λ '(cached, fresh, dead) _, cached = fresh ∧ dead = false).
Proof.
  assert (∀ s, coherent s → coherent (foldl (λ s e, happens e s) s es)) as Hall.
  { induction es as [|e es IH]; intros s Hs; [done|]. apply IH. by apply happens_coherent. }
  specialize (Hall (o, (0, 0)) ltac:(by left)). destruct (foldl _ _ es) as [o' [pid starttime]].
  intros [t Ht]. step. apply (returns_self_identity_cached o' (pid, starttime)); [done|].
  step. apply returns_self_identity. step. apply returns_owner_is_dead. step. split; [done|].
  unfold dead_verdict. cbn. rewrite Ht. unfold starttime_of. rewrite Ht. cbn. destruct (os_pid o' =? 0); cbn; [done|].
  by rewrite Z.eqb_refl, andb_false_r.
Qed.
End spec.

(** A process that forks twice, and asks in between. *)
Lemma self_identity_cached_witness :
  let procs := λ pid, Some (pid * 100, false) in
  let s := foldl (λ s e, happens (L := nat) e s) (Os 0 1 0 5 procs 0, (0, 0)) [Asks; Forks 6; Forks 7; Asks; Asks] in
  s.2 = (7, 700) ∧
  returns (cached <- self_identity (L := nat) 7 700 ;;
           fresh <- self_identity_uncached ;;
           dead <- owner_is_dead (self_pid cached.1) (self_starttime cached.1) ;;
           Ret (cached.1, fresh, dead)) (World (λ _, 0) s.1 [])
    (λ '(cached, fresh, dead) _, cached = fresh ∧ dead = false).
Proof.
  cbn zeta. set (procs := λ pid, Some (pid * 100, false)).
  pose proof (self_identity_cached (L := nat) [Asks; Forks 6; Forks 7; Asks; Asks] (Os 0 1 0 5 procs 0) (λ _, 0) []) as Hall.
  destruct (foldl _ _ _) as [o' [pid starttime]] eqn:E. vm_compute in E. injection E as <- <- <-.
  split; [done|]. apply Hall. by eexists.
Defined.
End Process.
