(* ===== verification/Pool.v ===== *)
(** * The slot pool and the ring-entry primitives ([src/types.cc])

    The Treiber free-stack of pool slots threaded through [next_free], with a
    generation-tagged head; [clear_owner]; [entry_steal_and_skip].  Locations
    are those of [Layout.v]. *)

From S2P Require Import Prelude Prog Types Layout.
Import Types Layout.

Abbreviation rprog A := (prog loc A).

Module Pool.
Definition treiber_push (slot_idx : Z) : rprog unit :=
  old_top <- load (Hdr free_top) ;;
  loop old_top (λ old_top,
    store (Slot slot_idx next_free) (tagged_idx old_top) ;;
    let new_top := tagged_pack (u32 (tagged_gen old_top + 1)) slot_idx in
    '(ok, current) <- compare_exchange_weak (Hdr free_top) old_top new_top ;;
    if ok : bool then Ret (inr tt) else Ret (inl current)).

Definition treiber_pop (pool_size : Z) : rprog Z :=
  old_top <- load (Hdr free_top) ;;
  loop old_top (λ old_top,
    let idx := tagged_idx old_top in
    if idx =? INVALID_SLOT then Ret (inr INVALID_SLOT)
    else if pool_size <=? idx then Ret (inr INVALID_SLOT)
    else
      next <- load (Slot idx next_free) ;;
      let new_top := tagged_pack (u32 (tagged_gen old_top + 1)) next in
      '(ok, current) <- compare_exchange_weak (Hdr free_top) old_top new_top ;;
      if ok : bool then Ret (inr idx) else Ret (inl current)).

(** Drop one reference, and return the slot to the pool with the last one. *)
Definition drop_reference (slot_idx : Z) : rprog unit :=
  prev <- fetch_sub u32 (Slot slot_idx refcount) 1 ;;
  when (prev =? 1) (treiber_push slot_idx).

Definition clear_owner (i : Z) : rprog unit :=
  store (Ring i has_waiter) ring.WaiterNone ;;
  store (Ring i owner_pid) 0 ;;
  store (Ring i owner_starttime) 0.

Definition entry_steal_and_skip (i idx pos observed : Z) : rprog bool :=
  '(ok, _) <- compare_exchange_strong (Ent i idx sequence) observed (seq_repair pos) ;;
  if negb ok then Ret false
  else
    store (Ent i idx sequence) (seq_skip pos) ;;
    Ret true.

(** ** The free list *)

(** The slots linked from [idx], ending at [INVALID_SLOT]. *)
Fixpoint chain (m : loc → Z) (idx : Z) (fl : list Z) : Prop :=
  match fl with
  | [] => idx = INVALID_SLOT
  | s :: fl => idx = s ∧ chain m (m (Slot s next_free)) fl
  end.

(** The free stack of a memory is [fl], top first. *)
Record free_list (pool_size : Z) (m : loc → Z) (fl : list Z) : Prop := {
  fl_chain : chain m (tagged_idx (m (Hdr free_top))) fl;
  fl_nodup : NoDup fl;
  fl_range : Forall (λ s, 0 <= s < pool_size) fl;
}.

(** The memory a push and a pop leave. *)
Definition next_gen (m : loc → Z) : Z := u32 (tagged_gen (m (Hdr free_top)) + 1).
Definition pushed (m : loc → Z) (s : Z) : loc → Z :=
  <[Hdr free_top := tagged_pack (next_gen m) s]>
    (<[Slot s next_free := tagged_idx (m (Hdr free_top))]> m).
Definition popped (m : loc → Z) (s : Z) : loc → Z :=
  <[Hdr free_top := tagged_pack (next_gen m) (m (Slot s next_free))]> m.

Lemma next_gen_range m : is_u32 (next_gen m).
Proof. apply u32_range. Qed.

Lemma chain_upd m l v idx fl :
  Forall (λ s, l ≠ Slot s next_free) fl → chain m idx fl → chain (<[l:=v]> m) idx fl.
Proof.
  revert idx. induction fl as [|s fl IH]; intros idx Hl Hc; [done|].
  inversion Hl; subst. destruct Hc as [-> Hc]. split; [done|]. rewrite upd_ne by done. auto.
Qed.

Lemma chain_head m idx fl : chain m idx fl → idx = match fl with [] => INVALID_SLOT | s :: _ => s end.
Proof. destruct fl; [done|]. by intros [-> _]. Qed.

Section spec.
Context (n : Z) (Hn : n <= MAX_POOL_SIZE).
Implicit Types (m : loc → Z) (fl : list Z).

Lemma slot_u32 s : 0 <= s < n → is_u32 s.
Proof using Hn. change MAX_POOL_SIZE with 16777214 in Hn. unfold is_u32. lia. Qed.

Lemma free_list_upd m fl l v :
  l ≠ Hdr free_top → (∀ s, s ∈ fl → l ≠ Slot s next_free) →
  free_list n m fl → free_list n (<[l:=v]> m) fl.
Proof.
  intros Ht Hs []. split; [|done|done]. rewrite upd_ne by done.
  apply chain_upd; [|done]. by apply Forall_forall.
Qed.

Lemma free_list_pushed m fl s :
  free_list n m fl → 0 <= s < n → s ∉ fl → free_list n (pushed m s) (s :: fl).
Proof using Hn.
  intros [Hc Hnd Hr] Hs Hfresh. split; [|by constructor|by constructor].
  unfold pushed. rewrite upd_same, tagged_idx_pack by (apply next_gen_range || by apply slot_u32).
  split; [done|]. rewrite upd_ne, upd_same by done.
  apply chain_upd; [by apply Forall_true|]. apply chain_upd; [|done].
  apply Forall_forall. intros s' Hs' [= ->]. done.
Qed.

Lemma chain_next_u32 m s fl :
  Forall (λ s, 0 <= s < n) fl → chain m (m (Slot s next_free)) fl → is_u32 (m (Slot s next_free)).
Proof using Hn.
  intros Hr Hc. rewrite (chain_head _ _ _ Hc). destruct fl as [|s' fl].
  - unfold is_u32, INVALID_SLOT. lia.
  - inversion Hr; subst. by apply slot_u32.
Qed.

Lemma free_list_popped m fl s : free_list n m (s :: fl) → free_list n (popped m s) fl.
Proof using Hn.
  intros [Hc Hnd Hr]. inversion Hnd; inversion Hr; subst. destruct Hc as [_ Hc].
  split; [|done|done]. unfold popped.
  rewrite upd_same, tagged_idx_pack by (apply next_gen_range || by eapply chain_next_u32).
  apply chain_upd; [by apply Forall_true|done].
Qed.

Lemma returns_treiber_push s m o ws (Q : unit → world loc → Prop) :
  Q tt (World (pushed m s) o ws) → returns (treiber_push s) (World m o ws) Q.
Proof.
  intros HQ. unfold treiber_push. do 5 step. step.
  step; [|by rewrite upd_ne in *].
  step. exact HQ.
Qed.

Lemma returns_treiber_pop m fl o ws (Q : Z → world loc → Prop) :
  free_list n m fl →
  Q (match fl with [] => INVALID_SLOT | s :: _ => s end)
    (World (match fl with [] => m | s :: _ => popped m s end) o ws) →
  returns (treiber_pop n) (World m o ws) Q.
Proof using Hn.
  intros [Hc _ Hr] HQ. unfold treiber_pop. do 3 step. rewrite (chain_head _ _ _ Hc).
  destruct fl as [|s fl].
  - rewrite Z.eqb_refl. by step.
  - inversion Hr; subst. assert (s < INVALID_SLOT) by (change MAX_POOL_SIZE with 16777214 in Hn; unfold INVALID_SLOT; lia).
    rewrite (proj2 (Z.eqb_neq s _)) by lia. rewrite (proj2 (Z.leb_gt _ _)) by lia.
    do 4 step. by step.
Qed.
End spec.
End Pool.
