(* ===== verification/Slots.v ===== *)
(** * Slot accounting: the abstract state of the pool

    Every slot of the pool is free (on the free stack), reserved by a publisher
    (popped, not yet published), or referenced; its reference count is the
    number of ring entries that claim it plus the references processes hold (a
    publisher in the middle of [publish], a [SampleView]).  [slots_ok] states
    this of a memory; the lemmas are its preservation by each atomic move of a
    reference, and the operations of [Publisher], [Subscriber] and [Region] are
    proved against them. *)

From S2P Require Import Prelude Prog Types Layout Pool.
Import Types Layout Pool.

Module Slots.
(** The claim words of a region. *)
Definition entry_metas (g : Geometry) : list loc :=
  i ← upto (max_subs g); idx ← upto (sub_ring_capacity g); [Ent i idx meta].

(** 1 when claim word [w] names slot [s]. *)
Definition names (w s : Z) : Z := if meta_slot_biased w =? s + 1 then 1 else 0.

(** The entries that claim [s]. *)
Definition claims (g : Geometry) (m : loc → Z) (s : Z) : Z :=
  total (λ l, names (m l) s) (entry_metas g).

(** [pins s]: references to [s] held by processes.  [fl]: the free stack.
    [res]: the slots reserved by publishers. *)
Record slots_ok (g : Geometry) (m : loc → Z) (pins : Z → Z) (fl res : list Z) : Prop := {
  so_free : free_list (pool_size g) m fl;
  so_res_nodup : NoDup res;
  so_res : ∀ s, s ∈ res → 0 <= s < pool_size g ∧ s ∉ fl;
  so_ref : ∀ s, 0 <= s < pool_size g →
    m (Slot s refcount) = claims g m s + pins s ∧ 0 <= pins s ∧ claims g m s + pins s <= U32_MAX;
  so_idle : ∀ s, 0 <= s < pool_size g → (m (Slot s refcount) = 0 ↔ s ∈ fl ∨ s ∈ res)
}.

(** A region at rest: every slot is free, or referenced by ring entries only. *)
Definition at_rest (g : Geometry) (m : loc → Z) : Prop := ∃ fl, slots_ok g m (λ _, 0) fl [].

(** The counts matter pointwise, the reserved slots up to order. *)
#[export] Instance slots_ok_proper g m : Proper (pointwise_relation Z eq ==> eq ==> (≡ₚ) ==> iff) (slots_ok g m).
Proof.
  assert (∀ pins1 pins2 fl res1 res2, pointwise_relation Z eq pins1 pins2 → res1 ≡ₚ res2 →
    slots_ok g m pins1 fl res1 → slots_ok g m pins2 fl res2) as Hone.
  { intros pins1 pins2 fl res1 res2 Hp Hres [Hf Hnd Hr Hc Hi]. split.
    - done.
    - by rewrite <- Hres.
    - intros s. rewrite <- Hres. auto.
    - intros s Hs. rewrite <- (Hp s). auto.
    - intros s Hs. rewrite <- Hres. auto. }
  intros p1 p2 Hp fl ? <- r1 r2 Hr. split; by apply Hone.
Qed.

(** The parts of a geometry the accounting relies on. *)
Record pool_geometry (g : Geometry) : Prop := {
  pg_pool : pool_size g <= MAX_POOL_SIZE;
  pg_subs : 1 <= max_subs g <= MAX_SUBSCRIBERS;
  pg_capacity : is_power_of_two (sub_ring_capacity g) = true;
  pg_capacity_u64 : is_u64 (sub_ring_capacity g);
  pg_mask : sub_ring_mask g = sub_ring_capacity g - 1
}.

Lemma pool_geometry_ok g n size : geometry_ok g n size → pool_geometry g.
Proof. intros []. constructor; try done; tauto || lia. Qed.

Lemma capacity_pos g : pool_geometry g → 0 < sub_ring_capacity g.
Proof.
  intros [_ _ Hp Hw _]. destruct (is_power_of_two_exists _ Hw Hp) as (k & ? & ->). lia.
Qed.

(** The mask takes a position to its entry. *)
Lemma entry_of_pos g pos : pool_geometry g → Z.land pos (sub_ring_mask g) = pos `mod` sub_ring_capacity g.
Proof. intros [_ _ Hp Hw ->]. by apply land_pow2_mask. Qed.

Lemma entry_index g pos :
  pool_geometry g → 0 <= Z.land pos (sub_ring_mask g) < sub_ring_capacity g.
Proof. intros Hg. rewrite entry_of_pos by done. apply Z.mod_pos_bound. by apply capacity_pos. Qed.

(** ** Claims *)

Lemma elem_of_entry_metas g l :
  l ∈ entry_metas g ↔ ∃ i idx, l = Ent i idx meta ∧ 0 <= i < max_subs g ∧
    0 <= idx < sub_ring_capacity g.
Proof.
  unfold entry_metas. setoid_rewrite list_elem_of_bind. setoid_rewrite list_elem_of_bind.
  setoid_rewrite elem_of_upto. setoid_rewrite list_elem_of_singleton. naive_solver.
Qed.

Lemma NoDup_entry_metas g : NoDup (entry_metas g).
Proof.
  unfold entry_metas. apply NoDup_bind; [..|apply NoDup_upto].
  - intros i j l Hi Hj. setoid_rewrite list_elem_of_bind. setoid_rewrite list_elem_of_singleton.
    intros (? & -> & _) (? & [= -> ->] & _). done.
  - intros i _. apply NoDup_bind; [..|apply NoDup_upto].
    + intros x y l _ _. rewrite !list_elem_of_singleton. intros -> [= ->]. done.
    + intros. apply NoDup_singleton.
Qed.

Lemma names_range w s : 0 <= names w s <= 1.
Proof. unfold names. destruct (_ =? _); lia. Qed.

Lemma claims_nonneg g m s : 0 <= claims g m s.
Proof. apply total_nonneg. intros. apply names_range. Qed.

Lemma claims_ext g m m' s : (∀ i idx, m' (Ent i idx meta) = m (Ent i idx meta)) →
  claims g m' s = claims g m s.
Proof.
  intros Hm. apply total_ext. intros l (i & idx & -> & _)%elem_of_entry_metas. by rewrite Hm.
Qed.

Lemma claims_upd_meta g m i idx w s :
  0 <= i < max_subs g → 0 <= idx < sub_ring_capacity g →
  claims g (<[Ent i idx meta := w]> m) s =
  claims g m s - names (m (Ent i idx meta)) s + names w s.
Proof.
  intros Hi Hidx. unfold claims.
  rewrite (total_change (λ l, names (m l) s) _ (Ent i idx meta)).
  - by rewrite upd_same.
  - apply NoDup_entry_metas.
  - apply elem_of_entry_metas. eauto 6.
  - intros l _ Hl. by rewrite upd_ne by congruence.
Qed.

(** ** Locations the accounting does not read *)

Definition accounted (l : loc) : bool :=
  match l with
  | Hdr free_top => true
  | Ent _ _ meta => true
  | Slot _ refcount | Slot _ next_free => true
  | _ => false
  end.

Lemma accounted_ne l l' : accounted l = false → accounted l' = true → l ≠ l'.
Proof. congruence. Qed.

Section moves.
Context (g : Geometry) (Hg : pool_geometry g).
Implicit Types (m : loc → Z) (pins : Z → Z) (fl res : list Z).

Lemma pool_bound : pool_size g <= MAX_POOL_SIZE.
Proof using Hg. by destruct Hg. Qed.

Lemma slots_ok_other m pins fl res l v :
  accounted l = false → slots_ok g m pins fl res → slots_ok g (<[l:=v]> m) pins fl res.
Proof.
  intros Hl []. pose proof (accounted_ne l) as Hne.
  assert (∀ s, claims g (<[l:=v]> m) s = claims g m s) as Hc.
  { intros s. apply claims_ext. intros. apply upd_ne. auto. }
  split; try done.
  - apply free_list_upd; auto.
  - intros s Hs. rewrite upd_ne by auto. rewrite Hc. auto.
  - intros s Hs. rewrite upd_ne by auto. auto.
Qed.

(** The accounting only reads accounted locations. *)
Lemma slots_ok_accounted m m' pins fl res :
  (∀ l, accounted l = true → m' l = m l) → slots_ok g m pins fl res → slots_ok g m' pins fl res.
Proof using Type.
  clear Hg. intros Hm [[Hch ? ?] ? ? Hc Hi].
  assert (∀ s, claims g m' s = claims g m s) as Hcl by (intros; apply claims_ext; intros; by apply Hm).
  split; try done.
  - split; try done. rewrite Hm by done. clear -Hm Hch. revert Hch.
    generalize (tagged_idx (m (Hdr free_top))). induction fl as [|s fl IH]; intros idx; [done|].
    intros [-> Hch]. split; [done|]. rewrite Hm by done. auto.
  - intros s Hs. rewrite Hm, Hcl by done. auto.
  - intros s Hs. rewrite Hm by done. auto.
Qed.

(** A claim word other than the slot field may change freely. *)
Lemma slots_ok_pins m pins pins' fl res :
  (∀ s, 0 <= s < pool_size g → pins' s = pins s) →
  slots_ok g m pins fl res → slots_ok g m pins' fl res.
Proof. intros Hp []. split; try done. intros s Hs. rewrite Hp by done. auto. Qed.

(** Reserved slots carry no references. *)
Lemma slots_ok_idle m pins fl res s :
  slots_ok g m pins fl res → 0 <= s < pool_size g → s ∈ fl ∨ s ∈ res →
  claims g m s = 0 ∧ pins s = 0.
Proof.
  intros [] Hs Hin. pose proof (claims_nonneg g m s). destruct (so_ref0 s Hs) as (? & ? & ?).
  apply so_idle0 in Hin; [|done]. lia.
Qed.

(** *** Popping and pushing *)

Lemma slots_ok_pop m pins fl res s :
  slots_ok g m pins (s :: fl) res → slots_ok g (popped m s) pins fl (s :: res).
Proof using Hg.
  intros [Hf Hnd Hr Hc Hi]. pose proof (fl_nodup _ _ _ Hf) as Hndf.
  pose proof (fl_range _ _ _ Hf) as Hrf. apply NoDup_cons in Hndf as [Hsf Hndf].
  inversion Hrf as [|?? Hs Hrf']; subst.
  assert (∀ l, l ≠ Hdr free_top → popped m s l = m l) as Hm by (intros; by apply upd_ne).
  assert (∀ t, claims g (popped m s) t = claims g m t) as Hcl.
  { intros. apply claims_ext. intros. by apply Hm. }
  split.
  - eapply free_list_popped; [apply pool_bound|done].
  - apply NoDup_cons. split; [|done]. intros Hin. apply Hr in Hin as [_ Hin]. set_solver.
  - intros t [->|Ht]%elem_of_cons; [done|]. apply Hr in Ht. set_solver.
  - intros t Ht. rewrite Hm, Hcl by done. auto.
  - intros t Ht. rewrite Hm, Hi by done. set_solver.
Qed.

Lemma slots_ok_push m pins fl res s :
  slots_ok g m pins fl (s :: res) → slots_ok g (pushed m s) pins (s :: fl) res.
Proof using Hg.
  intros [Hf Hnd Hr Hc Hi]. apply NoDup_cons in Hnd as [Hsr Hnd].
  destruct (Hr s) as [Hs Hsf]; [set_solver|].
  assert (∀ l, l ≠ Hdr free_top → (∀ t, l ≠ Slot t next_free) → pushed m s l = m l) as Hm.
  { intros l ? Hl. unfold pushed. by rewrite !upd_ne by (congruence || apply not_eq_sym, Hl). }
  assert (∀ t, claims g (pushed m s) t = claims g m t) as Hcl.
  { intros. apply claims_ext. intros. by apply Hm. }
  split.
  - apply free_list_pushed; auto using pool_bound.
  - done.
  - intros t Ht. destruct (Hr t) as [? ?]; [set_solver|]. split; [done|].
    intros [->|?]%elem_of_cons; auto.
  - intros t Ht. rewrite Hm, Hcl by done. auto.
  - intros t Ht. rewrite Hm, Hi by done. set_solver.
Qed.

(** Linking a slot that is not on the stack. *)
Lemma slots_ok_link m pins fl res s v :
  slots_ok g m pins fl res → s ∈ res → slots_ok g (<[Slot s next_free := v]> m) pins fl res.
Proof.
  intros [Hf Hnd Hr Hc Hi] Hs. destruct (Hr s Hs) as [_ Hfl].
  assert (∀ t, claims g (<[Slot s next_free := v]> m) t = claims g m t) as Hcl.
  { intros. apply claims_ext. intros. by apply upd_ne. }
  split; [|done|done| |].
  - apply free_list_upd; [done| |done]. intros s' Hs' [= ->]. done.
  - intros t Ht. rewrite upd_ne, Hcl by done. auto.
  - intros t Ht. rewrite upd_ne by done. auto.
Qed.

(** *** References *)

(** [publish] turns a reservation into [k] references. *)
Lemma slots_ok_preset m pins fl res s k :
  slots_ok g m pins fl (s :: res) → 1 <= k <= U32_MAX →
  slots_ok g (<[Slot s refcount := k]> m) (<[s := k]> pins) fl res.
Proof using Type.
  clear Hg.
  intros H Hk. pose proof H as [Hf Hnd Hr Hc Hi]. apply NoDup_cons in Hnd as [Hsr Hnd].
  destruct (Hr s) as [Hs Hsf]; [set_solver|].
  destruct (slots_ok_idle _ _ _ _ s H Hs) as [Hc0 _]; [set_solver|].
  assert (∀ t, claims g (<[Slot s refcount := k]> m) t = claims g m t) as Hcl.
  { intros. apply claims_ext. intros. by apply upd_ne. }
  split; [by apply free_list_upd|done| | |].
  - intros t Ht. apply Hr. set_solver.
  - intros t Ht. rewrite Hcl. destruct (decide (t = s)) as [->|Hne].
    + rewrite upd_same, fn_lookup_insert. lia.
    + rewrite upd_ne, fn_lookup_insert_ne by congruence. auto.
  - intros t Ht. destruct (decide (t = s)) as [->|Hne].
    + rewrite upd_same. split; [lia|]. intros [?|?]; done.
    + rewrite upd_ne by congruence. rewrite Hi by done. set_solver.
Qed.

(** Dropping [k] references that are not the last. *)
Lemma slots_ok_drop_some m pins fl res s k :
  slots_ok g m pins fl res → 0 <= s < pool_size g → 0 <= k <= pins s →
  k < m (Slot s refcount) →
  slots_ok g (<[Slot s refcount := m (Slot s refcount) - k]> m) (<[s := pins s - k]> pins) fl res.
Proof.
  intros [Hf Hnd Hr Hc Hi] Hs Hk Hlt.
  assert (∀ t, claims g (<[Slot s refcount := m (Slot s refcount) - k]> m) t = claims g m t) as Hcl.
  { intros. apply claims_ext. intros. by apply upd_ne. }
  split; [by apply free_list_upd|done|done| |].
  - intros t Ht. rewrite Hcl. destruct (Hc s Hs) as (? & ? & ?). destruct (decide (t = s)) as [->|Hne].
    + rewrite upd_same, fn_lookup_insert. lia.
    + rewrite upd_ne, fn_lookup_insert_ne by congruence. auto.
  - intros t Ht. destruct (decide (t = s)) as [->|Hne].
    + rewrite upd_same. rewrite <- Hi by done. lia.
    + rewrite upd_ne by congruence. auto.
Qed.

(** Dropping the last [k] references makes a slot nobody else knows. *)
Lemma slots_ok_drop_last m pins fl res s k :
  slots_ok g m pins fl res → 0 <= s < pool_size g → 1 <= k <= pins s →
  m (Slot s refcount) = k →
  slots_ok g (<[Slot s refcount := 0]> m) (<[s := 0]> pins) fl (s :: res).
Proof using Type.
  clear Hg.
  intros [Hf Hnd Hr Hc Hi] Hs Hk Heq.
  assert (∀ t, claims g (<[Slot s refcount := 0]> m) t = claims g m t) as Hcl.
  { intros. apply claims_ext. intros. by apply upd_ne. }
  pose proof (claims_nonneg g m s). destruct (Hc s Hs) as (? & ? & ?).
  assert (¬ (s ∈ fl ∨ s ∈ res)) as Hout by (rewrite <- Hi by done; lia).
  split; [by apply free_list_upd| | | |].
  - apply NoDup_cons. naive_solver.
  - intros t [->|Ht]%elem_of_cons; naive_solver.
  - intros t Ht. rewrite Hcl. destruct (decide (t = s)) as [->|Hne].
    + rewrite upd_same, fn_lookup_insert. lia.
    + rewrite upd_ne, fn_lookup_insert_ne by congruence. auto.
  - intros t Ht. destruct (decide (t = s)) as [->|Hne].
    + rewrite upd_same. set_solver.
    + rewrite upd_ne, Hi by congruence. set_solver.
Qed.

(** A reference moves into an entry, whose old claim moves out. *)
Lemma slots_ok_transfer m pins fl res i idx w :
  slots_ok g m pins fl res → 0 <= i < max_subs g → 0 <= idx < sub_ring_capacity g →
  (∀ s, 0 <= s < pool_size g → names w s <= pins s) →
  slots_ok g (<[Ent i idx meta := w]> m)
    (λ s, pins s + names (m (Ent i idx meta)) s - names w s) fl res.
Proof.
  intros [Hf Hnd Hr Hc Hi] Hri Hidx Hw.
  split; [by apply free_list_upd|done|done| |].
  - intros t Ht. rewrite upd_ne, claims_upd_meta by done.
    destruct (Hc t Ht) as (? & ? & ?). pose proof (Hw t Ht).
    pose proof (names_range (m (Ent i idx meta)) t). pose proof (names_range w t). lia.
  - intros t Ht. rewrite upd_ne by done. auto.
Qed.

(** A reader takes one more reference. *)
Lemma slots_ok_pin m pins fl res s :
  slots_ok g m pins fl res → 0 <= s < pool_size g →
  0 < m (Slot s refcount) → m (Slot s refcount) <> U32_MAX →
  slots_ok g (<[Slot s refcount := m (Slot s refcount) + 1]> m) (<[s := pins s + 1]> pins) fl res.
Proof.
  intros [Hf Hnd Hr Hc Hi] Hs Hpos Hmax.
  assert (∀ t, claims g (<[Slot s refcount := m (Slot s refcount) + 1]> m) t = claims g m t) as Hcl.
  { intros. apply claims_ext. intros. by apply upd_ne. }
  split; [by apply free_list_upd|done|done| |].
  - intros t Ht. rewrite Hcl. destruct (Hc s Hs) as (? & ? & ?). destruct (decide (t = s)) as [->|Hne].
    + rewrite upd_same, fn_lookup_insert. lia.
    + rewrite upd_ne, fn_lookup_insert_ne by congruence. auto.
  - intros t Ht. destruct (decide (t = s)) as [->|Hne].
    + rewrite upd_same. rewrite <- Hi by done. lia.
    + rewrite upd_ne by congruence. auto.
Qed.

(** *** The operations that move references *)

(** Nothing changed but the free stack and reference counts. *)
Definition pool_loc (l : loc) : bool :=
  match l with
  | Hdr free_top => true
  | Slot _ refcount | Slot _ next_free => true
  | _ => false
  end.
Definition pool_frame m m' : Prop := ∀ l, pool_loc l = false → m' l = m l.

Lemma pool_frame_refl m : pool_frame m m.
Proof. done. Qed.
Lemma pool_frame_trans m1 m2 m3 : pool_frame m1 m2 → pool_frame m2 m3 → pool_frame m1 m3.
Proof. intros H1 H2 l Hl. rewrite H2, H1; auto. Qed.
Lemma pool_frame_upd m l v : pool_loc l = true → pool_frame m (<[l:=v]> m).
Proof. intros Hl l' Hl'. apply upd_ne. congruence. Qed.
Lemma pool_frame_pushed m s : pool_frame m (pushed m s).
Proof. intros l Hl. unfold pushed. rewrite !upd_ne; [done|intros <-; discriminate..]. Qed.
Lemma pool_frame_popped m s : pool_frame m (popped m s).
Proof. intros l Hl. unfold popped. rewrite upd_ne; [done|intros <-; discriminate]. Qed.

(** Drop [k] references; the last one returns the slot to the pool. *)
Lemma returns_drop_references m pins fl res s k o ws (Q : unit → world loc → Prop) :
  slots_ok g m pins fl res → 0 <= s < pool_size g → 1 <= k <= pins s →
  (∀ m' fl', slots_ok g m' (<[s := pins s - k]> pins) fl' res → pool_frame m m' →
     (∀ t, m' (Slot t refcount) = if decide (s = t) then m (Slot t refcount) - k else m (Slot t refcount)) →
     Q tt (World m' o ws)) →
  returns (prev <- fetch_sub u32 (Slot s refcount) k ;; when (prev =? k) (treiber_push s))
    (World m o ws) Q.
Proof using Hg.
  intros Hok Hs Hk HQ. destruct (so_ref _ _ _ _ _ Hok s Hs) as (Hrc & ? & Hmax).
  pose proof (claims_nonneg g m s).
  assert (is_u32 (m (Slot s refcount) - k)) as Hw by (unfold is_u32; lia).
  do 2 step. rewrite (u32_small _ Hw). step.
  - assert (m (Slot s refcount) = k) as Heq by lia. apply returns_treiber_push.
    replace (m (Slot s refcount) - k) with 0 by lia.
    eapply HQ.
    + apply slots_ok_push. replace (pins s - k) with 0 by lia.
      by eapply slots_ok_drop_last.
    + eapply pool_frame_trans; [|apply pool_frame_pushed]. by apply pool_frame_upd.
    + intros t. unfold pushed. rewrite !(upd_ne _ _ (Slot t refcount)) by done. rewrite upd_dec.
      destruct (decide (s = t)) as [->|Hne]; [rewrite decide_True by done; lia|by rewrite decide_False by congruence].
  - eapply HQ; [|by apply pool_frame_upd|].
    + apply slots_ok_drop_some; [done|done|lia|lia].
    + intros t. rewrite upd_dec.
      destruct (decide (s = t)) as [->|Hne]; [by rewrite decide_True|by rewrite decide_False by congruence].
Qed.

Lemma returns_drop_reference m pins fl res s o ws (Q : unit → world loc → Prop) :
  slots_ok g m pins fl res → 0 <= s < pool_size g → 1 <= pins s →
  (∀ m' fl', slots_ok g m' (<[s := pins s - 1]> pins) fl' res → pool_frame m m' →
     (∀ t, m' (Slot t refcount) = if decide (s = t) then m (Slot t refcount) - 1 else m (Slot t refcount)) →
     Q tt (World m' o ws)) →
  returns (drop_reference s) (World m o ws) Q.
Proof using Hg. intros. eapply returns_drop_references; [done|done|lia|done]. Qed.

Lemma returns_push_reserved m pins fl res s o ws (Q : unit → world loc → Prop) :
  slots_ok g m pins fl (s :: res) →
  (∀ m', slots_ok g m' pins (s :: fl) res → pool_frame m m' → Q tt (World m' o ws)) →
  returns (treiber_push s) (World m o ws) Q.
Proof using Hg.
  intros Hok HQ. apply returns_treiber_push. apply HQ.
  - by apply slots_ok_push.
  - apply pool_frame_pushed.
Qed.

Lemma returns_pop_reserve m pins fl res o ws (Q : Z → world loc → Prop) :
  slots_ok g m pins fl res →
  (fl = [] → Q INVALID_SLOT (World m o ws)) →
  (∀ s fl' m', fl = s :: fl' → slots_ok g m' pins fl' (s :: res) → pool_frame m m' →
     0 <= s < pool_size g → Q s (World m' o ws)) →
  returns (treiber_pop (pool_size g)) (World m o ws) Q.
Proof using Hg.
  intros Hok Hnil Hcons. eapply returns_treiber_pop; [apply pool_bound|apply Hok|].
  destruct fl as [|s fl]; [by apply Hnil|]. eapply Hcons; [done| | |].
  - by apply slots_ok_pop.
  - apply pool_frame_popped.
  - pose proof (fl_range _ _ _ (so_free _ _ _ _ _ Hok)) as Hr. by inversion Hr.
Qed.
End moves.

(** ** A small region

    Two slots, two rings of two entries: the region the examples run on. *)

Definition tiny : Geometry := {|
  sub_rings_offset := 896; sub_ring_stride := 192; sub_ring_capacity := 2; sub_ring_mask := 1;
  pool_offset := 1280; slot_stride := 64; pool_size := 2; slot_data_size := 8; max_subs := 2;
  commit_timeout_us := 10000; schema_blob_offset := 832; schema_blob_capacity := 0 |}.

Lemma tiny_geometry : pool_geometry tiny.
Proof. by repeat split. Qed.

(** Both slots free, both rings free and empty. *)
Definition tiny_mem : loc → Z := λ l,
  match l with
  | Slot 0 next_free => 1
  | Slot 1 next_free => INVALID_SLOT
  | _ => 0
  end.

Lemma tiny_free : slots_ok tiny tiny_mem (λ _, 0) [0; 1] [].
Proof.
  assert (∀ s, 0 <= s < pool_size tiny → s = 0 ∨ s = 1) as Htwo by (cbn; lia).
  split.
  - split; [by repeat split|by apply (bool_decide_unpack _)|by repeat constructor].
  - constructor.
  - set_solver.
  - by intros s [-> | ->]%Htwo.
  - intros s [-> | ->]%Htwo; set_solver.
Qed.

Lemma tiny_at_rest : at_rest tiny tiny_mem.
Proof. exists [0; 1]. apply tiny_free. Qed.
End Slots.
