(* ===== verification/Region.v ===== *)
(** * The shared region ([src/Region.cc], [include/kickmsg/Region.h])

    Creating and opening a region, its schema slot, the recovery passes and the
    read-only reports.  The pure part of the file (configuration checks, layout
    arithmetic, geometry validation) is in [Layout.v]. *)

From S2P Require Import Prelude Prog Types Layout Words Shm Process Pool.
Import Types Layout Pool.

Module Region.
Record region := {
  shm_is_open : bool;
  name_ : list Z;
  base_ : bool;          (** the mapping pointer is not null *)
  size_ : Z;
  geometry_ : Geometry
}.

Definition null_geometry : Geometry := {|
  sub_rings_offset := 0; sub_ring_stride := 0; sub_ring_capacity := 0; sub_ring_mask := 0;
  pool_offset := 0; slot_stride := 0; pool_size := 0; slot_data_size := 0; max_subs := 0;
  commit_timeout_us := 0; schema_blob_offset := 0; schema_blob_capacity := 0 |}.

(** The new region and the moved-from one. *)
Definition region_move (other : region) : region * region :=
  (other, {| shm_is_open := false; name_ := []; base_ := false; size_ := 0;
             geometry_ := null_geometry |}).

(** ** Stamping *)

(** Every location of a region, in address order. *)
Definition hfields : list hfield :=
  [magic; h_version; h_channel_type; h_total_size; h_sub_rings_offset; h_pool_offset;
   h_max_subs; h_sub_ring_capacity; h_sub_ring_mask; h_pool_size; h_slot_data_size;
   h_slot_stride; h_sub_ring_stride; h_schema_blob_offset; h_schema_blob_capacity;
   h_commit_timeout_us; h_config_hash; h_creator_pid; h_created_at_ns; h_creator_name_len;
   schema_state; free_top; steal_count; identity_hash].
Definition rfields : list rfield :=
  [state_flight; owner_pid; owner_starttime; write_pos; has_waiter; dropped_count; lost_count].

Definition ring_locs (g : Geometry) (i : Z) : list loc :=
  map (Ring i) rfields ++
  (idx ← upto (sub_ring_capacity g); [Ent i idx sequence; Ent i idx meta]).
Definition slot_locs (g : Geometry) (s : Z) : list loc :=
  [Slot s refcount; Slot s next_free; Slot s payload_len] ++
  map (SlotByte s) (upto (slot_data_size g)).
Definition region_locs (g : Geometry) : list loc :=
  map Hdr hfields ++ map SchemaByte (upto SCHEMA_INFO_SIZE) ++
  map NameByte (upto (schema_blob_offset g - SIZEOF_HEADER)) ++
  map BlobByte (upto (schema_blob_capacity g)) ++
  (i ← upto (max_subs g); ring_locs g i) ++
  (s ← upto (pool_size g); slot_locs g s).

(** The descriptor as it is stored: the blob's length, reserved bytes zeroed. *)
Definition stamped_schema (s : SchemaInfo) (blob : list Z) : SchemaInfo := {|
  identity := identity s; layout := layout s; name := name s; version := version s;
  identity_algo := identity_algo s; layout_algo := layout_algo s; flags := flags s;
  blob_hash := blob_hash s; blob_size := u32 (Z.of_nat (length blob));
  blob_algo := blob_algo s; reserved := replicate 168 0 |}.

Definition stamp_header (type : Z) (cfg : channel.Config) (creator_name : list Z)
    (l : RegionLayout) : rprog unit :=
  store (Hdr h_version) VERSION ;;
  store (Hdr h_channel_type) type ;;
  store (Hdr h_total_size) (l_total_size l) ;;
  store (Hdr h_sub_rings_offset) (l_sub_rings_offset l) ;;
  store (Hdr h_pool_offset) (l_pool_offset l) ;;
  store (Hdr h_max_subs) (channel.max_subscribers cfg) ;;
  store (Hdr h_sub_ring_capacity) (channel.sub_ring_capacity cfg) ;;
  store (Hdr h_sub_ring_mask) (u64 (channel.sub_ring_capacity cfg - 1)) ;;
  store (Hdr h_pool_size) (channel.pool_size cfg) ;;
  store (Hdr h_slot_data_size) (channel.max_payload_size cfg) ;;
  store (Hdr h_slot_stride) (l_slot_stride l) ;;
  store (Hdr h_sub_ring_stride) (l_ring_stride l) ;;
  store (Hdr h_schema_blob_offset) (l_schema_blob_offset l) ;;
  store (Hdr h_schema_blob_capacity) (channel.schema_capacity cfg) ;;
  store (Hdr h_commit_timeout_us) (u64 (channel.commit_timeout cfg)) ;;
  store (Hdr h_config_hash) (compute_config_hash type cfg) ;;
  pid <- current_pid ;;
  store (Hdr h_creator_pid) pid ;;
  now <- since_epoch ;;
  store (Hdr h_created_at_ns) (u64 now) ;;
  store (Hdr h_creator_name_len) (l_creator_len l) ;;
  memcpy_in NameByte creator_name.

Definition stamp_schema (cfg : channel.Config) : rprog unit :=
  match channel.cfg_schema cfg with
  | None => Ret tt
  | Some s =>
      let blob := channel.schema_blob cfg in
      when (negb (bool_decide (blob = []))) (memcpy_in BlobByte blob) ;;
      memcpy_in SchemaByte (schema_bytes (stamped_schema s blob)) ;;
      store (Hdr schema_state) schema.Set_
  end.

Definition stamp_slot (i : Z) : rprog unit :=
  store (Slot i refcount) 0 ;;
  treiber_push i.

Definition stamp_ring (i : Z) : rprog unit :=
  store (Ring i state_flight) (ring.make_packed ring.Free 0) ;;
  store (Ring i write_pos) 0 ;;
  store (Ring i dropped_count) 0 ;;
  store (Ring i lost_count) 0 ;;
  clear_owner i.

Definition stamp_new_region (type : Z) (cfg : channel.Config) (creator_name : list Z)
    (l : RegionLayout) : rprog Geometry :=
  let g := geometry_of_layout cfg l in
  zero_locs (region_locs g) ;;
  stamp_header type cfg creator_name l ;;
  stamp_schema cfg ;;
  store (Hdr free_top) (tagged_pack 0 INVALID_SLOT) ;;
  store (Hdr steal_count) 0 ;;
  store (Hdr identity_hash) (channel.cfg_identity cfg) ;;
  foreach (Z.to_nat (channel.pool_size cfg)) 0 tt (λ i _, stamp_slot i) ;;
  foreach (Z.to_nat (channel.max_subscribers cfg)) 0 tt (λ i _, stamp_ring i) ;;
  store (Hdr magic) MAGIC ;;
  Ret g.

(** ** Opening *)

(** Copy every header field once, then check the copies. *)
Definition validate_opened (size : Z) : rprog Geometry :=
  if size <? SIZEOF_HEADER then throw runtime_error "Buffer smaller than region Header"
  else
    m <- load (Hdr magic) ;;
    if negb (m =? MAGIC) then throw runtime_error "Invalid shared memory (bad magic)"
    else
      v <- load (Hdr h_version) ;;
      if negb (v =? VERSION) then throw version_mismatch "Region version mismatch"
      else
        sub_rings_offset <- load (Hdr h_sub_rings_offset) ;;
        sub_ring_stride <- load (Hdr h_sub_ring_stride) ;;
        sub_ring_capacity <- load (Hdr h_sub_ring_capacity) ;;
        sub_ring_mask <- load (Hdr h_sub_ring_mask) ;;
        pool_offset <- load (Hdr h_pool_offset) ;;
        slot_stride <- load (Hdr h_slot_stride) ;;
        pool_size <- load (Hdr h_pool_size) ;;
        slot_data_size <- load (Hdr h_slot_data_size) ;;
        max_subs <- load (Hdr h_max_subs) ;;
        commit_timeout_us <- load (Hdr h_commit_timeout_us) ;;
        schema_blob_offset <- load (Hdr h_schema_blob_offset) ;;
        schema_blob_capacity <- load (Hdr h_schema_blob_capacity) ;;
        channel_type <- load (Hdr h_channel_type) ;;
        total_size <- load (Hdr h_total_size) ;;
        creator_name_len <- load (Hdr h_creator_name_len) ;;
        let snapshot := {|
          geometry := {|
            Types.sub_rings_offset := sub_rings_offset;
            Types.sub_ring_stride := sub_ring_stride;
            Types.sub_ring_capacity := sub_ring_capacity;
            Types.sub_ring_mask := sub_ring_mask;
            Types.pool_offset := pool_offset;
            Types.slot_stride := slot_stride;
            Types.pool_size := pool_size;
            Types.slot_data_size := slot_data_size;
            Types.max_subs := max_subs;
            Types.commit_timeout_us := commit_timeout_us;
            Types.schema_blob_offset := schema_blob_offset;
            Types.schema_blob_capacity := schema_blob_capacity |};
          snap_channel_type := channel_type;
          snap_total_size := total_size;
          snap_creator_name_len := creator_name_len |} in
        of_res (validate_snapshot snapshot size) ;;
        Ret (geometry snapshot).

Definition required_size (cfg : channel.Config) (creator_name : option (list Z)) : res Z :=
  res_bind (validate_config channel.PubSub cfg) (λ _,
  res_bind (compute_layout cfg creator_name) (λ l, inl (l_total_size l))).

(** The bytes of a name that [compute_layout] accepted. *)
Abbreviation bytes_of creator_name := (default [] creator_name).

Definition attach_create (address size : Z) (type : Z) (cfg : channel.Config)
    (creator_name : option (list Z)) (label : list Z) : rprog region :=
  of_res (validate_config type cfg) ;;
  if negb (address `mod` CACHE_LINE =? 0) then
    throw runtime_error "attach_create: address not CACHE_LINE aligned"
  else
    layout <- of_res (compute_layout cfg creator_name) ;;
    if size <? l_total_size layout then
      throw runtime_error "attach_create: buffer smaller than required_size"
    else
      g <- stamp_new_region type cfg (bytes_of creator_name) layout ;;
      Ret {| shm_is_open := false; name_ := label; base_ := true; size_ := size;
             geometry_ := g |}.

Definition attach_open (address size : Z) (label : list Z) : rprog region :=
  if negb (address `mod` CACHE_LINE =? 0) then
    throw runtime_error "attach_open: address not CACHE_LINE aligned"
  else
    g <- validate_opened size ;;
    Ret {| shm_is_open := false; name_ := label; base_ := true; size_ := size;
           geometry_ := g |}.

Section shm.
Context `{SharedMemory loc}.

Definition create (name : list Z) (type : Z) (cfg : channel.Config)
    (creator_name : option (list Z)) : rprog region :=
  of_res (validate_config type cfg) ;;
  layout <- of_res (compute_layout cfg creator_name) ;;
  shm_create (l_total_size layout) ;;;
  g <- stamp_new_region type cfg (bytes_of creator_name) layout ;;
  Ret {| shm_is_open := true; name_ := name; base_ := true;
         size_ := l_total_size layout; geometry_ := g |}.

Definition open (name : list Z) (expected_identity : Z) : rprog region :=
  size <- shm_open ;;
  g <- validate_opened size ;;
  stamped <- load (Hdr identity_hash) ;;
  if negb (expected_identity =? 0) && negb (stamped =? 0) &&
     negb (stamped =? expected_identity) then
    throw runtime_error
      ("Identity mismatch on existing region (shm name collision): " +:+ text_of_bytes name)
  else
    Ret {| shm_is_open := true; name_ := name; base_ := true; size_ := size;
           geometry_ := g |}.

(** One attempt of the open loop: [None] is not ready. *)
Definition try_open_existing (name : list Z) (expected_hash identity : Z)
    : rprog (option region) :=
  opened <- shm_try_open ;;
  match opened with
  | None => Ret None
  | Some size =>
      if size <? SIZEOF_HEADER then Ret None
      else
        m <- load (Hdr magic) ;;
        mismatch <- (if m =? MAGIC then
                       v <- load (Hdr h_version) ;; Ret (negb (v =? VERSION))
                     else Ret false) ;;
        if mismatch : bool then
          throw version_mismatch
            ("Region version mismatch on " +:+ text_of_bytes name +:+
             ": stamped by an incompatible kickmsg build; stop its users and unlink it")
        else
          m <- load (Hdr magic) ;;
          if negb (m =? MAGIC) then Ret None
          else
            hash <- load (Hdr h_config_hash) ;;
            if negb (hash =? expected_hash) then
              throw runtime_error
                ("Config mismatch on existing region: " +:+ text_of_bytes name)
            else
              collision <- (if identity =? 0 then Ret false
                            else
                              stamped <- load (Hdr identity_hash) ;;
                              if stamped =? 0 then Ret false
                              else
                                stamped <- load (Hdr identity_hash) ;;
                                Ret (negb (stamped =? identity))) ;;
              if collision : bool then
                throw runtime_error
                  ("Identity mismatch on existing region (shm name collision): " +:+
                   text_of_bytes name)
              else
                g <- validate_opened size ;;
                Ret (Some {| shm_is_open := true; name_ := name; base_ := true;
                             size_ := size; geometry_ := g |})
  end.

Definition create_or_open (name : list Z) (type : Z) (cfg : channel.Config)
    (creator_name : option (list Z)) : rprog region :=
  of_res (validate_config type cfg) ;;
  layout <- of_res (compute_layout cfg creator_name) ;;
  created <- shm_try_create (l_total_size layout) ;;
  if created : bool then
    g <- stamp_new_region type cfg (bytes_of creator_name) layout ;;
    Ret {| shm_is_open := true; name_ := name; base_ := true;
           size_ := l_total_size layout; geometry_ := g |}
  else
    let expected_hash := compute_config_hash type cfg in
    r <- for_ 200 0 tt (λ _ _,
      opened <- try_open_existing name expected_hash (channel.cfg_identity cfg) ;;
      match opened with
      | Some region => Ret (inr region)
      | None => sleep 10000000 ;; Ret (inl tt)
      end) ;;
    match r with
    | inr region => Ret region
    | inl _ =>
        throw runtime_error ("Timed out waiting for region init: " +:+ text_of_bytes name)
    end.

Definition unlink (r : region) : rprog unit :=
  when (shm_is_open r && negb (bool_decide (name_ r = []))) shm_unlink.
End shm.

(** ** The schema slot *)

Definition schema_read : rprog (option SchemaInfo) :=
  state <- load (Hdr schema_state) ;;
  if negb (state =? schema.Set_) then Ret None
  else
    bytes <- memcpy_out SchemaByte SCHEMA_INFO_SIZE ;;
    let out := schema_of_bytes bytes in
    Ret (Some {| identity := identity out; layout := layout out;
                 name := <[127%nat := 0]> (name out); version := version out;
                 identity_algo := identity_algo out; layout_algo := layout_algo out;
                 flags := flags out; blob_hash := blob_hash out; blob_size := blob_size out;
                 blob_algo := blob_algo out; reserved := reserved out |}).

(** [h->schema_data.blob_size], a 32-bit read in the middle of the bytes. *)
Definition load_blob_size : rprog Z :=
  bytes <- memcpy_out (λ j, SchemaByte (336 + j)) 4 ;;
  Ret (le_word bytes).

Definition schema_blob_read (g : Geometry) : rprog (list Z) :=
  state <- load (Hdr schema_state) ;;
  if negb (state =? schema.Set_) then Ret []
  else
    size <- load_blob_size ;;
    if schema_blob_capacity g <? size then
      throw runtime_error "Schema blob size exceeds reserved schema_capacity"
    else memcpy_out BlobByte size.

Definition try_claim_schema (g : Geometry) (info : SchemaInfo) (blob : list Z) : rprog bool :=
  if schema_blob_capacity g <? Z.of_nat (length blob) then
    throw length_error "Schema blob exceeds the region's schema_capacity"
  else
    '(ok, expected) <- compare_exchange_strong (Hdr schema_state) schema.Unset schema.Claiming ;;
    if ok : bool then
      when (negb (bool_decide (blob = []))) (memcpy_in BlobByte blob) ;;
      memcpy_in SchemaByte (schema_bytes (stamped_schema info blob)) ;;
      store (Hdr schema_state) schema.Set_ ;;
      Ret true
    else
      for_ 1024 0 expected (λ _ expected,
        if expected =? schema.Claiming then
          yield ;;
          expected <- load (Hdr schema_state) ;;
          Ret (inl expected)
        else Ret (inr tt)) ;;;
      Ret false.

Definition reset_schema_claim : rprog bool :=
  '(ok, _) <- compare_exchange_strong (Hdr schema_state) schema.Claiming schema.Unset ;;
  Ret ok.

(** ** Health and recovery *)

Definition ring_owner_dead (i : Z) : rprog bool :=
  pid <- load (Ring i owner_pid) ;;
  stored <- load (Ring i owner_starttime) ;;
  Process.owner_is_dead pid stored.

Record HealthReport := {
  locked_entries : Z;
  retired_rings : Z;
  draining_rings : Z;
  dead_rings : Z;
  live_rings : Z;
  schema_stuck : bool
}.

Definition add_report (r : HealthReport) (locked retired draining dead live : Z)
    : HealthReport := {|
  locked_entries := u32 (locked_entries r + locked);
  retired_rings := u32 (retired_rings r + retired);
  draining_rings := u32 (draining_rings r + draining);
  dead_rings := u32 (dead_rings r + dead);
  live_rings := u32 (live_rings r + live);
  schema_stuck := schema_stuck r |}.

(** The oldest position still in a ring. *)
Definition window_start (wp cap : Z) : Z := if cap <? wp then wp - cap else 0.

(** More than one full wrap behind. *)
Definition stale (seq cap pos : Z) : bool := u64 (seq_pos seq + cap) <? u64 (pos + 1).

Definition occupied (state : Z) : bool :=
  (state =? ring.Live) || (state =? ring.Draining) || (state =? ring.Reclaiming).

Definition diagnose_ring (g : Geometry) (report : HealthReport) (i : Z)
    : rprog HealthReport :=
  let cap := sub_ring_capacity g in
  wp <- load (Ring i write_pos) ;;
  let start := window_start wp cap in
  report <- foreach (Z.to_nat (wp - start)) start report (λ pos report,
    seq <- load (Ent i (Z.land pos (sub_ring_mask g)) sequence) ;;
    Ret (if seq_is_locked seq || stale seq cap pos
         then add_report report 1 0 0 0 0 else report)) ;;
  packed <- load (Ring i state_flight) ;;
  let state := ring.get_state packed in
  let in_flight := ring.get_in_flight packed in
  let report :=
    if state =? ring.Live then add_report report 0 0 0 0 1
    else if (state =? ring.Free) && (0 <? in_flight) then add_report report 0 1 0 0 0
    else if (state =? ring.Draining) && (0 <? in_flight) then add_report report 0 0 1 0 0
    else report in
  dead <- (if occupied state then ring_owner_dead i else Ret false) ;;
  Ret (if dead : bool then add_report report 0 0 0 1 0 else report).

Definition diagnose (g : Geometry) : rprog HealthReport :=
  state <- load (Hdr schema_state) ;;
  foreach (Z.to_nat (max_subs g)) 0
    {| locked_entries := 0; retired_rings := 0; draining_rings := 0; dead_rings := 0;
       live_rings := 0; schema_stuck := state =? schema.Claiming |}
    (λ i report, diagnose_ring g report i).

(** Steal an entry and count it. *)
Definition repair_entry (i idx pos seq : Z) (repaired : Z) : rprog Z :=
  stolen <- entry_steal_and_skip i idx pos seq ;;
  if stolen : bool then
    fetch_add u64 (Hdr steal_count) 1 ;;; Ret (repaired + 1)
  else Ret repaired.

Record LockedCandidate := { cand_ring : Z; cand_idx : Z; cand_pos : Z; cand_seq : Z }.

(** The first pass on one ring: steal stale entries, collect the locked ones. *)
Definition scan_ring (g : Geometry) (i : Z) (acc : list LockedCandidate * Z)
    : rprog (list LockedCandidate * Z) :=
  let cap := sub_ring_capacity g in
  wp <- load (Ring i write_pos) ;;
  let start := window_start wp cap in
  foreach (Z.to_nat (wp - start)) start acc (λ pos '(candidates, repaired),
    let idx := Z.land pos (sub_ring_mask g) in
    seq <- load (Ent i idx sequence) ;;
    if seq_is_locked seq then
      Ret (candidates ++ [{| cand_ring := i; cand_idx := idx; cand_pos := pos;
                             cand_seq := seq |}], repaired)
    else if stale seq cap pos then
      repaired <- repair_entry i idx pos seq repaired ;;
      Ret (candidates, repaired)
    else Ret (candidates, repaired)).

Fixpoint steal_candidates (cs : list LockedCandidate) (repaired : Z) : rprog Z :=
  match cs with
  | [] => Ret repaired
  | c :: cs =>
      seq <- load (Ent (cand_ring c) (cand_idx c) sequence) ;;
      repaired <- (if negb (seq =? cand_seq c) then Ret repaired
                   else repair_entry (cand_ring c) (cand_idx c) (cand_pos c) (cand_seq c)
                          repaired) ;;
      steal_candidates cs repaired
  end.

Definition repair_locked_entries (g : Geometry) : rprog Z :=
  '(candidates, repaired) <-
    foreach (Z.to_nat (max_subs g)) 0 ([], 0) (λ i acc, scan_ring g i acc) ;;
  if bool_decide (candidates = []) then Ret repaired
  else
    sleep (i64 (commit_timeout_us g) * 1000) ;;
    steal_candidates candidates repaired.

Definition reset_retired_rings (g : Geometry) : rprog Z :=
  foreach (Z.to_nat (max_subs g)) 0 0 (λ i reset,
    packed <- load (Ring i state_flight) ;;
    if (ring.get_state packed =? ring.Free) && (0 <? ring.get_in_flight packed) then
      clear_owner i ;;
      store (Ring i state_flight) (ring.make_packed ring.Free 0) ;;
      Ret (reset + 1)
    else Ret reset).

(** Leave [Reclaiming] for [state], unless something else already did. *)
Definition leave_reclaiming (i claim state : Z) : rprog bool :=
  loop claim (λ old,
    if negb (ring.get_state old =? ring.Reclaiming) then Ret (inr false)
    else
      '(ok, current) <- compare_exchange_weak (Ring i state_flight) old
                          (ring.with_state old state) ;;
      if ok : bool then Ret (inr true) else Ret (inl current)).

Definition reclaim_ring (i : Z) : rprog bool :=
  packed <- load (Ring i state_flight) ;;
  let state := ring.get_state packed in
  if negb (occupied state) then Ret false
  else
    dead <- ring_owner_dead i ;;
    if negb dead then Ret false
    else
      fresh <- load (Ring i state_flight) ;;
      if negb (ring.get_state fresh =? state) then Ret false
      else
        let claim := ring.with_state fresh ring.Reclaiming in
        '(ok, _) <- compare_exchange_strong (Ring i state_flight) fresh claim ;;
        if negb ok then Ret false
        else
          dead <- ring_owner_dead i ;;
          if dead : bool then
            clear_owner i ;;
            leave_reclaiming i claim ring.Free
          else
            leave_reclaiming i claim state ;;;
            Ret false.

Definition reclaim_dead_rings (g : Geometry) : rprog Z :=
  foreach (Z.to_nat (max_subs g)) 0 0 (λ i reclaimed,
    ok <- reclaim_ring i ;;
    Ret (if ok : bool then reclaimed + 1 else reclaimed)).

(** ** Orphaned slots *)

(** [++claims[biased - 1]] for every claim of every entry. *)
Definition count_claims (g : Geometry) : rprog (list Z) :=
  foreach (Z.to_nat (max_subs g)) 0 (replicate (Z.to_nat (pool_size g)) 0) (λ i claims,
    foreach (Z.to_nat (sub_ring_capacity g)) 0 claims (λ idx claims,
      m <- load (Ent i idx meta) ;;
      let biased := meta_slot_biased m in
      if negb (biased =? 0) && (biased - 1 <? pool_size g) then
        Ret (alter (λ c, u32 (c + 1)) (Z.to_nat (biased - 1)) claims)
      else Ret claims)).

(** Walk the free stack: the slots met, at most [pool_size] of them. *)
Definition walk_stack (g : Geometry) : rprog (list bool) :=
  top <- load (Hdr free_top) ;;
  loop (tagged_idx top, replicate (Z.to_nat (pool_size g)) false, 0)
    (λ '(idx, on_stack, walked),
      if negb (idx =? INVALID_SLOT) && (idx <? pool_size g) && (walked <? pool_size g) then
        next <- load (Slot idx next_free) ;;
        Ret (inl (next, <[Z.to_nat idx := true]> on_stack, walked + 1))
      else Ret (inr on_stack)).

Definition reclaim_slot (claims : list Z) (on_stack : list bool) (idx reclaimed : Z)
    : rprog Z :=
  if nth (Z.to_nat idx) on_stack false then Ret reclaimed
  else if negb (nth (Z.to_nat idx) claims 0 =? 0) then
    store (Slot idx refcount) (nth (Z.to_nat idx) claims 0) ;;
    Ret reclaimed
  else
    store (Slot idx refcount) 0 ;;
    treiber_push idx ;;
    Ret (reclaimed + 1).

Definition reclaim_orphaned_slots (g : Geometry) : rprog Z :=
  claims <- count_claims g ;;
  on_stack <- walk_stack g ;;
  foreach (Z.to_nat (pool_size g)) 0 0 (λ idx reclaimed,
    reclaim_slot claims on_stack idx reclaimed).

(** ** Reports *)

Record RingStats := {
  rs_state : Z;
  rs_in_flight : Z;
  rs_write_pos : Z;
  rs_dropped_count : Z;
  rs_lost_count : Z
}.

Record RegionStats := {
  rings : list RingStats;
  total_writes : Z;
  total_drops : Z;
  total_losses : Z;
  total_steals : Z;
  st_live_rings : Z;
  pool_free : Z;
  st_pool_size : Z
}.

Definition ring_stats (i : Z) : rprog RingStats :=
  packed <- load (Ring i state_flight) ;;
  wp <- load (Ring i write_pos) ;;
  dropped <- load (Ring i dropped_count) ;;
  lost <- load (Ring i lost_count) ;;
  Ret {| rs_state := ring.get_state packed; rs_in_flight := ring.get_in_flight packed;
         rs_write_pos := wp; rs_dropped_count := dropped; rs_lost_count := lost |}.

Definition add_ring (out : RegionStats) (rs : RingStats) : RegionStats := {|
  rings := rings out ++ [rs];
  total_writes := if total_writes out <? rs_write_pos rs then rs_write_pos rs
                  else total_writes out;
  total_drops := u64 (total_drops out + rs_dropped_count rs);
  total_losses := u64 (total_losses out + rs_lost_count rs);
  total_steals := total_steals out;
  st_live_rings := if rs_state rs =? ring.Live then st_live_rings out + 1
                   else st_live_rings out;
  pool_free := pool_free out;
  st_pool_size := st_pool_size out |}.

Definition set_pool_free (out : RegionStats) (count : Z) : RegionStats := {|
  rings := rings out; total_writes := total_writes out; total_drops := total_drops out;
  total_losses := total_losses out; total_steals := total_steals out;
  st_live_rings := st_live_rings out; pool_free := count; st_pool_size := st_pool_size out |}.

(** Count the free stack, at most [pool_size] links. *)
Definition count_free (g : Geometry) : rprog Z :=
  top <- load (Hdr free_top) ;;
  loop (tagged_idx top, 0) (λ '(idx, count),
    if negb (idx =? INVALID_SLOT) && (count <? pool_size g) then
      if pool_size g <=? idx then Ret (inr count)
      else
        next <- load (Slot idx next_free) ;;
        Ret (inl (next, count + 1))
    else Ret (inr count)).

Definition stats (g : Geometry) : rprog RegionStats :=
  steals <- load (Hdr steal_count) ;;
  out <- foreach (Z.to_nat (max_subs g)) 0
    {| rings := []; total_writes := 0; total_drops := 0; total_losses := 0;
       total_steals := steals; st_live_rings := 0; pool_free := 0;
       st_pool_size := pool_size g |}
    (λ i out, rs <- ring_stats i ;; Ret (add_ring out rs)) ;;
  count <- count_free g ;;
  Ret (set_pool_free out count).

Record RegionInfo := {
  shm_name : list Z;
  channel_type : Z;
  info_version : Z;
  config_hash : Z;
  total_size : Z;
  info_geometry : Geometry;
  creator_pid : Z;
  created_at_ns : Z;
  creator_name : list Z
}.

Definition info (r : region) : rprog RegionInfo :=
  let g := geometry_ r in
  channel_type <- load (Hdr h_channel_type) ;;
  version <- load (Hdr h_version) ;;
  config_hash <- load (Hdr h_config_hash) ;;
  total_size <- load (Hdr h_total_size) ;;
  creator_pid <- load (Hdr h_creator_pid) ;;
  created_at_ns <- load (Hdr h_created_at_ns) ;;
  name_len <- load (Hdr h_creator_name_len) ;;
  let tail_len := u64 (schema_blob_offset g - SIZEOF_HEADER) in
  let name_len := if tail_len <? name_len then tail_len else name_len in
  creator_name <- memcpy_out NameByte name_len ;;
  Ret {| shm_name := name_ r; channel_type := channel_type; info_version := version;
         config_hash := config_hash; total_size := total_size; info_geometry := g;
         creator_pid := creator_pid; created_at_ns := created_at_ns;
         creator_name := creator_name |}.
End Region.
