(* ===== verification/Stamping.v ===== *)
(** * A created region works: stamping, and opening what was stamped

    [stamp_new_region] leaves every slot on the free stack, every ring free and
    every entry empty, and a header that every later opener accepts and reads
    the same geometry from. *)

From S2P Require Import Prelude Prog Types Layout Words Shm Process Pool Slots Region.
Import Types Layout Pool Slots.

Module Stamping.
Implicit Types (m : loc → Z) (o : os) (ws : list loc).

(** ** Locations *)

Lemma region_locs_refcount g s : 0 <= s < pool_size g → Slot s refcount ∈ Region.region_locs g.
Proof.
  intros Hs. unfold Region.region_locs. rewrite !elem_of_app. do 5 right.
  apply list_elem_of_bind. exists s. split; [|by apply elem_of_upto]. unfold Region.slot_locs. set_solver.
Qed.

Lemma region_locs_ring g i f : 0 <= i < max_subs g → Ring i f ∈ Region.region_locs g.
Proof.
  intros Hi. unfold Region.region_locs. rewrite !elem_of_app. do 4 right. left.
  apply list_elem_of_bind. exists i. split; [|by apply elem_of_upto]. unfold Region.ring_locs.
  apply elem_of_app. left. destruct f; set_solver.
Qed.

Lemma region_locs_entry g i idx f :
  0 <= i < max_subs g → 0 <= idx < sub_ring_capacity g → Ent i idx f ∈ Region.region_locs g.
Proof.
  intros Hi Hidx. unfold Region.region_locs. rewrite !elem_of_app. do 4 right. left.
  apply list_elem_of_bind. exists i. split; [|by apply elem_of_upto]. unfold Region.ring_locs.
  apply elem_of_app. right. apply list_elem_of_bind. exists idx.
  split; [|by apply elem_of_upto]. destruct f; set_solver.
Qed.

Lemma region_locs_header g f : Hdr f ∈ Region.region_locs g.
Proof. unfold Region.region_locs. apply elem_of_app. left. destruct f; set_solver. Qed.

(** ** The steps of stamping *)

Definition zeroed (ls : list loc) m : loc → Z := λ l, if decide (l ∈ ls) then 0 else m l.

Lemma zeroed_in ls m l : l ∈ ls → zeroed ls m l = 0.
Proof. intros. unfold zeroed. by rewrite decide_True. Qed.

(** The header fields after [stamp_header]. *)
Definition header_value (type : Z) (cfg : channel.Config) (l : RegionLayout) o
    (f : hfield) (old : Z) : Z :=
  match f with
  | h_version => VERSION
  | h_channel_type => type
  | h_total_size => l_total_size l
  | h_sub_rings_offset => l_sub_rings_offset l
  | h_pool_offset => l_pool_offset l
  | h_max_subs => channel.max_subscribers cfg
  | h_sub_ring_capacity => channel.sub_ring_capacity cfg
  | h_sub_ring_mask => u64 (channel.sub_ring_capacity cfg - 1)
  | h_pool_size => channel.pool_size cfg
  | h_slot_data_size => channel.max_payload_size cfg
  | h_slot_stride => l_slot_stride l
  | h_sub_ring_stride => l_ring_stride l
  | h_schema_blob_offset => l_schema_blob_offset l
  | h_schema_blob_capacity => channel.schema_capacity cfg
  | h_commit_timeout_us => u64 (channel.commit_timeout cfg)
  | h_config_hash => compute_config_hash type cfg
  | h_creator_pid => os_pid o
  | h_created_at_ns => u64 (os_epoch o)
  | h_creator_name_len => l_creator_len l
  | magic | schema_state | free_top | steal_count | identity_hash => old
  end.

(** A location of the rings or of the pool. *)
Definition in_body (l : loc) : bool :=
  match l with Ring _ _ | Ent _ _ _ | Slot _ _ | SlotByte _ _ => true | _ => false end.

#[global] Instance name_byte_inj : Inj (=) (=) NameByte.
Proof. congruence. Qed.
#[global] Instance blob_byte_inj : Inj (=) (=) BlobByte.
Proof. congruence. Qed.
#[global] Instance schema_byte_inj : Inj (=) (=) SchemaByte.
Proof. congruence. Qed.

Lemma returns_stamp_header type cfg creator l m o ws (Q : unit → world loc → Prop) :
  (∀ m', (∀ f, m' (Hdr f) = header_value type cfg l o f (m (Hdr f))) →
     load_list NameByte 0 (length creator) m' = creator →
     (∀ x, in_body x = true ∨ (∃ j, x = BlobByte j ∨ x = SchemaByte j) → m' x = m x) →
     Q tt (World m' o ws)) →
  returns (Region.stamp_header type cfg creator l) (World m o ws) Q.
Proof.
  intros HQ. unfold Region.stamp_header. steps. apply returns_memcpy_in. unfold set_mem.
  cbn [w_mem w_os w_wakes]. apply HQ.
  - intros f. rewrite store_list_other by done.
    destruct f; cbn [header_value]; rewrite ?upd_ne by done; rewrite ?upd_same; done.
  - apply load_store_list, _.
  - intros x Hx. rewrite store_list_other by (intros j _ ->; destruct Hx as [?|(? & [?|?])]; done).
    rewrite !upd_ne; [done|..]; intros <-; destruct Hx as [?|(? & [?|?])]; done.
Qed.

(** The schema slot after [stamp_schema]. *)
Definition schema_stamped (cfg : channel.Config) m : Prop :=
  match channel.cfg_schema cfg with
  | None => m (Hdr schema_state) = schema.Unset
  | Some s =>
      let blob := channel.schema_blob cfg in
      m (Hdr schema_state) = schema.Set_ ∧
      load_list BlobByte 0 (length blob) m = blob ∧
      load_list SchemaByte 0 (length (schema_bytes (Region.stamped_schema s blob))) m
        = schema_bytes (Region.stamped_schema s blob)
  end.

Lemma schema_stamped_ext cfg m m' :
  schema_stamped cfg m → m' (Hdr schema_state) = m (Hdr schema_state) →
  (∀ j, m' (BlobByte j) = m (BlobByte j)) → (∀ j, m' (SchemaByte j) = m (SchemaByte j)) →
  schema_stamped cfg m'.
Proof.
  unfold schema_stamped. intros Hs Hst Hb Hsc. destruct (channel.cfg_schema cfg); [|congruence].
  destruct Hs as (? & Hblob & Hsch). split; [congruence|]. split.
  - rewrite <- Hblob at 2. by apply load_list_ext.
  - rewrite <- Hsch at 2. by apply load_list_ext.
Qed.

Lemma returns_stamp_schema cfg m o ws (Q : unit → world loc → Prop) :
  m (Hdr schema_state) = 0 →
  (∀ m', schema_stamped cfg m' →
     (∀ x, in_body x = true ∨ (∃ f, f ≠ schema_state ∧ x = Hdr f) ∨ (∃ j, x = NameByte j) →
        m' x = m x) →
     Q tt (World m' o ws)) →
  returns (Region.stamp_schema cfg) (World m o ws) Q.
Proof.
  intros Hz HQ. unfold Region.stamp_schema, schema_stamped in *.
  destruct (channel.cfg_schema cfg) as [s|]; [|step; by apply HQ].
  set (blob := channel.schema_blob cfg) in *.
  generalize (schema_bytes (Region.stamped_schema s blob)) HQ. clear HQ. intros bytes HQ.
  set (m1 := store_list BlobByte 0 blob m).
  assert (∀ m2, m2 = m1 → returns (memcpy_in SchemaByte bytes;; store (Hdr schema_state) schema.Set_)
    (World m2 o ws) Q) as Hrest.
  { intros m2 ->. step. apply returns_memcpy_in. unfold set_mem. cbn [w_mem w_os w_wakes].
    step. apply HQ.
    - split; [apply upd_same|]. split.
      + transitivity (load_list BlobByte 0 (length blob) m1).
        * apply load_list_ext. intros j _. rewrite upd_ne by done. by rewrite store_list_other.
        * apply load_store_list, _.
      + transitivity (load_list SchemaByte 0 (length bytes) (store_list SchemaByte 0 bytes m1)).
        * apply load_list_ext. intros j _. by rewrite upd_ne.
        * apply load_store_list, _.
    - intros x Hx. unfold m1.
      rewrite upd_ne, !store_list_other; [done|..]; intros; intros ?; subst x;
        destruct Hx as [?|[(? & ? & ?)|[? ?]]]; first [discriminate|congruence]. }
  step. step.
  - apply returns_memcpy_in. by apply Hrest.
  - apply Hrest. unfold m1. apply negb_false_iff, bool_decide_eq_true in H. by rewrite H.
Qed.

(** The pool loop pushes the slots in order. *)
Lemma returns_stamp_slots g m o ws (Q : unit → world loc → Prop) :
  pool_geometry g → slots_ok g m (λ _, 0) [] (upto (pool_size g)) →
  (∀ m', at_rest g m' → pool_frame m m' → Q tt (World m' o ws)) →
  returns (foreach (Z.to_nat (pool_size g)) 0 tt (λ i _, Region.stamp_slot i)) (World m o ws) Q.
Proof.
  intros Hg Hok HQ.
  apply (returns_foreach _ _ _ _ _ (λ i _ w', ∃ m' fl, w' = World m' o ws ∧ pool_frame m m' ∧
    slots_ok g m' (λ _, 0) fl (map Z.of_nat (seq (Z.to_nat i) (Z.to_nat (pool_size g - i)))))).
  - exists m, []. rewrite Z.sub_0_r. done.
  - intros i [] w' Hi (m1 & fl & -> & Hf & Hok1). unfold Region.stamp_slot.
    replace (Z.to_nat (pool_size g - i)) with (S (Z.to_nat (pool_size g - (i + 1)))) in Hok1 by lia.
    cbn [seq map] in Hok1. rewrite Z2Nat.id in Hok1 by lia.
    do 2 step. rewrite upd_id.
    + apply returns_treiber_push. exists (pushed m1 i), (i :: fl). split; [done|]. split.
      * eapply pool_frame_trans; [exact Hf|apply pool_frame_pushed].
      * replace (Z.to_nat (i + 1)) with (S (Z.to_nat i)) by lia. by apply slots_ok_push.
    + apply (so_idle _ _ _ _ _ Hok1); [lia|]. right. set_solver.
  - intros [] w' (m' & fl & -> & Hf & Hok'). apply HQ; [|done]. exists fl.
    replace (Z.to_nat (pool_size g - _)) with 0%nat in Hok' by lia. done.
Qed.

(** The ring loop finds every ring already free. *)
Lemma returns_stamp_rings n m o ws (Q : unit → world loc → Prop) :
  (∀ i f, 0 <= i < Z.of_nat n → m (Ring i f) = 0) → Q tt (World m o ws) →
  returns (foreach n 0 tt (λ i _, Region.stamp_ring i)) (World m o ws) Q.
Proof.
  intros Hz HQ. apply (returns_foreach _ _ _ _ _ (λ _ _ w', w' = World m o ws)); [done| |by intros [] ? ->].
  intros i [] w' Hi ->. unfold Region.stamp_ring, clear_owner.
  assert (∀ f, <[Ring i f := 0]> m = m) as Hid by (intros; apply upd_id, Hz; lia).
  change (ring.make_packed ring.Free 0) with 0. change ring.WaiterNone with 0.
  steps. by rewrite !Hid.
Qed.

(** ** A stamped region *)

Record stamped (type : Z) (cfg : channel.Config) (creator : list Z) (l : RegionLayout) o m : Prop := {
  st_rest : at_rest (geometry_of_layout cfg l) m;
  st_rings : ∀ i f, 0 <= i < channel.max_subscribers cfg → m (Ring i f) = 0;
  st_entries : ∀ i idx f, 0 <= i < channel.max_subscribers cfg →
    0 <= idx < channel.sub_ring_capacity cfg → m (Ent i idx f) = 0;
  st_magic : m (Hdr magic) = MAGIC;
  st_identity : m (Hdr identity_hash) = channel.cfg_identity cfg;
  st_header : ∀ f, f ≠ magic → f ≠ identity_hash → f ≠ schema_state → f ≠ free_top →
    m (Hdr f) = header_value type cfg l o f 0;
  st_creator : load_list NameByte 0 (length creator) m = creator;
  st_schema : schema_stamped cfg m
}.

Lemma zero_slots_ok g m :
  (∀ s, 0 <= s < pool_size g → m (Slot s refcount) = 0) →
  (∀ i idx, 0 <= i < max_subs g → 0 <= idx < sub_ring_capacity g → m (Ent i idx meta) = 0) →
  slots_ok g (<[Hdr free_top := tagged_pack 0 INVALID_SLOT]> m) (λ _, 0) [] (upto (pool_size g)).
Proof.
  intros Hr Hz.
  assert (∀ s, claims g (<[Hdr free_top := tagged_pack 0 INVALID_SLOT]> m) s = 0 ∨ ¬ 0 <= s) as Hc.
  { intros s. destruct (decide (0 <= s)); [left|by right].
    rewrite claims_ext with (m := m) by (intros; by apply upd_ne).
    unfold claims. apply total_zero. intros x (i & idx & -> & Hi & Hidx)%elem_of_entry_metas.
    rewrite Hz by done. unfold names. change (meta_slot_biased 0) with 0.
    destruct (Z.eqb_spec 0 (s + 1)); lia. }
  split.
  - split; [|constructor|constructor]. by rewrite upd_same.
  - apply NoDup_upto.
  - intros s Hs%elem_of_upto. split; [done|]. set_solver.
  - intros s Hs. destruct (Hc s) as [->|?]; [|lia]. rewrite upd_ne, Hr by done. lia.
  - intros s Hs. rewrite upd_ne, Hr by done. split; [|done]. intros _. right. by apply elem_of_upto.
Qed.

Lemma layout_pool_geometry type cfg name l :
  channel.config_typed cfg → validate_config type cfg = inl tt →
  compute_layout cfg (Some name) = inl l → pool_geometry (geometry_of_layout cfg l).
Proof.
  intros Hty Hv Hl. destruct (geometry_of_layout_typed _ _ _ _ Hty Hv Hl) as [Hg _].
  by eapply pool_geometry_ok.
Qed.

Lemma returns_stamp type cfg creator l m o ws (Q : Geometry → world loc → Prop) :
  channel.config_typed cfg → validate_config type cfg = inl tt →
  compute_layout cfg (Some creator) = inl l →
  (∀ m', stamped type cfg creator l o m' → Q (geometry_of_layout cfg l) (World m' o ws)) →
  returns (Region.stamp_new_region type cfg creator l) (World m o ws) Q.
Proof.
  intros Hty Hv Hl HQ. pose proof (layout_pool_geometry _ _ _ _ Hty Hv Hl) as Hg.
  set (g := geometry_of_layout cfg l) in *. unfold Region.stamp_new_region. fold g.
  step. apply returns_zero_locs. intros mz Hz _.
  step. apply returns_stamp_header. intros mh Hh Hname Hfh.
  step. apply returns_stamp_schema; [rewrite Hh; apply Hz, region_locs_header|]. intros ms Hs Hfs.
  do 6 step.
  set (mt := <[Hdr identity_hash := channel.cfg_identity cfg]>
    (<[Hdr steal_count := 0]> (<[Hdr free_top := tagged_pack 0 INVALID_SLOT]> ms))).
  assert (∀ x, in_body x = true → mt x = mz x) as Hbody.
  { intros x Hx. unfold mt. rewrite !upd_ne by (by intros <-). rewrite Hfs, Hfh by auto. done. }
  assert (slots_ok g mt (λ _, 0) [] (upto (pool_size g))) as Hok.
  { unfold mt. do 2 (apply slots_ok_other; [done|]).
    apply zero_slots_ok.
    - intros s Hs'. rewrite Hfs, Hfh by auto. by apply Hz, region_locs_refcount.
    - intros i idx Hi Hidx. rewrite Hfs, Hfh by auto. by apply Hz, region_locs_entry. }
  step. change (channel.pool_size cfg) with (pool_size g). apply (returns_stamp_slots g); [done..|].
  intros m1 Hrest Hf1. step. apply returns_stamp_rings.
  { intros i f Hi. rewrite Hf1, Hbody by done. apply Hz, region_locs_ring.
    change (max_subs g) with (channel.max_subscribers cfg). lia. }
  do 3 step. apply HQ. clear HQ.
  assert (∀ x, x ≠ Hdr magic → pool_loc x = false → (<[Hdr magic := MAGIC]> m1) x = mt x) as Hm.
  { intros x Hx Hp. by rewrite upd_ne, Hf1. }
  split.
  - destruct Hrest as [fl Hfl]. exists fl. by apply slots_ok_other.
  - intros i f Hi. rewrite Hm, Hbody by done. by apply Hz, region_locs_ring.
  - intros i idx f Hi Hidx. rewrite Hm, Hbody by done. by apply Hz, region_locs_entry.
  - apply upd_same.
  - rewrite Hm by done. unfold mt. apply upd_same.
  - intros f H1 H2 H3 H4. rewrite Hm by (congruence || by destruct f). unfold mt.
    rewrite upd_ne by congruence. destruct (decide (f = steal_count)) as [->|H5]; [by rewrite upd_same|].
    rewrite !upd_ne by congruence. rewrite Hfs by eauto. rewrite Hh, (Hz (Hdr f)); [done|].
    apply region_locs_header.
  - rewrite <- Hname at 2. apply load_list_ext. intros j _. rewrite Hm by done. unfold mt.
    rewrite !upd_ne by done. apply Hfs. eauto.
  - eapply schema_stamped_ext; [exact Hs|..]; intros; rewrite Hm by done; unfold mt; by rewrite !upd_ne.
Qed.

Lemma returns_attach_create type cfg creator l address size label m o ws
    (Q : Region.region → world loc → Prop) :
  channel.config_typed cfg → validate_config type cfg = inl tt →
  compute_layout cfg (Some creator) = inl l →
  address `mod` CACHE_LINE = 0 → l_total_size l <= size →
  (∀ r m', Region.geometry_ r = geometry_of_layout cfg l → stamped type cfg creator l o m' →
     Q r (World m' o ws)) →
  returns (Region.attach_create address size type cfg (Some creator) label) (World m o ws) Q.
Proof.
  intros Hty Hv Hl Ha Hle HQ. unfold Region.attach_create. rewrite Hv, Ha, Hl. cbn [of_res].
  do 2 step. cbn [negb Z.eqb]. do 2 step. rewrite (proj2 (Z.ltb_ge _ _)) by done. step.
  eapply returns_stamp; [done..|]. intros m' Hst. step. by apply HQ.
Qed.

(** ** Opening it *)

Section opening.
Context (type : Z) (cfg : channel.Config) (creator : list Z) (l : RegionLayout).
Context (Hty : channel.config_typed cfg) (Hv : validate_config type cfg = inl tt).
Context (Hl : compute_layout cfg (Some creator) = inl l).

Lemma layout_total : SIZEOF_HEADER <= l_total_size l.
Proof using Hty Hv Hl.
  destruct (geometry_of_layout_typed _ _ _ _ Hty Hv Hl) as [[] _].
  cbn [geometry_of_layout max_subs pool_size slot_data_size sub_ring_capacity schema_blob_offset
    schema_blob_capacity sub_rings_offset sub_ring_stride slot_stride pool_offset] in *.
  unfold SIZEOF_SUB_RING_HEADER, SIZEOF_ENTRY, SIZEOF_SLOT_HEADER, CACHE_LINE, is_u64 in *.
  assert (0 <= channel.max_subscribers cfg * l_ring_stride l) by (apply Z.mul_nonneg_nonneg; lin).
  assert (0 <= channel.pool_size cfg * l_slot_stride l) by (apply Z.mul_nonneg_nonneg; lin). lin.
Qed.

(** The header a later opener reads. *)
Definition headed o m : Prop :=
  m (Hdr magic) = MAGIC ∧ m (Hdr identity_hash) = channel.cfg_identity cfg ∧
  ∀ f, f ≠ magic → f ≠ identity_hash → f ≠ schema_state → f ≠ free_top → f ≠ steal_count →
    m (Hdr f) = header_value type cfg l o f 0.

Lemma stamped_headed o m : stamped type cfg creator l o m → headed o m.
Proof using Type. intros Hst. split; [apply Hst|]. split; [apply Hst|]. intros. by apply Hst. Qed.

Lemma returns_validate_headed size o m o' ws (Q : Geometry → world loc → Prop) :
  headed o m → is_u64 size → l_total_size l <= size →
  Q (geometry_of_layout cfg l) (World m o' ws) →
  returns (Region.validate_opened size) (World m o' ws) Q.
Proof using Hty Hv Hl.
  intros (Hmagic & _ & Hh) Hs Hle HQ. pose proof layout_total as Htot.
  pose proof (layout_accepted _ _ _ _ _ Hty Hv Hl Hs Hle) as Hacc.
  unfold Region.validate_opened. rewrite (proj2 (Z.ltb_ge _ _)) by lia.
  do 2 step. rewrite Hmagic, Z.eqb_refl. cbn [negb]. do 2 step.
  rewrite Hh by done. cbn [header_value]. rewrite Z.eqb_refl. cbn [negb].
  do 30 step. rewrite !Hh by done. cbn [header_value geometry].
  change {| Types.sub_rings_offset := _ |} with (geometry_of_layout cfg l). rewrite Hacc.
  cbn [of_res]. do 3 step. exact HQ.
Qed.

Lemma returns_validate_opened size o m o' ws (Q : Geometry → world loc → Prop) :
  stamped type cfg creator l o m → is_u64 size → l_total_size l <= size →
  Q (geometry_of_layout cfg l) (World m o' ws) →
  returns (Region.validate_opened size) (World m o' ws) Q.
Proof using Hty Hv Hl. intros Hst. by apply (returns_validate_headed size o), stamped_headed. Qed.

(** The descriptor [schema_read] gives: the stamped one, its name terminated. *)
Definition seen_schema (s : SchemaInfo) (blob : list Z) : SchemaInfo := {|
  identity := identity s; layout := layout s; name := <[127%nat := 0]> (name s);
  version := version s; identity_algo := identity_algo s; layout_algo := layout_algo s;
  flags := flags s; blob_hash := blob_hash s; blob_size := u32 (Z.of_nat (length blob));
  blob_algo := blob_algo s; reserved := replicate 168 0 |}.

Lemma stamped_schema_wf s blob : schema_wf s → schema_wf (Region.stamped_schema s blob).
Proof.
  intros []. split; try done; cbn [Region.stamped_schema blob_size reserved].
  - apply u32_range.
  - split; [done|]. apply Forall_replicate. unfold is_u8. lia.
Qed.

(** Reading the schema slot in any memory that holds a descriptor. *)
Lemma returns_schema_read s blob m o ws (Q : option SchemaInfo → world loc → Prop) :
  schema_wf s → m (Hdr schema_state) = schema.Set_ →
  load_list SchemaByte 0 (length (schema_bytes (Region.stamped_schema s blob))) m
    = schema_bytes (Region.stamped_schema s blob) →
  Q (Some (seen_schema s blob)) (World m o ws) →
  returns Region.schema_read (World m o ws) Q.
Proof.
  intros Hwf Hst Hb HQ. unfold Region.schema_read. do 2 step. rewrite Hst. cbn [negb Z.eqb].
  pose proof (stamped_schema_wf s blob Hwf) as Hwf'.
  rewrite schema_bytes_length in Hb by done.
  change (negb (schema.Set_ =? schema.Set_)) with false. lazy iota.
  step. apply returns_memcpy_out. cbn [w_mem]. change (Z.to_nat SCHEMA_INFO_SIZE) with 512%nat.
  rewrite Hb, schema_of_bytes_bytes by done. step. exact HQ.
Qed.

Lemma returns_no_schema m o ws (Q : option SchemaInfo → world loc → Prop) :
  m (Hdr schema_state) ≠ schema.Set_ → Q None (World m o ws) →
  returns Region.schema_read (World m o ws) Q.
Proof.
  intros Hst HQ. unfold Region.schema_read. do 2 step. rewrite (proj2 (Z.eqb_neq _ _) Hst).
  cbn [negb]. by step.
Qed.
(** The creator's name, which the header ends with, is read whole. *)
Lemma creator_fits :
  let tail_len := u64 (schema_blob_offset (geometry_of_layout cfg l) - SIZEOF_HEADER) in
  (if tail_len <? l_creator_len l then tail_len else l_creator_len l) = Z.of_nat (length creator).
Proof using Hty Hv Hl.
  destruct (compute_layout_ideal _ _ _ _ Hty Hv Hl) as (-> & Hn & _).
  cbn [geometry_of_layout schema_blob_offset ideal_layout l_schema_blob_offset l_creator_len].
  pose proof (line_up_bounds (832 + Z.of_nat (length creator))). unfold SIZEOF_HEADER. rewrite u64_id by lin.
  by rewrite (proj2 (Z.ltb_ge _ _)) by lin.
Qed.

(** What [info] tells of a stamped region, in whatever process. *)
Definition creation (label : list Z) o : Region.RegionInfo := {|
  Region.shm_name := label; Region.channel_type := type; Region.info_version := VERSION;
  Region.config_hash := compute_config_hash type cfg; Region.total_size := l_total_size l;
  Region.info_geometry := geometry_of_layout cfg l; Region.creator_pid := os_pid o;
  Region.created_at_ns := u64 (os_epoch o); Region.creator_name := creator |}.

Lemma returns_info r o m o' ws (Q : Region.RegionInfo → world loc → Prop) :
  stamped type cfg creator l o m → Region.geometry_ r = geometry_of_layout cfg l →
  Q (creation (Region.name_ r) o) (World m o' ws) → returns (Region.info r) (World m o' ws) Q.
Proof using Hty Hv Hl.
  intros Hst Hg HQ. unfold Region.info. rewrite Hg. do 14 step. rewrite !(st_header _ _ _ _ _ _ Hst) by done.
  cbn [header_value]. rewrite creator_fits. step. apply returns_memcpy_out. cbn [w_mem].
  rewrite Nat2Z.id, (st_creator _ _ _ _ _ _ Hst). step. exact HQ.
Qed.
End opening.

(** Opening what another process stamped, from the two calls the operating
    system answers. *)
Section existing.
Context (type : Z) (cfg : channel.Config) (creator : list Z) (l : RegionLayout).
Context (Hty : channel.config_typed cfg) (Hv : validate_config type cfg = inl tt).
Context (Hl : compute_layout cfg (Some creator) = inl l).
Context `{SharedMemory loc}.

(** What [create_or_open] makes of a region that exists: [type], [cfg] are its
    creator's, the primed ones the caller's. *)
Definition reopened (name : list Z) (size : Z) (type' : Z) (cfg' : channel.Config)
    : outcome Region.region :=
  if negb (compute_config_hash type cfg =? compute_config_hash type' cfg') then
    Exc (Exn runtime_error ("Config mismatch on existing region: " +:+ text_of_bytes name))
  else if negb (channel.cfg_identity cfg' =? 0) && negb (channel.cfg_identity cfg =? 0) &&
          negb (channel.cfg_identity cfg =? channel.cfg_identity cfg') then
    Exc (Exn runtime_error ("Identity mismatch on existing region (shm name collision): " +:+
                            text_of_bytes name))
  else
    Val {| Region.shm_is_open := true; Region.name_ := name; Region.base_ := true;
           Region.size_ := size; Region.geometry_ := geometry_of_layout cfg l |}.

Lemma wp_try_open_existing name size type' cfg' o m o' ws :
  stamped type cfg creator l o m → is_u64 size → l_total_size l <= size →
  (∀ w Q, Q (Some size) w → returns shm_try_open w Q) →
  wp (Region.try_open_existing name (compute_config_hash type' cfg') (channel.cfg_identity cfg'))
    (World m o' ws) (λ out w', w' = World m o' ws ∧
      match reopened name size type' cfg' with
      | Val r => out = Val (Some r)
      | Exc e => out = Exc e
      end).
Proof using Hty Hv Hl.
  intros Hst Hs Hle Hopen. pose proof (layout_total _ _ _ _ Hty Hv Hl) as Htot.
  unfold Region.try_open_existing, reopened. step. apply Hopen. cbv beta iota.
  rewrite (proj2 (Z.ltb_ge _ _)) by lia. do 2 step. rewrite (st_magic _ _ _ _ _ _ Hst).
  change (MAGIC =? MAGIC) with true. cbn [negb]. lazy beta iota. do 4 step.
  rewrite (st_header _ _ _ _ _ _ Hst) by done. cbn [header_value]. rewrite Z.eqb_refl. cbn [negb].
  do 2 step. rewrite (st_magic _ _ _ _ _ _ Hst).
  change (MAGIC =? MAGIC) with true. cbn [negb]. lazy beta iota. do 2 step.
  rewrite (st_header _ _ _ _ _ _ Hst) by done. cbn [header_value].
  step; [by apply wp_throw|]. step.
  assert (∀ b, b = negb (channel.cfg_identity cfg' =? 0) && negb (channel.cfg_identity cfg =? 0) &&
          negb (channel.cfg_identity cfg =? channel.cfg_identity cfg') →
    returns (if channel.cfg_identity cfg' =? 0 then Ret false else
       stamped0 <- load (Hdr identity_hash) ;;
       if stamped0 =? 0 then Ret false
       else stamped1 <- load (Hdr identity_hash) ;; Ret (negb (stamped1 =? channel.cfg_identity cfg')))
      (World m o' ws) (λ c w', c = b ∧ w' = World m o' ws)) as Hid.
  { intros b ->. step; [by step|]. do 2 step. rewrite (st_identity _ _ _ _ _ _ Hst). step; [by step|].
    do 3 step. by rewrite (st_identity _ _ _ _ _ _ Hst). }
  eapply returns_mono; [by apply Hid|]. intros c w' [-> ->]. step; [by apply wp_throw|].
  step. eapply returns_validate_opened; try done. by step.
Qed.

Lemma wp_create_or_open_existing name size type' cfg' creator' l' o m o' ws :
  stamped type cfg creator l o m → is_u64 size → l_total_size l <= size →
  validate_config type' cfg' = inl tt → compute_layout cfg' creator' = inl l' →
  (∀ w Q, Q false w → returns (shm_try_create (l_total_size l')) w Q) →
  (∀ w Q, Q (Some size) w → returns shm_try_open w Q) →
  wp (Region.create_or_open name type' cfg' creator') (World m o' ws) (λ out w',
    w' = World m o' ws ∧ out = reopened name size type' cfg').
Proof using Hty Hv Hl.
  intros Hst Hs Hle Hv' Hl' Hcreate Hopen. unfold Region.create_or_open. rewrite Hv', Hl'.
  cbn [of_res]. do 5 step. apply Hcreate. lazy beta iota.
  change 200%nat with (S 199). apply wp_bind, wp_for_turn, wp_bind.
  eapply wp_mono; [by eapply wp_try_open_existing|]. intros out w' [-> Hout].
  destruct (reopened name size type' cfg') as [r|e]; subst out; [|done].
  lazy beta iota. apply wp_ret. by apply wp_ret.
Qed.
End existing.

(** ** Properties *)

(** C16. A region created from an accepted configuration is at rest with every
    ring free, and whatever process opens it reads the creator's geometry, the schema the
    creator gave, and in [info] the channel type, the configuration's hash, the
    creator's name and pid and the time it was created. *)
Theorem create_open_roundtrip type cfg creator l address size label label' m o ws :
  channel.config_typed cfg → is_u64 size → (∀ s, channel.cfg_schema cfg = Some s → schema_wf s) →
  validate_config type cfg = inl tt → compute_layout cfg (Some creator) = inl l →
  address `mod` CACHE_LINE = 0 → l_total_size l <= size →
  returns (Region.attach_create address size type cfg (Some creator) label) (World m o ws) (λ r w',
    let g := geometry_of_layout cfg l in
    Region.geometry_ r = g ∧ pool_geometry g ∧ at_rest g (w_mem w') ∧
    (∀ i, 0 <= i < max_subs g →
       w_mem w' (Ring i state_flight) = ring.make_packed ring.Free 0 ∧ w_mem w' (Ring i write_pos) = 0) ∧
    ∀ o2 ws2, let w2 := World (w_mem w') o2 ws2 in
    returns (Region.attach_open address size label') w2 (λ r' w'', Region.geometry_ r' = g ∧ w'' = w2 ∧
      returns (Region.info r') w'' (λ i w3, w3 = w'' ∧
        i = {| Region.shm_name := label'; Region.channel_type := type; Region.info_version := VERSION;
               Region.config_hash := compute_config_hash type cfg; Region.total_size := l_total_size l;
               Region.info_geometry := g; Region.creator_pid := os_pid o;
               Region.created_at_ns := u64 (os_epoch o); Region.creator_name := creator |})) ∧
    returns Region.schema_read w2 (λ s w'', w'' = w2 ∧
      s = (λ s, seen_schema s (channel.schema_blob cfg)) <$> channel.cfg_schema cfg)).
Proof.
  intros Hty Hs Hwf Hv Hl Ha Hle. eapply returns_attach_create; [done..|].
  intros r m' Hr Hst. split; [done|].
  split; [by eapply layout_pool_geometry|]. split; [apply Hst|].
  split; [intros i Hi; split; by apply Hst|]. intros o2 ws2. cbn [w_mem]. split.
  - unfold Region.attach_open. rewrite Ha. cbn [negb Z.eqb]. step.
    eapply returns_validate_opened; [done..|]. step. split; [done|]. split; [done|].
    by eapply returns_info.
  - pose proof (st_schema _ _ _ _ _ _ Hst) as Hsch. unfold schema_stamped in Hsch.
    destruct (channel.cfg_schema cfg) as [s|]; cbn [fmap option_fmap option_map].
    + destruct Hsch as (? & _ & ?). eapply returns_schema_read; [by apply Hwf|done..].
    + apply returns_no_schema; [|done]. by rewrite Hsch.
Qed.

(** [create_or_open] on a region that exists opens it with its creator's
    geometry when the configurations agree, refuses it with the reason when the
    configuration or the identity differ, and never changes it. *)
Theorem create_or_open_existing `{SharedMemory loc} type cfg creator l type' cfg' creator' l' name
    size m o o' ws :
  channel.config_typed cfg → validate_config type cfg = inl tt →
  compute_layout cfg (Some creator) = inl l → stamped type cfg creator l o m →
  is_u64 size → l_total_size l <= size →
  validate_config type' cfg' = inl tt → compute_layout cfg' creator' = inl l' →
  (∀ w Q, Q false w → returns (shm_try_create (l_total_size l')) w Q) →
  (∀ w Q, Q (Some size) w → returns shm_try_open w Q) →
  wp (Region.create_or_open name type' cfg' creator') (World m o' ws) (λ out w',
    w' = World m o' ws ∧ out = reopened type cfg l name size type' cfg').
Proof. intros. by eapply wp_create_or_open_existing. Qed.

(** *** Examples *)

Definition small_config : channel.Config := {|
  channel.max_subscribers := 2; channel.sub_ring_capacity := 4; channel.pool_size := 8;
  channel.max_payload_size := 40; channel.commit_timeout := DEFAULT_COMMIT_TIMEOUT;
  channel.cfg_schema := Some sample_schema; channel.schema_capacity := 64;
  channel.schema_blob := [1; 2; 3]; channel.cfg_identity := 77 |}.

Lemma small_config_typed : channel.config_typed small_config.
Proof. by constructor; vm_compute; intuition congruence. Qed.

Lemma small_valid : validate_config channel.PubSub small_config = inl tt.
Proof. reflexivity. Qed.

Definition small_layout : RegionLayout := {|
  l_header_size := 896; l_ring_stride := 192; l_slot_stride := 64; l_schema_blob_offset := 896;
  l_sub_rings_offset := 960; l_pool_offset := 1344; l_total_size := 1856; l_creator_len := 2 |}.

Lemma small_layout_ok : compute_layout small_config (Some [110; 49]) = inl small_layout.
Proof. reflexivity. Qed.

Definition quiet_os : os := Os 0 1000 1700 7 (λ pid, if pid =? 7 then Some (5, false) else None) 0.

Lemma create_open_roundtrip_witness :
  returns (Region.attach_create 4096 2048 channel.PubSub small_config (Some [110; 49]) [])
    (World (λ _, 255) quiet_os []) (λ _ w', at_rest (geometry_of_layout small_config small_layout) (w_mem w') ∧
      returns (Region.attach_open 4096 2048 []) (World (w_mem w') (Os 3 1000 1700 8 (λ _, None) 0) []) (λ r' w'',
        returns (Region.info r') w'' (λ i _, Region.channel_type i = channel.PubSub ∧ Region.creator_name i = [110; 49] ∧ Region.creator_pid i = 7))).
Proof.
  eapply returns_mono.
  - refine (create_open_roundtrip channel.PubSub small_config [110; 49] small_layout 4096 2048 [] []
      (λ _, 255) quiet_os [] small_config_typed _ _ small_valid small_layout_ok eq_refl _).
    + vm_compute; intuition congruence.
    + intros s [= <-]. apply sample_schema_wf.
    + vm_compute. discriminate.
  - cbv zeta. intros r w' (_ & _ & Hrest & _ & Hopen). split; [exact Hrest|].
    eapply returns_mono; [exact (proj1 (Hopen _ _))|]. intros r' w'' (_ & _ & Hinfo).
    eapply returns_mono; [exact Hinfo|]. by intros i w3 [_ ->].
Defined.

(** An object that exists, of 2048 bytes. *)
Definition existing_shm : SharedMemory loc := {|
  shm_create := λ size, Ret size; shm_try_create := λ _, Ret false; shm_open := Ret 2048;
  shm_try_open := Ret (Some 2048); shm_unlink := Ret tt |}.

Lemma small_stamped : ∃ m, stamped channel.PubSub small_config [110; 49] small_layout quiet_os m.
Proof.
  destruct (returns_stamp channel.PubSub small_config [110; 49] small_layout (λ _, 255) quiet_os []
    (λ _ w', stamped channel.PubSub small_config [110; 49] small_layout quiet_os (w_mem w'))
    small_config_typed small_valid small_layout_ok) as (n & [r|e] & w' & _ & Hst); [by auto|by exists (w_mem w')|done].
Qed.

Lemma create_or_open_existing_witness :
  ∃ m, wp (Region.create_or_open (H := existing_shm) [115] channel.Broadcast small_config (Some []))
         (World m quiet_os []) (λ out _, out = Exc (Exn runtime_error "Config mismatch on existing region: s")).
Proof.
  destruct small_stamped as [m Hst]. exists m. eapply wp_mono.
  - refine (create_or_open_existing (H := existing_shm) channel.PubSub small_config [110; 49] small_layout
      channel.Broadcast small_config (Some []) _ [115] 2048 m quiet_os quiet_os [] small_config_typed
      small_valid small_layout_ok Hst _ _ eq_refl eq_refl _ _).
    + vm_compute; intuition congruence.
    + vm_compute. discriminate.
    + intros w Q HQ. by apply returns_ret.
    + intros w Q HQ. by apply returns_ret.
  - intros out w' [_ ->]. vm_compute. reflexivity.
Defined.
End Stamping.
