(* ===== verification/Recovery.v ===== *)
(** * Offline recovery: the slots crashed processes held

    [reclaim_orphaned_slots], run when nothing else runs, brings a region in
    any state its users can leave it in back to rest. *)

From S2P Require Import Prelude Prog Types Layout Pool Slots Region.
Import Types Layout Pool Slots.

Module Recovery.
Section recovery.
Context (g : Geometry) (Hg : pool_geometry g).
Implicit Types (m : loc → Z) (o : os) (ws : list loc) (claims : list Z).

(** ** Counting the claims *)

(** One turn of [count_claims]. *)
Definition count_one m claims (l : loc) : list Z :=
  let biased := meta_slot_biased (m l) in
  if negb (biased =? 0) && (biased - 1 <? pool_size g) then
    alter (λ c, u32 (c + 1)) (Z.to_nat (biased - 1)) claims
  else claims.

Lemma returns_count_claims m o ws (Q : list Z → world loc → Prop) :
  Q (fold_left (count_one m) (entry_metas g) (replicate (Z.to_nat (pool_size g)) 0)) (World m o ws) →
  returns (Region.count_claims g) (World m o ws) Q.
Proof.
  intros HQ. unfold Region.count_claims.
  apply (returns_foreach_upto _ _ _ (λ claims i,
    fold_left (λ claims idx, count_one m claims (Ent i idx meta)) (upto (sub_ring_capacity g)) claims)).
  - intros i claims Hi.
    apply (returns_foreach_upto _ _ _ (λ claims idx, count_one m claims (Ent i idx meta))); [|done].
    intros idx cl _. do 2 step. unfold count_one. cbv zeta. by destruct (_ && _); step.
  - unfold entry_metas in HQ. revert HQ. generalize (replicate (Z.to_nat (pool_size g)) 0).
    induction (upto (max_subs g)) as [|i rings IH]; intros cl HQ; [done|].
    cbn [fold_left]. apply IH. cbn in HQ. rewrite fold_left_app in HQ.
    replace (fold_left (λ cl idx, count_one m cl (Ent i idx meta)) (upto (sub_ring_capacity g)) cl)
      with (fold_left (count_one m) (idx ← upto (sub_ring_capacity g); [Ent i idx meta]) cl); [done|].
    clear. revert cl. induction (upto (sub_ring_capacity g)) as [|idx idxs IH]; intros cl; [done|]. apply IH.
Qed.

Lemma count_one_length m claims l : length (count_one m claims l) = length claims.
Proof. unfold count_one. destruct (_ && _); [|done]. by rewrite length_alter. Qed.

(** The counts are the claims: no 32-bit count wraps while the totals fit. *)
Lemma count_claims_total m ls claims s :
  length claims = Z.to_nat (pool_size g) → 0 <= s < pool_size g →
  0 <= nth (Z.to_nat s) claims 0 →
  nth (Z.to_nat s) claims 0 + total (λ l, names (m l) s) ls <= U32_MAX →
  nth (Z.to_nat s) (fold_left (count_one m) ls claims) 0 =
  nth (Z.to_nat s) claims 0 + total (λ l, names (m l) s) ls.
Proof.
  revert claims. induction ls as [|l ls IH]; intros claims Hlen Hs H0 Hmax; cbn [fold_left total] in *.
  - lia.
  - pose proof (names_range (m l) s).
    pose proof (total_nonneg (λ l, names (m l) s) ls ltac:(intros; apply names_range)).
    assert (nth (Z.to_nat s) (count_one m claims l) 0 = nth (Z.to_nat s) claims 0 + names (m l) s) as Hone.
    { unfold count_one.
      pose proof (Z.mod_pos_bound (m l) 16777216 ltac:(lia)) as Hb. rewrite <- meta_slot_biased_mod in Hb.
      destruct (Z.eqb_spec (meta_slot_biased (m l)) (s + 1)) as [E|E].
      - assert (names (m l) s = 1) as Hn by (unfold names; by rewrite E, Z.eqb_refl).
        rewrite E. destruct (Z.eqb_spec (s + 1) 0); [lia|].
        destruct (Z.ltb_spec (s + 1 - 1) (pool_size g)); [|lia].
        cbn [negb andb]. replace (s + 1 - 1) with s by lia.
        rewrite nth_lookup, list_lookup_alter, decide_True by done.
        destruct (claims !! Z.to_nat s) as [c|] eqn:Hc; [|apply lookup_ge_None in Hc; lia].
        rewrite (nth_lookup_Some _ _ _ _ Hc) in *. cbn. rewrite u32_small; unfold is_u32; lia.
      - assert (names (m l) s = 0) as -> by (unfold names; by rewrite (proj2 (Z.eqb_neq _ _) E)).
        destruct (_ && _) eqn:Hc; [|lia].
        apply andb_true_iff in Hc as [Hc1%negb_true_iff%Z.eqb_neq Hc2%Z.ltb_lt].
        rewrite !nth_lookup, list_lookup_alter, decide_False by lia. lia. }
    rewrite IH; rewrite ?count_one_length, ?Hone; lia.
Qed.

(** ** Walking the free stack *)

Lemma free_list_length m fl : free_list (pool_size g) m fl → Z.of_nat (length fl) <= Z.max 0 (pool_size g).
Proof.
  intros [Hc Hnd Hr]. destruct (decide (0 <= pool_size g)) as [Hp|Hp].
  - assert (length fl ≤ length (upto (pool_size g)))%nat as Hle.
    { apply NoDup_incl_length; [by apply NoDup_ListNoDup|].
      intros s Hs%list_elem_of_In. apply list_elem_of_In, elem_of_upto. by eapply Forall_forall in Hr. }
    unfold upto in Hle. rewrite length_map, length_seq in Hle. lia.
  - destruct fl as [|s fl]; [cbn; lia|]. inversion Hr. lia.
Qed.

(** [on_stack] marks exactly the slots of [fl]. *)
Definition marks (on_stack : list bool) (fl : list Z) : Prop :=
  length on_stack = Z.to_nat (pool_size g) ∧
  ∀ s, 0 <= s < pool_size g → nth (Z.to_nat s) on_stack false = bool_decide (s ∈ fl).

Lemma returns_walk_stack m fl o ws (Q : list bool → world loc → Prop) :
  free_list (pool_size g) m fl → (∀ on_stack, marks on_stack fl → Q on_stack (World m o ws)) →
  returns (Region.walk_stack g) (World m o ws) Q.
Proof using Hg.
  intros Hfl HQ. pose proof (free_list_length m fl Hfl) as Hlen. destruct Hfl as [Hc Hnd Hr].
  unfold Region.walk_stack. do 2 step.
  apply (returns_loop_measure _ _ (λ n '(idx, on_stack, walked) w', w' = World m o ws ∧
    ∃ visited rest, fl = visited ++ rest ∧ chain m idx rest ∧ n = length rest ∧
      walked = Z.of_nat (length visited) ∧ marks on_stack visited) (length fl)).
  - split; [done|]. exists [], fl. split_and!; try done. split; [by rewrite length_replicate|].
    intros s Hs. rewrite nth_lookup, lookup_replicate_2 by lia. done.
  - intros n [[idx on_stack] walked] w' (-> & visited & rest & Hfl & Hch & -> & -> & [Hml Hmark]).
    destruct rest as [|s rest].
    + cbn in Hch. subst idx. cbn [negb andb]. rewrite Z.eqb_refl. cbn [negb andb]. step.
      apply HQ. rewrite app_nil_r in Hfl. by subst fl.
    + destruct Hch as [-> Hch].
      assert (0 <= s < pool_size g) as Hs by (eapply Forall_forall in Hr; [exact Hr|subst fl; set_solver]).
      assert (s ≠ INVALID_SLOT) as Hinv.
      { destruct Hg. change MAX_POOL_SIZE with 16777214 in *. unfold INVALID_SLOT. lia. }
      rewrite (proj2 (Z.eqb_neq _ _) Hinv), (proj2 (Z.ltb_lt _ _)) by lia.
      rewrite Hfl, length_app in Hlen. cbn [length] in Hlen.
      rewrite (proj2 (Z.ltb_lt _ _)) by lia. cbn [negb andb]. do 3 step.
      exists (length rest). split; [cbn; lia|]. split; [done|]. exists (visited ++ [s]), rest.
      split; [by rewrite <- app_assoc|]. split; [done|]. split; [done|].
      split; [rewrite length_app; cbn; lia|]. split; [by rewrite length_insert|]. intros t Ht. rewrite nth_lookup, list_lookup_insert.
      destruct (decide (s = t)) as [->|Hne].
      * rewrite decide_True by lia. cbn. symmetry. apply bool_decide_eq_true. set_solver.
      * rewrite decide_False by lia. rewrite <- nth_lookup, Hmark by done.
        apply bool_decide_ext. set_solver.
Qed.

(** ** Reclaiming *)

(** A slot nobody references that is not on the stack either. *)
Definition lost (m : loc → Z) (fl : list Z) (s : Z) : Prop := (s ∉ fl) ∧ Slots.claims g m s = 0.
#[global] Instance lost_dec m fl s : Decision (lost m fl s).
Proof. unfold lost. apply _. Defined.

(** The accounting after the slots before [i] have been visited. *)
Record swept m (pins : Z → Z) (fl : list Z) (i : Z) m' (fl' res' : list Z) : Prop := {
  sw_ok : slots_ok g m' (λ s, if s <? i then 0 else pins s) fl' res';
  sw_res : ∀ s, s ∈ res' → i <= s;
  sw_free : ∀ s, i <= s → (s ∈ fl' ↔ s ∈ fl);
  sw_frame : pool_frame m m'
}.

Lemma claims_frame m m' s : pool_frame m m' → Slots.claims g m' s = Slots.claims g m s.
Proof. intros Hf. apply claims_ext. intros. by apply Hf. Qed.

(** Visiting a slot that is skipped or whose references are dropped in place. *)
Lemma swept_keep m pins fl i m' m2 fl' res' :
  swept m pins fl i m' fl' res' → pool_frame m' m2 → (i ∉ res') →
  slots_ok g m2 (λ s, if s <? i + 1 then 0 else pins s) fl' res' →
  swept m pins fl (i + 1) m2 fl' res'.
Proof.
  intros [Hok Hres Hfree Hf] Hf2 Hi Hok2. split; [done| | |by eapply pool_frame_trans].
  - intros s Hs. pose proof (Hres s Hs). destruct (decide (s = i)); [congruence|lia].
  - intros s Hs. apply Hfree. lia.
Qed.

(** Visiting a slot that goes back to the stack. *)
Lemma swept_push m pins fl i m' m2 fl' res' res2 :
  swept m pins fl i m' fl' res' → pool_frame m' m2 → (∀ s, s ∈ res2 → s ∈ res') →
  slots_ok g m2 (λ s, if s <? i + 1 then 0 else pins s) fl' (i :: res2) →
  swept m pins fl (i + 1) (pushed m2 i) (i :: fl') res2.
Proof using Hg.
  intros [Hok Hres Hfree Hf] Hf2 Hsub Hok2.
  pose proof (so_res_nodup _ _ _ _ _ Hok2) as [Hi _]%NoDup_cons. split.
  - by apply slots_ok_push.
  - intros s Hs. pose proof (Hres s (Hsub s Hs)). destruct (decide (s = i)); [congruence|lia].
  - intros s Hs. rewrite <- Hfree by lia. rewrite elem_of_cons. intuition lia.
  - eapply pool_frame_trans; [exact Hf|]. eapply pool_frame_trans; [exact Hf2|apply pool_frame_pushed].
Qed.

Lemma returns_reclaim_slot m pins fl i m' fl' res' claims on_stack n o ws (Q : Z → world loc → Prop) :
  swept m pins fl i m' fl' res' → 0 <= i < pool_size g → marks on_stack fl →
  nth (Z.to_nat i) claims 0 = Slots.claims g m i →
  (∀ m2 fl2 res2, swept m pins fl (i + 1) m2 fl2 res2 →
     Q (if decide (lost m fl i) then n + 1 else n) (World m2 o ws)) →
  returns (Region.reclaim_slot claims on_stack i n) (World m' o ws) Q.
Proof using Hg.
  intros Hsw Hi [_ Hmark] Hcl HQ. pose proof Hsw as [Hok Hres Hfree Hf].
  pose proof (claims_frame _ _ i Hf) as Hcf. unfold Region.reclaim_slot. rewrite Hmark, Hcl by done.
  destruct (so_ref _ _ _ _ _ Hok i Hi) as (Href & Hp & _). rewrite (proj2 (Z.ltb_ge _ _)) in Href, Hp by lia.
  case_bool_decide as Hst.
  - step. rewrite decide_False in HQ by (unfold lost; tauto). apply (HQ m' fl' res').
    assert (i ∈ fl' ∨ i ∈ res') as Hidle by (left; apply Hfree; [lia|done]).
    destruct (slots_ok_idle _ _ _ _ _ i Hok Hi Hidle) as [_ Hpi].
    rewrite (proj2 (Z.ltb_ge _ _)) in Hpi by lia.
    eapply swept_keep; [exact Hsw|apply pool_frame_refl| |].
    + intros Hin. destruct (so_res _ _ _ _ _ Hok i Hin) as [_ Hno]. apply Hno, Hfree; [lia|done].
    + eapply slots_ok_pins; [|exact Hok]. intros s Hs. cbn.
      destruct (Z.ltb_spec s (i + 1)), (Z.ltb_spec s i); try lia. by replace s with i by lia.
  - pose proof (claims_nonneg g m i). destruct (Z.eqb_spec (Slots.claims g m i) 0) as [E|E]; cbn [negb].
    + rewrite decide_True in HQ by (by split).
      assert (∃ res2, (∀ s, s ∈ res2 → s ∈ res') ∧
        slots_ok g (<[Slot i refcount := 0]> m') (λ s, if s <? i + 1 then 0 else pins s) fl' (i :: res2))
        as (res2 & Hsub & Hok2).
      { destruct (decide (i ∈ res')) as [Hin|Hout].
        - exists (filter (λ s, s ≠ i) res'). split; [intros s Hs; by apply list_elem_of_filter in Hs as [_ Hs]|].
          assert (m' (Slot i refcount) = 0) as Hz by (apply (so_idle _ _ _ _ _ Hok); auto).
          rewrite upd_id by done. rewrite filter_neq_perm by (done || apply (so_res_nodup _ _ _ _ _ Hok)).
          eapply slots_ok_pins; [|exact Hok].
          intros s Hs. cbn. destruct (Z.ltb_spec s (i + 1)), (Z.ltb_spec s i); try lia.
          replace s with i by lia. lia.
        - exists res'. split; [done|]. eapply slots_ok_pins; [|eapply (slots_ok_drop_last _ _ _ _ _ i (pins i)); [exact Hok|done| |]].
          + intros s Hs. rewrite upd_dec. cbn beta. case_decide; subst.
            * by rewrite (proj2 (Z.ltb_lt _ _)) by lia.
            * destruct (Z.ltb_spec s (i + 1)), (Z.ltb_spec s i); try lia.
          + cbn beta. rewrite (proj2 (Z.ltb_ge _ _)) by lia.
            assert (m' (Slot i refcount) ≠ 0); [|lia].
            intros Hz. apply (so_idle _ _ _ _ _ Hok) in Hz as [Hin|Hin]; [|done|done].
            apply Hst, Hfree; [lia|done].
          + lia. }
      do 3 step. apply returns_treiber_push. step. eapply HQ. eapply swept_push; [exact Hsw| |exact Hsub|exact Hok2].
      by apply pool_frame_upd.
    + rewrite decide_False in HQ by (unfold lost; tauto). do 3 step.
      apply (HQ _ fl' res'). eapply swept_keep; [exact Hsw|by apply pool_frame_upd| |].
      * intros Hin. assert (i ∈ fl' ∨ i ∈ res') as Hidle by auto.
        destruct (slots_ok_idle _ _ _ _ _ i Hok Hi Hidle). lia.
      * replace (Slots.claims g m i) with (m' (Slot i refcount) - pins i) by lia.
        eapply slots_ok_pins; [|apply slots_ok_drop_some; [exact Hok|done| |]].
        -- intros s Hs. rewrite upd_dec. cbn beta. case_decide; subst.
           ++ rewrite (proj2 (Z.ltb_lt _ _)), (proj2 (Z.ltb_ge _ _)) by lia. lia.
           ++ destruct (Z.ltb_spec s (i + 1)), (Z.ltb_spec s i); try lia.
        -- cbn beta. rewrite (proj2 (Z.ltb_ge _ _)) by lia. lia.
        -- lia.
Qed.

Lemma returns_reclaim_orphaned_slots m pins fl res o ws (Q : Z → world loc → Prop) :
  slots_ok g m pins fl res → 0 <= pool_size g →
  (∀ m', at_rest g m' → pool_frame m m' →
     Q (Z.of_nat (length (filter (lost m fl) (upto (pool_size g))))) (World m' o ws)) →
  returns (Region.reclaim_orphaned_slots g) (World m o ws) Q.
Proof using Hg.
  intros Hok Hpool HQ. unfold Region.reclaim_orphaned_slots.
  step. apply returns_count_claims. set (counts := fold_left _ _ _).
  assert (∀ s, 0 <= s < pool_size g → nth (Z.to_nat s) counts 0 = Slots.claims g m s) as Hcounts.
  { intros s Hs. destruct (so_ref _ _ _ _ _ Hok s Hs) as (_ & ? & ?).
    assert (nth (Z.to_nat s) (replicate (Z.to_nat (pool_size g)) 0) 0 = 0) as Hz
      by (rewrite nth_lookup, lookup_replicate_2 by lia; done).
    unfold counts. rewrite count_claims_total; rewrite ?Hz, ?length_replicate; try lia; [done|].
    unfold Slots.claims in *. lia. }
  clearbody counts. step. eapply returns_walk_stack; [apply Hok|]. intros on_stack Hmarks.
  apply (returns_foreach _ _ _ _ _ (λ i n w', ∃ m' fl' res',
    w' = World m' o ws ∧ swept m pins fl i m' fl' res' ∧
    n = Z.of_nat (length (filter (lost m fl) (upto i))))).
  - exists m, fl, res. split; [done|]. split; [|done]. split; [|intros s Hs|done|apply pool_frame_refl].
    + eapply slots_ok_pins; [|exact Hok]. intros s Hs. cbn beta. by rewrite (proj2 (Z.ltb_ge _ _)) by lia.
    + destruct (so_res _ _ _ _ _ Hok s Hs). lia.
  - intros i n w' Hi (m' & fl' & res' & -> & Hsw & ->).
    eapply returns_reclaim_slot; [exact Hsw|lia|exact Hmarks|apply Hcounts; lia|].
    intros m2 fl2 res2 Hsw2. exists m2, fl2, res2. split; [done|]. split; [done|].
    rewrite upto_S, filter_app, length_app by lia. cbn [filter list_filter].
    case_decide; cbn [length]; lia.
  - intros n w' (m' & fl' & res' & -> & [Hok' Hres' _ Hf] & ->).
    replace (0 + Z.of_nat (Z.to_nat (pool_size g))) with (pool_size g) in * by lia.
    apply HQ; [|exact Hf]. exists fl'.
    assert (res' = []) as ->.
    { apply elem_of_nil_inv. intros s Hs. pose proof (Hres' s Hs).
      destruct (so_res _ _ _ _ _ Hok' s Hs). lia. }
    eapply slots_ok_pins; [|exact Hok']. intros s Hs. cbn beta. by rewrite (proj2 (Z.ltb_lt _ _)) by lia.
Qed.
End recovery.
End Recovery.
