(* ===== verification/Ownership.v ===== *)
(** * Who owns what: the slot pool under concurrency

    The tokens of [Conc.v] for the slot pool.  A process that popped a slot
    owns [Reserved s]; while it pushes the slot back, [Linked s next]; a process
    that holds a reference owns [Pinned s]; one that has read the head of the
    free stack and is about to pop owns [Peeked].  [inv] says of a memory and of
    all tokens together that [slots_ok] of [Slots.v] holds, so it gives the
    accounting of every slot at every instant of every interleaving. *)

From stdpp Require Import gmultiset.
From S2P Require Import Prelude Prog Conc Types Layout Pool Slots.
Import Types Layout Pool Slots.

Module Ownership.
Inductive token :=
  | Reserved (s : Z)
  | Linked (s next : Z)
  | Peeked (count top : Z) (next : option Z)
  | Pinned (s : Z).

#[export] Instance token_eq_dec : EqDecision token.
Proof. solve_decision. Defined.
#[export] Instance token_countable : Countable token.
Proof.
  refine (inj_countable'
    (λ t, match t with
          | Reserved s => inl (inl s) | Linked s v => inl (inr (s, v))
          | Peeked c t v => inr (inl (c, t, v)) | Pinned s => inr (inr s) end)
    (λ t, match t with
          | inl (inl s) => Reserved s | inl (inr (s, v)) => Linked s v
          | inr (inl (c, t, v)) => Peeked c t v | inr (inr s) => Pinned s end) _).
  by intros [].
Defined.

Abbreviation tokens := (gmultiset token).

Definition reserved_slot (t : token) : option Z :=
  match t with Reserved s | Linked s _ => Some s | _ => None end.

(** The slots processes have reserved, and the references they hold. *)
Definition reserved (own : tokens) : list Z := omap reserved_slot (elements own).
Definition pins (own : tokens) (s : Z) : Z := Z.of_nat (multiplicity (Pinned s) own).

(** The word whose writes are counted, and the period of its generation. *)
Definition watch (l : loc) : bool := match l with Hdr free_top => true | _ => false end.
Definition GENERATIONS : Z := 4294967296.

Definition owns_slot (own : tokens) (s : Z) : Prop := s ∈ reserved own.

(** What an action requires of its thread: a slot's header is initialised, and
    its payload written, by the process that reserved it; its length and
    payload are read with a reference. *)
Definition guard (R : Type) (a : act loc R) (own : tokens) : Prop :=
  match a with
  | Store (SlotByte s _) _ | Store (Slot s _) _ => owns_slot own s
  | Load (SlotByte s _) | Load (Slot s payload_len) => Pinned s ∈ own
  | Cas (Slot _ refcount) e _ | CasWeak (Slot _ refcount) e _ => 0 < e
  | FetchAdd _ (Slot s refcount) _ => Pinned s ∈ own
  | Cas (Slot _ _) _ _ | CasWeak (Slot _ _) _ _ | FetchAdd _ (Slot _ _) _ => False
  | Cas (SlotByte _ _) _ _ | CasWeak (SlotByte _ _) _ _ | FetchAdd _ (SlotByte _ _) _ => False
  | _ => True
  end.

Record inv (g : Geometry) (m : loc → Z) (cnt : Z) (own : tokens) : Prop := {
  inv_slots : ∃ fl, slots_ok g m (pins own) fl (reserved own);
  inv_pinned : ∀ s, Pinned s ∈ own → 0 <= s < pool_size g;
  inv_gen : tagged_gen (m (Hdr free_top)) = u32 cnt;
  inv_linked : ∀ s v, Linked s v ∈ own → m (Slot s next_free) = v;
  inv_peeked : ∀ c top next, Peeked c top next ∈ own →
    c <= cnt ∧ tagged_gen top = u32 c ∧
    (cnt = c → m (Hdr free_top) = top ∧
               ∀ v, next = Some v → m (Slot (tagged_idx top) next_free) = v)
}.

(** ** Tokens *)

Lemma reserved_disj_union X Y : reserved (X ⊎ Y) ≡ₚ reserved X ++ reserved Y.
Proof. unfold reserved. by rewrite gmultiset_elements_disj_union, omap_app. Qed.

Lemma reserved_singleton t :
  reserved {[+ t +]} = match reserved_slot t with Some s => [s] | None => [] end.
Proof. unfold reserved. rewrite gmultiset_elements_singleton. by destruct t. Qed.

Lemma reserved_pinned k s : reserved (k *: {[+ Pinned s +]}) = [].
Proof.
  induction k as [|k IH].
  - by rewrite gmultiset_scalar_mul_0; unfold reserved; rewrite gmultiset_elements_empty.
  - apply Permutation_nil. symmetry. rewrite gmultiset_scalar_mul_S_r, reserved_disj_union, IH.
    by rewrite reserved_singleton.
Qed.

Lemma pins_disj_union X Y s : pins (X ⊎ Y) s = pins X s + pins Y s.
Proof. unfold pins. rewrite multiplicity_disj_union. lia. Qed.

Lemma pins_singleton t s : pins {[+ t +]} s = if decide (t = Pinned s) then 1 else 0.
Proof.
  unfold pins. destruct (decide _) as [->|].
  - by rewrite multiplicity_singleton_eq.
  - rewrite multiplicity_singleton_ne; [done|congruence].
Qed.

Lemma pins_scalar k t s : pins (k *: {[+ t +]}) s = if decide (t = Pinned s) then Z.of_nat k else 0.
Proof.
  unfold pins. rewrite multiplicity_scalar_mul. destruct (decide _) as [->|].
  - rewrite multiplicity_singleton_eq. lia.
  - rewrite multiplicity_singleton_ne by congruence. lia.
Qed.

Lemma pins_empty s : pins ∅ s = 0.
Proof. unfold pins. by rewrite multiplicity_empty. Qed.

Lemma reserved_empty : reserved ∅ = [].
Proof. unfold reserved. by rewrite gmultiset_elements_empty. Qed.

Lemma elem_of_reserved own s : s ∈ reserved own ↔ Reserved s ∈ own ∨ ∃ v, Linked s v ∈ own.
Proof.
  unfold reserved. rewrite list_elem_of_omap. setoid_rewrite gmultiset_elem_of_elements.
  split.
  - intros ([] & ? & [= <-]); eauto.
  - intros [?|[v ?]]; eexists; (split; [eassumption|done]).
Qed.

Lemma guard_mono R (a : act loc R) own own' : guard R a own → own ⊆ own' → guard R a own'.
Proof.
  intros Hg Hsub. assert (∀ s, owns_slot own s → owns_slot own' s).
  { intros s. unfold owns_slot. rewrite !elem_of_reserved.
    intros [?|[v ?]]; [left|right; exists v]; by eapply gmultiset_elem_of_subseteq. }
  pose proof (λ t, gmultiset_elem_of_subseteq own own' t).
  destruct a; cbn in *; auto; destruct l; auto; destruct f; auto.
Qed.

(** Only the process that reserved a slot writes its payload. *)
Lemma guard_write R (a : act loc R) (r : R) own s j :
  guard R a own → writes a r = Some (SlotByte s j) → s ∈ reserved own.
Proof.
  destruct a as [l|l|l|l|l| | | | | | | | | |]; try done.
  - by intros Hg [= ->].
  - cbn. destruct r as [[] ?]; [|done]. by intros Hg [= ->].
  - cbn. destruct r as [[] ?]; [|done]. by intros Hg [= ->].
  - by intros Hg [= ->].
Qed.

(** ** The invariant *)

Section inv.
Context (g : Geometry) (Hg : pool_geometry g).
Implicit Types (m : loc → Z) (own env : tokens).

(** The tokens of two parties, side by side. *)
Lemma slots_ok_union m fl X Y :
  slots_ok g m (pins (X ⊎ Y)) fl (reserved (X ⊎ Y)) ↔
  slots_ok g m (λ s, pins X s + pins Y s) fl (reserved X ++ reserved Y).
Proof. apply slots_ok_proper; [intros s; apply pins_disj_union|done|apply reserved_disj_union]. Qed.

Lemma inv_reserved_range m cnt own s : inv g m cnt own → s ∈ reserved own → 0 <= s < pool_size g.
Proof. intros [[fl Hs] _ _ _ _] Hin. by apply (so_res _ _ _ _ _ Hs). Qed.

(** Replacing tokens that are neither links nor peeks, in a memory where the
    free stack is the same. *)
Lemma inv_move m m' cnt own own' env fl' :
  inv g m cnt (own ⊎ env) →
  (∀ l, l = Hdr free_top ∨ (∃ s, l = Slot s next_free) → m' l = m l) →
  (∀ t, t ∈ own' → ∃ s, 0 <= s < pool_size g ∧ (t = Reserved s ∨ t = Pinned s)) →
  slots_ok g m' (pins (own' ⊎ env)) fl' (reserved (own' ⊎ env)) →
  inv g m' cnt (own' ⊎ env).
Proof using Type.
  clear Hg.
  intros [Hs Hpin Hgen Hl Hp] Hm Hown Hs'. split.
  - by exists fl'.
  - intros s [Hin|?]%gmultiset_elem_of_disj_union; [|apply Hpin; multiset_solver].
    destruct (Hown _ Hin) as (? & ? & [?|?]); congruence.
  - by rewrite Hm by auto.
  - intros s v Hin. rewrite Hm by eauto. apply Hl.
    apply gmultiset_elem_of_disj_union in Hin as [Hin|?]; [|multiset_solver].
    destruct (Hown _ Hin) as (? & _ & [?|?]); discriminate.
  - intros c top next Hin. rewrite (Hm (Hdr free_top)) by auto.
    apply gmultiset_elem_of_disj_union in Hin as [Hin|Hin].
    { destruct (Hown _ Hin) as (? & _ & [?|?]); discriminate. }
    destruct (Hp c top next) as (? & ? & Htop); [multiset_solver|].
    split; [done|]. split; [done|]. intros E. destruct (Htop E) as [? Hnext].
    split; [done|]. intros v Ev. rewrite Hm by eauto. auto.
Qed.

(** The references of an entry's claim, when it names a slot of the pool. *)
Definition claimed (w : Z) : tokens :=
  let biased := meta_slot_biased w in
  if (biased =? 0) || (pool_size g <=? biased - 1) then ∅ else {[+ Pinned (biased - 1) +]}.

Lemma pins_claimed w s : 0 <= s < pool_size g → pins (claimed w) s = names w s.
Proof using Type.
  clear Hg.
  intros Hs. unfold claimed, names.
  destruct (Z.eqb_spec (meta_slot_biased w) 0) as [E|E]; cbn [orb].
  { rewrite pins_empty. rewrite E. destruct (Z.eqb_spec 0 (s + 1)); lia. }
  destruct (Z.leb_spec (pool_size g) (meta_slot_biased w - 1)).
  { rewrite pins_empty. destruct (Z.eqb_spec (meta_slot_biased w) (s + 1)); lia. }
  rewrite pins_singleton. destruct (Z.eqb_spec (meta_slot_biased w) (s + 1)); case_decide; 
    simplify_eq; try lia. destruct H0. f_equal. lia.
Qed.

Lemma reserved_claimed w : reserved (claimed w) = [].
Proof. unfold claimed. destruct (_ || _); [apply reserved_empty|apply reserved_singleton]. Qed.

(** Computing with tokens. *)
Lemma reserved_cons s X : reserved ({[+ Reserved s +]} ⊎ X) ≡ₚ s :: reserved X.
Proof. by rewrite reserved_disj_union, reserved_singleton. Qed.
Lemma linked_cons s v X : reserved ({[+ Linked s v +]} ⊎ X) ≡ₚ s :: reserved X.
Proof. by rewrite reserved_disj_union, reserved_singleton. Qed.
Lemma peeked_cons c t v X : reserved ({[+ Peeked c t v +]} ⊎ X) ≡ₚ reserved X.
Proof. by rewrite reserved_disj_union, reserved_singleton. Qed.
Lemma pinned_cons s X : reserved ({[+ Pinned s +]} ⊎ X) ≡ₚ reserved X.
Proof. by rewrite reserved_disj_union, reserved_singleton. Qed.
Lemma pinned_k_cons k s X : reserved (k *: {[+ Pinned s +]} ⊎ X) ≡ₚ reserved X.
Proof. by rewrite reserved_disj_union, reserved_pinned. Qed.
Lemma claimed_cons w X : reserved (claimed w ⊎ X) ≡ₚ reserved X.
Proof. by rewrite reserved_disj_union, reserved_claimed. Qed.
Lemma empty_cons X : reserved (∅ ⊎ X) ≡ₚ reserved X.
Proof. by rewrite reserved_disj_union, reserved_empty. Qed.

Ltac tokens :=
  first
    [ rewrite ?reserved_cons, ?linked_cons, ?peeked_cons, ?pinned_cons, ?pinned_k_cons, ?claimed_cons, ?empty_cons;
      reflexivity
    | let t := fresh "t" in intros t ?; rewrite ?upd_dec;
      rewrite ?pins_disj_union, ?pins_singleton, ?pins_scalar, ?pins_empty, ?pins_claimed by done;
      repeat case_decide; simplify_eq; first [lia | congruence] ].

(** Read the accounting of tokens as counts, and back. *)
Lemma slots_ok_count m X fl p res :
  (∀ s, 0 <= s < pool_size g → pins X s = p s) → reserved X ≡ₚ res →
  slots_ok g m (pins X) fl (reserved X) → slots_ok g m p fl res.
Proof.
  intros Hp Hr Hs. apply (slots_ok_pins _ _ (pins X)); [by auto using eq_sym|].
  by eapply slots_ok_proper.
Qed.

Lemma slots_ok_token m X fl p res :
  (∀ s, 0 <= s < pool_size g → pins X s = p s) → reserved X ≡ₚ res →
  slots_ok g m p fl res → slots_ok g m (pins X) fl (reserved X).
Proof.
  intros Hp Hr Hs. apply (slots_ok_pins _ _ p); [done|]. by eapply slots_ok_proper.
Qed.

Lemma inv_other m cnt own l v :
  accounted l = false → inv g m cnt own → inv g (<[l:=v]> m) cnt own.
Proof using Type.
  clear Hg.
  intros Hl Hi. rewrite <- (left_id_L ∅ (⊎) own) in *. pose proof Hi as [[fl Hs] _ _ _ _].
  eapply inv_move; [exact Hi| |set_solver|by apply slots_ok_other].
  intros l' Hl'. apply upd_ne. intros ->. destruct Hl' as [->|[s ->]]; discriminate.
Qed.

Lemma inv_preset m cnt env s k :
  inv g m cnt ({[+ Reserved s +]} ⊎ env) → (1 <= k)%nat → Z.of_nat k <= U32_MAX →
  inv g (<[Slot s refcount := Z.of_nat k]> m) cnt (k *: {[+ Pinned s +]} ⊎ env).
Proof using Type.
  clear Hg.
  intros Hi Hk Hmax. pose proof Hi as [[fl Hs] _ _ _ _].
  apply (slots_ok_count _ _ _ (pins env) (s :: reserved env)) in Hs; [|tokens|tokens].
  destruct (so_res _ _ _ _ _ Hs s) as [Hrange _]; [set_solver|].
  destruct (slots_ok_idle _ _ _ _ _ s Hs Hrange) as [_ Hp]; [set_solver|].
  eapply inv_move; [exact Hi| | |].
  - intros l [->|[s' ->]]; by apply upd_ne.
  - intros t Ht. apply gmultiset_elem_of_scalar_mul in Ht as [_ ->%gmultiset_elem_of_singleton]. eauto.
  - eapply slots_ok_token; [| |apply slots_ok_preset; [exact Hs|lia]]; [tokens|tokens].
Qed.

(** Give up [k] references; the last ones leave the slot reserved. *)
Lemma inv_drop m cnt env s k :
  inv g m cnt (k *: {[+ Pinned s +]} ⊎ env) → (1 <= k)%nat →
  inv g (<[Slot s refcount := u32 (m (Slot s refcount) - Z.of_nat k)]> m) cnt
    ((if m (Slot s refcount) =? Z.of_nat k then {[+ Reserved s +]} else ∅) ⊎ env).
Proof using Type.
  clear Hg.
  intros Hi Hk. pose proof Hi as [[fl Hs] Hpin _ _ _].
  assert (0 <= s < pool_size g) as Hrange.
  { apply Hpin, gmultiset_elem_of_disj_union. left. apply gmultiset_elem_of_scalar_mul.
    split; [lia|]. by apply gmultiset_elem_of_singleton. }
  assert (pins (k *: {[+ Pinned s +]} ⊎ env) s = Z.of_nat k + pins env s) as Hps
    by (rewrite pins_disj_union, pins_scalar, decide_True by done; lia).
  destruct (so_ref _ _ _ _ _ Hs s Hrange) as (Href & _ & Hmax). rewrite Hps in *.
  pose proof (claims_nonneg g m s). assert (0 <= pins env s) by (unfold pins; lia).
  rewrite u32_small by (unfold is_u32; lia).
  destruct (Z.eqb_spec (m (Slot s refcount)) (Z.of_nat k)) as [E|E].
  - rewrite E, Z.sub_diag. eapply inv_move; [exact Hi| |set_solver|].
    + intros l [->|[s' ->]]; by apply upd_ne.
    + eapply slots_ok_token; [| |eapply slots_ok_drop_last; [exact Hs|done| |exact E]];
        [tokens|by rewrite reserved_cons, pinned_k_cons|lia].
  - eapply inv_move; [exact Hi| |set_solver|].
    + intros l [->|[s' ->]]; by apply upd_ne.
    + eapply slots_ok_token; [| |apply slots_ok_drop_some; [exact Hs|done|..]];
        [tokens|by rewrite empty_cons, pinned_k_cons|lia..].
Qed.

(** Take a reference to a slot somebody references. *)
Lemma inv_pin m cnt env s :
  inv g m cnt env → 0 <= s < pool_size g →
  0 < m (Slot s refcount) → m (Slot s refcount) <> U32_MAX →
  inv g (<[Slot s refcount := m (Slot s refcount) + 1]> m) cnt ({[+ Pinned s +]} ⊎ env).
Proof using Type.
  clear Hg.
  intros Hi Hrange Hpos Hmax. rewrite <- (left_id_L ∅ (⊎) env) in Hi.
  pose proof Hi as [[fl Hs] _ _ _ _]. eapply inv_move; [exact Hi| |set_solver|].
  - intros l [->|[s' ->]]; by apply upd_ne.
  - eapply slots_ok_token; [| |apply slots_ok_pin; [exact Hs|done..]]; [tokens|].
    by rewrite empty_cons, pinned_cons.
Qed.

(** An entry's claim is replaced: the entry takes over the references to the new
    slot, and the process gets those to the old one. *)
Lemma inv_transfer m cnt env i idx w :
  inv g m cnt (claimed w ⊎ env) → 0 <= i < max_subs g → 0 <= idx < sub_ring_capacity g →
  inv g (<[Ent i idx meta := w]> m) cnt (claimed (m (Ent i idx meta)) ⊎ env).
Proof using Type.
  clear Hg.
  intros Hi Hri Hidx. pose proof Hi as [[fl Hs] _ _ _ _]. eapply inv_move; [exact Hi| | |].
  - intros l [->|[s' ->]]; by apply upd_ne.
  - intros t. unfold claimed. rewrite meta_slot_biased_mod. pose proof (Z.mod_pos_bound (m (Ent i idx meta)) 16777216 ltac:(lia)).
    destruct (Z.eqb_spec (m (Ent i idx meta) `mod` 16777216) 0); [set_solver|].
    destruct (Z.leb_spec (pool_size g) (m (Ent i idx meta) `mod` 16777216 - 1)); [set_solver|].
    intros ->%gmultiset_elem_of_singleton. eexists. split; [|by right]. lia.
  - pose proof (slots_ok_transfer _ _ _ _ _ i idx w Hs Hri Hidx) as Hs'.
    eapply slots_ok_token; [| |apply Hs']; [tokens|by rewrite !claimed_cons|].
    intros s Hr. rewrite pins_disj_union, pins_claimed by done. unfold pins. lia.
Qed.

(** *** The free stack *)

Lemma not_free m fl p s res :
  slots_ok g m p fl res → s ∈ res → tagged_idx (m (Hdr free_top)) ≠ s.
Proof using Hg.
  intros Hs Hin Heq. destruct (so_res _ _ _ _ _ Hs s Hin) as [Hr Hfl].
  destruct (so_free _ _ _ _ _ Hs) as [Hc _ _]. rewrite (chain_head _ _ _ Hc) in Heq.
  destruct fl as [|s' fl]; [|set_solver].
  destruct Hg. change MAX_POOL_SIZE with 16777214 in *. unfold INVALID_SLOT in Heq. lia.
Qed.

(** Link a reserved slot to [v]: nobody else reads the link while it is not on
    the stack. *)
Lemma inv_link m cnt env s v tok :
  tok = Reserved s ∨ (∃ v0, tok = Linked s v0) →
  inv g m cnt ({[+ tok +]} ⊎ env) →
  inv g (<[Slot s next_free := v]> m) cnt ({[+ Linked s v +]} ⊎ env).
Proof using Hg.
  intros Htok [[fl Hs] Hpin Hgen Hl Hp].
  assert (slots_ok g m (pins env) fl (s :: reserved env)) as Hs'.
  { destruct Htok as [->|[v0 ->]]; (eapply slots_ok_count; [| |exact Hs]; tokens). }
  pose proof (not_free _ _ _ s _ Hs' ltac:(set_solver)) as Htop.
  destruct (so_res _ _ _ _ _ Hs' s) as [Hr Hfl]; [set_solver|].
  pose proof (so_res_nodup _ _ _ _ _ Hs') as [Hnd _]%NoDup_cons. split.
  - exists fl. eapply slots_ok_token; [| |eapply slots_ok_link; [exact Hs'|set_solver]]; tokens.
  - intros s' Hin. apply Hpin. destruct Htok as [->|[v0 ->]]; multiset_solver.
  - by rewrite upd_ne.
  - intros s' v' [Hin|Hin]%gmultiset_elem_of_disj_union.
    + apply gmultiset_elem_of_singleton in Hin. simplify_eq. by rewrite upd_same.
    + rewrite upd_ne; [apply Hl; multiset_solver|]. intros [= ->].
      apply Hnd, elem_of_reserved. eauto.
  - intros c top next Hin. rewrite (upd_ne _ _ (Hdr free_top)) by done.
    destruct (Hp c top next) as (? & ? & Hc); [multiset_solver|].
    split; [done|]. split; [done|]. intros E. destruct (Hc E) as [<- Hnext].
    split; [done|]. intros v' Ev. rewrite upd_ne; [auto|]. congruence.
Qed.

(** A push: the head is swung to a linked slot. *)
Lemma inv_push m cnt env s :
  inv g m cnt ({[+ Linked s (tagged_idx (m (Hdr free_top))) +]} ⊎ env) →
  inv g (<[Hdr free_top := tagged_pack (next_gen m) s]> m) (cnt + 1) (∅ ⊎ env).
Proof using Hg.
  intros [[fl Hs] Hpin Hgen Hl Hp].
  assert (slots_ok g m (pins env) fl (s :: reserved env)) as Hs'
    by (eapply slots_ok_count; [| |exact Hs]; tokens).
  assert (pushed m s = <[Hdr free_top := tagged_pack (next_gen m) s]> m) as Hm.
  { unfold pushed. rewrite (upd_id m (Slot s next_free)); [done|]. apply Hl. multiset_solver. }
  destruct (so_res _ _ _ _ _ Hs' s) as [Hr _]; [set_solver|]. split.
  - exists (s :: fl). rewrite <- Hm. eapply slots_ok_token; [| |apply slots_ok_push; [done|exact Hs']]; tokens.
  - intros s' Hin. apply Hpin. multiset_solver.
  - rewrite upd_same, tagged_gen_pack; [|apply next_gen_range|apply (slot_u32 (pool_size g)); [by destruct Hg|done]].
    unfold next_gen. rewrite Hgen. unfold u32. by rewrite Zplus_mod_idemp_l.
  - intros s' v' Hin. rewrite upd_ne by done. apply Hl. multiset_solver.
  - intros c top next Hin. destruct (Hp c top next) as (? & ? & _); [multiset_solver|].
    split; [lia|]. split; [done|]. lia.
Qed.

(** Reading the head, and then the link of its slot. *)
Definition peek (c top : Z) : tokens :=
  if (tagged_idx top =? INVALID_SLOT) || (pool_size g <=? tagged_idx top) then ∅
  else {[+ Peeked c top None +]}.

Lemma inv_peek m cnt own env :
  inv g m cnt (own ⊎ env) → (∀ t, t ∈ own → ∃ c top next, t = Peeked c top next) →
  inv g m cnt (peek cnt (m (Hdr free_top)) ⊎ env).
Proof using Type.
  clear Hg.
  intros [[fl Hs] Hpin Hgen Hl Hp] Hown.
  assert (reserved own = []) as Hres.
  { apply elem_of_nil_inv. intros s [Hin|[v Hin]]%elem_of_reserved;
      destruct (Hown _ Hin) as (? & ? & ? & ?); discriminate. }
  assert (∀ s, pins own s = 0) as Hpins.
  { intros s. unfold pins. destruct (multiplicity (Pinned s) own) eqn:E; [done|].
    assert (Pinned s ∈ own) as Hin by (apply elem_of_multiplicity; lia).
    destruct (Hown _ Hin) as (? & ? & ? & ?); discriminate. }
  assert (∀ t, t ∈ peek cnt (m (Hdr free_top)) → t = Peeked cnt (m (Hdr free_top)) None) as Hpeek.
  { intros t. unfold peek. destruct (_ || _); set_solver. }
  split.
  - exists fl. unfold peek. destruct (_ || _); apply (slots_ok_count _ _ _ (pins env) (reserved env)) in Hs;
      try (by rewrite reserved_disj_union, Hres);
      try (intros s _; by rewrite pins_disj_union, Hpins);
      (eapply slots_ok_token; [| |exact Hs]; tokens).
  - intros s [Hin%Hpeek|?]%gmultiset_elem_of_disj_union; [done|apply Hpin; multiset_solver].
  - done.
  - intros s v [Hin%Hpeek|?]%gmultiset_elem_of_disj_union; [done|apply Hl; multiset_solver].
  - intros c top next [Hin%Hpeek|Hin]%gmultiset_elem_of_disj_union; [|apply Hp; multiset_solver].
    simplify_eq. naive_solver lia.
Qed.

Lemma inv_peek_next m cnt env c top :
  inv g m cnt ({[+ Peeked c top None +]} ⊎ env) →
  inv g m cnt ({[+ Peeked c top (Some (m (Slot (tagged_idx top) next_free))) +]} ⊎ env).
Proof using Type.
  clear Hg.
  intros [[fl Hs] Hpin Hgen Hl Hp]. split.
  - exists fl. apply (slots_ok_count _ _ _ (pins env) (reserved env)) in Hs;
      [eapply slots_ok_token; [| |exact Hs]; tokens|tokens..].
  - intros s Hin. apply Hpin. multiset_solver.
  - done.
  - intros s v Hin. apply Hl. multiset_solver.
  - intros c' top' next [Hin|Hin]%gmultiset_elem_of_disj_union; [|apply Hp; multiset_solver].
    apply gmultiset_elem_of_singleton in Hin. simplify_eq.
    destruct (Hp c top None) as (? & ? & Hc); [multiset_solver|]. naive_solver.
Qed.

(** A pop whose view of the head is not a whole lap of the generation old. *)
Lemma inv_pop m cnt env c top next :
  inv g m cnt ({[+ Peeked c top (Some next) +]} ⊎ env) →
  cnt - c < GENERATIONS → m (Hdr free_top) = top →
  tagged_idx top ≠ INVALID_SLOT → 
  inv g (<[Hdr free_top := tagged_pack (u32 (tagged_gen top + 1)) next]> m) (cnt + 1)
    ({[+ Reserved (tagged_idx top) +]} ⊎ env).
Proof using Hg.
  intros [[fl Hs] Hpin Hgen Hl Hp] Hlap Htop Hidx.
  destruct (Hp c top (Some next)) as (Hc & Hgc & Hnext); [multiset_solver|].
  assert (cnt = c) as ->.
  { rewrite Htop, Hgc in Hgen. unfold u32, GENERATIONS in *. lia. }
  destruct (Hnext eq_refl) as [_ Hn]. specialize (Hn next eq_refl).
  destruct fl as [|s fl].
  { destruct (so_free _ _ _ _ _ Hs) as [Hch _ _]. cbn in Hch. congruence. }
  destruct (so_free _ _ _ _ _ Hs) as [Hch _ Hr]. cbn in Hch. destruct Hch as [Hs_top Hch].
  rewrite Htop in Hs_top. rewrite Hs_top in *.
  assert (popped m s = <[Hdr free_top := tagged_pack (u32 (tagged_gen top + 1)) next]> m) as Hm.
  { unfold popped, next_gen. by rewrite Htop, Hn. }
  assert (slots_ok g m (pins env) (s :: fl) (reserved env)) as Hs'
    by (eapply slots_ok_count; [| |exact Hs]; tokens).
  split.
  - exists fl. rewrite <- Hm. eapply slots_ok_token; [| |apply slots_ok_pop; [done|exact Hs']]; tokens.
  - intros s' Hin. apply Hpin. multiset_solver.
  - rewrite upd_same, tagged_gen_pack; [|apply u32_range|].
    + rewrite Hgc. unfold u32. by rewrite Zplus_mod_idemp_l.
    + rewrite <- Hn. inversion Hr; subst. eapply chain_next_u32; [by destruct Hg|done|done].
  - intros s' v' Hin. rewrite upd_ne by done. apply Hl. multiset_solver.
  - intros c' top' next' Hin. destruct (Hp c' top' next') as (? & ? & _); [multiset_solver|].
    split; [lia|]. split; [done|]. lia.
Qed.

(** ** The operations *)

Abbreviation sp := (spec watch GENERATIONS guard (inv g)).

Lemma spec_push s : sp {[+ Reserved s +]} (treiber_push s) (λ _ own, own = ∅).
Proof using Hg.
  unfold treiber_push. apply spec_bind, spec_readonly; [done|done|]. intros old.
  eapply (spec_loop _ _ _ _ _ (λ (_ : Z) own,
    own = {[+ Reserved s +]} ∨ ∃ v, own = {[+ Linked s v +]})); [by left|].
  clear old. intros old own Hown.
  assert (owns_slot own s) as Hs.
  { apply elem_of_reserved. destruct Hown as [->|[v ->]]; [left|right; exists v];
      by apply gmultiset_elem_of_singleton. }
  apply spec_bind. eapply spec_store with (own' := {[+ Linked s (tagged_idx old) +]}); [done|done| |].
  { intros m cnt env Hi. destruct Hown as [->|[v ->]]; (eapply inv_link; [|exact Hi]; eauto). }
  apply spec_bind. apply spec_act; [done|].
  intros m cnt seen env r m' Hi _ [(He & -> & ->)|(-> & ->)].
  - exists ∅. split; [|by apply spec_ret]. unfold count. cbn. subst old. by apply inv_push.
  - exists {[+ Linked s (tagged_idx old) +]}. split; [done|]. apply spec_ret. eauto.
Qed.

Lemma spec_pop :
  sp ∅ (treiber_pop (pool_size g)) (λ s own,
    (s = INVALID_SLOT ∧ own = ∅) ∨ (0 <= s < pool_size g ∧ own = {[+ Reserved s +]})).
Proof using Hg.
  intros n seen. unfold treiber_pop. apply safe_bind.
  destruct n as [|n]; [done|]. split; [done|].
  intros m cnt env r m' Hi _ [-> ->]. exists (peek cnt (m (Hdr free_top))).
  split; [eapply inv_peek; [exact Hi|set_solver]|]. apply safe_ret.
  cbn [look reads watched watch count writes].
  apply (safe_loop _ _ _ _ _ _ (λ old seen own, own = peek seen old)); [done|].
  clear -Hg. intros n old seen own ->. unfold peek.
  destruct (Z.eqb_spec (tagged_idx old) INVALID_SLOT) as [E|E]; [apply safe_ret; eauto|].
  destruct (Z.leb_spec (pool_size g) (tagged_idx old)) as [E'|E']; [apply safe_ret; eauto|].
  cbn [orb]. apply safe_bind. destruct n as [|n]; [done|]. split; [done|].
  intros m cnt env r m' Hi _ [-> ->]. eexists. split; [by apply inv_peek_next|].
  apply safe_ret. cbn [look reads watched watch]. apply safe_bind. split; [done|].
  intros m' cnt' env' r m2 Hi' Ht [(He & -> & ->)|(-> & ->)].
  - eexists. split.
    + unfold count. cbn [writes fst watched watch]. eapply inv_pop; [exact Hi'| |exact He|exact E].
      by apply Ht.
    + apply safe_ret, safe_ret. right. split; [|done].
      pose proof (u32_range old). unfold tagged_idx, is_u32 in *. lia.
  - eexists. split; [eapply inv_peek; [exact Hi'|set_solver]|].
    by apply safe_ret, safe_ret.
Qed.

(** *** Actions the accounting does not see *)

Lemma watch_other l : accounted l = false → watch l = false.
Proof. by destruct l as [[]| | | | | | |]. Qed.

Lemma sp_frame {A} own F (p : rprog A) (Q : A → tokens → Prop) :
  sp own p (λ a own', Q a (own' ⊎ F)) → sp (own ⊎ F) p Q.
Proof. apply spec_frame, guard_mono. Qed.

Lemma sp_load l own (Q : Z → tokens → Prop) :
  guard _ (Load l) own → (∀ v, Q v own) → sp own (load l) Q.
Proof. intros. by apply spec_readonly. Qed.

Lemma sp_store l v own (Q : unit → tokens → Prop) :
  accounted l = false → guard _ (Store l v) own → Q tt own → sp own (store l v) Q.
Proof.
  intros Hl Hg' HQ. apply spec_store with (own' := own); [by apply watch_other|done| |done].
  intros. by apply inv_other.
Qed.

Lemma sp_cas l e d own (Q : bool * Z → tokens → Prop) :
  accounted l = false → guard _ (Cas l e d) own → (∀ b v, Q (b, v) own) →
  sp own (compare_exchange_strong l e d) Q.
Proof.
  intros Hl Hg' HQ. apply spec_cas; [by apply watch_other|done| |done].
  intros. exists own. split; [by apply inv_other|done].
Qed.

Lemma sp_cas_weak l e d own (Q : bool * Z → tokens → Prop) :
  accounted l = false → guard _ (CasWeak l e d) own → (∀ b v, Q (b, v) own) →
  sp own (compare_exchange_weak l e d) Q.
Proof.
  intros Hl Hg' HQ. apply spec_cas_weak; [by apply watch_other|done| |done].
  intros. exists own. split; [by apply inv_other|done].
Qed.

Lemma sp_fetch_add wrap l d own (Q : Z → tokens → Prop) :
  accounted l = false → guard _ (FetchAdd wrap l d) own → (∀ v, Q v own) →
  sp own (fetch_add wrap l d) Q.
Proof.
  intros Hl Hg' HQ. apply spec_fetch_add; [by apply watch_other|done|].
  intros. exists own. split; [by apply inv_other|done].
Qed.

End inv.

(** Walk through the actions that concern no token. *)
Ltac walk :=
  match goal with
  | |- spec _ _ _ _ _ (bind _ _) _ => apply spec_bind
  | |- spec _ _ _ _ _ (Ret _) _ => apply spec_ret
  | |- spec _ _ _ _ _ (load _) _ => apply sp_load; [done|intros]
  | |- spec _ _ _ _ _ (store _ _) _ => apply sp_store; [done|done|]
  | |- spec _ _ _ _ _ (compare_exchange_strong _ _ _) _ => apply sp_cas; [done|done|intros]
  | |- spec _ _ _ _ _ (compare_exchange_weak _ _ _) _ => apply sp_cas_weak; [done|done|intros]
  | |- spec _ _ _ _ _ (fetch_add _ _ _) _ => apply sp_fetch_add; [done|done|intros]
  | |- spec _ _ _ _ _ (fetch_sub _ _ _) _ => apply sp_fetch_add; [done|done|intros]
  | |- spec _ _ _ _ _ (when _ _) _ => apply spec_when; intros
  | |- spec _ _ _ _ _ (futex_wait _ _ _) _ => apply spec_readonly; [done|done|intros]
  | |- spec _ _ _ _ _ (futex_wake_all _) _ => apply spec_readonly; [done|done|intros]
  | |- spec _ _ _ _ _ backend_signal _ => apply spec_readonly; [done|done|intros]
  | |- spec _ _ _ _ _ monotonic_ns _ => apply spec_readonly; [done|done|intros]
  | |- spec _ _ _ _ _ since_epoch _ => apply spec_readonly; [done|done|intros]
  | |- spec _ _ _ _ _ yield _ => apply spec_readonly; [done|done|intros]
  | |- spec _ _ _ _ _ (sleep _) _ => apply spec_readonly; [done|done|intros]
  | |- spec _ _ _ _ _ current_pid _ => apply spec_readonly; [done|done|intros]
  | |- spec _ _ _ _ _ (process_exists _) _ => apply spec_readonly; [done|done|intros]
  | |- spec _ _ _ _ _ (process_probe _) _ => apply spec_readonly; [done|done|intros]
  | |- spec _ _ _ _ _ (match ?r with (_, _) => _ end) _ => destruct r
  | |- spec _ _ _ _ _ (if ?b then _ else _) _ => let E := fresh "E" in destruct b eqn:E
  | |- (λ _ _, _) _ _ => idtac
  end; lazy beta match.
Ltac walks := repeat walk.

Section operations.
Context (g : Geometry) (Hg : pool_geometry g).
Implicit Types (own : tokens).
Abbreviation sp := (spec watch GENERATIONS guard (inv g)).

(** Drop [k] references at once: the last ones free the slot. *)
Lemma spec_drop_references s k :
  (1 <= k)%nat →
  sp (k *: {[+ Pinned s +]})
    (prev <- fetch_sub u32 (Slot s refcount) (Z.of_nat k) ;;
     when (prev =? Z.of_nat k) (treiber_push s)) (λ _ own, own = ∅).
Proof using Hg.
  intros Hk. apply spec_bind, spec_fetch_add; [done| |].
  { apply gmultiset_elem_of_scalar_mul. split; [lia|]. by apply gmultiset_elem_of_singleton. }
  intros m cnt env Hi. eexists. split; [by apply inv_drop|].
  walk; rewrite H; [by apply spec_push|done].
Qed.

Lemma spec_drop s : sp {[+ Pinned s +]} (drop_reference s) (λ _ own, own = ∅).
Proof using Hg.
  rewrite <- (gmultiset_scalar_mul_1 {[+ Pinned s +]}). by apply (spec_drop_references s 1).
Qed.
End operations.
End Ownership.
