(* ===== verification/Publisher.v ===== *)
(** * Publishing ([src/Publisher.cc], [include/kickmsg/Publisher.h])

    The [Publisher] object and the [AllocatedSlot] reservations it hands out
    are records passed through the operations; everything shared is in the
    region's memory.  [publish] is split where the source's ring loop changes
    phase: [enter_ring], [wait_for_commit], [lock_entry], [take_claim] and the
    commit. *)

From S2P Require Import Prelude Prog Types Layout Words Pool.
Import Types Layout Pool.

Module Publisher.
Record publisher := {
  pub_geometry : Geometry;
  commit_timeout_ : Z;      (** microseconds *)
  pending_slot_ : Z;
  reservation_ : Z;
  dropped_ : Z;
  wake_backend_ : bool      (** a backend was given *)
}.

Record AllocatedSlot := {
  publisher_ : bool;        (** the publisher pointer is not null *)
  data_ : Z;                (** slot whose payload [data_] points to *)
  max_size_ : Z;
  id_ : Z;
  published_ : bool
}.

Definition set_pending (p : publisher) (slot : Z) : publisher :=
  {| pub_geometry := pub_geometry p; commit_timeout_ := commit_timeout_ p;
     pending_slot_ := slot; reservation_ := reservation_ p; dropped_ := dropped_ p;
     wake_backend_ := wake_backend_ p |}.
Definition set_reservation (p : publisher) (r : Z) : publisher :=
  {| pub_geometry := pub_geometry p; commit_timeout_ := commit_timeout_ p;
     pending_slot_ := pending_slot_ p; reservation_ := r; dropped_ := dropped_ p;
     wake_backend_ := wake_backend_ p |}.
Definition set_dropped (p : publisher) (d : Z) : publisher :=
  {| pub_geometry := pub_geometry p; commit_timeout_ := commit_timeout_ p;
     pending_slot_ := pending_slot_ p; reservation_ := reservation_ p; dropped_ := d;
     wake_backend_ := wake_backend_ p |}.

(** The constructor, on the geometry of an open region. *)
Definition make_publisher (g : Geometry) (backend : bool) : publisher :=
  {| pub_geometry := g; commit_timeout_ := i64 (commit_timeout_us g);
     pending_slot_ := INVALID_SLOT; reservation_ := 0; dropped_ := 0;
     wake_backend_ := backend |}.

Definition null_slot : AllocatedSlot :=
  {| publisher_ := false; data_ := INVALID_SLOT; max_size_ := 0; id_ := 0; published_ := false |}.

Definition wake_ring (i : Z) : rprog bool :=
  waiter <- load (Ring i has_waiter) ;;
  when (waiter =? ring.WaiterFutex) (futex_wake_all (Ring i write_pos)) ;;
  Ret (waiter =? ring.WaiterCarrier).

Definition release_pending (p : publisher) : rprog publisher :=
  if negb (pending_slot_ p =? INVALID_SLOT) then
    treiber_push (pending_slot_ p) ;;
    Ret (set_pending p INVALID_SLOT)
  else Ret p.

(** ** Moves of a publisher *)

(** [Publisher(Publisher&& other)]: the new object and the moved-from one. *)
Definition publisher_move (other : publisher) : rprog (publisher * publisher) :=
  other' <- release_pending other ;;
  Ret ({| pub_geometry := pub_geometry other; commit_timeout_ := commit_timeout_ other;
          pending_slot_ := INVALID_SLOT; reservation_ := reservation_ other;
          dropped_ := dropped_ other; wake_backend_ := wake_backend_ other |},
       set_reservation other' (u64 (reservation_ other' + 1))).

(** [operator=(Publisher&&)] between two objects on one region. *)
Definition publisher_move_assign (this other : publisher) : rprog (publisher * publisher) :=
  this' <- release_pending this ;;
  other' <- release_pending other ;;
  Ret ({| pub_geometry := pub_geometry other; commit_timeout_ := commit_timeout_ other;
          pending_slot_ := INVALID_SLOT;
          reservation_ := u64 (Z.max (reservation_ this') (reservation_ other) + 1);
          dropped_ := dropped_ other; wake_backend_ := wake_backend_ other |},
       set_reservation other' (u64 (reservation_ other' + 1))).

(** ** Reservations *)

Definition valid (a : AllocatedSlot) (p : publisher) : bool :=
  publisher_ a && negb (published_ a) && (reservation_ p =? id_ a).

Definition slot_destroy (a : AllocatedSlot) (p : publisher) : rprog publisher :=
  if valid a p then release_pending p else Ret p.

(** The moved-to handle and the moved-from one. *)
Definition slot_move (other : AllocatedSlot) : AllocatedSlot * AllocatedSlot :=
  (other,
   {| publisher_ := false; data_ := data_ other; max_size_ := max_size_ other;
      id_ := id_ other; published_ := published_ other |}).

Definition slot_move_assign (this other : AllocatedSlot) (p : publisher)
    : rprog ((AllocatedSlot * AllocatedSlot) * publisher) :=
  p' <- (if valid this p then release_pending p else Ret p) ;;
  Ret (slot_move other, p').

Definition slot_write (a : AllocatedSlot) (p : publisher) (src : list Z) : rprog Z :=
  let len := Z.of_nat (length src) in
  if negb (valid a p) || (max_size_ a <? len) then Ret 0
  else
    memcpy_in (SlotByte (data_ a)) src ;;
    Ret len.

Definition allocate (p : publisher) : rprog (AllocatedSlot * publisher) :=
  p <- release_pending p ;;
  let p := set_reservation p (u64 (reservation_ p + 1)) in
  slot_idx <- treiber_pop (pool_size (pub_geometry p)) ;;
  if slot_idx =? INVALID_SLOT then Ret (null_slot, p)
  else
    Ret ({| publisher_ := true; data_ := slot_idx;
            max_size_ := slot_data_size (pub_geometry p);
            id_ := reservation_ p; published_ := false |},
         set_pending p slot_idx).

(** ** The ring loop of [publish] *)

Record CommitWait := { last_seq : Z; stable_lock : bool }.

Definition release_slot (g : Geometry) (idx : Z) : rprog unit :=
  if pool_size g <=? idx then Ret tt else drop_reference idx.

(** Enter the ring: check Live and increment [in_flight] in one CAS. *)
Definition enter_ring (i : Z) : rprog bool :=
  snapshot <- load (Ring i state_flight) ;;
  if negb (ring.get_state snapshot =? ring.Live) then Ret false
  else
    loop snapshot (λ old,
      if negb (ring.get_state old =? ring.Live) then Ret (inr false)
      else
        '(ok, current) <- compare_exchange_weak (Ring i state_flight) old
                            (u32 (old + ring.IN_FLIGHT_ONE)) ;;
        if ok : bool then Ret (inr true) else Ret (inl current)).

Definition committed_since (seq expected_seq : Z) : bool :=
  negb (seq_is_locked seq) && (expected_seq <=? seq_pos seq).

Definition wait_for_commit (i idx expected_seq timeout : Z) : rprog CommitWait :=
  first <- load (Ent i idx sequence) ;;
  if committed_since first expected_seq then Ret {| last_seq := first; stable_lock := false |}
  else
    start <- monotonic_ns ;;
    loop (first, 0) (λ '(seq, n),
      if committed_since seq expected_seq then
        Ret (inr {| last_seq := seq; stable_lock := false |})
      else
        let n := n + 1 in
        expired <- (if Z.land n 1023 =? 0 then
                      now <- monotonic_ns ;;
                      Ret (timeout * 1000 <=? now - start)
                    else Ret false) ;;
        if expired : bool then
          Ret (inr {| last_seq := seq;
                      stable_lock := seq_is_locked first && (seq =? first) |})
        else
          seq <- load (Ent i idx sequence) ;;
          Ret (inl (seq, n))).

(** The atomics of [abandon_delivery]; its [++dropped_] is [abandoned] below. *)
Definition abandon_delivery (i : Z) : rprog bool :=
  fetch_add u64 (Ring i dropped_count) 1 ;;;
  fetch_sub u32 (Ring i state_flight) ring.IN_FLIGHT_ONE ;;;
  wake_ring i.

Definition self_repair (i idx pos capacity : Z) (wait : CommitWait) : rprog unit :=
  seq <- load (Ent i idx sequence) ;;
  let done := u64 (pos + 1) in
  if (if seq_is_locked seq
      then negb (stable_lock wait) || negb (seq =? last_seq wait)
      else done <=? u64 (seq_pos seq + capacity))
  then Ret tt
  else
    stolen <- entry_steal_and_skip i idx pos seq ;;
    when stolen (fetch_add u64 (Hdr steal_count) 1 ;;; Ret tt).

(** The lock loop: at most 64 attempts to replace the committed predecessor. *)
Definition lock_entry (i idx pos prev_seq observed : Z) : rprog bool :=
  r <- for_ 64 0 observed (λ _ observed,
    if negb (seq_is_locked observed) && (seq_pos observed =? prev_seq) then
      '(ok, current) <- compare_exchange_weak (Ent i idx sequence) observed (seq_lock pos) ;;
      if ok : bool then Ret (inr true) else Ret (inl current)
    else if negb (seq_is_locked observed) then Ret (inr false)
    else
      observed <- load (Ent i idx sequence) ;;
      Ret (inl observed)) ;;
  match r with
  | inl _ => Ret false
  | inr locked => Ret locked
  end.

(** Replace an older position's claim; the claim that was replaced. *)
Definition take_claim (i idx pos slot_idx : Z) : rprog (option Z) :=
  let my_meta := meta_pack pos slot_idx in
  old_meta <- load (Ent i idx meta) ;;
  loop old_meta (λ old_meta,
    if negb (meta_precedes old_meta pos) then Ret (inr None)
    else
      '(ok, current) <- compare_exchange_weak (Ent i idx meta) old_meta my_meta ;;
      if ok : bool then Ret (inr (Some old_meta)) else Ret (inl current)).

(** ** [publish] *)

(** The locals of the ring loop, with the publisher's [dropped_]. *)
Record delivery := {
  delivered : Z;
  excess : Z;
  carrier : bool;
  drops : Z
}.

Definition refused (d : delivery) : delivery :=
  {| delivered := delivered d; excess := u32 (excess d + 1);
     carrier := carrier d; drops := drops d |}.
(** [carrier |= abandon_delivery(ring)]; the reference is dropped at the end
    when [extra]. *)
Definition abandoned (d : delivery) (woken extra : bool) : delivery :=
  {| delivered := delivered d;
     excess := if extra then u32 (excess d + 1) else excess d;
     carrier := carrier d || woken; drops := u64 (drops d + 1) |}.
Definition committed (d : delivery) (woken : bool) : delivery :=
  {| delivered := delivered d + 1; excess := excess d;
     carrier := carrier d || woken; drops := drops d |}.
Definition signalled (d : delivery) : delivery :=
  {| delivered := delivered d; excess := excess d; carrier := false; drops := drops d |}.

(** Before waiting on a busy entry, send the wakes already owed. *)
Definition signal_before_wait (p : publisher) (i idx prev_seq : Z) (d : delivery)
    : rprog delivery :=
  cur <- load (Ent i idx sequence) ;;
  let blocks := seq_is_locked cur || (seq_pos cur <? prev_seq) in
  if blocks && carrier d && wake_backend_ p then
    backend_signal ;; Ret (signalled d)
  else Ret d.

(** Write and commit a locked entry: claim, drop the old claim, commit. *)
Definition commit_entry (p : publisher) (i idx pos slot_idx : Z) (d : delivery)
    : rprog delivery :=
  let lock_val := seq_lock pos in
  cur <- load (Ent i idx sequence) ;;
  if negb (cur =? lock_val) then
    woken <- abandon_delivery i ;; Ret (abandoned d woken true)
  else
    taken <- take_claim i idx pos slot_idx ;;
    match taken with
    | None => woken <- abandon_delivery i ;; Ret (abandoned d woken true)
    | Some old_meta =>
        let prev_biased := meta_slot_biased old_meta in
        when (negb (prev_biased =? 0)) (release_slot (pub_geometry p) (u32 (prev_biased - 1))) ;;
        '(ok, _) <- compare_exchange_strong (Ent i idx sequence) lock_val (u64 (pos + 1)) ;;
        if negb ok then
          woken <- abandon_delivery i ;; Ret (abandoned d woken false)
        else
          fetch_sub u32 (Ring i state_flight) ring.IN_FLIGHT_ONE ;;;
          woken <- wake_ring i ;;
          Ret (committed d woken)
    end.

(** An admitted delivery, from the position it takes to the commit. *)
Definition deliver_admitted (p : publisher) (i slot_idx : Z) (d : delivery) : rprog delivery :=
  let g := pub_geometry p in
  let capacity := sub_ring_capacity g in
  pos <- fetch_add u64 (Ring i write_pos) 1 ;;
  let idx := Z.land pos (sub_ring_mask g) in
  let prev_seq := if capacity <=? pos then u64 (pos - capacity + 1) else 0 in
  '(wait, d) <- (if capacity <=? pos then
                   d <- signal_before_wait p i idx prev_seq d ;;
                   wait <- wait_for_commit i idx prev_seq (commit_timeout_ p) ;;
                   Ret (wait, d)
                 else Ret ({| last_seq := 0; stable_lock := false |}, d)) ;;
  let observed := if capacity <=? pos then last_seq wait else 0 in
  locked <- lock_entry i idx pos prev_seq observed ;;
  if negb locked then
    self_repair i idx pos capacity wait ;;
    woken <- abandon_delivery i ;;
    Ret (abandoned d woken true)
  else commit_entry p i idx pos slot_idx d.

Definition deliver (p : publisher) (i slot_idx : Z) (d : delivery) : rprog delivery :=
  admitted <- enter_ring i ;;
  if negb admitted then Ret (refused d) else deliver_admitted p i slot_idx d.

(** Drop the references that no ring entry took. *)
Definition release_excess (slot_idx n : Z) : rprog unit :=
  if 0 <? n then
    prev <- fetch_sub u32 (Slot slot_idx refcount) n ;;
    when (prev =? n) (treiber_push slot_idx)
  else Ret tt.

Definition publish (p : publisher) (len : Z) : rprog (Z * publisher) :=
  let g := pub_geometry p in
  if slot_data_size g <? len then
    p <- release_pending p ;; Ret (0, p)
  else if pending_slot_ p =? INVALID_SLOT then Ret (0, p)
  else
    let slot_idx := pending_slot_ p in
    let p := set_pending p INVALID_SLOT in
    store (Slot slot_idx payload_len) (u32 len) ;;
    store (Slot slot_idx refcount) (u32 (max_subs g)) ;;
    d <- foreach (Z.to_nat (max_subs g)) 0
           {| delivered := 0; excess := 0; carrier := false; drops := dropped_ p |}
           (λ i d, deliver p i slot_idx d) ;;
    release_excess slot_idx (excess d) ;;
    when (carrier d && wake_backend_ p) backend_signal ;;
    Ret (delivered d, set_dropped p (drops d)).

Definition slot_publish (a : AllocatedSlot) (p : publisher) (len : Z)
    : rprog (Z * (AllocatedSlot * publisher)) :=
  if negb (valid a p) then Ret (0, (a, p))
  else
    '(n, p) <- publish p len ;;
    Ret (n, ({| publisher_ := publisher_ a; data_ := data_ a; max_size_ := max_size_ a;
                id_ := id_ a; published_ := true |}, p)).

Definition EMSGSIZE : Z := 90.
Definition EAGAIN : Z := 11.

Definition send (p : publisher) (data : list Z) : rprog (Z * publisher) :=
  let len := Z.of_nat (length data) in
  if slot_data_size (pub_geometry p) <? len then Ret (- EMSGSIZE, p)
  else
    '(slot, p) <- allocate p ;;
    if negb (valid slot p) then Ret (- EAGAIN, p)
    else
      slot_write slot p data ;;;
      '(_, (slot, p)) <- slot_publish slot p len ;;
      p <- slot_destroy slot p ;;
      Ret (i32 len, p).
End Publisher.
