(* ===== verification/Subscriber.v ===== *)
(** * Subscribing ([src/Subscriber.cc], [include/kickmsg/Subscriber.h])

    The [Subscriber] object, its [SampleView]s and its [SampleRef]s are records
    passed through the operations.  A null ring is [ring_idx_ = UINT32_MAX], as
    in the source.  [try_receive_view] is split where its loop changes phase:
    [check_claim], [pin], and [read_pinned]. *)

From S2P Require Import Prelude Prog Types Layout Words Process Pool.
Import Types Layout Pool.

Module Subscriber.
Record subscriber := {
  sub_geometry : Geometry;
  ring_idx_ : Z;
  start_pos_ : Z;
  read_pos_ : Z;
  lost_ : Z;
  drain_timeouts_ : Z;
  recv_buf_ : list Z;
  waker_ : option nat      (** the attached waker, if any *)
}.

Record SampleView := {
  view_slot_idx_ : Z;
  view_len_ : Z;
  view_ring_pos_ : Z
}.

(** A sample copied into [recv_buf_]. *)
Record SampleRef := {
  ref_data_ : option (list Z);     (** [None]: a moved-from reference *)
  ref_len_ : Z;
  ref_ring_pos_ : Z
}.

Inductive Wait := Ready | Armed | Poll.

Abbreviation NO_RING := 4294967295.
Definition RECHECK_NAP : Z := 100000.

Definition set_ring (s : subscriber) (i : Z) : subscriber :=
  {| sub_geometry := sub_geometry s; ring_idx_ := i; start_pos_ := start_pos_ s;
     read_pos_ := read_pos_ s; lost_ := lost_ s; drain_timeouts_ := drain_timeouts_ s;
     recv_buf_ := recv_buf_ s; waker_ := waker_ s |}.
Definition set_read (s : subscriber) (pos lost : Z) : subscriber :=
  {| sub_geometry := sub_geometry s; ring_idx_ := ring_idx_ s; start_pos_ := start_pos_ s;
     read_pos_ := pos; lost_ := lost; drain_timeouts_ := drain_timeouts_ s;
     recv_buf_ := recv_buf_ s; waker_ := waker_ s |}.
Definition set_drain_timeouts (s : subscriber) (n : Z) : subscriber :=
  {| sub_geometry := sub_geometry s; ring_idx_ := ring_idx_ s; start_pos_ := start_pos_ s;
     read_pos_ := read_pos_ s; lost_ := lost_ s; drain_timeouts_ := n;
     recv_buf_ := recv_buf_ s; waker_ := waker_ s |}.
Definition set_buf (s : subscriber) (b : list Z) : subscriber :=
  {| sub_geometry := sub_geometry s; ring_idx_ := ring_idx_ s; start_pos_ := start_pos_ s;
     read_pos_ := read_pos_ s; lost_ := lost_ s; drain_timeouts_ := drain_timeouts_ s;
     recv_buf_ := b; waker_ := waker_ s |}.
Definition set_waker (s : subscriber) (w : option nat) : subscriber :=
  {| sub_geometry := sub_geometry s; ring_idx_ := ring_idx_ s; start_pos_ := start_pos_ s;
     read_pos_ := read_pos_ s; lost_ := lost_ s; drain_timeouts_ := drain_timeouts_ s;
     recv_buf_ := recv_buf_ s; waker_ := w |}.

(** ** Joining and leaving a ring *)

(** One candidate ring of the constructor: the ring's drain floor and read
    position when the claim wins. *)
Definition join_ring (i : Z) : rprog (option (Z * Z)) :=
  wp <- load (Ring i write_pos) ;;
  '(ok, _) <- compare_exchange_strong (Ring i state_flight)
                (ring.make_packed ring.Free 0) (ring.make_packed ring.Live 0) ;;
  if negb ok then Ret None
  else
    pid <- current_pid ;;
    starttime <- Process.process_starttime pid ;;
    store (Ring i owner_starttime) starttime ;;
    store (Ring i owner_pid) pid ;;
    wp2 <- load (Ring i write_pos) ;;
    Ret (Some (wp, if wp <? wp2 then wp2 else wp)).

Definition make_subscriber (g : Geometry) : rprog subscriber :=
  r <- for_ (Z.to_nat (max_subs g)) 0 tt (λ i _,
    joined <- join_ring i ;;
    match joined with
    | Some (start, read) => Ret (inr (i, start, read))
    | None => Ret (inl tt)
    end) ;;
  match r with
  | inl _ => throw runtime_error "No free subscriber slots"
  | inr (i, start, read) =>
      Ret {| sub_geometry := g; ring_idx_ := i; start_pos_ := start; read_pos_ := read;
             lost_ := 0; drain_timeouts_ := 0;
             recv_buf_ := replicate (Z.to_nat (slot_data_size g)) 0; waker_ := None |}
  end.

(** Change a ring's state, preserving its admission count. *)
Definition set_ring_state (i : Z) (state : Z) : rprog unit :=
  old <- load (Ring i state_flight) ;;
  loop old (λ old,
    '(ok, current) <- compare_exchange_weak (Ring i state_flight) old
                        (ring.with_state old state) ;;
    if ok : bool then Ret (inr tt) else Ret (inl current)).

(** Wait for the admitted publishers, at most [deadline] microseconds. *)
Definition quiesce (i deadline : Z) : rprog bool :=
  start <- monotonic_ns ;;
  loop tt (λ _,
    sf <- load (Ring i state_flight) ;;
    if negb (0 <? ring.get_in_flight sf) then Ret (inr true)
    else
      now <- monotonic_ns ;;
      if deadline * 1000 <=? now - start then Ret (inr false)
      else yield ;; Ret (inl tt)).

(** One entry of [drain_unconsumed]. *)
Definition drain_entry (g : Geometry) (i pos : Z) : rprog unit :=
  let idx := Z.land pos (sub_ring_mask g) in
  m <- load (Ent i idx meta) ;;
  let biased := meta_slot_biased m in
  if (biased =? 0) || (pool_size g <=? biased - 1) then Ret tt
  else
    let slot_idx := biased - 1 in
    '(ok, _) <- compare_exchange_strong (Ent i idx meta) m (Z.ldiff m META_SLOT_MASK) ;;
    when ok (drop_reference slot_idx).

(** The first position this subscriber is responsible for. *)
Definition drain_floor (capacity start wp : Z) : Z :=
  let oldest := if capacity <? wp then wp - capacity else 0 in
  if oldest <? start then start else oldest.

Definition drain_unconsumed (s : subscriber) : rprog unit :=
  let g := sub_geometry s in
  wp <- load (Ring (ring_idx_ s) write_pos) ;;
  if wp =? 0 then Ret tt
  else
    let oldest := drain_floor (sub_ring_capacity g) (start_pos_ s) wp in
    foreach (Z.to_nat (wp - oldest)) oldest tt (λ pos _, drain_entry g (ring_idx_ s) pos).

Definition release_ring (s : subscriber) : rprog subscriber :=
  if ring_idx_ s =? NO_RING then Ret s
  else
    let i := ring_idx_ s in
    set_ring_state i ring.Draining ;;
    quiesced <- quiesce i (i64 (commit_timeout_us (sub_geometry s))) ;;
    let s := if quiesced : bool then s
             else set_drain_timeouts s (u64 (drain_timeouts_ s + 1)) in
    clear_owner i ;;
    (if quiesced : bool then
       drain_unconsumed s ;;
       store (Ring i state_flight) (ring.make_packed ring.Free 0)
     else set_ring_state i ring.Free) ;;
    Ret (set_ring s NO_RING).

(** The new object and the moved-from one. *)
Definition subscriber_move (other : subscriber) : subscriber * subscriber :=
  (other, set_waker (set_buf (set_ring other NO_RING) []) None).

Definition subscriber_move_assign (this other : subscriber)
    : rprog (subscriber * subscriber) :=
  release_ring this ;;;
  Ret (subscriber_move other).

(** ** Samples *)

Definition view_release (v : SampleView) : rprog SampleView :=
  if view_slot_idx_ v =? INVALID_SLOT then Ret v
  else
    drop_reference (view_slot_idx_ v) ;;
    Ret {| view_slot_idx_ := INVALID_SLOT; view_len_ := view_len_ v;
           view_ring_pos_ := view_ring_pos_ v |}.

(** The new view and the moved-from one. *)
Definition view_move (other : SampleView) : SampleView * SampleView :=
  (other, {| view_slot_idx_ := INVALID_SLOT; view_len_ := view_len_ other;
             view_ring_pos_ := view_ring_pos_ other |}).

Definition view_move_assign (this other : SampleView) : rprog (SampleView * SampleView) :=
  view_release this ;;;
  Ret (view_move other).

Definition ref_move (other : SampleRef) : SampleRef * SampleRef :=
  (other, {| ref_data_ := None; ref_len_ := 0; ref_ring_pos_ := ref_ring_pos_ other |}).

(** The bytes a view's [data()] and [len()] span. *)
Definition view_bytes (v : SampleView) : rprog (list Z) :=
  memcpy_out (SlotByte (view_slot_idx_ v)) (view_len_ v).

(** ** Receiving *)

(** [++lost_; lost_count.fetch_add(1); ++read_pos_] *)
Definition lose_one (s : subscriber) : rprog subscriber :=
  fetch_add u64 (Ring (ring_idx_ s) lost_count) 1 ;;;
  Ret (set_read s (u64 (read_pos_ s + 1)) (u64 (lost_ s + 1))).

(** Resynchronise when the ring has lapped the reader. *)
Definition resync (s : subscriber) (wp : Z) : rprog subscriber :=
  let capacity := sub_ring_capacity (sub_geometry s) in
  if capacity <? wp - read_pos_ s then
    let skipped := wp - read_pos_ s - capacity in
    fetch_add u64 (Ring (ring_idx_ s) lost_count) skipped ;;;
    Ret (set_read s (wp - capacity) (u64 (lost_ s + skipped)))
  else Ret s.

(** What the sequence of the head entry says: commit, lost, or come back later. *)
Inductive head := Committed | Lost | Later.

Definition read_head (read_pos seq1 : Z) : head :=
  if seq1 =? u64 (read_pos + 1) then Committed
  else if seq_is_skip seq1 && (seq_pos seq1 =? u64 (read_pos + 1)) then Lost
  else if seq_is_locked seq1 || (seq_pos seq1 <? u64 (read_pos + 1)) then Later
  else Lost.

(** The slot a claim names, when the claim is this position's and in range. *)
Definition check_claim (g : Geometry) (read_pos m : Z) : option Z :=
  let biased := meta_slot_biased m in
  if negb (meta_tag m =? Z.land (u64 (read_pos + 1)) META_TAG_MASK) ||
     (biased =? 0) || (pool_size g <=? biased - 1)
  then None else Some (biased - 1).

(** Take a reference unless the slot is free or its count is saturated. *)
Definition pin (slot_idx : Z) : rprog bool :=
  rc <- load (Slot slot_idx refcount) ;;
  loop rc (λ rc,
    if (0 <? rc) && negb (rc =? U32_MAX) then
      '(ok, current) <- compare_exchange_weak (Slot slot_idx refcount) rc (rc + 1) ;;
      if ok : bool then Ret (inr true) else Ret (inl current)
    else Ret (inr false)).

(** A committed head: [inl] lost the sample, [inr] is the pinned view. *)
Definition read_committed (s : subscriber) (idx seq1 : Z)
    : rprog (subscriber + (SampleView * subscriber)) :=
  let g := sub_geometry s in
  m <- load (Ent (ring_idx_ s) idx meta) ;;
  match check_claim g (read_pos_ s) m with
  | None => s <- lose_one s ;; Ret (inl s)
  | Some slot_idx =>
      pinned <- pin slot_idx ;;
      if negb pinned then s <- lose_one s ;; Ret (inl s)
      else
        seq2 <- load (Ent (ring_idx_ s) idx sequence) ;;
        if negb (seq2 =? seq1) then
          drop_reference slot_idx ;; s <- lose_one s ;; Ret (inl s)
        else
          len <- load (Slot slot_idx payload_len) ;;
          if slot_data_size g <? len then
            drop_reference slot_idx ;; s <- lose_one s ;; Ret (inl s)
          else
            let pos := read_pos_ s in
            Ret (inr ({| view_slot_idx_ := slot_idx; view_len_ := len;
                         view_ring_pos_ := pos |},
                      set_read s (u64 (pos + 1)) (lost_ s)))
  end.

(** One turn of the retry loop. *)
Definition receive_turn (s : subscriber)
    : rprog (subscriber + (option SampleView * subscriber)) :=
  wp <- load (Ring (ring_idx_ s) write_pos) ;;
  if wp <=? read_pos_ s then Ret (inr (None, s))
  else
    s <- resync s wp ;;
    let idx := Z.land (read_pos_ s) (sub_ring_mask (sub_geometry s)) in
    seq1 <- load (Ent (ring_idx_ s) idx sequence) ;;
    match read_head (read_pos_ s) seq1 with
    | Later => Ret (inr (None, s))
    | Lost => s <- lose_one s ;; Ret (inl s)
    | Committed =>
        r <- read_committed s idx seq1 ;;
        match r with
        | inl s => Ret (inl s)
        | inr (view, s) => Ret (inr (Some view, s))
        end
    end.

Definition try_receive_view (s : subscriber) : rprog (option SampleView * subscriber) :=
  if ring_idx_ s =? NO_RING then Ret (None, s)
  else
    r <- for_ 64 0 s (λ _ s, receive_turn s) ;;
    match r with
    | inl s => Ret (None, s)
    | inr r => Ret r
    end.

(** [memcpy] to the front of the receive buffer. *)
Definition fill (buf bs : list Z) : list Z := bs ++ drop (length bs) buf.

Definition try_receive (s : subscriber) : rprog (option SampleRef * subscriber) :=
  '(view, s) <- try_receive_view s ;;
  match view with
  | None => Ret (None, s)
  | Some v =>
      bytes <- view_bytes v ;;
      let s := set_buf s (fill (recv_buf_ s) bytes) in
      view_release v ;;;
      Ret (Some {| ref_data_ := Some bytes; ref_len_ := view_len_ v;
                   ref_ring_pos_ := view_ring_pos_ v |}, s)
  end.

(** The blocking loop [receive] and [receive_view] share: [try_] is the
    attempt, the loop state is the subscriber and [idle_spins]. *)
Definition blocking {A} (attempt : subscriber → rprog (option A * subscriber))
    (s : subscriber) (timeout : Z) : rprog (option A * subscriber) :=
  if ring_idx_ s =? NO_RING then Ret (None, s)
  else
    let i := ring_idx_ s in
    start <- monotonic_ns ;;
    loop (s, 0) (λ '(s, idle_spins),
      '(sample, s) <- attempt s ;;
      match sample with
      | Some x => Ret (inr (Some x, s))
      | None =>
          now <- monotonic_ns ;;
          let elapsed := now - start in
          if timeout <=? elapsed then Ret (inr (None, s))
          else
            let remaining := timeout - elapsed in
            cur <- load (Ring i write_pos) ;;
            if cur <=? read_pos_ s then
              store (Ring i has_waiter) ring.WaiterFutex ;;
              futex_wait (Ring i write_pos) cur remaining ;;
              store (Ring i has_waiter) ring.WaiterNone ;;
              Ret (inl (s, 0))
            else
              let idle_spins := idle_spins + 1 in
              (if idle_spins <=? 64 then yield
               else sleep (if remaining <? RECHECK_NAP then remaining else RECHECK_NAP)) ;;
              Ret (inl (s, idle_spins))
      end).

Definition receive (s : subscriber) (timeout : Z) : rprog (option SampleRef * subscriber) :=
  blocking try_receive s timeout.

Definition receive_view (s : subscriber) (timeout : Z)
    : rprog (option SampleView * subscriber) :=
  blocking try_receive_view s timeout.

(** ** Waiting on a descriptor *)

(** [waker.valid()] is the argument. *)
Definition attach (s : subscriber) (waker : nat) (waker_valid : bool) : bool * subscriber :=
  if (ring_idx_ s =? NO_RING) || negb waker_valid then (false, s)
  else (true, set_waker s (Some waker)).

Definition head_state (s : subscriber) : rprog Wait :=
  let g := sub_geometry s in
  wp <- load (Ring (ring_idx_ s) write_pos) ;;
  if wp <=? read_pos_ s then Ret Armed
  else if sub_ring_capacity g <? wp - read_pos_ s then Ret Ready
  else
    let idx := Z.land (read_pos_ s) (sub_ring_mask g) in
    seq <- load (Ent (ring_idx_ s) idx sequence) ;;
    if seq_is_locked seq || (seq_pos seq <? u64 (read_pos_ s + 1)) then Ret Poll
    else Ret Ready.

Definition wait_state (s : subscriber) : rprog Wait :=
  if ring_idx_ s =? NO_RING then Ret Armed else head_state s.

Definition disarm_wait (s : subscriber) : rprog unit :=
  if ring_idx_ s =? NO_RING then Ret tt
  else store (Ring (ring_idx_ s) has_waiter) ring.WaiterNone.

Definition arm_wait (s : subscriber) : rprog Wait :=
  if ring_idx_ s =? NO_RING then Ret Armed
  else
    cur <- load (Ring (ring_idx_ s) write_pos) ;;
    state <- head_state s ;;
    match state with
    | Armed =>
        match waker_ s with
        | None => Ret Armed
        | Some _ =>
            store (Ring (ring_idx_ s) has_waiter) ring.WaiterCarrier ;;
            wp <- load (Ring (ring_idx_ s) write_pos) ;;
            if negb (wp =? cur) then disarm_wait s ;; head_state s
            else Ret Armed
        end
    | _ => Ret state
    end.
End Subscriber.
