(* ===== verification/Conservation.v ===== *)
(** * Every operation keeps every slot accounted for

    Specifications, in the logic of [Conc.v], of the operations of [Publisher],
    [Subscriber] and the online recovery of [Region]: which tokens of
    [Ownership.v] each takes and gives.  They hold under every interleaving with
    any other such operation. *)

From stdpp Require Import gmultiset.
From S2P Require Import Prelude Prog Conc Types Layout Words Process Pool Slots Ownership.
From S2P Require Import Publisher Subscriber Region.
Import Types Layout Pool Slots Ownership.

Module Conservation.
Section operations.
Context (g : Geometry) (Hg : pool_geometry g).
Implicit Types (own : tokens).
Abbreviation sp := (spec watch GENERATIONS guard (inv g)).

(** Start from no tokens, and give what is left a frame. *)
Lemma sp_call {A} own (p : rprog A) (P Q : A → tokens → Prop) :
  sp ∅ p P → (∀ a own', P a own' → Q a (own' ⊎ own)) → sp own p Q.
Proof.
  intros Hp HQ. rewrite <- (left_id_L ∅ (⊎) own). apply sp_frame. by eapply spec_mono.
Qed.

(** ** Entries *)

Lemma spec_release_slot old :
  sp (claimed g old)
    (when (negb (meta_slot_biased old =? 0))
       (Publisher.release_slot g (u32 (meta_slot_biased old - 1)))) (λ _ own, own = ∅).
Proof using Hg.
  unfold claimed. pose proof (Z.mod_pos_bound old 16777216 ltac:(lia)) as Hb.
  rewrite <- meta_slot_biased_mod in Hb. unfold Publisher.release_slot. walk.
  - rewrite u32_small by (unfold is_u32; destruct (Z.eqb_spec (meta_slot_biased old) 0); [done|lia]).
    destruct (Z.eqb_spec (meta_slot_biased old) 0); [done|]. cbn [orb].
    destruct (pool_size g <=? meta_slot_biased old - 1); [by walk|by apply spec_drop].
  - by destruct (meta_slot_biased old =? 0).
Qed.

Lemma claimed_pack pos s : 0 <= s < pool_size g → claimed g (meta_pack pos s) = {[+ Pinned s +]}.
Proof using Hg.
  intros Hs. destruct Hg. change MAX_POOL_SIZE with 16777214 in *. unfold claimed.
  rewrite meta_slot_biased_pack by lia. destruct (Z.eqb_spec (s + 1) 0); [lia|].
  destruct (Z.leb_spec (pool_size g) (s + 1 - 1)); [lia|]. cbn [orb]. do 2 f_equal. lia.
Qed.

Lemma spec_take_claim i idx pos s :
  0 <= i < max_subs g → 0 <= idx < sub_ring_capacity g → 0 <= s < pool_size g →
  sp {[+ Pinned s +]} (Publisher.take_claim i idx pos s) (λ taken own,
    own = match taken with Some old => claimed g old | None => {[+ Pinned s +]} end).
Proof using Hg.
  intros Hi Hidx Hs. unfold Publisher.take_claim. do 2 walk.
  apply (spec_loop _ _ _ _ _ (λ _ own, own = {[+ Pinned s +]})); [done|].
  intros old own ->. walk; [by walk|]. walk.
  apply spec_cas_weak; [done|done| |].
  - intros m cnt env HI <-. eexists. split; [|by apply spec_ret].
    apply inv_transfer; try done. by rewrite claimed_pack.
  - intros w. by apply spec_ret.
Qed.

(** ** Publishing *)

(** The references the ring loop still holds: one for each ring to come, and
    one for each that did not take it. *)
Definition refs (s k : Z) : tokens := Z.to_nat k *: {[+ Pinned s +]}.

Lemma refs_add s j k : 0 <= j → 0 <= k → refs s (j + k) = refs s j ⊎ refs s k.
Proof.
  intros. unfold refs. rewrite Z2Nat.inj_add by lia.
  induction (Z.to_nat j) as [|n IH]; cbn [Nat.add].
  - by rewrite gmultiset_scalar_mul_0, (left_id_L ∅ (⊎)).
  - rewrite !gmultiset_scalar_mul_S_r, IH. multiset_solver.
Qed.

Lemma refs_1 s : refs s 1 = {[+ Pinned s +]}.
Proof. apply gmultiset_scalar_mul_1. Qed.
Lemma refs_0 s : refs s 0 = ∅.
Proof. apply gmultiset_scalar_mul_0. Qed.

(** A ring's delivery takes the reference it is given, or counts it as excess. *)
Definition took (s : Z) (d d' : Publisher.delivery) own : Prop :=
  (Publisher.excess d' = Publisher.excess d ∧ own = ∅) ∨
  (Publisher.excess d' = u32 (Publisher.excess d + 1) ∧ own = {[+ Pinned s +]}).

Lemma spec_quiet_wake i own : sp own (Publisher.wake_ring i) (λ _ own', own' = own).
Proof. unfold Publisher.wake_ring. by walks. Qed.

Lemma spec_quiet_wake_abandon i own : sp own (Publisher.abandon_delivery i) (λ _ own', own' = own).
Proof. unfold Publisher.abandon_delivery. do 4 walk. apply spec_quiet_wake. Qed.

Lemma spec_enter_ring i own : sp own (Publisher.enter_ring i) (λ _ own', own' = own).
Proof.
  unfold Publisher.enter_ring. do 2 walk. walk; [by walk|].
  apply (spec_loop _ _ _ _ _ (λ _ own', own' = own)); [done|].
  intros old ? ->. by walks.
Qed.

Lemma spec_wait_for_commit i idx expected timeout own :
  sp own (Publisher.wait_for_commit i idx expected timeout) (λ _ own', own' = own).
Proof.
  unfold Publisher.wait_for_commit. do 2 walk. walk; [by walk|]. do 2 walk.
  apply (spec_loop _ _ _ _ _ (λ _ own', own' = own)); [done|].
  intros [seq n] ? ->. by walks.
Qed.

Lemma spec_lock_entry i idx pos prev observed own :
  sp own (Publisher.lock_entry i idx pos prev observed) (λ _ own', own' = own).
Proof.
  unfold Publisher.lock_entry. walk.
  apply (spec_for _ _ _ _ _ _ _ _ _ (λ _ _ own', own' = own)); [done| |].
  - intros k obs ? _ ->. by walks.
  - intros obs ? ->. by walk.
Qed.

Ltac quiet :=
  first [ apply spec_quiet_wake | apply spec_quiet_wake_abandon | apply spec_enter_ring
        | apply spec_wait_for_commit | apply spec_lock_entry ].
(** Run a program that keeps its tokens. *)
Ltac run_quiet :=
  eapply spec_mono; [quiet|]; let r := fresh "r" in intros r ? ->; lazy beta match.

Lemma spec_self_repair i idx pos capacity wait own :
  sp own (Publisher.self_repair i idx pos capacity wait) (λ _ own', own' = own).
Proof. unfold Publisher.self_repair, entry_steal_and_skip. by walks. Qed.

Lemma spec_commit_entry p i idx pos s d :
  Publisher.pub_geometry p = g →
  0 <= i < max_subs g → 0 <= idx < sub_ring_capacity g → 0 <= s < pool_size g →
  sp {[+ Pinned s +]} (Publisher.commit_entry p i idx pos s d) (took s d).
Proof using Hg.
  intros Hp Hi Hidx Hs. unfold Publisher.commit_entry. do 3 walk.
  { walk. run_quiet. walk. by right. }
  walk. eapply spec_mono; [by apply spec_take_claim|]. intros [old|] own ->; lazy beta match.
  - rewrite Hp. walk. eapply spec_mono; [apply spec_release_slot|]. intros _ own ->. lazy beta.
    do 3 walk.
    + walk. run_quiet. walk. by left.
    + do 2 walk. walk. run_quiet. walk. by left.
  - walk. run_quiet. walk. by right.
Qed.

Lemma spec_signal_before_wait p i idx prev d own :
  sp own (Publisher.signal_before_wait p i idx prev d)
    (λ d' own', Publisher.excess d' = Publisher.excess d ∧ own' = own).
Proof. unfold Publisher.signal_before_wait. by walks. Qed.

Lemma spec_deliver p i s d :
  Publisher.pub_geometry p = g → 0 <= i < max_subs g → 0 <= s < pool_size g →
  sp {[+ Pinned s +]} (Publisher.deliver p i s d) (took s d).
Proof using Hg.
  intros Hp Hi Hs. unfold Publisher.deliver. walk. run_quiet. walk; [walk; by right|].
  unfold Publisher.deliver_admitted. rewrite Hp. do 2 walk. walk.
  pose proof (entry_index g v Hg) as Hidx. set (idx := Z.land v (sub_ring_mask g)) in *.
  apply (spec_mono _ _ _ _ _ _ (λ '(_, d') own,
    Publisher.excess d' = Publisher.excess d ∧ own = {[+ Pinned s +]})).
  { walk; [|by walk]. walk. eapply spec_mono; [apply spec_signal_before_wait|].
    intros d' ? [Hd ->]. lazy beta. walk. run_quiet. by walk. }
  intros [wait d'] ? [Hd ->]. lazy beta match. walk. run_quiet. walk.
  - walk. eapply spec_mono; [apply spec_self_repair|]. intros ? ? ->. lazy beta.
    walk. run_quiet. walk. right. cbn. by rewrite Hd.
  - eapply spec_mono; [by apply spec_commit_entry|]. intros d2 own. unfold took. by rewrite Hd.
Qed.

(** The slot a publisher has reserved. *)
Definition held (p : Publisher.publisher) : tokens :=
  if Publisher.pending_slot_ p =? INVALID_SLOT then ∅
  else {[+ Reserved (Publisher.pending_slot_ p) +]}.

(** A handle the publisher still honours writes into the reserved slot. *)
Definition handle_ok (a : Publisher.AllocatedSlot) (p : Publisher.publisher) : Prop :=
  Publisher.valid a p = true →
  Publisher.data_ a = Publisher.pending_slot_ p ∧ Publisher.pending_slot_ p ≠ INVALID_SLOT.

Lemma held_none p : Publisher.pending_slot_ p = INVALID_SLOT → held p = ∅.
Proof. intros E. unfold held. by rewrite E. Qed.

Lemma held_some p : Publisher.pending_slot_ p ≠ INVALID_SLOT →
  held p = {[+ Reserved (Publisher.pending_slot_ p) +]}.
Proof. intros E. unfold held. by rewrite (proj2 (Z.eqb_neq _ _) E). Qed.

Lemma spec_release_pending p :
  sp (held p) (Publisher.release_pending p) (λ p' own,
    p' = Publisher.set_pending p INVALID_SLOT ∧ own = ∅).
Proof using Hg.
  unfold Publisher.release_pending, held. destruct p as [pg ct ps rs dr wb]. cbn [Publisher.pending_slot_].
  destruct (Z.eqb_spec ps INVALID_SLOT) as [->|E]; cbn [negb]; [by walk|].
  walk. eapply spec_mono; [by apply spec_push|]. intros _ ? ->. by walk.
Qed.

Lemma spec_release_excess s n :
  0 <= n → sp (refs s n) (Publisher.release_excess s n) (λ _ own, own = ∅).
Proof using Hg.
  intros Hn. unfold Publisher.release_excess. destruct (Z.ltb_spec 0 n).
  - pose proof (spec_drop_references g Hg s (Z.to_nat n)) as Hdrop.
    rewrite Z2Nat.id in Hdrop by lia. apply Hdrop. lia.
  - replace n with 0 by lia. rewrite refs_0. by walk.
Qed.

(** The ring loop: after [i] rings, the references of the rings to come and the
    excess ones are held. *)
Lemma spec_deliver_all p s :
  Publisher.pub_geometry p = g → 0 <= s < pool_size g →
  sp (refs s (max_subs g))
    (foreach (Z.to_nat (max_subs g)) 0
       {| Publisher.delivered := 0; Publisher.excess := 0; Publisher.carrier := false;
          Publisher.drops := Publisher.dropped_ p |}
       (λ i d, Publisher.deliver p i s d))
    (λ d own, 0 <= Publisher.excess d ∧ own = refs s (Publisher.excess d)).
Proof using Hg.
  intros Hp Hs. pose proof (pg_subs g Hg) as Hsubs. change MAX_SUBSCRIBERS with 65535 in Hsubs.
  apply (spec_foreach _ _ _ _ _ _ _ _ _ (λ i d own,
    0 <= Publisher.excess d <= i ∧ own = refs s (max_subs g - i + Publisher.excess d))).
  - split; [cbn; lia|]. f_equal. cbn. lia.
  - intros i d own Hi [Hd ->].
    replace (max_subs g - i + Publisher.excess d)
      with (1 + (max_subs g - (i + 1) + Publisher.excess d)) by lia.
    rewrite refs_add, refs_1 by lia. apply sp_frame.
    eapply spec_mono; [apply spec_deliver; [done|lia|done]|].
    intros d' own [[Hd' ->]|[Hd' ->]].
    + rewrite Hd'. split; [lia|]. by rewrite (left_id_L ∅ (⊎)).
    + rewrite Hd', u32_small by (unfold is_u32; lia). split; [lia|].
      rewrite <- refs_1, <- refs_add by lia. f_equal. lia.
  - intros d own [Hd ->]. split; [lia|]. f_equal. lia.
Qed.

Lemma refcount_store s own (Q : unit → tokens → Prop) :
  Q tt (refs s (max_subs g)) → own = {[+ Reserved s +]} →
  sp own (store (Slot s refcount) (u32 (max_subs g))) Q.
Proof using Hg.
  intros HQ ->. pose proof (pg_subs g Hg) as Hsubs. change MAX_SUBSCRIBERS with 65535 in Hsubs.
  rewrite u32_small by (unfold is_u32; lia).
  apply spec_store with (own' := refs s (max_subs g)); [done| | |done].
  - cbn. unfold owns_slot. rewrite reserved_singleton. cbn. set_solver.
  - intros m cnt env Hi. pose proof (inv_preset _ _ _ _ _ (Z.to_nat (max_subs g)) Hi) as Hset.
    rewrite Z2Nat.id in Hset by lia. apply Hset; lia.
Qed.

Lemma spec_publish p len :
  Publisher.pub_geometry p = g → (Publisher.pending_slot_ p ≠ INVALID_SLOT →
    0 <= Publisher.pending_slot_ p < pool_size g) →
  sp (held p) (Publisher.publish p len) (λ '(_, p') own,
    Publisher.pending_slot_ p' = INVALID_SLOT ∧ Publisher.pub_geometry p' = g ∧
    Publisher.reservation_ p' = Publisher.reservation_ p ∧ own = ∅).
Proof using Hg.
  intros Hp Hr. unfold Publisher.publish. rewrite Hp. walk.
  { walk. eapply spec_mono; [apply spec_release_pending|]. intros p' own [-> ->]. by walk. }
  walk.
  { apply Z.eqb_eq in E0. walk. by rewrite held_none. }
  apply Z.eqb_neq in E0. specialize (Hr E0). rewrite held_some by done.
  walk. apply sp_store; [done|..].
  { cbn. unfold owns_slot. rewrite reserved_singleton. cbn. set_solver. }
  walk. apply refcount_store; [|done]. walk.
  eapply spec_mono; [by apply spec_deliver_all|]. intros d own [Hd ->]. lazy beta.
  walk. eapply spec_mono; [by apply spec_release_excess|]. intros _ own ->. lazy beta.
  by walks.
Qed.

Lemma spec_allocate p :
  Publisher.pub_geometry p = g →
  sp (held p) (Publisher.allocate p) (λ '(a, p') own,
    own = held p' ∧ Publisher.pub_geometry p' = g ∧ handle_ok a p' ∧
    Publisher.reservation_ p' = u64 (Publisher.reservation_ p + 1) ∧
    (a = Publisher.null_slot ∨ Publisher.id_ a = Publisher.reservation_ p') ∧
    (Publisher.pending_slot_ p' ≠ INVALID_SLOT → 0 <= Publisher.pending_slot_ p' < pool_size g)).
Proof using Hg.
  intros Hp. unfold Publisher.allocate. walk. eapply spec_mono; [apply spec_release_pending|].
  intros p' own [-> ->]. lazy beta. rewrite Hp || cbn [Publisher.pub_geometry]. walk.
  replace (pool_size _) with (pool_size g) by (cbn; by rewrite Hp).
  eapply spec_mono; [by apply spec_pop|].
  intros s own [[-> ->]|[Hs ->]]; lazy beta; walk; try (apply Z.eqb_eq in E); try done.
  - walk. split_and!; try done. by left.
  - destruct Hg. change MAX_POOL_SIZE with 16777214 in *. unfold INVALID_SLOT in *. lia.
  - apply Z.eqb_neq in E. walk. split_and!; try done; [by rewrite held_some|by right].
Qed.

(** A publisher of the region, whose reservation is a slot of its pool. *)
Record pub_ok (p : Publisher.publisher) : Prop := {
  po_geometry : Publisher.pub_geometry p = g;
  po_range : Publisher.pending_slot_ p ≠ INVALID_SLOT →
    0 <= Publisher.pending_slot_ p < pool_size g
}.

Lemma pub_ok_none p : Publisher.pub_geometry p = g → Publisher.pending_slot_ p = INVALID_SLOT → pub_ok p.
Proof. by split. Qed.

Lemma spec_slot_write a p src :
  handle_ok a p →
  sp (held p) (Publisher.slot_write a p src) (λ _ own, own = held p).
Proof.
  intros Ha. unfold Publisher.slot_write. walk; [by walk|].
  apply orb_false_iff in E as [E%negb_false_iff _]. destruct (Ha E) as [Hd Hp].
  walk. unfold memcpy_in.
  apply (spec_foreach _ _ _ _ _ _ _ _ _ (λ _ _ own, own = held p)); [done| |].
  - intros i _ own _ ->. apply sp_store; [done| |done]. cbn. unfold owns_slot.
    rewrite held_some, Hd by done. rewrite reserved_singleton. cbn. set_solver.
  - intros _ own ->. by walk.
Qed.

Lemma spec_slot_destroy a p :
  pub_ok p → sp (held p) (Publisher.slot_destroy a p) (λ p' own,
    own = held p' ∧ pub_ok p' ∧ Publisher.reservation_ p' = Publisher.reservation_ p).
Proof using Hg.
  intros []. unfold Publisher.slot_destroy. walk; [|by walk].
  eapply spec_mono; [apply spec_release_pending|]. intros p' own [-> ->].
  split_and!; [by rewrite held_none|by apply pub_ok_none|done].
Qed.

(** A handle that was published, or was not valid, is not valid. *)
Lemma spec_slot_publish a p len :
  pub_ok p → sp (held p) (Publisher.slot_publish a p len) (λ '(_, (a', p')) own,
    own = held p' ∧ pub_ok p' ∧ Publisher.valid a' p' = false ∧ Publisher.id_ a' = Publisher.id_ a ∧
    Publisher.reservation_ p' = Publisher.reservation_ p).
Proof using Hg.
  intros []. unfold Publisher.slot_publish. walk.
  { walk. apply negb_true_iff in E. done. }
  walk. eapply spec_mono; [by apply spec_publish|]. intros [n p'] own (? & ? & ? & ->).
  lazy beta match. walk. split_and!; [by rewrite held_none|by apply pub_ok_none| |done|done].
  unfold Publisher.valid. cbn. by rewrite andb_false_r.
Qed.

(** A send leaves nothing reserved. *)
Lemma spec_send p data :
  pub_ok p → sp (held p) (Publisher.send p data) (λ '(_, p') own,
    own = held p' ∧ pub_ok p' ∧
    (p' = p ∨ Publisher.reservation_ p' = u64 (Publisher.reservation_ p + 1))).
Proof using Hg.
  intros []. unfold Publisher.send. walk; [walk; by auto using Build_pub_ok|]. walk.
  eapply spec_mono; [by apply spec_allocate|]. intros [a p'] own (-> & ? & Ha & Hres & _ & ?).
  lazy beta match. walk; [walk; by auto using Build_pub_ok|].
  walk. eapply spec_mono; [by apply spec_slot_write|]. intros _ own ->. lazy beta.
  walk. eapply spec_mono; [by apply spec_slot_publish|].
  intros [n [a' p2]] own (-> & ? & _ & _ & Hr2). lazy beta match.
  walk. eapply spec_mono; [by apply spec_slot_destroy|]. intros p3 own (-> & ? & Hr3). walk.
  split_and!; [done|done|right; congruence].
Qed.

(** ** Subscribing *)

(** The reference a view holds. *)
Definition viewed (v : Subscriber.SampleView) : tokens :=
  if Subscriber.view_slot_idx_ v =? INVALID_SLOT then ∅
  else {[+ Pinned (Subscriber.view_slot_idx_ v) +]}.

(** A subscriber of the region: it has no ring or one of the region's. *)
Record sub_ok (s : Subscriber.subscriber) : Prop := {
  su_geometry : Subscriber.sub_geometry s = g;
  su_ring : Subscriber.ring_idx_ s ≠ Subscriber.NO_RING →
    0 <= Subscriber.ring_idx_ s < max_subs g
}.

Lemma spec_view_release v :
  sp (viewed v) (Subscriber.view_release v) (λ v' own,
    own = ∅ ∧ Subscriber.view_slot_idx_ v' = INVALID_SLOT).
Proof using Hg.
  unfold Subscriber.view_release, viewed. destruct (Z.eqb_spec (Subscriber.view_slot_idx_ v) INVALID_SLOT).
  - by walk.
  - walk. eapply spec_mono; [by apply spec_drop|]. intros _ ? ->. by walk.
Qed.

Lemma spec_pin s :
  0 <= s < pool_size g →
  sp ∅ (Subscriber.pin s) (λ ok own, own = if ok : bool then {[+ Pinned s +]} else ∅).
Proof.
  intros Hs. unfold Subscriber.pin. do 2 walk.
  apply (spec_loop _ _ _ _ _ (λ _ own, own = ∅)); [done|]. intros rc own ->. walk; [|by walk].
  apply andb_true_iff in E as [E1%Z.ltb_lt E2%negb_true_iff%Z.eqb_neq]. walk.
  apply spec_cas_weak; [done|done| |].
  - intros m cnt env Hi <-. exists {[+ Pinned s +]}. split; [|by apply spec_ret].
    rewrite (left_id_L ∅ (⊎)) in Hi. by apply inv_pin.
  - intros w. by apply spec_ret.
Qed.

Lemma spec_lose_one s own :
  sp own (Subscriber.lose_one s) (λ s' own',
    own' = own ∧ Subscriber.sub_geometry s' = Subscriber.sub_geometry s ∧
    Subscriber.ring_idx_ s' = Subscriber.ring_idx_ s).
Proof. unfold Subscriber.lose_one. by walks. Qed.

Lemma check_claim_range pos m s : Subscriber.check_claim g pos m = Some s → 0 <= s < pool_size g.
Proof.
  unfold Subscriber.check_claim. pose proof (Z.mod_pos_bound m 16777216 ltac:(lia)) as Hb.
  rewrite <- meta_slot_biased_mod in Hb.
  destruct (Z.eqb_spec (meta_slot_biased m) 0); [by rewrite orb_true_r|].
  destruct (Z.leb_spec (pool_size g) (meta_slot_biased m - 1)); [by rewrite orb_true_r|].
  destruct (negb _); [done|]. intros [= <-]. lia.
Qed.

(** Receiving keeps the subscriber on its ring. *)
Definition same_ring (s s' : Subscriber.subscriber) : Prop :=
  Subscriber.sub_geometry s' = Subscriber.sub_geometry s ∧
  Subscriber.ring_idx_ s' = Subscriber.ring_idx_ s.

Lemma same_ring_trans s1 s2 s3 : same_ring s1 s2 → same_ring s2 s3 → same_ring s1 s3.
Proof. unfold same_ring. intros [] []. split; congruence. Qed.

Lemma sub_ok_same s s' : same_ring s s' → sub_ok s → sub_ok s'.
Proof. intros [E1 E2] []. split; rewrite ?E1, ?E2; done. Qed.

Lemma valid_slot s : 0 <= s < pool_size g → s ≠ INVALID_SLOT.
Proof using Hg.
  destruct Hg. change MAX_POOL_SIZE with 16777214 in *. unfold INVALID_SLOT. lia.
Qed.

Lemma viewed_some s l pos : 0 <= s < pool_size g →
  viewed {| Subscriber.view_slot_idx_ := s; Subscriber.view_len_ := l;
            Subscriber.view_ring_pos_ := pos |} = {[+ Pinned s +]}.
Proof using Hg.
  intros Hs%valid_slot. unfold viewed. cbn. by rewrite (proj2 (Z.eqb_neq _ _) Hs).
Qed.

(** A view that holds its reference, and the tokens of an attempt's result. *)
Definition view_of (v : Subscriber.SampleView) own : Prop :=
  own = viewed v ∧ Subscriber.view_slot_idx_ v ≠ INVALID_SLOT.

Definition received (r : option Subscriber.SampleView) own : Prop :=
  match r with Some v => view_of v own | None => own = ∅ end.

Lemma spec_read_committed s idx seq1 :
  sub_ok s →
  sp ∅ (Subscriber.read_committed s idx seq1) (λ r own, match r with
    | inl s' => own = ∅ ∧ same_ring s s'
    | inr (v, s') => view_of v own ∧ same_ring s s' end).
Proof using Hg.
  intros [Hsg _]. unfold Subscriber.read_committed. rewrite Hsg. do 2 walk.
  assert (∀ own, own = ∅ → sp own (s0 <- Subscriber.lose_one s;; Ret (inl s0)) (λ r own, match r with
    | inl s' => own = ∅ ∧ same_ring s s'
    | inr (v, s') => view_of v own ∧ same_ring s s' end)) as Hlose.
  { intros own ->. walk. eapply spec_mono; [apply spec_lose_one|].
    intros s' own (-> & ? & ?). by walk. }
  destruct (Subscriber.check_claim g (Subscriber.read_pos_ s) v) as [i|] eqn:Ec; [|by apply Hlose].
  apply check_claim_range in Ec. walk. eapply spec_mono; [by apply spec_pin|].
  intros [] own ->; lazy beta match; cbn [negb]; [|by apply Hlose]. do 2 walk. walk.
  { walk. eapply spec_mono; [by apply spec_drop|]. intros _ own ->. by apply Hlose. }
  walk. apply sp_load; [cbn; set_solver|]. intros len. walk.
  { walk. eapply spec_mono; [by apply spec_drop|]. intros _ own ->. by apply Hlose. }
  walk. split; [|done]. split; [by rewrite viewed_some|]. by apply valid_slot.
Qed.

Lemma spec_resync s wp own :
  sp own (Subscriber.resync s wp) (λ s' own', own' = own ∧ same_ring s s').
Proof. unfold Subscriber.resync. by walks. Qed.

Lemma spec_receive_turn s :
  sub_ok s →
  sp ∅ (Subscriber.receive_turn s) (λ r own, match r with
    | inl s' => own = ∅ ∧ same_ring s s'
    | inr (v, s') => received v own ∧ same_ring s s' end).
Proof using Hg.
  intros Hs. unfold Subscriber.receive_turn. do 2 walk. walk; [by walk|]. walk.
  eapply spec_mono; [apply spec_resync|]. intros s1 own [-> H1]. lazy beta. do 2 walk.
  destruct (Subscriber.read_head _ _).
  - walk. eapply spec_mono; [apply spec_read_committed; by eapply sub_ok_same|].
    intros [s2|[v2 s2]] own [Hown H2]; lazy beta match; walk; (split; [done|]);
      by eapply same_ring_trans.
  - walk. eapply spec_mono; [apply spec_lose_one|]. intros s2 own (-> & H2).
    walk. split; [done|]. by eapply same_ring_trans.
  - by walk.
Qed.

Lemma spec_try_receive_view s :
  sub_ok s →
  sp ∅ (Subscriber.try_receive_view s) (λ '(v, s') own, received v own ∧ same_ring s s').
Proof using Hg.
  intros Hs. unfold Subscriber.try_receive_view. walk; [by walk|]. walk.
  apply (spec_for _ _ _ _ _ _ _ _ _ (λ _ s' own, own = ∅ ∧ same_ring s s')); [done| |].
  - intros i s1 own _ [-> H1]. eapply spec_mono; [apply spec_receive_turn; by eapply sub_ok_same|].
    intros [s2|[v2 s2]] own [Hown H2]; lazy beta match; [|walk]; (split; [done|]);
      by eapply same_ring_trans.
  - intros s1 own [-> H1]. by walk.
Qed.

(** A view that was not released can be read. *)
Lemma spec_view_bytes v own :
  Subscriber.view_slot_idx_ v ≠ INVALID_SLOT → viewed v ⊆ own →
  sp own (Subscriber.view_bytes v) (λ _ own', own' = own).
Proof.
  intros Hv Hown. unfold Subscriber.view_bytes, memcpy_out.
  apply (spec_foreach _ _ _ _ _ _ _ _ _ (λ _ _ own', own' = own)); [done| |done].
  intros i out own' _ ->. walk. apply sp_load; [|intros; by walks].
  cbn. eapply gmultiset_elem_of_subseteq; [|exact Hown]. unfold viewed.
  rewrite (proj2 (Z.eqb_neq _ _) Hv). by apply gmultiset_elem_of_singleton.
Qed.

Lemma spec_try_receive s :
  sub_ok s →
  sp ∅ (Subscriber.try_receive s) (λ '(_, s') own, own = ∅ ∧ same_ring s s').
Proof using Hg.
  intros Hs. unfold Subscriber.try_receive. walk.
  eapply spec_mono; [by apply spec_try_receive_view|]. intros [[v|] s1] own [Hown H1]; lazy beta match.
  - destruct Hown as [-> Hv]. walk. eapply spec_mono; [by apply spec_view_bytes; [|reflexivity]|].
    intros bytes own ->. lazy beta. walk. eapply spec_mono; [apply spec_view_release|].
    intros v' own [-> _]. by walk.
  - walk. by rewrite Hown.
Qed.

Lemma spec_blocking {A} attempt s timeout (P : option A → tokens → Prop) :
  sub_ok s → (∀ own, P None own ↔ own = ∅) →
  (∀ s, sub_ok s → sp ∅ (attempt s) (λ '(r, s') own, P r own ∧ same_ring s s')) →
  sp ∅ (Subscriber.blocking attempt s timeout) (λ '(r, s') own, P r own ∧ same_ring s s').
Proof.
  intros Hs HN Ha. unfold Subscriber.blocking. walk; [walk; by rewrite HN|]. do 2 walk.
  apply (spec_loop _ _ _ _ _ (λ '(s', _) own, own = ∅ ∧ same_ring s s')); [done|].
  intros [s1 spins] own [-> H1]. walk. eapply spec_mono; [apply Ha; by eapply sub_ok_same|].
  intros [[x|] s2] own [Hown H2]; lazy beta match; pose proof (same_ring_trans _ _ _ H1 H2).
  - by walk.
  - apply HN in Hown as ->. walks; try done. by rewrite HN.
Qed.

Lemma spec_receive s timeout :
  sub_ok s → sp ∅ (Subscriber.receive s timeout) (λ '(_, s') own, own = ∅ ∧ same_ring s s').
Proof using Hg.
  intros Hs. apply (spec_blocking _ _ _ (λ _ own, own = ∅)); [done|done|]. apply spec_try_receive.
Qed.

Lemma spec_receive_view s timeout :
  sub_ok s → sp ∅ (Subscriber.receive_view s timeout) (λ '(v, s') own, received v own ∧ same_ring s s').
Proof using Hg.
  intros Hs. apply (spec_blocking _ _ _ received); [done|done|]. apply spec_try_receive_view.
Qed.

(** ** Leaving a ring *)

Lemma claimed_cleared w : claimed g (Z.ldiff w META_SLOT_MASK) = ∅.
Proof. unfold claimed. by rewrite meta_cleared_slot. Qed.

Lemma spec_drain_entry i pos :
  0 <= i < max_subs g → sp ∅ (Subscriber.drain_entry g i pos) (λ _ own, own = ∅).
Proof using Hg.
  intros Hi. unfold Subscriber.drain_entry. do 2 walk. walk; [by walk|]. walk.
  apply spec_cas; [done|done| |].
  - intros m cnt env HI <-. exists (claimed g (m (Ent i (Z.land pos (sub_ring_mask g)) meta))). split.
    + apply inv_transfer; [by rewrite claimed_cleared|done|by apply entry_index].
    + unfold claimed. rewrite E. walk; [by apply spec_drop|done].
  - intros w. by walks.
Qed.

Lemma spec_set_ring_state i state own :
  sp own (Subscriber.set_ring_state i state) (λ _ own', own' = own).
Proof.
  unfold Subscriber.set_ring_state. do 2 walk.
  apply (spec_loop _ _ _ _ _ (λ _ own', own' = own)); [done|]. intros old ? ->. by walks.
Qed.

Lemma spec_quiesce i deadline own :
  sp own (Subscriber.quiesce i deadline) (λ _ own', own' = own).
Proof.
  unfold Subscriber.quiesce. do 2 walk.
  apply (spec_loop _ _ _ _ _ (λ _ own', own' = own)); [done|]. intros [] ? ->. by walks.
Qed.

Lemma spec_clear_owner i own : sp own (clear_owner i) (λ _ own', own' = own).
Proof. unfold clear_owner. by walks. Qed.

Lemma spec_drain_unconsumed s :
  Subscriber.sub_geometry s = g → 0 <= Subscriber.ring_idx_ s < max_subs g →
  sp ∅ (Subscriber.drain_unconsumed s) (λ _ own, own = ∅).
Proof using Hg.
  intros Hsg Hr. unfold Subscriber.drain_unconsumed. rewrite Hsg. do 2 walk. walk; [by walk|].
  apply (spec_foreach _ _ _ _ _ _ _ _ _ (λ _ _ own, own = ∅)); [done| |by intros _].
  intros pos _ own _ ->. by apply spec_drain_entry.
Qed.

Lemma spec_release_ring s :
  sub_ok s → sp ∅ (Subscriber.release_ring s) (λ _ own, own = ∅).
Proof using Hg.
  intros Hs. pose proof Hs as [Hsg Hr]. unfold Subscriber.release_ring. walk; [by walk|].
  apply Z.eqb_neq in E. specialize (Hr E).
  walk. eapply spec_mono; [apply spec_set_ring_state|]. intros _ own ->. lazy beta.
  walk. eapply spec_mono; [apply spec_quiesce|]. intros q own ->. lazy beta.
  walk. eapply spec_mono; [apply spec_clear_owner|]. intros _ own ->. lazy beta.
  walk. walk.
  - walk. eapply spec_mono; [by apply spec_drain_unconsumed; destruct q|]. intros _ own ->. by walks.
  - eapply spec_mono; [apply spec_set_ring_state|]. intros _ own ->. by walks.
Qed.

(** ** Joining *)

Lemma spec_join_ring i own : sp own (Subscriber.join_ring i) (λ _ own', own' = own).
Proof. unfold Subscriber.join_ring, Process.process_starttime. by walks. Qed.

Lemma spec_make_subscriber :
  sp ∅ (try_ (Subscriber.make_subscriber g)) (λ r own,
    own = ∅ ∧ match r with inl s => sub_ok s | inr _ => True end).
Proof.
  intros n seen. apply safe_try. unfold Subscriber.make_subscriber. apply safe_bind.
  eapply safe_mono.
  - apply (spec_for _ _ _ _ _ _ _ _ _ (λ _ _ own, own = ∅)
      (λ r own, own = ∅ ∧ match r with inr (i, _, _) => 0 <= i < max_subs g | inl _ => True end)).
    + done.
    + intros i _ own Hi ->. walk. eapply spec_mono; [apply spec_join_ring|].
      intros [[start read]|] own ->; lazy beta match; walk; [|done]. split; [done|lia].
    + by intros _ own ->.
  - intros [[[]|[[i start] read]]|e] seen' own; [..|done]; intros [-> Hi]; cbn [caught].
    + by apply safe_throw.
    + by apply safe_ret.
Qed.

(** ** Recovery that runs beside traffic, and diagnosis *)

Lemma spec_foreach_quiet {S} k lo (s : S) (body : Z → S → rprog S) own :
  (∀ i s, sp own (body i s) (λ _ own', own' = own)) →
  sp own (foreach k lo s body) (λ _ own', own' = own).
Proof.
  intros Hb. apply (spec_foreach _ _ _ _ _ _ _ _ _ (λ _ _ own', own' = own)); [done| |done].
  intros i s' own' _ ->. apply Hb.
Qed.

Ltac run_loop := eapply spec_mono; [apply spec_foreach_quiet; intros|intros ? ? ->; lazy beta match].

Lemma spec_ring_owner_dead i own : sp own (Region.ring_owner_dead i) (λ _ own', own' = own).
Proof. unfold Region.ring_owner_dead, Process.owner_is_dead. by walks. Qed.

Lemma spec_repair_entry i idx pos seq n own :
  sp own (Region.repair_entry i idx pos seq n) (λ _ own', own' = own).
Proof. unfold Region.repair_entry, entry_steal_and_skip. by walks. Qed.

Lemma spec_repair_locked_entries own :
  sp own (Region.repair_locked_entries g) (λ _ own', own' = own).
Proof.
  unfold Region.repair_locked_entries. walk. run_loop.
  { unfold Region.scan_ring. do 2 walk. apply spec_foreach_quiet. intros pos [cs n]. do 2 walk.
    walk; [by walk|]. walk; [|by walk]. walk.
    eapply spec_mono; [apply spec_repair_entry|]. intros ? ? ->. by walk. }
  destruct a as [cs n]. walk; [by walk|]. do 2 walk. clear E. revert n.
  induction cs as [|c cs IH]; intros n; cbn [Region.steal_candidates]; [by walk|].
  do 3 walk. apply (spec_mono _ _ _ _ _ _ (λ _ own', own' = own)).
  - walk; [by walk|apply spec_repair_entry].
  - intros n' ? ->. apply IH.
Qed.

Lemma spec_reset_retired_rings own :
  sp own (Region.reset_retired_rings g) (λ _ own', own' = own).
Proof.
  unfold Region.reset_retired_rings, clear_owner. apply spec_foreach_quiet. intros i n. by walks.
Qed.

Lemma spec_leave_reclaiming i claim state own :
  sp own (Region.leave_reclaiming i claim state) (λ _ own', own' = own).
Proof.
  unfold Region.leave_reclaiming. apply (spec_loop _ _ _ _ _ (λ _ own', own' = own)); [done|].
  intros old ? ->. by walks.
Qed.

Lemma spec_reclaim_ring i own : sp own (Region.reclaim_ring i) (λ _ own', own' = own).
Proof.
  unfold Region.reclaim_ring. do 2 walk. walk; [by walk|].
  walk. eapply spec_mono; [apply spec_ring_owner_dead|]. intros [] ? ->; lazy beta; cbn [negb]; [|by walk].
  do 2 walk. walk; [by walk|]. do 2 walk. destruct b; cbn [negb]; [|by walk].
  walk. eapply spec_mono; [apply spec_ring_owner_dead|]. intros [] ? ->; lazy beta match.
  - walk. eapply spec_mono; [apply spec_clear_owner|]. intros _ ? ->. apply spec_leave_reclaiming.
  - walk. eapply spec_mono; [apply spec_leave_reclaiming|]. intros ? ? ->. by walk.
Qed.

Lemma spec_reclaim_dead_rings own :
  sp own (Region.reclaim_dead_rings g) (λ _ own', own' = own).
Proof.
  unfold Region.reclaim_dead_rings. apply spec_foreach_quiet. intros i n. walk.
  eapply spec_mono; [apply spec_reclaim_ring|]. intros ? ? ->. by walk.
Qed.

Lemma spec_diagnose own : sp own (Region.diagnose g) (λ _ own', own' = own).
Proof.
  unfold Region.diagnose. do 2 walk. apply spec_foreach_quiet. intros i report.
  unfold Region.diagnose_ring. do 3 walk. run_loop; [by walks|]. do 3 walk.
  apply (spec_mono _ _ _ _ _ _ (λ _ own', own' = own)).
  - walk; [apply spec_ring_owner_dead|by walk].
  - intros dead ? ->. by walk.
Qed.
End operations.
End Conservation.
