(* ===== verification/Clients.v ===== *)
(** * Processes on a region, and what holds whatever their interleaving

    A process is a script of calls: a publisher with its reservation handle, a
    subscriber with the views it keeps, or a recovery process.  The theorems
    hold of every state any number of them can reach, in any order of their
    atomic actions, with any of them stopping for ever anywhere. *)

From stdpp Require Import gmultiset.
From S2P Require Import Prelude Prog Conc Types Layout Pool Slots Ownership Conservation.
From S2P Require Import Publisher Subscriber Region Recovery.
Import Types Layout Pool Slots Ownership Conservation.

Module Clients.
(** ** Scripts *)

Inductive publisher_call :=
  | CallSend (data : list Z)
  | CallAllocate
  | CallWrite (src : list Z)
  | CallPublish (len : Z)
  | CallDestroy.

(** The publisher and its latest reservation handle; the destructor ends it. *)
Fixpoint publishing (calls : list publisher_call) (p : Publisher.publisher)
    (a : Publisher.AllocatedSlot) : rprog unit :=
  match calls with
  | [] => Publisher.release_pending p ;;; Ret tt
  | CallSend data :: calls =>
      '(_, p) <- Publisher.send p data ;; publishing calls p a
  | CallAllocate :: calls =>
      '(a, p) <- Publisher.allocate p ;; publishing calls p a
  | CallWrite src :: calls =>
      Publisher.slot_write a p src ;;; publishing calls p a
  | CallPublish len :: calls =>
      '(_, (a, p)) <- Publisher.slot_publish a p len ;; publishing calls p a
  | CallDestroy :: calls =>
      p <- Publisher.slot_destroy a p ;; publishing calls p Publisher.null_slot
  end.

Inductive subscriber_call :=
  | CallTryReceive
  | CallReceive (timeout : Z)
  | CallTryReceiveView
  | CallReceiveView (timeout : Z)
  | CallReadView (k : nat)
  | CallReleaseView (k : nat)
  | CallArm
  | CallDisarm.

Definition keep (v : option Subscriber.SampleView) (views : list Subscriber.SampleView) :=
  match v with Some v => v :: views | None => views end.

Fixpoint release_views (views : list Subscriber.SampleView) : rprog unit :=
  match views with
  | [] => Ret tt
  | v :: views => Subscriber.view_release v ;;; release_views views
  end.

(** The subscriber and the views it holds; the destructors end it. *)
Fixpoint receiving (calls : list subscriber_call) (s : Subscriber.subscriber)
    (views : list Subscriber.SampleView) : rprog unit :=
  match calls with
  | [] => Subscriber.release_ring s ;;; release_views views
  | CallTryReceive :: calls =>
      '(_, s) <- Subscriber.try_receive s ;; receiving calls s views
  | CallReceive timeout :: calls =>
      '(_, s) <- Subscriber.receive s timeout ;; receiving calls s views
  | CallTryReceiveView :: calls =>
      '(v, s) <- Subscriber.try_receive_view s ;; receiving calls s (keep v views)
  | CallReceiveView timeout :: calls =>
      '(v, s) <- Subscriber.receive_view s timeout ;; receiving calls s (keep v views)
  | CallReadView k :: calls =>
      match views !! k with
      | Some v => Subscriber.view_bytes v ;;; receiving calls s views
      | None => receiving calls s views
      end
  | CallReleaseView k :: calls =>
      match views !! k with
      | Some v => Subscriber.view_release v ;;; receiving calls s (delete k views)
      | None => receiving calls s views
      end
  | CallArm :: calls => Subscriber.arm_wait s ;;; receiving calls s views
  | CallDisarm :: calls => Subscriber.disarm_wait s ;;; receiving calls s views
  end.

Inductive recovery_call := CallRepair | CallReset | CallReclaimRings | CallDiagnose.

Fixpoint recovering (g : Geometry) (calls : list recovery_call) : rprog unit :=
  match calls with
  | [] => Ret tt
  | CallRepair :: calls => Region.repair_locked_entries g ;;; recovering g calls
  | CallReset :: calls => Region.reset_retired_rings g ;;; recovering g calls
  | CallReclaimRings :: calls => Region.reclaim_dead_rings g ;;; recovering g calls
  | CallDiagnose :: calls => Region.diagnose g ;;; recovering g calls
  end.

Inductive process :=
  | Publishing (backend : bool) (calls : list publisher_call)
  | Subscribing (calls : list subscriber_call)
  | Recovering (calls : list recovery_call).

Definition program (g : Geometry) (pr : process) : rprog unit :=
  match pr with
  | Publishing backend calls =>
      publishing calls (Publisher.make_publisher g backend) Publisher.null_slot
  | Subscribing calls =>
      r <- try_ (Subscriber.make_subscriber g) ;;
      match r with inl s => receiving calls s [] | inr _ => Ret tt end
  | Recovering calls => recovering g calls
  end.

(** A reservation counter of 64 bits tells the allocations of a script apart. *)
Definition script_ok (pr : process) : Prop :=
  match pr with Publishing _ calls => Z.of_nat (length calls) <= U64_MAX | _ => True end.

(** ** The processes keep their tokens *)

Section processes.
Context (g : Geometry) (Hg : pool_geometry g).
Abbreviation sp := (spec watch GENERATIONS guard (inv g)).

Definition handles (a : Publisher.AllocatedSlot) (p : Publisher.publisher) : Prop :=
  Publisher.id_ a <= Publisher.reservation_ p ∧ handle_ok a p.

Lemma handles_null p : 0 <= Publisher.reservation_ p → handles Publisher.null_slot p.
Proof. done. Qed.

Lemma handles_later a p p' :
  handles a p → Publisher.reservation_ p < Publisher.reservation_ p' → handles a p'.
Proof.
  intros [Hid _] Hlt. split; [lia|]. intros Hv. exfalso. unfold Publisher.valid in Hv.
  apply andb_true_iff in Hv as [_ Hv%Z.eqb_eq]. lia.
Qed.

Lemma handles_invalid a p : Publisher.id_ a <= Publisher.reservation_ p →
  Publisher.valid a p = false → handles a p.
Proof. intros ? Hv. split; [done|]. intros. congruence. Qed.

Lemma spec_publishing calls p a :
  pub_ok g p → handles a p → 0 <= Publisher.reservation_ p →
  Publisher.reservation_ p + Z.of_nat (length calls) <= U64_MAX →
  sp (held p) (publishing calls p a) (λ _ own, own = ∅).
Proof using Hg.
  revert p a. induction calls as [|c calls IH]; intros p a Hp Ha H0 Hb; cbn [publishing].
  { walk. eapply spec_mono; [by apply spec_release_pending|]. intros ? ? [_ ->]. by walk. }
  cbn [length] in Hb. assert (u64 (Publisher.reservation_ p + 1) = Publisher.reservation_ p + 1) as Hres
    by (apply u64_id; lia).
  destruct c; walk.
  - eapply spec_mono; [by apply spec_send|]. intros [n p'] own (-> & Hp' & [->|Hr]); lazy beta match.
    + apply IH; [done..|lia].
    + rewrite Hres in Hr. apply IH; [done| |lia|lia]. eapply handles_later; [done|lia].
  - eapply spec_mono; [by apply spec_allocate; [|apply Hp]|].
    intros [a' p'] own (-> & Hpg & Ha' & Hr & Hid & Hrange). lazy beta match. rewrite Hres in Hr.
    apply IH; [done| |lia|lia]. split; [|done]. destruct Hid as [-> | ->]; [cbn; lia|lia].
  - eapply spec_mono; [apply spec_slot_write; by destruct Ha|]. intros _ own ->. apply IH; [done..|lia].
  - eapply spec_mono; [by apply spec_slot_publish|].
    intros [n [a' p']] own (-> & Hp' & Hv & Hid & Hr). lazy beta match.
    apply IH; [done| |lia|lia]. destruct Ha. apply handles_invalid; [lia|done].
  - eapply spec_mono; [by apply spec_slot_destroy|]. intros p' own (-> & Hp' & Hr).
    apply IH; [done|apply handles_null; lia|lia|lia].
Qed.

(** The references of the views a subscriber holds. *)
Definition viewing (views : list Subscriber.SampleView) : tokens := ⋃+ (viewed <$> views).

Lemma viewing_cons v views : viewing (v :: views) = viewed v ⊎ viewing views.
Proof. done. Qed.

Lemma viewing_take views k v :
  views !! k = Some v → viewing views = viewed v ⊎ viewing (delete k views).
Proof. apply union_take. Qed.

(** A view a script holds still has its slot. *)
Definition views_ok (views : list Subscriber.SampleView) : Prop :=
  Forall (λ v, Subscriber.view_slot_idx_ v ≠ INVALID_SLOT) views.

Lemma keep_ok v views own :
  received v own → views_ok views → views_ok (keep v views) ∧ own ⊎ viewing views = viewing (keep v views).
Proof.
  destruct v as [v|]; cbn.
  - intros [-> Hv] Hvs. split; [by constructor|]. done.
  - intros -> Hvs. split; [done|]. by rewrite (left_id_L ∅ (⊎)).
Qed.

Lemma spec_release_views views : sp (viewing views) (release_views views) (λ _ own, own = ∅).
Proof using Hg.
  induction views as [|v views IH]; cbn [release_views]; [by walk|].
  rewrite viewing_cons. walk. apply sp_frame.
  eapply spec_mono; [by apply spec_view_release|]. intros v' own [-> _].
  by rewrite (left_id_L ∅ (⊎)).
Qed.

Lemma spec_arm s own : sp own (Subscriber.arm_wait s) (λ _ own', own' = own).
Proof.
  unfold Subscriber.arm_wait, Subscriber.head_state, Subscriber.disarm_wait.
  walk; [by walk|]. do 3 walk. apply (spec_mono _ _ _ _ _ _ (λ _ own', own' = own)); [by walks|].
  intros w ? ->. destruct w; [by walk| |by walk]. destruct (Subscriber.waker_ s); [|by walk].
  by walks.
Qed.

Lemma spec_receiving calls s views :
  sub_ok g s → views_ok views → sp (viewing views) (receiving calls s views) (λ _ own, own = ∅).
Proof using Hg.
  revert s views. induction calls as [|c calls IH]; intros s views Hs Hvs; cbn [receiving].
  { walk. eapply sp_call; [by apply spec_release_ring|]. intros _ own ->.
    rewrite (left_id_L ∅ (⊎)). apply spec_release_views. }
  destruct c; try walk.
  - eapply sp_call; [by apply spec_try_receive|]. intros [r s'] own [-> Hr].
    rewrite (left_id_L ∅ (⊎)). apply IH; [by eapply sub_ok_same|done].
  - eapply sp_call; [by apply spec_receive|]. intros [r s'] own [-> Hr].
    rewrite (left_id_L ∅ (⊎)). apply IH; [by eapply sub_ok_same|done].
  - eapply sp_call; [by apply spec_try_receive_view|]. intros [v s'] own [Hv Hr].
    destruct (keep_ok v views own Hv Hvs) as [? ->]. apply IH; [by eapply sub_ok_same|done].
  - eapply sp_call; [by apply spec_receive_view|]. intros [v s'] own [Hv Hr].
    destruct (keep_ok v views own Hv Hvs) as [? ->]. apply IH; [by eapply sub_ok_same|done].
  - destruct (views !! k) as [v|] eqn:Hk; [|by apply IH]. walk.
    pose proof (Forall_lookup_1 _ _ _ _ Hvs Hk) as Hv. rewrite (viewing_take _ _ _ Hk).
    eapply spec_mono; [apply spec_view_bytes; [done|multiset_solver]|]. intros bs own ->.
    rewrite <- (viewing_take _ _ _ Hk). by apply IH.
  - destruct (views !! k) as [v|] eqn:Hk; [|by apply IH]. walk.
    rewrite (viewing_take _ _ _ Hk). apply sp_frame.
    eapply spec_mono; [by apply spec_view_release|]. intros v' own [-> _].
    rewrite (left_id_L ∅ (⊎)). apply IH; [done|]. by apply Forall_delete.
  - eapply spec_mono; [apply spec_arm|]. intros ? ? ->. by apply IH.
  - unfold Subscriber.disarm_wait. eapply (spec_mono _ _ _ _ _ _ (λ _ own', own' = viewing views)); [by walks|].
    intros ? ? ->. by apply IH.
Qed.

Lemma spec_recovering calls : sp ∅ (recovering g calls) (λ _ own, own = ∅).
Proof using Hg.
  induction calls as [|[] calls IH]; cbn [recovering]; [by walk|..]; walk.
  - eapply spec_mono; [apply spec_repair_locked_entries|]. intros ? ? ->; apply IH.
  - eapply spec_mono; [apply spec_reset_retired_rings|]. intros ? ? ->; apply IH.
  - eapply spec_mono; [apply spec_reclaim_dead_rings|]. intros ? ? ->; apply IH.
  - eapply spec_mono; [apply spec_diagnose|]. intros ? ? ->; apply IH.
Qed.

Lemma spec_program pr : script_ok pr → sp ∅ (program g pr) (λ _ own, own = ∅).
Proof using Hg.
  intros Hok. destruct pr as [backend calls|calls|calls]; cbn [program].
  - rewrite <- (held_none (Publisher.make_publisher g backend) eq_refl). apply spec_publishing.
    + by apply pub_ok_none.
    + by apply handles_null.
    + done.
    + cbn in *. lia.
  - walk. eapply spec_mono; [by apply spec_make_subscriber|]. intros [s|e] own [-> Hs]; [|by walk].
    apply (spec_receiving calls s []); [done|constructor].
  - apply spec_recovering.
Qed.
End processes.

(** ** Executions *)

Definition start (g : Geometry) (m : loc → Z) (procs : list process) : config loc :=
  Config m (tagged_gen (m (Hdr free_top))) (map (λ pr, Thread (program g pr) 0) procs).

(** The states the processes reach from the memory [m]. *)
Definition executes (g : Geometry) (m : loc → Z) (procs : list process) (c : config loc) : Prop :=
  reachable watch GENERATIONS (start g m procs) c.

Definition finished (c : config loc) (t : nat) : Prop := ∃ seen, c_threads c !! t = Some (Thread (Ret tt) seen).

Section executions.
Context (g : Geometry) (Hg : pool_geometry g).
Implicit Types (m : loc → Z) (procs : list process) (c : config loc).

(** At rest nobody owns anything. *)
Lemma start_inv m : at_rest g m → inv g m (tagged_gen (m (Hdr free_top))) ∅.
Proof using Type.
  clear Hg. intros [fl Hm]. split; [|set_solver|by rewrite u32_small by apply u32_range|set_solver..].
  exists fl. eapply slots_ok_token; [| |exact Hm]; [by intros; rewrite pins_empty|by rewrite reserved_empty].
Qed.

Lemma executes_safe m procs c :
  at_rest g m → Forall script_ok procs → executes g m procs c →
  ∃ owns : list tokens, inv g (c_mem c) (c_count c) (⋃+ owns) ∧
    length owns = length (c_threads c) ∧
    (∀ t R (a : act loc R) k seen, c_threads c !! t = Some (Thread (Act a k) seen) →
       ∃ own, owns !! t = Some own ∧ guard R a own) ∧
    (∀ t, finished c t → owns !! t = Some ∅).
Proof using Hg.
  intros Hm Hscripts Hr.
  destruct (reachable_safe watch GENERATIONS guard (inv g) _ (start g m procs) c _
    (λ n, launch_safe _ _ _ _ (program g) procs _ _ n (start_inv m Hm)
            (Forall_impl _ _ _ Hscripts (spec_program g Hg))) Hr) as (owns & HI & Hlen & Hguard & Hdone).
  exists owns. split_and!; [done|done|done|]. intros t [seen Ht].
  destruct (Hdone t seen Ht) as (own & Q & Ho & HQ & Hq).
  apply lookup_replicate in HQ as [-> _]. cbn in Hq. by subst own.
Qed.
End executions.

(** *** Tokens of different threads *)

Section owners.
Context (g : Geometry).
Implicit Types (m : loc → Z).

Lemma token_sub (owns : list tokens) t own : owns !! t = Some own → own ⊆ ⋃+ owns.
Proof. intros Ho. destruct (owns_split _ _ _ Ho) as (env & -> & _). multiset_solver. Qed.

Lemma token_apart (owns : list tokens) t u own own' :
  t ≠ u → owns !! t = Some own → owns !! u = Some own' → own ⊎ own' ⊆ ⋃+ owns.
Proof.
  intros Hne Ho Ho'. destruct (owns_split _ _ _ Ho) as (env & HE & Henv).
  rewrite HE. apply gmultiset_disj_union_mono_l.
  destruct (owns_split (<[t:=∅]> owns) u own') as (env' & HE' & _).
  { by rewrite list_lookup_insert_ne. }
  rewrite Henv in HE'. multiset_solver.
Qed.

Lemma union_empty (owns : list tokens) :
  (∀ t own, owns !! t = Some own → own = ∅) → ⋃+ owns = ∅.
Proof.
  induction owns as [|own owns IH]; intros Hall; [done|].
  change (own ⊎ ⋃+ owns = ∅). rewrite (Hall 0%nat own eq_refl), IH; [multiset_solver|].
  intros t. apply (Hall (S t)).
Qed.

Lemma reserved_mono X Y s : X ⊆ Y → s ∈ reserved X → s ∈ reserved Y.
Proof.
  intros Hsub. rewrite !elem_of_reserved. intros [?|[v ?]]; [left|right; exists v]; multiset_solver.
Qed.

(** Two processes never reserve one slot. *)
Lemma reserved_once m cnt own X Y s :
  inv g m cnt own → X ⊎ Y ⊆ own → s ∈ reserved X → s ∈ reserved Y → False.
Proof.
  intros [[fl Hok] _ _ _ _] Hsub HX HY.
  apply gmultiset_disj_union_difference in Hsub. rewrite Hsub in Hok.
  pose proof (so_res_nodup _ _ _ _ _ Hok) as Hnd.
  rewrite !reserved_disj_union in Hnd. apply NoDup_app in Hnd as [[_ [Hnd _]]%NoDup_app _].
  by eapply Hnd.
Qed.

(** A slot somebody reserved has no reference. *)
Lemma reserved_idle m cnt own s :
  inv g m cnt own → s ∈ reserved own →
  0 <= s < pool_size g ∧ m (Slot s refcount) = 0 ∧ Pinned s ∉ own.
Proof.
  intros Hi Hs. pose proof (inv_reserved_range _ _ _ _ _ Hi Hs) as Hr.
  destruct Hi as [[fl Hok] _ _ _ _].
  destruct (slots_ok_idle _ _ _ _ _ s Hok Hr) as [_ Hp]; [auto|].
  split; [done|]. split; [apply (so_idle _ _ _ _ _ Hok); auto|].
  intros Hin. rewrite elem_of_multiplicity in Hin. unfold pins in Hp. lia.
Qed.
End owners.

(** ** The theorems *)

(** C1. Whatever the interleaving and whoever stopped, every slot of the pool is
    free, reserved by one process, or has as reference count the ring entries
    that claim it plus the references processes hold; and the processes that have ended
    hold nothing, so when all have, nothing is leaked. *)
Theorem slots_conserved g m procs c :
  pool_geometry g → at_rest g m → Forall script_ok procs → executes g m procs c →
  (∃ (owns : list tokens) fl,
     slots_ok g (c_mem c) (pins (⋃+ owns)) fl (reserved (⋃+ owns)) ∧
     length owns = length procs ∧ ∀ t, finished c t → owns !! t = Some ∅) ∧
  ((∀ t, (t < length procs)%nat → finished c t) → at_rest g (c_mem c)).
Proof.
  intros Hg Hm Hs Hr. pose proof (reachable_threads _ _ _ _ Hr) as Hn.
  destruct (executes_safe g Hg m procs c Hm Hs Hr) as (owns & [[fl Hok] _ _ _ _] & Hlen & _ & Hdone).
  cbn in Hn. rewrite length_map in Hn. split.
  - exists owns, fl. split; [done|]. split; [congruence|done].
  - intros Hall. exists fl.
    assert (⋃+ owns = ∅) as HE.
    { apply union_empty. intros t own Ho. apply lookup_lt_Some in Ho as Ht.
      specialize (Hdone t (Hall t ltac:(lia))). congruence. }
    rewrite HE in Hok. eapply slots_ok_count; [| |exact Hok]; [by intros; rewrite pins_empty|].
    by rewrite reserved_empty.
Qed.

(** The location a thread is about to access, and whether it stores to it. *)
Definition next_access (c : config loc) (t : nat) : option (loc * bool) :=
  match c_threads c !! t with
  | Some (Thread (Act (Store l _) _) _) => Some (l, true)
  | Some (Thread (Act (Load l) _) _) => Some (l, false)
  | _ => None
  end.

Definition next_writes (c : config loc) (t : nat) (s : Z) : Prop :=
  ∃ j, next_access c t = Some (SlotByte s j, true).
Definition next_reads (c : config loc) (t : nat) (s : Z) : Prop :=
  ∃ j, next_access c t = Some (SlotByte s j, false).

Lemma next_access_guard c t l (b : bool) (owns : list tokens) :
  (∀ t R (a : act loc R) k seen, c_threads c !! t = Some (Thread (Act a k) seen) →
     ∃ own, owns !! t = Some own ∧ guard R a own) →
  next_access c t = Some (l, b) →
  ∃ own, owns !! t = Some own ∧
    match l with SlotByte s _ => if b then owns_slot own s else Pinned s ∈ own | _ => True end.
Proof.
  intros Hguard. unfold next_access.
  destruct (c_threads c !! t) as [[[a|e|R [] k|S B body s k] seen]|] eqn:Ht; try done;
    intros [= -> <-]; destruct (Hguard _ _ _ _ _ Ht) as (own & Ho & Hg);
    exists own; (split; [done|]); cbn in Hg; by destruct l.
Qed.

(** C2. No two processes ever race on a payload: while one is about to write a
    byte of a slot, no other is about to read or write a byte of it. *)
Theorem payload_race_free g m procs c t u s :
  pool_geometry g → at_rest g m → Forall script_ok procs → executes g m procs c →
  t ≠ u → next_writes c t s → ¬ (next_writes c u s ∨ next_reads c u s).
Proof.
  intros Hg Hm Hs Hr Hne [j Ht] Hu.
  destruct (executes_safe g Hg m procs c Hm Hs Hr) as (owns & Hi & _ & Hguard & _).
  destruct (next_access_guard _ _ _ _ _ Hguard Ht) as (own & Ho & Hw).
  destruct Hu as [[j' Hu]|[j' Hu]];
    destruct (next_access_guard _ _ _ _ _ Hguard Hu) as (own' & Ho' & Hg');
    pose proof (token_apart _ _ _ _ _ Hne Ho Ho') as Hsub.
  - eapply reserved_once; [exact Hi|exact Hsub|exact Hw|exact Hg'].
  - destruct (reserved_idle g _ _ _ s Hi) as (_ & _ & Hnot).
    + eapply reserved_mono; [exact Hsub|]. rewrite reserved_disj_union. set_solver.
    + apply Hnot. multiset_solver.
Qed.

(** C4. A payload byte changes only while nothing references its slot: what a
    view shows stays as it was until the view is released. *)
Theorem payload_frozen g m procs c c' s j :
  pool_geometry g → at_rest g m → Forall script_ok procs → executes g m procs c →
  step watch GENERATIONS c c' → c_mem c' (SlotByte s j) ≠ c_mem c (SlotByte s j) →
  c_mem c (Slot s refcount) = 0.
Proof.
  intros Hg Hm Hs Hr Hstep Hch.
  destruct (executes_safe g Hg m procs c Hm Hs Hr) as (owns & Hi & _ & Hguard & _).
  destruct Hstep as [m1 cnt ts t R a k seen r m' Ht _ Ha|]; [|done]. cbn in *.
  destruct (Hguard _ _ _ _ _ Ht) as (own & Ho & Hw).
  assert (writes a r = Some (SlotByte s j)) as Hwr.
  { destruct (decide (writes a r = Some (SlotByte s j))); [done|].
    destruct Hch. by eapply astep_other. }
  destruct (reserved_idle g _ _ _ s Hi) as (_ & Href & _); [|exact Href].
  eapply reserved_mono; [eapply token_sub, Ho|]. by eapply guard_write.
Qed.

(** C15. Whatever the processes were doing when they stopped for ever, the offline
    pass ends, brings the region back to rest, returns exactly the slots that
    were neither on the free stack nor claimed by an entry, and touches
    nothing else. *)
Theorem crash_recovered g m procs c o ws :
  pool_geometry g → 0 <= pool_size g → at_rest g m → Forall script_ok procs → executes g m procs c →
  ∃ fl, free_list (pool_size g) (c_mem c) fl ∧
  returns (Region.reclaim_orphaned_slots g) (World (c_mem c) o ws) (λ n w',
    at_rest g (w_mem w') ∧ w_os w' = o ∧
    n = Z.of_nat (length (filter (Recovery.lost g (c_mem c) fl) (upto (pool_size g)))) ∧
    ∀ l, pool_loc l = false → w_mem w' l = c_mem c l).
Proof.
  intros Hg Hp Hm Hs Hr.
  destruct (executes_safe g Hg m procs c Hm Hs Hr) as (owns & [[fl Hok] _ _ _ _] & _).
  exists fl. split; [apply Hok|]. eapply Recovery.returns_reclaim_orphaned_slots; [done|exact Hok|done|].
  intros m' Hrest Hf. done.
Qed.

(** ** A run *)

Definition calm : os := Os 0 1000 0 7 (λ pid, if pid =? 7 then Some (5, false) else None) 0.

Lemma calm_typed : os_typed calm.
Proof. split; [done|]. intros pid. cbn. by destruct (pid =? 7). Qed.

(** A subscriber joins; a publisher sends a byte, which it receives. *)
Definition sample_procs : list process :=
  [Publishing false [CallSend [42]]; Subscribing [CallTryReceiveView; CallReadView 0]].
Definition sample_run (schedule : list nat) : config loc :=
  play watch GENERATIONS calm schedule (start tiny tiny_mem sample_procs).

Lemma sample_ok : Forall script_ok sample_procs.
Proof. repeat constructor. discriminate. Qed.
Lemma sample_executes schedule : executes tiny tiny_mem sample_procs (sample_run schedule).
Proof. apply play_reachable, calm_typed. Qed.

Definition status (c : config loc) : list bool :=
  map (λ th, match t_prog th with Ret _ => true | _ => false end) (c_threads c).

Definition writing_turn : list nat := replicate 7 1%nat ++ replicate 4 0%nat.

Lemma slots_conserved_witness :
  at_rest tiny (c_mem (sample_run (replicate 7 1%nat ++ replicate 80 0%nat ++ replicate 40 1%nat))).
Proof.
  refine (proj2 (slots_conserved tiny tiny_mem sample_procs _ tiny_geometry tiny_at_rest sample_ok
    (sample_executes _)) _).
  intros [|[|t]] Ht; [eexists; vm_compute; reflexivity..|cbn in Ht; lia].
Defined.

Lemma payload_race_free_witness :
  ¬ (next_writes (sample_run writing_turn) 1 0 ∨ next_reads (sample_run writing_turn) 1 0).
Proof.
  refine (payload_race_free tiny tiny_mem sample_procs _ 0 1 0 tiny_geometry tiny_at_rest sample_ok
    (sample_executes _) _ _); [done|].
  exists 0. vm_compute. reflexivity.
Defined.

Lemma payload_frozen_witness : c_mem (sample_run writing_turn) (Slot 0 refcount) = 0.
Proof.
  refine (payload_frozen tiny tiny_mem sample_procs _ (turn watch GENERATIONS calm 0 (sample_run writing_turn))
    0 0 tiny_geometry tiny_at_rest sample_ok (sample_executes _) _ _).
  - destruct (turn_step watch GENERATIONS calm calm_typed 0 (sample_run writing_turn)) as [Hs|Hs]; [exact Hs|].
    apply (f_equal (λ c, c_mem c (SlotByte 0 0))) in Hs. vm_compute in Hs. discriminate Hs.
  - vm_compute. discriminate.
Defined.

(** Stopped while the subscriber holds the view: one slot is lost and found. *)
Definition crashed : config loc :=
  sample_run (replicate 7 1%nat ++ replicate 80 0%nat ++ replicate 12 1%nat).

Lemma crash_recovered_witness :
  ∃ fl, returns (Region.reclaim_orphaned_slots tiny) (World (c_mem crashed) calm []) (λ n w',
    at_rest tiny (w_mem w') ∧
    n = Z.of_nat (length (filter (Recovery.lost tiny (c_mem crashed) fl) (upto 2)))).
Proof.
  destruct (crash_recovered tiny tiny_mem sample_procs crashed calm [] tiny_geometry)
    as (fl & _ & Hr); [discriminate|exact tiny_at_rest|exact sample_ok|apply sample_executes|].
  exists fl. eapply returns_mono; [exact Hr|]. intros n w' (H1 & _ & H2 & _). exact (conj H1 H2).
Defined.
End Clients.
