(* ===== verification/Knowledge.v ===== *)
(** * What a process knows of a payload

    A second layer of tokens over those of [Ownership.v].  They say what a
    process knows of the payload of a slot it reserved ([Filled], [Sealed]) or
    references ([Shown]).  [inv] adds to the accounting that every slot with a
    reference holds a sample of [Sent].  [lift]: a program that publishes
    nothing ([quiet]) keeps what it kept in the layer below, and all of this
    knowledge, so the specifications of [Conservation.v] need no second proof. *)

From stdpp Require Import gmultiset.
From S2P Require Import Prelude Prog Conc Types Layout Words Process Pool Slots Ownership.
From S2P Require Import Clients.
Import Types Layout Pool Slots.

Module Knowledge.
#[local] Existing Instances Ownership.token_eq_dec Ownership.token_countable.

Inductive token :=
  | Plain (t : Ownership.token)
  | Filled (s : Z) (bs : list Z)    (** reserved, and its payload starts with [bs] *)
  | Sealed (s : Z) (bs : list Z)    (** reserved, and its sample is [bs] *)
  | Shown (s : Z) (bs : list Z).    (** referenced, and its sample is [bs] *)

#[export] Instance token_eq_dec : EqDecision token.
Proof. solve_decision. Defined.
#[export] Instance token_countable : Countable token.
Proof.
  refine (inj_countable'
    (λ t, match t with
          | Plain t => inl (inl t) | Filled s bs => inl (inr (s, bs))
          | Sealed s bs => inr (inl (s, bs)) | Shown s bs => inr (inr (s, bs)) end)
    (λ t, match t with
          | inl (inl t) => Plain t | inl (inr (s, bs)) => Filled s bs
          | inr (inl (s, bs)) => Sealed s bs | inr (inr (s, bs)) => Shown s bs end) _).
  by intros [].
Defined.

Abbreviation tokens := (gmultiset token).

(** The ownership a token stands for. *)
Definition base (t : token) : Ownership.token :=
  match t with
  | Plain t => t
  | Filled s _ | Sealed s _ => Ownership.Reserved s
  | Shown s _ => Ownership.Pinned s
  end.
Definition bases (own : tokens) : Ownership.tokens := gmultiset_map base own.
Definition plain (own : Ownership.tokens) : tokens := gmultiset_map Plain own.

(** The sample a slot holds: as many bytes as its length says. *)
Definition content (m : loc → Z) (s : Z) : list Z :=
  load_list (SlotByte s) 0 (Z.to_nat (m (Slot s payload_len))) m.

Definition starts (m : loc → Z) (s : Z) (bs : list Z) : Prop :=
  ∀ j b, bs !! j = Some b → m (SlotByte s (Z.of_nat j)) = b.

(** What a token says of the memory. *)
Definition knows (m : loc → Z) (t : token) : Prop :=
  match t with
  | Plain _ => True
  | Filled s bs => starts m s bs
  | Sealed s bs | Shown s bs => content m s = bs
  end.

Definition guard (R : Type) (a : act loc R) (own : tokens) : Prop := Ownership.guard R a (bases own).

Record inv (g : Geometry) (Sent : list (list Z)) (m : loc → Z) (cnt : Z) (own : tokens) : Prop := {
  inv_base : Ownership.inv g m cnt (bases own);
  inv_sent : ∀ s, 0 <= s < pool_size g → m (Slot s refcount) ≠ 0 → content m s ∈ Sent;
  inv_known : ∀ t, t ∈ own → knows m t
}.

(** ** Tokens *)

Lemma bases_disj_union X Y : bases (X ⊎ Y) = bases X ⊎ bases Y.
Proof. apply gmultiset_map_disj_union. Qed.
Lemma bases_singleton t : bases {[+ t +]} = {[+ base t +]}.
Proof. apply gmultiset_map_singleton. Qed.
Lemma bases_empty : bases ∅ = ∅.
Proof. apply gmultiset_map_empty. Qed.

Lemma plain_disj_union X Y : plain (X ⊎ Y) = plain X ⊎ plain Y.
Proof. apply gmultiset_map_disj_union. Qed.
Lemma plain_singleton t : plain {[+ t +]} = {[+ Plain t +]}.
Proof. apply gmultiset_map_singleton. Qed.
Lemma plain_empty : plain ∅ = ∅.
Proof. apply gmultiset_map_empty. Qed.

Lemma bases_plain own : bases (plain own) = own.
Proof.
  induction own as [|t own IH] using gmultiset_ind.
  - by rewrite plain_empty, bases_empty.
  - by rewrite plain_disj_union, plain_singleton, bases_disj_union, bases_singleton, IH.
Qed.

Lemma elem_of_plain t own : t ∈ plain own ↔ ∃ t', t = Plain t' ∧ t' ∈ own.
Proof. unfold plain. rewrite elem_of_gmultiset_map. done. Qed.

Lemma bases_of t own : t ∈ own → base t ∈ bases own.
Proof. intros Ht. apply elem_of_gmultiset_map. eauto. Qed.

Lemma bases_nil own : bases own = ∅ → own = ∅.
Proof.
  intros HE. destruct own as [|t own _] using gmultiset_ind; [done|].
  rewrite bases_disj_union, bases_singleton in HE. multiset_solver.
Qed.

Lemma known_guard_mono R (a : act loc R) own own' : guard R a own → own ⊆ own' → guard R a own'.
Proof.
  intros Ha Hsub. eapply Ownership.guard_mono; [exact Ha|].
  apply gmultiset_disj_union_difference in Hsub. rewrite Hsub, bases_disj_union. multiset_solver.
Qed.

(** ** Programs that publish nothing *)

(** The store that turns a reservation into references. *)
Definition presets {R} (a : act loc R) : bool :=
  match a with Store (Slot _ refcount) _ => true | _ => false end.

Fixpoint quiet {A} (p : rprog A) : Prop :=
  match p with
  | Ret _ | Throw _ => True
  | Act a k => presets a = false ∧ ∀ r, quiet (k r)
  | Loop body s k => (∀ s, quiet (body s)) ∧ ∀ b, quiet (k b)
  end.

Lemma quiet_bind {A B} (p : rprog A) (f : A → rprog B) :
  quiet p → (∀ a, quiet (f a)) → quiet (bind p f).
Proof.
  revert B f. induction p as [a|e|R A a k IH|A S B' body _ s k IH]; intros B f Hp Hf; cbn in *;
    [done|done|..]; destruct Hp; auto.
Qed.

Lemma quiet_loop {S B} (s : S) (body : S → rprog (S + B)) : (∀ s, quiet (body s)) → quiet (loop s body).
Proof. done. Qed.

Lemma quiet_for {S B} n lo (s : S) (body : Z → S → rprog (S + B)) :
  (∀ i s, quiet (body i s)) → quiet (for_ n lo s body).
Proof.
  intros Hb. revert lo s. induction n as [|n IH]; intros lo s; [done|].
  apply quiet_bind; [done|]. by intros [].
Qed.

Lemma quiet_foreach {S} n lo (s : S) (body : Z → S → rprog S) :
  (∀ i s, quiet (body i s)) → quiet (foreach n lo s body).
Proof.
  intros Hb. revert lo s. induction n as [|n IH]; intros lo s; [done|]. by apply quiet_bind.
Qed.

Lemma quiet_try {A} (p : rprog A) : quiet p → quiet (try_ p).
Proof.
  induction p as [a|e|R A a k IH|A S B body IHb s k IH]; cbn; try done.
  - intros []; auto.
  - intros [Hb Hk]. split.
    + intros s'. apply quiet_bind; [by apply IHb|]. by intros [[]|].
    + intros [b|e]; [by apply IH|done].
Qed.

(** ** The lift *)

Section lift.
Context (g : Geometry) (Sent : list (list Z)).
Implicit Types (m : loc → Z) (F env : tokens).

(** The payload and the length of a slot. *)
Definition payload_of (s : Z) (l : loc) : Prop := l = Slot s payload_len ∨ ∃ j, l = SlotByte s j.

Lemma content_ext m m' s : (∀ l, payload_of s l → m' l = m l) → content m' s = content m s.
Proof.
  intros Hm. unfold content. rewrite (Hm (Slot s payload_len)) by by left.
  apply load_list_ext. intros j _. apply Hm. right. eauto.
Qed.

Lemma starts_ext m m' s bs : (∀ l, payload_of s l → m' l = m l) → starts m s bs → starts m' s bs.
Proof. intros Hm Hs j b Hj. rewrite Hm; [by apply Hs|]. right. eauto. Qed.

Definition slot_of (t : token) : Z :=
  match t with Filled s _ | Sealed s _ | Shown s _ => s | Plain _ => 0 end.

Lemma knows_ext m m' t : (∀ l, payload_of (slot_of t) l → m' l = m l) → knows m t → knows m' t.
Proof.
  intros Hm. destruct t as [t|s bs|s bs|s bs]; cbn in *; [done|by apply starts_ext|..];
    by rewrite (content_ext m m').
Qed.

(** Only who reserved a slot writes its payload or its length. *)
Lemma payload_kept {R} (a : act loc R) m r m' (own : Ownership.tokens) s l :
  Ownership.guard R a own → astep a m r m' → s ∉ Ownership.reserved own → payload_of s l → m' l = m l.
Proof.
  intros Ha Hs Hres Hl. apply (astep_other a _ r); [done|]. intros Hw. apply Hres.
  destruct a as [l'|l' v|l' e d|l' e d|wrap l' d| | | | | | | | | |]; cbn in *; try done.
  - injection Hw as ->. by destruct Hl as [->|[j ->]].
  - destruct r as [[] v]; [|done]. injection Hw as ->. by destruct Hl as [->|[j ->]].
  - destruct r as [[] v]; [|done]. injection Hw as ->. by destruct Hl as [->|[j ->]].
  - injection Hw as ->. by destruct Hl as [->|[j ->]].
Qed.

Lemma pinned_referenced m cnt own s :
  Ownership.inv g m cnt own → Ownership.Pinned s ∈ own →
  0 <= s < pool_size g ∧ 0 < m (Slot s refcount).
Proof.
  intros Hi Hs. pose proof (Ownership.inv_pinned _ _ _ _ Hi s Hs) as Hr. split; [done|].
  destruct Hi as [[fl Hok] _ _ _ _]. destruct (so_ref _ _ _ _ _ Hok s Hr) as (-> & _ & _).
  pose proof (claims_nonneg g m s). unfold Ownership.pins.
  pose proof (proj1 (elem_of_multiplicity _ _) Hs). lia.
Qed.

(** A slot without a reference gets one by being published only. *)
Lemma referenced_before {R} (a : act loc R) m cnt r m' own E s :
  Ownership.inv g m cnt (own ⊎ E) → Ownership.guard R a own → presets a = false → astep a m r m' →
  m' (Slot s refcount) ≠ 0 → m (Slot s refcount) ≠ 0.
Proof.
  intros Hi Ha Hq Hs Hne. destruct (decide (writes a r = Some (Slot s refcount))) as [Hw|Hw];
    [|by rewrite <- (astep_other a _ r _ _ Hs Hw)].
  destruct a as [l|l v|l e d|l e d|wrap l d| | | | | | | | | |]; cbn in *; try done.
  - by injection Hw as ->.
  - destruct Hs as [(He & -> & _)|(_ & -> & _)]; cbn in Hw; [|done]. injection Hw as ->. cbn in Ha. lia.
  - destruct Hs as [(He & -> & _)|(-> & _)]; cbn in Hw; [|done]. injection Hw as ->. cbn in Ha. lia.
  - injection Hw as ->. destruct (pinned_referenced _ _ _ s Hi); [multiset_solver|lia].
Qed.

(** A slot one party knows is not reserved by another. *)
Lemma not_reserved m cnt (own E : Ownership.tokens) s :
  Ownership.inv g m cnt (own ⊎ E) → Ownership.Reserved s ∈ E ∨ Ownership.Pinned s ∈ E →
  s ∉ Ownership.reserved own.
Proof.
  intros Hb [HE|HE] Hin.
  - apply (Clients.reserved_once g m cnt (own ⊎ E) own E s Hb); [done|done|].
    apply Ownership.elem_of_reserved. by left.
  - destruct (Clients.reserved_idle g m cnt (own ⊎ E) s Hb) as (_ & _ & Hnot); [|multiset_solver].
    eapply Clients.reserved_mono; [|exact Hin]. multiset_solver.
Qed.

Lemma is_plain t : (∃ t', t = Plain t') ∨ ¬ ∃ t', t = Plain t'.
Proof. destruct t; [by eauto|right; by intros [? ?]..]. Qed.

Lemma known_slot t E : t ∈ E → (¬ ∃ t', t = Plain t') →
  Ownership.Reserved (slot_of t) ∈ bases E ∨ Ownership.Pinned (slot_of t) ∈ bases E.
Proof. intros Ht%bases_of Hne. destruct t; cbn in *; eauto. destruct Hne. eauto. Qed.

(** What a step of the layer below leaves of the knowledge above it. *)
Lemma lift_step {R} (a : act loc R) m cnt r m' cnt' (own own' : Ownership.tokens) F env :
  inv g Sent m cnt ((plain own ⊎ F) ⊎ env) →
  Ownership.guard R a own → presets a = false → astep a m r m' →
  Ownership.inv g m' cnt' (own' ⊎ (bases F ⊎ bases env)) →
  inv g Sent m' cnt' ((plain own' ⊎ F) ⊎ env).
Proof.
  intros Hi Ha Hq Hs Hi'. rewrite <- (assoc_L (⊎)) in *. rewrite <- bases_disj_union in Hi'.
  set (E := F ⊎ env) in *. destruct Hi as [Hb Hsent Hk]. rewrite bases_disj_union, bases_plain in Hb.
  assert (∀ s, s ∉ Ownership.reserved own → ∀ l, payload_of s l → m' l = m l) as Hkept
    by (intros s Hn l; by apply (payload_kept a m r m' own)).
  split.
  - by rewrite bases_disj_union, bases_plain.
  - intros s Hr Hne. pose proof (referenced_before a m cnt r m' own _ s Hb Ha Hq Hs Hne) as Hne'.
    rewrite (content_ext m m'); [auto|]. apply Hkept. intros Hown.
    destruct (Clients.reserved_idle g m cnt (own ⊎ bases E) s Hb) as (_ & Hz & _); [|done].
    eapply Clients.reserved_mono; [|exact Hown]. multiset_solver.
  - intros t [(t' & -> & _)%elem_of_plain|Ht]%gmultiset_elem_of_disj_union; [done|].
    destruct (is_plain t) as [[t' ->]|Hne]; [done|].
    apply (knows_ext m); [|apply Hk; multiset_solver]. apply Hkept.
    eapply not_reserved; [exact Hb|]. by apply known_slot.
Qed.

Abbreviation lower := (spec Ownership.watch Ownership.GENERATIONS Ownership.guard (Ownership.inv g)).
Abbreviation sp := (spec Ownership.watch Ownership.GENERATIONS guard (inv g Sent)).

Lemma lift_safe n {A} (p : rprog A) seen (own : Ownership.tokens) F (Q : outcome A → Z → Ownership.tokens → Prop) :
  quiet p →
  safe Ownership.watch Ownership.GENERATIONS Ownership.guard (Ownership.inv g) n p seen own Q →
  safe Ownership.watch Ownership.GENERATIONS guard (inv g Sent) n p seen (plain own ⊎ F)
    (λ o seen' own', ∃ own2, own' = plain own2 ⊎ F ∧ Q o seen' own2).
Proof.
  revert A p seen own Q. induction n as [|n IH]; intros A p seen own Q Hq Hp; [done|].
  destruct p as [a|e|R a k|S B body s k]; cbn [safe quiet] in *; [by eauto..| |].
  - destruct Hp as [Hg Hp], Hq as [Hq Hk]. split.
    { unfold guard. rewrite bases_disj_union, bases_plain.
      eapply Ownership.guard_mono; [exact Hg|multiset_solver]. }
    intros m cnt env r m' HI Ht Hs. pose proof (inv_base _ _ _ _ _ HI) as Hb.
    rewrite !bases_disj_union, bases_plain, <- (assoc_L (⊎)) in Hb.
    destruct (Hp m cnt _ r m' Hb Ht Hs) as (own' & Hb' & Hsafe). exists (plain own' ⊎ F).
    split; [by eapply lift_step|]. by apply IH.
  - apply IH; [|done]. destruct Hq as [Hb Hk]. apply quiet_bind; [done|]. by intros [].
Qed.

(** An operation that publishes nothing keeps what is known of the payloads. *)
Lemma lift {A} (p : rprog A) own F (Q : A → Ownership.tokens → Prop) (Q' : A → tokens → Prop) :
  quiet p → lower own p Q → (∀ a own', Q a own' → Q' a (plain own' ⊎ F)) → sp (plain own ⊎ F) p Q'.
Proof.
  intros Hq Hp HQ n seen. eapply safe_mono; [eapply lift_safe; [done|apply Hp]|].
  intros [a|e] seen' own'; [|naive_solver]. intros (own2 & -> & H2). by apply HQ.
Qed.

(** Knowledge can be dropped before an action. *)
Lemma known_inv_forget m cnt own env :
  inv g Sent m cnt (own ⊎ env) → inv g Sent m cnt (plain (bases own) ⊎ env).
Proof.
  intros [Hb Hsent Hk]. split; [|done|].
  - rewrite bases_disj_union, bases_plain. by rewrite bases_disj_union in Hb.
  - intros t [(t' & -> & _)%elem_of_plain|Ht]%gmultiset_elem_of_disj_union; [done|].
    apply Hk. multiset_solver.
Qed.

Lemma sp_forget {A R} (a : act loc R) (k : R → rprog A) own (Q : A → tokens → Prop) :
  sp (plain (bases own)) (Act a k) Q → sp own (Act a k) Q.
Proof.
  intros Hp n seen. specialize (Hp n seen). destruct n as [|n]; [done|]. cbn [safe] in *.
  destruct Hp as [Hg Hp]. split; [by unfold guard in *; rewrite bases_plain in Hg|].
  intros m cnt env r m' HI Ht Hs. apply (Hp m cnt env r m'); [by apply known_inv_forget|done|done].
Qed.

(** *** Moves of the knowledge *)

Lemma reserved_alone m cnt own env s s' :
  bases own = {[+ Ownership.Reserved s +]} → inv g Sent m cnt (own ⊎ env) →
  0 <= s' < pool_size g → m (Slot s' refcount) ≠ 0 → s' ≠ s.
Proof.
  intros Ho [Hb _ _] Hr Hne ->. rewrite bases_disj_union, Ho in Hb.
  destruct (Clients.reserved_idle g m cnt _ s Hb) as (_ & Hz & _); [|done].
  apply Ownership.elem_of_reserved. left. multiset_solver.
Qed.

(** What a process learns of a slot that is not reserved by another. *)
Lemma knows_others m m' cnt own env s :
  bases own = {[+ Ownership.Reserved s +]} → inv g Sent m cnt (own ⊎ env) →
  (∀ s' l, s' ≠ s → payload_of s' l → m' l = m l) → ∀ t, t ∈ env → knows m' t.
Proof.
  intros Ho [Hb _ Hk] Hm t Ht. destruct (is_plain t) as [[t' ->]|Hne]; [done|].
  apply (knows_ext m); [|apply Hk; multiset_solver]. intros l. apply Hm. intros E.
  rewrite bases_disj_union in Hb. eapply (not_reserved _ _ _ _ (slot_of t) Hb);
    [by apply known_slot|]. rewrite E, Ho, Ownership.reserved_singleton. cbn. set_solver.
Qed.

(** The payload and the length of a reserved slot are written. *)
Lemma inv_write m cnt own env s l v t :
  bases own = {[+ Ownership.Reserved s +]} → payload_of s l → base t = Ownership.Reserved s →
  inv g Sent m cnt (own ⊎ env) → knows (<[l:=v]> m) t → inv g Sent (<[l:=v]> m) cnt ({[+ t +]} ⊎ env).
Proof.
  intros Ho Hl Ht Hi Hk. pose proof Hi as [Hb Hsent _].
  assert (∀ s' l', s' ≠ s → payload_of s' l' → <[l:=v]> m l' = m l') as Hm.
  { intros s' l' Hne Hl'. apply upd_ne. intros <-.
    destruct Hl as [->|[j ->]], Hl' as [E|[j' E]]; congruence. }
  assert (accounted l = false) as Hacc by (by destruct Hl as [->|[j ->]]). split.
  - rewrite bases_disj_union, bases_singleton, Ht, <- Ho, <- bases_disj_union.
    by apply Ownership.inv_other.
  - intros s' Hr Hne. rewrite upd_ne in Hne by (by apply accounted_ne).
    pose proof (reserved_alone _ _ _ _ _ _ Ho Hi Hr Hne).
    rewrite (content_ext m); [by apply Hsent|]. intros l'. by apply Hm.
  - intros t' [->%gmultiset_elem_of_singleton|Ht']%gmultiset_elem_of_disj_union; [done|].
    by eapply knows_others.
Qed.

Lemma inv_publish m cnt env s bs k :
  inv g Sent m cnt ({[+ Sealed s bs +]} ⊎ env) → bs ∈ Sent → (1 <= k)%nat → Z.of_nat k <= U32_MAX →
  inv g Sent (<[Slot s refcount := Z.of_nat k]> m) cnt (plain (k *: {[+ Ownership.Pinned s +]}) ⊎ env).
Proof.
  intros Hi Hbs Hk Hmax. pose proof Hi as [Hb Hsent Hkn].
  assert (∀ s' l, payload_of s' l → <[Slot s refcount := Z.of_nat k]> m l = m l) as Hm.
  { intros s' l [->|[j ->]]; by apply upd_ne. } split.
  - rewrite bases_disj_union, bases_plain. apply Ownership.inv_preset; [|done|done].
    by rewrite bases_disj_union, bases_singleton in Hb.
  - intros s' Hr Hne. rewrite (content_ext m); [|by apply Hm].
    destruct (decide (s' = s)) as [->|Hns].
    + by rewrite (Hkn (Sealed s bs)) by multiset_solver.
    + rewrite upd_ne in Hne by congruence. auto.
  - intros t [(t' & -> & _)%elem_of_plain|Ht]%gmultiset_elem_of_disj_union; [done|].
    apply (knows_ext m); [apply Hm|]. apply Hkn. multiset_solver.
Qed.

(** A reference shows the sample of its slot. *)
Lemma inv_show m cnt env s :
  inv g Sent m cnt ({[+ Plain (Ownership.Pinned s) +]} ⊎ env) →
  content m s ∈ Sent ∧ inv g Sent m cnt ({[+ Shown s (content m s) +]} ⊎ env).
Proof.
  intros [Hb Hsent Hk]. rewrite bases_disj_union, bases_singleton in Hb. cbn [base] in Hb. split.
  - destruct (pinned_referenced _ _ _ s Hb); [multiset_solver|]. apply Hsent; [done|lia].
  - split; [by rewrite bases_disj_union, bases_singleton|done|].
    intros t [->%gmultiset_elem_of_singleton|Ht]%gmultiset_elem_of_disj_union; [done|].
    apply Hk. multiset_solver.
Qed.
End lift.

End Knowledge.
