(* ===== verification/Integrity.v ===== *)
(** * What is received is what was sent

    The operations of [Publisher] and [Subscriber] in the layer of
    [Knowledge.v]: the reservation, the publication and the reading of a
    payload are specified anew, everything else is lifted from
    [Conservation.v].  A subscriber that checks every sample it receives against
    the samples sent never fails, whatever the interleaving.  Publishers write
    what they publish ([writes_first]); a slot published beyond what was written
    shows what it held before. *)

From stdpp Require Import gmultiset.
From S2P Require Import Prelude Prog Conc Types Layout Words Process Pool Slots Ownership Conservation.
From S2P Require Import Publisher Subscriber Region Clients Knowledge.
Import Types Layout Pool Slots Conservation Knowledge.

Module Integrity.
(** ** Programs that publish nothing *)

Ltac quiets :=
  repeat match goal with
  | |- quiet (bind _ _) => apply quiet_bind; [|intros]
  | |- quiet (loop _ _) => apply quiet_loop; intros
  | |- quiet (for_ _ _ _ _) => apply quiet_for; intros
  | |- quiet (foreach _ _ _ _) => apply quiet_foreach; intros
  | |- quiet (when ?b _) => destruct b; cbn [when]
  | |- quiet (match ?x with _ => _ end) => destruct x
  | |- quiet (Ret _) => exact I
  | |- quiet _ => solve [by repeat split|auto with quiet]
  end.
Create HintDb quiet.

Lemma quiet_push s : quiet (treiber_push s).
Proof. unfold treiber_push. quiets. Qed.
Lemma quiet_pop n : quiet (treiber_pop n).
Proof. unfold treiber_pop. quiets. Qed.
Lemma quiet_drop s : quiet (drop_reference s).
Proof. unfold drop_reference, treiber_push. quiets. Qed.
#[export] Hint Resolve quiet_push quiet_pop quiet_drop : quiet.

Lemma quiet_abandon i : quiet (Publisher.abandon_delivery i).
Proof. unfold Publisher.abandon_delivery, Publisher.wake_ring. quiets. Qed.
Lemma quiet_commit p i idx pos s d : quiet (Publisher.commit_entry p i idx pos s d).
Proof.
  unfold Publisher.commit_entry, Publisher.take_claim, Publisher.release_slot, Publisher.wake_ring.
  quiets; apply quiet_abandon.
Qed.
Lemma quiet_deliver p i s d : quiet (Publisher.deliver p i s d).
Proof.
  unfold Publisher.deliver, Publisher.enter_ring, Publisher.deliver_admitted,
    Publisher.signal_before_wait, Publisher.wait_for_commit, Publisher.lock_entry,
    Publisher.self_repair, entry_steal_and_skip.
  quiets; first [apply quiet_abandon|apply quiet_commit].
Qed.
Lemma quiet_release_excess s n : quiet (Publisher.release_excess s n).
Proof. unfold Publisher.release_excess. quiets. Qed.

Lemma quiet_lose s : quiet (Subscriber.lose_one s).
Proof. unfold Subscriber.lose_one. quiets. Qed.
Lemma quiet_resync s wp : quiet (Subscriber.resync s wp).
Proof. unfold Subscriber.resync. quiets. Qed.
Lemma quiet_pin s : quiet (Subscriber.pin s).
Proof. unfold Subscriber.pin. quiets. Qed.
Lemma quiet_release_ring s : quiet (Subscriber.release_ring s).
Proof.
  unfold Subscriber.release_ring, Subscriber.set_ring_state, Subscriber.quiesce, clear_owner,
    Subscriber.drain_unconsumed, Subscriber.drain_entry.
  quiets.
Qed.
Lemma quiet_make_subscriber g : quiet (Subscriber.make_subscriber g).
Proof. unfold Subscriber.make_subscriber, Subscriber.join_ring, Process.process_starttime. quiets. Qed.
Lemma quiet_arm s : quiet (Subscriber.arm_wait s).
Proof. unfold Subscriber.arm_wait, Subscriber.head_state, Subscriber.disarm_wait. quiets. Qed.
Lemma quiet_disarm s : quiet (Subscriber.disarm_wait s).
Proof. unfold Subscriber.disarm_wait. quiets. Qed.

Lemma quiet_repair g : quiet (Region.repair_locked_entries g).
Proof.
  assert (∀ i idx pos seq n, quiet (Region.repair_entry i idx pos seq n)) as Hr.
  { intros. unfold Region.repair_entry, entry_steal_and_skip. quiets. }
  unfold Region.repair_locked_entries, Region.scan_ring. quiets.
  match goal with |- quiet (Region.steal_candidates ?cs ?n) => generalize n; induction cs as [|c cs IH] end;
    intros k; cbn [Region.steal_candidates]; quiets; apply IH.
Qed.

Lemma quiet_recovering g calls : quiet (Clients.recovering g calls).
Proof.
  induction calls as [|[] calls IH]; cbn [Clients.recovering]; [done|..]; (apply quiet_bind; [|done]).
  - apply quiet_repair.
  - unfold Region.reset_retired_rings, clear_owner. quiets.
  - unfold Region.reclaim_dead_rings, Region.reclaim_ring, Region.ring_owner_dead,
      Process.owner_is_dead, Region.leave_reclaiming, clear_owner. quiets.
  - unfold Region.diagnose, Region.diagnose_ring, Region.ring_owner_dead, Process.owner_is_dead. quiets.
Qed.

(** ** Publishing *)

Section operations.
Context (g : Geometry) (Hg : pool_geometry g) (Sent : list (list Z)).
Abbreviation lower := (spec Ownership.watch Ownership.GENERATIONS Ownership.guard (Ownership.inv g)).
Abbreviation sp := (spec Ownership.watch Ownership.GENERATIONS guard (inv g Sent)).

Lemma known_frame {A} own F (p : rprog A) (Q : A → tokens → Prop) :
  sp own p (λ a own', Q a (own' ⊎ F)) → sp (own ⊎ F) p Q.
Proof. apply spec_frame, known_guard_mono. Qed.

(** Start from nothing, beside what the caller holds. *)
Lemma known_call {A} own (p : rprog A) (P Q : A → tokens → Prop) :
  sp ∅ p P → (∀ a own', P a own' → Q a (own' ⊎ own)) → sp own p Q.
Proof.
  intros Hp HQ. rewrite <- (left_id_L ∅ (⊎) own). apply known_frame. by eapply spec_mono.
Qed.

Lemma lift_all {A} (p : rprog A) (own : Ownership.tokens) (Q : A → Ownership.tokens → Prop)
    (Q' : A → tokens → Prop) :
  quiet p → lower own p Q → (∀ a own', Q a own' → Q' a (plain own')) → sp (plain own) p Q'.
Proof.
  intros Hq Hp HQ. rewrite <- (right_id_L ∅ (⊎) (plain own)). eapply lift; [done|exact Hp|].
  intros a own' H. rewrite (right_id_L ∅ (⊎)). auto.
Qed.

(** An operation that starts with nothing, beside what its caller knows. *)
Lemma lift_call {A} (p : rprog A) (own : tokens) (Q : A → Ownership.tokens → Prop)
    (Q' : A → tokens → Prop) :
  quiet p → lower ∅ p Q → (∀ a own', Q a own' → Q' a (plain own' ⊎ own)) → sp own p Q'.
Proof.
  intros Hq Hp HQ. rewrite <- (left_id_L ∅ (⊎) own), <- plain_empty. by eapply lift.
Qed.

Lemma lift_none {A} (p : rprog A) (Q : A → Ownership.tokens → Prop) (Q' : A → tokens → Prop) :
  quiet p → lower ∅ p Q → (∀ a own', Q a own' → Q' a (plain own')) → sp ∅ p Q'.
Proof.
  intros Hq Hp HQ. eapply lift_call; [done|exact Hp|]. intros a own' H.
  rewrite (right_id_L ∅ (⊎)). auto.
Qed.

Lemma sp_push s own :
  bases own = {[+ Ownership.Reserved s +]} → sp own (treiber_push s) (λ _ own', own' = ∅).
Proof using Hg.
  intros Ho. apply (sp_forget g Sent (Load (Hdr free_top))). rewrite Ho.
  eapply (lift_all (treiber_push s)); [apply quiet_push|by apply Ownership.spec_push|].
  intros _ own' ->. apply plain_empty.
Qed.

Lemma sp_drop s own :
  bases own = {[+ Ownership.Pinned s +]} → sp own (drop_reference s) (λ _ own', own' = ∅).
Proof using Hg.
  intros Ho. apply (sp_forget g Sent (FetchAdd u32 (Slot s refcount) (- 1))). rewrite Ho.
  eapply (lift_all (drop_reference s)); [apply quiet_drop|by apply Ownership.spec_drop|].
  intros _ own' ->. apply plain_empty.
Qed.

(** A reserved slot whose payload starts with [bs]. *)
Definition filled (s : Z) (bs : list Z) : tokens :=
  match bs with [] => {[+ Plain (Ownership.Reserved s) +]} | _ => {[+ Filled s bs +]} end.

Lemma bases_filled s bs : bases (filled s bs) = {[+ Ownership.Reserved s +]}.
Proof. destruct bs; apply bases_singleton. Qed.

Lemma filled_starts m cnt env s bs : inv g Sent m cnt (filled s bs ⊎ env) → starts m s bs.
Proof.
  intros [_ _ Hk]. destruct bs as [|b bs]; [done|]. apply (Hk (Filled s (b :: bs))).
  cbn [filled]. multiset_solver.
Qed.

Lemma owns_filled s bs : Ownership.owns_slot (bases (filled s bs)) s.
Proof. rewrite bases_filled. unfold Ownership.owns_slot. rewrite Ownership.reserved_singleton. cbn. set_solver. Qed.

Lemma sp_release_pending p own :
  bases own = held p →
  sp own (Publisher.release_pending p) (λ p' own', p' = Publisher.set_pending p INVALID_SLOT ∧ own' = ∅).
Proof using Hg.
  intros Ho. unfold Publisher.release_pending, held in *. destruct p as [pg ct ps rs dr wb].
  cbn [Publisher.pending_slot_] in *. destruct (Z.eqb_spec ps INVALID_SLOT) as [->|E]; cbn [negb].
  - apply spec_ret. split; [done|]. by apply bases_nil.
  - apply spec_bind. eapply spec_mono; [by apply sp_push|]. intros _ ? ->. by apply spec_ret.
Qed.

(** One more byte of [src] over [bs]. *)
Lemma starts_store m s src bs i b :
  src !! i = Some b → starts m s (take i src ++ drop i bs) →
  starts (<[SlotByte s (Z.of_nat i) := b]> m) s ((take i src ++ [b]) ++ drop (S i) bs).
Proof.
  intros Hb Hs j c. apply lookup_lt_Some in Hb as Hlt. rewrite <- (assoc_L (++)).
  assert (length (take i src) = i) as Hlen by (rewrite length_take; lia).
  destruct (decide (j < i)%nat) as [Hj|Hj].
  - rewrite lookup_app_l by lia. intros Hc. rewrite upd_ne by (intros [= ?]; lia).
    apply Hs. by rewrite lookup_app_l by lia.
  - rewrite lookup_app_r, Hlen by lia. destruct (decide (j = i)) as [->|Hne].
    + rewrite Nat.sub_diag. intros [= <-]. apply upd_same.
    + intros Hc. rewrite upd_ne by (intros [= ?]; lia). apply Hs.
      rewrite lookup_app_r, Hlen by lia. rewrite lookup_drop.
      destruct (j - i)%nat as [|k] eqn:E; [lia|]. change (drop (S i) bs !! k = Some c) in Hc. rewrite lookup_drop in Hc.
      rewrite <- Hc. f_equal. lia.
Qed.

(** [memcpy] into a reserved slot. *)
Lemma sp_memcpy_in s bs src :
  sp (filled s bs) (memcpy_in (SlotByte s) src) (λ _ own, own = filled s (Subscriber.fill bs src)).
Proof.
  unfold memcpy_in, Subscriber.fill.
  apply (spec_foreach _ _ _ _ _ _ _ _ _ (λ i _ own,
    own = filled s (take (Z.to_nat i) src ++ drop (Z.to_nat i) bs))).
  - by rewrite take_0, drop_0.
  - intros i [] own Hi ->. destruct (src !! Z.to_nat i) as [b|] eqn:Hb.
    2:{ apply lookup_ge_None in Hb. lia. }
    rewrite (nth_lookup_Some _ _ _ _ Hb). replace (Z.to_nat (i + 1)) with (S (Z.to_nat i)) by lia.
    rewrite (take_S_r _ _ _ Hb).
    eapply spec_store with (own' := filled s ((take (Z.to_nat i) src ++ [b]) ++ drop (S (Z.to_nat i)) bs));
      [done|apply owns_filled| |done].
    intros m cnt env HI. pose proof (filled_starts _ _ _ _ _ HI) as Hs.
    replace (filled s _) with ({[+ Filled s ((take (Z.to_nat i) src ++ [b]) ++ drop (S (Z.to_nat i)) bs) +]} : tokens).
    2:{ unfold filled. destruct ((_ ++ [b]) ++ _) eqn:E; [|done].
        by apply app_eq_nil in E as [[_ ?]%app_eq_nil _]. }
    eapply inv_write; [apply bases_filled|right; eauto|done|exact HI|].
    rewrite <- (Z2Nat.id i) at 1 by lia. by apply starts_store.
  - intros [] own ->. by rewrite Z.add_0_l, Nat2Z.id, firstn_all.
Qed.

Lemma content_take m s bs len :
  starts m s bs → 0 <= len <= Z.of_nat (length bs) → m (Slot s payload_len) = len →
  content m s = take (Z.to_nat len) bs.
Proof.
  intros Hs Hlen Hm. unfold content, load_list. rewrite Hm. apply list_eq. intros j.
  rewrite list_lookup_fmap. destruct (decide (j < Z.to_nat len)%nat) as [Hj|Hj].
  - rewrite lookup_seq_lt, lookup_take_lt by done. cbn.
    destruct (lookup_lt_is_Some_2 bs j ltac:(lia)) as [b Hb]. rewrite Hb. f_equal. by apply Hs.
  - rewrite lookup_seq_ge, lookup_take_ge by lia. done.
Qed.

(** The length is stored: the sample is settled. *)
Lemma sp_seal s bs len :
  0 <= len <= Z.of_nat (length bs) → is_u32 len →
  sp (filled s bs) (store (Slot s payload_len) (u32 len))
    (λ _ own, own = {[+ Sealed s (take (Z.to_nat len) bs) +]}).
Proof.
  intros Hlen Hu. eapply spec_store; [done|apply owns_filled| |reflexivity].
  intros m cnt env HI. pose proof (filled_starts _ _ _ _ _ HI) as Hs.
  eapply inv_write; [apply bases_filled|by left|done|exact HI|]. cbn [knows].
  apply content_take; [|done|by rewrite upd_same, u32_small].
  intros j b Hj. rewrite upd_ne by done. by apply Hs.
Qed.

(** The count is stored: the sample is public. *)
Lemma sp_publish_count s bs :
  bs ∈ Sent → sp {[+ Sealed s bs +]} (store (Slot s refcount) (u32 (max_subs g)))
    (λ _ own, own = plain (refs s (max_subs g))).
Proof using Hg.
  intros Hbs. pose proof (pg_subs g Hg) as Hsubs. change MAX_SUBSCRIBERS with 65535 in Hsubs.
  rewrite u32_small by (unfold is_u32; lia). eapply spec_store; [done| | |reflexivity].
  - unfold guard. rewrite bases_singleton. cbn. unfold Ownership.owns_slot.
    rewrite Ownership.reserved_singleton. cbn. set_solver.
  - intros m cnt env Hi. rewrite <- (Z2Nat.id (max_subs g)) at 1 by lia.
    unfold refs. eapply inv_publish; [exact Hi|done|lia|lia].
Qed.

(** What a publisher keeps: the reservation, and through a valid handle the
    bytes it wrote. *)
Record keeps (p : Publisher.publisher) (a : Publisher.AllocatedSlot) (buf : list Z) (own : tokens) : Prop := {
  kp_held : bases own = held p;
  kp_handle : handle_ok a p;
  kp_buf : Publisher.valid a p = true →
    own = filled (Publisher.data_ a) buf ∧ Publisher.max_size_ a = slot_data_size g
}.

Lemma keeps_invalid p a buf own :
  bases own = held p → Publisher.valid a p = false → keeps p a buf own.
Proof. intros Ho Hv. split; [done|intros Hv'; congruence|congruence]. Qed.

(** A publication that fits sends the first [len] bytes written. *)
Definition sends (buf : list Z) (len : Z) : Prop :=
  0 <= len ∧ (len <= slot_data_size g → len <= Z.of_nat (length buf) ∧ take (Z.to_nat len) buf ∈ Sent).

Section publishing.
Context (Hsize : slot_data_size g <= MAX_PAYLOAD_SIZE).

Lemma sp_publish p len buf own :
  pub_ok g p → Publisher.pending_slot_ p ≠ INVALID_SLOT →
  own = filled (Publisher.pending_slot_ p) buf → sends buf len →
  sp own (Publisher.publish p len) (λ '(_, p') own', own' = ∅ ∧ pub_ok g p' ∧
    Publisher.pending_slot_ p' = INVALID_SLOT ∧ Publisher.reservation_ p' = Publisher.reservation_ p).
Proof using Hg Hsize.
  intros [Hp Hr] Hpend -> [Hlen Hfit]. specialize (Hr Hpend). unfold Publisher.publish. rewrite Hp.
  destruct (Z.ltb_spec (slot_data_size g) len) as [Hbig|Hsmall].
  { apply spec_bind. eapply spec_mono; [apply sp_release_pending|].
    - by rewrite held_some, bases_filled.
    - intros p' own [-> ->]. apply spec_ret. split_and!; [done|by apply pub_ok_none|done..]. }
  destruct (Z.eqb_spec (Publisher.pending_slot_ p) INVALID_SLOT) as [?|_]; [done|].
  destruct (Hfit Hsmall) as [Hbuf Hsent]. change MAX_PAYLOAD_SIZE with 2147483647 in Hsize.
  apply spec_bind. eapply spec_mono; [apply sp_seal; [done|unfold is_u32; lia]|]. intros _ own ->.
  apply spec_bind. eapply spec_mono; [by apply sp_publish_count|]. intros _ own ->.
  apply spec_bind. eapply (lift_all (foreach _ _ _ _));
    [apply quiet_foreach; intros; apply quiet_deliver|by apply spec_deliver_all|].
  intros d own [Hd ->]. lazy beta. apply spec_bind.
  eapply (lift_all (Publisher.release_excess _ _));
    [apply quiet_release_excess|by apply spec_release_excess|].
  intros _ own ->. rewrite plain_empty. apply spec_bind, spec_when; intros _.
  - apply spec_readonly; [done|done|]. intros _. apply spec_ret.
    split_and!; [done|by apply pub_ok_none|done..].
  - apply spec_ret. split_and!; [done|by apply pub_ok_none|done..].
Qed.

Lemma sp_allocate p own :
  bases own = held p → Publisher.pub_geometry p = g →
  sp own (Publisher.allocate p) (λ '(a, p') own', keeps p' a [] own' ∧ pub_ok g p' ∧
    Publisher.reservation_ p' = u64 (Publisher.reservation_ p + 1) ∧
    (a = Publisher.null_slot ∨ Publisher.id_ a = Publisher.reservation_ p')).
Proof using Hg.
  intros Ho Hp. unfold Publisher.allocate. apply spec_bind.
  eapply spec_mono; [by apply sp_release_pending|]. intros p' own' [-> ->]. lazy beta.
  apply spec_bind. replace (pool_size _) with (pool_size g) by (cbn; by rewrite Hp).
  eapply (lift_none (treiber_pop (pool_size g))); [apply quiet_pop|by apply Ownership.spec_pop|].
  intros s own' [[-> ->]|[Hs ->]]; lazy beta.
  - rewrite Z.eqb_refl. apply spec_ret. rewrite plain_empty.
    split_and!; [by apply keeps_invalid; [rewrite bases_empty, held_none|]|by apply pub_ok_none|done|by left].
  - pose proof (valid_slot g Hg _ Hs) as Hv. rewrite (proj2 (Z.eqb_neq _ _) Hv).
    apply spec_ret. rewrite plain_singleton. split_and!; [|by split|done|by right].
    split; [by rewrite bases_singleton, held_some|done|]. intros _. split; [done|]. cbn. by rewrite Hp.
Qed.

(** The bytes of a handle after a [write]. *)
Definition written (buf src : list Z) : list Z :=
  if slot_data_size g <? Z.of_nat (length src) then buf else Subscriber.fill buf src.

Lemma sp_slot_write a p src buf own :
  keeps p a buf own →
  sp own (Publisher.slot_write a p src) (λ _ own', keeps p a (written buf src) own').
Proof.
  intros [Ho Ha Hbuf]. unfold Publisher.slot_write. destruct (Publisher.valid a p) eqn:Hv; cbn [negb orb].
  2:{ apply spec_ret. by apply keeps_invalid. }
  destruct (Hbuf eq_refl) as [-> Hmax]. unfold written. rewrite Hmax.
  destruct (_ <? _); [apply spec_ret; by split|]. apply spec_bind.
  eapply spec_mono; [apply sp_memcpy_in|]. intros _ own ->. apply spec_ret.
  split; [by rewrite bases_filled in *|done|done].
Qed.

(** After [publish] the handle is spent. *)
Lemma sp_slot_publish a p len buf own :
  pub_ok g p → keeps p a buf own → sends buf len →
  sp own (Publisher.slot_publish a p len) (λ '(_, (a', p')) own', bases own' = held p' ∧ pub_ok g p' ∧
    Publisher.valid a' p' = false ∧ Publisher.id_ a' = Publisher.id_ a ∧
    Publisher.reservation_ p' = Publisher.reservation_ p).
Proof using Hg Hsize.
  intros Hp [Ho Ha Hbuf] Hs. unfold Publisher.slot_publish.
  destruct (Publisher.valid a p) eqn:Hv; cbn [negb]; [|by apply spec_ret].
  destruct (Hbuf eq_refl) as [-> _], (Ha Hv) as [Hd Hpend]. apply spec_bind.
  eapply spec_mono; [apply (sp_publish _ _ buf); [done|done|by rewrite Hd|done]|].
  intros [n p'] own' (-> & Hp' & Hpend' & Hr). lazy beta match. apply spec_ret.
  split_and!; [by rewrite bases_empty, held_none|done| |done|done].
  unfold Publisher.valid. cbn. by rewrite andb_false_r.
Qed.

Lemma sp_slot_destroy a p own :
  pub_ok g p → bases own = held p →
  sp own (Publisher.slot_destroy a p) (λ p' own', bases own' = held p' ∧ pub_ok g p' ∧
    Publisher.reservation_ p' = Publisher.reservation_ p).
Proof using Hg.
  intros Hp Ho. unfold Publisher.slot_destroy. destruct (Publisher.valid a p); [|by apply spec_ret].
  eapply spec_mono; [by apply sp_release_pending|]. intros p' own' [-> ->]. destruct Hp.
  split_and!; [by rewrite bases_empty, held_none|by apply pub_ok_none|done].
Qed.

Lemma sp_send p data own :
  pub_ok g p → bases own = held p → (Z.of_nat (length data) <= slot_data_size g → data ∈ Sent) →
  sp own (Publisher.send p data) (λ '(_, p') own', pub_ok g p' ∧ bases own' = held p' ∧
    ((p' = p ∧ own' = own) ∨ Publisher.reservation_ p' = u64 (Publisher.reservation_ p + 1))).
Proof using Hg Hsize.
  intros Hp Ho Hdata. pose proof Hp as [Hpg Hr]. unfold Publisher.send. rewrite Hpg.
  destruct (Z.ltb_spec (slot_data_size g) (Z.of_nat (length data))) as [Hbig|Hfit].
  { apply spec_ret. split_and!; [done|done|by left]. }
  apply spec_bind. eapply spec_mono; [by apply sp_allocate|].
  intros [a p1] own1 (Hk & Hp1 & Hres & _). lazy beta match.
  destruct (Publisher.valid a p1) eqn:Hv; cbn [negb].
  2:{ apply spec_ret. split_and!; [done|apply Hk|by right]. }
  apply spec_bind. eapply spec_mono; [by apply (sp_slot_write _ _ _ [])|]. intros w own2 Hk2. lazy beta.
  assert (written [] data = data) as Hw.
  { unfold written, Subscriber.fill. rewrite (proj2 (Z.ltb_ge _ _) Hfit), drop_nil. apply app_nil_r. }
  rewrite Hw in Hk2. apply spec_bind. eapply spec_mono; [apply (sp_slot_publish _ _ _ data); [done|done|]|].
  { split; [lia|]. intros _. split; [lia|]. rewrite Nat2Z.id, firstn_all. auto. }
  intros [n [a2 p2]] own3 (Ho2 & Hp2 & _ & _ & Hr2). lazy beta match.
  apply spec_bind. eapply spec_mono; [by apply sp_slot_destroy|]. intros p3 own4 (Ho3 & Hp3 & Hr3).
  apply spec_ret. split_and!; [done|done|right; congruence].
Qed.

(** ** Scripts of publishers *)

(** The samples a script may publish, [buf] being what its handle has written. *)
Fixpoint samples (calls : list Clients.publisher_call) (buf : list Z) : list (list Z) :=
  match calls with
  | [] => []
  | Clients.CallSend data :: calls => data :: samples calls buf
  | Clients.CallAllocate :: calls => samples calls []
  | Clients.CallWrite src :: calls => samples calls (written buf src)
  | Clients.CallPublish len :: calls => take (Z.to_nat len) buf :: samples calls buf
  | Clients.CallDestroy :: calls => samples calls []
  end.

(** It publishes no byte of a slot it has not written. *)
Fixpoint writes_first (calls : list Clients.publisher_call) (buf : list Z) : Prop :=
  match calls with
  | [] => True
  | Clients.CallSend _ :: calls => writes_first calls buf
  | Clients.CallAllocate :: calls => writes_first calls []
  | Clients.CallWrite src :: calls => writes_first calls (written buf src)
  | Clients.CallPublish len :: calls =>
      0 <= len ∧ (len <= slot_data_size g → len <= Z.of_nat (length buf)) ∧ writes_first calls buf
  | Clients.CallDestroy :: calls => writes_first calls []
  end.

Lemma sp_publishing calls p a buf own :
  pub_ok g p → keeps p a buf own → Publisher.id_ a <= Publisher.reservation_ p →
  0 <= Publisher.reservation_ p → Publisher.reservation_ p + Z.of_nat (length calls) <= U64_MAX →
  samples calls buf ⊆ Sent → writes_first calls buf →
  sp own (Clients.publishing calls p a) (λ _ own', own' = ∅).
Proof using Hg Hsize.
  revert p a buf own. induction calls as [|c calls IH]; intros p a buf own Hp Hk Hid H0 Hb Hs Hw;
    cbn [Clients.publishing].
  { apply spec_bind. eapply spec_mono; [apply sp_release_pending, Hk|]. intros p' own' [_ ->]. by apply spec_ret. }
  cbn [length] in Hb. assert (u64 (Publisher.reservation_ p + 1) = Publisher.reservation_ p + 1) as Hres
    by (apply u64_id; lia).
  destruct c; cbn [samples writes_first] in Hs, Hw; apply spec_bind.
  - eapply spec_mono; [apply sp_send; [done|apply Hk|set_solver]|].
    intros [n p'] own' (Hp' & Ho' & [[-> ->]|Hr]); lazy beta match.
    + apply (IH _ _ buf); try done; [lia|set_solver].
    + rewrite Hres in Hr. apply (IH _ _ buf); try done; [|lia..|set_solver].
      apply keeps_invalid; [done|]. unfold Publisher.valid.
      rewrite (proj2 (Z.eqb_neq _ _)) by lia. by rewrite andb_false_r.
  - eapply spec_mono; [apply sp_allocate; [apply Hk|apply Hp]|].
    intros [a' p'] own' (Hk' & Hp' & Hr & Hid'). lazy beta match. rewrite Hres in Hr.
    apply (IH _ _ []); try done; [destruct Hid' as [-> | ->]; [cbn; lia|lia]|lia..].
  - eapply spec_mono; [by apply sp_slot_write|]. intros w own' Hk'. apply (IH _ _ (written buf src)); try done; lia.
  - destruct Hw as (Hlen & Hfit & Hw).
    eapply spec_mono; [apply (sp_slot_publish _ _ _ buf); [done|done|]|].
    { split; [done|]. intros Hle. split; [by apply Hfit|set_solver]. }
    intros [n [a' p']] own' (Ho' & Hp' & Hv & Hid' & Hr). lazy beta match.
    apply (IH _ _ buf); try done; [by apply keeps_invalid|lia..|set_solver].
  - eapply spec_mono; [apply sp_slot_destroy; [done|apply Hk]|]. intros p' own' (Ho' & Hp' & Hr).
    apply (IH _ _ []); try done; [cbn; lia|lia..].
Qed.

End publishing.

(** ** Receiving *)

Lemma lift_idle {A} (p : rprog A) (own : tokens) :
  quiet p → (∀ own, lower own p (λ _ own', own' = own)) → sp own p (λ _ own', own' = own).
Proof.
  intros Hq Hp. eapply lift_call; [done|apply Hp|]. intros a own' ->. by rewrite plain_empty, (left_id_L ∅ (⊎)).
Qed.

(** With a reference the length of a slot tells its sample. *)
Lemma sp_show s :
  sp {[+ Plain (Ownership.Pinned s) +]} (load (Slot s payload_len)) (λ len own,
    ∃ bs, own = {[+ Shown s bs +]} ∧ bs ∈ Sent ∧ length bs = Z.to_nat len).
Proof.
  apply spec_act.
  - unfold guard. rewrite bases_singleton. cbn. by apply gmultiset_elem_of_singleton.
  - intros m cnt seen env r m' HI _ [-> ->]. apply inv_show in HI as [Hs HI].
    eexists. split; [exact HI|]. eexists. split; [done|]. split; [done|].
    unfold content, load_list. by rewrite length_map, length_seq.
Qed.

(** A view that still has its slot, of which it shows [bs]. *)
Definition shows (v : Subscriber.SampleView) (bs : list Z) : tokens :=
  {[+ Shown (Subscriber.view_slot_idx_ v) bs +]}.
Definition view_ok (v : Subscriber.SampleView) (bs : list Z) : Prop :=
  Subscriber.view_slot_idx_ v ≠ INVALID_SLOT ∧ bs ∈ Sent ∧ length bs = Z.to_nat (Subscriber.view_len_ v).

Lemma sp_view_bytes v bs own :
  view_ok v bs → Shown (Subscriber.view_slot_idx_ v) bs ∈ own →
  sp own (Subscriber.view_bytes v) (λ out own', own' = own ∧ out = bs).
Proof.
  intros (_ & _ & Hlen) Hin. unfold Subscriber.view_bytes, memcpy_out. rewrite <- Hlen.
  apply (spec_foreach _ _ _ _ _ _ _ _ _ (λ i out own', own' = own ∧ out = take (Z.to_nat i) bs)); [done| |].
  - intros i out own' Hi [-> ->]. apply spec_bind, spec_act.
    + unfold guard. cbn. by apply (bases_of _ _ Hin).
    + intros m cnt seen env r m' HI _ [-> ->]. exists own. split; [exact HI|]. apply spec_ret. split; [done|].
      replace (Z.to_nat (i + 1)) with (S (Z.to_nat i)) by lia. symmetry. apply take_S_r.
      rewrite <- (inv_known _ _ _ _ _ HI (Shown (Subscriber.view_slot_idx_ v) bs)) by multiset_solver.
      unfold content, load_list. rewrite list_lookup_fmap, lookup_seq_lt.
      * cbn. do 3 f_equal. lia.
      * pose proof (inv_known _ _ _ _ _ HI (Shown (Subscriber.view_slot_idx_ v) bs) ltac:(multiset_solver)) as Hc.
        cbn in Hc. apply (f_equal length) in Hc. unfold content, load_list in Hc.
        rewrite length_map, length_seq in Hc. lia.
  - intros out own' [-> ->]. by rewrite Z.add_0_l, Nat2Z.id, firstn_all.
Qed.

Lemma sp_view_release v bs :
  view_ok v bs → sp (shows v bs) (Subscriber.view_release v) (λ _ own, own = ∅).
Proof using Hg.
  intros (Hv & _). unfold Subscriber.view_release. rewrite (proj2 (Z.eqb_neq _ _) Hv).
  apply spec_bind. eapply spec_mono; [apply sp_drop, bases_singleton|].
  intros _ own ->. by apply spec_ret.
Qed.

Definition received (r : option Subscriber.SampleView) (own : tokens) : Prop :=
  match r with Some v => ∃ bs, own = shows v bs ∧ view_ok v bs | None => own = ∅ end.

Lemma sp_lose_one s :
  sp ∅ (Subscriber.lose_one s) (λ s' own', own' = ∅ ∧ same_ring s s').
Proof.
  eapply lift_none; [apply quiet_lose|apply spec_lose_one|]. intros s' own' (-> & H). by rewrite plain_empty.
Qed.

Lemma sp_read_committed s idx seq1 :
  sub_ok g s →
  sp ∅ (Subscriber.read_committed s idx seq1) (λ r own, match r with
    | inl s' => own = ∅ ∧ same_ring s s'
    | inr (v, s') => received (Some v) own ∧ same_ring s s' end).
Proof using Hg.
  intros [Hsg _]. unfold Subscriber.read_committed. rewrite Hsg.
  apply spec_bind, spec_readonly; [done|done|]. intros m.
  set (Q := λ (r : Subscriber.subscriber + (Subscriber.SampleView * Subscriber.subscriber)) own, match r with
    | inl s' => own = ∅ ∧ same_ring s s'
    | inr (v, s') => received (Some v) own ∧ same_ring s s' end).
  assert (sp ∅ (s0 <- Subscriber.lose_one s;; Ret (inl s0)) Q) as Hlose.
  { apply spec_bind. eapply spec_mono; [apply sp_lose_one|]. intros s' own H. by apply spec_ret. }
  destruct (Subscriber.check_claim g (Subscriber.read_pos_ s) m) as [i|] eqn:Ec; [|exact Hlose].
  apply check_claim_range in Ec. apply spec_bind.
  eapply lift_none; [apply quiet_pin|by apply spec_pin|].
  intros [] own ->; cbn [negb]; [|by rewrite plain_empty].
  rewrite plain_singleton. apply spec_bind, spec_readonly; [done|done|]. intros seq2.
  assert (∀ own, bases own = {[+ Ownership.Pinned i +]} →
    sp own (drop_reference i;; s0 <- Subscriber.lose_one s;; Ret (inl s0)) Q) as Hdrop.
  { intros own Ho. apply spec_bind. eapply spec_mono; [by apply sp_drop|]. by intros _ ? ->. }
  destruct (negb _); [apply Hdrop, bases_singleton|].
  apply spec_bind. eapply spec_mono; [apply sp_show|]. intros len own (bs & -> & Hbs & Hlen). lazy beta.
  destruct (_ <? _); [apply Hdrop, bases_singleton|]. apply spec_ret. split; [|done].
  exists bs. split; [done|]. split; [by eapply valid_slot|done].
Qed.

Lemma sp_receive_turn s :
  sub_ok g s →
  sp ∅ (Subscriber.receive_turn s) (λ r own, match r with
    | inl s' => own = ∅ ∧ same_ring s s'
    | inr (v, s') => received v own ∧ same_ring s s' end).
Proof using Hg.
  intros Hs. unfold Subscriber.receive_turn. apply spec_bind, spec_readonly; [done|done|]. intros wp.
  destruct (_ <=? _); [by apply spec_ret|]. apply spec_bind.
  eapply lift_none; [apply quiet_resync|apply spec_resync|]. intros s1 own [-> H1]. rewrite plain_empty.
  apply spec_bind, spec_readonly; [done|done|]. intros seq1. destruct (Subscriber.read_head _ _).
  - apply spec_bind. eapply spec_mono; [apply sp_read_committed; by eapply sub_ok_same|].
    intros [s2|[v2 s2]] own [Hown H2]; lazy beta match; apply spec_ret; (split; [done|]);
      by eapply same_ring_trans.
  - apply spec_bind. eapply spec_mono; [apply sp_lose_one|]. intros s2 own (-> & H2).
    apply spec_ret. split; [done|]. by eapply same_ring_trans.
  - by apply spec_ret.
Qed.

Lemma sp_try_receive_view s :
  sub_ok g s → sp ∅ (Subscriber.try_receive_view s) (λ '(v, s') own, received v own ∧ same_ring s s').
Proof using Hg.
  intros Hs. unfold Subscriber.try_receive_view. destruct (_ =? _); [by apply spec_ret|]. apply spec_bind.
  apply (spec_for _ _ _ _ _ _ _ _ _ (λ _ s' own, own = ∅ ∧ same_ring s s')); [done| |].
  - intros i s1 own _ [-> H1]. eapply spec_mono; [apply sp_receive_turn; by eapply sub_ok_same|].
    intros [s2|[v2 s2]] own [Hown H2]; lazy beta match; [|apply spec_ret]; (split; [done|]);
      by eapply same_ring_trans.
  - intros s1 own [-> H1]. by apply spec_ret.
Qed.

(** A copied sample. *)
Definition copied (r : option Subscriber.SampleRef) (own : tokens) : Prop :=
  own = ∅ ∧ ∀ x bs, r = Some x → Subscriber.ref_data_ x = Some bs → bs ∈ Sent.

Lemma sp_try_receive s :
  sub_ok g s → sp ∅ (Subscriber.try_receive s) (λ '(r, s') own, copied r own ∧ same_ring s s').
Proof using Hg.
  intros Hs. unfold Subscriber.try_receive. apply spec_bind.
  eapply spec_mono; [by apply sp_try_receive_view|]. intros [[v|] s1] own [Hown H1]; lazy beta match.
  - destruct Hown as (bs & -> & Hv). apply spec_bind.
    eapply spec_mono; [apply (sp_view_bytes v bs); [done|unfold shows; multiset_solver]|].
    intros out own [-> ->]. lazy beta. apply spec_bind. eapply spec_mono; [by apply sp_view_release|].
    intros v' own ->. apply spec_ret. split; [|done]. split; [done|].
    intros x bs' [= <-] [= <-]. apply Hv.
  - apply spec_ret. split; [|done]. by split.
Qed.

Lemma sp_blocking {A} attempt s timeout (P : option A → tokens → Prop) :
  sub_ok g s → (∀ own, P None own ↔ own = ∅) →
  (∀ s, sub_ok g s → sp ∅ (attempt s) (λ '(r, s') own, P r own ∧ same_ring s s')) →
  sp ∅ (Subscriber.blocking attempt s timeout) (λ '(r, s') own, P r own ∧ same_ring s s').
Proof.
  intros Hs HN Ha. unfold Subscriber.blocking.
  destruct (_ =? _); [apply spec_ret; by rewrite HN|]. apply spec_bind, spec_readonly; [done|done|]. intros start.
  apply (spec_loop _ _ _ _ _ (λ '(s', _) own, own = ∅ ∧ same_ring s s')); [done|].
  intros [s1 spins] own [-> H1]. apply spec_bind. eapply spec_mono; [apply Ha; by eapply sub_ok_same|].
  intros [[x|] s2] own [Hown H2]; lazy beta match; pose proof (same_ring_trans _ _ _ H1 H2) as H12;
    [by apply spec_ret|].
  apply HN in Hown as ->. apply spec_bind, spec_readonly; [done|done|]. intros now. lazy zeta.
  destruct (_ <=? _); [apply spec_ret; by rewrite HN|].
  assert (∀ v, sp ∅ (store (Ring (Subscriber.ring_idx_ s) has_waiter) v) (λ _ own, own = ∅)) as Hstore.
  { intros v. apply lift_idle; [by repeat split|]. intros own. by apply Ownership.sp_store. }
  apply spec_bind, spec_readonly; [done|done|]. intros cur. destruct (_ <=? _).
  - apply spec_bind. eapply spec_mono; [apply Hstore|]. intros _ own ->.
    apply spec_bind, spec_readonly; [done|done|]. intros _.
    apply spec_bind. eapply spec_mono; [apply Hstore|]. intros _ own ->. by apply spec_ret.
  - apply spec_bind. destruct (_ <=? _); (apply spec_readonly; [done|done|]); intros _; by apply spec_ret.
Qed.

Lemma sp_receive s timeout :
  sub_ok g s → sp ∅ (Subscriber.receive s timeout) (λ '(r, s') own, copied r own ∧ same_ring s s').
Proof using Hg.
  intros Hs. apply (sp_blocking _ _ _ copied); [done| |].
  - intros own. split; [by intros []|by split].
  - apply sp_try_receive.
Qed.

Lemma sp_receive_view s timeout :
  sub_ok g s → sp ∅ (Subscriber.receive_view s timeout) (λ '(v, s') own, received v own ∧ same_ring s s').
Proof using Hg.
  intros Hs. apply (sp_blocking _ _ _ received); [done|done|]. apply sp_try_receive_view.
Qed.

(** ** Scripts of subscribers *)

(** The bytes a subscriber is given. *)
Definition expect (bs : list Z) : rprog unit :=
  if bool_decide (bs ∈ Sent) then Ret tt else throw runtime_error "received what nobody sent".

Definition expect_ref (r : option Subscriber.SampleRef) : rprog unit :=
  match r with
  | Some {| Subscriber.ref_data_ := Some bs |} => expect bs
  | _ => Ret tt
  end.

(** [Clients.receiving], checking every sample it copies or reads in place. *)
Fixpoint checking (calls : list Clients.subscriber_call) (s : Subscriber.subscriber)
    (views : list Subscriber.SampleView) : rprog unit :=
  match calls with
  | [] => Subscriber.release_ring s ;;; Clients.release_views views
  | Clients.CallTryReceive :: calls =>
      '(r, s) <- Subscriber.try_receive s ;; expect_ref r ;; checking calls s views
  | Clients.CallReceive timeout :: calls =>
      '(r, s) <- Subscriber.receive s timeout ;; expect_ref r ;; checking calls s views
  | Clients.CallTryReceiveView :: calls =>
      '(v, s) <- Subscriber.try_receive_view s ;; checking calls s (Clients.keep v views)
  | Clients.CallReceiveView timeout :: calls =>
      '(v, s) <- Subscriber.receive_view s timeout ;; checking calls s (Clients.keep v views)
  | Clients.CallReadView k :: calls =>
      match views !! k with
      | Some v => bs <- Subscriber.view_bytes v ;; expect bs ;; checking calls s views
      | None => checking calls s views
      end
  | Clients.CallReleaseView k :: calls =>
      match views !! k with
      | Some v => Subscriber.view_release v ;;; checking calls s (delete k views)
      | None => checking calls s views
      end
  | Clients.CallArm :: calls => Subscriber.arm_wait s ;;; checking calls s views
  | Clients.CallDisarm :: calls => Subscriber.disarm_wait s ;;; checking calls s views
  end.

Lemma sp_expect bs own : bs ∈ Sent → sp own (expect bs) (λ _ own', own' = own).
Proof. intros Hbs. unfold expect. rewrite bool_decide_true by done. by apply spec_ret. Qed.

Lemma sp_expect_ref r own : copied r own → sp own (expect_ref r) (λ _ own', own' = ∅).
Proof.
  intros [-> Hr]. destruct r as [[[bs|] l pos]|]; cbn [expect_ref]; [|by apply spec_ret..].
  apply sp_expect. by eapply Hr.
Qed.

(** The views a subscriber holds, with the sample each shows. *)
Abbreviation viewing := (list (Subscriber.SampleView * list Z)).
Definition shown (vs : viewing) : tokens := ⋃+ ((λ v : Subscriber.SampleView * list Z, shows v.1 v.2) <$> vs).
Definition views_ok (vs : viewing) : Prop := Forall (λ v, view_ok v.1 v.2) vs.

Lemma sp_keep v own vs :
  received v own → views_ok vs →
  ∃ vs', Clients.keep v vs.*1 = vs'.*1 ∧ views_ok vs' ∧ own ⊎ shown vs = shown vs'.
Proof.
  destruct v as [v|]; cbn.
  - intros (bs & -> & Hv) Hvs. exists ((v, bs) :: vs). split; [done|]. by split; [constructor|].
  - intros -> Hvs. exists vs. by rewrite (left_id_L ∅ (⊎)).
Qed.

Lemma sp_release_views vs :
  views_ok vs → sp (shown vs) (Clients.release_views vs.*1) (λ _ own, own = ∅).
Proof using Hg.
  induction 1 as [|[v bs] vs Hv Hvs IH]; cbn [fmap list_fmap Clients.release_views fst]; [by apply spec_ret|].
  change (shown ((v, bs) :: vs)) with (shows v bs ⊎ shown vs). apply spec_bind, known_frame.
  eapply spec_mono; [by apply sp_view_release|]. intros _ own ->. by rewrite (left_id_L ∅ (⊎)).
Qed.

Lemma sp_checking calls s vs :
  sub_ok g s → views_ok vs → sp (shown vs) (checking calls s vs.*1) (λ _ own, own = ∅).
Proof using Hg.
  revert s vs. induction calls as [|c calls IH]; intros s vs Hs Hvs; cbn [checking].
  { apply spec_bind. eapply lift_call; [apply quiet_release_ring|by apply spec_release_ring|].
    intros s' own ->. rewrite plain_empty, (left_id_L ∅ (⊎)). by apply sp_release_views. }
  assert (∀ s' r own, copied r own → same_ring s s' →
    sp (own ⊎ shown vs) (expect_ref r;; checking calls s' vs.*1) (λ _ own, own = ∅)) as Hcopy.
  { intros s' r own Hr Hs'. apply spec_bind, known_frame. eapply spec_mono; [by apply sp_expect_ref|].
    intros _ ? ->. rewrite (left_id_L ∅ (⊎)). apply IH; [by eapply sub_ok_same|done]. }
  assert (∀ s' v own, received v own → same_ring s s' →
    sp (own ⊎ shown vs) (checking calls s' (Clients.keep v vs.*1)) (λ _ own, own = ∅)) as Hkeep.
  { intros s' v own Hr Hs'. destruct (sp_keep v own vs Hr Hvs) as (vs' & -> & Hvs' & ->).
    apply IH; [by eapply sub_ok_same|done]. }
  destruct c as [|timeout| |timeout|k|k| |]; try apply spec_bind.
  - eapply known_call; [by apply sp_try_receive|]. intros [r s'] own [Hr Hs']. by apply Hcopy.
  - eapply known_call; [by apply sp_receive|]. intros [r s'] own [Hr Hs']. by apply Hcopy.
  - eapply known_call; [by apply sp_try_receive_view|]. intros [v s'] own [Hv Hs']. by apply Hkeep.
  - eapply known_call; [by apply sp_receive_view|]. intros [v s'] own [Hv Hs']. by apply Hkeep.
  - rewrite list_lookup_fmap. destruct (vs !! k) as [[v bs]|] eqn:Hk; cbn [fmap option_fmap option_map fst];
      [|by apply IH]. pose proof (Forall_lookup_1 _ _ _ _ Hvs Hk) as Hv. cbn [fst snd] in Hv.
    apply spec_bind. eapply spec_mono; [apply (sp_view_bytes v bs); [done|]|].
    { unfold shown. rewrite (union_take _ _ _ _ Hk). cbn [fst snd]. unfold shows. multiset_solver. }
    intros out own [-> ->]. apply spec_bind. eapply spec_mono; [apply sp_expect, Hv|].
    intros _ own ->. by apply IH.
  - rewrite list_lookup_fmap. destruct (vs !! k) as [[v bs]|] eqn:Hk; cbn [fmap option_fmap option_map fst];
      [|by apply IH]. pose proof (Forall_lookup_1 _ _ _ _ Hvs Hk) as Hv. cbn [fst snd] in Hv.
    apply spec_bind. unfold shown. rewrite (union_take _ _ _ _ Hk). cbn [fst snd]. apply known_frame.
    eapply spec_mono; [by apply sp_view_release|]. intros v' own ->.
    rewrite (left_id_L ∅ (⊎)), <- (list_fmap_delete fst). apply (IH s (delete k vs)); [done|]. by apply Forall_delete.
  - eapply spec_mono; [apply lift_idle; [apply quiet_arm|apply Clients.spec_arm]|]. intros w ? ->. by apply IH.
  - eapply spec_mono; [apply lift_idle; [apply quiet_disarm|]|].
    + intros own. unfold Subscriber.disarm_wait. Ownership.walks; done.
    + intros w ? ->. by apply IH.
Qed.
End operations.

(** ** Executions *)

(** The samples slots hold before anyone runs. *)
Definition resident (g : Geometry) (m : loc → Z) : list (list Z) :=
  content m <$> filter (λ s, m (Slot s refcount) ≠ 0) (upto (pool_size g)).

Definition script_samples (g : Geometry) (pr : Clients.process) : list (list Z) :=
  match pr with Clients.Publishing _ calls => samples g calls [] | _ => [] end.

(** The samples there may be to receive. *)
Definition sent (g : Geometry) (m : loc → Z) (procs : list Clients.process) : list (list Z) :=
  resident g m ++ (procs ≫= script_samples g).

Definition script_writes_first (g : Geometry) (pr : Clients.process) : Prop :=
  match pr with Clients.Publishing _ calls => writes_first g calls [] | _ => True end.

(** [Clients.program], with subscribers that check what they receive. *)
Definition checked (g : Geometry) (Sent : list (list Z)) (pr : Clients.process) : rprog unit :=
  match pr with
  | Clients.Subscribing calls =>
      r <- try_ (Subscriber.make_subscriber g) ;;
      match r with inl s => checking Sent calls s [] | inr _ => Ret tt end
  | _ => Clients.program g pr
  end.

Definition checked_start (g : Geometry) (m : loc → Z) (procs : list Clients.process) : config loc :=
  Config m (tagged_gen (m (Hdr free_top)))
    (map (λ pr, Thread (checked g (sent g m procs) pr) 0) procs).

Section executions.
Context (g : Geometry) (Hg : pool_geometry g) (Hsize : slot_data_size g <= MAX_PAYLOAD_SIZE).

Lemma sp_checked Sent pr :
  Clients.script_ok pr → script_samples g pr ⊆ Sent → script_writes_first g pr →
  spec Ownership.watch Ownership.GENERATIONS guard (inv g Sent) ∅ (checked g Sent pr) (λ _ own, own = ∅).
Proof using Hg Hsize.
  intros Hok Hsub Hw. destruct pr as [backend calls|calls|calls]; cbn [checked Clients.program] in *.
  - apply (sp_publishing g Hg Sent Hsize calls _ _ []); done.
  - apply spec_bind. eapply lift_none; [apply quiet_try, quiet_make_subscriber|by apply spec_make_subscriber|].
    intros [s|e] own [-> Hs]; rewrite plain_empty; [|by apply spec_ret].
    apply (sp_checking g Hg Sent calls s []); [done|constructor].
  - eapply lift_none; [apply quiet_recovering|by apply Clients.spec_recovering|].
    intros _ own ->. apply plain_empty.
Qed.

Lemma known_start m Sent :
  at_rest g m → resident g m ⊆ Sent → inv g Sent m (tagged_gen (m (Hdr free_top))) ∅.
Proof.
  intros Hm Hsub. split; [|intros s Hr Hne; apply Hsub|by intros t ?%gmultiset_not_elem_of_empty].
  - rewrite bases_empty. by apply Clients.start_inv.
  - apply list_elem_of_fmap. exists s. split; [done|]. apply list_elem_of_filter. by rewrite elem_of_upto.
Qed.
End executions.

(** C3. Whatever the interleaving and whoever stopped, every sample a subscriber
    copies or reads in place is, byte for byte and at its full length, one that
    a publisher sent or that the region held to begin with. *)
Theorem samples_whole g m procs c t e seen :
  pool_geometry g → slot_data_size g <= MAX_PAYLOAD_SIZE → at_rest g m →
  Forall (λ pr, Clients.script_ok pr ∧ script_writes_first g pr) procs →
  reachable Ownership.watch Ownership.GENERATIONS (checked_start g m procs) c →
  c_threads c !! t ≠ Some (Thread (Throw e) seen).
Proof.
  intros Hg Hsize Hm Hscripts Hr Ht.
  assert (Forall (λ pr, spec Ownership.watch Ownership.GENERATIONS guard (inv g (sent g m procs)) ∅
    (checked g (sent g m procs) pr) (λ _ own, own = ∅)) procs) as Hspec.
  { apply Forall_forall. intros pr Hpr. pose proof (proj1 (Forall_forall _ _) Hscripts pr Hpr) as [Hok Hw].
    apply sp_checked; [done|done|done| |done]. unfold sent. intros bs Hbs. apply elem_of_app. right.
    apply list_elem_of_bind. eauto. }
  assert (resident g m ⊆ sent g m procs) as Hres by (unfold sent; set_solver).
  destruct (reachable_throw _ _ _ _ _ _ _ _ _ _ _
    (λ n, launch_safe _ _ _ _ _ procs _ _ n (known_start g m _ Hm Hres) Hspec) Hr Ht)
    as (own & Q & [-> _]%lookup_replicate & HQ). exact HQ.
Qed.

(** *** A run

    A publisher sends a byte through [send], then two through its handle; the
    subscriber copies the first and reads the second in place. *)
Definition sample_procs : list Clients.process :=
  [Clients.Publishing false [Clients.CallSend [42]; Clients.CallAllocate; Clients.CallWrite [7; 8; 9];
     Clients.CallPublish 2];
   Clients.Subscribing [Clients.CallTryReceive; Clients.CallTryReceiveView; Clients.CallReadView 0]].

Definition sample_run (schedule : list nat) : config loc :=
  play Ownership.watch Ownership.GENERATIONS Clients.calm schedule (checked_start tiny tiny_mem sample_procs).

Definition alternating : list nat :=
  replicate 7 1%nat ++ replicate 70 0%nat ++ concat (replicate 150 [1%nat; 0%nat]).

(** The subscriber does get both: checked against fewer samples, it fails. *)
Definition suspicious_run (Sent : list (list Z)) : config loc :=
  play Ownership.watch Ownership.GENERATIONS Clients.calm alternating
    (Config tiny_mem 0 (map (λ pr, Thread (checked tiny Sent pr) 0) sample_procs)).
Definition suspects (Sent : list (list Z)) : bool :=
  match t_prog <$> c_threads (suspicious_run Sent) !! 1%nat with Some (Throw _) => true | _ => false end.
Example both_received : map suspects [[]; [[42]]; [[7; 8]]; [[42]; [7; 8]]] = [true; true; true; false].
Proof. vm_compute. reflexivity. Qed.

Lemma samples_whole_witness :
  sent tiny tiny_mem sample_procs = [[42]; [7; 8]] ∧
  (∃ seen, c_threads (sample_run alternating) !! 1%nat = Some (Thread (Ret tt) seen)) ∧
  ∀ e seen, c_threads (sample_run alternating) !! 1%nat ≠ Some (Thread (Throw e) seen).
Proof.
  split; [vm_compute; reflexivity|]. split; [eexists; vm_compute; reflexivity|]. intros e seen.
  refine (samples_whole tiny tiny_mem sample_procs _ 1 e seen tiny_geometry _ tiny_at_rest _ _).
  - vm_compute. congruence.
  - repeat constructor; vm_compute; congruence.
  - apply play_reachable, Clients.calm_typed.
Defined.
End Integrity.
