(* ===== verification/Overtaken.v ===== *)
(** * A repair that publishers overtake

    [repair_locked_entries] reads [write_pos], then each word of the window it
    gives.  A publisher that takes a position in between may lock a word of the
    window for the next lap; if it then stalls past the commit timeout the repair
    steals the lock, but writes the skip marker of the position it scanned, one
    lap behind.  The subscriber waits at the stolen position while later ones are
    committed, and another repair finds nothing to do.  The run below shows it. *)

From S2P Require Import Prelude Prog Conc Types Layout Pool Slots Ownership.
From S2P Require Import Subscriber Region Clients.
Import Types Layout Pool Slots Clients.

Module Overtaken.
(** Rings of two entries and four slots, all free. *)
Definition region : Geometry := {|
  sub_rings_offset := 896; sub_ring_stride := 192; sub_ring_capacity := 2; sub_ring_mask := 1;
  pool_offset := 1280; slot_stride := 64; pool_size := 4; slot_data_size := 8; max_subs := 2;
  commit_timeout_us := 10000; schema_blob_offset := 832; schema_blob_capacity := 0 |}.
Definition memory : loc → Z := λ l,
  match l with
  | Slot 0 next_free => 1
  | Slot 1 next_free => 2
  | Slot 2 next_free => 3
  | Slot 3 next_free => INVALID_SLOT
  | _ => 0
  end.

(** Two sends fill the ring; a third stalls with its lock while the repair runs; a
    fourth commits. *)
Definition cast : list process :=
  [Publishing false [CallSend [1]; CallSend [2]]; Subscribing [];
   Publishing false [CallSend [3]]; Recovering [CallRepair]; Publishing false [CallSend [4]]].
Definition run_to (schedule : list nat) : config loc :=
  play Ownership.watch Ownership.GENERATIONS calm schedule (start region memory cast).
(** [repair] has read [write_pos = 2]. *)
Definition scanning : list nat := replicate 7 1%nat ++ replicate 200 0%nat ++ [3%nat].
Definition locked : list nat := scanning ++ replicate 14 2%nat.
Definition repaired : list nat := locked ++ replicate 60 3%nat.
Definition final : config loc := run_to (repaired ++ replicate 200 4%nat).

(** The subscriber, the first two samples read. *)
Definition reader : Subscriber.subscriber :=
  {| Subscriber.sub_geometry := region; Subscriber.ring_idx_ := 0; Subscriber.start_pos_ := 0;
     Subscriber.read_pos_ := 2; Subscriber.lost_ := 0; Subscriber.drain_timeouts_ := 0;
     Subscriber.recv_buf_ := replicate 8 0; Subscriber.waker_ := None |}.
Definition alone {A} (p : rprog A) : option A :=
  match run 1000 p (World (c_mem final) calm []) with Some (Val a, _) => Some a | _ => None end.

Lemma memory_at_rest : at_rest region memory.
Proof.
  exists [0; 1; 2; 3].
  assert (∀ s, 0 <= s < pool_size region → s ∈ [0; 1; 2; 3]) as Hall.
  { intros s Hs. cbn in Hs. assert (s = 0 ∨ s = 1 ∨ s = 2 ∨ s = 3) as Hc by lia. set_solver. }
  assert (∀ s, memory (Slot s refcount) = 0) as Hzero by (intros s; cbn; by repeat case_match).
  split.
  - split; [by repeat split|by apply (bool_decide_unpack _)|by repeat constructor].
  - constructor.
  - set_solver.
  - assert (∀ s, claims region memory s = 0 ∨ s + 1 = 0) as Hc.
    { intros s. destruct (decide (s + 1 = 0)); [by right|left]. apply total_zero.
      intros l (i & idx & -> & _)%elem_of_entry_metas. unfold names.
      change (meta_slot_biased _) with 0. by rewrite (proj2 (Z.eqb_neq 0 (s + 1))) by done. }
    intros s Hs. rewrite Hzero. destruct (Hc s) as [->|?]; [done|lia].
  - intros s Hs. rewrite Hzero. split; [intros _; left; by apply Hall|done].
Qed.

(** The lock of position 2 is replaced by the marker of position 0.  Position 3 is
    committed, yet the subscriber at 2 gets nothing and loses nothing, and a
    second repair repairs nothing. *)
Lemma repair_overtaken :
  executes region memory cast final ∧
  c_mem (run_to locked) (Ent 0 0 sequence) = seq_lock 2 ∧
  c_mem (run_to repaired) (Ent 0 0 sequence) = seq_skip 0 ∧
  c_mem final (Ring 0 write_pos) = 4 ∧ c_mem final (Ent 0 1 sequence) = 4 ∧
  alone (Subscriber.try_receive reader) = Some (None, reader) ∧
  alone (Region.repair_locked_entries region) = Some 0.
Proof. split; [by apply play_reachable, calm_typed|]. vm_compute. split_and!; reflexivity. Qed.
End Overtaken.
