(* ===== verification/Confinement.v ===== *)
(** * Types and bounds of every access to a region

    The code never trusts an index it finds in shared memory: a slot number is
    compared with the pool size, a position is masked, a length is compared with
    its capacity.  So whatever the words of a region hold, and whatever another
    process writes over them, every access a process makes through a [Publisher],
    a [Subscriber] or the [Region] calls stays inside the region, and what it
    writes fits the field it is written to.  The logic is that of [Conc.v] with
    no tokens: the invariant is that every word has the type of its field. *)

From stdpp Require Import gmultiset.
From S2P Require Import Prelude Prog Conc Types Layout Words Process Pool Slots.
From S2P Require Import Publisher Subscriber Region Stamping Clients.
Import Types Layout Pool Slots.

Module Confinement.
(** ** Types of the words *)

Definition is_uint (bytes v : Z) : Prop := 0 <= v < 2 ^ (8 * bytes).

(** The value is one of the location's unsigned type. *)
Definition fits (l : loc) (v : Z) : Prop := is_uint (loc_rel l).2 v.

(** State [fits] of a field as a bound on its type. *)
Ltac as_type H :=
  lazymatch type of H with
  | fits ?l ?v =>
      let w := eval cbn in (loc_rel l).2 in
      lazymatch w with
      | 8 => change (is_u64 v) in H
      | 4 => change (is_u32 v) in H
      | 2 => change (is_u16 v) in H
      | 1 => change (is_u8 v) in H
      end
  end.

(** A [k]-bit word has no bit from [k] on. *)
Lemma bits_bound k x : 0 <= k → (0 <= x < 2 ^ k ↔ ∀ j, k <= j → Z.testbit x j = false).
Proof.
  intros Hk. split.
  - intros Hx j Hj. rewrite <- (Z.mod_small x (2 ^ k) Hx). by apply Z.mod_pow2_bits_high.
  - intros Hb. assert (x = x `mod` 2 ^ k) as ->; [|apply Z.mod_pos_bound; lia].
    apply Z.bits_inj'. intros j Hj. destruct (Z.lt_ge_cases j k).
    + by rewrite Z.mod_pow2_bits_low.
    + rewrite Z.mod_pow2_bits_high by lia. auto.
Qed.

Lemma lor_bound k a b : 0 <= k → 0 <= a < 2 ^ k → 0 <= b < 2 ^ k → 0 <= Z.lor a b < 2 ^ k.
Proof.
  intros Hk. rewrite !bits_bound by done. intros Ha Hb j Hj. by rewrite Z.lor_spec, Ha, Hb.
Qed.

Lemma land_bound k a b : 0 <= k → 0 <= a < 2 ^ k → 0 <= Z.land a b < 2 ^ k.
Proof. intros Hk. rewrite !bits_bound by done. intros Ha j Hj. by rewrite Z.land_spec, Ha. Qed.

Lemma ldiff_bound k a b : 0 <= k → 0 <= a < 2 ^ k → 0 <= Z.ldiff a b < 2 ^ k.
Proof. intros Hk. rewrite !bits_bound by done. intros Ha j Hj. by rewrite Z.ldiff_spec, Ha. Qed.

Create HintDb typed.

Lemma seq_lock_typed p : is_u64 p → is_u64 (seq_lock p).
Proof. intros Hp. by apply (lor_bound 64). Qed.
Lemma seq_repair_typed p : is_u64 p → is_u64 (seq_repair p).
Proof. intros Hp. by apply (lor_bound 64). Qed.
Lemma seq_skip_typed p : is_u64 (seq_skip p).
Proof. apply (lor_bound 64); [done..|]. apply u64_range. Qed.
Lemma meta_pack_typed p s : -1 <= s < 16777215 → is_u64 (meta_pack p s).
Proof.
  intros Hs. rewrite meta_pack_val by lia. pose proof (u64_range (p + 1)) as Hp. word.
Qed.
Lemma ldiff_typed a b : is_u64 a → is_u64 (Z.ldiff a b).
Proof. intros Ha. by apply (ldiff_bound 64). Qed.
Lemma with_state_typed old s : is_u32 old → 0 <= s < 4 → is_u32 (ring.with_state old s).
Proof. intros Ho Hs. rewrite with_state_val by done. unfold is_u32 in *. lia. Qed.
Lemma tagged_idx_typed t : is_u32 (tagged_idx t).
Proof. apply u32_range. Qed.

#[export] Hint Resolve u8_range u16_range u32_range u64_range seq_lock_typed seq_repair_typed
  seq_skip_typed meta_pack_typed ldiff_typed with_state_typed tagged_idx_typed
  tagged_pack_range : typed.

#[export] Hint Extern 2 (0 <= _ < 4) => by compute : typed.

(** ** The logic *)

Section confined.
Context (g : Geometry).

(** The bytes between the header and the schema blob hold the creator's name. *)
Definition tail : Z := schema_blob_offset g - SIZEOF_HEADER.

Definition in_region (l : loc) : Prop := loc_valid g tail l.
Definition typed (m : loc → Z) : Prop := ∀ l, in_region l → fits l (m l).

(** What an action may do. *)
Definition allowed {R} (a : act loc R) : Prop :=
  match a with
  | Load l | FutexWait l _ _ | FutexWakeAll l => in_region l
  | Store l v => in_region l ∧ fits l v
  | Cas l _ d | CasWeak l _ d => in_region l ∧ fits l d
  | FetchAdd wrap l d => in_region l ∧ ∀ v, fits l v → fits l (wrap (v + d))
  | _ => True
  end.

(** What a call answers, in a typed memory. *)
Definition answers {R} (a : act loc R) : R → Prop :=
  match a in act _ R return R → Prop with
  | Load l => λ r, fits l r
  | Cas l _ _ | CasWeak l _ _ => λ r, fits l r.2
  | FetchAdd _ l _ => λ r, fits l r
  | CurrentPid => λ r, is_u64 r
  | ProcessProbe _ => λ r, is_u64 r.1
  | _ => λ _, True
  end.

Abbreviation safely := (safe (T := unit) (λ _ : loc, false) 0 (λ R a _, allowed a) (λ m _ _, typed m)).

(** Whatever others write meanwhile, as long as it is typed, [p] only does
    what is allowed, and what it returns satisfies [Q]. *)
Definition confined {A} (p : rprog A) (Q : A → Prop) : Prop :=
  ∀ n seen own, safely n p seen own (λ o _ _, match o with Val a => Q a | Exc _ => True end).

Lemma confined_mono {A} (p : rprog A) (Q Q' : A → Prop) :
  confined p Q → (∀ a, Q a → Q' a) → confined p Q'.
Proof. intros Hp HQ n seen own. eapply safe_mono; [apply Hp|]. intros [a|e] _ _; auto. Qed.

Lemma confined_ret {A} (a : A) (Q : A → Prop) : Q a → confined (Ret a) Q.
Proof. intros HQ n seen own. by apply safe_ret. Qed.

Lemma confined_throw {A} (e : exn) (Q : A → Prop) : confined (Throw e) Q.
Proof. intros n seen own. by apply safe_throw. Qed.

Lemma confined_bind {A B} (p : rprog A) (f : A → rprog B) (Q : B → Prop) :
  confined p (λ a, confined (f a) Q) → confined (bind p f) Q.
Proof.
  intros Hp n seen own. apply safe_bind. eapply safe_mono; [apply Hp|].
  intros [a|e] seen' own' HQ; [apply HQ|done].
Qed.

(** A call whose specification is known. *)
Lemma confined_call {A B} (p : rprog A) (P : A → Prop) (f : A → rprog B) (Q : B → Prop) :
  confined p P → (∀ a, P a → confined (f a) Q) → confined (bind p f) Q.
Proof. intros Hp Hf. by eapply confined_bind, confined_mono. Qed.

Lemma confined_loop {S B} (body : S → rprog (S + B)) (J : S → Prop) s (Q : B → Prop) :
  J s → (∀ s, J s → confined (body s) (λ r, match r with inl s' => J s' | inr b => Q b end)) →
  confined (loop s body) Q.
Proof.
  intros HJ Hb n seen own. apply (safe_loop _ _ _ _ _ _ (λ s _ _, J s)); [done|].
  intros n' s' seen' own' HJ'. eapply safe_mono; [by apply Hb|]. by intros [[s2|b]|e].
Qed.

Lemma confined_for {S B} k lo (s : S) (body : Z → S → rprog (S + B)) (J : S → Prop) (Q : S + B → Prop) :
  J s →
  (∀ i s, lo <= i < lo + Z.of_nat k → J s →
     confined (body i s) (λ r, match r with inl s' => J s' | inr b => Q (inr b) end)) →
  (∀ s, J s → Q (inl s)) →
  confined (for_ k lo s body) Q.
Proof.
  revert lo s. induction k as [|k IH]; intros lo s HJ Hb HQ; cbn [for_].
  - apply confined_ret. auto.
  - apply (confined_call _ _ _ _ (Hb lo s ltac:(lia) HJ)). intros [s'|b] Hr; [|by apply confined_ret].
    apply IH; [done| |done]. intros. apply Hb; [lia|done].
Qed.

Lemma confined_foreach {S} k lo (s : S) (body : Z → S → rprog S) (J : S → Prop) :
  J s → (∀ i s, lo <= i < lo + Z.of_nat k → J s → confined (body i s) J) →
  confined (foreach k lo s body) J.
Proof.
  revert lo s. induction k as [|k IH]; intros lo s HJ Hb; cbn [foreach]; [by apply confined_ret|].
  apply (confined_call _ _ _ _ (Hb lo s ltac:(lia) HJ)). intros s' HJ'.
  apply IH; [done|]. intros. apply Hb; [lia|done].
Qed.

Lemma confined_try {A} (p : rprog A) (Q : A + exn → Prop) :
  confined p (λ a, Q (inl a)) → (∀ e, Q (inr e)) → confined (try_ p) Q.
Proof.
  intros Hp He n seen own. apply safe_try. eapply safe_mono; [apply Hp|]. intros [a|e] _ _ HQ; [exact HQ|apply He].
Qed.

Lemma confined_when (b : bool) (p : rprog unit) (Q : unit → Prop) :
  (b = true → confined p Q) → (b = false → Q tt) → confined (when b p) Q.
Proof. intros. destruct b; [by auto|]. apply confined_ret. auto. Qed.

(** An allowed action keeps the types, and its answer is typed. *)
Lemma typed_upd m l v : typed m → fits l v → typed (<[l:=v]> m).
Proof.
  intros Hm Hv l' Hl'. destruct (decide (l' = l)) as [->|Hne]; [by rewrite upd_same|].
  rewrite upd_ne by done. auto.
Qed.

Lemma allowed_step {R} (a : act loc R) m r m' :
  typed m → allowed a → astep a m r m' → typed m' ∧ answers a r.
Proof.
  intros Hm Ha Hs. destruct (readonly a) eqn:Hr.
  - rewrite (astep_readonly _ _ _ _ Hr Hs). split; [done|].
    destruct a; try discriminate Hr; cbn in *; try done; destruct Hs as [Hs _]; try done.
    subst r. by apply Hm.
  - destruct a; try discriminate Hr; cbn in *; destruct Ha as [Hl Hd].
    + subst m'. split; [by apply typed_upd|done].
    + destruct Hs as [(<- & -> & ->)|(_ & -> & ->)]; split; auto using typed_upd; by apply Hm.
    + destruct Hs as [(<- & -> & ->)|(-> & ->)]; split; auto using typed_upd; by apply Hm.
    + destruct Hs as [-> ->]. split; [|by apply Hm]. apply typed_upd; [done|]. by apply Hd, Hm.
Qed.

Lemma confined_act {R} (a : act loc R) (Q : R → Prop) :
  allowed a → (∀ r, answers a r → Q r) → confined (Act a Ret) Q.
Proof.
  intros Ha HQ n seen own. destruct n as [|n]; [done|]. split; [done|].
  intros m cnt env r m' Hm _ Hs. destruct (allowed_step a m r m' Hm Ha Hs) as [? ?].
  exists own. split; [done|]. apply safe_ret. auto.
Qed.
End confined.

(** *** Walking a program *)

Ltac fit :=
  lazymatch goal with
  | |- fits ?l ?v =>
      let w := eval cbn in (loc_rel l).2 in
      lazymatch w with
      | 8 => change (is_u64 v)
      | 4 => change (is_u32 v)
      | 2 => change (is_u16 v)
      | 1 => change (is_u8 v)
      end
  | _ => idtac
  end;
  solve [assumption | eauto with typed | unfold is_u8, is_u16, is_u32, is_u64, INVALID_SLOT in *; lia | by compute].

Ltac inside :=
  cbn [in_region loc_valid];
  solve [done | assumption | lia | (split; [assumption || lia|]; eauto with typed; lia) | eauto with typed].

Ltac cf :=
  lazymatch goal with
  | |- confined _ (bind _ _) _ => apply confined_bind
  | |- confined _ (Ret _) _ => apply confined_ret
  | |- confined _ (Throw _) _ => apply confined_throw
  | |- confined _ (throw _ _) _ => apply confined_throw
  | |- confined _ (load _) _ =>
      apply confined_act; [inside|let v := fresh "v" in let H := fresh "Hv" in intros v H; cbn [answers] in H; as_type H]
  | |- confined _ (store _ _) _ => apply confined_act; [split; [inside|fit]|intros [] _]
  | |- confined _ (compare_exchange_strong _ _ _) _ => apply confined_act; [split; [inside|fit]|
      let ok := fresh "ok" in let v := fresh "v" in let H := fresh "Hv" in
      intros [ok v] H; cbn [answers snd] in H; as_type H]
  | |- confined _ (compare_exchange_weak _ _ _) _ => apply confined_act; [split; [inside|fit]|
      let ok := fresh "ok" in let v := fresh "v" in let H := fresh "Hv" in
      intros [ok v] H; cbn [answers snd] in H; as_type H]
  | |- confined _ (fetch_add _ _ _) _ => apply confined_act; [split; [inside|intros; fit]|
      let v := fresh "v" in let H := fresh "Hv" in intros v H; cbn [answers] in H; as_type H]
  | |- confined _ (fetch_sub _ _ _) _ => apply confined_act; [split; [inside|intros; fit]|
      let v := fresh "v" in let H := fresh "Hv" in intros v H; cbn [answers] in H; as_type H]
  | |- confined _ (futex_wait _ _ _) _ => apply confined_act; [inside|intros [] _]
  | |- confined _ (futex_wake_all _) _ => apply confined_act; [inside|intros [] _]
  | |- confined _ current_pid _ => apply confined_act; [done|let H := fresh "Hpid" in intros ? H]
  | |- confined _ (process_probe _) _ => apply confined_act; [done|let H := fresh "Hprobe" in intros [? ?] H; cbn [answers fst] in H]
  | |- confined _ (process_exists _) _ => apply confined_act; [done|intros ? _]
  | |- confined _ monotonic_ns _ => apply confined_act; [done|intros ? _]
  | |- confined _ since_epoch _ => apply confined_act; [done|intros ? _]
  | |- confined _ backend_signal _ => apply confined_act; [done|intros [] _]
  | |- confined _ yield _ => apply confined_act; [done|intros [] _]
  | |- confined _ (sleep _) _ => apply confined_act; [done|intros [] _]
  | |- confined _ (when _ _) _ => apply confined_when; intros
  | |- confined _ (if ?b then _ else _) _ => let E := fresh "E" in destruct b eqn:E
  | |- (λ _, _) _ => idtac
  end; lazy beta match.
Ltac cfs := repeat cf; try done.

(** ** The slot pool and the entries *)

Section operations.
Context (g : Geometry) (n total : Z) (Hok : geometry_ok g n total).
Abbreviation conf := (confined g).

(** A slot of the pool. *)
Definition in_pool (s : Z) : Prop := 0 <= s < pool_size g.

Lemma pool_facts : pool_geometry g ∧ pool_size g <= 16777214 ∧ 1 <= max_subs g <= 65535.
Proof using Hok.
  pose proof (pool_geometry_ok _ _ _ Hok). destruct Hok. change MAX_POOL_SIZE with 16777214 in *.
  unfold MAX_SUBSCRIBERS in *. split; [done|lia].
Qed.

Lemma entry_in i pos : 0 <= i < max_subs g → 0 <= Z.land pos (sub_ring_mask g) < sub_ring_capacity g.
Proof using Hok. intros _. apply entry_index, pool_facts. Qed.

Lemma in_pool_u32 s : in_pool s → is_u32 s.
Proof using Hok. pose proof pool_facts as (_ & Hp & _). unfold in_pool, is_u32. lia. Qed.
#[local] Hint Resolve entry_in in_pool_u32 : typed.

Lemma conf_treiber_push s : in_pool s → conf (treiber_push s) (λ _, True).
Proof using Hok.
  intros Hs. pose proof (in_pool_u32 s Hs). unfold treiber_push. do 2 cf.
  apply (confined_loop _ _ is_u64); [done|]. intros old Hold. cfs.
Qed.

Lemma conf_treiber_pop : conf (treiber_pop (pool_size g)) (λ s, s = INVALID_SLOT ∨ in_pool s).
Proof using Hok.
  unfold treiber_pop. do 2 cf. apply (confined_loop _ _ is_u64); [done|]. intros old Hold.
  pose proof (tagged_idx_typed old) as Hidx. unfold is_u32 in Hidx.
  cf; [cf; by left|]. cf; [cf; by left|]. apply Z.leb_gt in E0. assert (in_pool (tagged_idx old)) by (unfold in_pool; lia).
  cfs. by right.
Qed.

Lemma conf_drop_reference s : in_pool s → conf (drop_reference s) (λ _, True).
Proof using Hok. intros Hs. unfold drop_reference. do 2 cf. cf; [by apply conf_treiber_push|done]. Qed.

Lemma conf_clear_owner i : 0 <= i < max_subs g → conf (clear_owner i) (λ _, True).
Proof using Hok. intros Hi. unfold clear_owner. cfs. Qed.

Lemma conf_steal i idx pos seq :
  0 <= i < max_subs g → 0 <= idx < sub_ring_capacity g → is_u64 pos →
  conf (entry_steal_and_skip i idx pos seq) (λ _, True).
Proof using Hok. intros Hi Hidx Hpos. unfold entry_steal_and_skip. cfs. Qed.

(** ** Moving bytes *)

Lemma conf_memcpy_in base bs :
  (∀ j, 0 <= j < Z.of_nat (length bs) → in_region g (base j) ∧ (loc_rel (base j)).2 = 1) →
  Forall is_u8 bs → conf (memcpy_in base bs) (λ _, True).
Proof using Hok.
  intros Hb Hbs. unfold memcpy_in. apply confined_foreach; [done|]. intros j [] Hj _.
  destruct (Hb j ltac:(lia)) as [Hin Hw]. apply confined_act; [|done]. split; [done|].
  unfold fits. rewrite Hw. apply (Forall_lookup_1 is_u8 bs (Z.to_nat j)); [done|].
  destruct (lookup_lt_is_Some_2 bs (Z.to_nat j)) as [b Eb]; [lia|]. by rewrite Eb, (nth_lookup_Some _ _ _ _ Eb).
Qed.

Lemma conf_memcpy_out base len :
  (∀ j, 0 <= j < len → in_region g (base j)) → conf (memcpy_out base len) (λ _, True).
Proof using Hok.
  intros Hb. unfold memcpy_out. apply confined_foreach; [done|]. intros j out Hj _.
  apply confined_bind, confined_act; [apply Hb; lia|]. intros b _. by cf.
Qed.

(** ** Publishing *)

Lemma conf_wake_ring i : 0 <= i < max_subs g → conf (Publisher.wake_ring i) (λ _, True).
Proof using Hok. intros Hi. unfold Publisher.wake_ring. cfs. Qed.

Lemma conf_abandon_delivery i : 0 <= i < max_subs g → conf (Publisher.abandon_delivery i) (λ _, True).
Proof using Hok. intros Hi. unfold Publisher.abandon_delivery. do 4 cf. by apply conf_wake_ring. Qed.

Lemma conf_enter_ring i : 0 <= i < max_subs g → conf (Publisher.enter_ring i) (λ _, True).
Proof using Hok.
  intros Hi. unfold Publisher.enter_ring. do 2 cf. cf; [by cf|].
  apply (confined_loop _ _ (λ _, True)); [done|]. intros old _. cfs.
Qed.

Lemma conf_wait_for_commit i idx expected timeout :
  0 <= i < max_subs g → 0 <= idx < sub_ring_capacity g →
  conf (Publisher.wait_for_commit i idx expected timeout) (λ _, True).
Proof using Hok.
  intros Hi Hidx. unfold Publisher.wait_for_commit. do 2 cf. cf; [by cf|]. do 2 cf.
  apply (confined_loop _ _ (λ _, True)); [done|]. intros [seq k] _. cfs.
Qed.

Lemma conf_lock_entry i idx pos prev observed :
  0 <= i < max_subs g → 0 <= idx < sub_ring_capacity g → is_u64 pos →
  conf (Publisher.lock_entry i idx pos prev observed) (λ _, True).
Proof using Hok.
  intros Hi Hidx Hpos. unfold Publisher.lock_entry. cf.
  apply (confined_for _ _ _ _ _ (λ _, True)); [done| |intros; by cf]. intros k obs _ _. cfs.
Qed.

Lemma conf_self_repair i idx pos capacity wait :
  0 <= i < max_subs g → 0 <= idx < sub_ring_capacity g → is_u64 pos →
  conf (Publisher.self_repair i idx pos capacity wait) (λ _, True).
Proof using Hok. intros Hi Hidx Hpos. unfold Publisher.self_repair, entry_steal_and_skip. cfs. Qed.

Lemma conf_take_claim i idx pos s :
  0 <= i < max_subs g → 0 <= idx < sub_ring_capacity g → in_pool s →
  conf (Publisher.take_claim i idx pos s) (λ _, True).
Proof using Hok.
  intros Hi Hidx Hs. pose proof pool_facts as (_ & Hp & _). unfold in_pool in Hs.
  unfold Publisher.take_claim. do 2 cf. apply (confined_loop _ _ (λ _, True)); [done|]. intros old _.
  cf; [by cf|]. cf. apply confined_act; [split; [inside|]|].
  - change (is_u64 (meta_pack pos s)). apply meta_pack_typed. lia.
  - intros [ok w] _. cfs.
Qed.

Lemma conf_release_slot s : 0 <= s → conf (Publisher.release_slot g s) (λ _, True).
Proof using Hok.
  intros Hs. unfold Publisher.release_slot. cf; [by cf|]. apply Z.leb_gt in E.
  apply conf_drop_reference. unfold in_pool. lia.
Qed.

Lemma conf_commit_entry p i idx pos s d :
  Publisher.pub_geometry p = g → 0 <= i < max_subs g → 0 <= idx < sub_ring_capacity g →
  is_u64 pos → in_pool s → conf (Publisher.commit_entry p i idx pos s d) (λ _, True).
Proof using Hok.
  intros Hp Hi Hidx Hpos Hs. unfold Publisher.commit_entry.
  assert (∀ extra, conf (woken <- Publisher.abandon_delivery i ;; Ret (Publisher.abandoned d woken extra)) (λ _, True)) as Hab.
  { intros extra. eapply confined_call; [by apply conf_abandon_delivery|]. intros. by cf. }
  do 2 cf. cf; [apply Hab|].
  eapply confined_call; [by apply conf_take_claim|]. intros [old|] _; [|apply Hab]. rewrite Hp.
  apply confined_call with (λ _, True).
  { cf; [|done]. apply conf_release_slot, u32_range. }
  intros _ _. do 2 cf. cf; [apply Hab|]. do 2 cf.
  eapply confined_call; [by apply conf_wake_ring|]. intros. by cf.
Qed.

Lemma conf_deliver p i s d :
  Publisher.pub_geometry p = g → 0 <= i < max_subs g → in_pool s →
  conf (Publisher.deliver p i s d) (λ _, True).
Proof using Hok.
  intros Hp Hi Hs. unfold Publisher.deliver, Publisher.deliver_admitted. rewrite Hp.
  eapply confined_call; [by apply conf_enter_ring|]. intros admitted _. cf; [by cf|].
  do 2 cf. match goal with |- context [Z.land ?pos _] => pose proof (entry_in i pos Hi) as Hidx end. apply confined_call with (λ _, True).
  { cf; [|by cf]. apply confined_call with (λ _, True); [unfold Publisher.signal_before_wait; cfs|].
    intros d' _. eapply confined_call; [by apply conf_wait_for_commit|]. intros. by cf. }
  intros [wait d'] _. eapply confined_call; [by apply conf_lock_entry|]. intros locked _. cf.
  - eapply confined_call; [by apply conf_self_repair|]. intros _ _.
    eapply confined_call; [by apply conf_abandon_delivery|]. intros. by cf.
  - by apply conf_commit_entry.
Qed.

Definition pub_in (p : Publisher.publisher) : Prop :=
  Publisher.pub_geometry p = g ∧
  (Publisher.pending_slot_ p = INVALID_SLOT ∨ in_pool (Publisher.pending_slot_ p)).

(** A handle's payload pointer. *)
Definition handle_in (a : Publisher.AllocatedSlot) : Prop :=
  Publisher.publisher_ a = true →
  in_pool (Publisher.data_ a) ∧ Publisher.max_size_ a <= slot_data_size g.

Lemma conf_release_pending p : pub_in p → conf (Publisher.release_pending p) pub_in.
Proof using Hok.
  intros [Hg Hp]. unfold Publisher.release_pending. cf; [|by cf].
  apply negb_true_iff, Z.eqb_neq in E. destruct Hp as [?|Hp]; [done|].
  eapply confined_call; [by apply conf_treiber_push|]. intros _ _. cf. split; [done|by left].
Qed.

Lemma conf_allocate p : pub_in p →
  conf (Publisher.allocate p) (λ '(a, p'), handle_in a ∧ pub_in p').
Proof using Hok.
  intros Hp. unfold Publisher.allocate. eapply confined_call; [by apply conf_release_pending|].
  intros p1 [Hg1 Hp1]. cbn [Publisher.pub_geometry Publisher.set_reservation]. rewrite Hg1.
  eapply confined_call; [apply conf_treiber_pop|]. intros s Hs. cf; cf.
  - split; [done|]. split; [exact Hg1|exact Hp1].
  - apply Z.eqb_neq in E. destruct Hs as [?|Hs]; [done|]. split.
    + intros _. cbn. by split.
    + split; [exact Hg1|by right].
Qed.

Lemma conf_slot_write a p src : handle_in a → Forall is_u8 src →
  conf (Publisher.slot_write a p src) (λ _, True).
Proof using Hok.
  intros Ha Hsrc. unfold Publisher.slot_write. cf; [by cf|]. apply orb_false_iff in E as [Hv Hl].
  apply negb_false_iff in Hv. unfold Publisher.valid in Hv. apply andb_prop in Hv as [[Hv _]%andb_prop _].
  destruct (Ha Hv) as [Hs Hm]. apply Z.ltb_ge in Hl.
  eapply confined_call; [|intros; by cf]. apply conf_memcpy_in; [|done].
  intros j Hj. split; [|done]. cbn. unfold in_pool in Hs. lia.
Qed.

Lemma conf_publish p len : pub_in p → conf (Publisher.publish p len) (λ '(_, p'), pub_in p').
Proof using Hok.
  intros [Hg Hp]. unfold Publisher.publish. rewrite Hg. cf.
  { eapply confined_call; [by apply conf_release_pending|]. intros p' Hp'. by cf. }
  cf; [by cf|]. apply Z.eqb_neq in E0. destruct Hp as [?|Hs]; [done|]. set (s := Publisher.pending_slot_ p) in *.
  do 4 cf. eapply confined_call.
  { apply (confined_foreach _ _ _ _ _ (λ _, True)); [done|]. intros i d Hi _. apply conf_deliver; [done| |done].
    pose proof pool_facts as (_ & _ & ?). lia. }
  intros d _. apply confined_call with (λ _, True).
  { unfold Publisher.release_excess. cf; [|by cf]. do 2 cf. cf; [by apply conf_treiber_push|done]. }
  intros _ _. cfs; (split; [exact Hg|by left]).
Qed.

Lemma conf_slot_publish a p len : pub_in p → handle_in a →
  conf (Publisher.slot_publish a p len) (λ '(_, (a', p')), pub_in p' ∧ handle_in a').
Proof using Hok.
  intros Hp Ha. unfold Publisher.slot_publish. cf; [by cf|].
  eapply confined_call; [by apply conf_publish|]. intros [k p'] Hp'. by cf.
Qed.

Lemma conf_slot_destroy a p : pub_in p → conf (Publisher.slot_destroy a p) pub_in.
Proof using Hok. intros Hp. unfold Publisher.slot_destroy. cf; [by apply conf_release_pending|by cf]. Qed.

Lemma conf_send p data : pub_in p → Forall is_u8 data →
  conf (Publisher.send p data) (λ '(_, p'), pub_in p').
Proof using Hok.
  intros Hp Hd. unfold Publisher.send. cf; [by cf|].
  eapply confined_call; [by apply conf_allocate|]. intros [a p1] [Ha Hp1]. cf; [by cf|].
  eapply confined_call; [by apply conf_slot_write|]. intros _ _.
  eapply confined_call; [by apply conf_slot_publish|]. intros [k [a' p2]] [Hp2 _].
  eapply confined_call; [by apply conf_slot_destroy|]. intros p3 Hp3. by cf.
Qed.

(** ** Subscribing *)

Lemma conf_process_starttime pid : conf (Process.process_starttime pid) is_u64.
Proof using Hok. unfold Process.process_starttime. cfs. Qed.

Lemma conf_join_ring i : 0 <= i < max_subs g → conf (Subscriber.join_ring i) (λ _, True).
Proof using Hok.
  intros Hi. unfold Subscriber.join_ring. do 4 cf. cf; [by cf|]. do 2 cf.
  eapply confined_call; [apply conf_process_starttime|]. intros t Ht. cfs.
Qed.

Definition sub_in (s : Subscriber.subscriber) : Prop :=
  Subscriber.sub_geometry s = g ∧
  (Subscriber.ring_idx_ s ≠ Subscriber.NO_RING → 0 <= Subscriber.ring_idx_ s < max_subs g).

(** The subscriber holds a ring. *)
Definition joined (s : Subscriber.subscriber) : Prop :=
  Subscriber.sub_geometry s = g ∧ 0 <= Subscriber.ring_idx_ s < max_subs g.

Lemma sub_in_joined s : sub_in s → Subscriber.ring_idx_ s ≠ Subscriber.NO_RING → joined s.
Proof. intros [? Hi] Hne. split; auto. Qed.
Lemma joined_in s : joined s → sub_in s.
Proof. intros [? ?]. by split. Qed.
#[local] Hint Resolve joined_in : core.

Lemma conf_make_subscriber : conf (Subscriber.make_subscriber g) sub_in.
Proof using Hok.
  pose proof pool_facts as (_ & _ & Hm). unfold Subscriber.make_subscriber. cf.
  apply (confined_for _ _ _ _ _ (λ _, True)); [done| |intros; by cf]. intros i _ Hi _.
  eapply confined_call; [apply conf_join_ring; lia|]. intros [[start read]|] _; cfs.
  split; [done|]. intros _. cbn. lia.
Qed.

Lemma conf_set_ring_state i st : 0 <= i < max_subs g → 0 <= st < 4 →
  conf (Subscriber.set_ring_state i st) (λ _, True).
Proof using Hok.
  intros Hi Hst. unfold Subscriber.set_ring_state. do 2 cf.
  apply (confined_loop _ _ is_u32); [done|]. intros old Hold. cfs.
Qed.

Lemma conf_quiesce i deadline : 0 <= i < max_subs g → conf (Subscriber.quiesce i deadline) (λ _, True).
Proof using Hok.
  intros Hi. unfold Subscriber.quiesce. do 2 cf. apply (confined_loop _ _ (λ _, True)); [done|]. intros _ _. cfs.
Qed.

(** A claim that passes the check names a slot of the pool. *)
Lemma biased_in m : meta_slot_biased m ≠ 0 → meta_slot_biased m - 1 < pool_size g →
  in_pool (meta_slot_biased m - 1).
Proof using Hok.
  intros H0 Hp. rewrite meta_slot_biased_mod in *. unfold in_pool.
  pose proof (Z.mod_pos_bound m 16777216 ltac:(lia)). lia.
Qed.

Lemma conf_drain_entry i pos : 0 <= i < max_subs g → conf (Subscriber.drain_entry g i pos) (λ _, True).
Proof using Hok.
  intros Hi. pose proof (entry_in i pos Hi). unfold Subscriber.drain_entry. do 2 cf. cf; [by cf|].
  apply orb_false_iff in E as [E0%Z.eqb_neq E1%Z.leb_gt]. do 2 cf. cf; [|done].
  apply conf_drop_reference. by apply biased_in.
Qed.

Lemma conf_drain_unconsumed s : sub_in s → Subscriber.ring_idx_ s ≠ Subscriber.NO_RING →
  conf (Subscriber.drain_unconsumed s) (λ _, True).
Proof using Hok.
  intros [Hg Hi] Hne. specialize (Hi Hne). unfold Subscriber.drain_unconsumed. do 2 cf. cf; [by cf|].
  apply confined_foreach; [done|]. intros pos _ _ _. rewrite Hg. by apply conf_drain_entry.
Qed.

Lemma conf_release_ring s : sub_in s → conf (Subscriber.release_ring s) sub_in.
Proof using Hok.
  intros Hs. pose proof Hs as [Hg Hi]. unfold Subscriber.release_ring. cf; [by cf|].
  apply Z.eqb_neq in E. specialize (Hi E).
  eapply confined_call; [by apply conf_set_ring_state|]. intros _ _.
  eapply confined_call; [by apply conf_quiesce|]. intros quiesced _.
  eapply confined_call; [by apply conf_clear_owner|]. intros _ _.
  apply confined_call with (λ _, True).
  - cf; [|by apply conf_set_ring_state].
    eapply confined_call; [by apply conf_drain_unconsumed|]. intros _ _. cfs.
  - intros _ _. cf. split; [|done]. by destruct quiesced.
Qed.

Definition view_in (v : Subscriber.SampleView) : Prop :=
  in_pool (Subscriber.view_slot_idx_ v) ∧ Subscriber.view_len_ v <= slot_data_size g.

Lemma conf_view_release v :
  Subscriber.view_slot_idx_ v ≠ INVALID_SLOT → view_in v → conf (Subscriber.view_release v) (λ _, True).
Proof using Hok.
  intros _ [Hs _]. unfold Subscriber.view_release. cf; [by cf|].
  eapply confined_call; [by apply conf_drop_reference|]. intros. by cf.
Qed.

Lemma view_in_valid v : view_in v → Subscriber.view_slot_idx_ v ≠ INVALID_SLOT.
Proof using Hok. pose proof pool_facts as (_ & Hp & _). unfold view_in, in_pool, INVALID_SLOT. lia. Qed.

Lemma conf_view_bytes v : view_in v → conf (Subscriber.view_bytes v) (λ _, True).
Proof using Hok.
  intros [Hs Hl]. apply conf_memcpy_out. intros j Hj. cbn. unfold in_pool in Hs. lia.
Qed.

Lemma conf_lose_one s : joined s → conf (Subscriber.lose_one s) joined.
Proof using Hok. intros [Hg Hi]. unfold Subscriber.lose_one. cfs. Qed.

Lemma conf_resync s wp : joined s → conf (Subscriber.resync s wp) joined.
Proof using Hok. intros [Hg Hi]. unfold Subscriber.resync. cfs. Qed.

Lemma conf_pin t : in_pool t → conf (Subscriber.pin t) (λ _, True).
Proof using Hok.
  intros Ht. unfold Subscriber.pin. do 2 cf. apply (confined_loop _ _ is_u32); [done|]. intros rc Hrc.
  cf; [|by cf]. apply andb_prop in E as [_ E%negb_true_iff%Z.eqb_neq]. cfs.
Qed.

Lemma check_claim_in pos m t : Subscriber.check_claim g pos m = Some t → in_pool t.
Proof using Hok.
  unfold Subscriber.check_claim. destruct (_ || _) eqn:E; [done|]. intros [= <-].
  apply orb_false_iff in E as [[_ E0%Z.eqb_neq]%orb_false_iff E1%Z.leb_gt]. by apply biased_in.
Qed.

Lemma conf_read_committed s idx seq :
  joined s → 0 <= idx < sub_ring_capacity g →
  conf (Subscriber.read_committed s idx seq) (λ r, match r with
    | inl s' => joined s'
    | inr (v, s') => view_in v ∧ joined s' end).
Proof using Hok.
  intros Hs Hidx. pose proof Hs as [Hg Hi]. unfold Subscriber.read_committed. rewrite Hg.
  assert (conf (s <- Subscriber.lose_one s ;; Ret (inl s)) (λ r, match r with
    | inl s' => joined s'
    | inr (v, s') => view_in v ∧ joined s' end)) as Hlose.
  { eapply confined_call; [by apply conf_lose_one|]. intros s' Hs'. by cf. }
  do 2 cf. destruct (Subscriber.check_claim g (Subscriber.read_pos_ s) v) as [t|] eqn:Ht; [|exact Hlose].
  apply check_claim_in in Ht. eapply confined_call; [by apply conf_pin|]. intros pinned _.
  cf; [exact Hlose|]. do 2 cf.
  assert (conf (drop_reference t ;; s <- Subscriber.lose_one s ;; Ret (inl s)) (λ r, match r with
    | inl s' => joined s'
    | inr (v, s') => view_in v ∧ joined s' end)) as Hdrop.
  { eapply confined_call; [by apply conf_drop_reference|]. intros _ _. exact Hlose. }
  cf; [exact Hdrop|]. do 2 cf. cf; [exact Hdrop|]. apply Z.ltb_ge in E1. by cf.
Qed.

Lemma conf_receive_turn s : joined s →
  conf (Subscriber.receive_turn s) (λ r, match r with
    | inl s' => joined s'
    | inr (v, s') => from_option view_in True v ∧ joined s' end).
Proof using Hok.
  intros Hs. pose proof Hs as [Hg Hi]. unfold Subscriber.receive_turn. do 2 cf. cf; [by cf|].
  eapply confined_call; [by apply conf_resync|]. intros s1 Hs1. pose proof Hs1 as [Hg1 Hi1].
  rewrite Hg1. pose proof (entry_in _ (Subscriber.read_pos_ s1) Hi1). do 2 cf.
  destruct (Subscriber.read_head _ _); [| |by cf].
  - eapply confined_call; [by apply conf_read_committed|]. intros [s2|[view s2]] Hr; by cf.
  - eapply confined_call; [by apply conf_lose_one|]. intros s2 Hs2. by cf.
Qed.

Lemma conf_try_receive_view s : sub_in s →
  conf (Subscriber.try_receive_view s) (λ '(v, s'), from_option view_in True v ∧ sub_in s').
Proof using Hok.
  intros Hs. unfold Subscriber.try_receive_view. cf; [by cf|]. apply Z.eqb_neq in E.
  pose proof (sub_in_joined s Hs E) as Hj. cf.
  apply (confined_for _ _ _ _ _ joined); [done| |intros s' Hs'; cf; split; [done|by apply joined_in]].
  intros i s' _ Hs'. eapply confined_mono; [by apply conf_receive_turn|].
  intros [s2|[view s2]]; [done|]. intros [Hv Hs2]. cf. split; [done|by apply joined_in].
Qed.

Lemma conf_try_receive s : sub_in s → conf (Subscriber.try_receive s) (λ '(_, s'), sub_in s').
Proof using Hok.
  intros Hs. unfold Subscriber.try_receive.
  eapply confined_call; [by apply conf_try_receive_view|]. intros [[v|] s'] [Hv Hs']; [|by cf].
  cbn in Hv. eapply confined_call; [by apply conf_view_bytes|]. intros bs _.
  eapply confined_call; [apply conf_view_release; [by apply view_in_valid|done]|]. intros v' _. by cf.
Qed.

Lemma conf_blocking {A} (attempt : Subscriber.subscriber → rprog (option A * Subscriber.subscriber))
    (P : option A → Prop) s timeout :
  P None → (∀ s, sub_in s → conf (attempt s) (λ '(v, s'), P v ∧ sub_in s')) →
  sub_in s → conf (Subscriber.blocking attempt s timeout) (λ '(v, s'), P v ∧ sub_in s').
Proof using Hok.
  intros HP Ha Hs. unfold Subscriber.blocking. cf; [by cf|]. apply Z.eqb_neq in E.
  destruct (sub_in_joined s Hs E) as [_ Hi]. do 2 cf.
  apply (confined_loop _ _ (λ '(s', _), sub_in s')); [done|]. intros [s1 spins] Hs1.
  eapply confined_call; [by apply Ha|]. intros [[x|] s2] [Hx Hs2]; [by cf|]. do 2 cf. cf; [by cf|].
  do 2 cf. cf; [by cfs|]. apply confined_call with (λ _, True); [by cfs|]. intros _ _. by cf.
Qed.

Lemma conf_receive s timeout : sub_in s → conf (Subscriber.receive s timeout) (λ '(_, s'), sub_in s').
Proof using Hok.
  intros Hs. eapply confined_mono; [apply (conf_blocking _ (λ _, True)); [done| |done]|by intros [? ?] [_ ?]].
  intros s1 Hs1. eapply confined_mono; [by apply conf_try_receive|]. by intros [? ?].
Qed.

Lemma conf_receive_view s timeout : sub_in s →
  conf (Subscriber.receive_view s timeout) (λ '(v, s'), from_option view_in True v ∧ sub_in s').
Proof using Hok. intros Hs. apply (conf_blocking _ (from_option view_in True)); [done|by apply conf_try_receive_view|done]. Qed.

Lemma conf_head_state s : joined s → conf (Subscriber.head_state s) (λ _, True).
Proof using Hok.
  intros [Hg Hi]. pose proof (entry_in _ (Subscriber.read_pos_ s) Hi).
  unfold Subscriber.head_state. rewrite Hg. cfs.
Qed.

Lemma conf_disarm_wait s : sub_in s → conf (Subscriber.disarm_wait s) (λ _, True).
Proof using Hok.
  intros Hs. unfold Subscriber.disarm_wait. cf; [by cf|]. apply Z.eqb_neq in E.
  destruct (sub_in_joined s Hs E) as [_ Hi]. cfs.
Qed.

Lemma conf_arm_wait s : sub_in s → conf (Subscriber.arm_wait s) (λ _, True).
Proof using Hok.
  intros Hs. unfold Subscriber.arm_wait. cf; [by cf|]. apply Z.eqb_neq in E.
  pose proof (sub_in_joined s Hs E) as Hj. pose proof Hj as [_ Hi]. do 2 cf.
  eapply confined_call; [by apply conf_head_state|]. intros [] _; [by cf| |by cf].
  destruct (Subscriber.waker_ s); [|by cf]. do 4 cf. cf; [|by cf].
  eapply confined_call; [by apply conf_disarm_wait|]. intros _ _. by apply conf_head_state.
Qed.

(** ** Health, recovery and reports *)

Lemma conf_ring_owner_dead i : 0 <= i < max_subs g → conf (Region.ring_owner_dead i) (λ _, True).
Proof using Hok. intros Hi. unfold Region.ring_owner_dead, Process.owner_is_dead. cfs. Qed.

(** The loops over the rings. *)
Lemma conf_rings {S} (s : S) (body : Z → S → rprog S) (J : S → Prop) :
  J s → (∀ i s, 0 <= i < max_subs g → J s → conf (body i s) J) →
  conf (foreach (Z.to_nat (max_subs g)) 0 s body) J.
Proof using Hok.
  intros HJ Hb. pose proof pool_facts as (_ & _ & Hm). apply confined_foreach; [done|].
  intros i s' Hi. apply Hb. lia.
Qed.

Lemma conf_diagnose : conf (Region.diagnose g) (λ _, True).
Proof using Hok.
  unfold Region.diagnose. do 2 cf. apply conf_rings; [done|]. intros i r Hi _.
  unfold Region.diagnose_ring. do 2 cf. apply confined_call with (λ _, True).
  { apply confined_foreach; [done|]. intros pos r' _ _. pose proof (entry_in i pos Hi). cfs. }
  intros r' _. do 2 cf. apply confined_call with (λ _, True); [cf; [by apply conf_ring_owner_dead|by cf]|].
  intros dead _. by cf.
Qed.

Lemma conf_repair_entry i idx pos seq k :
  0 <= i < max_subs g → 0 <= idx < sub_ring_capacity g → is_u64 pos →
  conf (Region.repair_entry i idx pos seq k) (λ _, True).
Proof using Hok.
  intros Hi Hidx Hpos. unfold Region.repair_entry.
  eapply confined_call; [by apply conf_steal|]. intros stolen _. cfs.
Qed.

Definition candidate_in (c : Region.LockedCandidate) : Prop :=
  0 <= Region.cand_ring c < max_subs g ∧ 0 <= Region.cand_idx c < sub_ring_capacity g ∧
  is_u64 (Region.cand_pos c).

Lemma conf_scan_ring i acc : 0 <= i < max_subs g → Forall candidate_in acc.1 →
  conf (Region.scan_ring g i acc) (λ acc', Forall candidate_in acc'.1).
Proof using Hok.
  intros Hi Hacc. unfold Region.scan_ring. do 2 cf. rename v into wp, Hv into Hwp.
  apply (confined_foreach _ _ _ _ _ (λ acc', Forall candidate_in acc'.1)); [done|].
  intros pos [cs k] Hpos Hcs. cbn in Hcs. pose proof (entry_in i pos Hi) as Hidx.
  assert (is_u64 pos) as Hp.
  { unfold Region.window_start in Hpos. unfold is_u64 in *. destruct (_ <? _) eqn:E in Hpos; [apply Z.ltb_lt in E|]; lia. }
  do 2 cf. cf; [cf; cbn; apply Forall_app; split; [done|]; apply Forall_singleton; exact (conj Hi (conj Hidx Hp))|].
  cf; [|by cf]. eapply confined_call; [by apply conf_repair_entry|]. intros k' _. by cf.
Qed.

Lemma conf_steal_candidates cs k : Forall candidate_in cs → conf (Region.steal_candidates cs k) (λ _, True).
Proof using Hok.
  intros Hcs. revert k. induction Hcs as [|c cs (Hi & Hidx & Hp) _ IH]; intros k; cbn [Region.steal_candidates]; [by cf|].
  do 2 cf. apply confined_call with (λ _, True); [cf; [by cf|by apply conf_repair_entry]|]. intros k' _. apply IH.
Qed.

Lemma conf_repair_locked_entries : conf (Region.repair_locked_entries g) (λ _, True).
Proof using Hok.
  unfold Region.repair_locked_entries. eapply confined_call.
  { apply (conf_rings ([], 0) _ (λ acc, Forall candidate_in acc.1)); [by constructor|].
    intros. by apply conf_scan_ring. }
  intros [cs k] Hcs. cf; [by cf|]. do 2 cf. by apply conf_steal_candidates.
Qed.

Lemma conf_reset_retired_rings : conf (Region.reset_retired_rings g) (λ _, True).
Proof using Hok.
  apply conf_rings; [done|]. intros i k Hi _. do 2 cf. cf; [|by cf].
  eapply confined_call; [by apply conf_clear_owner|]. intros _ _. cfs.
Qed.

Lemma conf_leave_reclaiming i claim st : 0 <= i < max_subs g → is_u32 claim → 0 <= st < 4 →
  conf (Region.leave_reclaiming i claim st) (λ _, True).
Proof using Hok.
  intros Hi Hc Hst. apply (confined_loop _ _ is_u32); [done|]. intros old Hold. cfs.
Qed.

Lemma conf_reclaim_dead_rings : conf (Region.reclaim_dead_rings g) (λ _, True).
Proof using Hok.
  apply conf_rings; [done|]. intros i k Hi _. apply confined_call with (λ _, True); [|intros; by cf].
  unfold Region.reclaim_ring. do 2 cf. cf; [by cf|].
  eapply confined_call; [by apply conf_ring_owner_dead|]. intros dead _. cf; [by cf|].
  do 2 cf. cf; [by cf|]. rename v0 into fresh, Hv0 into Hfresh.
  assert (is_u32 (ring.with_state fresh ring.Reclaiming)) by auto with typed.
  do 2 cf. cf; [by cf|]. eapply confined_call; [by apply conf_ring_owner_dead|]. intros dead2 _. cf.
  - eapply confined_call; [by apply conf_clear_owner|]. intros _ _. by apply conf_leave_reclaiming.
  - eapply confined_call; [apply conf_leave_reclaiming; [done..|]|intros; by cf].
    rewrite get_state_mod. apply Z.mod_pos_bound. lia.
Qed.

Lemma conf_count_claims : conf (Region.count_claims g) (Forall is_u32).
Proof using Hok.
  unfold Region.count_claims. apply conf_rings; [by apply Forall_replicate|]. intros i cs Hi Hcs.
  apply confined_foreach; [done|]. intros idx cs' Hidx Hcs'. do 2 cf. cf; [|by cf]. cf.
  apply Forall_alter; [done|]. intros. apply u32_range.
Qed.

Lemma conf_walk_stack : conf (Region.walk_stack g) (λ _, True).
Proof using Hok.
  unfold Region.walk_stack. do 2 cf. apply (confined_loop _ _ (λ '(idx, _, _), is_u32 idx)); [apply u32_range|].
  intros [[idx on] k] Hidx. cf; [|by cf]. unfold is_u32 in Hidx. apply andb_prop in E as [[_ E]%andb_prop _].
  apply Z.ltb_lt in E. cfs.
Qed.

Lemma conf_reclaim_orphaned_slots : conf (Region.reclaim_orphaned_slots g) (λ _, True).
Proof using Hok.
  unfold Region.reclaim_orphaned_slots. eapply confined_call; [apply conf_count_claims|]. intros cs Hcs.
  eapply confined_call; [apply conf_walk_stack|]. intros on _.
  apply confined_foreach; [done|]. intros s k Hs _. assert (in_pool s) as Hp by (unfold in_pool; lia).
  unfold Region.reclaim_slot. cf; [by cf|].
  assert (is_u32 (nth (Z.to_nat s) cs 0)) as Hc.
  { rewrite nth_lookup. destruct (cs !! Z.to_nat s) eqn:Hn; [by eapply Forall_lookup_1|done]. }
  cf; [cfs|]. do 2 cf. eapply confined_call; [by apply conf_treiber_push|]. intros _ _. by cf.
Qed.

Lemma conf_stats : conf (Region.stats g) (λ _, True).
Proof using Hok.
  unfold Region.stats. do 2 cf. eapply confined_call.
  { apply (conf_rings _ _ (λ _, True)); [done|]. intros i out Hi _. unfold Region.ring_stats. cfs. }
  intros out _. apply confined_call with (λ _, True); [|intros; by cf].
  unfold Region.count_free. do 2 cf. apply (confined_loop _ _ (λ '(idx, _), is_u32 idx)); [apply u32_range|].
  intros [idx k] Hidx. cf; [|by cf]. cf; [by cf|]. apply Z.leb_gt in E0. unfold is_u32 in Hidx. cfs.
Qed.

Lemma conf_info r : Region.geometry_ r = g → conf (Region.info r) (λ _, True).
Proof using Hok.
  intros Hr. unfold Region.info. rewrite Hr. do 14 cf.
  eapply confined_call; [|intros; by cf]. apply conf_memcpy_out. intros j Hj. cbn. unfold tail.
  assert (u64 (schema_blob_offset g - SIZEOF_HEADER) = schema_blob_offset g - SIZEOF_HEADER) as E.
  { apply u64_small. pose proof (capacity_pos g (proj1 pool_facts)). destruct Hok.
    unfold SIZEOF_SUB_RING_HEADER, SIZEOF_ENTRY, SIZEOF_SLOT_HEADER, SIZEOF_HEADER, CACHE_LINE, is_u64 in *.
    assert (0 <= max_subs g * sub_ring_stride g) by (apply Z.mul_nonneg_nonneg; lin).
    assert (0 <= pool_size g * slot_stride g) by (apply Z.mul_nonneg_nonneg; lin). lin. }
  rewrite E in Hj. destruct (_ <? _) eqn:El in Hj; [lia|apply Z.ltb_ge in El; lia].
Qed.

Lemma conf_schema_read : conf Region.schema_read (λ _, True).
Proof using Hok.
  unfold Region.schema_read. do 2 cf. cf; [by cf|].
  eapply confined_call; [|intros; by cf]. apply conf_memcpy_out. done.
Qed.

Lemma conf_schema_blob_read : conf (Region.schema_blob_read g) (λ _, True).
Proof using Hok.
  unfold Region.schema_blob_read, Region.load_blob_size. do 2 cf. cf; [by cf|].
  apply confined_call with (λ _, True).
  { eapply confined_call; [|intros; by cf]. apply conf_memcpy_out. intros j Hj. cbn. unfold SCHEMA_INFO_SIZE. lia. }
  intros size _. cf; [by cf|]. apply Z.ltb_ge in E0. apply conf_memcpy_out. intros j Hj. cbn. lia.
Qed.

Lemma conf_try_claim_schema info blob : schema_wf info → Forall is_u8 blob →
  conf (Region.try_claim_schema g info blob) (λ _, True).
Proof using Hok.
  intros Hi Hb. unfold Region.try_claim_schema. cf; [by cf|]. apply Z.ltb_ge in E. do 2 cf.
  pose proof (Stamping.stamped_schema_wf info blob Hi) as Hw. cf.
  - apply confined_call with (λ _, True).
    { cf; [|done]. apply conf_memcpy_in; [|done]. intros j Hj. cbn. split; [lia|done]. }
    intros _ _. eapply confined_call.
    { apply conf_memcpy_in; [|by apply schema_bytes_u8]. rewrite schema_bytes_length by done.
      intros j Hj. cbn. unfold SCHEMA_INFO_SIZE. split; [lia|done]. }
    intros _ _. cfs.
  - apply confined_call with (λ _, True); [|intros; by cf].
    apply (confined_for _ _ _ _ _ (λ _, True)); [done| |done]. intros j e _ _. cfs.
Qed.

Lemma conf_reset_schema_claim : conf Region.reset_schema_claim (λ _, True).
Proof using Hok. unfold Region.reset_schema_claim. cfs. Qed.
End operations.

(** ** Processes, well-behaved or not *)

(** The calls of a process that maintains or watches the region. *)
Inductive region_call :=
  | CallReclaimSlots
  | CallStats
  | CallInfo (r : Region.region)
  | CallSchema
  | CallSchemaBlob
  | CallClaimSchema (info : SchemaInfo) (blob : list Z)
  | CallResetSchema.

Definition one_call (g : Geometry) (c : region_call) : rprog unit :=
  match c with
  | CallReclaimSlots => Region.reclaim_orphaned_slots g ;;; Ret tt
  | CallStats => Region.stats g ;;; Ret tt
  | CallInfo r => Region.info r ;;; Ret tt
  | CallSchema => Region.schema_read ;;; Ret tt
  | CallSchemaBlob => Region.schema_blob_read g ;;; Ret tt
  | CallClaimSchema info blob => Region.try_claim_schema g info blob ;;; Ret tt
  | CallResetSchema => Region.reset_schema_claim ;;; Ret tt
  end.

Fixpoint maintaining (g : Geometry) (calls : list region_call) : rprog unit :=
  match calls with
  | [] => Ret tt
  | c :: calls => try_ (one_call g c) ;;; maintaining g calls
  end.

(** Somebody else's stores to the region. *)
Fixpoint scribbling (writes : list (loc * Z)) : rprog unit :=
  match writes with
  | [] => Ret tt
  | (l, v) :: writes => store l v ;; scribbling writes
  end.

Inductive guest :=
  | Client (pr : Clients.process)
  | Maintainer (calls : list region_call)
  | Rogue (writes : list (loc * Z)).

Definition guest_program (g : Geometry) (gu : guest) : rprog unit :=
  match gu with
  | Client pr => Clients.program g pr
  | Maintainer calls => maintaining g calls
  | Rogue writes => scribbling writes
  end.

(** The arguments have the C++ types of the calls; a rogue writes anything of the
    fields' types. *)
Definition publisher_call_typed (c : Clients.publisher_call) : Prop :=
  match c with
  | Clients.CallSend bs | Clients.CallWrite bs => Forall is_u8 bs
  | _ => True
  end.
Definition region_call_typed (g : Geometry) (c : region_call) : Prop :=
  match c with
  | CallInfo r => Region.geometry_ r = g
  | CallClaimSchema info blob => schema_wf info ∧ Forall is_u8 blob
  | _ => True
  end.
Definition guest_typed (g : Geometry) (gu : guest) : Prop :=
  match gu with
  | Client (Clients.Publishing _ calls) => Forall publisher_call_typed calls
  | Client _ => True
  | Maintainer calls => Forall (region_call_typed g) calls
  | Rogue writes => Forall (λ '(l, v), in_region g l ∧ fits l v) writes
  end.

Section guests.
Context (g : Geometry) (n total : Z) (Hok : geometry_ok g n total).
Abbreviation conf := (confined g).

Lemma handle_in_null : handle_in g Publisher.null_slot.
Proof. done. Qed.

Lemma conf_publishing calls p a :
  Forall publisher_call_typed calls → pub_in g p → handle_in g a →
  conf (Clients.publishing calls p a) (λ _, True).
Proof using Hok.
  intros Hcs. revert p a. induction Hcs as [|c calls Hc _ IH]; intros p a Hp Ha; cbn [Clients.publishing].
  { eapply confined_call; [by eapply conf_release_pending|]. intros; by cf. }
  destruct c.
  - eapply confined_call; [by eapply conf_send|]. intros [r p'] Hp'. by apply IH.
  - eapply confined_call; [by eapply conf_allocate|]. intros [a' p'] [Ha' Hp']. by apply IH.
  - eapply confined_call; [by eapply conf_slot_write|]. intros _ _. by apply IH.
  - eapply confined_call; [by eapply conf_slot_publish|]. intros [r [a' p']] [Hp' Ha']. by apply IH.
  - eapply confined_call; [by eapply conf_slot_destroy|]. intros p' Hp'. apply IH; [done|]. apply handle_in_null.
Qed.

Lemma conf_view v : view_in g v → conf (Subscriber.view_release v) (λ _, True).
Proof using Hok. intros Hv. eapply conf_view_release; [done|by eapply view_in_valid|done]. Qed.

Lemma conf_receiving calls s views :
  sub_in g s → Forall (view_in g) views → conf (Clients.receiving calls s views) (λ _, True).
Proof using Hok.
  revert s views. induction calls as [|c calls IH]; intros s views Hs Hvs; cbn [Clients.receiving].
  { eapply confined_call; [by eapply conf_release_ring|]. intros _ _.
    induction Hvs as [|v views Hv _ IHv]; cbn [Clients.release_views]; [by cf|].
    eapply confined_call; [by apply conf_view|]. intros _ _. exact IHv. }
  assert (∀ v, from_option (view_in g) True v → Forall (view_in g) (Clients.keep v views)) as Hkeep.
  { intros [v|] Hv; [by constructor|done]. }
  destruct c.
  - eapply confined_call; [by eapply conf_try_receive|]. intros [r s'] Hs'. by apply IH.
  - eapply confined_call; [by eapply conf_receive|]. intros [r s'] Hs'. by apply IH.
  - eapply confined_call; [by eapply conf_try_receive_view|]. intros [v s'] [Hv Hs']. apply IH; auto.
  - eapply confined_call; [by eapply conf_receive_view|]. intros [v s'] [Hv Hs']. apply IH; auto.
  - destruct (views !! k) as [v|] eqn:Hk; [|by apply IH].
    eapply confined_call; [eapply conf_view_bytes; [done|by eapply Forall_lookup_1]|]. intros _ _. by apply IH.
  - destruct (views !! k) as [v|] eqn:Hk; [|by apply IH].
    eapply confined_call; [apply conf_view; by eapply Forall_lookup_1|]. intros _ _.
    apply IH; [done|]. by apply Forall_delete.
  - eapply confined_call; [by eapply conf_arm_wait|]. intros _ _. by apply IH.
  - eapply confined_call; [by eapply conf_disarm_wait|]. intros _ _. by apply IH.
Qed.

Lemma conf_recovering calls : conf (Clients.recovering g calls) (λ _, True).
Proof using Hok.
  induction calls as [|[] calls IH]; cbn [Clients.recovering]; [by cf|..].
  - eapply confined_call; [by eapply conf_repair_locked_entries|done].
  - eapply confined_call; [by eapply conf_reset_retired_rings|done].
  - eapply confined_call; [by eapply conf_reclaim_dead_rings|done].
  - eapply confined_call; [by eapply conf_diagnose|done].
Qed.

Lemma conf_one_call c : region_call_typed g c → conf (one_call g c) (λ _, True).
Proof using Hok.
  intros Hc. destruct c; cbn [one_call region_call_typed] in *;
    (eapply confined_call; [|intros; by cf]).
  - by eapply conf_reclaim_orphaned_slots.
  - by eapply conf_stats.
  - by eapply conf_info.
  - by eapply conf_schema_read.
  - by eapply conf_schema_blob_read.
  - destruct Hc. by eapply conf_try_claim_schema.
  - by eapply conf_reset_schema_claim.
Qed.

Lemma conf_maintaining calls : Forall (region_call_typed g) calls → conf (maintaining g calls) (λ _, True).
Proof using Hok.
  induction 1 as [|c calls Hc _ IH]; cbn [maintaining]; [by cf|].
  apply confined_call with (λ _, True); [|done]. apply confined_try; [by apply conf_one_call|done].
Qed.

Lemma conf_guest gu : guest_typed g gu → conf (guest_program g gu) (λ _, True).
Proof using Hok.
  destruct gu as [[backend calls|calls|calls]|calls|writes]; cbn [guest_program Clients.program guest_typed]; intros Hg.
  - apply conf_publishing; [done| |apply handle_in_null]. split; [done|by left].
  - apply confined_call with (λ r, match r with inl s => sub_in g s | inr _ => True end).
    + apply confined_try; [by eapply conf_make_subscriber|done].
    + intros [s|e] Hs; [|by cf]. by apply conf_receiving.
  - apply conf_recovering.
  - by apply conf_maintaining.
  - induction Hg as [|[l v] writes [Hl Hv] _ IH]; cbn [scribbling]; [by cf|].
    apply confined_bind, confined_act; [done|]. intros _ _. exact IH.
Qed.
End guests.

(** ** The theorem *)

(** The processes on a region opened with geometry [g]; no compare-exchange is
    assumed timely. *)
Definition opened (g : Geometry) (m : loc → Z) (guests : list guest) : config loc :=
  Config m 0 (map (λ gu, Thread (guest_program g gu) 0) guests).
Definition untimed : config loc → config loc → Prop := reachable (λ _, false) 0.

(** The location a thread is about to access. *)
Definition accesses {R} (a : act loc R) : option loc :=
  match a with
  | Load l | Store l _ | Cas l _ _ | CasWeak l _ _ | FetchAdd _ l _ | FutexWait l _ _ | FutexWakeAll l => Some l
  | _ => None
  end.
Definition next_location (c : config loc) (t : nat) : option loc :=
  match c_threads c !! t with
  | Some (Thread (Act a _) _) => accesses a
  | _ => None
  end.

Lemma allowed_in_region g {R} (a : act loc R) l : allowed g a → accesses a = Some l → in_region g l.
Proof. destruct a; cbn; intros Ha [= <-]; tauto. Qed.

(** The name's bytes end at the schema blob. *)
Lemma tail_ok g n total : geometry_ok g n total → geometry_ok g (tail g) total.
Proof. intros []. constructor; try done. unfold tail. lia. Qed.

(** C11. However a region's words were damaged and whoever else writes to them, every
    access of a process that opened it with an accepted header is aligned and
    inside the mapping, and every word keeps the type of its field. *)
Theorem accesses_confined s size m guests c :
  snapshot_typed s → is_u64 size → validate_snapshot s size = inl tt →
  typed (geometry s) m → Forall (guest_typed (geometry s)) guests →
  untimed (opened (geometry s) m guests) c →
  typed (geometry s) (c_mem c) ∧
  ∀ t l, next_location c t = Some l →
    let '(at_, bytes) := loc_at (geometry s) l in
    loc_valid (geometry s) (tail (geometry s)) l ∧
    0 <= at_ ∧ at_ + bytes <= size ∧ at_ `mod` bytes = 0.
Proof.
  intros Hs Hsize Hv Hm Hguests Hr. destruct (validate_snapshot_ok s size Hs Hsize Hv) as [Hok Hle].
  set (g := geometry s) in *.
  destruct (reachable_safe (λ _, false) 0 (λ R a _, allowed g a) (λ m _ (_ : gmultiset unit), typed g m)
    (replicate (length guests) (λ _ _ _, True)) (opened g m guests) c (replicate (length guests) ∅))
    as (owns & HI & _ & Hguard & _); [|done|].
  - intros k. split; cbn [opened c_mem c_count c_threads].
    + done.
    + by rewrite length_replicate, length_map.
    + intros t th own Q Ht _ [-> _]%lookup_replicate. rewrite list_lookup_fmap in Ht.
      destruct (guests !! t) as [gu|] eqn:Hgu; [|done]. injection Ht as <-. cbn [t_prog t_seen].
      eapply safe_mono; [|done]. by eapply conf_guest; [|eapply Forall_lookup_1].
    + by rewrite length_replicate, length_map.
  - split; [done|]. intros t l Hl. unfold next_location in Hl.
    destruct (c_threads c !! t) as [[[| |R a k|] seen]|] eqn:Ht; try done.
    destruct (Hguard _ _ _ _ _ Ht) as (own & _ & Ha). pose proof (allowed_in_region g a l Ha Hl) as Hin.
    pose proof (tail_ok _ _ _ Hok) as Htail.
    pose proof (loc_in_region _ _ _ Htail l Hin). pose proof (loc_aligned _ _ _ Htail l Hin).
    destruct (loc_at g l) as [at_ bytes]. cbn [fst snd] in *. split; [exact Hin|]. lia.
Qed.

(** *** A damaged region *)

(** Every ring is Live, the stack names slot 3, and the rest is rubbish. *)
Definition rubbish : loc → Z := λ l,
  match l with
  | Hdr free_top => 3
  | Ring _ state_flight => 1
  | _ => 77
  end.
Definition rubbish_guests : list guest :=
  [Client (Clients.Publishing false [Clients.CallSend [42]]);
   Rogue [(Slot 3 next_free, 4000000000); (Hdr free_top, 18446744073709551615)]].
Definition rubbish_run (schedule : list nat) : config loc :=
  play (λ _, false) 0 Clients.calm schedule (opened (geometry sample_snapshot) rubbish rubbish_guests).

Lemma rubbish_typed : typed (geometry sample_snapshot) rubbish.
Proof. intros [[]| | | |i []|i idx []|s []|s j] _; by compute. Qed.
Lemma rubbish_guests_typed : Forall (guest_typed (geometry sample_snapshot)) rubbish_guests.
Proof. repeat constructor; by compute. Qed.

(** The publisher is about to write the payload of slot 3. *)
Lemma accesses_confined_witness :
  next_location (rubbish_run (replicate 4 0)%nat) 0 = Some (SlotByte 3 0) ∧
  (loc_at (geometry sample_snapshot) (SlotByte 3 0)).1 + 1 <= 4096.
Proof.
  assert (next_location (rubbish_run (replicate 4 0)%nat) 0 = Some (SlotByte 3 0)) as Hn
    by (vm_compute; reflexivity).
  split; [exact Hn|].
  refine (proj1 (proj2 (proj2 (proj2 (accesses_confined sample_snapshot 4096 rubbish rubbish_guests
    (rubbish_run (replicate 4 0)%nat) _ _ _ rubbish_typed rubbish_guests_typed _) 0%nat _ Hn)))).
  - split; [constructor|]; vm_compute; intuition congruence.
  - vm_compute; intuition congruence.
  - vm_compute; reflexivity.
  - apply play_reachable, Clients.calm_typed.
Defined.
End Confinement.
