(* ===== verification/Delivery.v ===== *)
(** * What a publisher does to a region it has to itself

    [publish] ends in whatever state the rings are in; it changes only the ring
    it delivers to and the pool; and a ring that is live with its next entry
    ready gets the sample. *)

From S2P Require Import Prelude Prog Types Layout Words Pool Slots Publisher.
Import Types Layout Pool Slots.

Module Delivery.
Section delivery.
Context (g : Geometry) (Hg : pool_geometry g).
Implicit Types (m : loc → Z) (o : os) (ws : list loc) (pins : Z → Z) (fl res : list Z).

(** ** Waiting for a predecessor *)

(** The turns a wait has left: 1024 for each nanosecond it can still spend. *)
Definition wait_turns (timeout start clock n : Z) : Z :=
  1024 * Z.max 0 (timeout * 1000 - (clock - start)) + (1023 - n `mod` 1024).

Lemma returns_wait_for_commit i idx expected timeout m o ws
    (Q : Publisher.CommitWait → world loc → Prop) :
  0 < os_tick o →
  (∀ w o', os_tick o' = os_tick o →
     Publisher.last_seq w = m (Ent i idx sequence) →
     (Publisher.stable_lock w = true → seq_is_locked (m (Ent i idx sequence)) = true) →
     Q w (World m o' ws)) →
  returns (Publisher.wait_for_commit i idx expected timeout) (World m o ws) Q.
Proof.
  intros Htick HQ. unfold Publisher.wait_for_commit. do 2 step. set (seq := m (Ent i idx sequence)) in *.
  step; [step; by apply HQ|]. do 2 step. set (start := os_clock o).
  apply (returns_loop_measure _ _ (λ k '(s, n) w', s = seq ∧ 0 <= n ∧ ∃ o', w' = World m o' ws ∧
    os_tick o' = os_tick o ∧ k = Z.to_nat (wait_turns timeout start (os_clock o') n))
    (Z.to_nat (wait_turns timeout start (os_clock o + os_tick o) 0))).
  { split; [done|]. split; [done|]. by eexists. }
  intros k [s n] w' (-> & Hn & o' & -> & Hto & ->). step; [step; by apply HQ|].
  change 1023 with (2 ^ 10 - 1). rewrite (land_ones_mod _ 10) by lia. change (2 ^ 10) with 1024.
  destruct (Z.eqb_spec ((n + 1) `mod` 1024) 0) as [Ez|Ez].
  - do 4 step. step; [step|].
    + apply HQ; [done|done|]. cbn. intros Hst. by apply andb_true_iff in Hst as [? _].
    + do 3 step. eexists. split; [|split; [done|split; [lia|by exists (os_advance o' (os_tick o'))]]].
      match goal with H : (_ <=? _) = false |- _ => apply Z.leb_gt in H; fold start in H end.
      unfold wait_turns. cbn [os_clock os_advance].
      assert (n `mod` 1024 = 1023) as -> by lia. rewrite Ez, Hto. lia.
  - do 5 step. eexists. split; [|split; [done|split; [lia|by exists o']]].
    unfold wait_turns. assert ((n + 1) `mod` 1024 = n `mod` 1024 + 1) as -> by lia. lia.
Qed.

(** ** Locking an entry *)

Definition lockable m (i idx prev : Z) : bool :=
  negb (seq_is_locked (m (Ent i idx sequence))) && (seq_pos (m (Ent i idx sequence)) =? prev).

(** From the value in memory, the entry is locked iff it holds the predecessor. *)
Lemma returns_lock_loop k lo i idx pos prev m o ws (Q : Z + bool → world loc → Prop) :
  (lockable m i idx prev = true → (0 < k)%nat →
     Q (inr true) (World (<[Ent i idx sequence := seq_lock pos]> m) o ws)) →
  (lockable m i idx prev = false → ∀ r, r ≠ inr true → Q r (World m o ws)) →
  ((k = 0)%nat → ∀ r, r ≠ inr true → Q r (World m o ws)) →
  returns (for_ k lo (m (Ent i idx sequence)) (λ _ observed,
    if negb (seq_is_locked observed) && (seq_pos observed =? prev) then
      '(ok, current) <- compare_exchange_weak (Ent i idx sequence) observed (seq_lock pos) ;;
      if ok : bool then Ret (inr true) else Ret (inl current)
    else if negb (seq_is_locked observed) then Ret (inr false)
    else
      observed <- load (Ent i idx sequence) ;;
      Ret (inl observed))) (World m o ws) Q.
Proof.
  revert lo. induction k as [|k IH]; intros lo Hyes Hno Hz; cbn [for_]; [step; by apply Hz|].
  fold (lockable m i idx prev) in *. destruct (lockable m i idx prev) eqn:El.
  - do 4 step. step. apply Hyes; [done|lia].
  - destruct (seq_is_locked (m (Ent i idx sequence))) eqn:Elock; cbn [negb].
    + do 4 step. apply IH; [done|by intros; apply Hno|intros; by apply Hno].
    + do 3 step. by apply Hno.
Qed.

Lemma returns_lock_entry i idx pos prev observed m o ws (Q : bool → world loc → Prop) :
  observed = m (Ent i idx sequence) ∨ (seq_is_locked observed = false ∧ seq_pos observed = prev) →
  (lockable m i idx prev = true →
     Q true (World (<[Ent i idx sequence := seq_lock pos]> m) o ws)) →
  (lockable m i idx prev = false → Q false (World m o ws)) →
  returns (Publisher.lock_entry i idx pos prev observed) (World m o ws) Q.
Proof.
  intros Hobs Hyes Hno. unfold Publisher.lock_entry.
  assert (∀ k lo, (0 < k)%nat → returns (for_ k lo (m (Ent i idx sequence)) (λ _ observed,
    if negb (seq_is_locked observed) && (seq_pos observed =? prev) then
      '(ok, current) <- compare_exchange_weak (Ent i idx sequence) observed (seq_lock pos) ;;
      if ok : bool then Ret (inr true) else Ret (inl current)
    else if negb (seq_is_locked observed) then Ret (inr false)
    else
      observed <- load (Ent i idx sequence) ;;
      Ret (inl observed))) (World m o ws)
    (λ r w', returns (match r with inl _ => Ret false | inr locked => Ret locked end) w' Q)) as Hloop.
  { intros k lo Hk. apply returns_lock_loop.
    - intros El _. step. auto.
    - intros El [z|[]] Hr; [step; auto|done|step; auto].
    - lia. }
  step. destruct Hobs as [->|[Hl Hp]]; [apply Hloop; lia|].
  assert (∃ k, 64%nat = S k ∧ (0 < k)%nat) as (k & -> & Hk) by (exists 63%nat; lia).
  cbn [for_]. rewrite Hl, Hp, Z.eqb_refl. cbn [negb andb].
  do 3 step.
  - do 3 step. apply Hyes. unfold lockable. by rewrite H, Hl, Hp, Z.eqb_refl.
  - step. by apply Hloop.
Qed.

(** ** The rest of a delivery *)

Lemma returns_wake_ring i m o ws (Q : bool → world loc → Prop) :
  (∀ b ws', Q b (World m o ws')) → returns (Publisher.wake_ring i) (World m o ws) Q.
Proof. intros HQ. unfold Publisher.wake_ring. steps; apply HQ. Qed.

(** The locations a delivery to ring [i] may change. *)
Definition touched (i : Z) (l : loc) : bool :=
  match l with
  | Ring j _ | Ent j _ _ => j =? i
  | Hdr free_top | Hdr steal_count => true
  | Slot _ refcount | Slot _ next_free => true
  | _ => false
  end.

(** Nothing but the ring and the pool changed, and no slot gained a reference. *)
Record confined (i : Z) m m' : Prop := {
  cf_frame : ∀ l, touched i l = false → m' l = m l;
  cf_refs : ∀ s, 0 <= s < pool_size g → m' (Slot s refcount) <= m (Slot s refcount)
}.

Lemma confined_refl i m : confined i m m.
Proof. by split. Qed.
Lemma confined_trans i m1 m2 m3 : confined i m1 m2 → confined i m2 m3 → confined i m1 m3.
Proof.
  intros [H1 R1] [H2 R2]. split.
  - intros l Hl. rewrite H2, H1; done.
  - intros s Hs. etrans; [by apply R2|by apply R1].
Qed.
Lemma confined_upd i m l v :
  touched i l = true → (∀ s, l ≠ Slot s refcount) → confined i m (<[l:=v]> m).
Proof. intros Hl Hr. split; intros; rewrite upd_ne; (done || congruence). Qed.

(** Two more lines of the accounting: the loop of a delivery. *)
Lemma returns_abandon i m o ws (Q : bool → world loc → Prop) :
  (∀ b ws' m', confined i m m' → (∀ l, accounted l = true → m' l = m l) →
     (∀ idx f, m' (Ent i idx f) = m (Ent i idx f)) → Q b (World m' o ws')) →
  returns (Publisher.abandon_delivery i) (World m o ws) Q.
Proof.
  intros HQ. unfold Publisher.abandon_delivery. steps. apply returns_wake_ring.
  intros b ws'. apply HQ.
  - eapply confined_trans; apply confined_upd; try done; cbn; apply Z.eqb_refl.
  - intros l Hl. rewrite !upd_ne; [done|..]; intros <-; discriminate.
  - intros idx f. by rewrite !upd_ne.
Qed.

Lemma confined_pool i m m' :
  pool_frame m m' → (∀ s, 0 <= s < pool_size g → m' (Slot s refcount) <= m (Slot s refcount)) →
  confined i m m'.
Proof. intros Hf Hr. split; [|done]. intros l Hl. apply Hf. by destruct l as [[]| | | | | |? []|]. Qed.

(** Give back the reference of a replaced claim. *)
Lemma returns_release_old i old m pins fl res o ws (Q : unit → world loc → Prop) :
  slots_ok g m pins fl res → (∀ s, 0 <= s < pool_size g → names old s <= pins s) →
  (∀ m' fl', slots_ok g m' (λ s, pins s - names old s) fl' res → pool_frame m m' → confined i m m' →
     Q tt (World m' o ws)) →
  returns (when (negb (meta_slot_biased old =? 0))
             (Publisher.release_slot g (u32 (meta_slot_biased old - 1)))) (World m o ws) Q.
Proof using Hg.
  intros Hok Hp HQ. pose proof (Z.mod_pos_bound old 16777216 ltac:(lia)) as Hb.
  rewrite <- meta_slot_biased_mod in Hb.
  assert ((∀ s, 0 <= s < pool_size g → names old s = 0) → Q tt (World m o ws)) as Hnone.
  { intros Hn. apply (HQ m fl); [|apply pool_frame_refl|apply confined_refl].
    eapply slots_ok_pins; [|exact Hok]. intros s Hs. cbn. rewrite Hn by done. lia. }
  step.
  - apply negb_true_iff, Z.eqb_neq in H. unfold Publisher.release_slot.
    rewrite u32_small by (unfold is_u32; lia). step.
    + step. apply Hnone. intros s Hs. apply Z.leb_le in E. unfold names.
      destruct (Z.eqb_spec (meta_slot_biased old) (s + 1)); lia.
    + apply Z.leb_gt in E. set (t := meta_slot_biased old - 1) in *.
      assert (names old t = 1) as Hn1 by (unfold names; by rewrite (proj2 (Z.eqb_eq _ _)) by lia).
      eapply returns_drop_reference; [done|exact Hok|lia|rewrite <- Hn1; apply Hp; lia|].
      intros m' fl' Hok' Hf Href. apply (HQ m' fl'); [|done|].
      * eapply slots_ok_pins; [|exact Hok']. intros s Hs. rewrite upd_dec. case_decide; subst.
        -- rewrite Hn1. done.
        -- unfold names. rewrite (proj2 (Z.eqb_neq _ _)) by lia. lia.
      * apply confined_pool; [done|]. intros s Hs. rewrite Href. case_decide; lia.
  - apply negb_false_iff, Z.eqb_eq in H. apply Hnone. intros s Hs. unfold names. rewrite H.
    destruct (Z.eqb_spec 0 (s + 1)); lia.
Qed.

(** Fetch and set a claim that precedes the position. *)
Lemma returns_take_claim i idx pos s m o ws (Q : option Z → world loc → Prop) :
  (meta_precedes (m (Ent i idx meta)) pos = true →
     Q (Some (m (Ent i idx meta))) (World (<[Ent i idx meta := meta_pack pos s]> m) o ws)) →
  (meta_precedes (m (Ent i idx meta)) pos = false → Q None (World m o ws)) →
  returns (Publisher.take_claim i idx pos s) (World m o ws) Q.
Proof.
  intros Hyes Hno. unfold Publisher.take_claim. do 3 step.
  destruct (meta_precedes (m (Ent i idx meta)) pos) eqn:E; cbn [negb]; [|step; by apply Hno].
  steps. by apply Hyes.
Qed.

(** One reference to [s]. *)
Definition one (s t : Z) : Z := if decide (s = t) then 1 else 0.

Lemma names_pack pos s t : 0 <= s < pool_size g → 0 <= t → names (meta_pack pos s) t = one s t.
Proof using Hg.
  intros Hs Ht. destruct Hg. change MAX_POOL_SIZE with 16777214 in *. unfold names, one.
  rewrite meta_slot_biased_pack by lia. destruct (Z.eqb_spec (s + 1) (t + 1)); case_decide; lia.
Qed.

(** What a committed delivery leaves of its ring. *)
Record committed_at (i idx pos s : Z) m m' : Prop := {
  ca_sequence : m' (Ent i idx sequence) = u64 (pos + 1);
  ca_meta : m' (Ent i idx meta) = meta_pack pos s;
  ca_entries : ∀ idx' f, idx' ≠ idx → m' (Ent i idx' f) = m (Ent i idx' f)
}.

Lemma returns_commit_entry p i idx pos s d m pins fl res o ws
    (Q : Publisher.delivery → world loc → Prop) :
  Publisher.pub_geometry p = g → slots_ok g m pins fl res →
  0 <= i < max_subs g → 0 <= idx < sub_ring_capacity g → 0 <= s < pool_size g → 1 <= pins s →
  m (Ent i idx sequence) = seq_lock pos →
  (meta_precedes (m (Ent i idx meta)) pos = true → ∀ m' fl' ws' woken,
     slots_ok g m' (λ t, pins t - one s t) fl' res → confined i m m' → committed_at i idx pos s m m' →
     m' (Ring i write_pos) = m (Ring i write_pos) →
     m' (Ring i state_flight) = u32 (m (Ring i state_flight) - 4) →
     Q (Publisher.committed d woken) (World m' o ws')) →
  (meta_precedes (m (Ent i idx meta)) pos = false → ∀ m' ws' woken,
     slots_ok g m' pins fl res → confined i m m' →
     Q (Publisher.abandoned d woken true) (World m' o ws')) →
  returns (Publisher.commit_entry p i idx pos s d) (World m o ws) Q.
Proof using Hg.
  intros Hp Hok Hi Hidx Hs Hpin Hlock Hyes Hno. unfold Publisher.commit_entry.
  do 2 step. rewrite Hlock, Z.eqb_refl. cbn [negb]. step.
  apply returns_take_claim; intros Hprec; lazy beta match.
  2: { step. apply returns_abandon. intros b ws' m' Hc Hacc _. step. apply Hno; [done| |done].
       eapply slots_ok_accounted; [exact Hacc|exact Hok]. }
  set (old := m (Ent i idx meta)) in *. rewrite Hp. step.
  eapply returns_release_old with (pins := λ t, pins t + names old t - names (meta_pack pos s) t).
  { apply slots_ok_transfer; [exact Hok|done|done|]. intros t Ht. rewrite names_pack by (done || lia).
    unfold one. case_decide; subst; [lia|]. destruct (so_ref _ _ _ _ _ Hok t Ht). lia. }
  { intros t Ht. rewrite names_pack by (done || lia). destruct (so_ref _ _ _ _ _ Hok t Ht) as (_ & ? & _).
    unfold one. case_decide; subst; lia. }
  intros m1 fl1 Hok1 Hf1 Hc1.
  assert (m1 (Ent i idx sequence) = seq_lock pos) as Hl1 by (rewrite Hf1 by done; by rewrite upd_ne).
  do 2 step; [|congruence]. cbn [negb]. do 3 step. apply returns_wake_ring. intros woken ws'. step.
  match goal with |- Q _ (World ?mm _ _) => set (m2 := mm) end.
  assert (m2 (Ent i idx sequence) = u64 (pos + 1)) as Hseq2 by (unfold m2; by rewrite upd_ne, upd_same).
  apply (Hyes Hprec m2 fl1).
  - do 2 (apply slots_ok_other; [done|]). eapply slots_ok_pins; [|exact Hok1].
    intros t Ht. cbn. rewrite names_pack by (done || lia). lia.
  - eapply confined_trans; [by apply (confined_upd i m (Ent i idx meta)); [cbn; lia|]|].
    eapply confined_trans; [exact Hc1|]. eapply confined_trans; apply confined_upd; try done; cbn; lia.
  - split; [done| |].
    + unfold m2. rewrite !upd_ne, Hf1 by done. apply upd_same.
    + intros idx' f Hne. unfold m2. rewrite !upd_ne, Hf1, upd_ne by (done || congruence). done.
  - unfold m2. rewrite !upd_ne, Hf1 by done. by rewrite upd_ne.
  - unfold m2. rewrite upd_same. rewrite !upd_ne, Hf1 by done. by rewrite upd_ne.
Qed.

(** ** One ring of [publish]

    Delivering one of the publisher's references: it is given to an entry, or
    counted in [excess]. *)

Inductive handed s pins (d : Publisher.delivery) : (Z → Z) → Publisher.delivery → Prop :=
  | handed_entry pins' d' : (∀ t, pins' t = pins t - one s t) →
      Publisher.excess d' = Publisher.excess d → handed s pins d pins' d'
  | handed_excess pins' d' : (∀ t, pins' t = pins t) →
      Publisher.excess d' = u32 (Publisher.excess d + 1) → handed s pins d pins' d'.

(** The entry the next delivery to ring [i] goes to takes it. *)
Record ring_open m (i : Z) : Prop := {
  ro_live : ring.get_state (m (Ring i state_flight)) = ring.Live;
  ro_flight : is_u32 (m (Ring i state_flight));
  ro_pos : is_pos (m (Ring i write_pos) + 1);
  ro_idle : m (Ent i (m (Ring i write_pos) `mod` sub_ring_capacity g) sequence) =
            Z.max 0 (m (Ring i write_pos) - sub_ring_capacity g + 1);
  ro_older : meta_precedes (m (Ent i (m (Ring i write_pos) `mod` sub_ring_capacity g) meta))
               (m (Ring i write_pos)) = true
}.

(** What the delivery then does to it. *)
Record ring_appended m m' (i s : Z) : Prop := {
  ra_committed : committed_at i (m (Ring i write_pos) `mod` sub_ring_capacity g)
                   (m (Ring i write_pos)) s m m';
  ra_pos : m' (Ring i write_pos) = m (Ring i write_pos) + 1;
  ra_state : m' (Ring i state_flight) = m (Ring i state_flight)
}.

Lemma returns_enter_ring i m o ws (Q : bool → world loc → Prop) :
  (ring.get_state (m (Ring i state_flight)) = ring.Live →
     Q true (World (<[Ring i state_flight := u32 (m (Ring i state_flight) + 4)]> m) o ws)) →
  (ring.get_state (m (Ring i state_flight)) ≠ ring.Live → Q false (World m o ws)) →
  returns (Publisher.enter_ring i) (World m o ws) Q.
Proof.
  intros Hyes Hno. unfold Publisher.enter_ring. do 2 step.
  destruct (Z.eqb_spec (ring.get_state (m (Ring i state_flight))) ring.Live) as [E|E]; cbn [negb].
  - step. rewrite (proj2 (Z.eqb_eq _ _) E). cbn [negb]. do 3 step. by apply Hyes.
  - step. by apply Hno.
Qed.

Lemma returns_signal_before_wait p i idx prev d m o ws (Q : Publisher.delivery → world loc → Prop) :
  (∀ d' o', os_tick o' = os_tick o → (d' = d ∨ d' = Publisher.signalled d) → Q d' (World m o' ws)) →
  returns (Publisher.signal_before_wait p i idx prev d) (World m o ws) Q.
Proof. intros HQ. unfold Publisher.signal_before_wait. steps; apply HQ; auto. Qed.

Lemma returns_self_repair i idx pos capacity wait m o ws (Q : unit → world loc → Prop) :
  (∀ m', (∀ l, accounted l = true → m' l = m l) → confined i m m' → Q tt (World m' o ws)) →
  returns (Publisher.self_repair i idx pos capacity wait) (World m o ws) Q.
Proof.
  intros HQ. unfold Publisher.self_repair. do 2 step. cbn zeta. step; [step; by apply HQ; [|apply confined_refl]|].
  unfold entry_steal_and_skip. steps; apply HQ; try done.
  - intros l Hl. rewrite !upd_ne; [done|..]; intros <-; discriminate.
  - repeat (eapply confined_trans; [|apply confined_upd; [cbn; lia|done]]). apply confined_refl.
Qed.

Definition delivery_post m m' (i s : Z) (d d' : Publisher.delivery) : Prop :=
  (ring_open m i → ring_appended m m' i s ∧ Publisher.delivered d' = Publisher.delivered d + 1 ∧
     Publisher.drops d' = Publisher.drops d) ∧
  (ring.get_state (m (Ring i state_flight)) ≠ ring.Live → m' = m ∧ d' = Publisher.refused d).

Lemma returns_deliver p i s d m pins fl res o ws (Q : Publisher.delivery → world loc → Prop) :
  Publisher.pub_geometry p = g → slots_ok g m pins fl res →
  0 <= i < max_subs g → 0 <= s < pool_size g → 1 <= pins s → 0 < os_tick o →
  (∀ d' pins' m' fl' o' ws', handed s pins d pins' d' → slots_ok g m' pins' fl' res →
     confined i m m' → os_tick o' = os_tick o → delivery_post m m' i s d d' →
     Q d' (World m' o' ws')) →
  returns (Publisher.deliver p i s d) (World m o ws) Q.
Proof using Hg.
  intros Hp Hok Hi Hs Hpin Htick HQ. unfold Publisher.deliver. step.
  apply returns_enter_ring; intros Hst; cbn [negb].
  2: { step. eapply HQ; [by apply handed_excess|done|apply confined_refl|done|].
       split; [intros Ho; by destruct Ho|done]. }
  unfold Publisher.deliver_admitted. rewrite Hp. do 2 step.
  set (m1 := <[Ring i state_flight := _]> m). set (pos := m1 (Ring i write_pos)).
  assert (pos = m (Ring i write_pos)) as Epos by (unfold pos, m1; by rewrite upd_ne).
  set (m2 := <[Ring i write_pos := u64 (pos + 1)]> m1).
  set (idx := Z.land pos (sub_ring_mask g)). pose proof (entry_index g pos Hg) as Hidx. fold idx in Hidx.
  assert (slots_ok g m2 pins fl res) as Hok2 by (by do 2 (apply slots_ok_other; [done|])).
  assert (confined i m m2) as Hc2.
  { eapply confined_trans; apply confined_upd; try done; cbn; lia. }
  assert (∀ j f, m2 (Ent i j f) = m (Ent i j f)) as He2 by (intros; unfold m2, m1; by rewrite !upd_ne).
  set (prev := if sub_ring_capacity g <=? pos then _ else 0).
  step. apply (returns_mono _ _ (λ '(wait, d1) w, ∃ o1, w = World m2 o1 ws ∧ os_tick o1 = os_tick o ∧
    (d1 = d ∨ d1 = Publisher.signalled d) ∧
    let observed := if sub_ring_capacity g <=? pos then Publisher.last_seq wait else 0 in
    observed = m2 (Ent i idx sequence) ∨ (seq_is_locked observed = false ∧ seq_pos observed = prev))).
  { step.
    - step. apply returns_signal_before_wait. intros d1 o1 Ho1 Hd1. step.
      apply returns_wait_for_commit; [lia|]. intros w o2 Ho2 Hw _. step.
      exists o2. split; [done|]. split; [congruence|]. split; [done|]. by left.
    - step. exists o. split; [done|]. split; [done|]. split; [by left|]. right. split; [done|].
      subst prev. done. }
  intros [wait d1] w (o1 & -> & Ho1 & Hd1 & Hobs). cbn beta zeta iota in Hobs |- *.
  assert (Publisher.excess d1 = Publisher.excess d ∧ Publisher.delivered d1 = Publisher.delivered d ∧
    Publisher.drops d1 = Publisher.drops d) as (He1 & Hdl1 & Hdr1) by (by destruct Hd1 as [-> | ->]).
  clear Hd1. step.
  assert (ring_open m i → lockable m2 i idx prev = true ∧ meta_precedes (m (Ent i idx meta)) pos = true)
    as Hopen.
  { intros [_ _ Hpos Hseq Hold]. subst idx prev. rewrite entry_of_pos, Epos in * by done.
    split; [|done]. unfold lockable. rewrite He2, Hseq. pose proof (capacity_pos g Hg).
    unfold is_pos in Hpos. rewrite seq_is_locked_ltb, seq_pos_mod by word.
    change SEQ_LOCK_BIT with 9223372036854775808. change SEQ_REPAIR_BIT with 4611686018427387904.
    destruct (Z.leb_spec (sub_ring_capacity g) (m (Ring i write_pos))); word. }
  apply returns_lock_entry; [done|intros Hlock|intros Hlock]; cbn [negb].
  2: { step. apply returns_self_repair. intros m3 Hacc3 Hc3. step.
       apply returns_abandon. intros woken ws' m4 Hc4 Hacc4 _. step.
       eapply HQ; [apply handed_excess| | | |].
       - done.
       - cbn. by rewrite He1.
       - eapply slots_ok_accounted; [exact Hacc4|]. eapply slots_ok_accounted; [exact Hacc3|done].
       - eapply confined_trans; [exact Hc2|]. by eapply confined_trans.
       - done.
       - split; [|done]. intros [? _]%Hopen. congruence. }
  set (m3 := <[Ent i idx sequence := seq_lock pos]> m2).
  assert (slots_ok g m3 pins fl res) as Hok3 by (by apply slots_ok_other).
  assert (confined i m m3) as Hc3.
  { eapply confined_trans; [exact Hc2|]. apply confined_upd; [cbn; lia|done]. }
  eapply returns_commit_entry; [done|exact Hok3|done|done|done|done|apply upd_same|..].
  - intros _ m' fl' ws' woken Hok' Hc' Hat Hwp Hsf.
    eapply HQ; [by apply handed_entry|exact Hok'|by eapply confined_trans|done|].
    split; [|done]. intros Ho. pose proof Ho as [_ Hfl Hpos _ _]. cbn. rewrite Hdl1, Hdr1. split; [|done].
    assert (idx = m (Ring i write_pos) `mod` sub_ring_capacity g) as Eidx.
    { subst idx. by rewrite entry_of_pos, Epos. }
    split.
    + rewrite <- Eidx, <- Epos. destruct Hat as [H1 H2 H3]. split; [done|done|].
      intros j f Hj. rewrite H3 by done. unfold m3. rewrite upd_ne by congruence. apply He2.
    + rewrite Hwp. unfold m3, m2. rewrite upd_ne, upd_same by done. rewrite Epos. unfold is_pos in Hpos. word.
    + rewrite Hsf. unfold m3, m2, m1. rewrite !upd_ne, upd_same by done. word.
  - intros Hno m' ws' woken Hok' Hc'. eapply HQ; [apply handed_excess|exact Hok'|by eapply confined_trans|done|].
    + done.
    + cbn. by rewrite He1.
    + split; [|done]. intros [_ Hold]%Hopen. unfold m3 in Hno. rewrite upd_ne, He2 in Hno by done. congruence.
Qed.

(** ** A whole [publish] *)

(** Ring [i] as it was. *)
Definition ring_same m m' (i : Z) : Prop :=
  (∀ f, m' (Ring i f) = m (Ring i f)) ∧ (∀ idx f, m' (Ent i idx f) = m (Ent i idx f)).

Lemma ring_same_trans m1 m2 m3 i : ring_same m1 m2 i → ring_same m2 m3 i → ring_same m1 m3 i.
Proof. intros [H1 H2] [H3 H4]. split; intros; congruence. Qed.
Lemma ring_same_confined j i m m' : confined j m m' → i ≠ j → ring_same m m' i.
Proof. intros [Hf _] Hne. split; intros; apply Hf; cbn; lia. Qed.

Lemma ring_open_same m m' i : ring_same m m' i → ring_open m i → ring_open m' i.
Proof. intros [Hr He] []. split; by rewrite ?He, ?Hr. Qed.
Lemma ring_appended_same m1 m2 m3 i s :
  ring_same m2 m3 i → ring_appended m1 m2 i s → ring_appended m1 m3 i s.
Proof.
  intros [Hr He] [[] ? ?]. split; [split|..]; intros; rewrite ?He, ?Hr; auto.
Qed.
Lemma ring_appended_from m1 m2 m3 i s :
  ring_same m1 m2 i → ring_appended m2 m3 i s → ring_appended m1 m3 i s.
Proof.
  intros [Hr He] [[] Hp ?]. rewrite Hr in *. split; [split|..]; intros; rewrite <- ?He; auto.
Qed.

Definition live m (i : Z) : bool := ring.get_state (m (Ring i state_flight)) =? ring.Live.

(** What publishing slot [s] does to ring [i]. *)
Definition ring_result m m' (i s : Z) : Prop :=
  (ring_open m i → ring_appended m m' i s) ∧ (live m i = false → ring_same m m' i).
(** The next delivery to ring [i] succeeds, or is not attempted. *)
Definition settled m (i : Z) : Prop := ring_open m i ∨ live m i = false.

Lemma settled_same m m' i : ring_same m m' i → settled m i → settled m' i.
Proof.
  intros Hs [Ho|Hl]; [left; by eapply ring_open_same|right].
  unfold live in *. by rewrite (proj1 Hs).
Qed.

(** The rings below [n] that are live. *)
Definition live_rings m (n : Z) : list Z := filter (λ i, live m i = true) (upto n).

Lemma live_rings_S m n : 0 <= n →
  Z.of_nat (length (live_rings m (n + 1))) =
  Z.of_nat (length (live_rings m n)) + (if live m n then 1 else 0).
Proof.
  intros Hn. unfold live_rings. rewrite upto_S, filter_app, length_app by done.
  rewrite filter_cons, filter_nil. destruct (live m n); cbn [length]; [rewrite decide_True by done|rewrite decide_False by done]; cbn [length]; lia.
Qed.

(** Locations a publisher of slot [s] may change, ring by ring. *)
Definition published_loc (s : Z) (l : loc) : bool :=
  match l with
  | Ring _ _ | Ent _ _ _ => true
  | Slot t payload_len => t =? s
  | _ => touched 0 l
  end.

(** Everything [publish] leaves behind. *)
Record publish_post m m' (s len : Z) : Prop := {
  pp_ring : ∀ i, 0 <= i < max_subs g → ring_result m m' i s;
  pp_len : m' (Slot s payload_len) = u32 len;
  pp_frame : ∀ l, published_loc s l = false → m' l = m l;
  pp_refs : ∀ t, 0 <= t < pool_size g → t ≠ s → m' (Slot t refcount) <= m (Slot t refcount);
  pp_refs_s : m' (Slot s refcount) <= max_subs g
}.

(** The loop over the rings, after the first [i]. *)
Record publishing m pins res s (dropped i : Z) m' pins' fl' (d : Publisher.delivery) : Prop := {
  pb_ok : slots_ok g m' pins' fl' res;
  pb_pins : ∀ t, pins' t = pins t + (max_subs g - i + Publisher.excess d) * one s t;
  pb_excess : 0 <= Publisher.excess d <= i;
  pb_done : ∀ j, 0 <= j < i → ring_result m m' j s;
  pb_todo : ∀ j, i <= j → ring_same m m' j;
  pb_frame : ∀ l, published_loc s l = false → m' l = m l;
  pb_len : m' (Slot s payload_len) = m (Slot s payload_len);
  pb_refs : ∀ t, 0 <= t < pool_size g → m' (Slot t refcount) <= m (Slot t refcount);
  pb_count : (∀ j, 0 <= j < i → settled m j) →
    Publisher.delivered d = Z.of_nat (length (live_rings m i)) ∧ Publisher.drops d = dropped
}.

Lemma publishing_step m pins res s dropped i m1 pins1 fl1 d1 m2 pins2 fl2 d2 :
  publishing m pins res s dropped i m1 pins1 fl1 d1 → 0 <= i < max_subs g →
  handed s pins1 d1 pins2 d2 → slots_ok g m2 pins2 fl2 res → confined i m1 m2 →
  delivery_post m1 m2 i s d1 d2 → publishing m pins res s dropped (i + 1) m2 pins2 fl2 d2.
Proof using Hg.
  intros [Hok Hpins He Hdone Htodo Hf Hlen Hrefs Hcount] Hi Hh Hok2 Hc [Hopen Hdead].
  pose proof (Htodo i ltac:(lia)) as Hsame.
  assert (max_subs g <= 65535) as Hm by (by destruct Hg as [_ [_ ?] _ _ _]).
  split.
  - done.
  - intros t. inversion Hh as [? ? Hp E|? ? Hp E]; subst; rewrite Hp, Hpins, E; [|rewrite u32_small by word]; lia.
  - inversion Hh as [? ? Hp E|? ? Hp E]; subst; rewrite E; [|rewrite u32_small by word]; lia.
  - intros j Hj. destruct (decide (j = i)) as [->|Hne].
    + split.
      * intros Ho. eapply ring_appended_from; [exact Hsame|]. apply Hopen. by eapply ring_open_same.
      * intros Hl. destruct Hdead as [-> _]; [|done]. rewrite (proj1 Hsame). by apply Z.eqb_neq.
    + pose proof (ring_same_confined i j _ _ Hc Hne) as Hs2.
      destruct (Hdone j ltac:(lia)) as [Ha Hd]. split.
      * intros Ho. eapply ring_appended_same; [exact Hs2|auto].
      * intros Hl. eapply ring_same_trans; [|exact Hs2]. auto.
  - intros j Hj. eapply ring_same_trans; [apply Htodo; lia|]. apply (ring_same_confined i); [done|lia].
  - intros l Hl. rewrite (cf_frame _ _ _ Hc); [by apply Hf|].
    destruct l as [[]| | | | | |? []|]; cbn in *; congruence || done.
  - rewrite (cf_frame _ _ _ Hc) by done. done.
  - intros t Ht. etrans; [by apply (cf_refs _ _ _ Hc)|auto].
  - intros Hset. destruct Hcount as [Hn Hd]; [intros j Hj; apply Hset; lia|].
    rewrite live_rings_S by lia. pose proof (settled_same _ _ _ Hsame (Hset i ltac:(lia))) as [Ho|Hl].
    + destruct (Hopen Ho) as (_ & -> & ->). destruct Ho as [Ho _ _ _ _]. unfold live.
      rewrite <- (proj1 Hsame), (proj2 (Z.eqb_eq _ _) Ho). lia.
    + destruct Hdead as [-> ->]; [by apply Z.eqb_neq|]. cbn.
      unfold live in *. rewrite (proj1 Hsame) in Hl. rewrite Hl. lia.
Qed.

Lemma returns_release_excess s n m pins fl res o ws (Q : unit → world loc → Prop) :
  slots_ok g m pins fl res → 0 <= s < pool_size g → 0 <= n <= pins s →
  (∀ m' fl', slots_ok g m' (λ t, pins t - n * one s t) fl' res → pool_frame m m' →
     (∀ t, m' (Slot t refcount) <= m (Slot t refcount)) → Q tt (World m' o ws)) →
  returns (Publisher.release_excess s n) (World m o ws) Q.
Proof using Hg.
  intros Hok Hs Hn HQ. unfold Publisher.release_excess. destruct (Z.ltb_spec 0 n).
  - eapply returns_drop_references; [done|exact Hok|done|lia|]. intros m' fl' Hok' Hf Hr.
    apply (HQ m' fl'); [|done|].
    + eapply slots_ok_pins; [|exact Hok']. intros t Ht. unfold one. rewrite upd_dec.
      case_decide; subst; lia.
    + intros t. rewrite Hr. case_decide; lia.
  - step. apply (HQ m fl); [|apply pool_frame_refl|done].
    eapply slots_ok_pins; [|exact Hok]. intros t Ht. cbn. replace n with 0 by lia. lia.
Qed.

Lemma ring_same_upd m l v i : (∀ f, l ≠ Ring i f) → (∀ idx f, l ≠ Ent i idx f) → ring_same m (<[l:=v]> m) i.
Proof. intros Hr He. split; intros; by rewrite upd_ne by auto. Qed.
Lemma ring_same_pool m m' i : pool_frame m m' → ring_same m m' i.
Proof. intros Hf. split; intros; by apply Hf. Qed.

Lemma ring_result_around m1 m2 m3 m4 i s :
  ring_same m1 m2 i → ring_same m3 m4 i → ring_result m2 m3 i s → ring_result m1 m4 i s.
Proof.
  intros H12 H34 [Ho Hd]. split.
  - intros Hop. eapply ring_appended_same; [exact H34|]. eapply ring_appended_from; [exact H12|].
    apply Ho. by eapply ring_open_same.
  - intros Hl. eapply ring_same_trans; [exact H12|]. eapply ring_same_trans; [|exact H34].
    apply Hd. unfold live in *. by rewrite (proj1 H12).
Qed.

Lemma returns_publish p len m pins fl res o ws (Q : Z * Publisher.publisher → world loc → Prop) :
  Publisher.pub_geometry p = g → Publisher.pending_slot_ p ≠ INVALID_SLOT →
  len <= slot_data_size g → slots_ok g m pins fl (Publisher.pending_slot_ p :: res) → 0 < os_tick o →
  (∀ n drops m' fl' o' ws', slots_ok g m' pins fl' res →
     publish_post m m' (Publisher.pending_slot_ p) len → os_tick o' = os_tick o →
     ((∀ i, 0 <= i < max_subs g → settled m i) →
        n = Z.of_nat (length (live_rings m (max_subs g))) ∧ drops = Publisher.dropped_ p) →
     Q (n, Publisher.set_dropped (Publisher.set_pending p INVALID_SLOT) drops) (World m' o' ws')) →
  returns (Publisher.publish p len) (World m o ws) Q.
Proof using Hg.
  intros Hp Hpend Hlen Hok Htick HQ. unfold Publisher.publish. rewrite Hp.
  assert (1 <= max_subs g <= 65535) as Hms by (by destruct Hg as [_ [? ?] _ _ _]).
  rewrite (proj2 (Z.ltb_ge _ _) Hlen), (proj2 (Z.eqb_neq _ _) Hpend). cbn zeta.
  set (s := Publisher.pending_slot_ p) in *.
  assert (0 <= s < pool_size g) as Hs by (apply (so_res _ _ _ _ _ Hok); set_solver).
  do 4 step. set (m1 := <[Slot s refcount := _]> _).
  assert (m1 (Slot s refcount) = max_subs g) as Hr1 by (unfold m1; rewrite upd_same; word).
  assert (slots_ok g m1 (<[s := max_subs g]> pins) fl res) as Hok1.
  { unfold m1. rewrite u32_small by word. apply slots_ok_preset; [|lia]. by apply slots_ok_other. }
  assert (∀ t, (<[s := max_subs g]> pins) t = pins t + max_subs g * one s t) as Hp1.
  { intros t. unfold one. rewrite upd_dec. case_decide; [subst t|lia].
    destruct (slots_ok_idle _ _ _ _ _ s Hok Hs) as [_ ->]; [set_solver|lia]. }
  assert (∀ i, ring_same m m1 i) as Hsame1.
  { intros i. eapply ring_same_trans; by apply ring_same_upd. }
  step. eapply (returns_foreach _ _ _ _ _ (λ i d w', ∃ m' pins' fl' o' ws', w' = World m' o' ws' ∧
    os_tick o' = os_tick o ∧ publishing m1 pins res s (Publisher.dropped_ p) i m' pins' fl' d)).
  - exists m1, (<[s := max_subs g]> pins), fl, o, ws. split; [done|]. split; [done|].
    split; try done; cbn; try lia. intros t. rewrite Hp1. lia.
  - intros i d w Hi (m2 & pins2 & fl2 & o2 & ws2 & -> & Ho2 & Hpb). pose proof Hpb as [Hok2 Hpins2 He2 _ _ _ _ _ _].
    rewrite Z2Nat.id in Hi by lia.
    eapply returns_deliver; [done|exact Hok2|lia|done| |lia|].
    { rewrite Hpins2. unfold one. rewrite decide_True by done.
      assert (pins s = 0) as -> by (apply (slots_ok_idle _ _ _ _ _ s Hok Hs); set_solver). nia. }
    intros d' pins' m' fl' o' ws' Hh Hok' Hc Ho' Hpost. exists m', pins', fl', o', ws'.
    split; [done|]. split; [congruence|]. eapply publishing_step; [exact Hpb|lia|done..].
  - intros d w (m2 & pins2 & fl2 & o2 & ws2 & -> & Ho2 & Hpb). rewrite Z2Nat.id in Hpb by lia.
    destruct Hpb as [Hok2 Hpins2 He2 Hdone2 _ Hf2 Hlen2 Hrefs2 Hcount2].
    assert (Publisher.excess d <= pins2 s) as Hle.
    { rewrite Hpins2. unfold one. rewrite decide_True by done.
      destruct (so_ref _ _ _ _ _ Hok s Hs) as (_ & ? & _). lia. }
    step. eapply returns_release_excess; [exact Hok2|done|lia|]. intros m3 fl3 Hok3 Hf3 Hrefs3.
    assert (slots_ok g m3 pins fl3 res) as Hok3'.
    { eapply slots_ok_pins; [|exact Hok3]. intros t Ht. cbn. rewrite Hpins2. lia. }
    assert (publish_post m m3 s len) as Hpost.
    { split.
      - intros i Hi. eapply ring_result_around; [apply Hsame1|by apply ring_same_pool|by apply Hdone2].
      - rewrite Hf3, Hlen2 by done. unfold m1. by rewrite upd_ne, upd_same.
      - intros l Hl. rewrite Hf3, Hf2 by (done || by destruct l as [[]| | | | | |? []|]).
        unfold m1. rewrite !upd_ne; [done|intros <-; cbn in Hl; lia..].
      - intros t Ht Hne. etrans; [apply Hrefs3|]. etrans; [by apply Hrefs2|].
        unfold m1. rewrite !upd_ne by congruence. done.
      - etrans; [apply Hrefs3|]. etrans; [by apply Hrefs2|]. lia. }
    do 2 step; [do 2 step|step]; eapply HQ; try done; intros Hset; apply Hcount2; intros j Hj;
      (eapply settled_same; [apply Hsame1|by apply Hset]).
Qed.

(** ** [send] *)

(** The reservations [res], the publisher's pending one in front. *)
Definition reserves (p : Publisher.publisher) (res : list Z) : list Z :=
  if Publisher.pending_slot_ p =? INVALID_SLOT then res else Publisher.pending_slot_ p :: res.

(** The slots an [allocate] of [p] can take. *)
Definition available (p : Publisher.publisher) fl : list Z :=
  if Publisher.pending_slot_ p =? INVALID_SLOT then fl else Publisher.pending_slot_ p :: fl.

Lemma same_references m m' pins fl fl' res res' t :
  slots_ok g m pins fl res → slots_ok g m' pins fl' res' →
  (∀ i idx, m' (Ent i idx meta) = m (Ent i idx meta)) → 0 <= t < pool_size g →
  m' (Slot t refcount) = m (Slot t refcount).
Proof.
  intros Hok Hok' He Ht. destruct (so_ref _ _ _ _ _ Hok t Ht) as [-> _].
  destruct (so_ref _ _ _ _ _ Hok' t Ht) as [-> _]. by rewrite (claims_ext g m m').
Qed.

Lemma returns_release_pending p m pins fl res o ws (Q : Publisher.publisher → world loc → Prop) :
  slots_ok g m pins fl (reserves p res) →
  (∀ m', slots_ok g m' pins (available p fl) res → pool_frame m m' →
     (m' = m ∨ Publisher.pending_slot_ p ≠ INVALID_SLOT) →
     Q (Publisher.set_pending p INVALID_SLOT) (World m' o ws)) →
  returns (Publisher.release_pending p) (World m o ws) Q.
Proof using Hg.
  unfold reserves, available, Publisher.release_pending.
  destruct (Z.eqb_spec (Publisher.pending_slot_ p) INVALID_SLOT) as [E|E]; intros Hok HQ; cbn [negb].
  - step. replace p with (Publisher.set_pending p INVALID_SLOT).
    + apply HQ; [done|apply pool_frame_refl|by left].
    + destruct p; cbn in *; unfold Publisher.set_pending; cbn. by rewrite E.
  - step. eapply returns_push_reserved; [done|exact Hok|]. intros m' Hok' Hf. step.
    apply HQ; [done|done|by right].
Qed.

(** [p] after another [allocate]. *)
Definition renumbered (p : Publisher.publisher) (s : Z) : Publisher.publisher :=
  Publisher.set_pending (Publisher.set_reservation p (u64 (Publisher.reservation_ p + 1))) s.

Definition slot_of (p : Publisher.publisher) (s : Z) : Publisher.AllocatedSlot :=
  {| Publisher.publisher_ := true; Publisher.data_ := s;
     Publisher.max_size_ := slot_data_size (Publisher.pub_geometry p);
     Publisher.id_ := u64 (Publisher.reservation_ p + 1); Publisher.published_ := false |}.

Lemma returns_allocate p m pins fl res o ws
    (Q : Publisher.AllocatedSlot * Publisher.publisher → world loc → Prop) :
  Publisher.pub_geometry p = g → slots_ok g m pins fl (reserves p res) →
  (available p fl = [] → Q (Publisher.null_slot, renumbered p INVALID_SLOT) (World m o ws)) →
  (∀ s fl' m', available p fl = s :: fl' → slots_ok g m' pins fl' (s :: res) → pool_frame m m' →
     0 <= s < pool_size g → Q (slot_of p s, renumbered p s) (World m' o ws)) →
  returns (Publisher.allocate p) (World m o ws) Q.
Proof using Hg.
  intros Hp Hok Hnone Hsome. unfold Publisher.allocate. step.
  eapply returns_release_pending; [exact Hok|]. intros m1 Hok1 Hf1 Hsame. cbn zeta. step.
  unfold Publisher.set_reservation at 1. cbn [Publisher.pub_geometry Publisher.set_pending]. rewrite Hp.
  eapply returns_pop_reserve; [done|exact Hok1|..].
  - intros Hnil. rewrite Z.eqb_refl. step. destruct Hsame as [->|Hpend]; [by apply Hnone|].
    unfold available in Hnil. by rewrite (proj2 (Z.eqb_neq _ _)) in Hnil by done.
  - intros s fl' m' Hav Hok' Hf' Hs. assert (pool_size g <= 16777214) by (by destruct Hg).
    rewrite (proj2 (Z.eqb_neq s _)) by (unfold INVALID_SLOT; lia). step.
    cbn [Publisher.reservation_ Publisher.set_reservation Publisher.set_pending Publisher.pub_geometry].
    unfold slot_of, renumbered in Hsome. eapply Hsome; [done|done|by eapply pool_frame_trans|done].
Qed.

(** What a successful [send] of [data] in slot [s] leaves. *)
Definition sent_loc (s : Z) (l : loc) : bool :=
  match l with SlotByte t _ => t =? s | _ => published_loc s l end.

Record sent m m' (s : Z) (data : list Z) : Prop := {
  sn_ring : ∀ i, 0 <= i < max_subs g → ring_result m m' i s;
  sn_len : m' (Slot s payload_len) = Z.of_nat (length data);
  sn_bytes : load_list (SlotByte s) 0 (length data) m' = data;
  sn_frame : ∀ l, sent_loc s l = false → m' l = m l;
  sn_refs : ∀ t, 0 <= t < pool_size g → t ≠ s → m' (Slot t refcount) <= m (Slot t refcount);
  sn_refs_s : m' (Slot s refcount) <= max_subs g
}.

#[export] Instance SlotByte_inj s : Inj (=) (=) (SlotByte s).
Proof. by intros ?? [=]. Qed.

Lemma sent_of_publish m m1 m' s data pins fl fl' res res' :
  let m2 := store_list (SlotByte s) 0 data m1 in
  slots_ok g m pins fl res → slots_ok g m1 pins fl' res' → pool_frame m m1 →
  is_u32 (Z.of_nat (length data)) → publish_post m2 m' s (Z.of_nat (length data)) → sent m m' s data.
Proof.
  intros m2 Hok Hok1 Hf Hlen [Hring Hl Hfr Hrefs Hrs].
  assert (∀ l, (∀ j, l ≠ SlotByte s j) → m2 l = m1 l) as Hm2.
  { intros l Hne. unfold m2. rewrite store_list_other; [done|auto]. }
  split.
  - intros i Hi. eapply ring_result_around; [|by split|by apply Hring].
    split; intros; by rewrite Hm2, Hf.
  - by rewrite Hl, u32_small.
  - rewrite (load_list_ext _ _ _ m' m2).
    + unfold m2. apply load_store_list. apply _.
    + intros j _. by apply Hfr.
  - intros l Hls. rewrite Hfr, Hm2, Hf; [done|..].
    + by destruct l as [[]| | | | | |? []|].
    + intros j ->. cbn in Hls. lia.
    + destruct l; cbn in *; done.
  - intros t Ht Hne. etrans; [by apply Hrefs|]. rewrite Hm2 by done.
    rewrite (same_references m m1) with (1:=Hok) (2:=Hok1); [done|intros; by apply Hf|done].
  - done.
Qed.

(** The three outcomes of [send]. *)
Lemma returns_send p data m pins fl res o ws (Q : Z * Publisher.publisher → world loc → Prop) :
  Publisher.pub_geometry p = g → slot_data_size g <= MAX_PAYLOAD_SIZE →
  slots_ok g m pins fl (reserves p res) → 0 < os_tick o →
  (slot_data_size g < Z.of_nat (length data) → Q (- Publisher.EMSGSIZE, p) (World m o ws)) →
  (Z.of_nat (length data) <= slot_data_size g → available p fl = [] →
     Q (- Publisher.EAGAIN, renumbered p INVALID_SLOT) (World m o ws)) →
  (∀ s fl' drops m' o' ws', Z.of_nat (length data) <= slot_data_size g →
     s ∈ available p fl → slots_ok g m' pins fl' res → sent m m' s data → os_tick o' = os_tick o →
     ((∀ i, 0 <= i < max_subs g → settled m i) → drops = Publisher.dropped_ p) →
     Q (Z.of_nat (length data), Publisher.set_dropped (renumbered p INVALID_SLOT) drops)
       (World m' o' ws')) →
  returns (Publisher.send p data) (World m o ws) Q.
Proof using Hg.
  change MAX_PAYLOAD_SIZE with 2147483647. intros Hp Hsize Hok Htick Hbig Hfull HQ.
  unfold Publisher.send. rewrite Hp. cbn zeta.
  destruct (Z.ltb_spec (slot_data_size g) (Z.of_nat (length data))); [step; by apply Hbig|].
  step. eapply returns_allocate; [done|exact Hok|..].
  - intros Hnil. cbn. step. by apply Hfull.
  - intros s fl1 m1 Hav Hok1 Hf1 Hs. lazy beta iota.
    assert (Publisher.valid (slot_of p s) (renumbered p s) = true) as Hv.
    { unfold Publisher.valid. cbn. apply Z.eqb_refl. }
    rewrite Hv. cbn [negb]. step. unfold Publisher.slot_write. rewrite Hv. cbn [negb orb Publisher.max_size_ slot_of].
    rewrite Hp, (proj2 (Z.ltb_ge _ _)) by done. step. apply returns_memcpy_in. do 2 step.
    unfold Publisher.slot_publish. rewrite Hv. cbn [negb]. step. cbn [set_mem w_mem w_os w_wakes Publisher.data_ slot_of].
    assert (s ≠ INVALID_SLOT) as Hne.
    { assert (pool_size g <= 16777214) by (by destruct Hg). unfold INVALID_SLOT. lia. }
    eapply returns_publish; [done|exact Hne|done| |done|].
    { cbn. eapply slots_ok_accounted; [|exact Hok1]. intros l Hl. apply store_list_other. intros j _ ->. done. }
    intros n drops m' fl' o' ws' Hok' Hpost Ho' Hset. step.
    unfold Publisher.slot_destroy, Publisher.valid. cbn. steps.
    replace (i32 (Z.of_nat (length data))) with (Z.of_nat (length data)) by (unfold i32; lia).
    eapply (HQ s); [done|rewrite Hav; set_solver|exact Hok'| |done|].
    + eapply sent_of_publish; [exact Hok|exact Hok1|done|unfold is_u32; lia|done].
    + intros Hsett. apply Hset. intros i Hi. eapply settled_same; [|by apply Hsett].
      split; intros; rewrite store_list_other by (by intros); by apply Hf1.
Qed.
End delivery.

(** ** Properties *)

(** C13. Whatever state crashed or stalled peers left the rings in, a [send] by a
    process that runs alone ends, in one of three ways: the payload is refused as
    too long and nothing changes; no slot is free, nothing changes and nothing is
    counted as dropped; or the sample is in a slot, every live ring in order has
    it appended and committed, and every slot is still accounted for. *)
Theorem send_outcome g p data m pins fl res o ws :
  pool_geometry g → Publisher.pub_geometry p = g → slot_data_size g <= MAX_PAYLOAD_SIZE →
  slots_ok g m pins fl (reserves p res) → 0 < os_tick o →
  let len := Z.of_nat (length data) in
  returns (Publisher.send p data) (World m o ws) (λ '(r, p') w',
    (r = - Publisher.EMSGSIZE ∧ slot_data_size g < len ∧ p' = p ∧ w' = World m o ws) ∨
    (r = - Publisher.EAGAIN ∧ len <= slot_data_size g ∧ available p fl = [] ∧
       Publisher.dropped_ p' = Publisher.dropped_ p ∧ w' = World m o ws) ∨
    (r = len ∧ len <= slot_data_size g ∧ Publisher.pending_slot_ p' = INVALID_SLOT ∧
       ∃ s fl', s ∈ available p fl ∧ slots_ok g (w_mem w') pins fl' res ∧ sent g m (w_mem w') s data)).
Proof.
  intros Hg Hp Hsize Hok Htick len. eapply returns_send; [done..| | |].
  - intros Hbig. by left.
  - intros Hfit Hnone. right. left. done.
  - intros s fl' drops m' o' ws' Hfit Hs Hok' Hsent _ _. right. right.
    split; [done|]. split; [done|]. split; [done|]. eauto.
Qed.

(** *** Example: a ring whose next entry is locked by a publisher that died *)

Definition tiny_publisher : Publisher.publisher := Publisher.make_publisher tiny false.
Definition busy_os : os := Os 0 1000 1700 7 (λ _, None) 0.
Definition wedged_mem : loc → Z :=
  <[Ring 0 state_flight := 5]> (<[Ring 0 write_pos := 1]> (<[Ent 0 0 sequence := seq_lock 0]> tiny_mem)).

Lemma wedged_ok : slots_ok tiny wedged_mem (λ _, 0) [0; 1] (reserves tiny_publisher []).
Proof. repeat (apply slots_ok_other; [done|]). apply tiny_free. Qed.

Lemma send_outcome_witness :
  returns (Publisher.send tiny_publisher [1; 2; 3]) (World wedged_mem busy_os [])
    (λ '(r, p') w', ∃ fl', slots_ok tiny (w_mem w') (λ _, 0) fl' [] ∨ r < 0).
Proof.
  eapply returns_mono.
  - refine (send_outcome tiny tiny_publisher [1; 2; 3] wedged_mem (λ _, 0) [0; 1] [] busy_os []
      tiny_geometry eq_refl _ wedged_ok eq_refl). vm_compute. congruence.
  - cbv zeta. intros [r p'] w' [(-> & _)|[(-> & _)|(_ & _ & _ & s & fl' & _ & Hok & _)]].
    + exists []. by right.
    + exists []. by right.
    + exists fl'. by left.
Defined.
End Delivery.
