(* ===== verification/Reception.v ===== *)
(** * What a subscriber reads from its ring

    [window] describes the entries of a ring as the last positions of a history
    of samples.  Against it, a publisher's delivery appends to the history, and
    [try_receive] returns its next sample, or skips to the oldest one still in
    the ring and counts what it skipped. *)

From S2P Require Import Prelude Prog Types Layout Words Pool Slots Publisher Subscriber Delivery.
Import Types Layout Pool Slots Delivery.

Module Reception.
Section reception.
Context (g : Geometry) (Hg : pool_geometry g) (Hcap : sub_ring_capacity g < 549755813888).
Implicit Types (m : loc → Z) (o : os) (ws : list loc) (pins : Z → Z) (fl res : list Z).
Implicit Types (i p wp start : Z) (hist : Z → list Z).
Abbreviation cap := (sub_ring_capacity g).

(** ** The window of a ring *)

(** Position [p] of ring [i] is slot [s], which holds [data]. *)
Record carries m i p s (data : list Z) : Prop := {
  cr_slot : 0 <= s < pool_size g;
  cr_meta : m (Ent i (p `mod` cap) meta) = meta_pack p s;
  cr_refs : m (Slot s refcount) < U32_MAX;
  cr_len : m (Slot s payload_len) = Z.of_nat (length data);
  cr_fits : Z.of_nat (length data) <= slot_data_size g;
  cr_bytes : load_list (SlotByte s) 0 (length data) m = data
}.

(** Ring [i] was written up to [wp]; its entries hold the last positions, those
    from [start] on with their samples. *)
Record window m i start wp hist : Prop := {
  wn_pos : m (Ring i write_pos) = wp;
  wn_start : 0 <= start <= wp;
  wn_sequence : ∀ p, wp - cap <= p < wp → m (Ent i (p `mod` cap) sequence) = Z.max 0 (p + 1);
  wn_older : ∀ p, wp - cap <= p < wp → meta_precedes (m (Ent i (p `mod` cap) meta)) (p + cap) = true;
  wn_sample : ∀ p, start <= p → wp - cap <= p < wp → ∃ s, carries m i p s (hist p)
}.

Lemma mod_window p q : 0 < cap → 0 < q - p < cap → p `mod` cap ≠ q `mod` cap.
Proof using Type.
  clear. intros Hc Hd E. pose proof (Z.div_mod p cap). pose proof (Z.div_mod q cap).
  assert (q - p = cap * (q `div` cap - p `div` cap)) as Ed by lia.
  destruct (Z.le_gt_cases (q `div` cap - p `div` cap) 0); nia.
Qed.

Lemma window_open m i start wp hist :
  window m i start wp hist → live m i = true → is_u32 (m (Ring i state_flight)) →
  is_pos (wp + 1) → ring_open g m i.
Proof using Hg.
  intros [Hpos Hst Hseq Hold _] Hl Hu Hp. pose proof (capacity_pos g Hg) as Hc.
  assert (wp `mod` cap = (wp - cap) `mod` cap) as Emod.
  { rewrite <- (Z_mod_plus_full (wp - cap) 1 cap). f_equal. lia. }
  split; rewrite ?Hpos, ?Emod; [by apply Z.eqb_eq|done|done| |].
  - rewrite Hseq by lia. done.
  - replace wp with (wp - cap + cap) at 2 by lia. apply Hold. lia.
Qed.

(** Only the slots a ring references matter to its window. *)
Lemma carries_sent m m' i p s t data' data :
  carries m i p s data → m' (Ent i (p `mod` cap) meta) = m (Ent i (p `mod` cap) meta) →
  s ≠ t → sent g m m' t data' → carries m' i p s data.
Proof using Type.
  clear. intros [] He Hne [_ _ _ Hf Hr _]. split; try done.
  - congruence.
  - pose proof (Hr s cr_slot0 Hne). lia.
  - rewrite Hf; [done|cbn; lia].
  - rewrite (load_list_ext _ _ _ m' m); [done|]. intros j _. apply Hf. cbn. lia.
Qed.

Lemma sent_carries m m' i wp s data :
  sent g m m' s data → 0 <= s < pool_size g → Z.of_nat (length data) <= slot_data_size g →
  m' (Ent i (wp `mod` cap) meta) = meta_pack wp s → carries m' i wp s data.
Proof using Hg.
  intros [] Hs Hd Hm. split; try done. destruct Hg as [_ [_ Hsubs] _ _ _].
  change MAX_SUBSCRIBERS with 65535 in Hsubs. lia.
Qed.

(** A slot with a claim is not available to a publisher. *)
Lemma carries_claimed m pins fl res i start wp hist p s :
  slots_ok g m pins fl res → window m i start wp hist → 0 <= i < max_subs g →
  start <= p → wp - cap <= p < wp → carries m i p s (hist p) → (s ∉ fl) ∧ (s ∉ res).
Proof using Hg.
  intros Hok Hw Hi Hp Hpw [Hs Hm _ _ _ _]. pose proof (capacity_pos g Hg) as Hc.
  assert (1 <= claims g m s) as Hcl.
  { pose proof (claims_upd_meta g m i (p `mod` cap) 0 s Hi ltac:(lia)) as E.
    pose proof (claims_nonneg g (<[Ent i (p `mod` cap) meta := 0]> m) s) as Hnn.
    rewrite Hm, (names_pack g Hg) in E by (done || lia). unfold one in E. rewrite decide_True in E by done.
    replace (names 0 s) with 0 in E; [lia|]. unfold names. change (meta_slot_biased 0) with 0.
    rewrite (proj2 (Z.eqb_neq _ _)); lia. }
  split; intros Hin; destruct (slots_ok_idle _ _ _ _ _ s Hok Hs) as [? _]; auto; lia.
Qed.

Lemma window_same m m' i start wp hist :
  window m i start wp hist → ring_same m m' i →
  (∀ p s, start <= p → wp - cap <= p < wp → carries m i p s (hist p) → carries m' i p s (hist p)) →
  window m' i start wp hist.
Proof using Type.
  clear. intros [] [Hr He] Hc. split; intros; rewrite ?Hr, ?He; auto.
  destruct (wn_sample0 p) as [s Hs]; [done..|]. eauto.
Qed.

(** A delivery appends its sample. *)
Lemma window_appended m m' i start wp hist s data :
  window m i start wp hist → ring_appended g m m' i s → is_pos (wp + cap + 1) →
  0 <= s < pool_size g → carries m' i wp s data →
  (∀ p t, start <= p → wp - cap < p < wp → carries m i p t (hist p) → carries m' i p t (hist p)) →
  window m' i start (wp + 1) (<[wp := data]> hist).
Proof using Hg Hcap.
  intros [Hpos Hst Hseq Hold Hsm] [[Hs1 Hm1 He1] Hp1 _] Hb Hs Hnew Hkeep.
  pose proof (capacity_pos g Hg) as Hc. unfold is_pos in Hb. rewrite Hpos in *.
  assert (∀ p, wp - cap < p < wp → p `mod` cap ≠ wp `mod` cap) as Hne.
  { intros p Hp. apply mod_window; lia. }
  split.
  - done.
  - lia.
  - intros p Hp. destruct (decide (p = wp)) as [->|Hnp].
    + rewrite Hs1. word.
    + rewrite He1 by (apply Hne; lia). apply Hseq. lia.
  - intros p Hp. destruct (decide (p = wp)) as [->|Hnp].
    + rewrite Hm1, meta_precedes_tag by (rewrite meta_tag_pack; lia).
      rewrite meta_tag_pack, !u64_small, Zminus_mod_idemp_l by word.
      apply Z.leb_le. replace (wp + 1 - (wp + cap + 1)) with (- cap) by lia. lia.
    + rewrite He1 by (apply Hne; lia). apply Hold. lia.
  - intros p Hps Hp. destruct (decide (p = wp)) as [->|Hnp].
    + rewrite fn_lookup_insert. eauto.
    + rewrite fn_lookup_insert_ne by done. destruct (Hsm p) as [t Ht]; [lia..|].
      exists t. apply Hkeep; [lia..|done].
Qed.

(** ** Receiving from a window *)

(** The memory after a reader has skipped [n] samples. *)
Definition skipped m i (n : Z) : loc → Z :=
  if 0 <? n then <[Ring i lost_count := u64 (m (Ring i lost_count) + n)]> m else m.

(** The position read next. *)
Definition next_pos (s : Subscriber.subscriber) wp : Z := Z.max (Subscriber.read_pos_ s) (wp - cap).

Lemma skipped_ne m i n l : l ≠ Ring i lost_count → skipped m i n l = m l.
Proof using Type. clear. intros Hl. unfold skipped. destruct (0 <? n); [by rewrite upd_ne|done]. Qed.

Lemma skipped_slots_ok m i n pins fl res : slots_ok g m pins fl res → slots_ok g (skipped m i n) pins fl res.
Proof using Type.
  clear. apply slots_ok_accounted. intros l Hl. apply skipped_ne. by intros ->.
Qed.

(** A window is the same in a memory that agrees on what it reads: of the rings'
    words, the write positions only. *)
Definition windowed (l : loc) : bool :=
  match l with Ring _ write_pos => true | Ring _ _ => false | _ => true end.

Lemma carries_ext m m' i p s data :
  (∀ l, windowed l = true → m' l = m l) → carries m i p s data → carries m' i p s data.
Proof using Type.
  clear. intros Hm []. split; rewrite ?Hm by done; try done.
  erewrite load_list_ext; [done|]. intros. by apply Hm.
Qed.

Lemma window_ext m m' i start wp hist :
  (∀ l, windowed l = true → m' l = m l) → window m i start wp hist → window m' i start wp hist.
Proof using Type.
  clear. intros Hm []. split; intros; rewrite ?Hm by done; auto.
  destruct (wn_sample0 p) as [t Ht]; [done..|]. exists t. by eapply carries_ext.
Qed.

Lemma skipped_windowed m i n l : windowed l = true → skipped m i n l = m l.
Proof using Type. clear. intros Hl. apply skipped_ne. by intros ->. Qed.

Lemma returns_pin t m o ws (Q : bool → world loc → Prop) :
  0 < m (Slot t refcount) → m (Slot t refcount) < U32_MAX →
  Q true (World (<[Slot t refcount := m (Slot t refcount) + 1]> m) o ws) →
  returns (Subscriber.pin t) (World m o ws) Q.
Proof using Type.
  clear. intros Hpos Hmax HQ. unfold Subscriber.pin. do 3 step.
  rewrite (proj2 (Z.ltb_lt _ _)), (proj2 (Z.eqb_neq _ _)) by lia. cbn [negb andb]. do 3 step. done.
Qed.

Lemma returns_resync s i m o ws wp (Q : Subscriber.subscriber → world loc → Prop) :
  Subscriber.sub_geometry s = g → Subscriber.ring_idx_ s = i →
  is_u64 (Subscriber.lost_ s) →
  (let r := next_pos s wp in
   Q (Subscriber.set_read s r (u64 (Subscriber.lost_ s + (r - Subscriber.read_pos_ s))))
     (World (skipped m i (r - Subscriber.read_pos_ s)) o ws)) →
  returns (Subscriber.resync s wp) (World m o ws) Q.
Proof using Type.
  clear. intros Hsg Hi Hl HQ. unfold Subscriber.resync. rewrite Hsg, Hi. cbn zeta in *.
  unfold next_pos, skipped in HQ. destruct (Z.ltb_spec cap (wp - Subscriber.read_pos_ s)).
  - rewrite Z.max_r in HQ by lia. rewrite (proj2 (Z.ltb_lt _ _)) in HQ by lia.
    do 3 step. replace (wp - Subscriber.read_pos_ s - cap) with (wp - cap - Subscriber.read_pos_ s) by lia. done.
  - rewrite Z.max_l, Z.sub_diag, Z.add_0_r, u64_small in HQ by (done || lia). step.
    by destruct s.
Qed.

Section read.
Context (s : Subscriber.subscriber) (i start wp : Z) (hist : Z → list Z).
Context (Hsg : Subscriber.sub_geometry s = g) (Hring : Subscriber.ring_idx_ s = i).
Context (Hi : 0 <= i < max_subs g) (Hpos : is_pos (wp + 1)).
Context (Hread : start <= Subscriber.read_pos_ s <= wp) (Hlost : is_u64 (Subscriber.lost_ s)).

(** The view of position [r] in slot [t], and the reader after it. *)
Definition view_at (t r : Z) : Subscriber.SampleView :=
  {| Subscriber.view_slot_idx_ := t; Subscriber.view_len_ := Z.of_nat (length (hist r));
     Subscriber.view_ring_pos_ := r |}.
Definition read_upto (s : Subscriber.subscriber) (r : Z) : Subscriber.subscriber :=
  Subscriber.set_read s (r + 1) (u64 (Subscriber.lost_ s + (r - Subscriber.read_pos_ s))).

(** A pinned sample of the window. *)
Definition pinned m (t : Z) : loc → Z :=
  <[Slot t refcount := m (Slot t refcount) + 1]> m.

Lemma returns_try_receive_view m pins fl res o ws
    (Q : option Subscriber.SampleView * Subscriber.subscriber → world loc → Prop) :
  slots_ok g m pins fl res → window m i start wp hist →
  (Subscriber.read_pos_ s = wp → Q (None, s) (World m o ws)) →
  (∀ t, let r := next_pos s wp in let m' := skipped m i (r - Subscriber.read_pos_ s) in
     Subscriber.read_pos_ s < wp → carries m' i r t (hist r) →
     slots_ok g (pinned m' t) (<[t := pins t + 1]> pins) fl res →
     Q (Some (view_at t r), read_upto s r) (World (pinned m' t) o ws)) →
  returns (Subscriber.try_receive_view s) (World m o ws) Q.
Proof using Hg Hsg Hring Hi Hpos Hread Hlost.
  intros Hok Hw Hnone Hsome. pose proof (capacity_pos g Hg) as Hc.
  assert (max_subs g <= 65535) as Hms by (by destruct Hg as [_ [_ ?] _ _ _]).
  unfold Subscriber.try_receive_view. rewrite Hring, (proj2 (Z.eqb_neq i _)) by lia. step.
  change 64%nat with (S 63). apply returns_for_turn.
  unfold Subscriber.receive_turn. rewrite Hring. do 2 step. rewrite (wn_pos _ _ _ _ _ Hw).
  destruct (Z.leb_spec wp (Subscriber.read_pos_ s)).
  - do 2 step. apply Hnone. lia.
  - step. apply returns_resync with (i:=i); [done..|]. cbn zeta.
    set (r := next_pos s wp) in *. set (m1 := skipped m i (r - Subscriber.read_pos_ s)).
    assert (start <= r ∧ wp - cap <= r < wp) as [Hsr Hrw] by (unfold r, next_pos; lia).
    pose proof (wn_start _ _ _ _ _ Hw) as Hst. unfold is_pos in Hpos.
    assert (slots_ok g m1 pins fl res) as Hok1 by (by apply skipped_slots_ok).
    destruct (wn_sample _ _ _ _ _ Hw r Hsr Hrw) as [t Ht].
    assert (carries m1 i r t (hist r)) as Ht1.
    { by apply (carries_ext m); [intros; by apply skipped_windowed|]. }
    do 2 step. cbn [Subscriber.set_read Subscriber.read_pos_ Subscriber.ring_idx_ Subscriber.sub_geometry].
    rewrite Hring, Hsg, entry_of_pos by done.
    assert (m1 (Ent i (r `mod` cap) sequence) = r + 1) as Hseq.
    { unfold m1. rewrite skipped_ne by done. rewrite (wn_sequence _ _ _ _ _ Hw) by lia. lia. }
    rewrite Hseq. unfold Subscriber.read_head. rewrite u64_small by word. rewrite Z.eqb_refl.
    step. unfold Subscriber.read_committed. cbn [Subscriber.set_read Subscriber.ring_idx_ Subscriber.sub_geometry Subscriber.read_pos_].
    rewrite Hring, Hsg. do 2 step. destruct Ht1 as [Hts Htm Htr Htl Htf Htb] eqn:E; clear E. rewrite Htm.
    assert (Subscriber.check_claim g r (meta_pack r t) = Some t) as ->.
    { assert (pool_size g <= 16777214) by (by destruct Hg). unfold Subscriber.check_claim.
      rewrite meta_slot_biased_pack by lia. rewrite meta_tag_mask, meta_tag_pack, Z.eqb_refl.
      rewrite (proj2 (Z.eqb_neq _ _)), (proj2 (Z.leb_gt _ _)) by lia. cbn. f_equal. lia. }
    assert (0 < m1 (Slot t refcount)) as Hrc.
    { destruct (carries_claimed m1 pins fl res i start wp hist r t) as [Hnf Hnr]; try done.
      - by apply (window_ext m); [intros; by apply skipped_windowed|].
      - destruct (so_ref _ _ _ _ _ Hok1 t Hts) as (Hrf & ? & ?).
        pose proof (claims_nonneg g m1 t). pose proof (so_idle _ _ _ _ _ Hok1 t Hts) as Hid.
        assert (m1 (Slot t refcount) ≠ 0) by tauto. lia. }
    step. apply returns_pin; [done|done|]. cbn [negb]. do 2 step. rewrite upd_ne, Hseq, Z.eqb_refl by done.
    cbn [negb]. do 2 step. rewrite upd_ne, Htl by done. rewrite (proj2 (Z.ltb_ge _ _)) by done.
    step. do 2 step. cbn [Subscriber.set_read Subscriber.lost_ Subscriber.read_pos_].
    rewrite (u64_small (r + 1)) by word. apply (Hsome t); [lia|done|].
    apply slots_ok_pin; [done..|]. apply Z.lt_neq, Htr.
Qed.

(** [try_receive]: the sample is copied out, and the pin given back. *)
Definition ref_at (r : Z) : Subscriber.SampleRef :=
  {| Subscriber.ref_data_ := Some (hist r); Subscriber.ref_len_ := Z.of_nat (length (hist r));
     Subscriber.ref_ring_pos_ := r |}.

Lemma returns_unpin m pins fl res t o ws (Q : unit → world loc → Prop) :
  slots_ok g m pins fl res → 0 <= t < pool_size g →
  slots_ok g (pinned m t) (<[t := pins t + 1]> pins) fl res →
  Q tt (World m o ws) → returns (drop_reference t) (World (pinned m t) o ws) Q.
Proof using Type.
  clear. intros Hok Ht Hokp HQ. unfold drop_reference, pinned.
  assert (m (Slot t refcount) ≠ 0) as Hne.
  { rewrite (so_idle _ _ _ _ _ Hok t Ht). intros Hin.
    apply (so_idle _ _ _ _ _ Hokp t Ht) in Hin. unfold pinned in Hin. rewrite upd_same in Hin.
    destruct (so_ref _ _ _ _ _ Hok t Ht) as (Hrc & ? & ?). pose proof (claims_nonneg g m t). lia. }
  destruct (so_ref _ _ _ _ _ Hok t Ht) as (Hrc & ? & ?). pose proof (claims_nonneg g m t).
  do 2 step. rewrite upd_same. step; [lia|]. rewrite upd_upd, upd_id; [done|].
  rewrite Z.add_simpl_r. symmetry. apply u32_small. unfold is_u32. lia.
Qed.

Lemma returns_try_receive m pins fl res o ws
    (Q : option Subscriber.SampleRef * Subscriber.subscriber → world loc → Prop) :
  slots_ok g m pins fl res → window m i start wp hist →
  (Subscriber.read_pos_ s = wp → Q (None, s) (World m o ws)) →
  (let r := next_pos s wp in Subscriber.read_pos_ s < wp →
     Z.of_nat (length (hist r)) <= slot_data_size g →
     Q (Some (ref_at r),
        Subscriber.set_buf (read_upto s r) (Subscriber.fill (Subscriber.recv_buf_ s) (hist r)))
       (World (skipped m i (r - Subscriber.read_pos_ s)) o ws)) →
  returns (Subscriber.try_receive s) (World m o ws) Q.
Proof using Hg Hsg Hring Hi Hpos Hread Hlost.
  intros Hok Hw Hnone Hsome. unfold Subscriber.try_receive. step.
  eapply returns_try_receive_view; [exact Hok|done|intros E; step; by apply Hnone|].
  intros t r m' Hlt Hcr Hokp. step. unfold Subscriber.view_bytes. cbn [Subscriber.view_slot_idx_ view_at].
  apply returns_memcpy_out. cbn [w_mem Subscriber.view_len_ view_at]. rewrite Nat2Z.id.
  assert (load_list (SlotByte t) 0 (length (hist r)) (pinned m' t) = hist r) as ->.
  { rewrite (load_list_ext _ _ _ _ m'); [apply Hcr|]. intros. unfold pinned. by rewrite upd_ne. }
  step. unfold Subscriber.view_release. cbn [Subscriber.view_slot_idx_ view_at].
  assert (pool_size g <= 16777214) by (by destruct Hg). pose proof (cr_slot _ _ _ _ _ Hcr).
  rewrite (proj2 (Z.eqb_neq t _)) by (unfold INVALID_SLOT; lia). step.
  eapply returns_unpin; [by apply skipped_slots_ok|done|exact Hokp|].
  do 2 step. apply Hsome; [done|apply Hcr].
Qed.
End read.
End reception.
End Reception.
