(* ===== verification/Membership.v ===== *)
(** * Joining and leaving a ring, by a process that has the region to itself

    The constructor claims the first free ring at its write position; release
    waits for no one, drops the claims of the ring's window and frees it. *)

From S2P Require Import Prelude Prog Types Layout Words Process Pool Slots Publisher Subscriber Delivery.
From S2P Require Import Reception.
Import Types Layout Pool Slots Delivery Reception.

Module Membership.
Section membership.
Context (g : Geometry) (Hg : pool_geometry g).
Implicit Types (m : loc → Z) (o : os) (ws : list loc) (pins : Z → Z) (fl res : list Z).
Implicit Types (i p wp start : Z) (hist : Z → list Z).
Abbreviation cap := (sub_ring_capacity g).

(** ** Joining *)

Definition own_starttime o : Z :=
  (if os_pid o =? 0 then (0, false) else default (0, false) (os_procs o (os_pid o))).1.

(** The memory after a process took ring [i]. *)
Definition taken m o i : loc → Z :=
  <[Ring i owner_pid := os_pid o]> (<[Ring i owner_starttime := own_starttime o]>
    (<[Ring i state_flight := ring.make_packed ring.Live 0]> m)).

(** The subscriber that took it. *)
Definition joined m i : Subscriber.subscriber :=
  {| Subscriber.sub_geometry := g; Subscriber.ring_idx_ := i;
     Subscriber.start_pos_ := m (Ring i write_pos); Subscriber.read_pos_ := m (Ring i write_pos);
     Subscriber.lost_ := 0; Subscriber.drain_timeouts_ := 0;
     Subscriber.recv_buf_ := replicate (Z.to_nat (slot_data_size g)) 0; Subscriber.waker_ := None |}.

Lemma taken_ne m o i l :
  l ≠ Ring i state_flight → l ≠ Ring i owner_pid → l ≠ Ring i owner_starttime → taken m o i l = m l.
Proof. intros. unfold taken. by rewrite !upd_ne. Qed.

Lemma taken_windowed m o i l : windowed l = true → taken m o i l = m l.
Proof. intros Hl. apply taken_ne; by intros ->. Qed.

Lemma returns_join_ring i m o ws (Q : option (Z * Z) → world loc → Prop) :
  (m (Ring i state_flight) = ring.make_packed ring.Free 0 →
     Q (Some (m (Ring i write_pos), m (Ring i write_pos))) (World (taken m o i) o ws)) →
  (m (Ring i state_flight) ≠ ring.make_packed ring.Free 0 → Q None (World m o ws)) →
  returns (Subscriber.join_ring i) (World m o ws) Q.
Proof.
  intros Hyes Hno. unfold Subscriber.join_ring, Process.process_starttime. do 4 step.
  - cbn [negb]. repeat step. unfold taken, own_starttime in Hyes.
    destruct (if os_pid o =? 0 then _ else _) as [st ex]. steps. rewrite !upd_ne, Z.ltb_irrefl by done. by apply Hyes.
  - cbn [negb]. step. by apply Hno.
Qed.

Lemma wp_make_subscriber m o ws (Q : outcome Subscriber.subscriber → world loc → Prop) :
  (∀ i, 0 <= i < max_subs g → m (Ring i state_flight) = ring.make_packed ring.Free 0 →
     Q (Val (joined m i)) (World (taken m o i) o ws)) →
  ((∀ i, 0 <= i < max_subs g → m (Ring i state_flight) ≠ ring.make_packed ring.Free 0) →
     Q (Exc (Exn runtime_error "No free subscriber slots")) (World m o ws)) →
  wp (Subscriber.make_subscriber g) (World m o ws) Q.
Proof using Hg.
  intros Hyes Hno. unfold Subscriber.make_subscriber.
  assert (1 <= max_subs g) as Hms by (by destruct Hg as [_ [? _] _ _ _]).
  step. apply (returns_for _ _ _ _ _ (λ lo _ w, w = World m o ws ∧
    ∀ j, 0 <= j < lo → m (Ring j state_flight) ≠ ring.make_packed ring.Free 0)).
  - split; [done|lia].
  - intros i [] w Hi [-> Hbusy]. step. apply returns_join_ring; intros Hst.
    + do 2 step. apply Hyes; [lia|done].
    + step. split; [done|]. intros j Hj. destruct (decide (j = i)) as [->|]; [done|apply Hbusy; lia].
  - intros [] w [-> Hbusy]. step. apply Hno. intros i Hi. apply Hbusy. lia.
Qed.

(** ** Leaving *)

(** What releasing ring [i] may change: the ring's words, its claims' slots, the
    pool. *)
Definition released_loc i (l : loc) : bool :=
  match l with
  | Ring j f => (j =? i) && negb (bool_decide (f = write_pos))
  | Ent j _ meta => j =? i
  | Hdr free_top => true
  | Slot _ refcount | Slot _ next_free => true
  | _ => false
  end.

Record drained i m m' : Prop := {
  dr_frame : ∀ l, released_loc i l = false → m' l = m l;
  dr_tag : ∀ idx, meta_tag (m' (Ent i idx meta)) = meta_tag (m (Ent i idx meta));
  dr_refs : ∀ t, 0 <= t < pool_size g → m' (Slot t refcount) <= m (Slot t refcount)
}.

Lemma drained_refl i m : drained i m m.
Proof. by split. Qed.
Lemma drained_trans i m1 m2 m3 : drained i m1 m2 → drained i m2 m3 → drained i m1 m3.
Proof.
  intros [] []. split.
  - intros l Hl. rewrite dr_frame1, dr_frame0; done.
  - congruence.
  - intros t Ht. etrans; eauto.
Qed.
Lemma drained_upd i m f v : f ≠ write_pos → drained i m (<[Ring i f := v]> m).
Proof.
  intros Hf. split; intros; rewrite ?upd_ne; try done.
  intros <-. cbn in *. rewrite Z.eqb_refl, bool_decide_eq_false_2 in * by done. done.
Qed.

Lemma returns_drain_entry i pos m pins fl res o ws (Q : unit → world loc → Prop) :
  slots_ok g m pins fl res → (∀ s, 0 <= s < pool_size g → 0 <= pins s) → 0 <= i < max_subs g →
  (∀ m' fl', slots_ok g m' pins fl' res → drained i m m' → Q tt (World m' o ws)) →
  returns (Subscriber.drain_entry g i pos) (World m o ws) Q.
Proof using Hg.
  intros Hok Hpin Hi HQ. unfold Subscriber.drain_entry. do 2 step. cbn zeta.
  set (idx := Z.land pos (sub_ring_mask g)). pose proof (entry_index g pos Hg) as Hidx. fold idx in Hidx.
  set (w := m (Ent i idx meta)). pose proof (Z.mod_pos_bound w 16777216 ltac:(lia)) as Hb.
  rewrite <- meta_slot_biased_mod in Hb. step; [step; eapply HQ; [exact Hok|apply drained_refl]|].
  apply orb_false_iff in E as [E1%Z.eqb_neq E2%Z.leb_gt]. set (t := meta_slot_biased w - 1) in *.
  assert (∀ s, names (Z.ldiff w META_SLOT_MASK) s = 0 ∨ s < 0) as Hn0.
  { intros s. unfold names. rewrite meta_cleared_slot. destruct (Z.eqb_spec 0 (s + 1)); lia. }
  do 2 step; [|done]. step.
  - eapply returns_drop_reference; [done| |unfold t; lia| |].
    { apply slots_ok_transfer; [exact Hok|done|done|]. intros s Hs.
      destruct (Hn0 s) as [->|]; [auto|lia]. }
    { fold w. destruct (Hn0 t) as [->|?]; [|lia]. unfold names. rewrite (proj2 (Z.eqb_eq _ _)) by lia.
      pose proof (Hpin t). lia. }
    intros m' fl' Hok' Hf Hr. apply (HQ m' fl').
    + eapply slots_ok_pins; [|exact Hok']. intros s Hs. rewrite upd_dec. fold w.
      destruct (Hn0 s) as [Hs0|?]; [|lia]. case_decide as Ets; [subst s|]; rewrite Hs0.
      * unfold names. rewrite (proj2 (Z.eqb_eq _ _)) by lia. lia.
      * unfold names. rewrite (proj2 (Z.eqb_neq _ _)) by lia. lia.
    + split.
      * intros l Hl. rewrite Hf; [apply upd_ne; intros <-; cbn in Hl; lia|by destruct l as [[]| | | | | |? []|]].
      * intros j. rewrite Hf by done. rewrite upd_dec. case_decide as Ej; [|done].
        injection Ej as <-. apply meta_cleared_tag.
      * intros s Hs. rewrite Hr, upd_ne by done. case_decide; lia.
  - congruence.
Qed.

(** A ring at rest: its owner live or nobody's, no delivery in flight. *)
Lemma returns_set_ring_state i state m o ws (Q : unit → world loc → Prop) :
  Q tt (World (<[Ring i state_flight := ring.with_state (m (Ring i state_flight)) state]> m) o ws) →
  returns (Subscriber.set_ring_state i state) (World m o ws) Q.
Proof. intros HQ. unfold Subscriber.set_ring_state. steps. exact HQ. Qed.

Lemma returns_quiesce i deadline m o ws (Q : bool → world loc → Prop) :
  ring.get_in_flight (m (Ring i state_flight)) = 0 →
  (∀ o', os_tick o' = os_tick o → Q true (World m o' ws)) →
  returns (Subscriber.quiesce i deadline) (World m o ws) Q.
Proof.
  intros Hf HQ. unfold Subscriber.quiesce. do 5 step. rewrite Hf. step; [step; by apply HQ|done].
Qed.

Lemma returns_drain_unconsumed s m pins fl res o ws (Q : unit → world loc → Prop) :
  Subscriber.sub_geometry s = g → slots_ok g m pins fl res →
  (∀ t, 0 <= t < pool_size g → 0 <= pins t) → 0 <= Subscriber.ring_idx_ s < max_subs g →
  (∀ m' fl', slots_ok g m' pins fl' res → drained (Subscriber.ring_idx_ s) m m' → Q tt (World m' o ws)) →
  returns (Subscriber.drain_unconsumed s) (World m o ws) Q.
Proof using Hg.
  intros Hsg Hok Hpin Hi HQ. unfold Subscriber.drain_unconsumed. rewrite Hsg. do 3 step.
  { step. eapply HQ; [exact Hok|apply drained_refl]. }
  apply (returns_foreach _ _ _ _ _ (λ _ _ w, ∃ m' fl', w = World m' o ws ∧
    slots_ok g m' pins fl' res ∧ drained (Subscriber.ring_idx_ s) m m')).
  - exists m, fl. split; [done|]. split; [done|]. apply drained_refl.
  - intros pos [] w _ (m1 & fl1 & -> & Hok1 & Hd1). eapply returns_drain_entry; [exact Hok1|done|done|].
    intros m' fl' Hok' Hd'. exists m', fl'. split; [done|]. split; [done|]. by eapply drained_trans.
  - intros [] w (m1 & fl1 & -> & Hok1 & Hd1). by apply (HQ m1 fl1).
Qed.

(** Leaving a live ring nobody is delivering to. *)
Lemma returns_release_ring s m pins fl res o ws (Q : Subscriber.subscriber → world loc → Prop) :
  Subscriber.sub_geometry s = g → slots_ok g m pins fl res →
  (∀ t, 0 <= t < pool_size g → 0 <= pins t) → 0 <= Subscriber.ring_idx_ s < max_subs g →
  m (Ring (Subscriber.ring_idx_ s) state_flight) = ring.make_packed ring.Live 0 →
  (∀ m' fl' o', slots_ok g m' pins fl' res → drained (Subscriber.ring_idx_ s) m m' →
     m' (Ring (Subscriber.ring_idx_ s) state_flight) = ring.make_packed ring.Free 0 →
     os_tick o' = os_tick o → Q (Subscriber.set_ring s Subscriber.NO_RING) (World m' o' ws)) →
  returns (Subscriber.release_ring s) (World m o ws) Q.
Proof using Hg.
  intros Hsg Hok Hpin Hi Hlive HQ. unfold Subscriber.release_ring.
  assert (max_subs g <= 65535) as Hms by (by destruct Hg as [_ [_ ?] _ _ _]).
  rewrite (proj2 (Z.eqb_neq _ _)) by lia. cbn zeta. step. set (i := Subscriber.ring_idx_ s) in *.
  apply returns_set_ring_state. step. apply returns_quiesce; [by rewrite upd_same, Hlive|].
  intros o' Ho'. lazy beta iota zeta. step. unfold clear_owner. do 5 step.
  eapply returns_bind, returns_bind, returns_drain_unconsumed; [done| |done|done|].
  { repeat (apply slots_ok_other; [done|]). exact Hok. }
  intros m' fl' Hok' Hd'. do 2 step. eapply HQ.
  - apply slots_ok_other; [done|exact Hok'].
  - eapply drained_trans; [|by apply drained_upd].
    eapply drained_trans; [|exact Hd'].
    repeat (eapply drained_trans; [|by apply drained_upd]). apply drained_refl.
  - apply upd_same.
  - done.
Qed.

(** ** What is left of the windows *)

(** The ring that was released holds no samples. *)
Lemma window_released i start wp hist m m' :
  window g m i start wp hist → drained i m m' → window g m' i wp wp hist.
Proof using Hg.
  intros [Hpos Hst Hseq Hold _] [Hf Htag _]. split.
  - rewrite Hf; [done|]. cbn. rewrite bool_decide_eq_true_2 by done. by rewrite andb_false_r.
  - lia.
  - intros p Hp. rewrite Hf by done. auto.
  - intros p Hp. unfold meta_precedes. rewrite Htag. by apply Hold.
  - lia.
Qed.

Lemma window_drained i j start wp hist m m' :
  i ≠ j → window g m j start wp hist → drained i m m' → window g m' j start wp hist.
Proof using Hg.
  intros Hne Hw [Hf _ Hr].
  assert (∀ l, released_loc i l = false → m' l = m l) as Hm by done.
  eapply window_same; [exact Hw| |].
  - split; intros; apply Hm; cbn; [rewrite (proj2 (Z.eqb_neq _ _)) by done; done|].
    destruct f; [done|]. lia.
  - intros p t Hp Hpw []. split; try done.
    + rewrite Hm; [done|cbn; lia].
    + pose proof (Hr t cr_slot0). lia.
    + by rewrite Hm.
    + erewrite load_list_ext; [done|]. intros. by apply Hm.
Qed.
End membership.
End Membership.
