(* ===== verification/Channel.v ===== *)
(** * A channel is a bounded drop-oldest queue per subscriber

    The specification: every subscriber that has joined has a queue of the
    samples it has yet to read, at most as many as the ring holds; a [send]
    appends to every queue, and drops the oldest sample of a full one; a receive
    takes the oldest and accounts for those dropped before it.  The refinement:
    publishers and subscribers whose calls do not overlap give exactly the
    replies of the specification, from the stamping of the region on. *)

From S2P Require Import Prelude Prog Types Layout Words Pool Slots Publisher Subscriber Region Stamping.
From S2P Require Import Delivery Reception Membership.
Import Types Layout Pool Slots Stamping Delivery Reception Membership.

Module Channel.
(** ** The specification *)

Record queue := {
  attached : bool;               (** joined, and has not left *)
  pending : list (list Z);       (** samples to read, oldest first *)
  missed : Z;                    (** samples dropped since the last read *)
  lost : Z                       (** samples reported lost *)
}.

Definition fresh : queue := {| attached := true; pending := []; missed := 0; lost := 0 |}.

Definition push (cap : Z) (x : list Z) (q : queue) : queue :=
  if negb (attached q) then q
  else if Z.of_nat (length (pending q)) <? cap then
    {| attached := true; pending := pending q ++ [x]; missed := missed q; lost := lost q |}
  else
    {| attached := true; pending := tail (pending q) ++ [x]; missed := missed q + 1; lost := lost q |}.

Definition pop (q : queue) : option (list Z) * queue :=
  match pending q with
  | [] => (None, q)
  | x :: rest =>
      (Some x, {| attached := attached q; pending := rest; missed := 0; lost := lost q + missed q |})
  end.

Definition retire (q : queue) : queue :=
  {| attached := false; pending := []; missed := 0; lost := lost q |}.

Inductive call :=
  | Send (j : nat) (data : list Z)
  | Join
  | Receive (k : nat)
  | Leave (k : nat).

Inductive reply :=
  | Sent (n : Z)
  | Joined (ok : bool)
  | Received (x : option (list Z)) (lost : Z)
  | Left
  | Nobody.                      (** no such publisher or subscriber *)

Definition promised (g : Geometry) (npubs : nat) (c : call) (qs : list queue) : reply * list queue :=
  match c with
  | Send j data =>
      if (npubs <=? j)%nat then (Nobody, qs)
      else if slot_data_size g <? Z.of_nat (length data) then (Sent (- Publisher.EMSGSIZE), qs)
      else (Sent (Z.of_nat (length data)), push (sub_ring_capacity g) data <$> qs)
  | Join =>
      if Z.of_nat (length (filter (λ q, attached q = true) qs)) <? max_subs g
      then (Joined true, qs ++ [fresh]) else (Joined false, qs)
  | Receive k =>
      match qs !! k with
      | None => (Nobody, qs)
      | Some q => let '(x, q') := pop q in (Received x (lost q'), <[k := q']> qs)
      end
  | Leave k =>
      match qs !! k with
      | None => (Nobody, qs)
      | Some q => (Left, <[k := retire q]> qs)
      end
  end.

Fixpoint promised_all (g : Geometry) (npubs : nat) (cs : list call) (qs : list queue)
    : list reply * list queue :=
  match cs with
  | [] => ([], qs)
  | c :: cs =>
      let '(r, qs) := promised g npubs c qs in
      let '(rs, qs) := promised_all g npubs cs qs in
      (r :: rs, qs)
  end.

(** ** The calls *)

Record endpoints := { pubs : list Publisher.publisher; subs : list Subscriber.subscriber }.

Definition perform (g : Geometry) (c : call) (e : endpoints) : rprog (reply * endpoints) :=
  match c with
  | Send j data =>
      match pubs e !! j with
      | None => Ret (Nobody, e)
      | Some p =>
          '(n, p) <- Publisher.send p data ;;
          Ret (Sent n, {| pubs := <[j := p]> (pubs e); subs := subs e |})
      end
  | Join =>
      r <- try_ (Subscriber.make_subscriber g) ;;
      match r with
      | inr _ => Ret (Joined false, e)
      | inl s => Ret (Joined true, {| pubs := pubs e; subs := subs e ++ [s] |})
      end
  | Receive k =>
      match subs e !! k with
      | None => Ret (Nobody, e)
      | Some s =>
          '(x, s) <- Subscriber.try_receive s ;;
          Ret (Received (x ≫= Subscriber.ref_data_) (Subscriber.lost_ s),
               {| pubs := pubs e; subs := <[k := s]> (subs e) |})
      end
  | Leave k =>
      match subs e !! k with
      | None => Ret (Nobody, e)
      | Some s =>
          s <- Subscriber.release_ring s ;;
          Ret (Left, {| pubs := pubs e; subs := <[k := s]> (subs e) |})
      end
  end.

Fixpoint perform_all (g : Geometry) (cs : list call) (e : endpoints)
    : rprog (list reply * endpoints) :=
  match cs with
  | [] => Ret ([], e)
  | c :: cs =>
      '(r, e) <- perform g c e ;;
      '(rs, e) <- perform_all g cs e ;;
      Ret (r :: rs, e)
  end.

(** ** The samples between two positions *)

Definition samples (hist : Z → list Z) (a b : Z) : list (list Z) :=
  map (λ k, hist (a + Z.of_nat k)) (seq 0 (Z.to_nat (b - a))).

Lemma samples_length hist a b : length (samples hist a b) = Z.to_nat (b - a).
Proof. unfold samples. by rewrite length_map, length_seq. Qed.

Lemma samples_nil hist a b : b <= a → samples hist a b = [].
Proof. intros. unfold samples. by replace (Z.to_nat (b - a)) with 0%nat by lia. Qed.

Lemma samples_cons hist a b : a < b → samples hist a b = hist a :: samples hist (a + 1) b.
Proof.
  intros. unfold samples. replace (Z.to_nat (b - a)) with (S (Z.to_nat (b - (a + 1)))) by lia.
  cbn [seq map]. rewrite Z.add_0_r. f_equal. rewrite <- seq_shift, map_map. apply map_ext.
  intros k. f_equal. lia.
Qed.

Lemma samples_snoc hist a b x : a <= b →
  samples (<[b := x]> hist) a (b + 1) = samples hist a b ++ [x].
Proof.
  intros. unfold samples. replace (Z.to_nat (b + 1 - a)) with (S (Z.to_nat (b - a))) by lia.
  rewrite seq_S, map_app. cbn [map]. f_equal.
  - apply map_ext_in. intros k Hk%in_seq. rewrite fn_lookup_insert_ne by lia. done.
  - replace (a + Z.of_nat (0 + Z.to_nat (b - a))) with b by lia. by rewrite fn_lookup_insert.
Qed.

(** ** The pool cannot run out *)

Lemma length_entry_metas g : 0 <= max_subs g → 0 <= sub_ring_capacity g →
  Z.of_nat (length (entry_metas g)) = max_subs g * sub_ring_capacity g.
Proof.
  intros Hm Hc. unfold entry_metas.
  assert (∀ rows, Z.of_nat (length (i ← rows; idx ← upto (sub_ring_capacity g); [Ent i idx meta])) =
    Z.of_nat (length rows) * sub_ring_capacity g) as ->.
  { assert (∀ n, length (upto n) = Z.to_nat n) as Hup by (intros; unfold upto; by rewrite length_map, length_seq).
    assert (∀ i xs, length (idx ← xs; [Ent i idx meta]) = length xs) as Hrow.
    { intros i xs. induction xs as [|x xs IH]; [done|]. cbn in *. by rewrite IH. }
    induction rows as [|i rows IH]; [done|]. cbn [mbind list_bind length] in *. rewrite length_app, Hrow, Hup. lia. }
  unfold upto. rewrite length_map, length_seq. lia.
Qed.

(** With more slots than entries, and no references but the entries', a slot is free. *)
Lemma pool_roomy g m fl :
  pool_geometry g → max_subs g * sub_ring_capacity g < pool_size g →
  slots_ok g m (λ _, 0) fl [] → fl ≠ [].
Proof.
  intros Hg Hroom Hok ->. pose proof (capacity_pos g Hg).
  assert (1 <= max_subs g) as Hms by (by destruct Hg as [_ [? _] _ _ _]).
  set (slot_of := λ l, meta_slot_biased (m l) - 1).
  assert (length (upto (pool_size g)) <= length (map slot_of (entry_metas g)))%nat as Hle.
  { apply submseteq_length, NoDup_submseteq; [apply NoDup_upto|]. intros s Hs%elem_of_upto.
    pose proof (so_idle _ _ _ _ _ Hok s Hs) as Hid. destruct (so_ref _ _ _ _ _ Hok s Hs) as (Hr & _ & _).
    assert (claims g m s ≠ 0) as Hc. { intros E. apply (elem_of_nil s). tauto || (destruct Hid as [[]]; [lia|done..]). }
    apply list_elem_of_fmap. destruct (decide (Exists (λ l, names (m l) s ≠ 0) (entry_metas g))) as [Hex|Hno].
    - apply Exists_exists in Hex as (l & Hl & Hn). exists l. split; [|done].
      unfold slot_of. unfold names in Hn. destruct (Z.eqb_spec (meta_slot_biased (m l)) (s + 1)); [lia|done].
    - destruct Hc. apply total_zero. intros l Hl. destruct (decide (names (m l) s = 0)); [done|].
      destruct Hno. apply Exists_exists. eauto. }
  rewrite length_map in Hle. pose proof (length_entry_metas g). unfold upto in Hle.
  rewrite length_map, length_seq in Hle. lia.
Qed.

Lemma roomy_capacity g :
  pool_geometry g → max_subs g * sub_ring_capacity g < pool_size g → sub_ring_capacity g < 549755813888.
Proof.
  intros Hg Hroom. pose proof (capacity_pos g Hg). destruct Hg as [Hp [Hs _] _ _ _].
  change MAX_POOL_SIZE with 16777214 in Hp. nia.
Qed.

(** ** The relation between the region and the queues *)

Section refinement.
Context (g : Geometry) (Hg : pool_geometry g) (Hcap : sub_ring_capacity g < 549755813888).
Context (Hsize : slot_data_size g <= MAX_PAYLOAD_SIZE).
Context (Hroom : max_subs g * sub_ring_capacity g < pool_size g).
Implicit Types (m : loc → Z) (o : os) (ws : list loc) (fl : list Z) (k : Z).
Implicit Types (s : Subscriber.subscriber) (q : queue) (e : endpoints) (qs : list queue).
Abbreviation cap := (sub_ring_capacity g).
Abbreviation no_pins := (λ _ : Z, 0).

(** The rings that subscribers hold. *)
Definition owned (l : list Subscriber.subscriber) : list Z :=
  filter (λ i, i ≠ Subscriber.NO_RING) (Subscriber.ring_idx_ <$> l).

(** [s] reads the queue [q]; [k] more calls stay within the positions. *)
Inductive reads k m s q : Prop :=
  | reads_left :
      attached q = false → Subscriber.ring_idx_ s = Subscriber.NO_RING → pending q = [] →
      missed q = 0 → Subscriber.lost_ s = lost q → reads k m s q
  | reads_attached start wp hist :
      attached q = true → Subscriber.sub_geometry s = g → 0 <= Subscriber.ring_idx_ s < max_subs g →
      window g m (Subscriber.ring_idx_ s) start wp hist → is_pos (wp + cap + k) →
      start <= Subscriber.read_pos_ s <= wp → Subscriber.lost_ s = lost q →
      0 <= lost q <= Subscriber.read_pos_ s → pending q = samples hist (next_pos g s wp) wp →
      missed q = next_pos g s wp - Subscriber.read_pos_ s → reads k m s q.

Record serves k m e qs : Prop := {
  sv_rest : at_rest g m;
  sv_rings : ∀ i, 0 <= i < max_subs g → ∃ start wp hist,
    window g m i start wp hist ∧ is_pos (wp + cap + k);
  sv_state : ∀ i, 0 <= i < max_subs g → m (Ring i state_flight) =
    ring.make_packed (if decide (i ∈ owned (subs e)) then ring.Live else ring.Free) 0;
  sv_pubs : Forall (λ p, Publisher.pub_geometry p = g ∧ Publisher.pending_slot_ p = INVALID_SLOT) (pubs e);
  sv_subs : Forall2 (reads k m) (subs e) qs;
  sv_nodup : NoDup (owned (subs e))
}.

Lemma max_subs_range : 1 <= max_subs g <= 65535.
Proof using Hg. by destruct Hg as [_ [? ?] _ _ _]. Qed.

Lemma pos_le a b : 0 <= a → a <= b → is_pos b → is_pos a.
Proof. unfold is_pos. lia. Qed.

Lemma reads_mono k k' m s q : k' <= k → 0 <= k' → reads k m s q → reads k' m s q.
Proof using Hg.
  pose proof (capacity_pos g Hg). intros Hk Hk' [|start wp hist]; [by apply reads_left|].
  eapply reads_attached; try done. eapply pos_le; [|..|done]; lia.
Qed.

(** One more push onto the window a queue is. *)
Lemma push_samples hist read wp x :
  0 < cap → read <= wp → wp - cap <= read → 
  push cap x {| attached := true; pending := samples hist read wp; missed := 0; lost := 0 |} =
  {| attached := true; pending := samples (<[wp := x]> hist) (Z.max read (wp + 1 - cap)) (wp + 1);
     missed := Z.max read (wp + 1 - cap) - read; lost := 0 |}.
Proof using Type.
  clear. intros Hc Hr Hw. unfold push. cbn [attached negb pending missed lost].
  rewrite samples_length. destruct (Z.ltb_spec (Z.of_nat (Z.to_nat (wp - read))) cap).
  - rewrite Z.max_l by lia. rewrite samples_snoc by lia. f_equal; lia.
  - assert (wp - cap = read) as <- by lia. rewrite Z.max_r by lia.
    rewrite (samples_cons _ (wp - cap)) by lia. cbn [tail].
    replace (wp - cap + 1) with (wp + 1 - cap) by lia. rewrite <- samples_snoc by lia. f_equal; lia.
Qed.

(** *** Sending *)

Lemma state_u32 k m e qs i : serves k m e qs → 0 <= i < max_subs g → is_u32 (m (Ring i state_flight)).
Proof. intros Hsv Hi. rewrite (sv_state _ _ _ _ Hsv) by done. by destruct (decide _). Qed.

Lemma live_owned k m e qs i :
  serves k m e qs → 0 <= i < max_subs g → live m i = bool_decide (i ∈ owned (subs e)).
Proof.
  intros Hsv Hi. unfold live. rewrite (sv_state _ _ _ _ Hsv) by done.
  by destruct (decide (i ∈ owned (subs e))); [rewrite bool_decide_eq_true_2|rewrite bool_decide_eq_false_2].
Qed.

Lemma window_sent k m e qs m' fl fl' i t data start wp hist :
  serves (k + 1) m e qs → 0 <= k → slots_ok g m no_pins fl [] → t ∈ fl → sent g m m' t data →
  slots_ok g m' no_pins fl' [] → Z.of_nat (length data) <= slot_data_size g →
  0 <= i < max_subs g → window g m i start wp hist → is_pos (wp + cap + (k + 1)) →
  (live m i = true → window g m' i start (wp + 1) (<[wp := data]> hist)) ∧
  (live m i = false → window g m' i start wp hist) ∧
  m' (Ring i state_flight) = m (Ring i state_flight).
Proof using Hg Hcap.
  intros Hsv Hk Hok Ht Hsent Hok' Hfit Hi Hw Hb. pose proof (capacity_pos g Hg) as Hc.
  assert (0 <= t < pool_size g) as Htr.
  { pose proof (fl_range _ _ _ (so_free _ _ _ _ _ Hok)) as Hr. by eapply Forall_forall in Hr. }
  assert (0 <= wp) as Hwp by (destruct (wn_start _ _ _ _ _ _ Hw); lia).
  assert (∀ p r, start <= p → wp - cap <= p < wp → carries g m i p r (hist p) →
    m' (Ent i (p `mod` cap) meta) = m (Ent i (p `mod` cap) meta) → carries g m' i p r (hist p)) as Hkeep.
  { intros p r Hp Hpw Hcr He. eapply carries_sent; [exact Hcr|done| |exact Hsent]. intros ->.
    eapply (carries_claimed g Hg m) in Hcr as [? _]; [done|exact Hok|done..]. }
  destruct (sn_ring _ _ _ _ _ Hsent i Hi) as [Hopen Hsame]. destruct (live m i) eqn:Hl.
  - assert (ring_appended g m m' i t) as Happ.
    { apply Hopen. eapply window_open; [done|done|done|by eapply state_u32|]. eapply pos_le; [| |done]; lia. }
    split; [intros _|split; [done|apply Happ]]. pose proof Happ as [[Hs1 Hm1 He1] _ _].
    rewrite (wn_pos _ _ _ _ _ _ Hw) in *.
    eapply window_appended; [done|done|done|exact Happ|eapply pos_le; [| |done]; lia|done| |].
    + eapply sent_carries; [done|done|done|done|done].
    + intros p r Hp Hpw Hcr. apply Hkeep; [done|lia|done|]. apply He1. apply mod_window; lia.
  - pose proof (Hsame eq_refl) as Hs. split; [done|]. split; [intros _|apply Hs].
    eapply window_same; [exact Hw|done|]. intros p r Hp Hpw Hcr.
    apply Hkeep; [done|done|done|]. apply Hs.
Qed.

Lemma reads_sent k m e qs m' fl fl' t data s q :
  serves (k + 1) m e qs → 0 <= k → slots_ok g m no_pins fl [] → t ∈ fl → sent g m m' t data →
  slots_ok g m' no_pins fl' [] → Z.of_nat (length data) <= slot_data_size g →
  s ∈ subs e → reads (k + 1) m s q → reads k m' s (push cap data q).
Proof using Hg Hcap.
  intros Hsv Hk Hok Ht Hsent Hok' Hfit Hs Hr. pose proof (capacity_pos g Hg) as Hc.
  destruct Hr as [Ha Hi Hp Hms Hl|start wp hist Ha Hsg Hi Hw Hb Hread Hl Hlr Hp Hm].
  - unfold push. rewrite Ha. by apply reads_left.
  - assert (live m (Subscriber.ring_idx_ s) = true) as Hlive.
    { erewrite live_owned by done. apply bool_decide_eq_true_2. apply list_elem_of_filter.
      pose proof max_subs_range. split; [lia|]. apply list_elem_of_fmap. eauto. }
    eapply window_sent in Hlive; [|done..].
    assert (wp - cap <= next_pos g s wp <= wp) as Hn by (unfold next_pos; lia).
    destruct q as [a pnd ms ls]. cbn in *. subst a pnd ms ls.
    pose proof (push_samples hist (next_pos g s wp) wp data Hc ltac:(lia) ltac:(lia)) as Hpush.
    unfold push in *. cbn [attached negb pending missed lost] in *.
    eapply (reads_attached _ _ _ _ start (wp + 1) (<[wp := data]> hist)); try done.
    + by destruct (_ <? cap).
    + unfold is_pos in *. lia.
    + lia.
    + by destruct (_ <? cap).
    + by destruct (_ <? cap).
    + replace (next_pos g s (wp + 1)) with (Z.max (next_pos g s wp) (wp + 1 - cap)) by (unfold next_pos; lia).
      destruct (_ <? cap); injection Hpush; intros; done.
    + replace (next_pos g s (wp + 1)) with (Z.max (next_pos g s wp) (wp + 1 - cap)) by (unfold next_pos; lia).
      destruct (_ <? cap); injection Hpush; cbn; intros; lia.
Qed.

(** *** Bookkeeping of the subscribers *)

Lemma serves_mono k k' m e qs : k' <= k → 0 <= k' → serves k m e qs → serves k' m e qs.
Proof using Hg.
  pose proof (capacity_pos g Hg) as Hc. intros Hk Hk' [? Hr ? ? Hs ?]. split; try done.
  - intros i Hi. destruct (Hr i Hi) as (start & wp & hist & Hw & Hp). exists start, wp, hist.
    split; [done|]. pose proof (wn_start _ _ _ _ _ _ Hw). eapply pos_le; [|..|done]; lia.
  - eapply Forall2_impl; [exact Hs|]. intros s q. by apply reads_mono.
Qed.

Lemma reads_ext k m m' s q :
  (∀ start wp hist, window g m (Subscriber.ring_idx_ s) start wp hist →
     window g m' (Subscriber.ring_idx_ s) start wp hist) →
  reads k m s q → reads k m' s q.
Proof. intros Hw [|]; [by apply reads_left|]. eapply reads_attached; eauto. Qed.

Lemma reads_ring k m s q : reads k m s q →
  (attached q = true ↔ Subscriber.ring_idx_ s ≠ Subscriber.NO_RING) ∧
  (attached q = true → 0 <= Subscriber.ring_idx_ s < max_subs g).
Proof using Hg. pose proof max_subs_range. intros [Ha Hi ? ? ?|? ? ? Ha ? Hi ? ? ? ? ? ?]; rewrite Ha; (split; [split|]); (done || lia). Qed.

Lemma owned_range k m e qs i : serves k m e qs → i ∈ owned (subs e) → 0 <= i < max_subs g.
Proof using Hg.
  intros Hsv [Hi (s & -> & Hs)%list_elem_of_fmap]%list_elem_of_filter.
  apply list_elem_of_lookup in Hs as [a Ha].
  destruct (Forall2_lookup_l _ _ _ _ _ (sv_subs _ _ _ _ Hsv) Ha) as (q & _ & Hr).
  apply reads_ring in Hr as [Hat Hrg]. apply Hrg. by apply Hat.
Qed.

Lemma owned_count k m l qs : Forall2 (reads k m) l qs →
  length (filter (λ q, attached q = true) qs) = length (owned l).
Proof using Hg.
  unfold owned. induction 1 as [|s q l qs Hr _ IH]; [done|]. cbn [fmap list_fmap].
  rewrite !filter_cons. destruct (reads_ring _ _ _ _ Hr) as [Hat _].
  destruct (decide (attached q = true)), (decide (Subscriber.ring_idx_ s ≠ Subscriber.NO_RING));
    cbn [length]; rewrite ?IH; tauto || done.
Qed.

Lemma owned_app l1 l2 : owned (l1 ++ l2) = owned l1 ++ owned l2.
Proof. unfold owned. by rewrite fmap_app, filter_app. Qed.

Lemma owned_same l a s s' : l !! a = Some s → Subscriber.ring_idx_ s' = Subscriber.ring_idx_ s →
  owned (<[a := s']> l) = owned l.
Proof.
  intros Ha E. unfold owned. rewrite list_fmap_insert, E. f_equal. apply list_insert_id.
  by rewrite list_lookup_fmap, Ha.
Qed.

(** Two subscribers never hold one ring. *)
Lemma owned_inj l a b s t :
  NoDup (owned l) → l !! a = Some s → l !! b = Some t →
  Subscriber.ring_idx_ t ≠ Subscriber.NO_RING → Subscriber.ring_idx_ t = Subscriber.ring_idx_ s → a = b.
Proof.
  revert a b. induction l as [|x l IH]; intros a b Hnd Ha Hb Ht E; [done|].
  assert (∀ y, y ∈ l → Subscriber.ring_idx_ y ≠ Subscriber.NO_RING → Subscriber.ring_idx_ y ∈ owned l) as Hin.
  { intros y Hy Hne. apply list_elem_of_filter. split; [done|]. apply list_elem_of_fmap. eauto. }
  change (x :: l) with ([x] ++ l) in Hnd. rewrite owned_app in Hnd.
  assert (Subscriber.ring_idx_ x ≠ Subscriber.NO_RING → owned [x] = [Subscriber.ring_idx_ x]) as Hx.
  { intros ?. unfold owned. cbn [fmap list_fmap]. by rewrite filter_cons_True. }
  apply NoDup_app in Hnd as (_ & Hdis & Hnd).
  destruct a as [|a], b as [|b]; cbn in Ha, Hb; [done|..].
  - injection Ha as ->. exfalso. apply (Hdis (Subscriber.ring_idx_ s)).
    + rewrite Hx by congruence. by apply list_elem_of_singleton.
    + rewrite <- E. apply Hin; [by eapply list_elem_of_lookup_2|done].
  - injection Hb as ->. exfalso. apply (Hdis (Subscriber.ring_idx_ t)).
    + rewrite Hx by done. by apply list_elem_of_singleton.
    + rewrite E. apply Hin; [by eapply list_elem_of_lookup_2|congruence].
  - f_equal. by apply IH.
Qed.

Lemma owned_left l a s s' :
  l !! a = Some s → Subscriber.ring_idx_ s ≠ Subscriber.NO_RING →
  Subscriber.ring_idx_ s' = Subscriber.NO_RING →
  owned l ≡ₚ Subscriber.ring_idx_ s :: owned (<[a := s']> l).
Proof.
  intros Ha Hs Hs'. pose proof (lookup_lt_Some _ _ _ Ha) as Hlt.
  rewrite insert_take_drop by done. rewrite <- (take_drop_middle _ _ _ Ha) at 1.
  rewrite !owned_app. change (s :: drop (S a) l) with ([s] ++ drop (S a) l).
  change (s' :: drop (S a) l) with ([s'] ++ drop (S a) l). rewrite !owned_app.
  assert (owned [s] = [Subscriber.ring_idx_ s]) as -> by (unfold owned; cbn [fmap list_fmap]; by rewrite filter_cons_True).
  assert (owned [s'] = []) as -> 
    by (unfold owned; cbn [fmap list_fmap]; rewrite filter_cons_False by (by intros []); done).
  symmetry. apply Permutation_middle.
Qed.

(** *** The calls *)

Lemma returns_send_call k j data m o ws e qs (Q : reply * endpoints → world loc → Prop) :
  serves (k + 1) m e qs → 0 <= k → 0 < os_tick o →
  (∀ m' o' ws' e', let '(r, qs') := promised g (length (pubs e)) (Send j data) qs in
     serves k m' e' qs' → length (pubs e') = length (pubs e) → os_tick o' = os_tick o →
     Q (r, e') (World m' o' ws')) →
  returns (perform g (Send j data) e) (World m o ws) Q.
Proof using Hg Hcap Hsize Hroom.
  intros Hsv Hk Htick HQ. cbn [perform promised] in *.
  assert (serves k m e qs) as Hkeep by (eapply serves_mono; [| |exact Hsv]; lia).
  destruct (pubs e !! j) as [p|] eqn:Ep.
  2: { apply lookup_ge_None in Ep. rewrite (proj2 (Nat.leb_le _ _)) in HQ by done.
       step. by apply HQ. }
  rewrite (proj2 (Nat.leb_gt _ _)) in HQ by (by eapply lookup_lt_Some).
  pose proof Hsv as [[fl Hok] Hrings Hstate Hpubs Hsubs Hnd].
  destruct (proj1 (Forall_lookup _ _) Hpubs j p Ep) as [Hpg Hpp].
  assert (<[j := p]> (pubs e) = pubs e) as Hid by (by apply list_insert_id).
  step. eapply (returns_send g Hg p data m no_pins fl []); [done|done| |done|..].
  { unfold reserves. by rewrite Hpp. }
  - intros Hbig. rewrite (proj2 (Z.ltb_lt _ _)) in HQ by done. step. rewrite Hid.
    destruct e. by apply HQ.
  - intros _ Hav. unfold available in Hav. rewrite Hpp in Hav. by apply pool_roomy in Hok.
  - intros t fl' drops m' o' ws' Hfit Ht Hok' Hsent Ho' _. unfold available in Ht. rewrite Hpp in Ht.
    rewrite (proj2 (Z.ltb_ge _ _)) in HQ by done. step. apply HQ; [|apply length_insert|done].
    split; cbn [pubs subs].
    + by exists fl'.
    + intros i Hi. destruct (Hrings i Hi) as (start & wp & hist & Hw & Hb).
      pose proof (capacity_pos g Hg). pose proof (wn_start _ _ _ _ _ _ Hw).
      pose proof (window_sent k m e qs m' fl fl' i t data start wp hist) as Hws.
      destruct Hws as (Hl & Hd & _); [done..|]. destruct (live m i) eqn:El.
      * exists start, (wp + 1), (<[wp := data]> hist). split; [auto|]. unfold is_pos in *. lia.
      * exists start, wp, hist. split; [auto|]. eapply pos_le; [| |done]; lia.
    + intros i Hi. destruct (Hrings i Hi) as (start & wp & hist & Hw & Hb).
      pose proof (window_sent k m e qs m' fl fl' i t data start wp hist) as Hws.
      destruct Hws as (_ & _ & ->); [done..|]. by apply Hstate.
    + apply Forall_insert; [done|]. by destruct p.
    + apply Forall2_fmap_r. apply Forall2_same_length_lookup_2.
      { by eapply Forall2_length. }
      intros a s q Hs Hq. eapply reads_sent; try done; [by eapply list_elem_of_lookup_2|].
      by eapply Forall2_lookup_lr.
    + done.
Qed.

Definition taken_rings (qs : list queue) : Z := Z.of_nat (length (filter (λ q, attached q = true) qs)).

(** A new subscriber, its header untouched; without a free ring it throws. *)
Lemma wp_join k m o ws e qs (Q : outcome Subscriber.subscriber → world loc → Prop) :
  serves k m e qs → 0 <= k →
  (∀ m' s, taken_rings qs < max_subs g →
     serves k m' {| pubs := pubs e; subs := subs e ++ [s] |} (qs ++ [fresh]) →
     (∀ f, m' (Hdr f) = m (Hdr f)) → Q (Val s) (World m' o ws)) →
  (max_subs g <= taken_rings qs → Q (Exc (Exn runtime_error "No free subscriber slots")) (World m o ws)) →
  wp (Subscriber.make_subscriber g) (World m o ws) Q.
Proof using Hg.
  clear Hcap Hsize Hroom. intros Hsv Hk HQ HQ'. pose proof (capacity_pos g Hg) as Hc.
  pose proof Hsv as [[fl Hok] Hrings Hstate Hpubs Hsubs Hnd]. pose proof max_subs_range as Hms.
  unfold taken_rings in *. rewrite (owned_count _ _ _ _ Hsubs) in HQ, HQ'.
  assert (∀ n, length (upto n) = Z.to_nat n) as Hup by (intros; unfold upto; by rewrite length_map, length_seq).
  apply wp_make_subscriber; [done|intros i Hi Hfree|intros Hbusy].
  - assert (i ∉ owned (subs e)) as Hni.
    { rewrite Hstate in Hfree by done. destruct (decide (i ∈ owned (subs e))); [done|done]. }
    assert (owned [joined g m i] = [i]) as Hone.
    { unfold owned. cbn [fmap list_fmap]. by rewrite filter_cons_True by (cbn; lia). }
    assert (NoDup (owned (subs e ++ [joined g m i]))) as Hnd'.
    { rewrite owned_app, Hone. apply NoDup_app. split; [done|]. split; [|apply NoDup_singleton].
      intros x Hx ->%list_elem_of_singleton. done. }
    assert (Z.of_nat (length (owned (subs e))) < max_subs g) as Hlt.
    { assert (length (owned (subs e ++ [joined g m i])) <= length (upto (max_subs g)))%nat as Hle.
      { apply submseteq_length, NoDup_submseteq; [done|]. intros x. rewrite owned_app, Hone.
        rewrite elem_of_app, list_elem_of_singleton, elem_of_upto. intros [Hx| ->]; [|done].
        by eapply owned_range. }
      rewrite owned_app, Hone, length_app, Hup in Hle. cbn in Hle. lia. }
    apply HQ; [done| |intros f; by apply taken_ne]. split; cbn [pubs subs].
    + exists fl. eapply slots_ok_accounted; [|exact Hok]. intros l Hl. apply taken_ne; by intros ->.
    + intros j Hj. destruct (Hrings j Hj) as (start & wp & hist & Hw & Hb). exists start, wp, hist.
      split; [|done]. eapply window_ext; [|done]. apply taken_windowed.
    + intros j Hj. rewrite owned_app, Hone. unfold taken. rewrite !(upd_ne _ _ (Ring j state_flight)) by done.
      rewrite upd_dec. destruct (decide (Ring i state_flight = Ring j state_flight)) as [[= ->]|Hne].
      * rewrite decide_True; [done|]. set_solver.
      * rewrite Hstate by done. assert (j ≠ i) by congruence.
        destruct (decide (j ∈ owned (subs e))); [rewrite decide_True|rewrite decide_False]; (done || set_solver).
    + done.
    + apply Forall2_app.
      * eapply Forall2_impl; [exact Hsubs|]. intros s q. apply reads_ext. intros start wp hist.
        apply window_ext, taken_windowed.
      * constructor; [|done]. destruct (Hrings i Hi) as (start & wp & hist & Hw & Hb).
        pose proof (wn_pos _ _ _ _ _ _ Hw) as Hwp. pose proof (wn_start _ _ _ _ _ _ Hw).
        eapply (reads_attached _ _ _ _ start wp hist); cbn; rewrite ?Hwp; try done; try lia.
        -- eapply window_ext; [|done]. apply taken_windowed.
        -- rewrite samples_nil; [done|]. unfold next_pos. cbn. lia.
        -- unfold next_pos. cbn. lia.
    + done.
  - assert (max_subs g <= Z.of_nat (length (owned (subs e)))) as Hle.
    { assert (length (upto (max_subs g)) <= length (owned (subs e)))%nat as Hle.
      { apply submseteq_length, NoDup_submseteq; [apply NoDup_upto|]. intros x Hx%elem_of_upto.
        specialize (Hbusy x Hx). rewrite Hstate in Hbusy by done. by destruct (decide (x ∈ owned (subs e))). }
      rewrite Hup in Hle. lia. }
    by apply HQ'.
Qed.

Lemma returns_join_call k m o ws e qs (Q : reply * endpoints → world loc → Prop) :
  serves k m e qs → 0 <= k →
  (∀ m' e', let '(r, qs') := promised g (length (pubs e)) Join qs in
     serves k m' e' qs' → length (pubs e') = length (pubs e) → Q (r, e') (World m' o ws)) →
  returns (perform g Join e) (World m o ws) Q.
Proof using Hg.
  clear Hcap Hsize Hroom. intros Hsv Hk HQ. cbn [perform promised] in *. fold (taken_rings qs) in HQ.
  step. eapply returns_try, wp_join; [done|done|intros m' s Hlt Hsv' _|intros Hge]; step.
  - rewrite (proj2 (Z.ltb_lt _ _)) in HQ by done. by apply HQ.
  - rewrite (proj2 (Z.ltb_ge _ _)) in HQ by done. by apply HQ.
Qed.

(** Replacing subscriber [a], and its queue. *)
Lemma serves_update k m m' e qs a s s' q q' :
  serves k m e qs → at_rest g m' → subs e !! a = Some s → qs !! a = Some q → reads k m' s' q' →
  (∀ i start wp hist, i ≠ Subscriber.ring_idx_ s → 0 <= i < max_subs g →
     window g m i start wp hist → window g m' i start wp hist) →
  (∀ start wp hist, window g m (Subscriber.ring_idx_ s) start wp hist →
     ∃ start', window g m' (Subscriber.ring_idx_ s) start' wp hist) →
  (∀ i, 0 <= i < max_subs g → m' (Ring i state_flight) =
    ring.make_packed (if decide (i ∈ owned (<[a := s']> (subs e))) then ring.Live else ring.Free) 0) →
  NoDup (owned (<[a := s']> (subs e))) →
  serves k m' {| pubs := pubs e; subs := <[a := s']> (subs e) |} (<[a := q']> qs).
Proof using Hg.
  intros Hsv Hrest Ha Hq Hr Hother Hthis Hst Hnd. pose proof Hsv as [_ Hrings _ Hpubs Hsubs Hnd0].
  split; cbn [pubs subs]; try done.
  - intros i Hi. destruct (Hrings i Hi) as (start & wp & hist & Hw & Hb).
    destruct (decide (i = Subscriber.ring_idx_ s)) as [->|Hne].
    + destruct (Hthis _ _ _ Hw) as [start' ?]. eauto 6.
    + exists start, wp, hist. auto.
  - apply Forall2_same_length_lookup_2.
    { rewrite !length_insert. by eapply Forall2_length. }
    intros b t r Ht Hrq. destruct (decide (a = b)) as [<-|Hne].
    + rewrite list_lookup_insert_eq in Ht by (by eapply lookup_lt_Some).
      rewrite list_lookup_insert_eq in Hrq by (by eapply lookup_lt_Some).
      by injection Ht as <-; injection Hrq as <-.
    + rewrite list_lookup_insert_ne in Ht by done. rewrite list_lookup_insert_ne in Hrq by done.
      pose proof (Forall2_lookup_lr _ _ _ _ _ _ Hsubs Ht Hrq) as Hrd. revert Hrd.
      destruct (decide (Subscriber.ring_idx_ t = Subscriber.NO_RING)) as [Enone|Hsome].
      * intros Hrd. destruct (reads_ring _ _ _ _ Hrd) as [Hat _].
        destruct Hrd; [by apply reads_left|tauto].
      * intros Hrd. eapply reads_ext; [|exact Hrd]. intros start wp hist Hw.
        apply Hother; [|destruct (reads_ring _ _ _ _ Hrd) as [Hat Hrg]; tauto|done].
        intros Es. apply Hne. eapply (owned_inj (subs e)); eauto.
Qed.

Lemma serves_same_subs k m e qs a s :
  serves k m e qs → subs e !! a = Some s →
  {| pubs := pubs e; subs := <[a := s]> (subs e) |} = e.
Proof. intros _ Ha. rewrite list_insert_id by done. by destruct e. Qed.

Lemma returns_receive_call k a m o ws e qs (Q : reply * endpoints → world loc → Prop) :
  serves k m e qs → 0 <= k →
  (∀ m' e', let '(r, qs') := promised g (length (pubs e)) (Receive a) qs in
     serves k m' e' qs' → length (pubs e') = length (pubs e) → Q (r, e') (World m' o ws)) →
  returns (perform g (Receive a) e) (World m o ws) Q.
Proof using Hg.
  clear Hcap Hsize Hroom. intros Hsv Hk HQ. cbn [perform promised] in *. pose proof (capacity_pos g Hg) as Hc.
  pose proof Hsv as [[fl Hok] Hrings Hstate Hpubs Hsubs Hnd].
  destruct (subs e !! a) as [s|] eqn:Ea.
  2: { destruct (qs !! a) as [q|] eqn:Eq; [|step; by apply HQ].
       destruct (Forall2_lookup_r _ _ _ _ _ Hsubs Eq) as (? & ? & _). congruence. }
  destruct (Forall2_lookup_l _ _ _ _ _ Hsubs Ea) as (q & Eq & Hr). rewrite Eq in HQ.
  pose proof (serves_same_subs _ _ _ _ _ _ Hsv Ea) as Hsame.
  step. destruct Hr as [Hat Hring Hp Hms Hl|start wp hist Hat Hsg Hi Hw Hb Hread Hl Hlr Hp Hm].
  - unfold Subscriber.try_receive, Subscriber.try_receive_view. rewrite Hring, Z.eqb_refl.
    steps. unfold pop in HQ. rewrite Hp in HQ. rewrite Hsame. cbn.
    rewrite Hl. apply HQ; [|done]. by rewrite list_insert_id.
  - assert (is_u64 (Subscriber.lost_ s)) as Hlu by (unfold is_pos in *; word).
    assert (is_pos (wp + 1)) as Hwp by (eapply pos_le; [| |exact Hb]; lia).
    eapply (returns_try_receive g Hg s _ start wp hist); [done|done|done|done|done|done|exact Hok|exact Hw|..].
    + intros E. step. unfold pop in HQ. rewrite Hp, samples_nil in HQ by (unfold next_pos; lia).
      rewrite Hsame. cbn. rewrite Hl. apply HQ; [|done]. by rewrite list_insert_id.
    + cbn zeta. set (r := next_pos g s wp) in *. intros Hlt Hfit. step.
      assert (r < wp) as Hrw by (unfold r, next_pos; lia).
      unfold pop in HQ. rewrite Hp, samples_cons in HQ by done. cbn [Subscriber.set_buf Subscriber.lost_ read_upto Subscriber.set_read mbind option_bind ref_at Subscriber.ref_data_ lost] in *.
      assert (u64 (Subscriber.lost_ s + (r - Subscriber.read_pos_ s)) = lost q + missed q) as El.
      { rewrite Hl, Hm. apply u64_small. unfold is_pos in *. unfold r, next_pos in *. word. }
      cbn. rewrite El. apply HQ; [|done].
      eapply serves_update; [done| |done|done| |..].
      * exists fl. by apply skipped_slots_ok.
      * eapply (reads_attached _ _ _ _ start wp hist); cbn; try done; rewrite ?El; try done; try lia.
        -- eapply window_ext; [|exact Hw]. intros. by apply skipped_windowed.
        -- unfold r, next_pos in *. lia.
        -- unfold r, next_pos in *. lia.
        -- f_equal. unfold next_pos. cbn. unfold r, next_pos in *. lia.
        -- unfold next_pos. cbn. unfold r, next_pos in *. lia.
      * intros i st w h _ _. apply window_ext. intros. by apply skipped_windowed.
      * intros st w h Hwin. exists st. eapply window_ext; [|exact Hwin]. intros. by apply skipped_windowed.
      * intros i Hi'. rewrite skipped_ne by done. rewrite owned_same with (s := s) by done. by apply Hstate.
      * by rewrite owned_same with (s := s).
Qed.

Lemma returns_leave_call k a m o ws e qs (Q : reply * endpoints → world loc → Prop) :
  serves k m e qs → 0 <= k →
  (∀ m' o' e', let '(r, qs') := promised g (length (pubs e)) (Leave a) qs in
     serves k m' e' qs' → length (pubs e') = length (pubs e) → os_tick o' = os_tick o →
     Q (r, e') (World m' o' ws)) →
  returns (perform g (Leave a) e) (World m o ws) Q.
Proof using Hg.
  clear Hcap Hsize Hroom. intros Hsv Hk HQ. cbn [perform promised] in *.
  pose proof Hsv as [[fl Hok] Hrings Hstate Hpubs Hsubs Hnd].
  destruct (subs e !! a) as [s|] eqn:Ea.
  2: { destruct (qs !! a) as [q|] eqn:Eq; [|step; by apply HQ].
       destruct (Forall2_lookup_r _ _ _ _ _ Hsubs Eq) as (? & ? & _). congruence. }
  destruct (Forall2_lookup_l _ _ _ _ _ Hsubs Ea) as (q & Eq & Hr). rewrite Eq in HQ.
  step. destruct (reads_ring _ _ _ _ Hr) as [Hat Hrg].
  destruct Hr as [Hq Hring Hp Hms Hl|start wp hist Hq Hsg Hi Hw Hb Hread Hl Hlr Hp Hm].
  - unfold Subscriber.release_ring. rewrite Hring, Z.eqb_refl. do 2 step.
    rewrite (serves_same_subs _ _ _ _ _ _ Hsv Ea). apply HQ; [|done..].
    replace (retire q) with q; [by rewrite list_insert_id|].
    destruct q; cbn in *; by subst.
  - assert (Subscriber.ring_idx_ s ∈ owned (subs e)) as Hown.
    { apply list_elem_of_filter. split; [by apply Hat|]. apply list_elem_of_fmap.
      exists s. split; [done|]. by eapply list_elem_of_lookup_2. }
    set (s' := Subscriber.set_ring s Subscriber.NO_RING).
    pose proof (owned_left _ _ _ s' Ea (proj1 Hat Hq) eq_refl) as Hperm.
    assert (NoDup (Subscriber.ring_idx_ s :: owned (<[a := s']> (subs e)))) as Hnd' by (by rewrite <- Hperm).
    apply NoDup_cons in Hnd' as [Hnin Hnd'].
    eapply (returns_release_ring g Hg s); [done|exact Hok|done|done| |].
    { rewrite Hstate by done. by rewrite decide_True. }
    intros m' fl' o' Hok' Hdr Hfree Ho'. step. apply HQ; [|done..].
    eapply serves_update; [done|by exists fl'|done|done|by apply reads_left|..].
    + intros i st w h Hne _ Hwin. by eapply window_drained.
    + intros st w h Hwin. exists w. by eapply window_released.
    + intros i Hi'. destruct (decide (i = Subscriber.ring_idx_ s)) as [->|Hne].
      * rewrite Hfree. by rewrite decide_False.
      * rewrite (dr_frame _ _ _ _ Hdr), Hstate by (done || cbn; lia).
        assert (i ∈ owned (subs e) ↔ i ∈ owned (<[a := s']> (subs e))) as Hiff.
        { rewrite Hperm, elem_of_cons. tauto. }
        by rewrite (decide_ext _ _ _ _ Hiff).
    + done.
Qed.

Lemma returns_perform k c m o ws e qs (Q : reply * endpoints → world loc → Prop) :
  serves (k + 1) m e qs → 0 <= k → 0 < os_tick o →
  (∀ m' o' ws' e', serves k m' e' (promised g (length (pubs e)) c qs).2 →
     length (pubs e') = length (pubs e) → 0 < os_tick o' →
     Q ((promised g (length (pubs e)) c qs).1, e') (World m' o' ws')) →
  returns (perform g c e) (World m o ws) Q.
Proof using Hg Hcap Hsize Hroom.
  intros Hsv Hk Htick HQ.
  assert (serves k m e qs) as Hsv' by (eapply serves_mono; [| |done]; lia).
  destruct c as [j data| |a|a].
  - eapply returns_send_call; [done..|]. intros m' o' ws' e'.
    destruct (promised _ _ _ _) as [r qs']. intros. apply HQ; [done|done|lia].
  - eapply returns_join_call; [done..|]. intros m' e'.
    destruct (promised _ _ _ _) as [r qs']. intros. by apply HQ.
  - eapply returns_receive_call; [done..|]. intros m' e'.
    destruct (promised _ _ _ _) as [r qs']. intros. by apply HQ.
  - eapply returns_leave_call; [done..|]. intros m' o' e'.
    destruct (promised _ _ _ _) as [r qs']. intros. apply HQ; [done|done|lia].
Qed.

Lemma returns_perform_all k cs m o ws e qs (Q : list reply * endpoints → world loc → Prop) :
  serves (k + Z.of_nat (length cs)) m e qs → 0 <= k → 0 < os_tick o →
  (∀ e' w', serves k (w_mem w') e' (promised_all g (length (pubs e)) cs qs).2 →
     Q ((promised_all g (length (pubs e)) cs qs).1, e') w') →
  returns (perform_all g cs e) (World m o ws) Q.
Proof using Hg Hcap Hsize Hroom.
  revert m o ws e qs Q. induction cs as [|c cs IH]; intros m o ws e qs Q Hsv Hk Htick HQ; cbn [perform_all promised_all length] in *.
  - step. apply HQ. cbn. by replace k with (k + Z.of_nat 0) by lia.
  - step. replace (k + Z.of_nat (S (length cs))) with (k + Z.of_nat (length cs) + 1) in Hsv by lia.
    eapply returns_perform; [exact Hsv|lia|done|]. intros m' o' ws' e' Hsv' Hlen Htick'. lazy beta iota.
    destruct (promised g (length (pubs e)) c qs) as [r qs'] eqn:Ep. cbn [fst snd] in *.
    step. eapply (IH m' o' ws' e' qs'); [done|done|done|]. intros e2 w' Hsv2. lazy beta iota.
    rewrite Hlen in *. destruct (promised_all g (length (pubs e)) cs qs') as [rs qs2] eqn:Ea.
    cbn [fst snd] in *. step. by apply HQ.
Qed.
End refinement.

(** ** A region just created serves no one *)

Lemma window_new g m i :
  pool_geometry g → sub_ring_capacity g < 549755813888 → m (Ring i write_pos) = 0 →
  (∀ idx f, 0 <= idx < sub_ring_capacity g → m (Ent i idx f) = 0) → window g m i 0 0 (λ _, []).
Proof.
  intros Hg Hcap Hwp He. pose proof (capacity_pos g Hg) as Hc.
  assert (∀ p, 0 <= p `mod` sub_ring_capacity g < sub_ring_capacity g) as Hmod.
  { intros p. by apply Z.mod_pos_bound. }
  split; [done|done|..].
  - intros p Hp. rewrite He by done. lia.
  - intros p Hp. rewrite He by done. rewrite meta_precedes_tag by (vm_compute; intuition congruence).
    change (meta_tag 0) with 0. rewrite u64_small by word. apply Z.leb_le.
    replace ((0 - (p + sub_ring_capacity g + 1)) `mod` 1099511627776)
      with (1099511627776 - (p + sub_ring_capacity g + 1)) by lia. lia.
  - lia.
Qed.

Lemma serves_new type cfg creator l o m n backend k :
  channel.config_typed cfg → validate_config type cfg = inl tt →
  compute_layout cfg (Some creator) = inl l → stamped type cfg creator l o m →
  channel.sub_ring_capacity cfg < 549755813888 → 0 <= k < 2305843009213693952 →
  let g := geometry_of_layout cfg l in
  serves g k m {| pubs := replicate n (Publisher.make_publisher g backend); subs := [] |} [].
Proof.
  intros Hty Hv Hl Hst Hcap Hk g. pose proof (layout_pool_geometry _ _ _ _ Hty Hv Hl) as Hg. fold g in Hg.
  pose proof (capacity_pos g Hg) as Hc. change (channel.sub_ring_capacity cfg) with (sub_ring_capacity g) in Hcap.
  split; cbn [pubs subs].
  - apply Hst.
  - intros i Hi. exists 0, 0, (λ _, []). split.
    + apply window_new; [done|done|by apply Hst|]. intros. by apply Hst.
    + unfold is_pos. lia.
  - intros i Hi. rewrite decide_False by (unfold owned; cbn; set_solver). by apply Hst.
  - by apply Forall_replicate.
  - constructor.
  - constructor.
Qed.

(** ** Properties *)

(** C6. Whatever state the rings are in that the relation allows, any sequence of
    sends, joins, receives and leaves replies exactly as the bounded queues do,
    and leaves the region in the state of the queues it ends with.  The pool must
    have more slots than the rings have entries: otherwise entries that nobody reads
    any more may keep every slot, and a send finds none ([Delivery]). *)
Theorem channel_refines_queues g k cs m o ws e qs :
  pool_geometry g → slot_data_size g <= MAX_PAYLOAD_SIZE →
  max_subs g * sub_ring_capacity g < pool_size g → 0 <= k → 0 < os_tick o →
  serves g (k + Z.of_nat (length cs)) m e qs →
  returns (perform_all g cs e) (World m o ws) (λ '(rs, e') w',
    rs = (promised_all g (length (pubs e)) cs qs).1 ∧
    serves g k (w_mem w') e' (promised_all g (length (pubs e)) cs qs).2).
Proof. intros. eapply returns_perform_all; [done|by apply roomy_capacity|done..|]. auto. Qed.

(** C5. From the stamping of a region whose pool has more slots than its rings have
    entries together, any sequence of fewer than 2^61 sends, joins, receives and
    leaves replies exactly as the bounded queues do.  The default configuration has
    fewer slots than that, and its sends may fail. *)
Theorem channel_from_creation type cfg creator l address size label n backend cs m o ws :
  channel.config_typed cfg → validate_config type cfg = inl tt →
  compute_layout cfg (Some creator) = inl l →
  address `mod` CACHE_LINE = 0 → l_total_size l <= size →
  channel.max_subscribers cfg * channel.sub_ring_capacity cfg < channel.pool_size cfg →
  Z.of_nat (length cs) < 2305843009213693952 → 0 < os_tick o →
  returns
    (r <- Region.attach_create address size type cfg (Some creator) label ;;
     let g := Region.geometry_ r in
     perform_all g cs {| pubs := replicate n (Publisher.make_publisher g backend); subs := [] |})
    (World m o ws)
    (λ '(rs, _) _, rs = (promised_all (geometry_of_layout cfg l) n cs []).1).
Proof.
  intros Hty Hv Hl Ha Hle Hroom Hlen Htick. step. eapply returns_attach_create; [done..|].
  intros r m' -> Hst. cbn zeta. pose proof (layout_pool_geometry _ _ _ _ Hty Hv Hl) as Hg.
  destruct (geometry_of_layout_typed _ _ _ _ Hty Hv Hl) as [Hgk _].
  pose proof (roomy_capacity _ Hg Hroom) as Hcap.
  eapply (returns_perform_all _ Hg Hcap (proj2 (gk_slot_data _ _ _ Hgk)) Hroom 0); [|done|done|].
  - by apply serves_new with (o := o) (creator := creator) (type := type); [..|lia].
  - intros e' w' _. cbn [pubs]. by rewrite length_replicate.
Qed.

(** *** Examples *)

Definition roomy_config : channel.Config := {|
  channel.max_subscribers := 2; channel.sub_ring_capacity := 2; channel.pool_size := 5;
  channel.max_payload_size := 4; channel.commit_timeout := DEFAULT_COMMIT_TIMEOUT;
  channel.cfg_schema := None; channel.schema_capacity := 0;
  channel.schema_blob := []; channel.cfg_identity := 0 |}.

Definition roomy_layout : RegionLayout := {|
  l_header_size := 896; l_ring_stride := 192; l_slot_stride := 64; l_schema_blob_offset := 896;
  l_sub_rings_offset := 896; l_pool_offset := 1280; l_total_size := 1600; l_creator_len := 2 |}.

(** Three sends into a ring of two entries, a late joiner, a third that finds no
    ring, and one that leaves. *)
Definition session : list call :=
  [Send 0 [9]; Join; Receive 0; Send 0 [1]; Send 1 [2; 2]; Send 0 [3]; Join; Join; Send 0 [4; 4; 4; 4; 4];
   Receive 0; Send 1 [5]; Receive 1; Receive 0; Receive 0; Receive 0; Leave 0; Join; Receive 0; Leave 7].

Definition session_replies : list reply :=
  [Sent 1; Joined true; Received None 0; Sent 1; Sent 2; Sent 1; Joined true; Joined false; Sent (-90);
   Received (Some [2; 2]) 1; Sent 1; Received (Some [5]) 0; Received (Some [3]) 1;
   Received (Some [5]) 1; Received None 1; Left; Joined true; Received None 1; Nobody].

Lemma roomy_typed : channel.config_typed roomy_config.
Proof. by constructor; vm_compute; intuition congruence. Qed.

Lemma roomy_stamped : ∃ m, stamped channel.PubSub roomy_config [110; 49] roomy_layout quiet_os m.
Proof.
  destruct (returns_stamp channel.PubSub roomy_config [110; 49] roomy_layout (λ _, 255) quiet_os []
    (λ _ w', stamped channel.PubSub roomy_config [110; 49] roomy_layout quiet_os (w_mem w'))
    roomy_typed eq_refl eq_refl) as (n & [r|e] & w' & _ & Hst); [by auto|by exists (w_mem w')|done].
Qed.

Lemma channel_refines_queues_witness :
  let g := geometry_of_layout roomy_config roomy_layout in
  ∃ m, returns
    (perform_all g session {| pubs := replicate 2 (Publisher.make_publisher g false); subs := [] |})
    (World m quiet_os []) (λ '(rs, _) _, rs = session_replies).
Proof.
  intros g. destruct roomy_stamped as [m Hst]. exists m. eapply returns_mono.
  - refine (channel_refines_queues g 0 session m quiet_os [] _ [] _ _ _ _ _ _).
    + exact (layout_pool_geometry channel.PubSub _ [110; 49] roomy_layout roomy_typed eq_refl eq_refl).
    + vm_compute; congruence.
    + reflexivity.
    + vm_compute; congruence.
    + reflexivity.
    + apply (serves_new channel.PubSub _ [110; 49] roomy_layout quiet_os m 2 false _ roomy_typed eq_refl eq_refl Hst); vm_compute; intuition congruence.
  - intros [rs e] w [-> _]. vm_compute. reflexivity.
Defined.

Lemma channel_from_creation_witness :
  returns
    (r <- Region.attach_create 4096 2048 channel.PubSub roomy_config (Some [110; 49]) [] ;;
     let g := Region.geometry_ r in
     perform_all g session {| pubs := replicate 2 (Publisher.make_publisher g false); subs := [] |})
    (World (λ _, 255) quiet_os [])
    (λ '(rs, _) _, rs = session_replies).
Proof.
  eapply returns_mono.
  - refine (channel_from_creation channel.PubSub roomy_config [110; 49] roomy_layout 4096 2048 [] 2 false
      session (λ _, 255) quiet_os [] _ _ _ _ _ _ _ _).
    + exact roomy_typed.
    + reflexivity.
    + reflexivity.
    + reflexivity.
    + vm_compute; congruence.
    + reflexivity.
    + reflexivity.
    + reflexivity.
  - intros [rs e] w ->. vm_compute. reflexivity.
Defined.
End Channel.
