(* ===== verification/Waiting.v ===== *)
(** * Blocking receives end, and the states a wait can be in

    From any memory, [try_receive] returns within its 64 turns and [receive]
    returns a sample or has waited for its timeout; on a ring in order,
    [wait_state] is [Ready] exactly when [try_receive] would return a sample. *)

From S2P Require Import Prelude Prog Types Layout Words Pool Slots Publisher Subscriber Delivery.
From S2P Require Import Reception.
Import Types Layout Pool Slots Delivery Reception.

Module Waiting.
Implicit Types (m : loc → Z) (o : os) (ws : list loc) (s : Subscriber.subscriber).

(** ** Receiving from any memory *)

Lemma returns_drop_any t m o ws (Q : unit → world loc → Prop) :
  (∀ m', Q tt (World m' o ws)) → returns (drop_reference t) (World m o ws) Q.
Proof. intros HQ. unfold drop_reference. steps; [apply returns_treiber_push|]; apply HQ. Qed.

Lemma returns_pin_any t m o ws (Q : bool → world loc → Prop) :
  (∀ b m', Q b (World m' o ws)) → returns (Subscriber.pin t) (World m o ws) Q.
Proof. intros HQ. unfold Subscriber.pin. steps; apply HQ. Qed.

Lemma returns_lose_one s m o ws (Q : Subscriber.subscriber → world loc → Prop) :
  (∀ s' m', Subscriber.ring_idx_ s' = Subscriber.ring_idx_ s → Q s' (World m' o ws)) →
  returns (Subscriber.lose_one s) (World m o ws) Q.
Proof. intros HQ. unfold Subscriber.lose_one. steps. by apply HQ. Qed.

Lemma returns_read_committed s idx seq m o ws
    (Q : Subscriber.subscriber + (Subscriber.SampleView * Subscriber.subscriber) → world loc → Prop) :
  (∀ r m', match r with inl s' => Subscriber.ring_idx_ s' | inr (_, s') => Subscriber.ring_idx_ s' end
           = Subscriber.ring_idx_ s → Q r (World m' o ws)) →
  returns (Subscriber.read_committed s idx seq) (World m o ws) Q.
Proof.
  intros HQ. unfold Subscriber.read_committed. do 2 step.
  assert (∀ m', returns (Subscriber.lose_one s) (World m' o ws) (λ s' w', returns (Ret (inl s')) w' Q)) as Hlose.
  { intros m'. apply returns_lose_one. intros s' m2 E. step. by apply HQ. }
  destruct (Subscriber.check_claim _ _ _) as [t|]; [|by step].
  step. apply returns_pin_any. intros [] m1; cbn [negb]; [|step; apply Hlose].
  do 2 step. step; [step; apply returns_drop_any; intros; step; apply Hlose|].
  do 3 step; [step; apply returns_drop_any; intros; step; apply Hlose|]. step. by apply HQ.
Qed.

Lemma returns_receive_turn s m o ws
    (Q : Subscriber.subscriber + (option Subscriber.SampleView * Subscriber.subscriber) → world loc → Prop) :
  (∀ r m', match r with inl s' => Subscriber.ring_idx_ s' | inr (_, s') => Subscriber.ring_idx_ s' end
           = Subscriber.ring_idx_ s → Q r (World m' o ws)) →
  returns (Subscriber.receive_turn s) (World m o ws) Q.
Proof.
  intros HQ. unfold Subscriber.receive_turn. do 3 step; [step; by apply HQ|].
  step. apply (returns_mono _ _ (λ s1 w, ∃ m1, w = World m1 o ws ∧
    Subscriber.ring_idx_ s1 = Subscriber.ring_idx_ s)).
  { unfold Subscriber.resync. steps; by eexists. }
  intros s1 w (m1 & -> & E1). do 2 step. destruct (Subscriber.read_head _ _).
  - step. apply returns_read_committed. intros [s2|[v s2]] m2 E2; step; apply HQ; congruence.
  - step. apply returns_lose_one. intros s2 m2 E2. step. apply HQ. congruence.
  - step. by apply HQ.
Qed.

Lemma returns_try_receive_view_any s m o ws
    (Q : option Subscriber.SampleView * Subscriber.subscriber → world loc → Prop) :
  (∀ r s' m', Subscriber.ring_idx_ s' = Subscriber.ring_idx_ s → Q (r, s') (World m' o ws)) →
  returns (Subscriber.try_receive_view s) (World m o ws) Q.
Proof.
  intros HQ. unfold Subscriber.try_receive_view. step; [step; by apply HQ|]. step.
  apply (returns_for _ _ _ _ _ (λ _ s' w, ∃ m', w = World m' o ws ∧
    Subscriber.ring_idx_ s' = Subscriber.ring_idx_ s)).
  - by exists m.
  - intros i s1 w _ (m1 & -> & E1). apply returns_receive_turn.
    intros [s2|[v s2]] m2 E2; [exists m2; split; [done|congruence]|]. step. apply HQ. congruence.
  - intros s1 w (m1 & -> & E1). step. by apply HQ.
Qed.

Lemma returns_try_receive_any s m o ws
    (Q : option Subscriber.SampleRef * Subscriber.subscriber → world loc → Prop) :
  (∀ r s' m', Subscriber.ring_idx_ s' = Subscriber.ring_idx_ s → Q (r, s') (World m' o ws)) →
  returns (Subscriber.try_receive s) (World m o ws) Q.
Proof.
  intros HQ. unfold Subscriber.try_receive. step. apply returns_try_receive_view_any.
  intros [v|] s1 m1 E1; [|step; by apply HQ]. step. unfold Subscriber.view_bytes.
  apply returns_memcpy_out. step. unfold Subscriber.view_release.
  step; [do 2 step; by apply HQ|]. step. apply returns_drop_any. intros m2. do 2 step. by apply HQ.
Qed.

(** ** The blocking loop *)

Section blocking.
Context {A : Type} (attempt : Subscriber.subscriber → rprog (option A * Subscriber.subscriber)).
Context (Hattempt : ∀ s m o ws Q,
  (∀ r s' m', Subscriber.ring_idx_ s' = Subscriber.ring_idx_ s → Q (r, s') (World m' o ws)) →
  returns (attempt s) (World m o ws) Q).

(** Every turn that goes on has read the clock. *)
Lemma returns_blocking s timeout m o ws (Q : option A * Subscriber.subscriber → world loc → Prop) :
  0 < os_tick o →
  (∀ r s' m' o', Subscriber.ring_idx_ s' = Subscriber.ring_idx_ s →
     (r = None → Subscriber.ring_idx_ s ≠ Subscriber.NO_RING → timeout <= os_clock o' - os_clock o) →
     Q (r, s') (World m' o' ws)) →
  returns (Subscriber.blocking attempt s timeout) (World m o ws) Q.
Proof using Hattempt.
  intros Htick HQ. unfold Subscriber.blocking. step; [step; apply HQ; [done|]; intros _ Hne; lia|].
  do 2 step. set (start := os_clock o).
  apply (returns_loop_measure _ _ (λ k '(s', n) w, ∃ m' o', w = World m' o' ws ∧
    Subscriber.ring_idx_ s' = Subscriber.ring_idx_ s ∧ os_tick o' = os_tick o ∧
    k = Z.to_nat (timeout - (os_clock o' - start)))
    (Z.to_nat (timeout - (os_clock o + os_tick o - start)))).
  { exists m, (os_advance o (os_tick o)). done. }
  intros k [s1 n] w (m1 & o1 & -> & Es & Eo & ->). step. apply Hattempt. intros r s2 m2 E2.
  destruct r as [x|]; [step; apply HQ; [congruence|done]|].
  do 2 step. step.
  { step. apply HQ; [congruence|]. intros _ _. cbn. apply Z.leb_le in E0. fold start. lia. }
  apply Z.leb_gt in E0. fold start in E0.
  assert (∀ m' d, 0 <= d → ∃ n', (n' < Z.to_nat (timeout - (os_clock o1 - start)))%nat ∧
    ∃ m3 o3, World m' (os_advance (os_advance o1 (os_tick o1)) d) ws = World m3 o3 ws ∧
    Subscriber.ring_idx_ s2 = Subscriber.ring_idx_ s ∧ os_tick o3 = os_tick o ∧
    n' = Z.to_nat (timeout - (os_clock o3 - start))) as Hnext.
  { intros m' d Hd. eexists. split; [|do 2 eexists; split; [done|]; split; [congruence|]; split; [exact Eo|done]].
    cbn. lia. }
  assert (∀ o', os_advance o' 0 = o') as Hzero by (intros []; unfold os_advance; cbn; by rewrite Z.add_0_r).
  do 3 step.
  - do 4 step.
    + do 3 step. apply Hnext. lia.
    + do 3 step. rewrite <- (Hzero (os_advance o1 _)). by apply Hnext.
  - do 2 step.
    + do 2 step. rewrite <- (Hzero (os_advance o1 _)). by apply Hnext.
    + do 2 step. apply Hnext. lia.
Qed.
End blocking.

(** ** What a wait can be told *)

Lemma returns_wait_state g s i start wp hist m o ws (Q : Subscriber.Wait → world loc → Prop) :
  pool_geometry g → Subscriber.sub_geometry s = g → Subscriber.ring_idx_ s = i →
  0 <= i < max_subs g → window g m i start wp hist → is_pos (wp + 1) →
  start <= Subscriber.read_pos_ s <= wp →
  Q (if Subscriber.read_pos_ s <? wp then Subscriber.Ready else Subscriber.Armed) (World m o ws) →
  returns (Subscriber.wait_state s) (World m o ws) Q.
Proof.
  intros Hg Hsg Hi Hir Hw Hpos Hread HQ. pose proof (capacity_pos g Hg) as Hc.
  assert (max_subs g <= 65535) as Hms by (by destruct Hg as [_ [_ ?] _ _ _]).
  unfold Subscriber.wait_state. rewrite Hi, (proj2 (Z.eqb_neq i _)) by lia.
  unfold Subscriber.head_state. rewrite Hi, Hsg. cbn zeta. do 2 step. rewrite (wn_pos _ _ _ _ _ _ Hw).
  pose proof (wn_start _ _ _ _ _ _ Hw) as Hst. unfold is_pos in Hpos.
  destruct (Z.leb_spec wp (Subscriber.read_pos_ s)).
  { step. by rewrite (proj2 (Z.ltb_ge _ _)) in HQ. }
  rewrite (proj2 (Z.ltb_lt _ _)) in HQ by done. step; [by step|]. apply Z.ltb_ge in E.
  do 2 step. rewrite entry_of_pos, (wn_sequence _ _ _ _ _ _ Hw), Z.max_r by (done || lia).
  rewrite u64_small by word. rewrite seq_is_locked_ltb, seq_pos_mod by word.
  change SEQ_LOCK_BIT with 9223372036854775808. change SEQ_REPAIR_BIT with 4611686018427387904.
  rewrite Z.mod_small by lia. rewrite Z.ltb_irrefl, (proj2 (Z.leb_gt _ _)) by lia. step; [done|by step].
Qed.

(** ** Properties *)

(** C14. From any memory, a blocking receive ends; it returns without a sample only
    when its timeout has elapsed, or it has no ring. *)
Theorem blocking_receive_ends s timeout m o ws :
  0 < os_tick o →
  let timed_out {A} (r : option A) (o' : os) :=
    r = None → Subscriber.ring_idx_ s ≠ Subscriber.NO_RING → timeout <= os_clock o' - os_clock o in
  returns (Subscriber.receive s timeout) (World m o ws) (λ '(r, _) w', timed_out r (w_os w')) ∧
  returns (Subscriber.receive_view s timeout) (World m o ws) (λ '(r, _) w', timed_out r (w_os w')).
Proof.
  intros Htick timed_out. split.
  - apply returns_blocking; [intros; by apply returns_try_receive_any|done|]. by intros.
  - apply returns_blocking; [intros; by apply returns_try_receive_view_any|done|]. by intros.
Qed.

(** C26. On a ring whose entries are in order, [wait_state] says [Ready] exactly
    when a receive would return a sample, and [Armed] otherwise. *)
Theorem wait_state_exact g s i start wp hist pins fl res m o ws :
  pool_geometry g → slots_ok g m pins fl res → window g m i start wp hist → is_pos (wp + 1) →
  Subscriber.sub_geometry s = g → Subscriber.ring_idx_ s = i → 0 <= i < max_subs g →
  start <= Subscriber.read_pos_ s <= wp → is_u64 (Subscriber.lost_ s) →
  returns (w <- Subscriber.wait_state s ;; '(x, _) <- Subscriber.try_receive s ;; Ret (w, x))
    (World m o ws)
    (λ '(w, x) _, w = if bool_decide (is_Some x) then Subscriber.Ready else Subscriber.Armed).
Proof.
  intros Hg Hok Hw Hpos Hsg Hi Hir Hread Hlost. step.
  eapply returns_wait_state; [done..|]. step.
  eapply (returns_try_receive g Hg s i start wp hist); [done|done|done|done|done|done|exact Hok|exact Hw|..].
  - intros ->. step. by rewrite Z.ltb_irrefl.
  - intros r Hlt _. step. by rewrite (proj2 (Z.ltb_lt _ _)).
Qed.

(** *** Examples *)

(** A reader of ring 0 of the small region, and its first position a skip marker. *)
Definition tiny_reader : Subscriber.subscriber :=
  {| Subscriber.sub_geometry := tiny; Subscriber.ring_idx_ := 0; Subscriber.start_pos_ := 0;
     Subscriber.read_pos_ := 0; Subscriber.lost_ := 0; Subscriber.drain_timeouts_ := 0;
     Subscriber.recv_buf_ := replicate 8 0; Subscriber.waker_ := None |}.
Definition idle_os : os := Os 0 1000 1700 7 (λ _, None) 0.

Lemma blocking_receive_ends_witness :
  returns (Subscriber.receive tiny_reader 500) (World tiny_mem idle_os [])
    (λ '(r, _) w', r = None → 500 <= os_clock (w_os w')).
Proof.
  eapply returns_mono; [exact (proj1 (blocking_receive_ends tiny_reader 500 tiny_mem idle_os [] eq_refl))|].
  intros [r s'] w Hr ->. specialize (Hr eq_refl ltac:(discriminate)). cbn in Hr. lia.
Defined.

Lemma tiny_window i : window tiny tiny_mem i 0 0 (λ _, []).
Proof.
  split; [done|done| | |lia]; cbn; intros p Hp; [lia|].
  assert (p = -2 ∨ p = -1) as [-> | ->] by lia; reflexivity.
Qed.

Lemma wait_state_exact_witness :
  returns (w <- Subscriber.wait_state tiny_reader ;; '(x, _) <- Subscriber.try_receive tiny_reader ;; Ret (w, x))
    (World tiny_mem idle_os [])
    (λ '(w, x) _, w = if bool_decide (is_Some x) then Subscriber.Ready else Subscriber.Armed).
Proof.
  refine (wait_state_exact tiny tiny_reader 0 0 0 (λ _, []) (λ _, 0) [0; 1] [] tiny_mem idle_os []
    tiny_geometry tiny_free (tiny_window 0) _ eq_refl eq_refl _ _ _); vm_compute; intuition congruence.
Defined.

(** A repaired position makes [wait_state] say [Ready] though there is nothing to
    receive. *)
Definition skipped_mem : loc → Z :=
  <[Ent 0 0 sequence := seq_skip 0]> (<[Ring 0 write_pos := 1]> tiny_mem).

Lemma ready_without_sample :
  returns (w <- Subscriber.wait_state tiny_reader ;; '(x, s) <- Subscriber.try_receive tiny_reader ;;
           Ret (w, x, Subscriber.lost_ s))
    (World skipped_mem idle_os [])
    (λ r _, r = (Subscriber.Ready, None, 1)).
Proof. exists 100%nat. eexists _, _. split; [vm_compute; reflexivity|reflexivity]. Qed.
End Waiting.
