(* ===== verification/Naming.v ===== *)
(** * Shared-memory names ([src/Naming.cc])

    Names are byte lists.  [sanitize_shm_component] maps any name to one
    component [shm_open] accepts or throws; [compose_shm_name_on]
    assembles the final name on each platform.  The theorems give the charset of the result,
    idempotence, the exact inputs rejected and the length limit. *)

From S2P Require Import Prelude Prog Hash Layout.
Import Hash.

Module Naming.
Definition hex_digit (d : Z) : Z := if d <? 10 then 48 + d else 97 + (d - 10).

(** ["%016llx"] *)
Definition to_hex (v : Z) : list Z :=
  map (λ k, hex_digit (Z.land (Z.shiftr v (4 * (15 - Z.of_nat k))) 15)) (seq 0 16).

Definition slash : Z := 47.
Definition dot : Z := 46.
Definition underscore : Z := 95.
Definition hyphen : Z := 45.

(** [std::isalnum] in the "C" locale. *)
Definition isalnum (c : Z) : bool :=
  (48 <=? c) && (c <=? 57) || (65 <=? c) && (c <=? 90) || (97 <=? c) && (c <=? 122).

Definition sanitize_char (c : Z) : Z :=
  if (c =? slash) then dot
  else if isalnum c || (c =? underscore) || (c =? hyphen) || (c =? dot) then c
  else underscore.

(** The loop over the characters, with its [leading] flag. *)
Fixpoint sanitize_loop (leading : bool) (s : list Z) : list Z :=
  match s with
  | [] => []
  | c :: s =>
      if leading && (c =? slash) then sanitize_loop leading s
      else sanitize_char c :: sanitize_loop false s
  end.

Definition sanitize_shm_component (s : list Z) (what : string) : res (list Z) :=
  let out := sanitize_loop true s in
  if bool_decide (out = []) then
    inr (Exn invalid_argument
      ("kickmsg::sanitize_shm_component: " +:+ what +:+
       " name is empty after sanitization (input: '" +:+ text_of_bytes s +:+ "')"))
  else inl out.

Definition NAME_MAX : Z := 255.

Definition MAX_PATH : Z := 260.
Definition PSHMNAMLEN : nat := 31.

Inductive platform := Linux | Darwin | Windows.

Definition compose_shm_name_on (os : platform) (ns suffix : list Z) : res (list Z) :=
  match os with
  | Darwin => inl (take (PSHMNAMLEN - 1) (slash :: to_hex (fnv1a_64_str ns) ++ to_hex (fnv1a_64_str suffix)))
  | _ =>
      let out := slash :: ns ++ underscore :: suffix in
      let '(len, limit) := match os with
        | Windows => (Z.of_nat (length out), MAX_PATH)
        | _ => (Z.of_nat (length out) - 1, NAME_MAX)
        end in
      if limit <? len then
        inr (Exn system_error "kickmsg::compose_shm_name: shm name exceeds platform limit")
      else inl out
  end.

(** The one of the other components of the development. *)
Definition compose_shm_name : list Z → list Z → res (list Z) := compose_shm_name_on Linux.

(** ** Properties *)

(** The bytes a component may hold: [A-Za-z0-9._-]. *)
Definition portable (c : Z) : bool :=
  isalnum c || (c =? underscore) || (c =? hyphen) || (c =? dot).

Lemma sanitize_char_portable c : portable (sanitize_char c) = true.
Proof.
  unfold sanitize_char, portable. destruct (c =? slash); [done|].
  destruct (isalnum c || (_ : bool) || (_ : bool) || (_ : bool)) eqn:E; done.
Qed.

Lemma portable_not_slash c : portable c = true → (c =? slash) = false.
Proof.
  unfold portable, isalnum, slash, underscore, hyphen, dot. intros H.
  apply Z.eqb_neq. intros ->. discriminate H.
Qed.

Lemma sanitize_char_id c : portable c = true → sanitize_char c = c.
Proof.
  intros H. unfold sanitize_char. rewrite (portable_not_slash c H).
  unfold portable in H. by rewrite H.
Qed.

Lemma sanitize_loop_false s : sanitize_loop false s = map sanitize_char s.
Proof. induction s as [|c s IH]; simpl; [done|by rewrite IH]. Qed.

(** The loop drops the leading slashes and maps the rest. *)
Lemma sanitize_loop_spec s :
  ∃ n, sanitize_loop true s = map sanitize_char (drop n s) ∧
       take n s = replicate n slash ∧ head (drop n s) ≠ Some slash.
Proof.
  induction s as [|c s (n & E & Ht & Hh)]; [by exists 0%nat|].
  cbn [sanitize_loop andb]. destruct (Z.eqb_spec c slash) as [->|Hne].
  - exists (S n). simpl. by rewrite E, Ht.
  - exists 0%nat. rewrite sanitize_loop_false. simpl. split_and!; [done..|congruence].
Qed.

Lemma sanitize_loop_portable s : Forall (λ c, portable c = true) (sanitize_loop true s).
Proof.
  destruct (sanitize_loop_spec s) as (n & -> & _). apply Forall_forall.
  intros c (x & -> & _)%list_elem_of_fmap. apply sanitize_char_portable.
Qed.

Lemma sanitize_loop_id s : Forall (λ c, portable c = true) s → sanitize_loop true s = s.
Proof.
  intros H. destruct s as [|c s]; [done|]. inversion H as [|?? Hc Hs]; subst.
  cbn [sanitize_loop andb]. rewrite (portable_not_slash c Hc), sanitize_loop_false.
  rewrite (sanitize_char_id c Hc). f_equal.
  clear H Hc. induction Hs as [|d s Hd Hs IH]; simpl; [done|].
  by rewrite (sanitize_char_id d Hd), IH.
Qed.

Lemma sanitize_loop_nil s : sanitize_loop true s = [] ↔ s = replicate (length s) slash.
Proof.
  induction s as [|c s IH]; [done|]. cbn [sanitize_loop andb length replicate].
  destruct (Z.eqb_spec c slash) as [->|Hne].
  - rewrite IH. split; [by intros <-|by intros [= E]].
  - split; [done|]. by intros [= E].
Qed.

(** C29. Sanitising rejects exactly the names made of slashes alone (the empty
    name among them); an accepted name keeps its length but for the leading
    slashes, holds only portable characters, and sanitises to itself. *)
Theorem sanitize_spec s what :
  match sanitize_shm_component s what with
  | inr e => exn_kind_of e = invalid_argument ∧ s = replicate (length s) slash
  | inl out =>
      out ≠ [] ∧ Forall (λ c, portable c = true) out ∧
      (∃ n, take n s = replicate n slash ∧ head (drop n s) ≠ Some slash ∧
            out = map sanitize_char (drop n s)) ∧
      ∀ what', sanitize_shm_component out what' = inl out
  end.
Proof.
  unfold sanitize_shm_component. destruct (bool_decide_reflect (sanitize_loop true s = [])) as [E|E].
  - split; [done|]. by apply sanitize_loop_nil.
  - split; [done|]. split; [apply sanitize_loop_portable|]. split.
    + destruct (sanitize_loop_spec s) as (n & ? & ? & ?). eauto.
    + intros what'. rewrite (sanitize_loop_id (sanitize_loop true s)) by apply sanitize_loop_portable.
      by rewrite bool_decide_eq_false_2.
Qed.

(** *** Hexadecimal *)

Lemma hex_digit_inj d d' : 0 <= d < 16 → 0 <= d' < 16 → hex_digit d = hex_digit d' → d = d'.
Proof. unfold hex_digit. intros Hd Hd'. destruct (Z.ltb_spec d 10), (Z.ltb_spec d' 10); lia. Qed.

Lemma hex_digit_not_slash d : 0 <= d < 16 → hex_digit d ≠ slash.
Proof. unfold hex_digit, slash. destruct (Z.ltb_spec d 10); lia. Qed.

Lemma nibble_range v n : 0 <= Z.land (Z.shiftr v n) 15 < 16.
Proof. change 15 with (Z.ones 4). rewrite Z.land_ones by done. by apply Z.mod_pos_bound. Qed.

Lemma to_hex_length v : length (to_hex v) = 16%nat.
Proof. reflexivity. Qed.

Lemma to_hex_not_slash v : Forall (λ c, c ≠ slash) (to_hex v).
Proof. unfold to_hex. apply Forall_map, Forall_forall. intros k _. apply hex_digit_not_slash, nibble_range. Qed.

Lemma to_hex_lookup v k : (k < 16)%nat → to_hex v !! k = Some (hex_digit (Z.land (Z.shiftr v (4 * (15 - Z.of_nat k))) 15)).
Proof. intros Hk. unfold to_hex. rewrite list_lookup_fmap, lookup_seq_lt by done. done. Qed.

(** The first [n] digits are those of the [4 n] bits at the top. *)
Lemma to_hex_prefix n v v' : (n <= 16)%nat → is_u64 v → is_u64 v' →
  take n (to_hex v) = take n (to_hex v') ↔ Z.shiftr v (64 - 4 * Z.of_nat n) = Z.shiftr v' (64 - 4 * Z.of_nat n).
Proof.
  intros Hn Hv Hv'. set (b := 64 - 4 * Z.of_nat n). split.
  - intros He. apply Z.bits_inj'. intros i Hi. rewrite !Z.shiftr_spec by done.
    destruct (Z.lt_ge_cases (i + b) 64) as [Hlt|Hge].
    2: { by rewrite !(testbit_small _ 64) by (done || lia). }
    set (k := Z.to_nat (15 - (i + b) / 4)).
    assert (Z.of_nat k = 15 - (i + b) / 4) as Hk by (unfold k; rewrite Z2Nat.id by lia; done).
    assert (k < n)%nat as Hkn by lia.
    assert (take n (to_hex v) !! k = take n (to_hex v') !! k) as Hl by (by rewrite He).
    rewrite !lookup_take_lt, !to_hex_lookup in Hl by lia. injection Hl as Hl.
    apply hex_digit_inj in Hl; [|apply nibble_range..].
    assert (∀ x, Z.testbit x (i + b) = Z.testbit (Z.land (Z.shiftr x (4 * (15 - Z.of_nat k))) 15) ((i + b) mod 4)) as Hbit.
    { intros x. change 15 with (Z.ones 4) at 2. rewrite Z.land_spec, Z.shiftr_spec, Z.ones_spec_low, andb_true_r by lia.
      f_equal. lia. }
    by rewrite (Hbit v), (Hbit v'), Hl.
  - intros He. apply list_eq. intros k. destruct (decide (k < n)%nat).
    2: { by rewrite !lookup_take_ge by lia. }
    rewrite !lookup_take_lt, !to_hex_lookup by lia. do 3 f_equal.
    replace (4 * (15 - Z.of_nat k)) with (b + (4 * (15 - Z.of_nat k) - b)) by lia.
    by rewrite <- !Z.shiftr_shiftr, He by lia.
Qed.

(** C30. On every platform the name a channel is opened under starts with its only
    slash and fits the platform: a file name of [NAME_MAX] bytes on Linux, [MAX_PATH]
    in all on Windows, 30 characters on Darwin, where nothing is refused; elsewhere
    the parts are refused exactly when they would not fit. *)
Theorem compose_spec os s t ns suffix :
  sanitize_shm_component s "namespace" = inl ns →
  sanitize_shm_component t "topic" = inl suffix →
  match compose_shm_name_on os ns suffix with
  | inl out =>
      match os with
      | Linux => Z.of_nat (length (tail out)) <= NAME_MAX
      | Windows => Z.of_nat (length out) <= MAX_PATH
      | Darwin => length out = 30%nat
      end ∧ head out = Some slash ∧ slash ∉ tail out
  | inr e =>
      exn_kind_of e = system_error ∧
      match os with
      | Linux => NAME_MAX < Z.of_nat (length ns) + 1 + Z.of_nat (length suffix)
      | Windows => MAX_PATH < Z.of_nat (length ns) + 2 + Z.of_nat (length suffix)
      | Darwin => False
      end
  end.
Proof.
  unfold sanitize_shm_component. do 2 (case_bool_decide; [done|]). intros [= <-] [= <-].
  pose proof (sanitize_loop_portable s) as Hs. pose proof (sanitize_loop_portable t) as Ht.
  set (ns := sanitize_loop true s) in *. set (suffix := sanitize_loop true t) in *.
  assert (slash ∉ tail (slash :: ns ++ underscore :: suffix)) as Hslash.
  { simpl. rewrite elem_of_app, elem_of_cons. intros [E|[E|E]]; [|done|];
      [eapply Forall_forall in E; [|exact Hs]|eapply Forall_forall in E; [|exact Ht]];
      by apply portable_not_slash in E. }
  assert (length (slash :: ns ++ underscore :: suffix) = S (length ns + S (length suffix))) as Hlen
    by (cbn [length]; by rewrite length_app).
  unfold compose_shm_name_on. set (out := slash :: ns ++ _) in *. destruct os; cbn zeta iota beta.
  - destruct (Z.ltb_spec NAME_MAX (Z.of_nat (length out) - 1)); [split; [done|lia]|].
    split; [unfold out in *; simpl in *; lia|done].
  - split; [by rewrite length_take, length_cons, length_app, !to_hex_length|]. split; [done|].
    change (take (PSHMNAMLEN - 1) (slash :: ?l)) with (slash :: take 29 l). cbn [tail]. intros Hin.
    assert (Forall (λ c, c ≠ slash) (take 29 (to_hex (fnv1a_64_str ns) ++ to_hex (fnv1a_64_str suffix)))) as Hf
      by (apply Forall_take, Forall_app; split; apply to_hex_not_slash).
    eapply Forall_forall in Hf; [|exact Hin]. done.
  - destruct (Z.ltb_spec MAX_PATH (Z.of_nat (length out))); [split; [done|lia]|].
    split; [lia|done].
Qed.

Lemma compose_spec_witness :
  ∃ out, compose_shm_name (str "kickmsg") (str "robot.arm") = inl out ∧
    Z.of_nat (length (tail out)) <= NAME_MAX ∧ head out = Some slash ∧ slash ∉ tail out.
Proof.
  exists (str "/kickmsg_robot.arm"). split; [reflexivity|].
  exact (compose_spec Linux (str "kickmsg") (str "//robot/arm") _ _ eq_refl eq_refl).
Defined.

(** Distinct parts can compose to one name: the collision [identity_hash] catches. *)
Example compose_collision :
  compose_shm_name (str "a_b") (str "c") = compose_shm_name (str "a") (str "b_c").
Proof. reflexivity. Qed.

Lemma to_hex_inj v v' : is_u64 v → is_u64 v' → to_hex v = to_hex v' ↔ v = v'.
Proof.
  intros Hv Hv'. pose proof (to_hex_prefix 16 v v' ltac:(lia) Hv Hv') as Hp.
  rewrite !take_ge in Hp by (by rewrite to_hex_length). rewrite Hp. cbn. by rewrite !Z.shiftr_0_r.
Qed.

(** On Darwin two pairs share a name exactly when their namespaces hash alike and
    their suffixes agree on the top 52 bits of their hashes. *)
Lemma darwin_collisions ns suffix ns' suffix' :
  compose_shm_name_on Darwin ns suffix = compose_shm_name_on Darwin ns' suffix' ↔
  fnv1a_64_str ns = fnv1a_64_str ns' ∧ Z.shiftr (fnv1a_64_str suffix) 12 = Z.shiftr (fnv1a_64_str suffix') 12.
Proof.
  assert (∀ x, is_u64 (fnv1a_64_str x)) as Hu by (intros x; by apply fnv1a_64_range).
  assert (∀ a b, compose_shm_name_on Darwin a b = inl (slash :: to_hex (fnv1a_64_str a) ++ take 13 (to_hex (fnv1a_64_str b)))) as Hc
    by reflexivity.
  rewrite !Hc, <- to_hex_inj by done. change 12 with (64 - 4 * Z.of_nat 13). rewrite <- to_hex_prefix by (done || lia).
  split; [|by intros [-> ->]]. intros He.
  apply (f_equal (λ r, match r with inl l => tail l | inr _ => [] end)) in He. cbn [tail] in He.
  by apply app_inj_1 in He.
Qed.

Example to_hex_sample : to_hex 0xcbf29ce484222325 = str "cbf29ce484222325".
Proof. reflexivity. Qed.
End Naming.
