(* ===== verification/Registry.v ===== *)
(** * The participant registry ([src/Registry.cc], [include/kickmsg/Registry.h])

    One segment per namespace: a header and an array of [ParticipantEntry]
    rows.  A row's [state] says who may write it, and its [generation] is even
    when the row is settled and odd while a writer or a sweeper holds it. *)

From stdpp Require Import gmap sorting.
From S2P Require Import Prelude Prog Hash Types Layout Words Shm Process Naming.

Module Registry.
Definition VERSION : Z := 5.
Definition MAGIC : Z := 0x214745524B43494B.
Definition DEFAULT_CAPACITY : Z := 4096.
Definition SHM_NAME_MAX : Z := 128.
Definition TOPIC_NAME_MAX : Z := 128.
Definition NODE_NAME_MAX : Z := 64.

(** [registry::Role] *)
Module Role.
Definition Publisher : Z := 1.
Definition Subscriber : Z := 2.
Definition Both : Z := 3.
End Role.

(** [registry::Kind] *)
Module Kind.
Definition Pubsub : Z := 1.
Definition Broadcast : Z := 2.
Definition Mailbox : Z := 3.
Definition Blackboard : Z := 4.
End Kind.

(** [registry::SlotState] *)
Definition Free : Z := 0.
Definition Claiming : Z := 1.
Definition Active : Z := 2.
Definition Reclaiming : Z := 3.

Definition INVALID_SLOT : Z := Types.INVALID_SLOT.

Inductive gfield := magic | version | capacity.
Inductive pfield :=
  | state | channel_type | role | kind | generation | pid | pid_starttime | created_at_ns.
Inductive nfield := shm_name | topic_name | node_name.
Inductive rloc :=
  | Hdr (f : gfield)
  | Row (i : Z) (f : pfield)
  | NameWord (i : Z) (n : nfield) (w : Z)
  | Pad (i j : Z).

#[export] Instance gfield_eq_dec : EqDecision gfield.
Proof. solve_decision. Defined.
#[export] Instance pfield_eq_dec : EqDecision pfield.
Proof. solve_decision. Defined.
#[export] Instance nfield_eq_dec : EqDecision nfield.
Proof. solve_decision. Defined.
#[export] Instance rloc_eq_dec : EqDecision rloc.
Proof. solve_decision. Defined.

Definition SIZEOF_REGISTRY_HEADER : Z := 64.
Definition SIZEOF_PARTICIPANT_ENTRY : Z := 512.
Definition PADDING : Z := 144.

Definition field_size (n : nfield) : Z :=
  match n with
  | shm_name => SHM_NAME_MAX
  | topic_name => TOPIC_NAME_MAX
  | node_name => NODE_NAME_MAX
  end.

Abbreviation gprog A := (prog rloc A).

(** ** Rows *)

Definition open_generation (i : Z) : gprog unit :=
  g <- load (Row i generation) ;;
  store (Row i generation) (Z.lor (u32 (g + 1)) 1).

Definition settle_generation (i : Z) : gprog unit :=
  g <- load (Row i generation) ;;
  store (Row i generation) (Z.ldiff (u32 (g + 2)) 1).

(** The [NAME_BUFFER] bytes that go into a field: truncated, NUL-padded. *)
Definition name_bytes (size : Z) (name : list Z) : list Z :=
  let kept := take (Z.to_nat (size - 1)) name in
  kept ++ replicate (Z.to_nat size - length kept) 0.

Definition store_name (i : Z) (n : nfield) (name : list Z) : gprog unit :=
  store_words (NameWord i n) (name_bytes (field_size n) name).

(** [strnlen] bytes. *)
Fixpoint until_nul (bs : list Z) : list Z :=
  match bs with
  | [] => []
  | b :: bs => if b =? 0 then [] else b :: until_nul bs
  end.

Definition load_name (i : Z) (n : nfield) : gprog (list Z) :=
  bytes <- load_words (NameWord i n) (field_size n) ;;
  Ret (until_nul bytes).

Definition acquire_tenancy (i g : Z) : gprog bool :=
  if negb (Z.land g 1 =? 0) then Ret false
  else
    '(ok, _) <- compare_exchange_strong (Row i generation) g (u32 (g + 1)) ;;
    Ret ok.

(** ** Opening *)

Record registry := { reg_name_ : list Z; capacity_ : Z }.

Definition region_size (cap : Z) : Z :=
  u64 (SIZEOF_REGISTRY_HEADER + u64 (cap * SIZEOF_PARTICIPANT_ENTRY)).

Definition make_shm_name (kmsg_namespace : list Z) : res (list Z) :=
  res_bind (Naming.sanitize_shm_component kmsg_namespace "namespace") (λ ns,
  Naming.compose_shm_name ns (str "registry")).

(** Every location of a row. *)
Definition row_locs (i : Z) : list rloc :=
  map (Row i) [state; channel_type; role; kind; generation; pid; pid_starttime;
               created_at_ns] ++
  (n ← [shm_name; topic_name; node_name];
   map (λ w, NameWord i n (Z.of_nat w)) (seq 0 (Z.to_nat (field_size n `div` 8)))) ++
  map (λ j, Pad i (Z.of_nat j)) (seq 0 (Z.to_nat PADDING)).

Definition init_as_creator (cap : Z) : gprog unit :=
  zero_locs [Hdr magic; Hdr version; Hdr capacity] ;;
  foreach (Z.to_nat cap) 0 tt (λ i _, zero_locs (row_locs i)) ;;
  store (Hdr version) VERSION ;;
  store (Hdr capacity) cap ;;
  store (Hdr magic) MAGIC.

Section shm.
Context `{SharedMemory rloc}.

Definition spin_open (name : list Z) : gprog (option registry) :=
  r <- for_ 200 0 tt (λ _ _,
    opened <- shm_try_open ;;
    ready <- (match opened with
              | None => Ret None
              | Some size =>
                  if size <? SIZEOF_REGISTRY_HEADER then Ret None
                  else
                    m <- load (Hdr magic) ;;
                    if negb (m =? MAGIC) then Ret None
                    else
                      v <- load (Hdr version) ;;
                      if negb (v =? VERSION) then
                        throw version_mismatch
                          ("Registry version mismatch on " +:+ text_of_bytes name +:+
                           ": stamped by an incompatible kickmsg build; stop its users and " +:+
                           "remove it with Registry::unlink()")
                      else
                        cap <- load (Hdr capacity) ;;
                        let avail := size - SIZEOF_REGISTRY_HEADER in
                        if avail `div` SIZEOF_PARTICIPANT_ENTRY <? cap then
                          throw runtime_error
                            ("Registry capacity exceeds segment on " +:+ text_of_bytes name)
                        else Ret (Some {| reg_name_ := name; capacity_ := cap |})
              end) ;;
    match ready with
    | Some reg => Ret (inr reg)
    | None => sleep 10000000 ;; Ret (inl tt)
    end) ;;
  match r with
  | inl _ => Ret None
  | inr reg => Ret (Some reg)
  end.

Definition open_or_create (kmsg_namespace : list Z) (cap : Z) : gprog registry :=
  if cap =? 0 then throw invalid_argument "Registry capacity must be > 0"
  else
    name <- of_res (make_shm_name kmsg_namespace) ;;
    created <- shm_try_create (region_size cap) ;;
    if created : bool then
      init_as_creator cap ;;
      Ret {| reg_name_ := name; capacity_ := cap |}
    else
      opened <- spin_open name ;;
      match opened with
      | Some reg => Ret reg
      | None =>
          throw runtime_error
            ("Timed out waiting for registry init: " +:+ text_of_bytes name)
      end.

Definition try_open (kmsg_namespace : list Z) : gprog (option registry) :=
  name <- of_res (make_shm_name kmsg_namespace) ;;
  probe <- shm_try_open ;;
  match probe with
  | None => Ret None
  | Some _ => spin_open name
  end.

Definition unlink (kmsg_namespace : list Z) : gprog unit :=
  of_res (make_shm_name kmsg_namespace) ;;;
  shm_unlink.
End shm.

(** ** Sweeping *)

(** Clear a held row's identity and settle its generation. *)
Definition clear_identity (i : Z) : gprog unit :=
  store (Row i pid) 0 ;;
  store (Row i pid_starttime) 0 ;;
  settle_generation i.

(** One row of [sweep_stale]: was it freed? *)
Definition sweep_row (i : Z) : gprog bool :=
  s <- load (Row i state) ;;
  if negb (s =? Active) && negb (s =? Claiming) then Ret false
  else
    g1 <- load (Row i generation) ;;
    if negb (Z.land g1 1 =? 0) then Ret false
    else
      p <- load (Row i pid) ;;
      stored_start <- load (Row i pid_starttime) ;;
      g2 <- load (Row i generation) ;;
      if negb (g2 =? g1) then Ret false
      else if p =? 0 then Ret false
      else
        dead <- Process.owner_is_dead p stored_start ;;
        if negb dead then Ret false
        else
          held <- acquire_tenancy i g1 ;;
          if negb held then Ret false
          else
            store (Row i state) Reclaiming ;;
            clear_identity i ;;
            compare_exchange_strong (Row i state) Reclaiming Free ;;;
            Ret true.

Definition sweep_stale (r : registry) : gprog Z :=
  foreach (Z.to_nat (capacity_ r)) 0 0 (λ i freed,
    ok <- sweep_row i ;;
    Ret (if ok : bool then u32 (freed + 1) else freed)).

(** ** Registering *)

(** The fields a registration writes. *)
Record registration := {
  r_shm_name : list Z;
  r_topic_name : list Z;
  r_channel_type : Z;
  r_kind : Z;
  r_role : Z;
  r_node_name : list Z
}.

(** Fill a row this process has claimed. *)
Definition write_row (i : Z) (a : registration) (my_pid my_starttime now_ns : Z)
    : gprog unit :=
  open_generation i ;;
  store (Row i pid_starttime) my_starttime ;;
  store (Row i pid) my_pid ;;
  store (Row i channel_type) (r_channel_type a) ;;
  store (Row i role) (r_role a) ;;
  store (Row i kind) (r_kind a) ;;
  store (Row i created_at_ns) now_ns ;;
  store_name i shm_name (r_shm_name a) ;;
  store_name i topic_name (r_topic_name a) ;;
  store_name i node_name (r_node_name a) ;;
  memset_zero (Pad i) PADDING ;;
  store (Row i state) Active ;;
  settle_generation i.

(** The lambda [try_claim]. *)
Definition try_claim (r : registry) (a : registration) : gprog Z :=
  my_pid <- current_pid ;;
  my_starttime <- Process.process_starttime my_pid ;;
  now <- since_epoch ;;
  c <- for_ (Z.to_nat (capacity_ r)) 0 tt (λ i _,
    '(ok, _) <- compare_exchange_strong (Row i state) Free Claiming ;;
    if negb ok then Ret (inl tt)
    else
      write_row i a my_pid my_starttime (u64 now) ;;
      Ret (inr i)) ;;
  match c with
  | inl _ => Ret INVALID_SLOT
  | inr i => Ret i
  end.

Definition register_participant (r : registry) (a : registration) : gprog Z :=
  slot <- try_claim r a ;;
  if negb (slot =? INVALID_SLOT) then Ret slot
  else
    c <- for_ 3 0 tt (λ _ _,
      freed <- sweep_stale r ;;
      if freed =? 0 then Ret (inr INVALID_SLOT)
      else
        slot <- try_claim r a ;;
        if negb (slot =? INVALID_SLOT) then Ret (inr slot) else Ret (inl tt)) ;;
    match c with
    | inl _ => Ret INVALID_SLOT
    | inr slot => Ret slot
    end.

Definition deregister (r : registry) (slot_index : Z) : gprog unit :=
  if slot_index =? INVALID_SLOT then Ret tt
  else if capacity_ r <=? slot_index then Ret tt
  else
    '(ok, _) <- compare_exchange_strong (Row slot_index state) Active Reclaiming ;;
    if negb ok then Ret tt
    else
      open_generation slot_index ;;
      clear_identity slot_index ;;
      compare_exchange_strong (Row slot_index state) Reclaiming Free ;;;
      Ret tt.

(** ** Reading *)

Record Participant := {
  p_pid : Z;
  p_pid_starttime : Z;
  p_created_at_ns : Z;
  p_channel_type : Z;
  p_role : Z;
  p_kind : Z;
  p_shm_name : list Z;
  p_topic_name : list Z;
  p_node_name : list Z
}.

Definition read_row (i : Z) : gprog Participant :=
  ppid <- load (Row i pid) ;;
  start <- load (Row i pid_starttime) ;;
  created <- load (Row i created_at_ns) ;;
  type <- load (Row i channel_type) ;;
  prole <- load (Row i role) ;;
  pkind <- load (Row i kind) ;;
  shm <- load_name i shm_name ;;
  topic <- load_name i topic_name ;;
  node <- load_name i node_name ;;
  Ret {| p_pid := ppid; p_pid_starttime := start; p_created_at_ns := created;
         p_channel_type := type; p_role := prole; p_kind := pkind;
         p_shm_name := shm; p_topic_name := topic; p_node_name := node |}.

(** One row of the snapshot: nothing unless Active and settled throughout. *)
Definition snapshot_row (i : Z) : gprog (option Participant) :=
  s1 <- load (Row i state) ;;
  if negb (s1 =? Active) then Ret None
  else
    g1 <- load (Row i generation) ;;
    if negb (Z.land g1 1 =? 0) then Ret None
    else
      p <- read_row i ;;
      g2 <- load (Row i generation) ;;
      s2 <- load (Row i state) ;;
      if negb (s2 =? Active) || negb (g1 =? g2) then Ret None
      else Ret (Some p).

Definition snapshot (r : registry) : gprog (list Participant) :=
  foreach (Z.to_nat (capacity_ r)) 0 [] (λ i out,
    p <- snapshot_row i ;;
    Ret (match p with Some p => out ++ [p] | None => out end)).

Record TopicSummary := {
  t_shm_name : list Z;
  t_topic_name : list Z;
  t_channel_type : Z;
  t_kind : Z;
  producers : list Participant;
  consumers : list Participant;
  stall_producers : list Participant;
  stall_consumers : list Participant
}.

Definition is_pub (p : Participant) : bool :=
  (p_role p =? Role.Publisher) || (p_role p =? Role.Both).
Definition is_sub (p : Participant) : bool :=
  (p_role p =? Role.Subscriber) || (p_role p =? Role.Both).

(** Add a participant to its topic's lists. *)
Definition add_participant (alive : bool) (p : Participant) (sum : TopicSummary)
    : TopicSummary := {|
  t_shm_name := t_shm_name sum; t_topic_name := t_topic_name sum;
  t_channel_type := t_channel_type sum; t_kind := t_kind sum;
  producers := if is_pub p && alive then producers sum ++ [p] else producers sum;
  consumers := if is_sub p && alive then consumers sum ++ [p] else consumers sum;
  stall_producers := if is_pub p && negb alive then stall_producers sum ++ [p]
                     else stall_producers sum;
  stall_consumers := if is_sub p && negb alive then stall_consumers sum ++ [p]
                     else stall_consumers sum |}.

Definition new_summary (p : Participant) : TopicSummary := {|
  t_shm_name := p_shm_name p; t_topic_name := p_topic_name p;
  t_channel_type := p_channel_type p; t_kind := p_kind p;
  producers := []; consumers := []; stall_producers := []; stall_consumers := [] |}.

(** [std::string::operator<=]: unsigned bytes, lexicographic. *)
Fixpoint bytes_le (a b : list Z) : bool :=
  match a, b with
  | [], _ => true
  | _ :: _, [] => false
  | x :: a, y :: b => if x =? y then bytes_le a b else x <? y
  end.

Definition summary_le (a b : TopicSummary) : Prop :=
  bytes_le (t_shm_name a) (t_shm_name b) = true.
#[export] Instance summary_le_dec : RelDecision summary_le.
Proof. intros a b. unfold summary_le. apply _. Defined.

Fixpoint group_topics (raw : list Participant) (by_shm : gmap (list Z) TopicSummary)
    : gprog (gmap (list Z) TopicSummary) :=
  match raw with
  | [] => Ret by_shm
  | p :: raw =>
      let sum := default (new_summary p) (by_shm !! p_shm_name p) in
      alive <- process_exists (p_pid p) ;;
      group_topics raw (<[p_shm_name p := add_participant alive p sum]> by_shm)
  end.

Definition list_topics (r : registry) : gprog (list TopicSummary) :=
  raw <- snapshot r ;;
  by_shm <- group_topics raw ∅ ;;
  Ret (merge_sort summary_le (map snd (map_to_list by_shm))).
End Registry.
