(* ===== verification/Directory.v ===== *)
(** * The registry is a directory

    What [Registry] promises its users: a table of as many rows as its capacity,
    each vacant or listing one participant.  Registering takes the first vacant
    row, evicting the participants whose processes are dead only when there is
    none; a snapshot lists the rows in order.  The rows of [Registry.v] refine
    it: names are truncated to their field and cut at a NUL, and every
    operation leaves the generations of all rows even. *)

From S2P Require Import Prelude Prog Sessions Hash Types Layout Words Shm Process Registry.
Import Registry.

Module Directory.
(** ** The promise *)

Abbreviation directory := (list (option Participant)).

Definition vacant (row : option Participant) : bool := match row with None => true | Some _ => false end.
Definition first_vacant (dir : directory) : option nat := first_index vacant dir.

Definition gone (o : os) (p : Participant) : bool :=
  Process.dead_verdict (os_procs o) (p_pid p) (p_pid_starttime p).

Definition keep_alive (o : os) (row : option Participant) : option Participant :=
  match row with Some p => if gone o p then None else Some p | None => None end.

Definition departed (o : os) (row : option Participant) : bool :=
  match row with Some p => gone o p | None => false end.

(** How many rows are freed. *)
Definition departures (o : os) (dir : directory) : nat := length (List.filter (departed o) dir).

Definition evict (o : os) (dir : directory) : directory := map (keep_alive o) dir.

Definition listing (dir : directory) : list Participant := omap id dir.

Lemma first_vacant_is dir i :
  dir !! i = Some None → (∀ j, (j < i)%nat → dir !! j ≠ Some None) → first_vacant dir = Some i.
Proof.
  intros Hi Hbefore. eapply first_index_is; [exact Hi|done|].
  intros j [p|] Hj Hrow; [done|by destruct (Hbefore j)].
Qed.

Lemma first_vacant_none dir : (∀ j, dir !! j ≠ Some None) → first_vacant dir = None.
Proof. intros Hall. apply first_index_none. intros j [p|] Hrow; [done|by destruct (Hall j)]. Qed.

Lemma first_vacant_lookup dir i : first_vacant dir = Some i → dir !! i = Some None.
Proof. intros Hf. apply first_index_lookup in Hf as ([p|] & ? & ?); done. Qed.

Lemma evict_none o dir : departures o dir = 0%nat → evict o dir = dir.
Proof.
  unfold departures. induction dir as [|[p|] dir IH]; cbn; [done|..]; [|intros Hd; by f_equal; apply IH].
  destruct (gone o p); [done|]. intros Hd. by f_equal; apply IH.
Qed.

Lemma evict_some o dir : departures o dir ≠ 0%nat → ∃ i, first_vacant (evict o dir) = Some i.
Proof.
  unfold departures. induction dir as [|[p|] dir IH]; cbn; [done|..]; [|by eauto].
  destruct (gone o p); cbn; [by eauto|]. intros Hd. destruct (IH Hd) as [i Hi]. exists (S i).
  unfold evict, first_vacant in Hi. unfold first_vacant. cbn. by rewrite Hi.
Qed.

Lemma departures_bound o dir : (departures o dir <= length dir)%nat.
Proof. apply filter_length_le. Qed.

Lemma departures_snoc o dir row :
  departures o (dir ++ [row]) = (departures o dir + if departed o row then 1 else 0)%nat.
Proof. unfold departures. rewrite List.filter_app, length_app. cbn. by destruct (departed o row). Qed.

(** A name as a field keeps it. *)
Definition kept_name (n : nfield) (name : list Z) : list Z :=
  until_nul (take (Z.to_nat (field_size n - 1)) name).

(** What the calling process enters. *)
Definition participant_of (o : os) (a : registration) : Participant :=
  {| p_pid := os_pid o; p_pid_starttime := Process.starttime_of o; p_created_at_ns := u64 (os_epoch o);
     p_channel_type := r_channel_type a; p_role := r_role a; p_kind := r_kind a;
     p_shm_name := kept_name shm_name (r_shm_name a);
     p_topic_name := kept_name topic_name (r_topic_name a);
     p_node_name := kept_name node_name (r_node_name a) |}.

Definition enter (o : os) (a : registration) (dir : directory) : option nat * directory :=
  match first_vacant dir with
  | Some i => (Some i, <[i := Some (participant_of o a)]> dir)
  | None =>
      match first_vacant (evict o dir) with
      | Some i => (Some i, <[i := Some (participant_of o a)]> (evict o dir))
      | None => (None, dir)
      end
  end.

Definition vacate (i : Z) (dir : directory) : directory :=
  if i <? Z.of_nat (length dir) then <[Z.to_nat i := None]> dir else dir.

(** ** What a row says *)

Definition stored_name (m : rloc → Z) (i : Z) (n : nfield) : list Z :=
  let size := Z.to_nat (field_size n) in
  until_nul (unwords size (load_list (NameWord i n) 0 (nwords size) m)).

Definition row_at (m : rloc → Z) (i : Z) : Participant :=
  {| p_pid := m (Row i pid); p_pid_starttime := m (Row i pid_starttime);
     p_created_at_ns := m (Row i created_at_ns); p_channel_type := m (Row i channel_type);
     p_role := m (Row i role); p_kind := m (Row i kind);
     p_shm_name := stored_name m i shm_name; p_topic_name := stored_name m i topic_name;
     p_node_name := stored_name m i node_name |}.

Definition is_even (g : Z) : Prop := is_u32 g ∧ g `mod` 2 = 0.

(** A row nobody is changing. *)
Definition shows (m : rloc → Z) (i : Z) (row : option Participant) : Prop :=
  is_even (m (Row i generation)) ∧
  match row with
  | None => m (Row i state) = Free
  | Some p => m (Row i state) = Active ∧ row_at m i = p
  end.

Definition refines (r : registry) (m : rloc → Z) (dir : directory) : Prop :=
  Z.of_nat (length dir) = capacity_ r ∧
  ∀ i row, dir !! i = Some row → shows m (Z.of_nat i) row.

(** *** Frames *)

Definition row_of (l : rloc) : option Z :=
  match l with Hdr _ => None | Row i _ | NameWord i _ _ | Pad i _ => Some i end.

Lemma row_at_ext m m' i : (∀ l, row_of l = Some i → m' l = m l) → row_at m' i = row_at m i.
Proof.
  intros Hm. unfold row_at, stored_name. rewrite !Hm by done.
  by rewrite !(load_list_ext _ _ _ m' m) by (intros; by apply Hm).
Qed.

Lemma shows_ext m m' i row : (∀ l, row_of l = Some i → m' l = m l) → shows m i row → shows m' i row.
Proof.
  intros Hm [Hg Hs]. unfold shows. rewrite !Hm by done. split; [done|].
  destruct row as [p|]; [|done]. by rewrite (row_at_ext _ _ _ Hm).
Qed.

(** One row changes. *)
Lemma refines_row r m m' dir i row :
  refines r m dir → (∀ l, row_of l ≠ Some (Z.of_nat i) → m' l = m l) → shows m' (Z.of_nat i) row →
  refines r m' (<[i:=row]> dir).
Proof.
  intros [Hlen Hr] Hm Hs. split; [by rewrite length_insert|]. intros j row' Hj.
  apply list_lookup_insert_Some in Hj as [(<- & <- & _)|[Hne Hj]]; [done|].
  eapply shows_ext; [|by apply Hr]. intros l Hl. apply Hm. rewrite Hl. intros [= E]. lia.
Qed.

(** *** Generations *)

Lemma settled_even g : is_even (Z.ldiff (u32 (g + 2)) 1).
Proof.
  pose proof (u32_range (g + 2)) as Hr. unfold is_even, is_u32 in *.
  assert (Z.ldiff (u32 (g + 2)) 1 = 2 * (u32 (g + 2) / 2)) as ->; [|lia].
  change 1 with (Z.ones 1). rewrite Z.ldiff_ones_r by lia.
  rewrite Z.shiftl_mul_pow2, Z.shiftr_div_pow2 by lia. change (2 ^ 1) with 2. lia.
Qed.

Lemma even_land g : is_even g → Z.land g 1 = 0.
Proof. intros [_ Hg]. change 1 with (Z.ones 1). by rewrite Z.land_ones. Qed.

(** *** Names *)

Lemma until_nul_app bs k : until_nul (bs ++ replicate k 0) = until_nul bs.
Proof.
  induction bs as [|b bs IH]; cbn; [by destruct k|]. destruct (b =? 0); [done|]. by rewrite IH.
Qed.

Lemma field_size_pos n : 64 <= field_size n <= 128.
Proof. by destruct n. Qed.

Lemma length_name_bytes n name : length (name_bytes (field_size n) name) = Z.to_nat (field_size n).
Proof.
  pose proof (field_size_pos n). unfold name_bytes.
  rewrite length_app, length_replicate, length_take. lia.
Qed.

Lemma stored_name_of m i n name m' :
  Forall is_u8 name →
  (∀ w, m' (NameWord i n w) = store_list (NameWord i n) 0 (words_of (name_bytes (field_size n) name)) m (NameWord i n w)) →
  stored_name m' i n = kept_name n name.
Proof.
  intros Hu Hm. unfold stored_name, kept_name.
  rewrite (load_list_ext _ _ _ m' (store_list (NameWord i n) 0 (words_of (name_bytes (field_size n) name)) m))
    by (intros; apply Hm).
  rewrite <- (length_name_bytes n name), <- length_words_of, load_store_list by (by intros ? ? [=]).
  rewrite unwords_words_of; [by apply until_nul_app|].
  unfold name_bytes. apply Forall_app. split; [by apply Forall_take|by apply Forall_replicate].
Qed.

(** ** The operations *)

Section operations.
Implicit Types (m : rloc → Z) (o : os) (ws : list rloc).

Definition typed (a : registration) : Prop :=
  Forall is_u8 (r_shm_name a) ∧ Forall is_u8 (r_topic_name a) ∧ Forall is_u8 (r_node_name a).

Lemma returns_store_name i n name m o ws (Q : unit → world rloc → Prop) :
  (∀ m', (∀ l, (∀ w, l ≠ NameWord i n w) → m' l = m l) → (Forall is_u8 name → stored_name m' i n = kept_name n name) →
     Q tt (World m' o ws)) →
  returns (store_name i n name) (World m o ws) Q.
Proof.
  intros HQ. unfold store_name. apply returns_store_words. cbn [set_mem w_mem w_os w_wakes]. apply HQ.
  - intros l Hl. by apply store_list_other.
  - intros Hu. by eapply stored_name_of.
Qed.

Lemma stored_name_ext m m' i n : (∀ w, m' (NameWord i n w) = m (NameWord i n w)) → stored_name m' i n = stored_name m i n.
Proof. intros Hm. unfold stored_name. by rewrite (load_list_ext _ _ _ m' m) by (intros; apply Hm). Qed.

(** A row this process has claimed lists it. *)
Lemma returns_write_row i a my_pid my_starttime now m o ws (Q : unit → world rloc → Prop) :
  typed a →
  (∀ m', (∀ l, row_of l ≠ Some i → m' l = m l) → shows m' i (Some
     {| p_pid := my_pid; p_pid_starttime := my_starttime; p_created_at_ns := now;
        p_channel_type := r_channel_type a; p_role := r_role a; p_kind := r_kind a;
        p_shm_name := kept_name shm_name (r_shm_name a);
        p_topic_name := kept_name topic_name (r_topic_name a);
        p_node_name := kept_name node_name (r_node_name a) |}) → Q tt (World m' o ws)) →
  returns (write_row i a my_pid my_starttime now) (World m o ws) Q.
Proof.
  intros (Hs & Ht & Hn) HQ. unfold write_row, open_generation, settle_generation. steps.
  apply returns_store_name. intros m1 Hm1 Hs1. steps. apply returns_store_name. intros m2 Hm2 Hs2.
  steps. apply returns_store_name. intros m3 Hm3 Hs3. steps. apply returns_memset_zero.
  cbn [set_mem w_mem w_os w_wakes]. set (m4 := store_list _ _ _ _).
  assert (∀ l, (∀ j, l ≠ Pad i j) → m4 l = m3 l) as Hm4 by (intros; by apply store_list_other).
  steps. apply HQ.
  - intros l Hl. assert (∀ f, Row i f ≠ l) by (intros f <-; by apply Hl). rewrite !upd_ne by done.
    rewrite Hm4, Hm3, Hm2, Hm1 by (intros ? ->; by apply Hl). by rewrite !upd_ne.
  - split; [rewrite upd_same; apply settled_even|]. rewrite upd_ne, upd_same by done. split; [done|].
    assert (∀ f, f ≠ generation → f ≠ state → ∀ v v', (<[Row i generation:=v]> (<[Row i state:=v']> m4)) (Row i f) = m1 (Row i f)) as Hf.
    { intros f Hg Hst v v'. rewrite !upd_ne by congruence. rewrite Hm4, Hm3, Hm2; done. }
    unfold row_at. rewrite !Hf by done. rewrite !Hm1 by done. mem. f_equal.
    + rewrite <- (Hs1 Hs). apply stored_name_ext. intros w. rewrite !upd_ne by done. by rewrite Hm4, Hm3, Hm2.
    + rewrite <- (Hs2 Ht). apply stored_name_ext. intros w. rewrite !upd_ne by done. by rewrite Hm4, Hm3.
    + rewrite <- (Hs3 Hn). apply stored_name_ext. intros w. rewrite !upd_ne by done. by rewrite Hm4.
Qed.

Lemma shows_free m i : shows m i None → m (Row i state) = Free.
Proof. by intros [_ ?]. Qed.

Definition slot_of (i : option nat) : Z := match i with Some i => Z.of_nat i | None => INVALID_SLOT end.

Lemma returns_try_claim r a m o ws dir (Q : Z → world rloc → Prop) :
  typed a → refines r m dir →
  (∀ m', refines r m' (match first_vacant dir with Some i => <[i := Some (participant_of o a)]> dir | None => dir end) →
     Q (slot_of (first_vacant dir)) (World m' o ws)) →
  returns (try_claim r a) (World m o ws) Q.
Proof.
  intros Ha Hr HQ. pose proof Hr as [Hlen Hshows]. unfold try_claim. steps.
  apply Process.returns_own_starttime. steps.
  apply (returns_for _ _ _ _ _ (λ i _ w, w = World m o ws ∧ ∀ j, (j < Z.to_nat i)%nat → dir !! j ≠ Some None)).
  - split; [done|]. intros j Hj. lia.
  - intros i [] w Hi [-> Hbefore].
    destruct (lookup_lt_is_Some_2 dir (Z.to_nat i)) as [row Hrow]; [lia|].
    pose proof (Hshows _ _ Hrow) as Hs. rewrite Z2Nat.id in Hs by lia. step. step.
    + destruct row as [p|]; [destruct Hs as [_ [Hs _]]; rewrite Hs in *; done|]. cbn [negb]. steps.
      apply returns_write_row; [done|]. intros m' Hm' Hs'. steps.
      pose proof (first_vacant_is _ _ Hrow Hbefore) as Hf. rewrite Hf in HQ. cbn [slot_of] in HQ.
      rewrite Z2Nat.id in HQ by lia. apply HQ. eapply refines_row; [done| |rewrite Z2Nat.id by lia; exact Hs'].
      intros l Hl. rewrite Z2Nat.id in Hl by lia. rewrite Hm' by done. apply upd_ne. intros <-. by apply Hl.
    + destruct row as [p|]; [|by apply shows_free in Hs]. cbn [negb]. steps. split; [done|].
      intros j Hj. destruct (decide (j = Z.to_nat i)) as [->|Hne]; [by rewrite Hrow|]. apply Hbefore. lia.
  - intros [] w [-> Hall]. steps. rewrite first_vacant_none in HQ; [by apply HQ|].
    intros j Hj. apply (Hall j); [|done]. apply lookup_lt_Some in Hj. lia.
Qed.

Lemma returns_sweep_row i m o ws row (Q : bool → world rloc → Prop) :
  shows m i row →
  (∀ m', (∀ l, row_of l ≠ Some i → m' l = m l) → shows m' i (keep_alive o row) →
     Q (departed o row) (World m' o ws)) →
  returns (sweep_row i) (World m o ws) Q.
Proof.
  intros [Hg Hs] HQ. unfold sweep_row. do 2 step. destruct row as [p|].
  2: { rewrite Hs. cbn. step. apply HQ; [done|by split]. }
  destruct Hs as [Hst <-]. rewrite Hst.
  change (negb (Active =? Active) && negb (Active =? Claiming)) with false. lazy iota. steps.
  all: try (match goal with E : negb _ = true |- _ =>
    rewrite ?even_land, ?Z.eqb_refl in E by done; discriminate E end).
  - assert (gone o (row_at m i) = false) as Hd by (unfold gone, Process.dead_verdict; cbn; by rewrite E1).
    cbn [departed keep_alive] in HQ. rewrite Hd in HQ. by apply HQ.
  - apply Process.returns_owner_is_dead. cbn [w_os departed keep_alive] in *. unfold gone in HQ.
    cbn [row_at p_pid p_pid_starttime] in HQ.
    destruct (Process.dead_verdict _ _ _); cbn [negb]; steps; [|by apply HQ].
    unfold acquire_tenancy. rewrite even_land by done. cbn [negb Z.eqb].
    unfold clear_identity, settle_generation. steps; try done.
    all: try (rewrite !upd_ne in * by done; rewrite upd_same in *; done).
    apply HQ.
    + intros l Hl. assert (∀ f, Row i f ≠ l) by (intros f <-; by apply Hl). by rewrite !upd_ne.
    + split; mem; [apply settled_even|done].
Qed.

Lemma refines_length r m dir : refines r m dir → length dir = Z.to_nat (capacity_ r).
Proof. intros [Hlen _]. lia. Qed.

Lemma evict_swept o dir k row :
  dir !! k = Some row →
  <[k := keep_alive o row]> (evict o (take k dir) ++ drop k dir) = evict o (take (S k) dir) ++ drop (S k) dir.
Proof.
  intros Hk. assert (length (evict o (take k dir)) = k) as Hl.
  { unfold evict. rewrite length_map, length_take. apply lookup_lt_Some in Hk. lia. }
  rewrite insert_app_r_alt by lia. rewrite Hl, Nat.sub_diag. rewrite (drop_S _ _ _ Hk).
  rewrite (take_S_r _ _ _ Hk). unfold evict. rewrite map_app, <- app_assoc. done.
Qed.

Lemma returns_sweep_stale r m o ws dir (Q : Z → world rloc → Prop) :
  refines r m dir → is_u32 (capacity_ r) →
  (∀ m', refines r m' (evict o dir) → Q (Z.of_nat (departures o dir)) (World m' o ws)) →
  returns (sweep_stale r) (World m o ws) Q.
Proof.
  intros Hr Hcap HQ. pose proof (refines_length _ _ _ Hr) as Hlen. unfold sweep_stale.
  apply (returns_foreach _ _ _ _ _ (λ i freed w, ∃ m', w = World m' o ws ∧
    freed = Z.of_nat (departures o (take (Z.to_nat i) dir)) ∧
    refines r m' (evict o (take (Z.to_nat i) dir) ++ drop (Z.to_nat i) dir))).
  - by exists m.
  - intros i freed w Hi (m1 & -> & -> & Hr1). set (k := Z.to_nat i) in *.
    destruct (lookup_lt_is_Some_2 dir k) as [row Hrow]; [lia|].
    assert ((evict o (take k dir) ++ drop k dir) !! k = Some row) as Hrow'.
    { rewrite lookup_app_r; unfold evict; rewrite length_map, length_take; [|lia].
      rewrite lookup_drop. rewrite <- Hrow. f_equal. lia. }
    step. eapply (returns_sweep_row i _ _ _ row).
    { destruct Hr1 as [_ Hs]. specialize (Hs _ _ Hrow'). unfold k in Hs. by rewrite Z2Nat.id in Hs by lia. }
    intros m' Hm' Hs'. step. exists m'. split; [done|].
    replace (Z.to_nat (i + 1)) with (S k) by lia. split.
    + rewrite (take_S_r _ _ _ Hrow), departures_snoc.
      pose proof (departures_bound o (take k dir)) as Hb. rewrite length_take in Hb.
      destruct (departed o row); [|lia]. rewrite u32_small by (unfold is_u32 in *; lia). lia.
    + rewrite <- (evict_swept _ _ _ row) by done. replace i with (Z.of_nat k) in Hm', Hs' by lia.
      eapply refines_row; [exact Hr1|exact Hm'|exact Hs'].
  - intros freed w (m' & -> & -> & Hr'). rewrite Z.add_0_l, Nat2Z.id, <- Hlen in *.
    rewrite firstn_all, drop_all, app_nil_r in *. by apply HQ.
Qed.

Lemma slot_of_valid r m dir i :
  refines r m dir → is_u32 (capacity_ r) → first_vacant dir = Some i → slot_of (Some i) ≠ INVALID_SLOT.
Proof.
  intros [Hlen _] Hcap Hi%first_vacant_lookup%lookup_lt_Some. cbn. unfold is_u32 in Hcap.
  change INVALID_SLOT with 4294967295. lia.
Qed.

Lemma returns_register r a m o ws dir (Q : Z → world rloc → Prop) :
  typed a → refines r m dir → is_u32 (capacity_ r) →
  (∀ m', refines r m' (enter o a dir).2 → Q (slot_of (enter o a dir).1) (World m' o ws)) →
  returns (register_participant r a) (World m o ws) Q.
Proof.
  intros Ha Hr Hcap HQ. unfold register_participant. step.
  eapply returns_try_claim; [done|exact Hr|]. intros m1 Hr1. unfold enter in HQ. lazy beta.
  destruct (first_vacant dir) as [i|] eqn:Hf.
  { rewrite (proj2 (Z.eqb_neq _ _)) by (by eapply (slot_of_valid r m)). cbn [negb]. step. by apply HQ. }
  cbn [slot_of]. rewrite Z.eqb_refl. cbn [negb]. step.
  apply returns_for_turn. step. eapply returns_sweep_stale; [exact Hr1|done|]. intros m2 Hr2. lazy beta.
  destruct (decide (departures o dir = 0%nat)) as [Hd|Hd].
  { rewrite (evict_none _ _ Hd), Hf in *. rewrite Hd. steps; [by apply HQ|done..]. }
  rewrite (proj2 (Z.eqb_neq _ 0)) by lia. destruct (evict_some o dir Hd) as [i Hi]. rewrite Hi in HQ.
  step. eapply returns_try_claim; [done|exact Hr2|]. intros m3 Hr3. lazy beta. rewrite Hi in *.
  rewrite (proj2 (Z.eqb_neq _ _)) by (by eapply (slot_of_valid r m2)). cbn [negb]. do 2 step. by apply HQ.
Qed.

Lemma vacate_out r m dir i : refines r m dir → capacity_ r <= i → vacate i dir = dir.
Proof. intros [Hlen _] Hi. unfold vacate. by rewrite (proj2 (Z.ltb_ge _ _)) by lia. Qed.

Lemma returns_deregister r i m o ws dir (Q : unit → world rloc → Prop) :
  refines r m dir → is_u32 (capacity_ r) → 0 <= i →
  (∀ m', refines r m' (vacate i dir) → Q tt (World m' o ws)) →
  returns (deregister r i) (World m o ws) Q.
Proof.
  intros Hr Hcap Hi HQ. pose proof (refines_length _ _ _ Hr) as Hlen. unfold deregister, is_u32 in *. step.
  { step. apply HQ. rewrite (vacate_out r m) by (done || change INVALID_SLOT with 4294967295 in *; lia). done. }
  step. { step. apply HQ. by rewrite (vacate_out r m) by (done || lia). }
  apply Z.leb_gt in E0. destruct (lookup_lt_is_Some_2 dir (Z.to_nat i)) as [row Hrow]; [lia|].
  assert (vacate i dir = <[Z.to_nat i := None]> dir) as Hv by (unfold vacate; by rewrite (proj2 (Z.ltb_lt _ _)) by lia).
  pose proof (proj2 Hr _ _ Hrow) as Hs. rewrite Z2Nat.id in Hs by lia. step. step; cbn [negb].
  - unfold open_generation, clear_identity, settle_generation. steps; [|mem; done].
    apply HQ. rewrite Hv. replace i with (Z.of_nat (Z.to_nat i)) by lia. rewrite Nat2Z.id.
    eapply refines_row; [exact Hr|..].
    + intros l Hl. assert (∀ f, Row (Z.of_nat (Z.to_nat i)) f ≠ l) by (intros f <-; by apply Hl). by rewrite !upd_ne.
    + split; mem; [apply settled_even|done].
  - step. apply HQ. rewrite Hv. rewrite list_insert_id; [done|]. rewrite Hrow.
    destruct row as [p|]; [|done]. by destruct Hs as [_ [? _]].
Qed.

Lemma returns_read_row i m o ws (Q : Participant → world rloc → Prop) :
  Q (row_at m i) (World m o ws) → returns (read_row i) (World m o ws) Q.
Proof. intros HQ. unfold read_row, load_name. repeat (steps; apply returns_load_words; lazy beta). steps. exact HQ. Qed.

Lemma returns_snapshot_row i m o ws row (Q : option Participant → world rloc → Prop) :
  shows m i row → Q row (World m o ws) → returns (snapshot_row i) (World m o ws) Q.
Proof.
  intros [Hg Hs] HQ. unfold snapshot_row. do 2 step. destruct row as [p|].
  2: { rewrite Hs. by apply returns_ret. }
  destruct Hs as [Hst <-].
  assert ((m (Row i state) =? Active) = true) as Ha by (by rewrite Hst).
  assert ((Z.land (m (Row i generation)) 1 =? 0) = true) as He by (by rewrite even_land).
  rewrite Ha. cbn [negb]. do 2 step. rewrite He. cbn [negb]. step. apply returns_read_row. lazy beta.
  do 4 step. rewrite Ha, Z.eqb_refl. cbn [negb orb]. by step.
Qed.

Lemma listing_snoc dir row : listing (dir ++ [row]) = listing dir ++ match row with Some p => [p] | None => [] end.
Proof. unfold listing. rewrite omap_app. by destruct row. Qed.

Lemma returns_snapshot r m o ws dir (Q : list Participant → world rloc → Prop) :
  refines r m dir → Q (listing dir) (World m o ws) → returns (snapshot r) (World m o ws) Q.
Proof.
  intros Hr HQ. pose proof (refines_length _ _ _ Hr) as Hlen. unfold snapshot.
  apply (returns_foreach _ _ _ _ _ (λ i out w, w = World m o ws ∧ out = listing (take (Z.to_nat i) dir))).
  - done.
  - intros i out w Hi [-> ->]. destruct (lookup_lt_is_Some_2 dir (Z.to_nat i)) as [row Hrow]; [lia|].
    pose proof (proj2 Hr _ _ Hrow) as Hs. rewrite Z2Nat.id in Hs by lia.
    step. eapply returns_snapshot_row; [exact Hs|]. lazy beta. step. split; [done|].
    replace (Z.to_nat (i + 1)) with (S (Z.to_nat i)) by lia. rewrite (take_S_r _ _ _ Hrow), listing_snoc.
    by destruct row; rewrite ?app_nil_r.
  - intros out w [-> ->]. by rewrite Z.add_0_l, Nat2Z.id, <- Hlen, firstn_all.
Qed.

(** *** Creation *)

Lemma row_locs_of i l : l ∈ row_locs i → row_of l = Some i.
Proof.
  unfold row_locs. rewrite !elem_of_app, !list_elem_of_fmap. intros [[f [-> _]]|[Hl|[j [-> _]]]]; [done| |done].
  apply list_elem_of_bind in Hl as (n & Hl & _). apply list_elem_of_fmap in Hl as [w [-> _]]. done.
Qed.

Lemma returns_init r m o ws (Q : unit → world rloc → Prop) :
  0 <= capacity_ r →
  (∀ m', m' (Hdr magic) = MAGIC → m' (Hdr version) = VERSION → m' (Hdr capacity) = capacity_ r →
     refines r m' (replicate (Z.to_nat (capacity_ r)) None) → Q tt (World m' o ws)) →
  returns (init_as_creator (capacity_ r)) (World m o ws) Q.
Proof.
  intros Hcap HQ. unfold init_as_creator. step. apply returns_zero_locs. intros m1 _ _. step.
  apply (returns_foreach _ _ _ _ _ (λ i _ w, ∃ m', w = World m' o ws ∧ ∀ j, 0 <= j < i → shows m' j None)).
  - exists m1. split; [done|]. lia.
  - intros i [] w Hi (m2 & -> & Hs). apply returns_zero_locs. intros m3 H0 Hm3. exists m3. split; [done|].
    intros j Hj. destruct (decide (j = i)) as [->|Hne].
    + split; [|apply H0; unfold row_locs; cbn; set_solver].
      rewrite H0; [by split|]. unfold row_locs. cbn. set_solver.
    + eapply shows_ext; [|apply Hs; lia]. intros l Hl. apply Hm3. intros Hin%row_locs_of. congruence.
  - intros [] w (m2 & -> & Hs). steps. apply HQ; mem; [done..|].
    split; [rewrite length_replicate; lia|]. intros k row Hk. apply lookup_replicate in Hk as [-> Hk].
    eapply shows_ext; [|apply Hs; lia]. intros l Hl. rewrite !upd_ne; [done|by intros <-..].
Qed.
End operations.

(** ** Sessions *)

Inductive call :=
  | Register (a : registration)
  | Deregister (slot : Z)
  | Sweep
  | Snapshot.

Inductive reply := Slot (slot : Z) | Done | Freed (n : Z) | Listing (ps : list Participant).

Definition perform (r : registry) (c : call) (_ : unit) : gprog (reply * unit) :=
  match c with
  | Register a => slot <- register_participant r a ;; Ret (Slot slot, tt)
  | Deregister slot => deregister r slot ;; Ret (Done, tt)
  | Sweep => n <- sweep_stale r ;; Ret (Freed n, tt)
  | Snapshot => ps <- snapshot r ;; Ret (Listing ps, tt)
  end.

Definition promised (o : os) (c : call) (dir : directory) : reply * directory :=
  match c with
  | Register a => (Slot (slot_of (enter o a dir).1), (enter o a dir).2)
  | Deregister slot => (Done, vacate slot dir)
  | Sweep => (Freed (Z.of_nat (departures o dir)), evict o dir)
  | Snapshot => (Listing (listing dir), dir)
  end.

Definition call_ok (c : call) : Prop :=
  match c with Register a => typed a | Deregister slot => 0 <= slot | _ => True end.

Lemma returns_call r c m o dir (Q : reply * unit → world rloc → Prop) :
  refines r m dir → is_u32 (capacity_ r) → call_ok c →
  (∀ m', refines r m' (promised o c dir).2 → Q ((promised o c dir).1, tt) (World m' o [])) →
  returns (perform r c tt) (World m o []) Q.
Proof.
  intros Hr Hcap Hc HQ. destruct c as [a|slot| |]; cbn [perform promised fst snd call_ok] in *; step.
  - eapply returns_register; [done|exact Hr|done|]. intros m' Hr'. lazy beta. step. by apply HQ.
  - eapply returns_deregister; [exact Hr|done|done|]. intros m' Hr'. lazy beta. step. by apply HQ.
  - eapply returns_sweep_stale; [exact Hr|done|]. intros m' Hr'. lazy beta. step. by apply HQ.
  - eapply returns_snapshot; [exact Hr|]. lazy beta. step. by apply HQ.
Qed.

(** The rows simulate the directory, call by call. *)
Lemma registry_simulates r :
  is_u32 (capacity_ r) → simulates (perform r) promised (λ _ _ m dir, refines r m dir) call_ok.
Proof.
  intros Hcap k o c [] m dir Hr Hc. eapply returns_call; [exact Hr|done|done|]. intros m' Hr'. by split.
Qed.

(** ** Properties *)

(** C20. From any state that shows a directory, whatever the processes register,
    deregister, sweep and list, one call after the other, every reply is the
    directory's and the rows show the directory it ends with; in particular all
    generations are even again and no row stays claimed. *)
Theorem registry_refines_directory r cs m dir :
  refines r m dir → is_u32 (capacity_ r) → Forall (λ '(_, c), call_ok c) cs →
  plays (perform r) cs tt m (λ replies _ m',
    replies = (promised_all promised cs dir).1 ∧ refines r m' (promised_all promised cs dir).2).
Proof.
  intros Hr Hcap Hcs. apply (plays_promised _ promised (λ _ _ m dir, refines r m dir) call_ok cs 0);
    [by apply registry_simulates|done|done].
Qed.

(** C21. A registry just created is an empty directory: the sessions on it reply as
    the directory with every row vacant does. *)
Theorem registry_from_creation `{SharedMemory rloc} kmsg_namespace name cap cs m o :
  make_shm_name kmsg_namespace = inl name → 0 < cap → is_u32 cap → Forall (λ '(_, c), call_ok c) cs →
  (∀ w Q, Q true w → returns (shm_try_create (region_size cap)) w Q) →
  returns (open_or_create kmsg_namespace cap) (World m o []) (λ r w',
    r = {| reg_name_ := name; capacity_ := cap |} ∧
    plays (perform r) cs tt (w_mem w') (λ replies _ _,
      replies = (promised_all promised cs (replicate (Z.to_nat cap) None)).1)).
Proof.
  intros Hname Hpos Hcap Hcs Hshm. unfold open_or_create. rewrite (proj2 (Z.eqb_neq cap 0)) by lia.
  rewrite Hname. cbn [of_res]. do 2 step. step. apply Hshm. lazy beta iota. step.
  apply (returns_init {| reg_name_ := name; capacity_ := cap |}); cbn [capacity_]; [lia|].
  intros m' _ _ _ Hr. step. split; [done|]. cbn [w_mem]. eapply plays_mono.
  - apply (plays_promised _ promised (λ _ _ m dir, refines {| reg_name_ := name; capacity_ := cap |} m dir) call_ok cs 0);
      [by apply registry_simulates|exact Hr|done].
  - by intros replies e m2 [-> _].
Qed.


(** *** Examples *)

(** Processes 7 and 9; in [later], 7 is gone. *)
Definition now (caller : Z) : os :=
  Os 0 1000 1700 caller (λ pid, if pid =? 7 then Some (5, false) else if pid =? 9 then Some (6, false) else None) 0.
Definition later (caller : Z) : os :=
  Os 0 1000 1900 caller (λ pid, if pid =? 9 then Some (6, false) else None) 0.

Definition camera (node : string) (role : Z) : registration :=
  {| r_shm_name := str "/ns_cam"; r_topic_name := str "cam"; r_channel_type := 1; r_kind := Kind.Pubsub;
     r_role := role; r_node_name := str node |}.

Definition visit : list (os * call) :=
  [(now 7, Register (camera "driver" Role.Publisher)); (now 9, Register (camera "viewer" Role.Subscriber));
   (now 9, Register (camera "extra" Role.Both)); (now 9, Sweep); (now 9, Deregister 4294967295);
   (later 9, Register (camera "extra" Role.Both)); (later 9, Deregister 1); (later 9, Snapshot);
   (later 9, Sweep); (later 9, Deregister 0); (later 9, Snapshot)].

Definition visit_replies : list reply :=
  [Slot 0; Slot 1; Slot INVALID_SLOT; Freed 0; Done; Slot 0; Done;
   Listing [participant_of (later 9) (camera "extra" Role.Both)]; Freed 0; Done; Listing []].

Lemma str_bytes (t : string) : forallb (λ b, (0 <=? b) && (b <? 256)) (str t) = true → Forall is_u8 (str t).
Proof.
  intros Hd. apply Forall_forall. intros b Hin. rewrite forallb_forall in Hd.
  specialize (Hd b (proj1 (list_elem_of_In _ _) Hin)). unfold is_u8. lia.
Qed.
Lemma visit_ok : Forall (λ '(_, c), call_ok c) visit.
Proof.
  assert (∀ node role, forallb (λ b, (0 <=? b) && (b <? 256)) (str node) = true → typed (camera node role)) as Hc.
  { intros node role Hn. split; [by apply str_bytes|]. split; by apply str_bytes. }
  unfold visit. repeat (apply Forall_cons; split); try done; cbn [call_ok]; (by apply Hc) || lia.
Qed.

Definition two_rows : registry := {| reg_name_ := str "/ns_registry"; capacity_ := 2 |}.

Lemma two_rows_vacant : refines two_rows (λ _, 0) [None; None].
Proof.
  split; [reflexivity|]. intros [|[|k]] row Hk; [injection Hk as <-; by repeat split..|discriminate Hk].
Qed.

Lemma registry_refines_directory_witness :
  plays (perform two_rows) visit tt (λ _, 0) (λ replies _ _, replies = visit_replies).
Proof.
  eapply plays_mono.
  - apply (registry_refines_directory two_rows visit (λ _, 0) [None; None]).
    + exact two_rows_vacant.
    + unfold is_u32. cbn. lia.
    + exact visit_ok.
  - intros replies e m' [-> _]. vm_compute. reflexivity.
Defined.

(** An object that does not exist yet. *)
Definition absent_shm : SharedMemory rloc := {|
  shm_create := λ size, Ret size; shm_try_create := λ _, Ret true; shm_open := Ret 0;
  shm_try_open := Ret None; shm_unlink := Ret tt |}.

Lemma registry_from_creation_witness :
  returns (open_or_create (H := absent_shm) (str "ns") 2) (World (λ _, 255) (now 7) []) (λ r w',
    plays (perform r) visit tt (w_mem w') (λ replies _ _, replies = visit_replies)).
Proof.
  eapply returns_mono.
  - refine (registry_from_creation (H := absent_shm) (str "ns") (str "/ns_registry") 2 visit (λ _, 255) (now 7) _ _ _ visit_ok _).
    + vm_compute. reflexivity.
    + reflexivity.
    + unfold is_u32. lia.
    + intros w Q HQ. by apply returns_ret.
  - intros r w' [_ Hp]. eapply plays_mono; [exact Hp|]. intros replies e m' ->. vm_compute. reflexivity.
Defined.
End Directory.
