(* ===== verification/Topics.v ===== *)
(** * The topics of a registry

    [Registry.list_topics] groups the participants a snapshot lists by the name
    of their shared-memory object, splits each group by role and by whether the
    process still exists, and sorts the groups by name. *)

From stdpp Require Import gmap sorting.
From S2P Require Import Prelude Prog Hash Types Words Process Registry Directory.
Import Registry Directory.

Module Topics.
(** ** Specification *)

Definition members (name : list Z) (ps : list Participant) : list Participant :=
  List.filter (λ p, bool_decide (p_shm_name p = name)) ps.

(** [process_exists] of the participant's process. *)
Definition present (o : os) (p : Participant) : bool :=
  bool_decide (is_Some (os_procs o (p_pid p))) && negb (p_pid p =? 0).

(** The topic of participants that share a name; the first describes it. *)
Definition topic_of (o : os) (first : Participant) (ps : list Participant) : TopicSummary := {|
  t_shm_name := p_shm_name first; t_topic_name := p_topic_name first;
  t_channel_type := p_channel_type first; t_kind := p_kind first;
  producers := List.filter (λ p, is_pub p && present o p) ps;
  consumers := List.filter (λ p, is_sub p && present o p) ps;
  stall_producers := List.filter (λ p, is_pub p && negb (present o p)) ps;
  stall_consumers := List.filter (λ p, is_sub p && negb (present o p)) ps |}.

Definition grouping (o : os) (ps : list Participant) (name : list Z) : option TopicSummary :=
  match members name ps with
  | [] => None
  | first :: rest => Some (topic_of o first (first :: rest))
  end.

Definition bytes_lt (a b : list Z) : Prop := bytes_le a b = true ∧ a ≠ b.

(** ** Byte order *)

#[export] Instance bytes_le_total : Total (λ a b, bytes_le a b = true).
Proof.
  intros a. induction a as [|x a IH]; intros [|y b]; cbn; [by left..|by right|].
  destruct (Z.eqb_spec x y) as [->|Hne]; [rewrite Z.eqb_refl; apply IH|].
  rewrite (proj2 (Z.eqb_neq y x)) by done. lia.
Qed.

#[export] Instance bytes_le_trans : Transitive (λ a b, bytes_le a b = true).
Proof.
  intros a. induction a as [|x a IH]; intros [|y b] [|z c]; cbn; try done.
  destruct (Z.eqb_spec x y) as [->|Hxy]; destruct (Z.eqb_spec y z) as [->|Hyz]; intros H1 H2.
  - by eapply IH.
  - by destruct (Z.eqb_spec y z).
  - by destruct (Z.eqb_spec x z).
  - destruct (Z.eqb_spec x z); lia.
Qed.

#[export] Instance summary_le_total : Total summary_le.
Proof. intros a b. apply bytes_le_total. Qed.
#[export] Instance summary_le_trans : Transitive summary_le.
Proof. intros a b c. apply bytes_le_trans. Qed.

(** ** Grouping *)

Lemma members_snoc name ps p :
  members name (ps ++ [p]) = members name ps ++ if bool_decide (p_shm_name p = name) then [p] else [].
Proof. unfold members. rewrite List.filter_app. cbn. by case_bool_decide. Qed.

Lemma members_name name ps p : p ∈ members name ps → p_shm_name p = name.
Proof. intros Hp. apply list_elem_of_In, List.filter_In in Hp as [_ Hn]. by apply bool_decide_eq_true in Hn. Qed.

Lemma filter_snoc {A} (f : A → bool) l x :
  List.filter f (l ++ [x]) = if f x then List.filter f l ++ [x] else List.filter f l.
Proof. rewrite List.filter_app. cbn. destruct (f x); [done|by rewrite app_nil_r]. Qed.

Lemma add_participant_topic o first ps p :
  add_participant (present o p) p (topic_of o first ps) = topic_of o first (ps ++ [p]).
Proof. unfold add_participant, topic_of. cbn. by rewrite !filter_snoc. Qed.

Lemma grouping_add o ps p :
  grouping o (ps ++ [p]) (p_shm_name p) =
  Some (add_participant (present o p) p (default (new_summary p) (grouping o ps (p_shm_name p)))).
Proof.
  unfold grouping. rewrite members_snoc, bool_decide_eq_true_2 by done.
  destruct (members (p_shm_name p) ps) as [|first rest]; cbn [app from_option id].
  - change (new_summary p) with (topic_of o p []). by rewrite add_participant_topic.
  - by rewrite add_participant_topic.
Qed.

Lemma grouping_other o ps p name : p_shm_name p ≠ name → grouping o (ps ++ [p]) name = grouping o ps name.
Proof. intros Hn. unfold grouping. rewrite members_snoc, bool_decide_eq_false_2 by done. by rewrite app_nil_r. Qed.

Section listing.
Implicit Types (m : rloc → Z) (o : os) (ws : list rloc).

Lemma returns_group_topics (raw seen : list Participant) (by_shm : gmap (list Z) TopicSummary) m o ws (Q : gmap (list Z) TopicSummary → world rloc → Prop) :
  (∀ name, by_shm !! name = grouping o seen name) →
  (∀ g : gmap (list Z) TopicSummary, (∀ name, g !! name = grouping o (seen ++ raw) name) → Q g (World m o ws)) →
  returns (group_topics raw by_shm) (World m o ws) Q.
Proof.
  revert seen by_shm. induction raw as [|p raw IH]; intros seen by_shm Hby HQ; cbn [group_topics].
  - step. apply HQ. by rewrite app_nil_r.
  - do 2 step. apply (IH (seen ++ [p])); [|by rewrite <- app_assoc].
    intros name. destruct (decide (p_shm_name p = name)) as [<-|Hne].
    + rewrite lookup_insert_eq, Hby. by rewrite grouping_add.
    + by rewrite lookup_insert_ne, Hby, grouping_other.
Qed.

Lemma summaries_nodup (g : gmap (list Z) TopicSummary) o (ps : list Participant) :
  (∀ name, g !! name = grouping o ps name) → NoDup (map t_shm_name (map snd (map_to_list g))).
Proof.
  intros Hg. rewrite map_map.
  rewrite (map_ext_in _ fst); [apply NoDup_fst_map_to_list|].
  intros [name t] Hin%list_elem_of_In%elem_of_map_to_list. cbn. rewrite Hg in Hin. unfold grouping in Hin.
  destruct (members name ps) as [|first rest] eqn:Em; [done|]. injection Hin as <-. cbn.
  apply (members_name _ ps). rewrite Em. set_solver.
Qed.

Lemma sorted_strict ts :
  StronglySorted summary_le ts → NoDup (map t_shm_name ts) →
  StronglySorted (λ a b, bytes_lt (t_shm_name a) (t_shm_name b)) ts.
Proof.
  induction 1 as [|t ts Hs IH Hall]; intros Hnd; constructor; cbn in *; apply NoDup_cons in Hnd as [Hn Hnd]; [auto|].
  apply Forall_forall. intros t' Ht'. split; [by eapply Forall_forall in Hall|].
  intros E. apply Hn. rewrite E. by apply list_elem_of_fmap_2.
Qed.

(** C23. [list_topics] lists, in strictly increasing byte order of their names,
    exactly the topics the directory's participants belong to, each described by
    its first participant and with all its participants in row order, split into
    producers and consumers and into those whose process exists and the stalled. *)
Theorem topics_grouped r dir m o ws :
  refines r m dir →
  returns (list_topics r) (World m o ws) (λ ts w',
    w' = World m o ws ∧
    StronglySorted (λ a b, bytes_lt (t_shm_name a) (t_shm_name b)) ts ∧
    ∀ t, t ∈ ts ↔ ∃ first rest, members (t_shm_name t) (listing dir) = first :: rest ∧
                                t = topic_of o first (first :: rest)).
Proof.
  intros Hr. unfold list_topics. step. eapply returns_snapshot; [exact Hr|]. lazy beta. step.
  apply (returns_group_topics _ []); [intros name; by rewrite lookup_empty|].
  intros g Hg. rewrite app_nil_l in Hg. lazy beta. step. split; [done|].
  pose proof (merge_sort_Permutation summary_le (map snd (map_to_list g))) as Hp. split.
  - apply sorted_strict; [apply (StronglySorted_merge_sort summary_le)|]. rewrite Hp. by eapply summaries_nodup.
  - intros t. rewrite Hp, list_elem_of_fmap. split.
    + intros ([name t'] & -> & Hin%elem_of_map_to_list). cbn. rewrite Hg in Hin. unfold grouping in Hin.
      destruct (members name (listing dir)) as [|first rest] eqn:Em; [done|]. injection Hin as <-.
      exists first, rest. cbn. split; [|done]. rewrite <- Em at 1. f_equal.
      apply (members_name _ (listing dir)). rewrite Em. set_solver.
    + intros (first & rest & Em & ->). cbn in Em. exists (p_shm_name first, topic_of o first (first :: rest)).
      split; [done|]. apply elem_of_map_to_list. rewrite Hg. unfold grouping. by rewrite Em.
Qed.
End listing.

(** ** Example *)

(** Two rows of one topic "B": a publisher that still exists and a subscriber
    that does not. *)
Definition listed_mem : rloc → Z := λ l,
  match l with
  | Row _ state => Active
  | Row 0 pid => 9
  | Row _ pid => 7
  | Row 0 role => Role.Publisher
  | Row _ role => Role.Subscriber
  | NameWord _ shm_name 0 => 66
  | _ => 0
  end.

Lemma topics_grouped_witness :
  returns (list_topics two_rows) (World listed_mem (later 9) []) (λ ts _,
    ∀ t, t ∈ ts → length (producers t) = 1%nat ∧ consumers t = [] ∧ length (stall_consumers t) = 1%nat).
Proof.
  eapply returns_mono.
  - apply (topics_grouped two_rows [Some (row_at listed_mem 0); Some (row_at listed_mem 1)]).
    split; [reflexivity|]. intros [|[|k]] row Hk; [injection Hk as <-; by repeat split..|discriminate Hk].
  - intros ts w' (_ & _ & Hts) t Ht. apply Hts in Ht as (first & rest & Hm & ->).
    cbn [t_shm_name topic_of] in Hm.
    assert (p_shm_name first = [66]) as Hn.
    { assert (first ∈ members (p_shm_name first) (listing [Some (row_at listed_mem 0); Some (row_at listed_mem 1)])) as Hin
        by (rewrite Hm; set_solver).
      apply list_elem_of_In, List.filter_In in Hin as [[<-|[<-|[]]] _]; vm_compute; reflexivity. }
    rewrite Hn in Hm. vm_compute in Hm. injection Hm as <- <-. vm_compute. auto.
Defined.
End Topics.
