(* ===== verification/Blackboard.v ===== *)
(** * The blackboard ([src/Blackboard.cc], [include/kickmsg/Blackboard.h])

    A key/value board in one segment: a header with the board lock and the
    change counter, an array of key entries, and two value cells per key.  The
    metadata operations serialise on the board lock; the value path is a
    seqlock over [publish] and [tenancy].

    [Process.self_identity] caches what [self_identity_uncached] reads; the
    board's operations read it afresh ([Process.self_identity_cached]). *)

From stdpp Require Import gmap.
From S2P Require Import Prelude Prog Hash Types Layout Words Shm Process Naming.
Import Hash.

Module Blackboard.
Definition VERSION : Z := 2.
Definition MAGIC : Z := 0x214B4C424B43494B.
Definition KEY_MAX : Z := 128.
Definition NODE_NAME_MAX : Z := 64.
Definition DEFAULT_CAPACITY : Z := 256.
Definition MAX_CAPACITY : Z := 65536.
Definition DEFAULT_MAX_VALUE_SIZE : Z := 1008.
Definition MAX_VALUE_SIZE : Z := 1048576.
Definition READ_RETRY_BUDGET : nat := 64.
Definition CELLS_PER_KEY : Z := 2.
Definition CELL_MASK : Z := CELLS_PER_KEY - 1.
Definition RELEASE_LOCK_WAIT : Z := 2000000000.
Definition INVALID_SLOT : Z := Types.INVALID_SLOT.

(** [blackboard::KeyState] *)
Definition Free : Z := 0.
Definition Claiming : Z := 1.
Definition Active : Z := 2.

Record Config := { cfg_capacity : Z; cfg_max_value_size : Z; cfg_identity : Z }.

Definition default_config : Config :=
  {| cfg_capacity := DEFAULT_CAPACITY; cfg_max_value_size := DEFAULT_MAX_VALUE_SIZE;
     cfg_identity := 0 |}.

Record Geometry := {
  capacity : Z;
  max_value_size : Z;
  value_stride : Z;
  values_offset : Z
}.

Definition null_geometry : Geometry :=
  {| capacity := 0; max_value_size := 0; value_stride := 0; values_offset := 0 |}.

(** The [std::errc] values the board reports; [Ok] is the empty error code. *)
Inductive errc :=
  | Ok
  | bad_file_descriptor
  | operation_not_permitted
  | message_size
  | bad_message
  | state_not_recoverable
  | device_or_resource_busy
  | no_such_file_or_directory
  | no_message
  | resource_unavailable_try_again
  | timed_out.

#[export] Instance errc_eq_dec : EqDecision errc.
Proof. solve_decision. Defined.

(** ** Locations *)

Inductive hfield :=
  | magic | version | h_capacity | h_max_value_size | total_size | config_hash
  | identity_hash | creator_pid | created_at_ns | change_seq | waiters | lock_token.
Inductive efield :=
  | state | publish | tenancy | owner_pid | owner_starttime | key_hash | declared_at_ns.
Inductive cfield := updated_at_ns | value_len.
Inductive bloc :=
  | Hdr (f : hfield)
  | Ent (i : Z) (f : efield)
  | KeyWord (i w : Z)
  | NodeByte (i j : Z)
  | Cell (i c : Z) (f : cfield)
  | CellWord (i c w : Z).

#[export] Instance hfield_eq_dec : EqDecision hfield.
Proof. solve_decision. Defined.
#[export] Instance efield_eq_dec : EqDecision efield.
Proof. solve_decision. Defined.
#[export] Instance cfield_eq_dec : EqDecision cfield.
Proof. solve_decision. Defined.
#[export] Instance bloc_eq_dec : EqDecision bloc.
Proof. solve_decision. Defined.

Abbreviation bprog A := (prog bloc A).

(** ** Geometry *)

Definition SIZEOF_BLACKBOARD_HEADER : Z := 192.
Definition SIZEOF_BLACKBOARD_ENTRY : Z := 384.
Definition SIZEOF_BLACKBOARD_CELL : Z := 16.

Definition stride_for (max_value_size : Z) : Z :=
  Types.align_up (u64 (SIZEOF_BLACKBOARD_CELL + max_value_size)) Types.CACHE_LINE.

Definition region_size (capacity max_value_size : Z) : Z :=
  u64 (u64 (SIZEOF_BLACKBOARD_HEADER + u64 (capacity * SIZEOF_BLACKBOARD_ENTRY)) +
       u64 (u64 (capacity * CELLS_PER_KEY) * stride_for max_value_size)).

Definition make_geometry (cap value_size : Z) : Geometry := {|
  capacity := cap;
  max_value_size := value_size;
  value_stride := stride_for value_size;
  values_offset := u64 (SIZEOF_BLACKBOARD_HEADER + u64 (cap * SIZEOF_BLACKBOARD_ENTRY)) |}.

(** Byte offsets of an entry, of a cell and of its words. *)
Definition bb_entry_at (idx : Z) : Z :=
  SIZEOF_BLACKBOARD_HEADER + idx * SIZEOF_BLACKBOARD_ENTRY.
Definition bb_cell_at (g : Geometry) (idx parity : Z) : Z :=
  values_offset g + (idx * CELLS_PER_KEY + Z.land parity CELL_MASK) * value_stride g.
Definition bb_cell_words (cell : Z) : Z := cell + SIZEOF_BLACKBOARD_CELL.

(** The cell a write counter selects. *)
Definition parity (writes : Z) : Z := Z.land writes CELL_MASK.

Definition bb_config_hash (cfg : Config) : Z :=
  let h := fnv1a_64_int 4 (cfg_capacity cfg) FNV1A_64_OFFSET_BASIS in
  fnv1a_64_int 8 (cfg_max_value_size cfg) h.

Definition derived_identity (kmsg_namespace name : list Z) : Z :=
  let h := fnv1a_64 (str "blackboard") FNV1A_64_OFFSET_BASIS in
  let h := fnv1a_64_int 8 10 h in
  let h := fnv1a_64 kmsg_namespace h in
  let h := fnv1a_64_int 8 (Z.of_nat (length kmsg_namespace)) h in
  let h := fnv1a_64 name h in
  let h := fnv1a_64_int 8 (Z.of_nat (length name)) h in
  if h =? 0 then 1 else h.

Definition key_fingerprint (key : list Z) : Z :=
  let h := fnv1a_64 key FNV1A_64_OFFSET_BASIS in
  if h =? 0 then 1 else h.

(** ** Keys and names *)

Fixpoint until_nul (bs : list Z) : list Z :=
  match bs with
  | [] => []
  | b :: bs => if b =? 0 then [] else b :: until_nul bs
  end.

Definition key_bytes (key : list Z) : list Z :=
  let kept := take (Z.to_nat KEY_MAX) key in
  kept ++ replicate (Z.to_nat KEY_MAX - length kept) 0.

Definition bb_store_key (i : Z) (key : list Z) : bprog unit :=
  store_words (KeyWord i) (key_bytes key).

Definition bb_load_key (i : Z) : bprog (list Z) :=
  copy <- load_words (KeyWord i) KEY_MAX ;;
  Ret (until_nul copy).

(** [strnlen == key_len and memcmp == 0] *)
Definition key_equals (i : Z) (key : list Z) : bprog bool :=
  copy <- load_words (KeyWord i) KEY_MAX ;;
  Ret ((length (until_nul copy) =? length key)%nat &&
       bool_decide (take (length key) copy = key)).

Definition key_matches (i : Z) (key : list Z) : bprog bool := key_equals i key.

(** [copy_field] into [owner_node]: a null [src] leaves zeros. *)
Definition copy_field (i : Z) (src : option (list Z)) : bprog unit :=
  memset_zero (NodeByte i) NODE_NAME_MAX ;;
  match src with
  | None => Ret tt
  | Some src => memcpy_in (NodeByte i) (take (Z.to_nat (NODE_NAME_MAX - 1)) src)
  end.

Definition clear_identity (i : Z) : bprog unit :=
  store (Ent i key_hash) 0 ;;
  store (Ent i owner_pid) 0 ;;
  store (Ent i owner_starttime) 0.

(** ** The board lock *)

Definition make_token (pid starttime : Z) : Z :=
  let fp := Z.shiftr (fnv1a_64_int 8 starttime FNV1A_64_OFFSET_BASIS) 32 in
  let fp := if fp =? 0 then 1 else fp in
  Z.lor (u64 (Z.shiftl fp 32)) (Z.land pid 4294967295).

Definition token_pid (token : Z) : Z := Z.land token 4294967295.

Definition self_token : bprog Z :=
  self <- Process.self_identity_uncached ;;
  Ret (make_token (Process.self_pid self) (Process.self_starttime self)).

Definition token_holder_dead (token : Z) : bprog bool :=
  let pid := token_pid token in
  if pid =? 0 then Ret false
  else
    alive <- process_exists pid ;;
    if negb alive then Ret true
    else
      '(starttime, exited) <- process_probe pid ;;
      if exited : bool then Ret true
      else if starttime =? 0 then Ret false
      else Ret (negb (make_token pid starttime =? token)).

(** Bring one entry to a valid terminal state. *)
Definition normalize_entry (i : Z) : bprog bool :=
  s <- load (Ent i state) ;;
  if s =? Claiming then
    clear_identity i ;;
    store (Ent i state) Free ;;
    Ret true
  else if s =? Active then
    h <- load (Ent i key_hash) ;;
    if h =? 0 then
      clear_identity i ;;
      store (Ent i state) Free ;;
      Ret true
    else Ret false
  else if s =? Free then
    h <- load (Ent i key_hash) ;;
    residue <- (if negb (h =? 0) then Ret true
                else p <- load (Ent i owner_pid) ;; Ret (negb (p =? 0))) ;;
    if residue : bool then clear_identity i ;; Ret true else Ret false
  else Ret false.

Definition repair_board (cap : Z) : bprog unit :=
  foreach (Z.to_nat cap) 0 tt (λ i _, normalize_entry i ;;; Ret tt).

(** [budget] bounds the attempts and [limit] the clock; zero disables a bound. *)
Definition board_lock (cap my_token budget limit : Z) : bprog bool :=
  start <- monotonic_ns ;;
  loop 0 (λ attempt,
    if negb (budget =? 0) && (budget <=? attempt) then Ret (inr false)
    else
      late <- (if 0 <? attempt then
                 yield ;;
                 if limit =? 0 then Ret false
                 else now <- monotonic_ns ;; Ret (limit <=? now - start)
               else Ret false) ;;
      if late : bool then Ret (inr false)
      else
        held <- load (Hdr lock_token) ;;
        if held =? 0 then
          '(ok, _) <- compare_exchange_strong (Hdr lock_token) 0 my_token ;;
          if ok : bool then Ret (inr true) else Ret (inl (attempt + 1))
        else
          dead <- token_holder_dead held ;;
          if negb dead then Ret (inl (attempt + 1))
          else
            '(ok, _) <- compare_exchange_strong (Hdr lock_token) held my_token ;;
            if ok : bool then repair_board cap ;; Ret (inr true)
            else Ret (inl (attempt + 1))).

Definition board_unlock : bprog unit := store (Hdr lock_token) 0.

(** A [BoardGuard]: [body] learns whether the lock is held, and the lock is
    released on every way out, a throw included. *)
Definition board_guard {A} (cap budget limit : Z) (body : bool → bprog A) : bprog A :=
  token <- self_token ;;
  held <- board_lock cap token budget limit ;;
  r <- try_ (body held) ;;
  when held board_unlock ;;
  match r with
  | inl a => Ret a
  | inr e => Throw e
  end.

Definition publish_free (i : Z) : bprog unit :=
  clear_identity i ;;
  store (Ent i state) Free.

Definition entry_takeable (pid starttime : Z) : bprog bool :=
  if pid =? 0 then Ret true else Process.owner_is_dead pid starttime.

Definition notify_change : bprog unit :=
  fetch_add u64 (Hdr change_seq) 1 ;;;
  w <- load (Hdr waiters) ;;
  when (negb (w =? 0)) (futex_wake_all (Hdr change_seq)).

(** ** Construction *)

Record board := {
  shm_open_ : bool;
  name_ : list Z;
  owner_name_ : list Z;
  base_ : bool;           (** the mapping pointer is not null *)
  size_ : Z;
  geometry_ : Geometry
}.

(** The new board and the moved-from one. *)
Definition board_move (other : board) : board * board :=
  (other, {| shm_open_ := false; name_ := []; owner_name_ := []; base_ := false; size_ := 0;
             geometry_ := null_geometry |}).

Definition require_open (b : board) : bprog unit :=
  if base_ b then Ret tt else throw runtime_error "Blackboard is not open".

Definition shm_name (kmsg_namespace name : list Z) : res (list Z) :=
  res_bind (Naming.sanitize_shm_component kmsg_namespace "namespace") (λ ns,
  res_bind (Naming.sanitize_shm_component name "blackboard") (λ n,
  Naming.compose_shm_name ns (str "bb_" ++ n))).

Definition entry_locs (i : Z) : list bloc :=
  map (Ent i) [state; publish; tenancy; owner_pid; owner_starttime; key_hash; declared_at_ns] ++
  map (KeyWord i) (upto (KEY_MAX `div` 8)) ++ map (NodeByte i) (upto NODE_NAME_MAX).
Definition cell_locs (g : Geometry) (i c : Z) : list bloc :=
  [Cell i c updated_at_ns; Cell i c value_len] ++
  map (CellWord i c) (upto ((value_stride g - SIZEOF_BLACKBOARD_CELL) `div` 8)).
Definition board_locs (g : Geometry) : list bloc :=
  map Hdr [magic; version; h_capacity; h_max_value_size; total_size; config_hash;
           identity_hash; creator_pid; created_at_ns; change_seq; waiters; lock_token] ++
  (i ← upto (capacity g); entry_locs i) ++
  (i ← upto (capacity g); c ← upto CELLS_PER_KEY; cell_locs g i c).

Definition init_as_creator (cfg : Config) : bprog Geometry :=
  let bytes := region_size (cfg_capacity cfg) (cfg_max_value_size cfg) in
  let g := make_geometry (cfg_capacity cfg) (cfg_max_value_size cfg) in
  zero_locs (board_locs g) ;;
  store (Hdr version) VERSION ;;
  store (Hdr h_capacity) (cfg_capacity cfg) ;;
  store (Hdr h_max_value_size) (cfg_max_value_size cfg) ;;
  store (Hdr total_size) bytes ;;
  store (Hdr config_hash) (bb_config_hash cfg) ;;
  store (Hdr identity_hash) (cfg_identity cfg) ;;
  pid <- current_pid ;;
  store (Hdr creator_pid) pid ;;
  now <- since_epoch ;;
  store (Hdr created_at_ns) (u64 now) ;;
  store (Hdr magic) MAGIC ;;
  Ret g.

(** The geometry checks of an opener, on the values it read. *)
Definition check_board (shm : list Z) (size total cap value_size : Z) : res Geometry :=
  let on := text_of_bytes shm in
  check ((total <? SIZEOF_BLACKBOARD_HEADER) || (size <? total))
    ("Blackboard total_size invalid on " +:+ on) $
  let after_header := total - SIZEOF_BLACKBOARD_HEADER in
  check ((cap =? 0) || (MAX_CAPACITY <? cap) ||
         (after_header `div` SIZEOF_BLACKBOARD_ENTRY <? cap))
    ("Blackboard capacity exceeds segment on " +:+ on) $
  check ((value_size =? 0) || (MAX_VALUE_SIZE <? value_size))
    ("Blackboard max_value_size invalid on " +:+ on) $
  let g := make_geometry cap value_size in
  let after_entries := u64 (total - values_offset g) in
  check (after_entries `div` u64 (CELLS_PER_KEY * value_stride g) <? cap)
    ("Blackboard value area exceeds segment on " +:+ on) $
  inl g.

Section shm.
Context `{SharedMemory bloc}.

(** One attempt of [spin_open]: [None] is not ready. *)
Definition open_attempt (shm : list Z) (cfg : Config) (check_config : bool)
    : bprog (option board) :=
  opened <- shm_try_open ;;
  match opened with
  | None => Ret None
  | Some size =>
      if size <? SIZEOF_BLACKBOARD_HEADER then
        throw runtime_error ("Blackboard segment too small: " +:+ text_of_bytes shm)
      else
        m <- load (Hdr magic) ;;
        if negb (m =? MAGIC) then Ret None
        else
          v <- load (Hdr version) ;;
          if negb (v =? VERSION) then
            throw version_mismatch
              ("Blackboard version mismatch on " +:+ text_of_bytes shm +:+
               ": stamped by an incompatible kickmsg build; stop its users and unlink it")
          else
            total <- load (Hdr total_size) ;;
            cap <- load (Hdr h_capacity) ;;
            value_size <- load (Hdr h_max_value_size) ;;
            g <- of_res (check_board shm size total cap value_size) ;;
            mismatch <- (if check_config then
                           h <- load (Hdr config_hash) ;; Ret (negb (h =? bb_config_hash cfg))
                         else Ret false) ;;
            if mismatch : bool then
              throw runtime_error ("Blackboard config mismatch on " +:+ text_of_bytes shm)
            else
              collision <- (if cfg_identity cfg =? 0 then Ret false
                            else
                              stamped <- load (Hdr identity_hash) ;;
                              if stamped =? 0 then Ret false
                              else
                                stamped <- load (Hdr identity_hash) ;;
                                Ret (negb (stamped =? cfg_identity cfg))) ;;
              if collision : bool then
                throw runtime_error ("Blackboard identity mismatch on " +:+ text_of_bytes shm)
              else
                Ret (Some {| shm_open_ := true; name_ := shm; owner_name_ := [];
                             base_ := true; size_ := size; geometry_ := g |})
  end.

Definition spin_open (shm : list Z) (cfg : Config) (check_config : bool)
    : bprog (option board) :=
  r <- for_ 200 0 tt (λ _ _,
    opened <- open_attempt shm cfg check_config ;;
    match opened with
    | Some b => Ret (inr b)
    | None => sleep 10000000 ;; Ret (inl tt)
    end) ;;
  match r with
  | inl _ => Ret None
  | inr b => Ret (Some b)
  end.

Definition open_or_create (kmsg_namespace name : list Z) (cfg : Config)
    (owner_name : list Z) : bprog board :=
  if (cfg_capacity cfg =? 0) || (MAX_CAPACITY <? cfg_capacity cfg) then
    throw invalid_argument "Blackboard capacity out of range"
  else if (cfg_max_value_size cfg =? 0) || (MAX_VALUE_SIZE <? cfg_max_value_size cfg) then
    throw invalid_argument "Blackboard max_value_size out of range"
  else
    let stamped :=
      {| cfg_capacity := cfg_capacity cfg; cfg_max_value_size := cfg_max_value_size cfg;
         cfg_identity := if cfg_identity cfg =? 0 then derived_identity kmsg_namespace name
                         else cfg_identity cfg |} in
    shm <- of_res (shm_name kmsg_namespace name) ;;
    let bytes := region_size (cfg_capacity cfg) (cfg_max_value_size cfg) in
    created <- shm_try_create bytes ;;
    if created : bool then
      g <- init_as_creator stamped ;;
      Ret {| shm_open_ := true; name_ := shm; owner_name_ := owner_name; base_ := true;
             size_ := bytes; geometry_ := g |}
    else
      opened <- spin_open shm stamped true ;;
      match opened with
      | Some b =>
          Ret {| shm_open_ := true; name_ := name_ b; owner_name_ := owner_name;
                 base_ := true; size_ := size_ b; geometry_ := geometry_ b |}
      | None =>
          throw runtime_error
            ("Timed out waiting for blackboard init: " +:+ text_of_bytes shm)
      end.

Definition try_open (kmsg_namespace name : list Z) : bprog (option board) :=
  shm <- of_res (shm_name kmsg_namespace name) ;;
  probe <- shm_try_open ;;
  match probe with
  | None => Ret None
  | Some _ =>
      let expected :=
        {| cfg_capacity := DEFAULT_CAPACITY; cfg_max_value_size := DEFAULT_MAX_VALUE_SIZE;
           cfg_identity := derived_identity kmsg_namespace name |} in
      opened <- spin_open shm expected false ;;
      match opened with
      | Some b => Ret (Some b)
      | None =>
          throw runtime_error
            ("Blackboard region exists but was never initialized: " +:+ text_of_bytes shm)
      end
  end.

Definition unlink (kmsg_namespace name : list Z) : bprog unit :=
  of_res (shm_name kmsg_namespace name) ;;;
  shm_unlink.
End shm.

Definition board_capacity (b : board) : bprog Z :=
  require_open b ;; Ret (capacity (geometry_ b)).
Definition board_max_value_size (b : board) : bprog Z :=
  require_open b ;; Ret (max_value_size (geometry_ b)).
Definition read_change_seq (b : board) : bprog Z :=
  require_open b ;; load (Hdr change_seq).

(** ** Sweeping *)

Definition sweep_entry (i : Z) : bprog bool :=
  normalized <- normalize_entry i ;;
  if normalized : bool then Ret true
  else
    pid <- load (Ent i owner_pid) ;;
    if pid =? 0 then Ret false
    else
      start <- load (Ent i owner_starttime) ;;
      dead <- Process.owner_is_dead pid start ;;
      if negb dead then Ret false
      else
        fetch_add u64 (Ent i tenancy) 1 ;;;
        publish_free i ;;
        Ret true.

(** The sweep body, under the board lock. *)
Definition sweep_locked (cap : Z) : bprog Z :=
  foreach (Z.to_nat cap) 0 0 (λ i reclaimed,
    ok <- sweep_entry i ;;
    Ret (if ok : bool then u32 (reclaimed + 1) else reclaimed)).

Definition sweep_stale (b : board) : bprog Z :=
  require_open b ;;
  let cap := capacity (geometry_ b) in
  board_guard cap 4096 0 (λ held,
    if negb held then Ret 0
    else
      reclaimed <- sweep_locked cap ;;
      when (0 <? reclaimed) notify_change ;;
      Ret reclaimed).

(** ** Declaring and observing *)

Record Writer := {
  w_base_ : bool;
  w_geometry_ : Geometry;
  w_entry_idx_ : Z;
  w_tenancy_ : Z;
  w_writes_ : Z;
  w_owner_pid_ : Z;
  w_key_ : list Z
}.

Record Reader := {
  r_base_ : bool;
  r_geometry_ : Geometry;
  r_entry_idx_ : Z;
  r_tenancy_ : Z;
  r_key_hash_ : Z;
  r_key_ : list Z
}.

(** The key checks of [declare] and [observe]: the bytes before the NUL, or
    a null pointer. *)
Definition check_key (key : option (list Z)) : res (list Z) :=
  match key with
  | None => inr (Exn invalid_argument "Blackboard key must not be empty")
  | Some key =>
      if bool_decide (key = []) then
        inr (Exn invalid_argument "Blackboard key must not be empty")
      else if KEY_MAX <=? Z.min (Z.of_nat (length key)) KEY_MAX then
        inr (Exn invalid_argument "Blackboard key exceeds KEY_MAX")
      else inl key
  end.

(** Pass 1 on one entry: does it hold the key, and may it be taken? *)
Definition take_over (b : board) (self : Process.SelfIdentity) (key : list Z)
    (owner_node : list Z) (i : Z) : bprog (option Writer) :=
  let h := key_fingerprint key in
  s <- load (Ent i state) ;;
  if negb (s =? Active) then Ret None
  else
    kh <- load (Ent i key_hash) ;;
    if negb (kh =? h) then Ret None
    else
      same <- key_matches i key ;;
      if negb same then Ret None
      else
        pid <- load (Ent i owner_pid) ;;
        start <- load (Ent i owner_starttime) ;;
        takeable <- entry_takeable pid start ;;
        if negb takeable then
          throw runtime_error
            ("Blackboard key already owned by a live process: " +:+ text_of_bytes key)
        else
          copy_field i (Some owner_node) ;;
          store (Ent i owner_starttime) (Process.self_starttime self) ;;
          store (Ent i owner_pid) (Process.self_pid self) ;;
          t <- fetch_add u64 (Ent i tenancy) 1 ;;
          p <- load (Ent i publish) ;;
          notify_change ;;
          Ret (Some {| w_base_ := true; w_geometry_ := geometry_ b; w_entry_idx_ := i;
                       w_tenancy_ := u64 (t + 1); w_writes_ := Z.shiftr p 1;
                       w_owner_pid_ := Process.self_pid self; w_key_ := key |}).

(** The lambda [claim_free_slot] on one entry. *)
Definition claim_entry (self : Process.SelfIdentity) (key owner_node : list Z) (i : Z)
    : bprog bool :=
  s <- load (Ent i state) ;;
  if negb (s =? Free) then Ret false
  else
    store (Ent i state) Claiming ;;
    store (Ent i publish) 0 ;;
    bb_store_key i key ;;
    copy_field i (Some owner_node) ;;
    now <- monotonic_ns ;;
    store (Ent i declared_at_ns) (u64 now) ;;
    store (Ent i owner_starttime) (Process.self_starttime self) ;;
    store (Ent i owner_pid) (Process.self_pid self) ;;
    store (Ent i key_hash) (key_fingerprint key) ;;
    fetch_add u64 (Ent i tenancy) 1 ;;;
    store (Ent i state) Active ;;
    Ret true.

Definition claim_free_slot (cap : Z) (self : Process.SelfIdentity) (key owner_node : list Z)
    : bprog Z :=
  r <- for_ (Z.to_nat cap) 0 tt (λ i _,
    ok <- claim_entry self key owner_node i ;;
    if ok : bool then Ret (inr i) else Ret (inl tt)) ;;
  match r with
  | inl _ => Ret INVALID_SLOT
  | inr i => Ret i
  end.

(** [declare] under the board lock. *)
Definition declare_locked (b : board) (self : Process.SelfIdentity) (key owner_node : list Z)
    : bprog Writer :=
  let cap := capacity (geometry_ b) in
  r <- for_ (Z.to_nat cap) 0 tt (λ i _,
    taken <- take_over b self key owner_node i ;;
    match taken with
    | Some w => Ret (inr w)
    | None => Ret (inl tt)
    end) ;;
  match r with
  | inr w => Ret w
  | inl _ =>
      claimed <- claim_free_slot cap self key owner_node ;;
      claimed <- (if claimed =? INVALID_SLOT then
                    swept <- sweep_locked cap ;;
                    if 0 <? swept then claim_free_slot cap self key owner_node
                    else Ret claimed
                  else Ret claimed) ;;
      if negb (claimed =? INVALID_SLOT) then
        t <- load (Ent claimed tenancy) ;;
        notify_change ;;
        Ret {| w_base_ := true; w_geometry_ := geometry_ b; w_entry_idx_ := claimed;
               w_tenancy_ := t; w_writes_ := 0; w_owner_pid_ := Process.self_pid self;
               w_key_ := key |}
      else throw runtime_error "Blackboard is at capacity"
  end.

Definition declare (b : board) (key owner_node : option (list Z)) : bprog Writer :=
  require_open b ;;
  let owner_node := default (owner_name_ b) owner_node in
  key <- of_res (check_key key) ;;
  self <- Process.self_identity_uncached ;;
  board_guard (capacity (geometry_ b)) 4096 0 (λ held,
    if negb held then
      throw runtime_error "Blackboard is busy: could not take the board lock"
    else declare_locked b self key owner_node).

Definition observe (b : board) (key : option (list Z)) : bprog Reader :=
  require_open b ;;
  key <- of_res (check_key key) ;;
  Ret {| r_base_ := true; r_geometry_ := geometry_ b; r_entry_idx_ := INVALID_SLOT;
         r_tenancy_ := 0; r_key_hash_ := key_fingerprint key; r_key_ := key |}.

(** ** Writers *)

Definition dead_writer (w : Writer) : Writer :=
  {| w_base_ := false; w_geometry_ := w_geometry_ w; w_entry_idx_ := INVALID_SLOT;
     w_tenancy_ := w_tenancy_ w; w_writes_ := w_writes_ w; w_owner_pid_ := w_owner_pid_ w;
     w_key_ := w_key_ w |}.

(** The new writer and the moved-from one. *)
Definition writer_move (other : Writer) : Writer * Writer :=
  (other,
   {| w_base_ := false; w_geometry_ := w_geometry_ other; w_entry_idx_ := INVALID_SLOT;
      w_tenancy_ := w_tenancy_ other; w_writes_ := w_writes_ other;
      w_owner_pid_ := w_owner_pid_ other; w_key_ := [] |}).

Definition writer_write (w : Writer) (data : list Z) : bprog (errc * Writer) :=
  let len := Z.of_nat (length data) in
  if negb (w_base_ w) then Ret (bad_file_descriptor, w)
  else
    self <- Process.self_identity_uncached ;;
    if negb (Process.self_pid self =? w_owner_pid_ w) then Ret (operation_not_permitted, w)
    else if capacity (w_geometry_ w) <=? w_entry_idx_ w then Ret (bad_file_descriptor, w)
    else if max_value_size (w_geometry_ w) <? len then Ret (message_size, w)
    else
      let i := w_entry_idx_ w in
      s <- load (Ent i state) ;;
      if negb (s =? Active) then Ret (state_not_recoverable, w)
      else
        t <- load (Ent i tenancy) ;;
        if negb (t =? w_tenancy_ w) then Ret (state_not_recoverable, w)
        else
          let writes := u64 (w_writes_ w + 1) in
          let c := parity writes in
          store (Ent i publish) (u64 (2 * writes - 1)) ;;
          when (0 <? len) (store_words (CellWord i c) data) ;;
          store (Cell i c value_len) (u32 len) ;;
          now <- monotonic_ns ;;
          store (Cell i c updated_at_ns) (u64 now) ;;
          store (Ent i publish) (u64 (2 * writes)) ;;
          notify_change ;;
          Ret (Ok, {| w_base_ := w_base_ w; w_geometry_ := w_geometry_ w;
                      w_entry_idx_ := i; w_tenancy_ := w_tenancy_ w; w_writes_ := writes;
                      w_owner_pid_ := w_owner_pid_ w; w_key_ := w_key_ w |}).

(** The part of [release] under the board lock. *)
Definition release_locked (i t : Z) : bprog errc :=
  s <- load (Ent i state) ;;
  current <- (if s =? Active then
                t' <- load (Ent i tenancy) ;; Ret (t' =? t)
              else Ret false) ;;
  if negb current then Ret state_not_recoverable
  else
    store (Ent i owner_pid) 0 ;;
    store (Ent i owner_starttime) 0 ;;
    fetch_add u64 (Ent i tenancy) 1 ;;;
    notify_change ;;
    Ret Ok.

Definition writer_release (w : Writer) : bprog (errc * Writer) :=
  if negb (w_base_ w) then Ret (Ok, w)
  else
    self <- Process.self_identity_uncached ;;
    if negb (Process.self_pid self =? w_owner_pid_ w) then
      Ret (operation_not_permitted, dead_writer w)
    else
      ec <- (if w_entry_idx_ w <? capacity (w_geometry_ w) then
               board_guard (capacity (w_geometry_ w)) 0 RELEASE_LOCK_WAIT (λ held,
                 if negb held then Ret device_or_resource_busy
                 else release_locked (w_entry_idx_ w) (w_tenancy_ w))
             else Ret bad_file_descriptor) ;;
      Ret (ec, dead_writer w).

Definition writer_move_assign (this other : Writer) : bprog (Writer * Writer) :=
  writer_release this ;;;
  Ret (writer_move other).

(** ** Readers *)

Definition set_resolved (r : Reader) (idx t : Z) : Reader :=
  {| r_base_ := r_base_ r; r_geometry_ := r_geometry_ r; r_entry_idx_ := idx;
     r_tenancy_ := t; r_key_hash_ := r_key_hash_ r; r_key_ := r_key_ r |}.

(** Does the entry the reader remembers still have its tenancy? *)
Definition still_resolved (r : Reader) : bprog bool :=
  if r_entry_idx_ r <? capacity (r_geometry_ r) then
    s <- load (Ent (r_entry_idx_ r) state) ;;
    if s =? Active then
      t <- load (Ent (r_entry_idx_ r) tenancy) ;;
      Ret (t =? r_tenancy_ r)
    else Ret false
  else Ret false.

(** One candidate of the scan: the tenancy it was matched under. *)
Definition match_entry (r : Reader) (i : Z) : bprog (option Z) :=
  s <- load (Ent i state) ;;
  if negb (s =? Active) then Ret None
  else
    h <- load (Ent i key_hash) ;;
    if negb (h =? r_key_hash_ r) then Ret None
    else
      t <- load (Ent i tenancy) ;;
      same <- key_equals i (r_key_ r) ;;
      Ret (if same : bool then Some t else None).

Definition resolve (r : Reader) : bprog (bool * Reader) :=
  if negb (r_base_ r) then Ret (false, r)
  else
    ok <- still_resolved r ;;
    if ok : bool then Ret (true, r)
    else
      found <- for_ (Z.to_nat (capacity (r_geometry_ r))) 0 tt (λ i _,
        m <- match_entry r i ;;
        match m with
        | Some t => Ret (inr (i, t))
        | None => Ret (inl tt)
        end) ;;
      match found with
      | inr (i, t) => Ret (true, set_resolved r i t)
      | inl _ => Ret (false, set_resolved r INVALID_SLOT (r_tenancy_ r))
      end.

Record ReadOutcome := {
  ec : errc;
  out_len : Z;
  out_updated_at_ns : Z;
  out_update_count : Z
}.

Definition failed (e : errc) : ReadOutcome :=
  {| ec := e; out_len := 0; out_updated_at_ns := 0; out_update_count := 0 |}.

(** The seqlock test: the cell of [publish_before] is not yet clobbered. *)
Definition cell_clobbered (publish_before publish_after : Z) : bool :=
  2 * CELLS_PER_KEY - 1 <=? u64 (publish_after - Z.ldiff publish_before 1).

(** [memcpy] to the front of a buffer. *)
Definition fill (buf bs : list Z) : list Z := bs ++ drop (length bs) buf.

(** One attempt of [read] on the resolved entry: [inl] retries. *)
Definition read_attempt (r : Reader) (buf : list Z)
    : bprog (list Z + (ReadOutcome * list Z)) :=
  let i := r_entry_idx_ r in
  let limit := max_value_size (r_geometry_ r) in
  tenancy_before <- load (Ent i tenancy) ;;
  if negb (tenancy_before =? r_tenancy_ r) then Ret (inl buf)
  else
    publish_before <- load (Ent i publish) ;;
    let writes := Z.shiftr publish_before 1 in
    if writes =? 0 then Ret (inr (failed no_message, buf))
    else
      let c := parity writes in
      len <- load (Cell i c value_len) ;;
      let len := if limit <? len then limit else len in
      let fits := len <=? Z.of_nat (length buf) in
      buf <- (if fits && (0 <? len) then
                bytes <- load_words (CellWord i c) len ;; Ret (fill buf bytes)
              else Ret buf) ;;
      stamp <- load (Cell i c updated_at_ns) ;;
      publish_after <- load (Ent i publish) ;;
      tenancy_after <- load (Ent i tenancy) ;;
      if negb (tenancy_after =? tenancy_before) then Ret (inl buf)
      else if cell_clobbered publish_before publish_after then Ret (inl buf)
      else
        Ret (inr ({| ec := if fits then Ok else message_size; out_len := len;
                     out_updated_at_ns := stamp; out_update_count := writes |}, buf)).

(** [read(void* out, capacity)]: [buf] is the caller's buffer. *)
Definition read (r : Reader) (buf : list Z) : bprog ((ReadOutcome * list Z) * Reader) :=
  if negb (r_base_ r) then Ret ((failed no_such_file_or_directory, buf), r)
  else
    res <- for_ READ_RETRY_BUDGET 0 (r, buf) (λ _ '(r, buf),
      '(found, r) <- resolve r ;;
      if negb found then Ret (inr ((failed no_such_file_or_directory, buf), r))
      else
        a <- read_attempt r buf ;;
        match a with
        | inl buf => Ret (inl (r, buf))
        | inr result => Ret (inr (result, r))
        end) ;;
    match res with
    | inr x => Ret x
    | inl (r, buf) => Ret ((failed resource_unavailable_try_again, buf), r)
    end.

(** [std::vector::resize] *)
Definition resize (n : Z) (bs : list Z) : list Z :=
  take (Z.to_nat n) bs ++ replicate (Z.to_nat n - length bs) 0.

(** [read(std::vector<uint8_t>& out)] *)
Definition read_vector (r : Reader) (out : list Z)
    : bprog ((ReadOutcome * list Z) * Reader) :=
  res <- for_ 4 0 (r, out) (λ _ '(r, out),
    '((result, out), r) <- read r out ;;
    if decide (ec result = message_size) then Ret (inl (r, resize (out_len result) out))
    else if decide (ec result = Ok) then
      Ret (inr ((result, resize (out_len result) out), r))
    else Ret (inr ((result, out), r))) ;;
  match res with
  | inr x => Ret x
  | inl (r, out) => Ret ((failed resource_unavailable_try_again, out), r)
  end.

(** [read(T& out)] for an object of [length staging] bytes: the bytes copied
    into it, if any. *)
Definition read_object (r : Reader) (staging : list Z)
    : bprog ((ReadOutcome * option (list Z)) * Reader) :=
  '((result, staging), r) <- read r staging ;;
  if negb (bool_decide (ec result = Ok)) then Ret ((result, None), r)
  else if negb (out_len result =? Z.of_nat (length staging)) then
    Ret (({| ec := bad_message; out_len := out_len result;
             out_updated_at_ns := out_updated_at_ns result;
             out_update_count := out_update_count result |}, None), r)
  else Ret ((result, Some staging), r).

Definition owner_alive (r : Reader) : bprog (bool * Reader) :=
  '(found, r) <- resolve r ;;
  if negb found then Ret (false, r)
  else
    pid <- load (Ent (r_entry_idx_ r) owner_pid) ;;
    if pid =? 0 then Ret (false, r)
    else
      start <- load (Ent (r_entry_idx_ r) owner_starttime) ;;
      dead <- Process.owner_is_dead pid start ;;
      Ret (negb dead, r).

(** ** Waiting and listing *)

Definition wait (b : board) (last_seen timeout : Z) : bprog errc :=
  require_open b ;;
  start <- monotonic_ns ;;
  loop tt (λ _,
    seq <- load (Hdr change_seq) ;;
    if negb (seq =? last_seen) then Ret (inr Ok)
    else
      now <- monotonic_ns ;;
      let elapsed := now - start in
      if timeout <=? elapsed then Ret (inr timed_out)
      else
        let remaining := timeout - elapsed in
        fetch_add u64 (Hdr waiters) 1 ;;;
        seq <- load (Hdr change_seq) ;;
        if negb (seq =? last_seen) then
          fetch_sub u64 (Hdr waiters) 1 ;;; Ret (inr Ok)
        else
          futex_wait (Hdr change_seq) last_seen remaining ;;
          fetch_sub u64 (Hdr waiters) 1 ;;;
          Ret (inl tt)).

Record EntryRead := {
  e_key : list Z;
  e_value_len : Z;
  e_updated_at_ns : Z;
  e_update_count : Z
}.

(** The cell of one attempt of [read_entry]: length, stamp, and the value
    when it is wanted. *)
Definition read_cell (g : Geometry) (i writes : Z) (value : option (list Z))
    : bprog (Z * Z * option (list Z)) :=
  let c := parity writes in
  len <- load (Cell i c value_len) ;;
  let len := if max_value_size g <? len then max_value_size g else len in
  stamp <- load (Cell i c updated_at_ns) ;;
  value <- (match value with
            | None => Ret None
            | Some v =>
                let v := resize len v in
                if 0 <? len then
                  bytes <- load_words (CellWord i c) len ;; Ret (Some (fill v bytes))
                else Ret (Some v)
            end) ;;
  Ret (len, stamp, value).

Definition read_entry (g : Geometry) (i : Z) (out : EntryRead) (value : option (list Z))
    : bprog (errc * (EntryRead * option (list Z))) :=
  r <- for_ READ_RETRY_BUDGET 0 (out, value) (λ _ '(out, value),
    s <- load (Ent i state) ;;
    if negb (s =? Active) then Ret (inr (no_such_file_or_directory, (out, value)))
    else
      tenancy_before <- load (Ent i tenancy) ;;
      key <- bb_load_key i ;;
      publish_before <- load (Ent i publish) ;;
      let writes := Z.shiftr publish_before 1 in
      '(len, stamp, value) <- (if 0 <? writes then read_cell g i writes value
                               else Ret (0, 0, value)) ;;
      let out := {| e_key := key; e_value_len := len; e_updated_at_ns := stamp;
                    e_update_count := writes |} in
      publish_after <- load (Ent i publish) ;;
      tenancy_after <- load (Ent i tenancy) ;;
      state_after <- load (Ent i state) ;;
      if negb (state_after =? Active) || negb (tenancy_after =? tenancy_before) then
        Ret (inl (out, value))
      else if (0 <? writes) && cell_clobbered publish_before publish_after then
        Ret (inl (out, value))
      else if writes =? 0 then Ret (inr (no_message, (out, value)))
      else Ret (inr (Ok, (out, value)))) ;;
  match r with
  | inr x => Ret x
  | inl s => Ret (resource_unavailable_try_again, s)
  end.

Definition no_entry : EntryRead :=
  {| e_key := []; e_value_len := 0; e_updated_at_ns := 0; e_update_count := 0 |}.

(** [ec and ec != no_message] *)
Definition unlisted (e : errc) : bool :=
  negb (bool_decide (e = Ok)) && negb (bool_decide (e = no_message)).

Record KeyStatus := {
  k_key : list Z;
  k_value_len : Z;
  k_updated_at_ns : Z;
  k_update_count : Z;
  k_owner_pid : Z;
  k_owner_node : list Z;
  k_owner_alive : bool
}.

(** The rows listed under the lock, with the owners' start times. *)
Definition snapshot_locked (g : Geometry) : bprog (list (KeyStatus * Z)) :=
  '(rows, _) <- foreach (Z.to_nat (capacity g)) 0 ([], no_entry) (λ i '(rows, rd),
    '(e, (rd, _)) <- read_entry g i rd None ;;
    if unlisted e then Ret (rows, rd)
    else
      node <- memcpy_out (NodeByte i) NODE_NAME_MAX ;;
      pid <- load (Ent i owner_pid) ;;
      start <- load (Ent i owner_starttime) ;;
      Ret (rows ++ [({| k_key := e_key rd; k_value_len := e_value_len rd;
                        k_updated_at_ns := e_updated_at_ns rd;
                        k_update_count := e_update_count rd; k_owner_pid := pid;
                        k_owner_node := until_nul node; k_owner_alive := false |}, start)],
           rd)) ;;
  Ret rows.

(** Probe the owners, after the lock is dropped. *)
Fixpoint probe_owners (rows : list (KeyStatus * Z)) : bprog (list KeyStatus) :=
  match rows with
  | [] => Ret []
  | (k, start) :: rows =>
      alive <- (if k_owner_pid k =? 0 then Ret false
                else
                  dead <- Process.owner_is_dead (k_owner_pid k) start ;;
                  Ret (negb dead)) ;;
      rest <- probe_owners rows ;;
      Ret ({| k_key := k_key k; k_value_len := k_value_len k;
              k_updated_at_ns := k_updated_at_ns k; k_update_count := k_update_count k;
              k_owner_pid := k_owner_pid k; k_owner_node := k_owner_node k;
              k_owner_alive := alive |} :: rest)
  end.

Definition snapshot (b : board) : bprog (list KeyStatus) :=
  require_open b ;;
  rows <- board_guard (capacity (geometry_ b)) 1024 0 (λ held,
    if negb held then
      throw runtime_error "Blackboard is busy: could not take the board lock"
    else snapshot_locked (geometry_ b)) ;;
  probe_owners rows.

Fixpoint starts_with (prefix s : list Z) : bool :=
  match prefix, s with
  | [], _ => true
  | _ :: _, [] => false
  | p :: prefix, c :: s => (p =? c) && starts_with prefix s
  end.

Definition keys (b : board) (prefix : list Z) : bprog (list (list Z)) :=
  require_open b ;;
  '(out, _) <- foreach (Z.to_nat (capacity (geometry_ b))) 0 ([], no_entry)
    (λ i '(out, rd),
      '(e, (rd, _)) <- read_entry (geometry_ b) i rd None ;;
      if unlisted e then Ret (out, rd)
      else if negb (starts_with prefix (e_key rd)) then Ret (out, rd)
      else Ret (out ++ [e_key rd], rd)) ;;
  Ret out.

Definition read_all (b : board) (prefix : list Z) : bprog (gmap (list Z) (list Z)) :=
  require_open b ;;
  '(out, _) <- foreach (Z.to_nat (capacity (geometry_ b))) 0 (∅, (no_entry, Some []))
    (λ i '(out, (rd, value)),
      '(e, (rd, value)) <- read_entry (geometry_ b) i rd value ;;
      if negb (bool_decide (e = Ok)) then Ret (out, (rd, value))
      else if negb (starts_with prefix (e_key rd)) then Ret (out, (rd, value))
      else
        Ret (match out !! e_key rd with
             | Some _ => out
             | None => <[e_key rd := default [] value]> out
             end, (rd, Some []))) ;;
  Ret out.
End Blackboard.
