(* ===== verification/Board.v ===== *)
(** * The blackboard is a table of posts

    What [Blackboard] promises its users: a table of rows, each empty or holding
    one post: a key, its owner, the number of writes and the last value.  A key
    has at most one post; declaring it takes the post over when nobody alive owns
    it, and the count and the value survive; a writer's ticket is good until the
    post is taken over or released; a reader finds its key by name.  The board of
    [Blackboard.v] refines it: hashes, scans, the board lock, tenancies, cells and
    the resolved entry a reader remembers do not show. *)

From S2P Require Import Prelude Prog Sessions Hash Types Layout Words Process Blackboard.
Import Blackboard.

Module Board.
(** ** The promise *)

Record post := Post {
  p_key : list Z;
  p_pid : Z;
  p_start : Z;
  p_count : Z;
  p_value : list Z;
  p_stamp : Z
}.

(** [r_epoch] tells the tenancies of a row apart. *)
Record row := Row { r_epoch : Z; r_post : option post }.
Abbreviation table := (list row).

Definition vacant (x : row) : bool := match r_post x with None => true | Some _ => false end.
Definition holds_key (key : list Z) (x : row) : bool :=
  match r_post x with Some p => bool_decide (p_key p = key) | None => false end.

Definition post_at (rows : table) (i : nat) : option (Z * post) :=
  match rows !! i with Some (Row e (Some p)) => Some (e, p) | _ => None end.

Definition owner_dead (o : os) (p : post) : bool :=
  Process.dead_verdict (os_procs o) (p_pid p) (p_start p).
Definition takeable (o : os) (p : post) : bool := (p_pid p =? 0) || owner_dead o p.

Definition owned_by (o : os) (p : post) : post :=
  Post (p_key p) (os_pid o) (Process.starttime_of o) (p_count p) (p_value p) (p_stamp p).
Definition new_post (o : os) (key : list Z) : post :=
  Post key (os_pid o) (Process.starttime_of o) 0 [] 0.
Definition disowned (p : post) : post := Post (p_key p) 0 0 (p_count p) (p_value p) (p_stamp p).
Definition written (o : os) (data : list Z) (p : post) : post :=
  Post (p_key p) (p_pid p) (p_start p) (p_count p + 1) data (u64 (os_clock o)).

Definition swept_row (o : os) (x : row) : row :=
  match r_post x with
  | Some p => if owner_dead o p then Row (r_epoch x + 1) None else x
  | None => x
  end.
Definition swept (o : os) (x : row) : bool :=
  match r_post x with Some p => owner_dead o p | None => false end.
Definition sweep (o : os) (rows : table) : table := map (swept_row o) rows.

Definition claim (o : os) (key : list Z) (rows : table) (i : nat) : table :=
  alter (λ x, Row (r_epoch x + 1) (Some (new_post o key))) i rows.

(** The row a declaration gets, with the table after it. *)
Definition enter (o : os) (key : list Z) (rows : table) : (nat * table) + exn :=
  match first_index (holds_key key) rows with
  | Some i =>
      match post_at rows i with
      | Some (e, p) =>
          if takeable o p then inl (i, <[i := Row (e + 1) (Some (owned_by o p))]> rows)
          else inr (Exn runtime_error
                      ("Blackboard key already owned by a live process: " +:+ text_of_bytes key))
      | None => inr (Exn runtime_error "Blackboard is at capacity")
      end
  | None =>
      match first_index vacant rows with
      | Some i => inl (i, claim o key rows i)
      | None =>
          match first_index vacant (sweep o rows) with
          | Some i => inl (i, claim o key (sweep o rows) i)
          | None => inr (Exn runtime_error "Blackboard is at capacity")
          end
      end
  end.

(** What a writer holds. *)
Record ticket := Ticket { t_open : bool; t_row : nat; t_epoch : Z; t_pid : Z }.

Definition close (t : ticket) : ticket := Ticket false (t_row t) (t_epoch t) (t_pid t).

(** The post a ticket is good for. *)
Definition current (rows : table) (t : ticket) : option post :=
  match post_at rows (t_row t) with
  | Some (e, p) => if e =? t_epoch t then Some p else None
  | None => None
  end.

Definition write (limit : Z) (o : os) (t : ticket) (data : list Z) (rows : table) : errc * table :=
  if negb (t_open t) then (bad_file_descriptor, rows)
  else if negb (os_pid o =? t_pid t) then (operation_not_permitted, rows)
  else if limit <? Z.of_nat (length data) then (message_size, rows)
  else match current rows t with
       | Some p => (Ok, <[t_row t := Row (t_epoch t) (Some (written o data p))]> rows)
       | None => (state_not_recoverable, rows)
       end.

Definition release (o : os) (t : ticket) (rows : table) : errc * table :=
  if negb (t_open t) then (Ok, rows)
  else if negb (os_pid o =? t_pid t) then (operation_not_permitted, rows)
  else match current rows t with
       | Some p => (Ok, <[t_row t := Row (t_epoch t + 1) (Some (disowned p))]> rows)
       | None => (state_not_recoverable, rows)
       end.

Definition lookup_key (key : list Z) (rows : table) : ReadOutcome * list Z :=
  match first_index (holds_key key) rows with
  | Some i =>
      match post_at rows i with
      | Some (_, p) =>
          if p_count p =? 0 then (failed no_message, [])
          else ({| ec := Ok; out_len := Z.of_nat (length (p_value p)); out_updated_at_ns := p_stamp p;
                   out_update_count := p_count p |}, p_value p)
      | None => (failed no_such_file_or_directory, [])
      end
  | None => (failed no_such_file_or_directory, [])
  end.

(** *** Calls *)

Inductive call :=
  | DeclareKey (key node : option (list Z))
  | Write (k : nat) (data : list Z)
  | Release (k : nat)
  | Observe (key : option (list Z))
  | Read (k : nat)
  | Sweep.

Inductive reply :=
  | KeyDeclared
  | Observed
  | Thrown (e : exn)
  | Result (e : errc)
  | Reading (res : ReadOutcome) (value : list Z)
  | Swept (n : Z)
  | NoHandle.

(** The table, the tickets of the writers and the keys of the readers. *)
Record contents := Contents { rows : table; tickets : list ticket; watched : list (list Z) }.

Definition promised (limit : Z) (o : os) (c : call) (a : contents) : reply * contents :=
  match c with
  | DeclareKey key node =>
      match check_key key with
      | inr e => (Thrown e, a)
      | inl key =>
          match enter o key (rows a) with
          | inr e => (Thrown e, a)
          | inl (i, rows') =>
              (KeyDeclared, Contents rows'
                 (tickets a ++ [Ticket true i (default 0 (fst <$> post_at rows' i)) (os_pid o)]) (watched a))
          end
      end
  | Write k data =>
      match tickets a !! k with
      | Some t => let '(e, rows') := write limit o t data (rows a) in
                  (Result e, Contents rows' (tickets a) (watched a))
      | None => (NoHandle, a)
      end
  | Release k =>
      match tickets a !! k with
      | Some t => let '(e, rows') := release o t (rows a) in
                  (Result e, Contents rows' (<[k := close t]> (tickets a)) (watched a))
      | None => (NoHandle, a)
      end
  | Observe key =>
      match check_key key with
      | inr e => (Thrown e, a)
      | inl key => (Observed, Contents (rows a) (tickets a) (watched a ++ [key]))
      end
  | Read k =>
      match watched a !! k with
      | Some key => let '(res, value) := lookup_key key (rows a) in (Reading res value, a)
      | None => (NoHandle, a)
      end
  | Sweep =>
      (Swept (Z.of_nat (length (List.filter (swept o) (rows a)))),
       Contents (sweep o (rows a)) (tickets a) (watched a))
  end.

(** *** The calls on the board *)

Record handles := Handles { writers : list Writer; readers : list Reader }.

Definition perform (b : board) (c : call) (e : handles) : bprog (reply * handles) :=
  match c with
  | DeclareKey key node =>
      r <- try_ (declare b key node) ;;
      match r with
      | inl w => Ret (KeyDeclared, Handles (writers e ++ [w]) (readers e))
      | inr x => Ret (Thrown x, e)
      end
  | Write k data =>
      match writers e !! k with
      | Some w =>
          '(ec, w) <- writer_write w data ;;
          Ret (Result ec, Handles (<[k := w]> (writers e)) (readers e))
      | None => Ret (NoHandle, e)
      end
  | Release k =>
      match writers e !! k with
      | Some w =>
          '(ec, w) <- writer_release w ;;
          Ret (Result ec, Handles (<[k := w]> (writers e)) (readers e))
      | None => Ret (NoHandle, e)
      end
  | Observe key =>
      r <- try_ (observe b key) ;;
      match r with
      | inl r => Ret (Observed, Handles (writers e) (readers e ++ [r]))
      | inr x => Ret (Thrown x, e)
      end
  | Read k =>
      match readers e !! k with
      | Some r =>
          '((res, value), r) <- read_vector r [] ;;
          Ret (Reading res value, Handles (writers e) (<[k := r]> (readers e)))
      | None => Ret (NoHandle, e)
      end
  | Sweep => n <- sweep_stale b ;; Ret (Swept n, e)
  end.

(** ** What a row of the board says *)

Definition key_ok (key : list Z) : Prop :=
  key ≠ [] ∧ Z.of_nat (length key) < KEY_MAX ∧ Forall (λ b, 1 <= b < 256) key.

Definition post_ok (g : Geometry) (p : post) : Prop :=
  key_ok (p_key p) ∧ Forall is_u8 (p_value p) ∧ 0 <= p_count p ∧
  Z.of_nat (length (p_value p)) <= max_value_size g.

(** The last write is in the cell its number selects. *)
Definition cell_shows (m : bloc → Z) (i : Z) (p : post) : Prop :=
  let c := parity (p_count p) in
  m (Cell i c value_len) = Z.of_nat (length (p_value p)) ∧
  m (Cell i c updated_at_ns) = p_stamp p ∧
  load_list (CellWord i c) 0 (nwords (length (p_value p))) m = words_of (p_value p).

Record post_shows (m : bloc → Z) (i : Z) (p : post) : Prop := {
  ps_state : m (Ent i state) = Active;
  ps_hash : m (Ent i key_hash) = key_fingerprint (p_key p);
  ps_key : load_list (KeyWord i) 0 16 m = words_of (key_bytes (p_key p));
  ps_pid : m (Ent i owner_pid) = p_pid p;
  ps_start : m (Ent i owner_starttime) = p_start p;
  (* odd while a write is under way, or where its writer died *)
  ps_publish : Z.shiftr (m (Ent i publish)) 1 = p_count p;
  ps_cell : p_count p ≠ 0 → cell_shows m i p
}.

Definition shows (g : Geometry) (m : bloc → Z) (i : Z) (x : row) : Prop :=
  m (Ent i tenancy) = r_epoch x ∧
  match r_post x with
  | None => m (Ent i state) = Free ∧ m (Ent i key_hash) = 0 ∧ m (Ent i owner_pid) = 0
  | Some p => post_shows m i p ∧ post_ok g p
  end.

Lemma shiftr_double n : Z.shiftr (2 * n) 1 = n.
Proof. rewrite Z.shiftr_div_pow2 by lia. change (2 ^ 1) with 2. lia. Qed.

(** Writes alternate between the two cells. *)
Lemma parity_next n : parity (n + 1) ≠ parity n.
Proof. unfold parity. change CELL_MASK with (Z.ones 1). rewrite !Z.land_ones by lia. change (2 ^ 1) with 2. lia. Qed.

(** A cell is not clobbered while its number stands. *)
Lemma cell_unclobbered n : cell_clobbered n n = false.
Proof.
  unfold cell_clobbered. replace (n - Z.ldiff n 1) with (n mod 2).
  - rewrite u64_small; [apply Z.leb_gt; unfold CELLS_PER_KEY|unfold is_u64]; pose proof (Z.mod_pos_bound n 2); lia.
  - rewrite Z.ldiff_ones_r with (n := 1) by lia. rewrite Z.shiftl_mul_pow2, Z.shiftr_div_pow2 by lia.
    change (2 ^ 1) with 2. pose proof (Z.div_mod n 2). lia.
Qed.

(** *** Frames *)

Definition entry_of (l : bloc) : option Z :=
  match l with
  | Hdr _ => None
  | Ent i _ | KeyWord i _ | NodeByte i _ | Cell i _ _ | CellWord i _ _ => Some i
  end.

Lemma post_shows_ext m m' i p : (∀ l, entry_of l = Some i → m' l = m l) → post_shows m i p → post_shows m' i p.
Proof.
  intros Hm [H1 H2 H3 H4 H5 H6 H7]. split; try (by rewrite Hm).
  - by rewrite (load_list_ext _ _ _ m' m) by (intros; by apply Hm).
  - intros Hc. destruct (H7 Hc) as (Ha & Hb & Hd). split; [by rewrite Hm|]. split; [by rewrite Hm|].
    by rewrite (load_list_ext _ _ _ m' m) by (intros; by apply Hm).
Qed.

Lemma row_shows_ext g m m' i x : (∀ l, entry_of l = Some i → m' l = m l) → shows g m i x → shows g m' i x.
Proof.
  intros Hm [Ht Hp]. split; [by rewrite Hm|]. destruct (r_post x) as [p|].
  - destruct Hp as [Hp ?]. split; [by eapply post_shows_ext|done].
  - by rewrite !Hm.
Qed.

(** *** Keys *)

Lemma until_nul_key key k : Forall (λ b, 1 <= b < 256) key → until_nul (key ++ replicate k 0) = key.
Proof.
  induction 1 as [|b key Hb Hkey IH]; cbn; [by destruct k|].
  rewrite (proj2 (Z.eqb_neq b 0)) by lia. by rewrite IH.
Qed.

Lemma key_bytes_ok key : key_ok key → key_bytes key = key ++ replicate (128 - length key) 0.
Proof.
  intros (_ & Hlen & _). unfold key_bytes, KEY_MAX in *. change (Z.to_nat 128) with 128%nat.
  by rewrite take_ge by lia.
Qed.

Lemma length_key_bytes key : key_ok key → length (key_bytes key) = 128%nat.
Proof. intros Hk. rewrite key_bytes_ok by done. rewrite length_app, length_replicate. destruct Hk as (_ & Hlen & _). unfold KEY_MAX in *. lia. Qed.

Lemma key_bytes_u8 key : key_ok key → Forall is_u8 (key_bytes key).
Proof.
  intros Hk. rewrite key_bytes_ok by done. apply Forall_app. split; [|by apply Forall_replicate].
  eapply Forall_impl; [apply Hk|]. intros b Hb. cbn in Hb. unfold is_u8. lia.
Qed.

Lemma key_match key k : key_ok key → key_ok k →
  (length (until_nul (key_bytes key)) =? length k)%nat && bool_decide (take (length k) (key_bytes key) = k) =
  bool_decide (key = k).
Proof.
  intros Hkey Hk. rewrite key_bytes_ok by done. rewrite until_nul_key by apply Hkey.
  destruct (Nat.eqb_spec (length key) (length k)) as [E|E]; cbn [andb].
  - rewrite take_app_length' by done. done.
  - symmetry. apply bool_decide_eq_false. by intros ->.
Qed.

Lemma fingerprint_nonzero key : key_fingerprint key ≠ 0.
Proof. unfold key_fingerprint. cbn zeta. case_bool; [done|]. by apply Z.eqb_neq. Qed.

Ltac fields := cbn [r_post r_epoch p_key p_pid p_start p_count p_value p_stamp new_post owned_by disowned written] in *.

Section rows.
Context (g : Geometry).
Implicit Types (m : bloc → Z) (o : os) (ws : list bloc) (i : Z) (x : row) (key : list Z).

Lemma returns_key_equals i key m o ws p (Q : bool → world bloc → Prop) :
  load_list (KeyWord i) 0 16 m = words_of (key_bytes (p_key p)) → key_ok (p_key p) → key_ok key →
  Q (bool_decide (p_key p = key)) (World m o ws) → returns (key_equals i key) (World m o ws) Q.
Proof.
  intros Hm Hp Hk HQ. unfold key_equals. step. apply returns_load_words. cbn [w_mem]. step.
  change (nwords (Z.to_nat KEY_MAX)) with 16%nat. rewrite Hm.
  replace (Z.to_nat KEY_MAX) with (length (key_bytes (p_key p))) by (by rewrite length_key_bytes).
  rewrite unwords_words_of by (by apply key_bytes_u8). by rewrite key_match.
Qed.

(** Settled rows need no repair. *)
Lemma returns_normalize_entry i m o ws x (Q : bool → world bloc → Prop) :
  shows g m i x → Q false (World m o ws) → returns (normalize_entry i) (World m o ws) Q.
Proof.
  intros [_ Hx] HQ. unfold normalize_entry. do 2 step. destruct (r_post x) as [p|].
  - destruct Hx as [[Hs Hh _ _ _ _ _] _]. rewrite Hs. known. do 2 step. rewrite Hh.
    rewrite (proj2 (Z.eqb_neq _ 0)) by apply fingerprint_nonzero. by step.
  - destruct Hx as (Hs & Hh & Hp). rewrite Hs. known. do 2 step. rewrite Hh. step. known. do 3 step. rewrite Hp. known. by step.
Qed.

Lemma returns_sweep_entry i m o ws x (Q : bool → world bloc → Prop) :
  shows g m i x → 0 <= r_epoch x → r_epoch x + 1 < 18446744073709551616 →
  (∀ m', (∀ l, entry_of l ≠ Some i → m' l = m l) → shows g m' i (swept_row o x) → Q (swept o x) (World m' o ws)) →
  returns (sweep_entry i) (World m o ws) Q.
Proof.
  intros Hx Hlo Hhi HQ. unfold sweep_entry. step. eapply returns_normalize_entry; [exact Hx|]. lazy beta iota.
  do 2 step. destruct Hx as [Ht Hx]. unfold swept, swept_row in HQ. destruct (r_post x) as [p|] eqn:Ep.
  - destruct Hx as [Hs Hok]. pose proof Hs as [Hst Hh Hk Hpid Hstart Hpub Hc]. rewrite Hpid. step.
    + apply Z.eqb_eq in E. unfold owner_dead, Process.dead_verdict in HQ. rewrite E in HQ. cbn in HQ.
      step. apply HQ; [done|]. split; [done|]. rewrite Ep. done.
    + do 2 step. rewrite Hstart. step. apply Process.returns_owner_is_dead. cbn [w_os]. fold (owner_dead o p).
      destruct (owner_dead o p); cbn [negb].
      * do 2 step. step. unfold publish_free, clear_identity. steps. apply HQ.
        -- intros l Hl. assert (∀ f, Ent i f ≠ l) by (intros f <-; by apply Hl). by rewrite !upd_ne.
        -- split; mem; [|by split_and!]. cbn. rewrite u64_small; [lia|unfold is_u64; lia].
      * step. apply HQ; [done|]. split; [done|]. by rewrite Ep.
  - destruct Hx as (Hs & Hh & Hp). rewrite Hp. known. step. apply HQ; [done|]. split; [done|]. by rewrite Ep.
Qed.

(** ** The table *)

Definition table_shows (rows : table) m : Prop :=
  Z.of_nat (length rows) = capacity g ∧ ∀ k x, rows !! k = Some x → shows g m (Z.of_nat k) x.

(** Epochs stay in range for [n] more steps. *)
Definition epochs_below (n : Z) (rows : table) : Prop :=
  ∀ k x, rows !! k = Some x → 0 <= r_epoch x ∧ r_epoch x + n < 18446744073709551616.

Lemma table_row rows m m' k x :
  table_shows rows m → (∀ l, entry_of l ≠ Some (Z.of_nat k) → m' l = m l) → shows g m' (Z.of_nat k) x →
  table_shows (<[k:=x]> rows) m'.
Proof.
  intros [Hlen Hr] Hm Hx. split; [by rewrite length_insert|]. intros j y Hj.
  apply list_lookup_insert_Some in Hj as [(<- & <- & _)|[Hne Hj]]; [done|].
  eapply row_shows_ext; [|by apply Hr]. intros l Hl. apply Hm. rewrite Hl. intros [= E]. lia.
Qed.

Lemma table_shows_ext rows m m' :
  (∀ l, entry_of l ≠ None → m' l = m l) → table_shows rows m → table_shows rows m'.
Proof.
  intros Hm [Hlen Hr]. split; [done|]. intros k x Hk. eapply row_shows_ext; [|by apply Hr].
  intros l Hl. apply Hm. by rewrite Hl.
Qed.

(** The header's words are not part of the table. *)
Lemma table_shows_header rows m f v : table_shows rows m → table_shows rows (<[Hdr f := v]> m).
Proof. apply table_shows_ext. intros l Hl. apply upd_ne. intros <-. by apply Hl. Qed.

Lemma table_length rows m : table_shows rows m → length rows = Z.to_nat (capacity g).
Proof. intros [Hlen _]. lia. Qed.

Lemma swept_prefix o rows k x :
  rows !! k = Some x →
  <[k := swept_row o x]> (sweep o (take k rows) ++ drop k rows) = sweep o (take (S k) rows) ++ drop (S k) rows.
Proof.
  intros Hk. assert (length (sweep o (take k rows)) = k) as Hl.
  { unfold sweep. rewrite length_map, length_take. apply lookup_lt_Some in Hk. lia. }
  rewrite insert_app_r_alt by lia. rewrite Hl, Nat.sub_diag, (drop_S _ _ _ Hk), (take_S_r _ _ _ Hk).
  unfold sweep. rewrite map_app, <- app_assoc. done.
Qed.

(** Header words: all but the entries. *)
Definition header_kept m m' : Prop := ∀ l, entry_of l = None → m' l = m l.

Lemma header_kept_trans m1 m2 m3 : header_kept m1 m2 → header_kept m2 m3 → header_kept m1 m3.
Proof. intros H1 H2 l Hl. by rewrite H2, H1. Qed.

Lemma row_header m m' (i : Z) : (∀ l, entry_of l ≠ Some i → m' l = m l) → header_kept m m'.
Proof. intros Hm l Hl. apply Hm. by rewrite Hl. Qed.

Lemma returns_sweep_locked rows m o ws (Q : Z → world bloc → Prop) :
  table_shows rows m → epochs_below 1 rows → is_u32 (capacity g) →
  (∀ m', table_shows (sweep o rows) m' → header_kept m m' →
     Q (Z.of_nat (length (List.filter (swept o) rows))) (World m' o ws)) →
  returns (sweep_locked (capacity g)) (World m o ws) Q.
Proof.
  intros Hr Hep Hcap HQ. pose proof (table_length _ _ Hr) as Hlen. unfold sweep_locked.
  apply (returns_foreach _ _ _ _ _ (λ i freed w, ∃ m', w = World m' o ws ∧ header_kept m m' ∧
    freed = Z.of_nat (length (List.filter (swept o) (take (Z.to_nat i) rows))) ∧
    table_shows (sweep o (take (Z.to_nat i) rows) ++ drop (Z.to_nat i) rows) m')).
  - by exists m.
  - intros i freed w Hi (m1 & -> & Hh & -> & Hr1). set (k := Z.to_nat i) in *.
    destruct (lookup_lt_is_Some_2 rows k) as [x Hx]; [lia|].
    assert ((sweep o (take k rows) ++ drop k rows) !! k = Some x) as Hx'.
    { rewrite lookup_app_r; unfold sweep; rewrite length_map, length_take; [|lia].
      rewrite lookup_drop. rewrite <- Hx. f_equal. lia. }
    pose proof (proj2 Hr1 _ _ Hx') as Hs. unfold k in Hs. rewrite Z2Nat.id in Hs by lia.
    destruct (Hep _ _ Hx) as [Hlo Hhi]. step. eapply (returns_sweep_entry i _ _ _ x); [exact Hs|done|done|].
    intros m' Hm' Hs'. step. exists m'. split; [done|].
    split; [eapply header_kept_trans; [exact Hh|by eapply row_header]|].
    replace (Z.to_nat (i + 1)) with (S k) by lia. split.
    + rewrite (take_S_r _ _ _ Hx), List.filter_app, length_app. cbn [List.filter].
      pose proof (filter_length_le (swept o) (take k rows)) as Hb. rewrite length_take in Hb.
      destruct (swept o x); cbn [length]; [|lia]. rewrite u32_small by (unfold is_u32 in *; lia). lia.
    + rewrite <- (swept_prefix _ _ _ x) by done. replace i with (Z.of_nat k) in Hm', Hs' by lia.
      eapply table_row; [exact Hr1|exact Hm'|exact Hs'].
  - intros freed w (m' & -> & Hh & -> & Hr'). rewrite Z.add_0_l, Nat2Z.id, <- Hlen in *.
    rewrite firstn_all, drop_all, app_nil_r in *. by apply HQ.
Qed.

(** *** Claiming a vacant row *)

Lemma returns_copy_field i src m o ws (Q : unit → world bloc → Prop) :
  (∀ m', (∀ l, (∀ j, l ≠ NodeByte i j) → m' l = m l) → Q tt (World m' o ws)) →
  returns (copy_field i src) (World m o ws) Q.
Proof.
  intros HQ. unfold copy_field. step. apply returns_memset_zero. cbn [set_mem w_mem w_os w_wakes].
  destruct src as [src|]; [|step; apply HQ; intros l Hl; by apply store_list_other].
  apply returns_memcpy_in. cbn [set_mem w_mem w_os w_wakes]. apply HQ. intros l Hl. by rewrite !store_list_other.
Qed.

Lemma returns_claim_entry i key node m o ws x (Q : bool → world bloc → Prop) :
  shows g m i x → key_ok key → 0 <= max_value_size g →
  0 <= r_epoch x → r_epoch x + 1 < 18446744073709551616 →
  (vacant x = false → Q false (World m o ws)) →
  (∀ m', vacant x = true → (∀ l, entry_of l ≠ Some i → m' l = m l) →
     shows g m' i (Row (r_epoch x + 1) (Some (new_post o key))) →
     ∀ o', os_tick o' = os_tick o → Q true (World m' o' ws)) →
  returns (claim_entry (Process.identity_of o) key node i) (World m o ws) Q.
Proof.
  intros [Ht Hx] Hk Hmax Hlo Hhi Hno Hyes. unfold claim_entry. do 2 step.
  unfold vacant in *. destruct (r_post x) as [p|].
  { destruct Hx as [[Hs _ _ _ _ _ _] _]. rewrite Hs. known. step. by apply Hno. }
  destruct Hx as (Hs & _ & _). rewrite Hs. known. do 4 step. step. unfold bb_store_key. apply returns_store_words.
  cbn [set_mem w_mem w_os w_wakes]. set (m1 := store_list _ _ _ _).
  assert (∀ l, (∀ j, l ≠ KeyWord i j) → m1 l = (<[Ent i publish:=0]> (<[Ent i state:=Claiming]> m)) l) as Hm1
    by (intros; by apply store_list_other).
  assert (load_list (KeyWord i) 0 16 m1 = words_of (key_bytes key)) as Hkey.
  { unfold m1. replace 16%nat with (length (words_of (key_bytes key)))
      by (rewrite length_words_of, length_key_bytes by done; done). apply load_store_list. by intros ? ? [=]. }
  step. apply returns_copy_field. intros m2 Hm2. steps. apply Hyes; [done| | |done].
  - intros l Hl. assert (∀ f, Ent i f ≠ l) by (intros f <-; by apply Hl). rewrite !upd_ne by done.
    rewrite Hm2, Hm1 by (intros j ->; by apply Hl). by rewrite !upd_ne.
  - split; [mem; rewrite Hm2, Hm1 by done; mem; cbn; rewrite u64_small; [lia|unfold is_u64; lia]|].
    fields. split; [split; fields; mem; try done|].
    + erewrite load_list_ext; [exact Hkey|]. intros j _. mem. by rewrite Hm2.
    + rewrite Hm2, Hm1 by done. by mem.
    + split; [done|]. fields. split; [constructor|]. cbn. lia.
Qed.

Definition slot_of (i : option nat) : Z := match i with Some i => Z.of_nat i | None => INVALID_SLOT end.

Lemma claim_insert o key rows k x :
  rows !! k = Some x → claim o key rows k = <[k := Row (r_epoch x + 1) (Some (new_post o key))]> rows.
Proof.
  intros Hx. unfold claim. apply list_eq. intros j. destruct (decide (j = k)) as [->|Hne].
  - rewrite list_lookup_alter_eq, Hx, list_lookup_insert_eq by (by eapply lookup_lt_Some). done.
  - by rewrite list_lookup_alter_ne, list_lookup_insert_ne by done.
Qed.

Lemma returns_claim_free_slot key node rows m o ws (Q : Z → world bloc → Prop) :
  table_shows rows m → epochs_below 1 rows → key_ok key → 0 <= max_value_size g →
  (∀ m' o', header_kept m m' → (first_index vacant rows = None → o' = o) →
     table_shows (match first_index vacant rows with Some k => claim o key rows k | None => rows end) m' →
     Q (slot_of (first_index vacant rows)) (World m' o' ws)) →
  returns (claim_free_slot (capacity g) (Process.identity_of o) key node) (World m o ws) Q.
Proof.
  intros Hr Hep Hk Hmax HQ. pose proof (table_length _ _ Hr) as Hlen. unfold claim_free_slot. step.
  apply (returns_for _ _ _ _ _ (λ i _ w, w = World m o ws ∧
    ∀ j y, (j < Z.to_nat i)%nat → rows !! j = Some y → vacant y = false)).
  - split; [done|]. intros j y Hj. lia.
  - intros i [] w Hi [-> Hbefore].
    destruct (lookup_lt_is_Some_2 rows (Z.to_nat i)) as [x Hx]; [lia|].
    pose proof (proj2 Hr _ _ Hx) as Hs. rewrite Z2Nat.id in Hs by lia. destruct (Hep _ _ Hx) as [Hlo Hhi].
    step. eapply returns_claim_entry; [exact Hs|done|done|done|done|..].
    + intros Hv. steps. split; [done|]. intros j y Hj Hy.
      destruct (decide (j = Z.to_nat i)) as [->|Hne]; [congruence|]. apply (Hbefore j); [lia|done].
    + intros m' Hv Hm' Hs' o' _. steps.
      pose proof (first_index_is vacant rows _ _ Hx Hv Hbefore) as Hf. rewrite Hf in HQ.
      cbn [slot_of] in HQ. rewrite Z2Nat.id in HQ by lia. apply HQ; [by eapply row_header|done|].
      rewrite (claim_insert _ _ _ _ _ Hx). eapply table_row; [exact Hr|..]; rewrite Z2Nat.id by lia; done.
  - intros [] w [-> Hall]. steps. rewrite first_index_none in HQ.
    + by apply HQ.
    + intros j y Hy. apply (Hall j); [|done]. apply lookup_lt_Some in Hy. lia.
Qed.

(** *** Taking a post over *)

Lemma returns_notify m o ws (Q : unit → world bloc → Prop) :
  (∀ m' ws', (∀ l, l ≠ Hdr change_seq → m' l = m l) → Q tt (World m' o ws')) →
  returns notify_change (World m o ws) Q.
Proof. intros HQ. unfold notify_change. steps; apply HQ; intros l Hl; by rewrite upd_ne. Qed.

Lemma shows_owned o m m1 i e p :
  shows g m i (Row e (Some p)) → e + 1 < 18446744073709551616 → 0 <= e →
  (∀ l, (∀ j, l ≠ NodeByte i j) → m1 l = m l) →
  shows g (<[Ent i tenancy := u64 (m1 (Ent i tenancy) + 1)]> (<[Ent i owner_pid := os_pid o]>
            (<[Ent i owner_starttime := Process.starttime_of o]> m1))) i (Row (e + 1) (Some (owned_by o p))).
Proof.
  intros [Ht [Hs Hok]] Hhi Hlo Hm1. fields.
  assert (post_shows m1 i p) as [H1 H2 H3 H4 H5 H6 H7].
  { destruct Hs as [H1 H2 H3 H4 H5 H6 H7]. split; rewrite ?Hm1 by done; try done.
    - rewrite (load_list_ext _ _ _ m1 m); [done|]. intros. by apply Hm1.
    - intros Hc. destruct (H7 Hc) as (Ha & Hb & Hd). unfold cell_shows. rewrite !Hm1 by done.
      split; [done|]. split; [done|]. rewrite (load_list_ext _ _ _ m1 m); [done|]. intros. by apply Hm1. }
  split; fields.
  - mem. rewrite Hm1, Ht by done. apply u64_small. unfold is_u64. lia.
  - split; [|done]. split; fields; mem; try done.
Qed.

Lemma wp_take_over b key node i m o ws x (Q : outcome (option Writer) → world bloc → Prop) :
  geometry_ b = g → shows g m i x → key_ok key → 0 <= r_epoch x → r_epoch x + 1 < 18446744073709551616 →
  (holds_key key x = false → Q (Val None) (World m o ws)) →
  (∀ e p, x = Row e (Some p) → p_key p = key → takeable o p = false →
     Q (Exc (Exn runtime_error ("Blackboard key already owned by a live process: " +:+ text_of_bytes key))) (World m o ws)) →
  (∀ e p m' ws', x = Row e (Some p) → p_key p = key → takeable o p = true →
     (∀ l, entry_of l ≠ Some i → l ≠ Hdr change_seq → m' l = m l) →
     shows g m' i (Row (e + 1) (Some (owned_by o p))) →
     Q (Val (Some {| w_base_ := true; w_geometry_ := g; w_entry_idx_ := i; w_tenancy_ := e + 1;
                     w_writes_ := p_count p; w_owner_pid_ := os_pid o; w_key_ := key |})) (World m' o ws')) →
  wp (take_over b (Process.identity_of o) key node i) (World m o ws) Q.
Proof.
  intros Hg [Ht Hx] Hk Hlo Hhi Hno Hlive Htake. unfold take_over. cbn zeta. unfold holds_key in Hno.
  destruct x as [e [p|]]; fields.
  2: { destruct Hx as (Hs & _ & _). do 2 step. rewrite Hs. known. step. by apply Hno. }
  destruct Hx as [Hs Hok]. pose proof Hs as [H1 H2 H3 H4 H5 H6 H7].
  do 2 step. rewrite H1. known. do 2 step. rewrite H2.
  destruct (decide (p_key p = key)) as [Ek|Ek].
  2: { step; [step; apply Hno; by apply bool_decide_eq_false|]. step. unfold key_matches.
       eapply returns_key_equals; [exact H3|apply Hok|done|]. lazy beta. rewrite bool_decide_eq_false_2 by done.
       step; [|done]. step. apply Hno. by apply bool_decide_eq_false. }
  rewrite Ek, Z.eqb_refl. cbn [negb]. step. eapply returns_key_equals; [exact H3|apply Hok|done|]. lazy beta.
  rewrite bool_decide_eq_true_2 by done. cbn [negb]. do 4 step. rewrite H4, H5. step.
  assert (∀ Q' : bool → world bloc → Prop, Q' (takeable o p) (World m o ws) → returns (entry_takeable (p_pid p) (p_start p)) (World m o ws) Q') as Htk.
  { intros Q' HQ'. unfold entry_takeable, takeable in *. step; [by step|]. by apply Process.returns_owner_is_dead. }
  apply Htk. lazy beta. destruct (takeable o p) eqn:Etk; cbn [negb]; [|step; by eapply Hlive].
  step. apply returns_copy_field. intros m1 Hm1. steps. mem. rewrite (Hm1 (Ent i publish)), H6 by done.
  apply returns_notify. intros m2 ws2 Hm2. lazy beta. step.
  replace (u64 (m1 (Ent i tenancy) + 1)) with (e + 1) by (rewrite Hm1, Ht by done; symmetry; apply u64_small; unfold is_u64; lia).
  rewrite Hg. eapply (Htake e p); [done|done|done|..].
  - intros l Hl Hc. assert (∀ f, Ent i f ≠ l) by (intros f <-; by apply Hl). rewrite Hm2 by done.
    rewrite !upd_ne by done. apply Hm1. intros j ->. by apply Hl.
  - eapply row_shows_ext; [|by eapply (shows_owned o m m1)]. intros l Hl. apply Hm2. intros ->. done.
Qed.

(** *** Declaring *)

Lemma sweep_none o rows : length (List.filter (swept o) rows) = 0%nat → sweep o rows = rows.
Proof.
  induction rows as [|x rows IH]; intros Hn; [done|]. cbn in *. unfold swept, swept_row in *.
  destruct (r_post x) as [p|]; [destruct (owner_dead o p); [done|]|]; by f_equal; apply IH.
Qed.

Lemma sweep_some o rows :
  length (List.filter (swept o) rows) ≠ 0%nat → ∃ i : nat, first_index vacant (sweep o rows) = Some i.
Proof.
  induction rows as [|x rows IH]; intros Hn; [done|]. cbn in *.
  destruct (vacant (swept_row o x)) eqn:Ev; [by eauto|].
  assert (swept o x = false) as Hs.
  { unfold swept, swept_row in *. destruct (r_post x) as [p|]; [|done]. by destruct (owner_dead o p). }
  rewrite Hs in Hn. destruct (IH Hn) as [i Hi]. exists (S i). unfold sweep in Hi. by rewrite Hi.
Qed.

Lemma sweep_epochs o n rows : epochs_below (n + 1) rows → 0 <= n → epochs_below n (sweep o rows).
Proof.
  intros He Hn k x Hx. unfold sweep in Hx. rewrite list_lookup_fmap in Hx.
  destruct (rows !! k) as [y|] eqn:Hy; [|done]. injection Hx as <-. specialize (He _ _ Hy).
  unfold swept_row. destruct (r_post y) as [p|]; [destruct (owner_dead o p)|]; cbn; lia.
Qed.

Lemma epochs_mono n n' rows : n' <= n → epochs_below n rows → epochs_below n' rows.
Proof. intros Hn He k x Hx. specialize (He _ _ Hx). lia. Qed.

(** The writer a row's new owner gets. *)
Definition granted (o : os) (key : list Z) (rows : table) (i : nat) (w : Writer) : Prop :=
  w_base_ w = true ∧ w_geometry_ w = g ∧ w_entry_idx_ w = Z.of_nat i ∧ w_owner_pid_ w = os_pid o ∧
  ∃ p, post_at rows i = Some (w_tenancy_ w, p) ∧ w_writes_ w = p_count p.

Lemma post_at_insert rows (i : nat) e p : (i < length rows)%nat → post_at (<[i := Row e (Some p)]> rows) i = Some (e, p).
Proof. intros Hi. unfold post_at. by rewrite list_lookup_insert_eq. Qed.

Lemma holds_key_post rows key (i : nat) :
  first_index (holds_key key) rows = Some i →
  ∃ e p, rows !! i = Some (Row e (Some p)) ∧ post_at rows i = Some (e, p) ∧ p_key p = key.
Proof.
  intros ([e [p|]] & Hx & Hk)%first_index_lookup; [|done]. exists e, p. unfold post_at. rewrite Hx.
  by apply bool_decide_eq_true in Hk.
Qed.

Lemma vacant_row rows (i : nat) :
  first_index vacant rows = Some i → ∃ e, rows !! i = Some (Row e None).
Proof. intros ([e [p|]] & Hx & Hv)%first_index_lookup; [done|]. by exists e. Qed.

Lemma claim_granted o key rows (i : nat) :
  first_index vacant rows = Some i → ∃ e, claim o key rows i !! i = Some (Row (e + 1) (Some (new_post o key))).
Proof.
  intros Hi. destruct (vacant_row _ _ Hi) as [e Hx]. exists e. rewrite (claim_insert _ _ _ _ _ Hx).
  rewrite list_lookup_insert_eq by (by eapply lookup_lt_Some). done.
Qed.

Lemma returns_claimed o o1 key rows (i : nat) m ws (Q : Writer → world bloc → Prop) :
  first_index vacant rows = Some i → table_shows (claim o key rows i) m →
  (∀ m' w ws', m' (Hdr lock_token) = m (Hdr lock_token) →
     table_shows (claim o key rows i) m' → granted o key (claim o key rows i) i w → Q w (World m' o1 ws')) →
  returns (t <- load (Ent (Z.of_nat i) tenancy) ;;
           notify_change ;;
           Ret {| w_base_ := true; w_geometry_ := g; w_entry_idx_ := Z.of_nat i;
                  w_tenancy_ := t; w_writes_ := 0; w_owner_pid_ := os_pid o; w_key_ := key |})
    (World m o1 ws) Q.
Proof.
  intros Hi Hr HQ. destruct (claim_granted o key rows i Hi) as [e Hx].
  pose proof (proj2 Hr _ _ Hx) as [Ht _]. do 3 step. apply returns_notify. intros m' ws' Hm'. lazy beta. step.
  apply HQ.
  - by apply Hm'.
  - eapply table_shows_ext; [|exact Hr]. intros l Hl. apply Hm'. intros ->. by apply Hl.
  - unfold granted. cbn. rewrite Ht. cbn. do 3 (split; [done|]). split; [done|].
    exists (new_post o key). unfold post_at. by rewrite Hx.
Qed.

Lemma slot_valid rows m (f : row → bool) (i : nat) :
  table_shows rows m → 0 <= capacity g < INVALID_SLOT → first_index f rows = Some i → Z.of_nat i ≠ INVALID_SLOT.
Proof. intros [Hlen _] Hcap (x & Hx%lookup_lt_Some & _)%first_index_lookup. lia. Qed.

Lemma wp_declare_locked b key node rows m o ws (Q : outcome Writer → world bloc → Prop) :
  geometry_ b = g → table_shows rows m → epochs_below 2 rows → key_ok key →
  0 <= max_value_size g → 0 <= capacity g < INVALID_SLOT →
  (∀ m' o' ws', m' (Hdr lock_token) = m (Hdr lock_token) →
     match enter o key rows with
     | inl (i, rows') => ∀ w, table_shows rows' m' → granted o key rows' i w → Q (Val w) (World m' o' ws')
     | inr e => table_shows rows m' → Q (Exc e) (World m' o' ws')
     end) →
  wp (declare_locked b (Process.identity_of o) key node) (World m o ws) Q.
Proof.
  intros Hg Hr Hep Hk Hmax Hcap HQ. pose proof (table_length _ _ Hr) as Hlen. unfold declare_locked, enter in *. cbn zeta.
  rewrite Hg. apply wp_bind.
  apply (wp_for _ _ _ _ _ (λ i _ w, w = World m o ws ∧
    ∀ j y, (j < Z.to_nat i)%nat → rows !! j = Some y → holds_key key y = false)).
  { split; [done|]. intros j y Hj. lia. }
  { intros i [] w Hi [-> Hbefore].
    destruct (lookup_lt_is_Some_2 rows (Z.to_nat i)) as [x Hx]; [lia|].
    pose proof (proj2 Hr _ _ Hx) as Hs. rewrite Z2Nat.id in Hs by lia. destruct (Hep _ _ Hx) as [Hlo Hhi].
    apply wp_bind. eapply wp_take_over; [done|exact Hs|done|done|lia|..].
    - intros Hv. lazy beta iota. apply wp_ret. split; [done|]. intros j y Hj Hy.
      destruct (decide (j = Z.to_nat i)) as [->|Hne]; [congruence|]. apply (Hbefore j); [lia|done].
    - intros e p -> Hkey Htk. lazy beta iota.
      assert (first_index (holds_key key) rows = Some (Z.to_nat i)) as Hf.
      { eapply first_index_is; [exact Hx| |exact Hbefore]. cbn. by apply bool_decide_eq_true. }
      assert (post_at rows (Z.to_nat i) = Some (e, p)) as Hp by (unfold post_at; by rewrite Hx).
      rewrite Hf, Hp, Htk in HQ. by apply HQ.
    - intros e p m' ws' -> Hkey Htk Hm' Hs'. lazy beta iota. apply wp_ret. apply wp_ret.
      assert (first_index (holds_key key) rows = Some (Z.to_nat i)) as Hf.
      { eapply first_index_is; [exact Hx| |exact Hbefore]. cbn. by apply bool_decide_eq_true. }
      assert (post_at rows (Z.to_nat i) = Some (e, p)) as Hp by (unfold post_at; by rewrite Hx).
      rewrite Hf, Hp, Htk in HQ. eapply HQ; [by apply Hm'|..].
      + apply (table_row _ (<[Hdr change_seq := m' (Hdr change_seq)]> m)); [by apply table_shows_header| |rewrite Z2Nat.id by lia; exact Hs'].
        intros l Hl. rewrite Z2Nat.id in Hl by lia.
        destruct (decide (l = Hdr change_seq)) as [->|Hne]; [by mem|]. rewrite upd_ne by done. by apply Hm'.
      + unfold granted. cbn. rewrite Z2Nat.id by lia. do 4 (split; [done|]).
        exists (owned_by o p). split; [|done]. apply post_at_insert. lia. }
  intros [] w [-> Hall]. lazy beta iota. rewrite first_index_none in HQ.
  2: { intros j y Hy. apply (Hall j); [|done]. apply lookup_lt_Some in Hy. lia. }
  clear Hall. step. eapply returns_claim_free_slot; [exact Hr|by eapply epochs_mono; [|exact Hep]|done|done|].
  intros m1 o1 Hh1 Ho1 Hr1. lazy beta. step. destruct (first_index vacant rows) as [i|] eqn:Hf.
  - pose proof (slot_valid _ _ _ _ Hr Hcap Hf) as Hv. cbn [slot_of].
    rewrite (proj2 (Z.eqb_neq _ _) Hv). known. step. lazy beta. rewrite (proj2 (Z.eqb_neq _ _) Hv). cbn [negb].
    apply returns_wp. eapply returns_claimed; [exact Hf|exact Hr1|].
    intros m' w ws' Hl Hr' Hw. eapply HQ; [|done|exact Hw]. rewrite Hl. by apply Hh1.
  - cbn [slot_of]. known. rewrite (Ho1 eq_refl). step.
    eapply (returns_sweep_locked rows); [exact Hr1|by eapply epochs_mono; [|exact Hep]|unfold is_u32; change INVALID_SLOT with 4294967295 in *; lia|].
    intros m2 Hr2 Hh2. lazy beta. destruct (decide (length (List.filter (swept o) rows) = 0%nat)) as [Hz|Hz].
    + rewrite Hz. known. step. lazy beta. known. apply wp_throw.
      rewrite (sweep_none _ _ Hz) in *. rewrite Hf in HQ. apply HQ; [|done].
      rewrite Hh2 by done. by apply Hh1.
    + rewrite (proj2 (Z.ltb_lt 0 _)) by lia. destruct (sweep_some o rows Hz) as [i Hi]. rewrite Hi in HQ.
      eapply (returns_claim_free_slot _ _ (sweep o rows)); [exact Hr2|apply sweep_epochs; [done|lia]|done|done|].
      intros m3 o3 Hh3 _ Hr3. lazy beta. rewrite Hi in *. cbn [slot_of].
      assert (Z.of_nat i ≠ INVALID_SLOT) as Hv by (eapply slot_valid; [exact Hr2|done|exact Hi]).
      rewrite (proj2 (Z.eqb_neq _ _) Hv). cbn [negb]. apply returns_wp.
      eapply (returns_claimed o o3 key (sweep o rows)); [exact Hi|exact Hr3|].
      intros m' w ws' Hl Hr' Hw. eapply HQ; [|done|exact Hw]. rewrite Hl, Hh3 by done. rewrite Hh2 by done. by apply Hh1.
Qed.

(** *** The board lock *)

(** Nobody holds the lock: the body runs under it, and it is free again on every
    way out. *)
Lemma wp_board_guard {A} (body : bool → bprog A) cap budget limit m o ws (Q : outcome A → world bloc → Prop) :
  m (Hdr lock_token) = 0 → 0 <= budget →
  (∀ token, wp (body true) (World (<[Hdr lock_token := token]> m) (os_advance o (os_tick o)) ws) (λ out w',
     Q out (World (<[Hdr lock_token := 0]> (w_mem w')) (w_os w') (w_wakes w')))) →
  wp (board_guard cap budget limit body) (World m o ws) Q.
Proof.
  intros Hfree Hb Hbody. unfold board_guard, self_token. step. step. apply Process.returns_self_identity. lazy beta.
  step. set (token := make_token _ _). step. unfold board_lock. do 2 step. apply returns_loop_turn.
  assert ((negb (budget =? 0) && (budget <=? 0)) = false) as ->.
  { destruct (Z.eqb_spec budget 0); [done|]. cbn. apply Z.leb_gt. lia. }
  known. step. known. step. known. do 2 step. rewrite Hfree. known. step. apply returns_cas; [|by rewrite Hfree].
  intros _. lazy beta iota. step. apply wp_bind_returns, returns_try. eapply wp_mono; [apply (Hbody token)|].
  intros out [m' o' ws'] HQ. cbn [w_mem w_os w_wakes] in HQ. step. unfold board_unlock. step; [|done]. step.
  destruct out as [a|e]; lazy beta iota; [by apply wp_ret|by apply wp_throw].
Qed.

Lemma wp_declare b (key : option (list Z)) node rows m o ws (Q : outcome Writer → world bloc → Prop) :
  base_ b = true → geometry_ b = g → table_shows rows m → m (Hdr lock_token) = 0 → epochs_below 2 rows →
  0 <= max_value_size g → 0 <= capacity g < INVALID_SLOT →
  (∀ key', check_key key = inl key' → key_ok key') →
  (∀ m' o' ws', m' (Hdr lock_token) = 0 →
     match check_key key with
     | inr e => table_shows rows m' → Q (Exc e) (World m' o' ws')
     | inl key => match enter o key rows with
       | inl (i, rows') => ∀ w, table_shows rows' m' → granted o key rows' i w → Q (Val w) (World m' o' ws')
       | inr e => table_shows rows m' → Q (Exc e) (World m' o' ws')
       end
     end) →
  wp (declare b key node) (World m o ws) Q.
Proof.
  intros Hb Hg Hr Hl Hep Hmax Hcap Hkey HQ. unfold declare, require_open. rewrite Hb. known. step. step. cbn zeta.
  destruct (check_key key) as [k|e] eqn:Ek; cbn [of_res].
  2: { by apply wp_throw, HQ. }
  step. step. step. apply Process.returns_self_identity. lazy beta. apply wp_board_guard; [done|lia|].
  intros token. known. change (Process.identity_of o) with (Process.identity_of (os_advance o (os_tick o))).
  eapply (wp_declare_locked b k); [done|by apply table_shows_header|done|by apply Hkey|done|done|].
  intros m' o' ws' _. cbn [w_mem w_os w_wakes]. change (enter (os_advance o (os_tick o)) k rows) with (enter o k rows).
  assert (∀ v, (<[Hdr lock_token := v]> m') (Hdr lock_token) = v) as Hz by (intros v; apply upd_same).
  specialize (HQ (<[Hdr lock_token := 0]> m') o' ws' (Hz 0)).
  destruct (enter o k rows) as [[i rows']|e].
  - intros w Hr' Hw. apply HQ; [by apply table_shows_header|done].
  - intros Hr'. apply HQ. by apply table_shows_header.
Qed.

(** *** Writers *)

Record writer_ok (rows : table) (w : Writer) (t : ticket) : Prop := {
  wo_base : w_base_ w = t_open t;
  wo_open : t_open t = true →
    w_geometry_ w = g ∧ w_entry_idx_ w = Z.of_nat (t_row t) ∧ w_tenancy_ w = t_epoch t ∧ w_owner_pid_ w = t_pid t;
  wo_row : t_open t = true → ∃ x, rows !! t_row t = Some x ∧ t_epoch t <= r_epoch x;
  wo_count : t_open t = true → ∀ p, current rows t = Some p → w_writes_ w = p_count p
}.

Lemma current_row rows t p : current rows t = Some p → rows !! t_row t = Some (Row (t_epoch t) (Some p)).
Proof.
  unfold current, post_at. destruct (rows !! t_row t) as [[e [q|]]|]; [|done..].
  destruct (Z.eqb_spec e (t_epoch t)) as [->|]; [|done]. by intros [= ->].
Qed.

(** The test that guards a writer's access: state and tenancy. *)
Lemma current_tested rows m t x :
  table_shows rows m → rows !! t_row t = Some x →
  (m (Ent (Z.of_nat (t_row t)) state) =? Active) && (m (Ent (Z.of_nat (t_row t)) tenancy) =? t_epoch t) =
  bool_decide (is_Some (current rows t)).
Proof.
  intros Hr Hx. destruct (proj2 Hr _ _ Hx) as [-> Hp]. unfold current, post_at. rewrite Hx.
  destruct x as [e [p|]]; fields.
  - destruct Hp as [[-> _ _ _ _ _ _] _]. cbn. destruct (e =? t_epoch t); [by rewrite bool_decide_eq_true_2|].
    by rewrite bool_decide_eq_false_2 by (by intros []).
  - destruct Hp as (-> & _ & _). by rewrite bool_decide_eq_false_2 by (by intros []).
Qed.

Definition bumped (w : Writer) : Writer :=
  {| w_base_ := w_base_ w; w_geometry_ := w_geometry_ w; w_entry_idx_ := w_entry_idx_ w;
     w_tenancy_ := w_tenancy_ w; w_writes_ := w_writes_ w + 1; w_owner_pid_ := w_owner_pid_ w;
     w_key_ := w_key_ w |}.

Lemma shows_written o m m' i e p data :
  shows g m i (Row e (Some p)) → Forall is_u8 data → Z.of_nat (length data) <= max_value_size g →
  (∀ f, f ≠ publish → m' (Ent i f) = m (Ent i f)) → (∀ w, m' (KeyWord i w) = m (KeyWord i w)) →
  Z.shiftr (m' (Ent i publish)) 1 = p_count p + 1 → cell_shows m' i (written o data p) →
  shows g m' i (Row e (Some (written o data p))).
Proof.
  intros [Ht [[H1 H2 H3 H4 H5 H6 H7] (Hk & Hv & Hc & Hlen)]] Hu Hmax He Hkw Hp Hcell. fields. split; [by rewrite He|].
  split.
  - split; fields; rewrite ?He by done; try done.
    rewrite (load_list_ext _ _ _ m' m); [done|]. intros. apply Hkw.
  - split; [done|]. split; [done|]. fields. lia.
Qed.

Lemma returns_writer_write rows w t data m o ws (Q : errc * Writer → world bloc → Prop) :
  table_shows rows m → writer_ok rows w t → Forall is_u8 data →
  0 <= max_value_size g < 4294967296 →
  (∀ p, current rows t = Some p → p_count p < 4611686018427387904) →
  (∀ m' o' ws', m' (Hdr lock_token) = m (Hdr lock_token) → table_shows (write (max_value_size g) o t data rows).2 m' →
     Q ((write (max_value_size g) o t data rows).1,
        if decide ((write (max_value_size g) o t data rows).1 = Ok) then bumped w else w) (World m' o' ws')) →
  returns (writer_write w data) (World m o ws) Q.
Proof.
  intros Hr [Hb Ho Hrow Hcnt] Hu Hmax Hbound HQ. unfold writer_write, write in *. cbn zeta. rewrite Hb.
  destruct (t_open t); cbn [negb] in *; [|by step; apply HQ].
  destruct (Ho eq_refl) as (Hg & Hi & Ht & Hpid). destruct (Hrow eq_refl) as (x & Hx & Hle).
  step. apply Process.returns_self_identity. lazy beta. cbn [Process.identity_of Process.self_pid]. rewrite Hpid.
  destruct (os_pid o =? t_pid t); cbn [negb] in *; [|by step; apply HQ].
  rewrite Hg, Hi. assert ((capacity g <=? Z.of_nat (t_row t)) = false) as Hcap.
  { apply Z.leb_gt. apply lookup_lt_Some in Hx. rewrite <- (proj1 Hr). lia. }
  rewrite Hcap. destruct (max_value_size g <? Z.of_nat (length data)) eqn:Em; [by step; apply HQ|]. apply Z.ltb_ge in Em.
  pose proof (current_tested _ _ _ _ Hr Hx) as Htest. set (i := Z.of_nat (t_row t)) in *.
  do 2 step. destruct (m (Ent i state) =? Active); cbn [negb andb] in *.
  2: { step. destruct (current rows t) as [p|]; [|by apply HQ]. by rewrite bool_decide_eq_true_2 in Htest. }
  do 2 step. rewrite Ht. destruct (m (Ent i tenancy) =? t_epoch t); cbn [negb].
  2: { step. destruct (current rows t) as [p|]; [|by apply HQ]. by rewrite bool_decide_eq_true_2 in Htest. }
  destruct (current rows t) as [p|] eqn:Ecur; [|by rewrite bool_decide_eq_false_2 in Htest by (by intros [])].
  pose proof (current_row _ _ _ Ecur) as Hp. rewrite Hp in Hx. injection Hx as <-.
  pose proof (proj2 Hr _ _ Hp) as Hs. fold i in Hs. pose proof Hs as [_ [_ (_ & _ & Hc0 & _)]].
  rewrite (Hcnt eq_refl _ eq_refl). specialize (Hbound _ eq_refl).
  assert (u64 (p_count p + 1) = p_count p + 1) as -> by (apply u64_small; unfold is_u64; lia).
  set (c := parity (p_count p + 1)). do 3 step.
  set (m1 := <[Ent i publish := _]> m).
  assert (∀ Q1 : unit → world bloc → Prop,
    (∀ m2, (∀ l, (∀ j, l ≠ CellWord i c j) → m2 l = m1 l) →
       load_list (CellWord i c) 0 (nwords (length data)) m2 = words_of data → Q1 tt (World m2 o ws)) →
    returns (when (0 <? Z.of_nat (length data)) (store_words (CellWord i c) data)) (World m1 o ws) Q1) as Hstore.
  { intros Q1 HQ1. apply returns_when; intros Hd.
    - apply returns_store_words. apply HQ1; [intros l Hl; by apply store_list_other|].
      rewrite <- length_words_of. apply load_store_list. by intros ? ? [=].
    - apply HQ1; [done|]. apply Z.ltb_ge in Hd. by destruct data. }
  apply Hstore. intros m2 Hm2 Hw2. steps. apply returns_notify. intros m3 ws3 Hm3. lazy beta. step.
  rewrite decide_True in HQ by done.
  assert (bumped w = {| w_base_ := true; w_geometry_ := g; w_entry_idx_ := i; w_tenancy_ := t_epoch t;
    w_writes_ := p_count p + 1; w_owner_pid_ := t_pid t; w_key_ := w_key_ w |}) as Hbump.
  { unfold bumped. rewrite Hb, Hg, Hi, Ht, Hpid. by rewrite (Hcnt eq_refl _ eq_refl). }
  rewrite Hbump in HQ. apply HQ; cbn [fst snd].
  - rewrite Hm3 by done. mem. rewrite Hm2 by done. unfold m1. by mem.
  - apply (table_row _ (<[Hdr change_seq := m3 (Hdr change_seq)]> m)); [by apply table_shows_header|..].
    + intros l Hl. fold i in Hl. destruct (decide (l = Hdr change_seq)) as [->|Hne]; [by mem|].
      rewrite (upd_ne _ (Hdr change_seq)) by done. rewrite Hm3 by done.
      rewrite !upd_ne by (intros <-; by apply Hl). rewrite Hm2 by (intros j ->; by apply Hl). unfold m1.
      apply upd_ne. intros <-. by apply Hl.
    + fold i. apply (shows_written o m); [done|done|done|..].
      * intros f Hf. rewrite Hm3 by done. rewrite !upd_ne by congruence. rewrite Hm2 by done. unfold m1. apply upd_ne. congruence.
      * intros w'. rewrite Hm3 by done. mem. rewrite Hm2 by done. unfold m1. by mem.
      * rewrite Hm3 by done. mem. rewrite u64_small by (unfold is_u64; lia). apply shiftr_double.
      * unfold cell_shows. fields. fold c. rewrite !Hm3 by done. mem. split; [apply u32_small; unfold is_u32; lia|].
        split; [done|]. rewrite <- Hw2. apply load_list_ext. intros j _. rewrite Hm3 by done. by mem.
Qed.

Lemma shows_disowned m i e p :
  shows g m i (Row e (Some p)) → 0 <= e → e + 1 < 18446744073709551616 →
  shows g (<[Ent i tenancy := u64 (m (Ent i tenancy) + 1)]> (<[Ent i owner_starttime := 0]> (<[Ent i owner_pid := 0]> m)))
    i (Row (e + 1) (Some (disowned p))).
Proof.
  intros [Ht [[H1 H2 H3 H4 H5 H6 H7] Hok]] Hlo Hhi. fields. split.
  - fields. mem. rewrite Ht. apply u64_small. unfold is_u64. lia.
  - split; [|done]. split; fields; mem; try done.
Qed.

Lemma returns_release_locked rows t m o ws (Q : errc → world bloc → Prop) :
  table_shows rows m → epochs_below 1 rows → (∃ x, rows !! t_row t = Some x) →
  (∀ m' ws', m' (Hdr lock_token) = m (Hdr lock_token) →
     match current rows t with
     | Some p => table_shows (<[t_row t := Row (t_epoch t + 1) (Some (disowned p))]> rows) m' → Q Ok (World m' o ws')
     | None => table_shows rows m' → Q state_not_recoverable (World m' o ws')
     end) →
  returns (release_locked (Z.of_nat (t_row t)) (t_epoch t)) (World m o ws) Q.
Proof.
  intros Hr Hep [x Hx] HQ. unfold release_locked. pose proof (current_tested _ _ _ _ Hr Hx) as Htest.
  set (i := Z.of_nat (t_row t)) in *. do 3 step.
  destruct (m (Ent i state) =? Active); cbn [negb andb] in *.
  2: { steps; [|done]. destruct (current rows t) as [p|]; [by rewrite bool_decide_eq_true_2 in Htest|by apply HQ]. }
  do 3 step. destruct (m (Ent i tenancy) =? t_epoch t); cbn [negb].
  2: { step. destruct (current rows t) as [p|]; [by rewrite bool_decide_eq_true_2 in Htest|by apply HQ]. }
  destruct (current rows t) as [p|] eqn:Ecur; [|by rewrite bool_decide_eq_false_2 in Htest by (by intros [])].
  pose proof (current_row _ _ _ Ecur) as Hp. destruct (Hep _ _ Hp) as [Hlo Hhi]. fields.
  steps. apply returns_notify. intros m' ws' Hm'. lazy beta. step. apply HQ; [rewrite Hm' by done; by mem|].
  apply (table_row _ (<[Hdr change_seq := m' (Hdr change_seq)]> m)); [by apply table_shows_header|..].
  - intros l Hl. fold i in Hl. destruct (decide (l = Hdr change_seq)) as [->|Hne]; [by mem|].
    rewrite (upd_ne _ (Hdr change_seq)) by done. rewrite Hm' by done. by rewrite !upd_ne by (intros <-; by apply Hl).
  - fold i. eapply row_shows_ext; [|apply (shows_disowned m i (t_epoch t) p); [exact (proj2 Hr _ _ Hp)|done|done]].
    intros l Hl. rewrite Hm' by (intros ->; done). rewrite (upd_ne _ (Ent i owner_starttime) (Ent i tenancy)) by done. by rewrite (upd_ne _ (Ent i owner_pid) (Ent i tenancy)) by done.
Qed.

Lemma returns_writer_release rows w t m o ws (Q : errc * Writer → world bloc → Prop) :
  table_shows rows m → writer_ok rows w t → epochs_below 1 rows → m (Hdr lock_token) = 0 →
  (∀ m' o' ws', m' (Hdr lock_token) = 0 → table_shows (release o t rows).2 m' →
     Q ((release o t rows).1, if t_open t then dead_writer w else w) (World m' o' ws')) →
  returns (writer_release w) (World m o ws) Q.
Proof.
  intros Hr [Hb Ho Hrow Hcnt] Hep Hl HQ. unfold writer_release, release in *. rewrite Hb.
  destruct (t_open t); cbn [negb] in *; [|by step; apply HQ].
  destruct (Ho eq_refl) as (Hg & Hi & Ht & Hpid). destruct (Hrow eq_refl) as (x & Hx & Hle).
  step. apply Process.returns_self_identity. lazy beta. cbn [Process.identity_of Process.self_pid]. rewrite Hpid.
  destruct (os_pid o =? t_pid t); cbn [negb] in *; [|by step; apply HQ].
  rewrite Hg, Hi, Ht. step. rewrite (proj2 (Z.ltb_lt _ _)).
  2: { apply lookup_lt_Some in Hx. rewrite <- (proj1 Hr). lia. }
  apply (wp_board_guard _ _ _ _ _ _ _ (λ out w', match out with Val a => _ a w' | Exc _ => False end)); [done|lia|].
  intros token. known.
  set (e := match current rows t with Some _ => Ok | None => state_not_recoverable end).
  set (rows' := match current rows t with Some p => <[t_row t := Row (t_epoch t + 1) (Some (disowned p))]> rows | None => rows end).
  eapply (wp_mono _ _ (λ out w', match out with Val a => a = e ∧ table_shows rows' (w_mem w') | Exc _ => False end)).
  - apply (returns_release_locked rows t); [by apply table_shows_header|done|by eauto|].
    intros m' ws' _. subst e rows'. by destruct (current rows t).
  - intros [a|x'] [m' o' ws']; [|done]. cbn [w_mem w_os w_wakes]. intros [-> Hr']. step.
    specialize (HQ (<[Hdr lock_token := 0]> m') o' ws' (upd_same _ _ _)). subst e rows'.
    destruct (current rows t) as [p|]; apply HQ; by apply table_shows_header.
Qed.

(** *** Readers *)

Definition keys_distinct (rows : table) : Prop :=
  ∀ j k e e' p q, post_at rows j = Some (e, p) → post_at rows k = Some (e', q) → p_key p = p_key q → j = k.

Record reader_ok (rows : table) (r : Reader) key : Prop := {
  ro_base : r_base_ r = true;
  ro_geometry : r_geometry_ r = g;
  ro_key : r_key_ r = key;
  ro_hash : r_key_hash_ r = key_fingerprint key;
  ro_ok : key_ok key;
  ro_idx : 0 <= r_entry_idx_ r;
  ro_row : ∀ k x, r_entry_idx_ r = Z.of_nat k → rows !! k = Some x →
    r_tenancy_ r <= r_epoch x ∧ (r_tenancy_ r = r_epoch x → ∀ p, r_post x = Some p → p_key p = key)
}.

(** The reader has its key's row. *)
Definition resolved (rows : table) (r : Reader) key (k : nat) (p : post) : Prop :=
  r_entry_idx_ r = Z.of_nat k ∧ post_at rows k = Some (r_tenancy_ r, p) ∧ p_key p = key.

Lemma post_at_row rows (k : nat) e p : post_at rows k = Some (e, p) ↔ rows !! k = Some (Row e (Some p)).
Proof.
  unfold post_at. destruct (rows !! k) as [[e' [q|]]|]; [|done..]. split; by intros [= -> ->].
Qed.

Lemma resolved_first rows r key (k : nat) p :
  keys_distinct rows → resolved rows r key k p → first_index (holds_key key) rows = Some k.
Proof.
  intros Hd (_ & Hp & Hk). pose proof (proj1 (post_at_row _ _ _ _) Hp) as Hx.
  eapply first_index_is; [exact Hx|by apply bool_decide_eq_true|].
  intros j [e [q|]] Hj Hy; [|done]. cbn. apply bool_decide_eq_false. intros Hq.
  apply post_at_row in Hy. rewrite (Hd j k _ _ _ _ Hy Hp) in Hj by congruence. lia.
Qed.

Lemma returns_still_resolved rows r key m o ws (Q : bool → world bloc → Prop) :
  table_shows rows m → reader_ok rows r key →
  (∀ k p, resolved rows r key k p → Q true (World m o ws)) → Q false (World m o ws) →
  returns (still_resolved r) (World m o ws) Q.
Proof.
  intros Hr Hro Hyes Hno. pose proof Hro as [_ Hg Hk _ Hok Hi Hrow]. unfold still_resolved. rewrite Hg.
  step; [|by step]. apply Z.ltb_lt in E.
  destruct (lookup_lt_is_Some_2 rows (Z.to_nat (r_entry_idx_ r))) as [x Hx].
  { pose proof (table_length _ _ Hr). lia. }
  pose proof (proj2 Hr _ _ Hx) as Hs. rewrite Z2Nat.id in Hs by done. destruct Hs as [Ht Hp].
  destruct (Hrow (Z.to_nat (r_entry_idx_ r)) x ltac:(lia) Hx) as [_ Hkey].
  do 2 step. destruct x as [e [p|]]; fields.
  - destruct Hp as [Hs _]. rewrite (ps_state _ _ _ Hs). known. do 2 step. rewrite Ht. step.
    destruct (Z.eqb_spec e (r_tenancy_ r)) as [->|]; [|done].
    apply (Hyes (Z.to_nat (r_entry_idx_ r)) p). split; [lia|]. split; [by apply post_at_row|]. by apply Hkey.
  - destruct Hp as (Hs & _). rewrite Hs. known. by step.
Qed.

Lemma returns_match_entry i x r key m o ws (Q : option Z → world bloc → Prop) :
  shows g m i x → r_key_ r = key → r_key_hash_ r = key_fingerprint key → key_ok key →
  Q (if holds_key key x then Some (r_epoch x) else None) (World m o ws) →
  returns (match_entry r i) (World m o ws) Q.
Proof.
  intros [Ht Hp] Hk Hh Hok HQ. unfold match_entry. do 2 step. unfold holds_key in HQ. destruct x as [e [p|]]; fields.
  2: { destruct Hp as (-> & _). known. by step. }
  destruct Hp as [[H1 H2 H3 _ _ _ _] (Hpk & _)]. rewrite H1. known. do 2 step. rewrite H2, Hh, Hk.
  destruct (decide (p_key p = key)) as [Ek|Ek].
  - rewrite Ek, Z.eqb_refl. cbn [negb]. do 3 step. eapply returns_key_equals; [exact H3|done|done|]. lazy beta.
    rewrite bool_decide_eq_true_2 in * by done. step. by rewrite Ht.
  - rewrite bool_decide_eq_false_2 in HQ by done. step; [by step|]. do 3 step.
    eapply returns_key_equals; [exact H3|done|done|]. lazy beta. rewrite bool_decide_eq_false_2 by done. by step.
Qed.

Lemma reader_placed rows r key (j : Z) t :
  reader_ok rows r key → 0 <= j →
  (∀ k x, j = Z.of_nat k → rows !! k = Some x →
     t <= r_epoch x ∧ (t = r_epoch x → ∀ p, r_post x = Some p → p_key p = key)) →
  reader_ok rows (set_resolved r j t) key.
Proof. intros [H1 H2 H3 H4 H5 H6 H7] Hj Ht. by split. Qed.

Lemma returns_resolve rows r key m o ws (Q : bool * Reader → world bloc → Prop) :
  table_shows rows m → reader_ok rows r key → keys_distinct rows → capacity g < INVALID_SLOT →
  (∀ r' k p, reader_ok rows r' key → resolved rows r' key k p → Q (true, r') (World m o ws)) →
  (∀ r', reader_ok rows r' key → first_index (holds_key key) rows = None → Q (false, r') (World m o ws)) →
  returns (resolve r) (World m o ws) Q.
Proof.
  intros Hr Hro Hd Hcap Hyes Hno. pose proof Hro as [Hb Hg Hk Hh Hok Hi _]. pose proof (table_length _ _ Hr) as Hlen.
  unfold resolve. rewrite Hb. known. step. eapply returns_still_resolved; [exact Hr|exact Hro|..].
  { intros k p Hres. step. by eapply Hyes. }
  lazy beta iota. rewrite Hg. step.
  apply (returns_for _ _ _ _ _ (λ i _ w, w = World m o ws ∧
    ∀ j y, (j < Z.to_nat i)%nat → rows !! j = Some y → holds_key key y = false)).
  - split; [done|]. intros j y Hj. lia.
  - intros i [] w Hlt [-> Hbefore]. destruct (lookup_lt_is_Some_2 rows (Z.to_nat i)) as [x Hx]; [lia|].
    pose proof (proj2 Hr _ _ Hx) as Hs. rewrite Z2Nat.id in Hs by lia.
    step. eapply (returns_match_entry i x r key); [exact Hs|done..|]. lazy beta.
    destruct (holds_key key x) eqn:Ex.
    + do 2 step. destruct x as [e [p|]]; [|done]. apply bool_decide_eq_true in Ex. cbn [r_epoch].
      eapply (Hyes _ (Z.to_nat i) p).
      * eapply reader_placed; [done|lia|]. intros k y -> Hy. rewrite Nat2Z.id in Hx. rewrite Hx in Hy. injection Hy as <-.
        cbn. split; [lia|]. by intros _ q [= <-].
      * split; [cbn; lia|]. split; [by apply post_at_row|done].
    + step. split; [done|]. intros j y Hj Hy.
      destruct (decide (j = Z.to_nat i)) as [->|Hne]; [congruence|]. apply (Hbefore j); [lia|done].
  - intros [] w [-> Hall]. step. apply Hno.
    + eapply reader_placed; [done|by change INVALID_SLOT with 4294967295|].
      intros k x E Hx%lookup_lt_Some. lia.
    + apply first_index_none. intros j y Hy. apply (Hall j); [|done]. apply lookup_lt_Some in Hy. lia.
Qed.

(** What reading a post gives, in a buffer. *)
Definition reading_of (p : post) (buf : list Z) : ReadOutcome * list Z :=
  if p_count p =? 0 then (failed no_message, buf)
  else
    let fits := Z.of_nat (length (p_value p)) <=? Z.of_nat (length buf) in
    ({| ec := if fits then Ok else message_size; out_len := Z.of_nat (length (p_value p));
        out_updated_at_ns := p_stamp p; out_update_count := p_count p |},
     if fits then fill buf (p_value p) else buf).

Lemma returns_read_attempt rows r key (k : nat) p buf m o ws
    (Q : list Z + (ReadOutcome * list Z) → world bloc → Prop) :
  table_shows rows m → reader_ok rows r key → resolved rows r key k p →
  p_count p < 4611686018427387904 →
  Q (inr (reading_of p buf)) (World m o ws) → returns (read_attempt r buf) (World m o ws) Q.
Proof.
  intros Hr Hro (Hi & Hp & Hk) Hbound HQ. apply post_at_row in Hp. pose proof (proj2 Hr _ _ Hp) as [Ht [Hs Hpok]].
  fields. destruct Hpok as (_ & Hu & Hc0 & Hlen). unfold read_attempt. cbn zeta.
  rewrite Hi, (ro_geometry _ _ _ Hro). set (i := Z.of_nat k) in *. do 2 step. rewrite Ht, Z.eqb_refl. cbn [negb].
  do 2 step. rewrite (ps_publish _ _ _ Hs).
  unfold reading_of in HQ. step; [by step|]. apply Z.eqb_neq in E.
  destruct (ps_cell _ _ _ Hs E) as (Hvl & Hst & Hw). set (c := parity (p_count p)) in *.
  do 2 step. rewrite Hvl. rewrite (proj2 (Z.ltb_ge _ _)) by done. set (len := Z.of_nat (length (p_value p))) in *.
  set (fits := len <=? Z.of_nat (length buf)) in *.
  assert (∀ Q1 : list Z → world bloc → Prop, Q1 (if fits then fill buf (p_value p) else buf) (World m o ws) →
    returns (if fits && (0 <? len) then bytes <- load_words (CellWord i c) len ;; Ret (fill buf bytes) else Ret buf)
      (World m o ws) Q1) as Hload.
  { intros Q1 HQ1. destruct fits; cbn [andb]; [|by step]. step.
    - step. apply returns_load_words. cbn [w_mem]. step. unfold len. rewrite Nat2Z.id, Hw.
      by rewrite unwords_words_of.
    - step. apply Z.ltb_ge in E0. by destruct (p_value p). }
  step. apply Hload. lazy beta. do 6 step. rewrite Hst, Ht, Z.eqb_refl, cell_unclobbered. cbn [negb].
  known. step. exact HQ.
Qed.

Lemma returns_read rows r key buf m o ws (Q : (ReadOutcome * list Z) * Reader → world bloc → Prop) :
  table_shows rows m → reader_ok rows r key → keys_distinct rows → capacity g < INVALID_SLOT →
  (∀ j e p, post_at rows j = Some (e, p) → p_count p < 4611686018427387904) →
  (∀ r' k p, reader_ok rows r' key → resolved rows r' key k p → Q (reading_of p buf, r') (World m o ws)) →
  (∀ r', reader_ok rows r' key → first_index (holds_key key) rows = None →
     Q ((failed no_such_file_or_directory, buf), r') (World m o ws)) →
  returns (read r buf) (World m o ws) Q.
Proof.
  intros Hr Hro Hd Hcap Hcnt Hyes Hno. unfold read. rewrite (ro_base _ _ _ Hro). known. step.
  change READ_RETRY_BUDGET with (S 63). apply returns_for_turn. step.
  eapply returns_resolve; [exact Hr|exact Hro|done|done|..].
  - intros r' k p Hro' Hres. lazy beta iota. known. step.
    eapply returns_read_attempt; [exact Hr|exact Hro'|exact Hres|eapply Hcnt; apply Hres|].
    lazy beta iota. step. step. by eapply Hyes.
  - intros r' Hro' Hf. lazy beta iota. known. step. step. by apply Hno.
Qed.

Lemma lookup_key_post rows r key (k : nat) p :
  keys_distinct rows → resolved rows r key k p →
  lookup_key key rows = if p_count p =? 0 then (failed no_message, [])
    else ({| ec := Ok; out_len := Z.of_nat (length (p_value p)); out_updated_at_ns := p_stamp p;
             out_update_count := p_count p |}, p_value p).
Proof.
  intros Hd Hres. unfold lookup_key. rewrite (resolved_first _ _ _ _ _ Hd Hres).
  destruct Hres as (_ & -> & _). done.
Qed.

Lemma returns_read_vector rows r key m o ws (Q : (ReadOutcome * list Z) * Reader → world bloc → Prop) :
  table_shows rows m → reader_ok rows r key → keys_distinct rows → capacity g < INVALID_SLOT →
  (∀ j e p, post_at rows j = Some (e, p) → p_count p < 4611686018427387904) →
  (∀ r', reader_ok rows r' key → Q (lookup_key key rows, r') (World m o ws)) →
  returns (read_vector r []) (World m o ws) Q.
Proof.
  intros Hr Hro Hd Hcap Hcnt HQ. unfold read_vector. step. apply returns_for_turn. step.
  assert (∀ r', reader_ok rows r' key → first_index (holds_key key) rows = None →
    Q ((failed no_such_file_or_directory, []), r') (World m o ws)) as Hno.
  { intros r' Hro' Hf. unfold lookup_key in HQ. rewrite Hf in HQ. by apply HQ. }
  eapply (returns_read rows); [exact Hr|exact Hro|done..|intros r' k p Hro' Hres|]; lazy beta.
  - pose proof (lookup_key_post _ _ _ _ _ Hd Hres) as Hlk. unfold reading_of.
    destruct (p_count p =? 0) eqn:Ec; lazy beta iota zeta.
    { rewrite Hlk in HQ. cbn [failed ec]. repeat (rewrite decide_False by done). do 2 step. by apply HQ. }
    cbn [length ec]. destruct (Z.of_nat (length (p_value p)) <=? Z.of_nat 0) eqn:Ef.
    + apply Z.leb_le in Ef. destruct (p_value p) as [|? ?] eqn:Ev; [|cbn in Ef; lia].
      rewrite decide_False by done. rewrite decide_True by done. do 2 step.
      rewrite Hlk in HQ. by apply HQ.
    + rewrite decide_True by done. step. cbn [out_len]. apply returns_for_turn. step.
      eapply (returns_read rows); [exact Hr|exact Hro'|done..|intros r2 k2 p2 Hro2 Hres2|]; lazy beta.
      * pose proof (resolved_first _ _ _ _ _ Hd Hres) as F1. pose proof (resolved_first _ _ _ _ _ Hd Hres2) as F2.
        rewrite F1 in F2. injection F2 as <-. destruct Hres as (_ & P1 & _), Hres2 as (_ & P2 & _).
        rewrite P1 in P2. injection P2 as _ <-. unfold reading_of. rewrite Ec.
        assert (length (resize (Z.of_nat (length (p_value p))) []) = length (p_value p)) as Hl.
        { unfold resize. rewrite Nat2Z.id, take_nil. cbn. by rewrite length_replicate, Nat.sub_0_r. }
        cbn zeta. rewrite Hl, Z.leb_refl. cbn [ec]. rewrite decide_False by done. rewrite decide_True by done.
        do 2 step. cbn [out_len].
        assert (resize (Z.of_nat (length (p_value p))) (fill (resize (Z.of_nat (length (p_value p))) []) (p_value p)) = p_value p) as ->.
        { unfold fill. rewrite drop_ge by lia. rewrite app_nil_r. unfold resize.
          rewrite Nat2Z.id, Nat.sub_diag, firstn_all. by rewrite app_nil_r. }
        rewrite Hlk in HQ. by apply HQ.
      * intros r2 _ Hf. rewrite (resolved_first _ _ _ _ _ Hd Hres) in Hf. done.
  - intros r' Hro' Hf. cbn [failed ec]. repeat (rewrite decide_False by done). do 2 step. by apply Hno.
Qed.

(** What [sweep_stale] does under the lock. *)
Lemma wp_sweep_body token rows m o ws (Q : Z → world bloc → Prop) :
  table_shows rows m → epochs_below 1 rows → is_u32 (capacity g) →
  (∀ m' o' ws', m' (Hdr lock_token) = 0 → table_shows (sweep o rows) m' →
     Q (Z.of_nat (length (List.filter (swept o) rows))) (World m' o' ws')) →
  wp (reclaimed <- sweep_locked (capacity g) ;; when (0 <? reclaimed) notify_change ;; Ret reclaimed)
    (World (<[Hdr lock_token := token]> m) (os_advance o (os_tick o)) ws) (λ out w',
      match out with
      | Val a => Q a (World (<[Hdr lock_token := 0]> (w_mem w')) (w_os w') (w_wakes w'))
      | Exc _ => False
      end).
Proof.
  intros Hr Hep Hcap HQ. apply wp_bind_returns.
  eapply (returns_sweep_locked rows); [by apply table_shows_header|done|done|]. intros m1 Hr1 _. lazy beta.
  change (sweep (os_advance o (os_tick o)) rows) with (sweep o rows) in Hr1.
  change (swept (os_advance o (os_tick o))) with (swept o). set (n := Z.of_nat _).
  apply wp_bind_returns, returns_when; intros Hn.
  - apply returns_notify. intros m2 ws2 Hm2. apply wp_ret. cbn [w_mem w_os w_wakes]. apply HQ; [apply upd_same|].
    apply table_shows_header. eapply table_shows_ext; [|exact Hr1]. intros l Hl'. apply Hm2. intros ->. by apply Hl'.
  - apply wp_ret. cbn [w_mem w_os w_wakes]. apply HQ; [apply upd_same|by apply table_shows_header].
Qed.

Lemma returns_board_sweep b rows m o ws (Q : Z → world bloc → Prop) :
  base_ b = true → geometry_ b = g → table_shows rows m → m (Hdr lock_token) = 0 → epochs_below 1 rows →
  is_u32 (capacity g) →
  (∀ m' o' ws', m' (Hdr lock_token) = 0 → table_shows (sweep o rows) m' →
     Q (Z.of_nat (length (List.filter (swept o) rows))) (World m' o' ws')) →
  returns (sweep_stale b) (World m o ws) Q.
Proof.
  intros Hb Hg Hr Hl Hep Hcap HQ. unfold sweep_stale, require_open. rewrite Hb, Hg. known. do 2 step. cbn zeta.
  apply (wp_board_guard _ _ _ _ _ _ _ (λ out w', match out with Val a => Q a w' | Exc _ => False end)); [done|lia|].
  intros token. known. by apply (wp_sweep_body _ rows).
Qed.

(** ** The simulation *)

(** A row is as it was, has changed owner, or has moved on to a later epoch. *)
Definition moved (x x' : row) : Prop :=
  x' = x ∨ r_epoch x < r_epoch x' ∨
  (r_epoch x' = r_epoch x ∧ ∃ p q, r_post x = Some p ∧ r_post x' = Some q ∧ p_key q = p_key p ∧ p_count q = p_count p).

Lemma moved_trans x y z : moved x y → moved y z → moved x z.
Proof.
  intros [->|[Hxy|(Exy & p & q & Hp & Hq & Hk & Hc)]] Hyz; [done|..]; destruct Hyz as [->|[Hyz|(Eyz & p' & q' & Hp' & Hq' & Hk' & Hc')]].
  - by right; left.
  - right; left. lia.
  - right; left. lia.
  - right; right. split; [done|]. by exists p, q.
  - right; left. lia.
  - right; right. split; [lia|]. rewrite Hq in Hp'. injection Hp' as <-. exists p, q'. split; [done|]. split; [done|].
    split; congruence.
Qed.

Definition advances (rows rows' : table) : Prop :=
  length rows' = length rows ∧
  ∀ k x', rows' !! k = Some x' → ∃ x, rows !! k = Some x ∧ moved x x'.

Lemma advances_lookup rows rows' (k : nat) x :
  advances rows rows' → rows !! k = Some x → ∃ x', rows' !! k = Some x' ∧ moved x x'.
Proof.
  intros [Hlen Ha] Hx. destruct (lookup_lt_is_Some_2 rows' k) as [x' Hx'].
  { rewrite Hlen. by eapply lookup_lt_Some. }
  destruct (Ha _ _ Hx') as (y & Hy & Hc). rewrite Hx in Hy. injection Hy as <-. eauto.
Qed.

Lemma advances_trans rows1 rows2 rows3 : advances rows1 rows2 → advances rows2 rows3 → advances rows1 rows3.
Proof.
  intros [L1 A1] [L2 A2]. split; [congruence|]. intros k x3 H3. destruct (A2 _ _ H3) as (x2 & H2 & C2).
  destruct (A1 _ _ H2) as (x1 & H1 & C1). exists x1. split; [done|]. by eapply moved_trans.
Qed.

Lemma advances_moved rows (i : nat) x x' : rows !! i = Some x → moved x x' → advances rows (<[i := x']> rows).
Proof.
  intros Hx He. split; [by rewrite length_insert|]. intros k y Hk.
  apply list_lookup_insert_Some in Hk as [(<- & <- & _)|[Hne Hk]]; [by exists x|]. exists y. by split; [|left].
Qed.

Lemma advances_insert rows (i : nat) x e q :
  rows !! i = Some x → r_epoch x < e → advances rows (<[i := Row e q]> rows).
Proof. intros Hx He. eapply advances_moved; [exact Hx|]. by right; left. Qed.

Lemma advances_sweep o rows : advances rows (sweep o rows).
Proof.
  split; [unfold sweep; by rewrite length_map|]. intros k x' Hx'. unfold sweep in Hx'.
  rewrite list_lookup_fmap in Hx'. destruct (rows !! k) as [x|]; [|done]. injection Hx' as <-. exists x.
  split; [done|]. unfold swept_row. destruct (r_post x) as [p|]; [|by left].
  destruct (owner_dead o p); [right; left; cbn; lia|by left].
Qed.

Lemma reader_advances rows rows' r key : advances rows rows' → reader_ok rows r key → reader_ok rows' r key.
Proof.
  intros Ha [H1 H2 H3 H4 H5 H6 H7]. split; try done. intros k x' Hk Hx'.
  destruct (proj2 Ha _ _ Hx') as (x & Hx & [->|[Hlt|(E & p & q & Hp & Hq & Hkey & _)]]); [by apply (H7 k)|..].
  - destruct (H7 k x Hk Hx) as [Hle _]. split; [lia|]. intros E. lia.
  - destruct (H7 k x Hk Hx) as [Hle Hp']. split; [lia|]. intros E' q' Hq'. rewrite Hq in Hq'. injection Hq' as <-.
    rewrite Hkey. apply Hp'; [congruence|done].
Qed.

Lemma writer_advances rows rows' w t : advances rows rows' → writer_ok rows w t → writer_ok rows' w t.
Proof.
  intros Ha [H1 H2 H3 H4]. split; [done|done|..].
  - intros Hopen. destruct (H3 Hopen) as (x & Hx & Hle).
    destruct (advances_lookup _ _ _ _ Ha Hx) as (x' & Hx' & [->|[Hlt|(E & _)]]); eauto; exists x'; (split; [done|lia]).
  - intros Hopen p Hp. pose proof (current_row _ _ _ Hp) as Hx'. destruct (H3 Hopen) as (y & Hy & Hle).
    destruct (proj2 Ha _ _ Hx') as (x & Hx & [E|[Hlt|(E & q & q' & Hq & Hq' & _ & Hc)]]).
    + apply H4; [done|]. unfold current, post_at. rewrite Hx, <- E. by rewrite Z.eqb_refl.
    + rewrite Hy in Hx. injection Hx as <-. cbn in Hlt. lia.
    + cbn in E, Hq'. injection Hq' as <-. rewrite Hc. apply H4; [done|]. unfold current, post_at. rewrite Hx.
      destruct x as [ex px]. cbn in E, Hq. subst ex px. by rewrite Z.eqb_refl.
Qed.

Definition counts_below (n : Z) (rows : table) : Prop :=
  ∀ k e p, post_at rows k = Some (e, p) → 0 <= p_count p ∧ p_count p + n < 4611686018427387904.

Lemma post_at_insert_some rows (i k : nat) e p e' q :
  post_at (<[i := Row e (Some p)]> rows) k = Some (e', q) →
  (k = i ∧ e' = e ∧ q = p) ∨ (k ≠ i ∧ post_at rows k = Some (e', q)).
Proof.
  intros Hk. apply post_at_row in Hk. apply list_lookup_insert_Some in Hk as [(-> & Heq & _)|[Hne Hk]].
  - left. by injection Heq as -> ->.
  - right. split; [done|]. by apply post_at_row.
Qed.

Lemma keys_insert rows (i : nat) e p :
  keys_distinct rows → (∀ k e' q, post_at rows k = Some (e', q) → p_key q = p_key p → k = i) →
  keys_distinct (<[i := Row e (Some p)]> rows).
Proof.
  intros Hd Hi j k ej ek pj pk Hj Hk Heq.
  apply post_at_insert_some in Hj as [(-> & -> & ->)|[Hj1 Hj2]];
    apply post_at_insert_some in Hk as [(-> & -> & ->)|[Hk1 Hk2]]; [done|..].
  - by destruct Hk1; eapply Hi.
  - by destruct Hj1; eapply Hi.
  - by eapply Hd.
Qed.

Lemma counts_insert n rows (i : nat) e p :
  counts_below n rows → 0 <= p_count p → p_count p + n < 4611686018427387904 →
  counts_below n (<[i := Row e (Some p)]> rows).
Proof. intros Hc Hlo Hhi k e' q [(-> & -> & ->)|[_ Hk]]%post_at_insert_some; [done|by eapply Hc]. Qed.

Lemma epochs_insert n rows (i : nat) e q :
  epochs_below n rows → 0 <= e → e + n < 18446744073709551616 → epochs_below n (<[i := Row e q]> rows).
Proof.
  intros Hep Hlo Hhi k x Hk. apply list_lookup_insert_Some in Hk as [(_ & <- & _)|[_ Hk]]; [by cbn|by eapply Hep].
Qed.

Lemma sweep_post o rows (k : nat) e p : post_at (sweep o rows) k = Some (e, p) → post_at rows k = Some (e, p).
Proof.
  intros Hk. apply post_at_row in Hk. apply post_at_row. unfold sweep in Hk. rewrite list_lookup_fmap in Hk.
  destruct (rows !! k) as [[e' [q|]]|]; [|done..]. unfold swept_row in Hk. cbn in Hk.
  destruct (owner_dead o q); done.
Qed.

(** The table is sound and has room for [n] more steps. *)
Record sound (n : Z) (rows : table) : Prop := {
  so_epochs : epochs_below n rows;
  so_counts : counts_below n rows;
  so_keys : keys_distinct rows
}.

Lemma sound_mono n n' rows : n' <= n → sound n rows → sound n' rows.
Proof.
  intros Hn [H1 H2 H3]. split; [by eapply epochs_mono|intros k e p Hp; specialize (H2 _ _ _ Hp); lia|done].
Qed.

Lemma sound_sweep n o rows : sound (n + 1) rows → 0 <= n → sound n (sweep o rows).
Proof.
  intros [H1 H2 H3] Hn. split; [by apply sweep_epochs|..].
  - intros k e p Hp%sweep_post. specialize (H2 _ _ _ Hp). lia.
  - intros j k e e' p q Hp%sweep_post Hq%sweep_post. by eapply H3.
Qed.

(** A row moves on to a post of its own key. *)
Lemma sound_insert n rows (i : nat) x e p :
  sound (n + 1) rows → 0 <= n → rows !! i = Some x → e = r_epoch x + 1 → 0 <= p_count p →
  p_count p + n < 4611686018427387904 →
  (∀ k e' q, post_at rows k = Some (e', q) → p_key q = p_key p → k = i) →
  sound n (<[i := Row e (Some p)]> rows).
Proof.
  intros [H1 H2 H3] Hn Hx -> Hc Hcn Hk. destruct (H1 _ _ Hx) as [Hlo Hhi]. split.
  - apply epochs_insert; [by eapply epochs_mono; [|exact H1]; lia|lia|lia].
  - apply counts_insert; [|done|done]. intros k e q Hp. specialize (H2 _ _ _ Hp). lia.
  - by apply keys_insert.
Qed.

(** A row fresh to everyone: its epoch is new. *)
Definition fresh_row (rows rows' : table) (i : nat) : Prop :=
  ∃ e p, post_at rows' i = Some (e, p) ∧ ∀ x, rows !! i = Some x → r_epoch x < e.

Lemma claim_ok n o key rows (i : nat) :
  sound (n + 1) rows → 0 <= n < 4611686018427387904 → first_index vacant rows = Some i →
  first_index (holds_key key) rows = None →
  advances rows (claim o key rows i) ∧ sound n (claim o key rows i) ∧ fresh_row rows (claim o key rows i) i.
Proof.
  intros Hs Hn Hi Hk. destruct (vacant_row _ _ Hi) as [e Hx]. rewrite (claim_insert _ _ _ _ _ Hx). fields.
  split; [eapply advances_insert; [exact Hx|cbn; lia]|]. split.
  - eapply sound_insert; [exact Hs|lia|exact Hx|done|done|cbn; lia|].
    intros k e' q Hq Hkey. fields. apply post_at_row in Hq.
    assert (holds_key key (Row e' (Some q)) = true) as Hh by (by apply bool_decide_eq_true).
    exfalso. clear -Hq Hh Hk. revert k Hq. induction rows as [|y rows IH]; intros k Hq; [done|]. cbn in Hk.
    destruct (holds_key key y) eqn:Ey; [done|]. destruct k as [|k]; [injection Hq as ->; congruence|].
    eapply IH; [|exact Hq]. by destruct (first_index (holds_key key) rows).
  - exists (e + 1), (new_post o key). split; [apply post_at_insert; by eapply lookup_lt_Some|].
    intros x Hx'. rewrite Hx in Hx'. injection Hx' as <-. cbn. lia.
Qed.

Lemma holds_key_sweep o key rows :
  first_index (holds_key key) rows = None → first_index (holds_key key) (sweep o rows) = None.
Proof.
  induction rows as [|x rows IH]; [done|]. cbn. destruct (holds_key key x) eqn:Ex; [done|].
  destruct (first_index (holds_key key) rows); [done|]. intros _.
  assert (holds_key key (swept_row o x) = false) as ->.
  { unfold swept_row. destruct (r_post x) as [p|]; [|done]. by destruct (owner_dead o p). }
  unfold sweep in IH. by rewrite IH.
Qed.

Lemma enter_ok n o key rows (i : nat) rows' :
  sound (n + 2) rows → 0 <= n < 4611686018427387904 → enter o key rows = inl (i, rows') →
  advances rows rows' ∧ sound n rows' ∧ fresh_row rows rows' i.
Proof.
  intros Hs Hn He. unfold enter in He. destruct (first_index (holds_key key) rows) as [k|] eqn:Hf.
  - destruct (holds_key_post _ _ _ Hf) as (e & p & Hx & Hp & Hk). rewrite Hp in He.
    destruct (takeable o p); [|done]. injection He as <- <-.
    split; [eapply advances_insert; [exact Hx|cbn; lia]|]. split.
    + destruct (so_counts _ _ Hs _ _ _ Hp).
      eapply sound_insert; [apply (sound_mono (n + 2)); [lia|exact Hs]|lia|exact Hx|done|done|cbn; lia|].
      intros j e' q Hq Heq. by eapply (so_keys _ _ Hs).
    + exists (e + 1), (owned_by o p). split; [apply post_at_insert; by eapply lookup_lt_Some|].
      intros x Hx'. rewrite Hx in Hx'. injection Hx' as <-. cbn. lia.
  - destruct (first_index vacant rows) as [k|] eqn:Hv.
    { injection He as <- <-. apply claim_ok; [by apply (sound_mono (n + 2)); [lia|]|done|done|done]. }
    destruct (first_index vacant (sweep o rows)) as [k|] eqn:Hv'; [|done]. injection He as <- <-.
    destruct (claim_ok n o key (sweep o rows) k) as (Ha & Hs' & (e & p & Hp & Hx)).
    { apply sound_sweep; [|lia]. by replace (n + 1 + 1) with (n + 2) by lia. }
    { done. }
    { done. }
    { by apply holds_key_sweep. }
    pose proof (advances_sweep o rows) as Hsw. split; [by eapply advances_trans|]. split; [done|].
    exists e, p. split; [done|]. intros x Hx'. destruct (advances_lookup _ _ _ _ Hsw Hx') as (y & Hy & C).
    specialize (Hx _ Hy). destruct C as [->|[?|(? & _)]]; [done|lia|lia].
Qed.

Record stands (n : nat) (e : handles) m (a : contents) : Prop := {
  st_table : table_shows (rows a) m;
  st_lock : m (Hdr lock_token) = 0;
  st_room : Z.of_nat n < 2305843009213693952;
  st_sound : sound (2 * Z.of_nat n) (rows a);
  st_writers : Forall2 (writer_ok (rows a)) (writers e) (tickets a);
  st_readers : Forall2 (reader_ok (rows a)) (readers e) (watched a);
  st_single : ∀ j k t u, tickets a !! j = Some t → tickets a !! k = Some u →
    t_open t = true → t_open u = true → t_row t = t_row u → t_epoch t = t_epoch u → j = k
}.

(** Rows advance, and nothing else changes. *)
Lemma stands_advance n n' e m m' a rows' :
  stands n e m a → advances (rows a) rows' → table_shows rows' m' → m' (Hdr lock_token) = 0 →
  (n' <= n)%nat → sound (2 * Z.of_nat n') rows' → stands n' e m' (Contents rows' (tickets a) (watched a)).
Proof.
  intros [H1 H2 H0 H3 H4 H5 H6] Ha Hr Hl Hn Hs. split; cbn; try done.
  - lia.
  - eapply Forall2_impl; [exact H4|]. intros w t. by apply writer_advances.
  - eapply Forall2_impl; [exact H5|]. intros r key. by apply reader_advances.
Qed.

Lemma advances_refl rows : advances rows rows.
Proof. split; [done|]. intros k x Hx. exists x. by split; [|left]. Qed.

(** Memory changes that do not show. *)
Lemma stands_same n e m m' a :
  stands (S n) e m a → table_shows (rows a) m' → m' (Hdr lock_token) = 0 → stands n e m' a.
Proof.
  intros Hst Hr Hl. destruct a as [rs ts ks]. eapply (stands_advance (S n) n _ _ _ _ rs Hst); [apply advances_refl|done|done|lia|].
  eapply sound_mono; [|apply Hst]. lia.
Qed.

Definition text_ok (key : option (list Z)) : Prop :=
  match key with Some key => Forall (λ b, 1 <= b < 256) key | None => True end.
Definition call_ok (c : call) : Prop :=
  match c with
  | DeclareKey key _ | Observe key => text_ok key
  | Write _ data => Forall is_u8 data
  | _ => True
  end.

Lemma check_key_ok (key : option (list Z)) key' : text_ok key → check_key key = inl key' → key_ok key'.
Proof.
  unfold check_key. destruct key as [key|]; [|done]. cbn. intros Hk. case_bool_decide as Hn; [done|].
  destruct (Z.leb_spec KEY_MAX (Z.min (Z.of_nat (length key)) KEY_MAX)); [done|]. intros [= <-].
  split; [done|]. split; [lia|done].
Qed.

Context (Hcap : 0 <= capacity g < INVALID_SLOT) (Hmax : 0 <= max_value_size g < 4294967296).

Lemma returns_declare_call b n (key node : option (list Z)) e m o a (Q : reply * handles → world bloc → Prop) :
  base_ b = true → geometry_ b = g → stands (S n) e m a → text_ok key →
  (∀ w e', stands n e' (w_mem w) (promised (max_value_size g) o (DeclareKey key node) a).2 →
     Q ((promised (max_value_size g) o (DeclareKey key node) a).1, e') w) →
  returns (perform b (DeclareKey key node) e) (World m o []) Q.
Proof using Hcap Hmax.
  intros Hb Hg Hst Hk HQ. cbn [perform promised] in *. step. apply returns_try.
  pose proof Hst as [Hr Hl Hroom Hs Hw Hrd Hsingle].
  apply (wp_declare b key node (rows a)); [done|done|done|done| |lia|done|intros key'; by apply check_key_ok|].
  { eapply epochs_mono; [|apply Hs]. lia. }
  intros m' o' ws' Hl'. destruct (check_key key) as [k|x].
  2: { intros Hr'. lazy beta iota. step. apply HQ. by eapply stands_same. }
  destruct (enter o k (rows a)) as [[i rows']|x] eqn:He.
  2: { intros Hr'. lazy beta iota. step. apply HQ. by eapply stands_same. }
  intros w Hr' Hgr. lazy beta iota. step. apply HQ. cbn [snd w_mem].
  destruct (enter_ok (2 * Z.of_nat n) o k (rows a) i rows') as (Ha & Hs' & (ep & p & Hp & Hfresh)); [|lia|done|].
  { by replace (2 * Z.of_nat n + 2) with (2 * Z.of_nat (S n)) by lia. }
  destruct (stands_advance (S n) n e m m' a rows' Hst Ha Hr' Hl' ltac:(lia) Hs') as [H1 H2 H0 H3 H4 H5 H6].
  destruct Hgr as (G1 & G2 & G3 & G4 & (q & G5 & G6)). rewrite Hp in G5. injection G5 as G5 <-. rewrite Hp. cbn.
  split; cbn in *; try done.
  - apply Forall2_app; [done|]. constructor; [|constructor]. split; cbn; try done.
    + intros _. apply post_at_row in Hp. exists (Row ep (Some p)). split; [done|]. cbn. lia.
    + intros _ q Hq%current_row. cbn in Hq. apply post_at_row in Hp. rewrite Hp in Hq. by injection Hq as <-.
  - assert (∀ j t, tickets a !! j = Some t → t_open t = true → t_row t = i → t_epoch t < ep) as Hold.
    { intros j t Ht Hopen <-. destruct (Forall2_lookup_r _ _ _ _ _ Hw Ht) as (w' & _ & Hok).
      destruct (wo_row _ _ _ Hok Hopen) as (x & Hx & Hle). specialize (Hfresh _ Hx). lia. }
    intros j l t u Ht Hu Ot Ou Erow Eep.
    apply lookup_app_Some in Ht as [Ht|[Lt Ht]]; apply lookup_app_Some in Hu as [Hu|[Lu Hu]].
    + by eapply Hsingle.
    + apply list_lookup_singleton_Some in Hu as [_ <-]. cbn in *. specialize (Hold _ _ Ht Ot Erow). lia.
    + apply list_lookup_singleton_Some in Ht as [_ <-]. cbn in *. specialize (Hold _ _ Hu Ou (eq_sym Erow)). lia.
    + apply list_lookup_singleton_Some in Ht as [Et _], Hu as [Eu _]. lia.
Qed.

Lemma current_insert rows t u e p q :
  current (<[t_row t := Row e (Some p)]> rows) u = Some q →
  (t_row u = t_row t ∧ t_epoch u = e ∧ q = p) ∨ (t_row u ≠ t_row t ∧ current rows u = Some q).
Proof.
  intros Hq. apply current_row in Hq. apply list_lookup_insert_Some in Hq as [(E & Heq & _)|[Hne Hq]].
  - left. injection Heq as -> ->. done.
  - right. split; [done|]. unfold current, post_at. rewrite Hq. by rewrite Z.eqb_refl.
Qed.

(** A write moves no row on. *)
Lemma reader_written rows o t data p r key :
  current rows t = Some p → reader_ok rows r key →
  reader_ok (<[t_row t := Row (t_epoch t) (Some (written o data p))]> rows) r key.
Proof.
  intros Hc%current_row [H1 H2 H3 H4 H5 H6 H7]. split; try done. intros k x Hk Hx.
  apply list_lookup_insert_Some in Hx as [(<- & <- & _)|[_ Hx]]; [|by apply (H7 k)].
  destruct (H7 _ _ Hk Hc) as [Hle Hkey]. fields. split; [done|]. intros E q [= <-]. cbn. exact (Hkey E p eq_refl).
Qed.

Lemma returns_write_call b n k data e m o a (Q : reply * handles → world bloc → Prop) :
  stands (S n) e m a → Forall is_u8 data →
  (∀ w e', stands n e' (w_mem w) (promised (max_value_size g) o (Write k data) a).2 →
     Q ((promised (max_value_size g) o (Write k data) a).1, e') w) →
  returns (perform b (Write k data) e) (World m o []) Q.
Proof using Hcap Hmax.
  clear Hcap. intros Hst Hu HQ. cbn [perform promised] in *. pose proof Hst as [Hr Hl Hroom Hs Hw Hrd Hsingle].
  destruct (writers e !! k) as [w|] eqn:Ew.
  2: { step. destruct (tickets a !! k) as [t|] eqn:Et.
       - destruct (Forall2_lookup_r _ _ _ _ _ Hw Et) as (w & Hw' & _). congruence.
       - apply HQ. by eapply stands_same. }
  destruct (Forall2_lookup_l _ _ _ _ _ Hw Ew) as (t & Et & Hok). rewrite Et in HQ. step.
  eapply (returns_writer_write (rows a) w t); [done|done|done|done| |].
  { intros p Hp. apply current_row, post_at_row in Hp. destruct (so_counts _ _ Hs _ _ _ Hp). lia. }
  intros m' o' ws' Hl' Hr'. lazy beta iota. step. rewrite Hl in Hl'.
  destruct (write (max_value_size g) o t data (rows a)) as [ec rows'] eqn:Ewr. cbn [fst snd] in *. apply HQ.
  unfold write in Ewr. destruct (decide (ec = Ok)) as [->|Hne].
  2: { assert (rows' = rows a) as ->.
       { repeat match type of Ewr with context [if ?b then _ else _] => destruct b end; try congruence.
         destruct (current (rows a) t); congruence. }
       rewrite list_insert_id by done. destruct e, a. by eapply stands_same. }
  assert (∃ p, current (rows a) t = Some p ∧ t_open t = true ∧ Z.of_nat (length data) <= max_value_size g ∧
    rows' = <[t_row t := Row (t_epoch t) (Some (written o data p))]> (rows a)) as (p & Hp & Hopen & Hlen & ->).
  { destruct (t_open t); [|done]. cbn in Ewr. destruct (os_pid o =? t_pid t); [|done]. cbn in Ewr.
    destruct (Z.ltb_spec (max_value_size g) (Z.of_nat (length data))); [done|].
    destruct (current (rows a) t) as [p|]; [|done]. injection Ewr as <-. by exists p. }
  pose proof (current_row _ _ _ Hp) as Hx. pose proof (proj2 (post_at_row _ _ _ _) Hx) as Hpost.
  destruct (so_counts _ _ Hs _ _ _ Hpost) as [Hc0 Hcn]. destruct (so_epochs _ _ Hs _ _ Hx) as [He0 Hen]. cbn [r_epoch] in *.
  split; cbn [rows tickets watched writers readers w_mem]; [done|done|lia|..].
  - split.
    + apply epochs_insert; [by eapply epochs_mono; [|apply Hs]; lia|done|lia].
    + apply counts_insert; cbn [p_count written]; [|lia|lia]. intros j e' q Hq. destruct (so_counts _ _ Hs _ _ _ Hq). lia.
    + apply keys_insert; [apply Hs|]. intros j e' q Hq Heq. by eapply (so_keys _ _ Hs).
  - apply Forall2_same_length_lookup. pose proof (Forall2_length _ _ _ Hw) as Hlw.
    split; [by rewrite length_insert|]. intros j w2 u Hj Hu2.
    apply list_lookup_insert_Some in Hj as [(<- & <- & _)|[Hne Hj]].
    + rewrite Et in Hu2. injection Hu2 as <-. destruct Hok as [O1 O2 O3 O4]. split; [done|by apply O2|..].
      * intros Ho. exists (Row (t_epoch t) (Some (written o data p))). split; [|cbn; lia].
        rewrite list_lookup_insert_eq by (by eapply lookup_lt_Some). done.
      * intros Ho q [(_ & _ & ->)|[Hf _]]%current_insert; [|done]. cbn. by rewrite (O4 Ho _ Hp).
    + pose proof (Forall2_lookup_lr _ _ _ _ _ _ Hw Hj Hu2) as [O1 O2 O3 O4]. split; [done|by apply O2|..].
      * intros Ho. destruct (O3 Ho) as (x & Hxu & Hle). destruct (decide (t_row u = t_row t)) as [E|E].
        -- rewrite E in *. rewrite Hx in Hxu. injection Hxu as <-. exists (Row (t_epoch t) (Some (written o data p))).
           split; [|done]. rewrite list_lookup_insert_eq by (by eapply lookup_lt_Some). done.
        -- exists x. by rewrite list_lookup_insert_ne by done.
      * intros Ho q [(E1 & E2 & _)|[_ Hq]]%current_insert; [|by apply O4].
        destruct Hne. by eapply Hsingle.
  - eapply Forall2_impl; [exact Hrd|]. intros r key. by apply reader_written.
  - done.
Qed.

Lemma writer_closed rows w t : writer_ok rows w t → writer_ok rows (if t_open t then dead_writer w else w) (close t).
Proof. intros [H1 H2 H3 H4]. split; try done. cbn. by destruct (t_open t). Qed.

Lemma returns_release_call b n k e m o a (Q : reply * handles → world bloc → Prop) :
  stands (S n) e m a →
  (∀ w e', stands n e' (w_mem w) (promised (max_value_size g) o (Release k) a).2 →
     Q ((promised (max_value_size g) o (Release k) a).1, e') w) →
  returns (perform b (Release k) e) (World m o []) Q.
Proof using Hcap Hmax.
  clear Hcap Hmax. intros Hst HQ. cbn [perform promised] in *. pose proof Hst as [Hr Hl Hroom Hs Hw Hrd Hsingle].
  destruct (writers e !! k) as [w|] eqn:Ew.
  2: { step. destruct (tickets a !! k) as [t|] eqn:Et.
       - destruct (Forall2_lookup_r _ _ _ _ _ Hw Et) as (w & Hw' & _). congruence.
       - apply HQ. by eapply stands_same. }
  destruct (Forall2_lookup_l _ _ _ _ _ Hw Ew) as (t & Et & Hok). rewrite Et in HQ. step.
  eapply (returns_writer_release (rows a) w t); [done|done| |done|].
  { eapply epochs_mono; [|apply Hs]. lia. }
  intros m' o' ws' Hl' Hr'. lazy beta iota. step.
  assert (advances (rows a) (release o t (rows a)).2 ∧ sound (2 * Z.of_nat n) (release o t (rows a)).2) as [Ha Hs'].
  { assert (sound (2 * Z.of_nat n) (rows a)) as Hs0 by (eapply sound_mono; [|exact Hs]; lia).
    pose proof (advances_refl (rows a)) as Hr0. unfold release. repeat (case_bool; [by split|]).
    destruct (current (rows a) t) as [p|] eqn:Hp; [|by split]. cbn [snd].
    pose proof (current_row _ _ _ Hp) as Hx. pose proof (proj2 (post_at_row _ _ _ _) Hx) as Hpost.
    destruct (so_counts _ _ Hs _ _ _ Hpost) as [Hc0 Hcn]. split; [eapply advances_insert; [exact Hx|cbn; lia]|].
    eapply sound_insert; [eapply sound_mono; [|exact Hs]; lia|lia|exact Hx|done|cbn; lia|cbn; lia|].
    intros j e' q Hq Heq. by eapply (so_keys _ _ Hs). }
  destruct (release o t (rows a)) as [ec rows']. cbn [fst snd] in *. apply HQ. cbn [w_mem].
  destruct (stands_advance (S n) n e m m' a rows' Hst Ha Hr' Hl' ltac:(lia) Hs') as [H1 H2 H0 H3 H4 H5 H6].
  cbn [rows tickets watched writers readers] in *. split; cbn [rows tickets watched writers readers]; try done.
  - apply Forall2_insert; [done|]. apply writer_closed. exact (Forall2_lookup_lr _ _ _ _ _ _ H4 Ew Et).
  - intros j l u v Hu Hv Ou Ov Erow Eep.
    apply list_lookup_insert_Some in Hu as [(_ & <- & _)|[_ Hu]]; [done|].
    apply list_lookup_insert_Some in Hv as [(_ & <- & _)|[_ Hv]]; [done|]. by eapply H6.
Qed.

Lemma stands_observed n e m a r key :
  stands (S n) e m a → reader_ok (rows a) r key →
  stands n (Handles (writers e) (readers e ++ [r])) m (Contents (rows a) (tickets a) (watched a ++ [key])).
Proof using Type.
  clear Hcap Hmax. intros Hst Hok. pose proof (stands_same _ _ _ m _ Hst) as [H1 H2 H0 H3 H4 H5 H6]; [apply Hst..|].
  split; cbn; try done. by apply Forall2_app; [|constructor].
Qed.

Lemma simulates_board b :
  base_ b = true → geometry_ b = g → simulates (perform b) (promised (max_value_size g)) stands call_ok.
Proof using Hcap Hmax.
  intros Hb Hg n o c e m a Hst Hc. destruct c as [key node|k data|k|key|k|]; cbn [call_ok] in Hc.
  - eapply returns_declare_call; [done..|]. by intros w e' Hst'.
  - eapply returns_write_call; [done..|]. by intros w e' Hst'.
  - eapply returns_release_call; [done..|]. by intros w e' Hst'.
  - cbn [perform promised]. step. apply returns_try. unfold observe, require_open. rewrite Hb. known. do 2 step.
    destruct (check_key key) as [k|x] eqn:Ek; cbn [of_res].
    2: { apply wp_throw. step. split; [done|]. by eapply stands_same; [|apply Hst..]. }
    steps. split; [done|]. apply stands_observed; [done|]. rewrite Hg.
    split; cbn; try done; [by eapply check_key_ok|].
    intros j x E Hx%lookup_lt_Some. pose proof (proj1 (st_table _ _ _ _ Hst)). lia.
  - cbn [perform promised]. pose proof (st_readers _ _ _ _ Hst) as Hrd. destruct (readers e !! k) as [r|] eqn:Er.
    2: { step. destruct (watched a !! k) as [key|] eqn:Ek.
         - destruct (Forall2_lookup_r _ _ _ _ _ Hrd Ek) as (r & Hr' & _). congruence.
         - split; [done|]. by eapply stands_same; [|apply Hst..]. }
    destruct (Forall2_lookup_l _ _ _ _ _ Hrd Er) as (key & Ek & Hro). rewrite Ek. step.
    eapply (returns_read_vector (rows a) r key); [apply Hst|done|apply Hst|lia|..].
    { intros j e' p Hp. destruct (so_counts _ _ (st_sound _ _ _ _ Hst) _ _ _ Hp). lia. }
    intros r' Hro'. destruct (lookup_key key (rows a)) as [res value]. lazy beta iota. step. split; [done|].
    pose proof (stands_same _ _ _ m _ Hst (st_table _ _ _ _ Hst) (st_lock _ _ _ _ Hst)) as [H1 H2 H0 H3 H4 H5 H6].
    split; cbn [snd rows tickets watched writers readers]; try done.
    replace (watched a) with (<[k := key]> (watched a)) by (by apply list_insert_id). by apply Forall2_insert.
  - cbn [perform promised]. step. eapply (returns_board_sweep b (rows a)); [done|done|apply Hst|apply Hst|..].
    { eapply epochs_mono; [|apply (st_sound _ _ _ _ Hst)]. lia. }
    { unfold is_u32. change INVALID_SLOT with 4294967295 in *. lia. }
    intros m' o' ws' Hl' Hr'. lazy beta. step. split; [done|].
    eapply stands_advance; [exact Hst|apply advances_sweep|done|done|lia|].
    apply sound_sweep; [|lia]. eapply sound_mono; [|apply Hst]. lia.
Qed.
End rows.

(** ** A board just created *)

Definition empty_table (cap : Z) : table := replicate (Z.to_nat cap) (Row 0 None).

Lemma in_board_locs g i f : 0 <= i < capacity g → f ∈ [state; publish; tenancy; owner_pid; owner_starttime; key_hash; declared_at_ns] →
  Ent i f ∈ board_locs g.
Proof.
  intros Hi Hf. unfold board_locs. rewrite !elem_of_app. right. left. apply list_elem_of_bind.
  exists i. split; [|by apply elem_of_upto]. unfold entry_locs. rewrite !elem_of_app. left. by apply list_elem_of_fmap_2.
Qed.

Lemma returns_board_init cfg m o ws (Q : Geometry → world bloc → Prop) :
  let g := make_geometry (cfg_capacity cfg) (cfg_max_value_size cfg) in
  0 <= cfg_capacity cfg →
  (∀ m', table_shows g (empty_table (capacity g)) m' → m' (Hdr lock_token) = 0 → Q g (World m' o ws)) →
  returns (init_as_creator cfg) (World m o ws) Q.
Proof.
  intros g Hcap HQ. unfold init_as_creator. cbn zeta. fold g. step. apply returns_zero_locs. intros m1 Hz _.
  steps. apply HQ.
  - split; [unfold empty_table; rewrite length_replicate; cbn; lia|]. intros k x Hx.
    apply lookup_replicate in Hx as [-> Hk]. cbn in Hk.
    assert (∀ f, f ∈ [state; publish; tenancy; owner_pid; owner_starttime; key_hash; declared_at_ns] → m1 (Ent (Z.of_nat k) f) = 0) as Hf.
    { intros f Hf. apply Hz, in_board_locs; [cbn; lia|done]. }
    apply (row_shows_ext _ m1); [intros l Hl; rewrite !upd_ne; [done|by intros <-..]|].
    split; cbn; [apply Hf; set_solver|]. repeat split; apply Hf; set_solver.
  - mem. apply Hz. unfold board_locs. cbn. set_solver.
Qed.

Lemma stands_empty g k m :
  0 <= capacity g → table_shows g (empty_table (capacity g)) m → m (Hdr lock_token) = 0 →
  Z.of_nat k < 2305843009213693952 → stands g k (Handles [] []) m (Contents (empty_table (capacity g)) [] []).
Proof.
  intros Hcap Hr Hl Hk. split; cbn; try done; [|constructor..].
  assert (∀ j e p, post_at (empty_table (capacity g)) j = Some (e, p) → False) as Hnone.
  { intros j e p Hp%post_at_row. by apply lookup_replicate in Hp as [? _]. }
  split; [|by intros j e p []%Hnone|by intros j l e e' p q []%Hnone].
  intros j x Hx%lookup_replicate. destruct Hx as [-> _]. cbn. lia.
Qed.

Lemma plays_board g b cs e m a :
  base_ b = true → geometry_ b = g → 0 <= capacity g < INVALID_SLOT → 0 <= max_value_size g < 4294967296 →
  stands g (length cs) e m a → Forall (λ '(_, c), call_ok c) cs →
  plays (perform b) cs e m (λ replies e' m',
    replies = (promised_all (promised (max_value_size g)) cs a).1 ∧
    stands g 0 e' m' (promised_all (promised (max_value_size g)) cs a).2).
Proof.
  intros Hb Hg Hcap Hmax Hst Hcs.
  apply (plays_promised _ (promised (max_value_size g)) (stands g) call_ok cs 0);
    [by apply simulates_board|by rewrite Nat.add_0_r|done].
Qed.

(** ** Properties *)

(** C18. From any state in which a board stands for a table of posts, every sequence
    of declarations, writes, releases, observations, reads and sweeps by any
    processes, one call after the other, gives the replies the table gives, and
    the board stands for the table it ends with. *)
Theorem blackboard_refines_posts g b cs e m a :
  base_ b = true → geometry_ b = g → 0 <= capacity g < INVALID_SLOT → 0 <= max_value_size g < 4294967296 →
  stands g (length cs) e m a → Forall (λ '(_, c), call_ok c) cs →
  plays (perform b) cs e m (λ replies e' m',
    replies = (promised_all (promised (max_value_size g)) cs a).1 ∧
    stands g 0 e' m' (promised_all (promised (max_value_size g)) cs a).2).
Proof. apply plays_board. Qed.

(** C19. A board that [open_or_create] has just created is the empty table. *)
Theorem blackboard_from_creation `{Shm.SharedMemory bloc} kmsg_namespace name shm cfg owner cs m o :
  shm_name kmsg_namespace name = inl shm →
  0 < cfg_capacity cfg <= MAX_CAPACITY → 0 < cfg_max_value_size cfg <= MAX_VALUE_SIZE →
  Z.of_nat (length cs) < 2305843009213693952 → Forall (λ '(_, c), call_ok c) cs →
  (∀ w Q, Q true w → returns (Shm.shm_try_create (region_size (cfg_capacity cfg) (cfg_max_value_size cfg))) w Q) →
  returns (open_or_create kmsg_namespace name cfg owner) (World m o []) (λ b w',
    plays (perform b) cs (Handles [] []) (w_mem w') (λ replies _ _,
      replies = (promised_all (promised (cfg_max_value_size cfg)) cs
                   (Contents (empty_table (cfg_capacity cfg)) [] [])).1)).
Proof.
  unfold MAX_CAPACITY, MAX_VALUE_SIZE. intros Hname Hcap Hsize Hlen Hcs Hshm.
  unfold open_or_create, MAX_CAPACITY, MAX_VALUE_SIZE.
  rewrite (proj2 (Z.eqb_neq (cfg_capacity cfg) 0)), (proj2 (Z.ltb_ge _ (cfg_capacity cfg))) by lia.
  rewrite (proj2 (Z.eqb_neq (cfg_max_value_size cfg) 0)), (proj2 (Z.ltb_ge _ (cfg_max_value_size cfg))) by lia.
  cbn [orb]. rewrite Hname. cbn [of_res]. cbn zeta. do 2 step. step. apply Hshm. lazy beta iota. step.
  apply returns_board_init; cbn [cfg_capacity cfg_max_value_size]; [lia|]. set (g := make_geometry _ _).
  intros m' Hr Hl. step. cbn [w_mem]. eapply plays_mono.
  - apply (plays_board g _ cs (Handles [] []) m' (Contents (empty_table (capacity g)) [] []));
      [done|done|change INVALID_SLOT with 4294967295; cbn; lia|cbn; lia|apply stands_empty; [cbn; lia|done..]|done].
  - by intros replies e m2 [-> _].
Qed.

(** *** Examples *)

(** Processes 7 and 9; in [later], 7 is gone. *)
Definition now (caller : Z) : os :=
  Os 5000 1000 1700 caller (λ pid, if pid =? 7 then Some (5, false) else if pid =? 9 then Some (6, false) else None) 0.
Definition later (caller : Z) : os :=
  Os 9000 1000 1900 caller (λ pid, if pid =? 9 then Some (6, false) else None) 0.

Definition small_config : Config := {| cfg_capacity := 2; cfg_max_value_size := 4; cfg_identity := 0 |}.

Definition visit : list (os * call) :=
  [(now 9, Observe (Some (str "temp"))); (now 9, Read 0); (now 7, DeclareKey (Some (str "temp")) None);
   (now 9, Read 0); (now 7, Write 0 [1; 2; 3]); (now 9, Read 0);
   (now 9, DeclareKey (Some (str "temp")) None); (now 9, DeclareKey (Some (str "hum")) None);
   (now 9, DeclareKey (Some (str "wind")) None); (now 9, Write 0 [7]); (now 7, Write 0 [1; 2; 3; 4; 5]);
   (later 9, DeclareKey (Some (str "temp")) None); (later 9, Read 0); (later 9, Write 2 []); (later 9, Read 0);
   (now 7, Write 0 [6]); (later 9, Release 2); (later 9, Release 2); (later 9, Write 2 [8]); (later 9, Read 0);
   (now 7, Sweep); (later 9, Observe None); (later 9, Read 4)].

Definition reading (count stamp : Z) (value : list Z) : reply :=
  Reading {| ec := Ok; out_len := Z.of_nat (length value); out_updated_at_ns := stamp; out_update_count := count |} value.

Definition visit_replies : list reply :=
  [Observed; Reading (failed no_such_file_or_directory) []; KeyDeclared; Reading (failed no_message) [];
   Result Ok; reading 1 5000 [1; 2; 3];
   Thrown (Exn runtime_error "Blackboard key already owned by a live process: temp"); KeyDeclared;
   Thrown (Exn runtime_error "Blackboard is at capacity"); Result operation_not_permitted; Result message_size;
   KeyDeclared; reading 1 5000 [1; 2; 3]; Result Ok; reading 2 9000 []; Result state_not_recoverable;
   Result Ok; Result Ok; Result bad_file_descriptor; reading 2 9000 []; Swept 0;
   Thrown (Exn invalid_argument "Blackboard key must not be empty"); NoHandle].

Lemma visit_calls_ok : Forall (λ '(_, c), call_ok c) visit.
Proof.
  assert (∀ t, forallb (λ b, (1 <=? b) && (b <? 256)) (str t) = true → Forall (λ b, 1 <= b < 256) (str t)) as Ht.
  { intros t Hd. apply Forall_forall. intros b Hin. rewrite forallb_forall in Hd.
    specialize (Hd b (proj1 (list_elem_of_In _ _) Hin)). lia. }
  unfold visit. repeat (apply Forall_cons; split); try apply Forall_nil; cbn [call_ok text_ok]; try done.
  all: first [by apply Ht|repeat (apply Forall_cons; split); try apply Forall_nil; unfold is_u8; lia].
Qed.

(** An object that does not exist yet. *)
Definition absent_shm : Shm.SharedMemory bloc := {|
  Shm.shm_create := λ size, Ret size; Shm.shm_try_create := λ _, Ret true; Shm.shm_open := Ret 0;
  Shm.shm_try_open := Ret None; Shm.shm_unlink := Ret tt |}.

Lemma blackboard_from_creation_witness :
  returns (open_or_create (H := absent_shm) (str "ns") (str "env") small_config (str "node"))
    (World (λ _, 255) (now 7) [])
    (λ b w', plays (perform b) visit (Handles [] []) (w_mem w') (λ replies _ _, replies = visit_replies)).
Proof.
  eapply returns_mono.
  - refine (blackboard_from_creation (H := absent_shm) (str "ns") (str "env") (str "/ns_bb_env") small_config
      (str "node") visit (λ _, 255) (now 7) _ _ _ _ visit_calls_ok _).
    + vm_compute. reflexivity.
    + vm_compute. intuition congruence.
    + vm_compute. intuition congruence.
    + reflexivity.
    + intros w Q HQ. by apply returns_ret.
  - intros b w' Hp. eapply plays_mono; [exact Hp|]. intros replies e m ->. vm_compute. reflexivity.
Defined.

Definition small_board : board :=
  {| shm_open_ := true; name_ := []; owner_name_ := []; base_ := true; size_ := 1280;
     geometry_ := make_geometry 2 4 |}.

Lemma blackboard_refines_posts_witness :
  plays (perform small_board) visit (Handles [] []) (λ _, 0) (λ replies _ _, replies = visit_replies).
Proof.
  eapply plays_mono.
  - apply (blackboard_refines_posts (make_geometry 2 4) small_board visit (Handles [] []) (λ _, 0)
      (Contents (empty_table 2) [] [])).
    + reflexivity.
    + reflexivity.
    + vm_compute. intuition congruence.
    + vm_compute. intuition congruence.
    + apply (stands_empty (make_geometry 2 4)); [vm_compute; congruence| |reflexivity|reflexivity].
      split; [reflexivity|]. intros k x Hx%lookup_replicate. destruct Hx as [-> _]. by repeat split.
    + exact visit_calls_ok.
  - intros replies e m [-> _]. vm_compute. reflexivity.
Defined.
End Board.
