(* ===== verification/Crash.v ===== *)
(** * A board whose users crash

    A process may stop for ever at any step of any call.  The table the board
    then stands for is one of a few [aftermath]s of the call, and the next
    process that takes the lock finds it whole: whatever a crash tore is mended
    under the stolen lock. *)

From S2P Require Import Prelude Prog Conc Sessions Hash Types Layout Words Embedding Stopping Process Blackboard Board.
Import Blackboard Board.

Module Crash.
Implicit Types (m : bloc → Z) (o : os) (ws : list bloc) (i : Z) (x : row) (key : list Z) (rows : table).

(** ** What a crash leaves *)

(** A post under another owner. *)
Definition hired (p : post) (pid start : Z) : post :=
  Post (p_key p) pid start (p_count p) (p_value p) (p_stamp p).

(** The stages of sweeping a row. *)
Inductive fades o : row → row → Prop :=
  | Kept x : fades o x x
  | Retired e p : owner_dead o p = true → fades o (Row e (Some p)) (Row (e + 1) (Some p))
  | Removed e p : owner_dead o p = true → fades o (Row e (Some p)) (Row (e + 1) None).

(** The stages of claiming a row for [key], or of taking its post over. *)
Inductive claims o key : row → row → Prop :=
  | Reserved e : claims o key (Row e None) (Row (e + 1) None)
  | Posted e : claims o key (Row e None) (Row (e + 1) (Some (new_post o key)))
  | Restarted e p : takeable o p = true → p_key p = key →
      claims o key (Row e (Some p)) (Row e (Some (hired p (p_pid p) (Process.starttime_of o))))
  | Rehired e p : takeable o p = true → p_key p = key →
      claims o key (Row e (Some p)) (Row e (Some (owned_by o p)))
  | Taken e p : takeable o p = true → p_key p = key →
      claims o key (Row e (Some p)) (Row (e + 1) (Some (owned_by o p))).

(** The stages of releasing a post. *)
Inductive releases : row → row → Prop :=
  | Quit e p : releases (Row e (Some p)) (Row e (Some (hired p 0 (p_start p))))
  | Left e p : releases (Row e (Some p)) (Row e (Some (disowned p)))
  | Closed e p : releases (Row e (Some p)) (Row (e + 1) (Some (disowned p))).

Definition one_row (step : row → row → Prop) rows rows' : Prop :=
  ∃ k x x', rows !! k = Some x ∧ step x x' ∧ rows' = <[k := x']> rows.

(** The tables a process may leave that stops in a call. *)
Definition aftermath (limit : Z) o (c : call) (a : contents) rows' : Prop :=
  rows' = rows a ∨
  match c with
  | DeclareKey key _ => ∃ k mid, check_key key = inl k ∧ Forall2 (fades o) (rows a) mid ∧
      (rows' = mid ∨ one_row (claims o k) mid rows')
  | Write k data => ∃ t, tickets a !! k = Some t ∧ rows' = (write limit o t data (rows a)).2
  | Release k => ∃ t, tickets a !! k = Some t ∧
      ∃ x x', rows a !! t_row t = Some x ∧ r_epoch x = t_epoch t ∧ releases x x' ∧ rows' = <[t_row t := x']> (rows a)
  | Sweep => Forall2 (fades o) (rows a) rows'
  | Observe _ | Read _ => False
  end.

(** A dead process's handles are gone with it. *)
Definition bury_writer (pid : Z) (w : Writer) : Writer := if w_owner_pid_ w =? pid then dead_writer w else w.
Definition bury_ticket (pid : Z) (t : ticket) : ticket := if t_pid t =? pid then close t else t.
Definition bury (pid : Z) (e : handles) : handles := Handles (map (bury_writer pid) (writers e)) (readers e).
Definition buried (pid : Z) (a : contents) (rows' : table) : contents :=
  Contents rows' (map (bury_ticket pid) (tickets a)) (watched a).

(** The process table shows no such process, or a zombie. *)
Definition gone o (pid : Z) : Prop :=
  match os_procs o pid with None => True | Some (_, exited) => exited = true end.

(** ** Mending *)

(** What [normalize_entry] clears. *)
Definition torn m i : Prop :=
  m (Ent i state) = Claiming ∨
  (m (Ent i state) = Active ∧ m (Ent i key_hash) = 0) ∨
  (m (Ent i state) = Free ∧ (m (Ent i key_hash) ≠ 0 ∨ m (Ent i owner_pid) ≠ 0)).

Section mending.
Context (g : Geometry).

(** The row after mending. *)
Definition mends m i x : Prop :=
  shows g m i x ∨ (torn m i ∧ m (Ent i tenancy) = r_epoch x ∧ r_post x = None).

Definition table_mends rows m : Prop :=
  Z.of_nat (length rows) = capacity g ∧ ∀ k x, rows !! k = Some x → mends m (Z.of_nat k) x.

Lemma mends_ext m m' i x : (∀ l, entry_of l = Some i → m' l = m l) → mends m i x → mends m' i x.
Proof.
  intros Hm [Hx|(Ht & He & Hp)]; [left; by eapply row_shows_ext|right]. unfold torn in *. by rewrite !Hm.
Qed.

Lemma shown_mends rows m : table_shows g rows m → table_mends rows m.
Proof. intros [Hlen Hr]. split; [done|]. intros k x Hx. left. by apply Hr. Qed.

Lemma table_mends_header rows m f v : table_mends rows m → table_mends rows (<[Hdr f := v]> m).
Proof.
  intros [Hlen Hr]. split; [done|]. intros k x Hx. eapply mends_ext; [|by apply Hr].
  intros l Hl. apply upd_ne. by intros <-.
Qed.

Lemma returns_normalize_mends i m o ws x (Q : bool → world bloc → Prop) :
  mends m i x →
  (∀ m' b, (∀ l, entry_of l ≠ Some i → m' l = m l) → shows g m' i x → Q b (World m' o ws)) →
  returns (normalize_entry i) (World m o ws) Q.
Proof.
  intros [Hx|(Ht & He & Hp)] HQ; [eapply returns_normalize_entry; [exact Hx|by apply HQ]|].
  assert (∀ f1 f2 m', (∀ l, entry_of l ≠ Some i → <[Ent i f1 := 0]> (<[Ent i f2 := 0]> m') l = m' l)) as Hout.
  { intros f1 f2 m' l Hl. by rewrite !upd_ne by (intros <-; by apply Hl). }
  unfold normalize_entry, clear_identity. do 2 step.
  destruct Ht as [Hs|[[Hs Hh]|[Hs Hres]]]; rewrite Hs; known.
  - steps. apply HQ; [intros l Hl; by rewrite !upd_ne by (intros <-; by apply Hl)|].
    split; [by mem|]. rewrite Hp. by mem.
  - do 2 step. rewrite Hh. known. steps. apply HQ; [intros l Hl; by rewrite !upd_ne by (intros <-; by apply Hl)|].
    split; [by mem|]. rewrite Hp. by mem.
  - do 3 step.
    assert (∀ Q' : bool → world bloc → Prop, Q' true (World m o ws) →
      returns (if negb (m (Ent i key_hash) =? 0) then Ret true
               else p <- load (Ent i owner_pid) ;; Ret (negb (p =? 0))) (World m o ws) Q') as Hresidue.
    { intros Q' HQ'. destruct (Z.eqb_spec (m (Ent i key_hash)) 0) as [E|E]; cbn [negb]; [|by step].
      do 3 step. rewrite (proj2 (Z.eqb_neq _ 0)); [done|]. by destruct Hres. }
    apply Hresidue. lazy beta iota. steps. apply HQ; [intros l Hl; by rewrite !upd_ne by (intros <-; by apply Hl)|].
    split; [by mem|]. rewrite Hp. by mem.
Qed.

Lemma returns_repair rows m o ws (Q : unit → world bloc → Prop) :
  table_mends rows m → (∀ m', table_shows g rows m' → header_kept m m' → Q tt (World m' o ws)) →
  returns (repair_board (capacity g)) (World m o ws) Q.
Proof.
  intros [Hlen Hr] HQ. unfold repair_board.
  apply (returns_foreach _ _ _ _ _ (λ i _ w, ∃ m', w = World m' o ws ∧ header_kept m m' ∧
    ∀ k x, rows !! k = Some x → if decide (Z.of_nat k < i) then shows g m' (Z.of_nat k) x else mends m' (Z.of_nat k) x)).
  - exists m. split; [done|]. split; [done|]. intros k x Hx. rewrite decide_False by lia. by apply Hr.
  - intros i [] w Hi (m1 & -> & Hh & Hrows).
    destruct (lookup_lt_is_Some_2 rows (Z.to_nat i)) as [x Hx]; [lia|].
    pose proof (Hrows _ _ Hx) as Hm. rewrite Z2Nat.id, decide_False in Hm by lia.
    step. eapply returns_normalize_mends; [exact Hm|]. intros m2 b Hm2 Hs2. lazy beta. step.
    exists m2. split; [done|]. split; [eapply header_kept_trans; [exact Hh|by eapply row_header]|].
    intros k y Hy. specialize (Hrows _ _ Hy). destruct (decide (Z.of_nat k = i)) as [<-|Hne].
    + rewrite decide_True by lia. rewrite Nat2Z.id in Hx. by simplify_eq.
    + assert (∀ l, entry_of l = Some (Z.of_nat k) → m2 l = m1 l) as He by (intros l Hl; apply Hm2; congruence).
      destruct (decide (Z.of_nat k < i)).
      * rewrite decide_True by lia. by eapply row_shows_ext.
      * rewrite decide_False by lia. by eapply mends_ext.
  - intros [] w (m' & -> & Hh & Hrows). apply HQ; [|done]. split; [done|]. intros k x Hx. specialize (Hrows _ _ Hx).
    rewrite decide_True in Hrows; [done|]. apply lookup_lt_Some in Hx. lia.
Qed.

(** *** The lock of a dead process *)

Lemma token_pid_make pid start : 0 <= pid < 4294967296 → token_pid (make_token pid start) = pid.
Proof.
  intros Hpid. unfold token_pid, make_token. cbn zeta. set (fp := if _ =? 0 then 1 else _).
  change 4294967295 with (Z.ones 32). rewrite (Z.land_ones pid), (Z.mod_small pid) by lia.
  apply Z.bits_inj'. intros n Hn. rewrite Z.land_spec, Z.lor_spec.
  destruct (decide (n < 32)) as [Hlt|Hge].
  - rewrite Z.ones_spec_low by lia. unfold u64. change 18446744073709551616 with (2 ^ 64).
    rewrite Z.mod_pow2_bits_low, Z.shiftl_spec_low by lia. by rewrite andb_true_r.
  - rewrite Z.ones_spec_high by lia. rewrite andb_false_r. symmetry. apply Z.testbit_false; [done|].
    rewrite Z.div_small; [done|]. split; [lia|]. apply Z.lt_le_trans with (2 ^ 32); [lia|]. apply Z.pow_le_mono_r; lia.
Qed.

Lemma returns_holder_gone token pid m o ws (Q : bool → world bloc → Prop) :
  token_pid token = pid → pid ≠ 0 → gone o pid → Q true (World m o ws) →
  returns (token_holder_dead token) (World m o ws) Q.
Proof.
  unfold gone. intros Ht Hpid Hgone HQ. unfold token_holder_dead. cbn zeta. rewrite Ht.
  rewrite (proj2 (Z.eqb_neq pid 0)) by done. do 2 step. rewrite (proj2 (Z.eqb_neq pid 0)) by done. rewrite andb_true_r.
  destruct (os_procs o pid) as [[t exited]|] eqn:E.
  - rewrite bool_decide_eq_true_2 by eauto. cbn [negb]. do 2 step. rewrite (proj2 (Z.eqb_neq pid 0)) by done.
    rewrite E. cbn. subst exited. by step.
  - rewrite bool_decide_eq_false_2 by (by intros []). cbn [negb]. by step.
Qed.

(** Free with its table whole, or held by [pid], now gone, with a table to mend. *)
Definition recoverable (pid : Z) rows m : Prop :=
  (m (Hdr lock_token) = 0 ∧ table_shows g rows m) ∨
  (token_pid (m (Hdr lock_token)) = pid ∧ table_mends rows m).

Lemma wp_board_guard_recovers {A} (body : bool → bprog A) budget limit pid rows m o ws
    (Q : outcome A → world bloc → Prop) :
  recoverable pid rows m → pid ≠ 0 → gone o pid → 0 <= budget →
  (∀ token m', table_shows g rows m' →
    wp (body true) (World (<[Hdr lock_token := token]> m') (os_advance o (os_tick o)) ws) (λ out w',
     Q out (World (<[Hdr lock_token := 0]> (w_mem w')) (w_os w') (w_wakes w')))) →
  wp (board_guard (capacity g) budget limit body) (World m o ws) Q.
Proof.
  intros [[Hfree Hr]|[Htok Hr]] Hpid Hgone Hb Hbody; [apply wp_board_guard; [done|done|]; intros; by apply Hbody|].
  assert (m (Hdr lock_token) ≠ 0) as Hheld by (intros E; rewrite E in Htok; by apply Hpid).
  unfold board_guard, self_token. step. step. apply Process.returns_self_identity. lazy beta.
  step. set (token := make_token _ _). step. unfold board_lock. do 2 step. apply returns_loop_turn.
  assert ((negb (budget =? 0) && (budget <=? 0)) = false) as ->.
  { destruct (Z.eqb_spec budget 0); [done|]. cbn. apply Z.leb_gt. lia. }
  known. step. known. step. known. do 2 step. rewrite (proj2 (Z.eqb_neq _ 0)) by done. step.
  eapply returns_holder_gone; [exact Htok|done|exact Hgone|]. lazy beta. cbn [negb]. step.
  apply returns_cas; [|done]. intros _. lazy beta iota. step.
  apply (returns_repair rows); [by apply table_mends_header|]. intros m1 Hr1 Hh1. lazy beta. step. lazy beta iota.
  assert (<[Hdr lock_token := token]> m1 = m1) as Hsame.
  { apply functional_extensionality. intros l. destruct (decide (l = Hdr lock_token)) as [->|Hne].
    - mem. rewrite Hh1 by done. by mem.
    - by rewrite upd_ne. }
  specialize (Hbody token m1 Hr1). rewrite Hsame in Hbody.
  apply wp_bind_returns, returns_try. eapply wp_mono; [exact Hbody|].
  intros out [m' o' ws'] HQ. cbn [w_mem w_os w_wakes] in HQ. step. unfold board_unlock. step; [|done]. step.
  destruct out as [a|e]; lazy beta iota; [by apply wp_ret|by apply wp_throw].
Qed.

Lemma returns_sweep_recovers b pid rows m o ws (Q : Z → world bloc → Prop) :
  base_ b = true → geometry_ b = g → recoverable pid rows m → pid ≠ 0 → gone o pid → epochs_below 1 rows →
  is_u32 (capacity g) →
  (∀ m' o' ws', m' (Hdr lock_token) = 0 → table_shows g (sweep o rows) m' →
     Q (Z.of_nat (length (List.filter (swept o) rows))) (World m' o' ws')) →
  returns (sweep_stale b) (World m o ws) Q.
Proof.
  intros Hb Hg Hr Hpid Hgone Hep Hcap HQ. unfold sweep_stale, require_open. rewrite Hb, Hg. known. do 2 step. cbn zeta.
  eapply (wp_board_guard_recovers _ _ _ _ _ _ _ _ (λ out w', match out with Val a => Q a w' | Exc _ => False end));
    [exact Hr|done|done|lia|].
  intros token m' Hr'. known. by apply (wp_sweep_body g _ rows).
Qed.
End mending.

(** ** Where a call may stop *)

(** A program whose every stop satisfies an invariant, step by step. *)
Ltac go :=
  lazymatch goal with
  | |- through _ (bind _ _) _ _ => apply through_bind
  | |- through _ (Ret _) _ _ => apply through_ret
  | |- through _ (Throw _) _ _ => apply through_throw
  | |- through _ (throw _ _) _ _ => apply through_throw
  | |- through _ (load _) _ _ => apply through_load
  | |- through _ (store _ _) _ _ => apply through_store; [| |intros ?]
  | |- through _ monotonic_ns _ _ => apply through_monotonic
  | |- through _ (fetch_add _ _ _) _ _ => apply through_fetch_add; [| |intros ?]
  end; try done; lazy beta match.

(** Words no row depends on. *)
Definition loose (l : bloc) : bool :=
  match l with
  | Hdr lock_token => false
  | Hdr _ | NodeByte _ _ | Ent _ declared_at_ns => true
  | _ => false
  end.

Section stops.
Context (g : Geometry).

Lemma shows_loose m m' i x :
  (∀ l, entry_of l = Some i → loose l = false → m' l = m l) → shows g m i x → shows g m' i x.
Proof.
  intros Hm [Ht Hp]. split; [by rewrite Hm|]. destruct (r_post x) as [p|]; [|by rewrite !Hm].
  destruct Hp as [[H1 H2 H3 H4 H5 H6 H7] Hok]. split; [|done]. split; rewrite ?Hm by done; try done.
  - by rewrite (load_list_ext _ _ _ m' m) by (intros; by apply Hm).
  - intros Hc. destruct (H7 Hc) as (Ha & Hb & Hd). unfold cell_shows. rewrite !Hm by done.
    by rewrite (load_list_ext _ _ _ m' m) by (intros; by apply Hm).
Qed.

Lemma mends_loose m m' i x :
  (∀ l, entry_of l = Some i → loose l = false → m' l = m l) → mends g m i x → mends g m' i x.
Proof.
  intros Hm [Hx|(Ht & He & Hp)]; [left; by eapply shows_loose|right]. unfold torn in *. by rewrite !Hm.
Qed.

(** The lock is held, and the table can be mended to one of [S]. *)
Context (tok : Z) (S : table → Prop).

Definition held m : Prop := m (Hdr lock_token) = tok ∧ ∃ rows, S rows ∧ table_mends g rows m.

Lemma held_loose m m' : (∀ l, loose l = false → m' l = m l) → held m → held m'.
Proof.
  intros Hm [Hl (rows & HS & Hlen & Hr)]. split; [by rewrite Hm|]. exists rows. split; [done|]. split; [done|].
  intros k x Hx. eapply mends_loose; [|by apply Hr]. intros l _. by apply Hm.
Qed.

Lemma held_shown rows m : table_shows g rows m → S rows → m (Hdr lock_token) = tok → held m.
Proof. intros Hr HS Hl. split; [done|]. exists rows. split; [done|]. by apply shown_mends. Qed.

(** One row is being changed. *)
Lemma held_row rows (k : nat) x m0 m :
  table_shows g rows m0 → S (<[k := x]> rows) → m0 (Hdr lock_token) = tok →
  (∀ l, entry_of l ≠ Some (Z.of_nat k) → loose l = false → m l = m0 l) → mends g m (Z.of_nat k) x → held m.
Proof.
  intros [Hlen Hr] HS Hl Hm Hx. split; [by rewrite Hm|]. exists (<[k := x]> rows). split; [done|].
  split; [by rewrite length_insert|]. intros j y Hj.
  apply list_lookup_insert_Some in Hj as [(<- & <- & _)|[Hne Hj]]; [done|].
  eapply mends_loose; [|left; by apply Hr]. intros l He. apply Hm. rewrite He. intros [= E]. lia.
Qed.

Lemma through_normalize (I : (bloc → Z) → Prop) i x m o ws (Q : outcome bool → world bloc → Prop) :
  shows g m i x → I m → Q (Val false) (World m o ws) → through I (normalize_entry i) (World m o ws) Q.
Proof.
  intros [_ Hx] HI HQ. unfold normalize_entry. go. go. destruct (r_post x) as [p|].
  - destruct Hx as [[Hs Hh _ _ _ _ _] _]. rewrite Hs. change (Active =? Claiming) with false.
    change (Active =? Active) with true. cbn [negb]. go. go. rewrite Hh.
    rewrite (proj2 (Z.eqb_neq _ 0)) by apply fingerprint_nonzero. by go.
  - destruct Hx as (Hs & Hh & Hp). rewrite Hs. change (Free =? Claiming) with false.
    change (Free =? Active) with false. change (Free =? Free) with true. lazy iota. go. go. rewrite Hh.
    change (negb (0 =? 0)) with false. lazy iota. do 3 go. rewrite Hp. go. change (negb (0 =? 0)) with false. lazy iota. by go.
Qed.

(** Reading the process table. *)
Lemma through_owner_is_dead (I : (bloc → Z) → Prop) pid start m o ws (Q : outcome bool → world bloc → Prop) :
  I m → Q (Val (Process.dead_verdict (os_procs o) pid start)) (World m o ws) →
  through I (Process.owner_is_dead pid start) (World m o ws) Q.
Proof.
  intros HI HQ. apply (through_pure _ _ _ _ _ (λ _, True) (λ _, False)); [|done|].
  - unfold Process.owner_is_dead. by tames.
  - by apply returns_wp, Process.returns_owner_is_dead.
Qed.

Lemma through_sweep_entry rows (k : nat) x m o ws (Q : outcome bool → world bloc → Prop) :
  table_shows g rows m → rows !! k = Some x → m (Hdr lock_token) = tok →
  0 <= r_epoch x → r_epoch x + 1 < 18446744073709551616 → S rows →
  (∀ e p, x = Row e (Some p) → owner_dead o p = true →
     S (<[k := Row (e + 1) (Some p)]> rows) ∧ S (<[k := Row (e + 1) None]> rows)) →
  wp (sweep_entry (Z.of_nat k)) (World m o ws) Q → through held (sweep_entry (Z.of_nat k)) (World m o ws) Q.
Proof.
  intros Hr Hx Hl Hlo Hhi HS Hrow Hp. apply through_and; [|exact Hp]. clear Hp Q.
  pose proof (proj2 Hr _ _ Hx) as Hs. set (i := Z.of_nat k) in *.
  assert (held m) as Hheld by (by eapply held_shown).
  unfold sweep_entry. go. eapply through_normalize; [exact Hs|done|]. lazy beta match. go. go.
  destruct x as [e [p|]]; fields.
  2: { destruct Hs as [_ (_ & _ & Hpid)]. rewrite Hpid. change (0 =? 0) with true. lazy iota. by go. }
  destruct Hs as [Ht [Hs Hok]]. pose proof Hs as [H1 H2 H3 H4 H5 H6 H7]. fields. rewrite H4.
  destruct (p_pid p =? 0); [by go|]. go. go. rewrite H5. go. apply through_owner_is_dead; [done|]. lazy beta match.
  fold (owner_dead o p). destruct (owner_dead o p) eqn:Ed; cbn [negb]; [|by go].
  destruct (Hrow e p eq_refl Ed) as [S1 S2]. go.
  assert (u64 (m (Ent i tenancy) + 1) = e + 1) as Ht1 by (rewrite Ht; apply u64_small; unfold is_u64; lia).
  assert (∀ m', (∀ l, entry_of l ≠ Some i → loose l = false → m' l = m l) → m' (Ent i tenancy) = e + 1 →
    m' (Ent i state) = Active → m' (Ent i key_hash) = 0 → held m') as Htorn.
  { intros m' Hm' Htm Hst Hkh. eapply (held_row rows k (Row (e + 1) None)); [exact Hr|done|done|exact Hm'|].
    right. split; [by right; left|]. done. }
  assert (∀ f v m', (∀ l, entry_of l ≠ Some i → loose l = false → m' l = m l) →
    (∀ l, entry_of l ≠ Some i → loose l = false → <[Ent i f := v]> m' l = m l)) as Hout.
  { intros f v m' Hm' l He Hlo'. rewrite upd_ne by (intros <-; by apply He). by apply Hm'. }
  go.
  { eapply (held_row rows k (Row (e + 1) (Some p))); [exact Hr|done|done|by apply Hout|]. left. split; [by mem|].
    fields. split; [|done]. split; mem; try done. }
  rewrite Ht1 in *. unfold publish_free, clear_identity. do 3 go. go.
  { apply Htorn; [by do 2 apply Hout|by mem..]. }
  go. go.
  { apply Htorn; [by do 3 apply Hout|by mem..]. }
  go.
  { apply Htorn; [by do 4 apply Hout|by mem..]. }
  go; [|by go].
  eapply (held_row rows k (Row (e + 1) None)); [exact Hr|done|done|by do 5 apply Hout|]. left. split; [by mem|].
  fields. split_and!; by mem.
Qed.

(** *** Taking a post over *)

Lemma tame_copy_field i src : tame (λ l, loose l = true) (copy_field i src) (λ _, True) (λ _, False).
Proof.
  unfold copy_field. tame_by (by apply tame_memset). intros _ _.
  destruct src; [by apply tame_memcpy_in|by apply tame_ret].
Qed.

Lemma tame_notify : tame (λ l, loose l = true) notify_change (λ _, True) (λ _, False).
Proof.
  unfold notify_change. tame_with (λ _ : Z, True).
  { apply tame_act; [by intros r l [= <-]|done]. }
  intros _ _. tames; [|done]. apply tame_act; [done|by intros []].
Qed.

(** A part that no row depends on. *)
Lemma through_loose {A} (p : bprog A) m o ws (Q : outcome A → world bloc → Prop) :
  tame (λ l, loose l = true) p (λ _, True) (λ _, False) → held m →
  wp p (World m o ws) (λ r w', held (w_mem w') → Q r w') → through held p (World m o ws) Q.
Proof.
  intros Ht HI Hp. eapply through_within; [exact Ht| |].
  - intros m' Hm'. eapply held_loose; [|exact HI]. intros l Hl. apply Hm'. by rewrite Hl.
  - pose proof (wp_det _ _ _ _ Hp (wp_tame _ _ _ _ _ Ht)) as Hboth. eapply wp_mono; [exact Hboth|].
    intros r w' [HQ (_ & _ & Hm)]. apply HQ. eapply held_loose; [|exact HI]. intros l Hl. apply Hm. by rewrite Hl.
Qed.

Lemma through_take_over b key node rows (k : nat) x m o ws (Q : outcome (option Writer) → world bloc → Prop) :
  table_shows g rows m → rows !! k = Some x → m (Hdr lock_token) = tok → key_ok key →
  0 <= r_epoch x → r_epoch x + 1 < 18446744073709551616 → S rows →
  (∀ x', claims o key x x' → vacant x = false → S (<[k := x']> rows)) →
  wp (take_over b (Process.identity_of o) key node (Z.of_nat k)) (World m o ws) Q →
  through held (take_over b (Process.identity_of o) key node (Z.of_nat k)) (World m o ws) Q.
Proof.
  intros Hr Hx Hl Hkey Hlo Hhi HS Hrow Hp. apply through_and; [|exact Hp]. clear Hp Q.
  pose proof (proj2 Hr _ _ Hx) as Hs. set (i := Z.of_nat k) in *.
  assert (held m) as Hheld by (by eapply held_shown).
  unfold take_over. cbn zeta. go. go. destruct x as [e [p|]]; fields.
  2: { destruct Hs as [_ (Hst & _)]. rewrite Hst. change (Free =? Active) with false. cbn [negb]. by go. }
  pose proof Hs as [Ht [[H1 H2 H3 H4 H5 H6 H7] Hok]]. fields. rewrite H1. change (Active =? Active) with true. cbn [negb].
  go. go. rewrite H2. destruct (Z.eqb_spec (key_fingerprint (p_key p)) (key_fingerprint key)); cbn [negb]; [|by go].
  go. unfold key_matches. eapply (through_pure _ _ _ _ _ (λ _, True) (λ _, False));
    [unfold key_equals; tame_by apply tame_load_words; intros; by tames|done|].
  apply returns_wp. eapply returns_key_equals; [exact H3|apply Hok|done|]. lazy beta match.
  case_bool_decide as Ek; cbn [negb]; [|by go]. do 4 go. rewrite H4, H5. go.
  assert (∀ Q' : outcome bool → world bloc → Prop, Q' (Val (takeable o p)) (World m o ws) →
    through held (entry_takeable (p_pid p) (p_start p)) (World m o ws) Q') as Htk.
  { intros Q' HQ'. unfold entry_takeable, takeable in *. destruct (p_pid p =? 0); [by go|]. by apply through_owner_is_dead. }
  apply Htk. lazy beta match. destruct (takeable o p) eqn:Etk; cbn [negb]; [|by go].
  pose proof (λ x' Hc, Hrow x' Hc eq_refl) as HSx. clear Hrow.
  go. apply through_loose; [apply tame_copy_field|done|]. apply returns_wp, returns_copy_field.
  intros m1 Hm1. cbn [w_mem]. intros Hh1. lazy beta match.
  assert (shows g m1 i (Row e (Some p))) as Hs1.
  { eapply shows_loose; [|exact Hs]. intros l _ Hl'. apply Hm1. by intros j ->. }
  assert (∀ l, entry_of l ≠ Some i → loose l = false → m1 l = m l) as Hout1.
  { intros l _ Hl'. apply Hm1. by intros j ->. }
  pose proof Hs1 as [T1 [[G1 G2 G3 G4 G5 G6 G7] _]]. fields.
  assert (∀ f v m', (∀ l, entry_of l ≠ Some i → loose l = false → m' l = m l) →
    (∀ l, entry_of l ≠ Some i → loose l = false → <[Ent i f := v]> m' l = m l)) as Hout.
  { intros f v m' Hm' l He Hlo'. rewrite upd_ne by (intros <-; by apply He). by apply Hm'. }
  go. go.
  { eapply (held_row rows k (Row e (Some (hired p (p_pid p) (Process.starttime_of o)))));
      [exact Hr|apply HSx; by constructor|done|by apply Hout|]. left. split; [by mem|].
    fields. split; [|done]. split; mem; try done. }
  go. go.
  { eapply (held_row rows k (Row e (Some (owned_by o p))));
      [exact Hr|apply HSx; by constructor|done|by do 2 apply Hout|]. left. split; [by mem|].
    fields. split; [|done]. split; mem; try done. }
  go. go.
  { eapply (held_row rows k (Row (e + 1) (Some (owned_by o p))));
      [exact Hr|apply HSx; by constructor|done|by do 3 apply Hout|]. left.
    split; [mem; rewrite T1; cbn; apply u64_small; unfold is_u64; lia|].
    fields. split; [|done]. split; mem; try done. }
  go. go. go. apply through_loose; [apply tame_notify|done|]. apply returns_wp, returns_notify.
  intros m2 ws2 Hm2. cbn [w_mem]. intros Hh2. lazy beta match. by go.
Qed.

(** *** Claiming a row *)

Lemma through_claim_entry key node rows (k : nat) x m o ws (Q : outcome bool → world bloc → Prop) :
  table_shows g rows m → rows !! k = Some x → m (Hdr lock_token) = tok → key_ok key → 0 <= max_value_size g →
  0 <= r_epoch x → r_epoch x + 1 < 18446744073709551616 → S rows →
  (∀ x', claims o key x x' → vacant x = true → S (<[k := x']> rows)) →
  wp (claim_entry (Process.identity_of o) key node (Z.of_nat k)) (World m o ws) Q →
  through held (claim_entry (Process.identity_of o) key node (Z.of_nat k)) (World m o ws) Q.
Proof.
  intros Hr Hx Hl Hkey Hmax Hlo Hhi HS Hrow Hp. apply through_and; [|exact Hp]. clear Hp Q.
  pose proof (proj2 Hr _ _ Hx) as Hs. set (i := Z.of_nat k) in *.
  assert (held m) as Hheld by (by eapply held_shown).
  unfold claim_entry. go. go. destruct x as [e [p|]]; fields.
  { destruct Hs as [_ [[H1 _ _ _ _ _ _] _]]. rewrite H1. change (Active =? Free) with false. cbn [negb]. by go. }
  destruct Hs as [Ht (Hst & _ & _)]. fields. rewrite Hst. change (Free =? Free) with true. cbn [negb].
  assert (∀ m' x', (∀ l, entry_of l ≠ Some i → loose l = false → m' l = m l) → m' (Ent i state) = Claiming →
    m' (Ent i tenancy) = r_epoch x' → r_post x' = None → S (<[k := x']> rows) → held m') as Htorn.
  { intros m' x' Hm' Hcl Htn Hpost HS'. eapply (held_row rows k x'); [exact Hr|done|done|exact Hm'|].
    right. split; [by left|done]. }
  assert (∀ f v m', (∀ l, entry_of l ≠ Some i → loose l = false → m' l = m l) →
    (∀ l, entry_of l ≠ Some i → loose l = false → <[Ent i f := v]> m' l = m l)) as Hout.
  { intros f v m' Hm' l He Hlo'. rewrite upd_ne by (intros <-; by apply He). by apply Hm'. }
  assert (S (<[k := Row e None]> rows)) as HS0 by (by rewrite list_insert_id).
  go. go. { eapply (Htorn _ (Row e None)); [by apply Hout|by mem|by mem|done|exact HS0]. }
  go. go. { eapply (Htorn _ (Row e None)); [by do 2 apply Hout|by mem|by mem|done|exact HS0]. }
  set (m0 := <[Ent i publish := 0]> (<[Ent i state := Claiming]> m)) in *.
  assert (∀ l, entry_of l ≠ Some i → loose l = false → m0 l = m l) as Hout0 by (by do 2 apply Hout).
  assert (m0 (Ent i state) = Claiming ∧ m0 (Ent i tenancy) = e ∧ m0 (Ent i publish) = 0) as (C0 & T0 & P0)
    by (unfold m0; split_and!; by mem).
  clearbody m0. unfold bb_store_key. go. apply (through_within _ (λ l, ∃ j, l = KeyWord i j) _ _ (λ _, True) (λ _, False)).
  { apply tame_store_words. eauto. }
  { cbn [w_mem]. intros m' Hm'. eapply (Htorn _ (Row e None)); [|rewrite Hm' by (by intros []); exact C0|rewrite Hm' by (by intros []); exact T0|done|exact HS0].
    intros l He Hlo'. rewrite Hm' by (by intros [j ->]). by apply Hout0. }
  apply returns_wp, returns_store_words. cbn [set_mem w_mem w_os w_wakes]. set (m1 := store_list _ _ _ _).
  assert (∀ l, (∀ j, l ≠ KeyWord i j) → m1 l = m0 l) as Hm1 by (intros; by apply store_list_other).
  assert (load_list (KeyWord i) 0 16 m1 = words_of (key_bytes key)) as Hkw.
  { unfold m1. replace 16%nat with (length (words_of (key_bytes key)))
      by (rewrite length_words_of, length_key_bytes by done; done). apply load_store_list. by intros ? ? [=]. }
  lazy beta match. go.
  assert (held m1) as Hh1.
  { eapply (Htorn _ (Row e None)); [|by rewrite Hm1|by rewrite Hm1|done|exact HS0].
    intros l He Hlo'. rewrite Hm1 by (by intros j ->). by apply Hout0. }
  apply through_loose; [apply tame_copy_field|done|].
  apply returns_wp, returns_copy_field. intros m2 Hm2. cbn [w_mem]. intros Hh2. lazy beta match.
  assert (∀ l, entry_of l ≠ Some i → loose l = false → m2 l = m l) as Hout2.
  { intros l He Hlo'. rewrite Hm2 by (by intros j ->). rewrite Hm1 by (by intros j ->). by apply Hout0. }
  assert (m2 (Ent i state) = Claiming ∧ m2 (Ent i tenancy) = e ∧ m2 (Ent i publish) = 0) as (C2 & T2 & P2)
    by (rewrite !Hm2, !Hm1 by done; done).
  assert (load_list (KeyWord i) 0 16 m2 = words_of (key_bytes key)) as Hkw2.
  { erewrite load_list_ext; [exact Hkw|]. intros j _. by apply Hm2. }
  clearbody m1. clear Hm1 Hm2 Hkw Hh1 C0 T0 P0 Hout0. cbn [Process.identity_of Process.self_pid Process.self_starttime].
  cbn [w_mem w_os w_wakes]. go. go. go. go. { eapply (Htorn _ (Row e None)); [by apply Hout|by mem|by mem|done|exact HS0]. }
  go. go. { eapply (Htorn _ (Row e None)); [by do 2 apply Hout|by mem|by mem|done|exact HS0]. }
  go. go. { eapply (Htorn _ (Row e None)); [by do 3 apply Hout|by mem|by mem|done|exact HS0]. }
  go. go. { eapply (Htorn _ (Row e None)); [by do 4 apply Hout|by mem|by mem|done|exact HS0]. }
  go. go.
  { eapply (Htorn _ (Row (e + 1) None)); [by do 5 apply Hout|by mem| |done|apply Hrow; [by constructor|done]].
    mem. rewrite T2. fields. apply u64_small. unfold is_u64. lia. }
  go. go; [|by go].
  eapply (held_row rows k (Row (e + 1) (Some (new_post o key))));
    [exact Hr|apply Hrow; [by constructor|done]|done|by do 6 apply Hout|]. left.
  split; [mem; rewrite T2; fields; apply u64_small; unfold is_u64; lia|]. fields.
  split; [split; fields; mem; try done|by split; [done|split; [constructor|cbn; lia]]].
  fold i. by rewrite P2.
Qed.

(** *** Releasing *)

Lemma through_release_locked rows t x m o ws (Q : outcome errc → world bloc → Prop) :
  table_shows g rows m → rows !! t_row t = Some x → m (Hdr lock_token) = tok →
  0 <= r_epoch x → r_epoch x + 1 < 18446744073709551616 → S rows →
  (∀ x', releases x x' → r_epoch x = t_epoch t → S (<[t_row t := x']> rows)) →
  wp (release_locked (Z.of_nat (t_row t)) (t_epoch t)) (World m o ws) Q →
  through held (release_locked (Z.of_nat (t_row t)) (t_epoch t)) (World m o ws) Q.
Proof.
  intros Hr Hx Hl Hlo Hhi HS Hrow Hp. apply through_and; [|exact Hp]. clear Hp Q.
  pose proof (proj2 Hr _ _ Hx) as Hs. set (i := Z.of_nat (t_row t)) in *.
  assert (held m) as Hheld by (by eapply held_shown).
  unfold release_locked. go. go. destruct x as [e [p|]]; fields.
  2: { destruct Hs as [_ (Hst & _)]. rewrite Hst. change (Free =? Active) with false. lazy iota. do 2 go. cbn [negb]. by go. }
  destruct Hs as [Ht [[H1 H2 H3 H4 H5 H6 H7] Hok]]. fields. rewrite H1. change (Active =? Active) with true. lazy iota.
  do 3 go. rewrite Ht. go. destruct (Z.eqb_spec e (t_epoch t)) as [He|]; cbn [negb]; [|by go].
  pose proof (λ x' Hc, Hrow x' Hc He) as HSx. clear Hrow.
  assert (∀ f v m', (∀ l, entry_of l ≠ Some i → loose l = false → m' l = m l) →
    (∀ l, entry_of l ≠ Some i → loose l = false → <[Ent i f := v]> m' l = m l)) as Hout.
  { intros f v m' Hm' l He' Hlo'. rewrite upd_ne by (intros <-; by apply He'). by apply Hm'. }
  go. go.
  { eapply (held_row rows (t_row t) (Row e (Some (hired p 0 (p_start p)))));
      [exact Hr|apply HSx; constructor|done|by apply Hout|]. left. split; [by mem|].
    fields. split; [|done]. split; mem; try done. }
  go. go.
  { eapply (held_row rows (t_row t) (Row e (Some (disowned p))));
      [exact Hr|apply HSx; constructor|done|by do 2 apply Hout|]. left. split; [by mem|].
    fields. split; [|done]. split; mem; try done. }
  go. go.
  { eapply (held_row rows (t_row t) (Row (e + 1) (Some (disowned p))));
      [exact Hr|apply HSx; constructor|done|by do 3 apply Hout|]. left.
    split; [mem; fold i; rewrite Ht; fields; apply u64_small; unfold is_u64; lia|].
    fields. split; [|done]. split; mem; try done. }
  go. apply through_loose; [apply tame_notify|done|]. apply returns_wp, returns_notify.
  intros m2 ws2 Hm2. cbn [w_mem]. intros Hh2. lazy beta match. by go.
Qed.

(** *** Sweeping the table *)

Lemma fades_insert o rows mid (k : nat) x x' :
  Forall2 (fades o) rows mid → rows !! k = Some x → fades o x x' → Forall2 (fades o) rows (<[k := x']> mid).
Proof.
  intros Hf Hx Hx'. rewrite <- (list_insert_id rows k x) by done. by apply Forall2_insert.
Qed.

Lemma fades_refl o rows : Forall2 (fades o) rows rows.
Proof. apply Forall_Forall2_diag, Forall_true. intros x. constructor. Qed.

Lemma fades_partial o rows k : Forall2 (fades o) rows (sweep o (take k rows) ++ drop k rows).
Proof.
  rewrite <- (take_drop k rows) at 1. apply Forall2_app; [|apply fades_refl]. unfold sweep. apply Forall2_fmap_r.
  apply Forall_Forall2_diag, Forall_true. intros [e [p|]]; unfold swept_row; cbn; [|constructor].
  destruct (owner_dead o p) eqn:E; by constructor.
Qed.

Lemma through_sweep_locked rows m o ws (Q : outcome Z → world bloc → Prop) :
  table_shows g rows m → m (Hdr lock_token) = tok → epochs_below 1 rows →
  (∀ mid, Forall2 (fades o) rows mid → S mid) →
  wp (sweep_locked (capacity g)) (World m o ws) Q → through held (sweep_locked (capacity g)) (World m o ws) Q.
Proof.
  intros Hr Hl Hep HS Hp. apply through_and; [|exact Hp]. clear Hp Q. pose proof (table_length _ _ _ Hr) as Hlen.
  unfold sweep_locked.
  apply (through_foreach _ _ _ _ _ _ (λ i freed w, ∃ m', w = World m' o ws ∧ m' (Hdr lock_token) = tok ∧
    table_shows g (sweep o (take (Z.to_nat i) rows) ++ drop (Z.to_nat i) rows) m')); [by exists m| | |done].
  { intros i freed w (m' & -> & Hl' & Hr'). eapply held_shown; [exact Hr'|apply HS, fades_partial|done]. }
  intros i freed w Hi (m1 & -> & Hl1 & Hr1). set (k := Z.to_nat i) in *.
  destruct (lookup_lt_is_Some_2 rows k) as [x Hx]; [lia|].
  set (mid := sweep o (take k rows) ++ drop k rows) in *.
  assert (mid !! k = Some x) as Hx'.
  { unfold mid. rewrite lookup_app_r; unfold sweep; rewrite length_map, length_take; [|lia].
    rewrite lookup_drop. rewrite <- Hx. f_equal. lia. }
  destruct (Hep _ _ Hx) as [Hlo Hhi]. replace i with (Z.of_nat k) by lia. apply through_bind.
  eapply (through_sweep_entry mid k x); [exact Hr1|done|done|done|done|apply HS, fades_partial|..].
  { intros e p -> Hd. split; apply HS; (eapply fades_insert; [apply fades_partial|exact Hx|by constructor]). }
  eapply (returns_sweep_entry _ _ _ _ _ x); [by apply Hr1|done|done|]. intros m' Hm' Hs'. go.
  - eapply held_shown; [eapply table_row; [exact Hr1|exact Hm'|exact Hs']| |rewrite Hm' by done; exact Hl1].
    unfold mid. rewrite (swept_prefix o rows k x Hx). apply HS, fades_partial.
  - exists m'. split; [done|]. split; [by rewrite Hm'|].
    replace (Z.to_nat (Z.of_nat k + 1)) with (Datatypes.S k) by lia.
    rewrite <- (swept_prefix _ _ _ x) by done. by eapply table_row.
Qed.

(** *** Declaring *)

Lemma through_claim_free_slot key node rows m o ws (Q : outcome Z → world bloc → Prop) :
  table_shows g rows m → m (Hdr lock_token) = tok → epochs_below 1 rows → key_ok key → 0 <= max_value_size g →
  S rows → (∀ k x x', rows !! k = Some x → claims o key x x' → vacant x = true → S (<[k := x']> rows)) →
  wp (claim_free_slot (capacity g) (Process.identity_of o) key node) (World m o ws) Q →
  through held (claim_free_slot (capacity g) (Process.identity_of o) key node) (World m o ws) Q.
Proof.
  intros Hr Hl Hep Hk Hmax HS Hcl Hp. apply through_and; [|exact Hp]. clear Hp Q.
  pose proof (table_length _ _ _ Hr) as Hlen. assert (held m) as Hheld by (by eapply held_shown).
  unfold claim_free_slot. apply through_bind.
  apply (through_for _ _ _ _ _ _ (λ i _ w, w = World m o ws)); [done|by intros i [] w ->|..].
  - intros i [] w Hi ->. destruct (lookup_lt_is_Some_2 rows (Z.to_nat i)) as [x Hx]; [lia|].
    pose proof (proj2 Hr _ _ Hx) as Hs. destruct (Hep _ _ Hx) as [Hlo Hhi].
    replace i with (Z.of_nat (Z.to_nat i)) by lia. set (k := Z.to_nat i) in *.
    apply through_bind. apply through_end. eapply (through_claim_entry key node rows k x);
      [exact Hr|done|done|done|done|done|done|done|intros x' Hc Hv; by eapply Hcl|].
    apply returns_wp. eapply returns_claim_entry; [exact Hs|done|done|done|done|..].
    + intros Hv Hh. lazy beta iota. by go.
    + intros m' Hv Hm' Hs' o' _ Hh. lazy beta iota. go. split; [done|]. by go.
  - intros [] w ->. by go.
Qed.

Lemma through_declare_locked b key node rows m o ws (Q : outcome Writer → world bloc → Prop) :
  geometry_ b = g → table_shows g rows m → m (Hdr lock_token) = tok → epochs_below 2 rows → key_ok key →
  0 <= max_value_size g → 0 <= capacity g < INVALID_SLOT →
  (∀ mid, Forall2 (fades o) rows mid → S mid) →
  (∀ mid k x x', Forall2 (fades o) rows mid → mid !! k = Some x → claims o key x x' →
     (vacant x = true → first_index (holds_key key) rows = None) → S (<[k := x']> mid)) →
  wp (declare_locked b (Process.identity_of o) key node) (World m o ws) Q →
  through held (declare_locked b (Process.identity_of o) key node) (World m o ws) Q.
Proof.
  intros Hg Hr Hl Hep Hk Hmax Hcap HS Hcl Hp. apply through_and; [|exact Hp]. clear Hp Q.
  pose proof (table_length _ _ _ Hr) as Hlen.
  assert (held m) as Hheld by (eapply held_shown; [exact Hr|apply HS, fades_refl|done]).
  unfold declare_locked. cbn zeta. rewrite Hg. apply through_bind.
  apply (through_for _ _ _ _ _ _ (λ i _ w, w = World m o ws ∧
    ∀ j y, (j < Z.to_nat i)%nat → rows !! j = Some y → holds_key key y = false)).
  { split; [done|]. intros j y Hj. lia. }
  { by intros i [] w [-> _]. }
  { intros i [] w Hi [-> Hbefore]. destruct (lookup_lt_is_Some_2 rows (Z.to_nat i)) as [x Hx]; [lia|].
    pose proof (proj2 Hr _ _ Hx) as Hs. destruct (Hep _ _ Hx) as [Hlo Hhi].
    replace i with (Z.of_nat (Z.to_nat i)) by lia. set (k := Z.to_nat i) in *.
    apply through_bind. apply through_end. eapply (through_take_over b key node rows k x);
      [exact Hr|done|done|done|done|lia|apply HS, fades_refl|..].
    { intros x' Hc Hv. eapply Hcl; [apply fades_refl|exact Hx|done|congruence]. }
    eapply wp_take_over; [done|exact Hs|done|done|lia|..].
    - intros Hv Hh. lazy beta iota. go. split; [done|]. intros j y Hj Hy.
      destruct (decide (j = k)) as [->|Hne]; [congruence|]. apply (Hbefore j); [lia|done].
    - intros e p -> Hkey Htk Hh. done.
    - intros e p m' ws' -> Hkey Htk Hm' Hs' Hh. lazy beta iota. go. split; [done|]. by go. }
  intros [] w [-> Hall]. lazy beta iota.
  assert (first_index (holds_key key) rows = None) as Hnone.
  { apply first_index_none. intros j y Hy. apply (Hall j); [|done]. apply lookup_lt_Some in Hy. lia. }
  assert (∀ (v : Z) mm oo wws, held mm → through held (if negb (v =? INVALID_SLOT) then
      t <- load (Ent v tenancy) ;; notify_change ;;
      Ret {| w_base_ := true; w_geometry_ := g; w_entry_idx_ := v; w_tenancy_ := t; w_writes_ := 0;
             w_owner_pid_ := Process.self_pid (Process.identity_of o); w_key_ := key |}
    else throw runtime_error "Blackboard is at capacity") (World mm oo wws) (λ _ _, True)) as Htail.
  { intros v mm oo wws Hh. destruct (negb _); [|by go]. do 3 go.
    apply through_loose; [apply tame_notify|done|]. apply returns_wp, returns_notify.
    intros m2 ws2 Hm2. cbn [w_mem]. intros Hh2. lazy beta match. by go. }
  apply through_bind, through_end. eapply through_claim_free_slot; [exact Hr|done|by eapply epochs_mono; [|exact Hep]|done|done|apply HS, fades_refl|..].
  { intros k x x' Hx Hc Hv. by eapply Hcl; [apply fades_refl|exact Hx|..]. }
  apply returns_wp. eapply returns_claim_free_slot; [exact Hr|by eapply epochs_mono; [|exact Hep]|done|done|].
  intros m1 o1 Hh1 Ho1 Hr1 Hd1. cbn [w_mem] in Hd1. lazy beta match. go.
  destruct (first_index vacant rows) as [i|] eqn:Hf.
  { cbn [slot_of]. rewrite (proj2 (Z.eqb_neq _ _)) by (eapply slot_valid; [exact Hr|exact Hcap|exact Hf]). go. by apply Htail. }
  cbn [slot_of]. rewrite (Ho1 eq_refl). change (INVALID_SLOT =? INVALID_SLOT) with true. lazy iota.
  apply through_bind, through_end. eapply (through_sweep_locked rows);
    [exact Hr1|rewrite Hh1 by done; exact Hl|by eapply epochs_mono; [|exact Hep]|exact HS|].
  apply returns_wp. eapply (returns_sweep_locked _ rows);
    [exact Hr1|by eapply epochs_mono; [|exact Hep]|unfold is_u32; change INVALID_SLOT with 4294967295 in *; lia|].
  intros m2 Hr2 Hh2 Hd2. cbn [w_mem] in Hd2. lazy beta match.
  destruct (0 <? _); [|go; by apply Htail].
  pose proof (fades_partial o rows (length rows)) as Hsw. rewrite firstn_all, drop_all, app_nil_r in Hsw.
  apply through_end. eapply (through_claim_free_slot key node (sweep o rows));
    [exact Hr2|rewrite Hh2 by done; rewrite Hh1 by done; exact Hl|by apply sweep_epochs; [|lia]|done|done|by apply HS|..].
  { intros k x x' Hx Hc Hv. by eapply Hcl; [exact Hsw|exact Hx|..]. }
  apply returns_wp. eapply (returns_claim_free_slot _ _ _ (sweep o rows));
    [exact Hr2|by apply sweep_epochs; [|lia]|done|done|].
  intros m3 o3 _ _ _ Hd3. by apply Htail.
Qed.
End stops.

(** ** Under the lock *)

Section calls.
Context (g : Geometry) (pid : Z) (S : table → Prop).

(** Whatever the process has done, its successor can recover one of [S]. *)
Definition left_well m : Prop := ∃ rows, S rows ∧ recoverable g pid rows m.

Lemma left_shown rows m : table_shows g rows m → S rows → m (Hdr lock_token) = 0 → left_well m.
Proof. intros Hr HS Hl. exists rows. split; [done|]. by left. Qed.

Lemma held_left tok m : token_pid tok = pid → held g tok S m → left_well m.
Proof. intros Ht [Hl (rows & HS & Hr)]. exists rows. split; [done|]. right. by rewrite Hl. Qed.

Lemma through_self_identity (I : (bloc → Z) → Prop) m o ws (Q : outcome Process.SelfIdentity → world bloc → Prop) :
  I m → Q (Val (Process.identity_of o)) (World m o ws) →
  through I Process.self_identity_uncached (World m o ws) Q.
Proof.
  intros HI HQ. apply (through_pure _ _ _ _ _ (λ _, True) (λ _, False)); [|done|].
  - unfold Process.self_identity_uncached, Process.process_starttime. by tames.
  - by apply returns_wp, Process.returns_self_identity.
Qed.

Lemma through_board_guard {A} (body : bool → bprog A) budget limit rows m o ws :
  table_shows g rows m → S rows → m (Hdr lock_token) = 0 → 0 <= budget → os_pid o = pid → 0 <= pid < 4294967296 →
  (∀ tok, token_pid tok = pid → through (held g tok S) (body true)
     (World (<[Hdr lock_token := tok]> m) (os_advance o (os_tick o)) ws)
     (λ _ w', ∃ rows', S rows' ∧ table_shows g rows' (w_mem w'))) →
  through left_well (board_guard (capacity g) budget limit body) (World m o ws) (λ _ _, True).
Proof.
  intros Hr HS Hl Hb Hpid Hrange Hbody. assert (left_well m) as Hm by (by eapply left_shown).
  unfold board_guard, self_token. go. go. apply through_self_identity; [done|]. lazy beta match. go.
  cbn [Process.identity_of Process.self_pid Process.self_starttime].
  set (tok := make_token (os_pid o) (Process.starttime_of o)).
  assert (token_pid tok = pid) as Htok by (unfold tok; rewrite Hpid; by apply token_pid_make).
  go. unfold board_lock. do 2 go. unfold loop. apply through_loop.
  assert ((negb (budget =? 0) && (budget <=? 0)) = false) as ->.
  { destruct (Z.eqb_spec budget 0); [done|]. cbn. apply Z.leb_gt. lia. }
  lazy iota. go. change (0 <? 0) with false. lazy iota. do 3 go. rewrite Hl. change (0 =? 0) with true. lazy iota. go.
  set (m1 := <[Hdr lock_token := tok]> m). set (o1 := os_advance o (os_tick o)).
  specialize (Hbody tok Htok). fold m1 o1 in Hbody.
  assert (exec (Cas (Hdr lock_token) 0 tok) (World m o1 ws) = ((true, 0), World m1 o1 ws)) as Hcas.
  { cbn. unfold exec_cas. cbn. by rewrite Hl. }
  assert (left_well m1) as Hm1.
  { eapply held_left; [exact Htok|]. eapply held_shown; [by apply table_shows_header|exact HS|]. unfold m1. by mem. }
  apply through_act; [done|]. rewrite Hcas. cbn [fst snd]. go. lazy iota. go. go. go.
  apply through_end, through_try. eapply through_weaken; [eapply through_mono; [exact Hbody|]|intros m' Hm'; by eapply held_left].
  intros out [m' o' ws'] (rows' & HS' & Hr') Hm'. cbn [w_mem] in Hr', Hm'. lazy beta match.
  unfold when, board_unlock. lazy iota. go. go; [by eapply left_shown; [apply table_shows_header|..]|].
  destruct out as [a|e]; cbn [caught]; lazy iota; by go.
Qed.

(** *** Sweeping and declaring *)

Lemma fades_later o t rows mid : Forall2 (fades (os_advance o t)) rows mid → Forall2 (fades o) rows mid.
Proof. intros Hf. eapply Forall2_impl; [exact Hf|]. intros x x' []; by constructor. Qed.
Lemma claims_later o t key x x' : claims (os_advance o t) key x x' → claims o key x x'.
Proof.
  intros [e|e|e p Ht Hk|e p Ht Hk|e p Ht Hk]; [apply Reserved|apply (Posted o key)|by apply (Restarted o key)
    |by apply (Rehired o key)|by apply (Taken o key)].
Qed.

Lemma through_board_sweep b rows m o ws :
  base_ b = true → geometry_ b = g → table_shows g rows m → m (Hdr lock_token) = 0 →
  os_pid o = pid → 0 <= pid < 4294967296 → epochs_below 1 rows → is_u32 (capacity g) →
  (∀ mid, Forall2 (fades o) rows mid → S mid) →
  through left_well (sweep_stale b) (World m o ws) (λ _ _, True).
Proof.
  intros Hb Hg Hr Hl Hpid Hrange Hep Hcap HS. pose proof (HS _ (fades_refl o rows)) as HS0.
  unfold sweep_stale, require_open. rewrite Hb, Hg. lazy iota. go. go; [by eapply left_shown|]. cbn zeta.
  eapply through_board_guard; [exact Hr|done|done|lia|done|done|]. intros tok Htok. cbn [negb].
  set (o1 := os_advance o (os_tick o)).
  assert (∀ mid, Forall2 (fades o1) rows mid → S mid) as HS1 by (intros mid Hf; by eapply HS, fades_later).
  apply through_bind, through_end. eapply (through_sweep_locked _ _ _ rows);
    [by apply table_shows_header|by mem|done|exact HS1|].
  apply returns_wp. eapply (returns_sweep_locked _ rows); [by apply table_shows_header|done|done|].
  intros m1 Hr1 _ Hd1. cbn [w_mem] in Hd1. lazy beta match.
  pose proof (fades_partial o1 rows (length rows)) as Hsw. rewrite firstn_all, drop_all, app_nil_r in Hsw.
  apply through_bind. unfold when. destruct (0 <? _).
  - apply through_loose; [apply tame_notify|done|]. apply returns_wp, returns_notify. intros m2 ws2 Hm2. cbn [w_mem].
    intros Hd2. lazy beta match. go. exists (sweep o1 rows). split; [by apply HS1|].
    eapply table_shows_ext; [|exact Hr1]. intros l Hl'. apply Hm2. by intros ->.
  - go. go. exists (sweep o1 rows). by split; [apply HS1|].
Qed.

Lemma through_declare b (key : option (list Z)) node rows m o ws :
  base_ b = true → geometry_ b = g → table_shows g rows m → m (Hdr lock_token) = 0 →
  os_pid o = pid → 0 <= pid < 4294967296 → epochs_below 2 rows →
  0 <= max_value_size g → 0 <= capacity g < INVALID_SLOT → (∀ k, check_key key = inl k → key_ok k) → S rows →
  (∀ k mid, check_key key = inl k → Forall2 (fades o) rows mid → S mid) →
  (∀ k mid j x x', check_key key = inl k → Forall2 (fades o) rows mid → mid !! j = Some x → claims o k x x' →
     (vacant x = true → first_index (holds_key k) rows = None) → S (<[j := x']> mid)) →
  through left_well (declare b key node) (World m o ws) (λ _ _, True).
Proof.
  intros Hb Hg Hr Hl Hpid Hrange Hep Hmax Hcap Hkey HS0 HS Hcl. assert (left_well m) as Hm by (by eapply left_shown).
  unfold declare, require_open. rewrite Hb. lazy iota. go. go. cbn zeta.
  destruct (check_key key) as [k|e] eqn:Ek; cbn [of_res]; [|go; by go].
  go. go. go. apply through_self_identity; [done|]. lazy beta match. rewrite Hg.
  eapply through_board_guard; [exact Hr|done|done|lia|done|done|]. intros tok Htok. cbn [negb].
  change (Process.identity_of o) with (Process.identity_of (os_advance o (os_tick o))).
  set (o1 := os_advance o (os_tick o)).
  assert (∀ mid, Forall2 (fades o1) rows mid → S mid) as HS1 by (intros mid Hf; by eapply (HS k), fades_later).
  eapply (through_declare_locked _ _ _ b k); [done|by apply table_shows_header|by mem|done|by apply Hkey|done|done|exact HS1|..].
  { intros mid j x x' Hf Hx Hc. eapply (Hcl k); [done|by eapply fades_later|exact Hx|by eapply claims_later]. }
  eapply (wp_declare_locked _ b k); [done|by apply table_shows_header|done|by apply Hkey|done|done|].
  intros m' o' ws' _. change (enter o1 k rows) with (enter o k rows).
  destruct (enter o k rows) as [[i rows']|e] eqn:He.
  - intros w Hr' _. exists rows'. split; [|done]. unfold enter in He.
    destruct (first_index (holds_key k) rows) as [j|] eqn:Hf.
    + destruct (holds_key_post _ _ _ Hf) as (ep & p & Hx & Hp & Hk). rewrite Hp in He.
      destruct (takeable o p) eqn:Htk; [|done]. injection He as <- <-.
      eapply (Hcl k); [done|apply fades_refl|exact Hx|by constructor|done].
    + destruct (first_index vacant rows) as [j|] eqn:Hv.
      { injection He as <- <-. destruct (vacant_row _ _ Hv) as [ep Hx]. rewrite (claim_insert _ _ _ _ _ Hx).
        eapply (Hcl k); [done|apply fades_refl|exact Hx|constructor|done]. }
      destruct (first_index vacant (sweep o rows)) as [j|] eqn:Hv'; [|done]. injection He as <- <-.
      destruct (vacant_row _ _ Hv') as [ep Hx]. rewrite (claim_insert _ _ _ _ _ Hx).
      pose proof (fades_partial o rows (length rows)) as Hsw. rewrite firstn_all, drop_all, app_nil_r in Hsw.
      eapply (Hcl k); [done|exact Hsw|exact Hx|constructor|done].
  - intros Hr'. by exists rows.
Qed.

(** *** Writers *)

Lemma through_writer_release w t rows m o ws :
  table_shows g rows m → writer_ok g rows w t → m (Hdr lock_token) = 0 → epochs_below 1 rows →
  os_pid o = pid → 0 <= pid < 4294967296 → S rows →
  (∀ x x', rows !! t_row t = Some x → r_epoch x = t_epoch t → t_open t = true → t_pid t = pid → releases x x' →
     S (<[t_row t := x']> rows)) →
  through left_well (writer_release w) (World m o ws) (λ _ _, True).
Proof.
  intros Hr [Hb Ho Hrow Hcnt] Hl Hep Hpid Hrange HS Hrel. assert (left_well m) as Hm by (by eapply left_shown).
  unfold writer_release. rewrite Hb. destruct (t_open t) eqn:Eopen; cbn [negb]; [|by go].
  destruct (Ho eq_refl) as (Hg & Hi & Ht & Hwp). destruct (Hrow eq_refl) as (x & Hx & Hle).
  go. apply through_self_identity; [done|]. lazy beta match. cbn [Process.identity_of Process.self_pid].
  rewrite Hwp. destruct (Z.eqb_spec (os_pid o) (t_pid t)) as [Ep|]; cbn [negb]; [|by go]. rewrite Hg, Hi, Ht.
  rewrite (proj2 (Z.ltb_lt _ _)). 2: { apply lookup_lt_Some in Hx. rewrite <- (proj1 Hr). lia. }
  go. apply through_end. eapply through_mono.
  - eapply through_board_guard; [exact Hr|done|done|lia|done|done|]. intros tok Htok. cbn [negb].
    destruct (Hep _ _ Hx) as [Hlo Hhi].
    eapply (through_release_locked _ _ _ rows t x); [by apply table_shows_header|done|by mem|done|done|done|..].
    { intros x' Hc He. eapply Hrel; [exact Hx|done|done|congruence|done]. }
    apply returns_wp. eapply (returns_release_locked _ rows t); [by apply table_shows_header|done|by eauto|].
    intros m' ws' _. destruct (current rows t) as [p|] eqn:Hc; intros Hr'; [|by exists rows].
    eexists. split; [|exact Hr']. pose proof (current_row _ _ _ Hc) as Hp.
    eapply Hrel; [exact Hp|done|done|congruence|constructor].
  - intros [ec|x0] w' _ Hm'; lazy beta match; [by go|done].
Qed.

(** A board whose lock is free. *)
Definition free_left m : Prop := m (Hdr lock_token) = 0 ∧ ∃ rows, S rows ∧ table_shows g rows m.

Lemma free_loose m m' : (∀ l, loose l = false → m' l = m l) → free_left m → free_left m'.
Proof.
  intros Hm [Hl (rows & HS & Hlen & Hr)]. split; [by rewrite Hm|]. exists rows. split; [done|]. split; [done|].
  intros k x Hx. eapply shows_loose; [|by apply Hr]. intros l _. by apply Hm.
Qed.

Lemma through_writer_write rows w t data m o ws :
  table_shows g rows m → writer_ok g rows w t → m (Hdr lock_token) = 0 → Forall is_u8 data →
  0 <= max_value_size g < 4294967296 → (∀ p, current rows t = Some p → p_count p < 4611686018427387904) →
  S rows →
  (t_open t = true → t_pid t = os_pid o → S (write (max_value_size g) o t data rows).2) →
  through free_left (writer_write w data) (World m o ws) (λ _ _, True).
Proof.
  intros Hr [Hb Ho Hrow Hcnt] Hl Hu Hmax Hbound HS HSw.
  assert (∀ m', table_shows g rows m' → m' (Hdr lock_token) = 0 → free_left m') as Hkeep.
  { intros m' Hr' Hl'. split; [done|]. by exists rows. }
  assert (free_left m) as Hm by (by apply Hkeep).
  unfold writer_write. cbn zeta. rewrite Hb. destruct (t_open t) eqn:Eopen; cbn [negb]; [|by go].
  destruct (Ho eq_refl) as (Hg & Hi & Ht & Hwp). destruct (Hrow eq_refl) as (x & Hx & Hle).
  go. apply through_self_identity; [done|]. lazy beta match. cbn [Process.identity_of Process.self_pid].
  rewrite Hwp. destruct (Z.eqb_spec (os_pid o) (t_pid t)) as [Ep|]; cbn [negb]; [|by go]. rewrite Hg, Hi.
  destruct (capacity g <=? Z.of_nat (t_row t)); [by go|].
  destruct (Z.ltb_spec (max_value_size g) (Z.of_nat (length data))) as [|Em]; [by go|].
  pose proof (current_tested _ _ _ _ _ Hr Hx) as Htest. set (i := Z.of_nat (t_row t)) in *.
  go. go. destruct (m (Ent i state) =? Active); cbn [negb andb] in *; [|by go].
  go. go. rewrite Ht. destruct (m (Ent i tenancy) =? t_epoch t); cbn [negb]; [|by go].
  destruct (current rows t) as [p|] eqn:Ecur; [|by rewrite bool_decide_eq_false_2 in Htest by (by intros [])].
  clear Htest. pose proof (current_row _ _ _ Ecur) as Hp. rewrite Hp in Hx. injection Hx as <-.
  pose proof (proj2 Hr _ _ Hp) as Hs. fold i in Hs. pose proof Hs as [Htn [[H1 H2 H3 H4 H5 H6 H7] (Hk & Hv & Hc0 & Hlen)]].
  fields. rewrite (Hcnt eq_refl _ eq_refl). specialize (Hbound _ eq_refl).
  assert (u64 (p_count p + 1) = p_count p + 1) as -> by (apply u64_small; unfold is_u64; lia).
  assert (u64 (2 * (p_count p + 1) - 1) = 2 * p_count p + 1) as -> by (rewrite u64_small by (unfold is_u64; lia); lia).
  set (c := parity (p_count p + 1)).
  assert (c ≠ parity (p_count p)) as Hc by apply parity_next.
  (* words of the cell readers are not on *)
  set (inside := λ l, (∃ j, l = CellWord i c j) ∨ (∃ f, l = Cell i c f)).
  set (m1 := <[Ent i publish := 2 * p_count p + 1]> m).
  assert (∀ m', (∀ l, ¬ inside l → m' l = m1 l) → free_left m') as Hinside.
  { intros m' Hm'. assert (∀ l, ¬ inside l → l ≠ Ent i publish → m' l = m l) as Hm2.
    { intros l Hl' Hne. rewrite Hm' by done. unfold m1. by rewrite upd_ne by congruence. }
    assert (∀ f, ¬ inside (Ent i f)) as N1 by (by intros f [[j [=]]|[j [=]]]).
    assert (∀ f, ¬ inside (KeyWord i f)) as N2 by (by intros f [[j [=]]|[j [=]]]).
    assert (∀ f, ¬ inside (Cell i (parity (p_count p)) f)) as N3 by (intros f [[j [=]]|[j [=]]]; congruence).
    assert (∀ f, ¬ inside (CellWord i (parity (p_count p)) f)) as N4 by (intros f [[j [=]]|[j [=]]]; congruence).
    apply Hkeep.
    - rewrite <- (list_insert_id rows (t_row t) (Row (t_epoch t) (Some p))) by done.
      eapply table_row; [exact Hr|..]; fold i.
      + intros l Hl'. apply Hm2; [|by intros ->]. intros [[j ->]|[f ->]]; by apply Hl'.
      + split; [by rewrite Hm2|]. cbn. split; [|done]. split; cbn; rewrite ?Hm2 by done; try done.
        * rewrite Hm' by done. unfold m1. mem. rewrite Z.shiftr_div_pow2 by lia. change (2 ^ 1) with 2. lia.
        * intros Hne. destruct (H7 Hne) as (Ha & Hb' & Hd). unfold cell_shows. rewrite !Hm2 by done.
          by rewrite (load_list_ext _ _ _ m' m) by (intros; by apply Hm2).
    - rewrite Hm2; [done|by intros [[j [=]]|[j [=]]]|done]. }
  go. go; [by apply Hinside|]. fold m1.
  assert (∀ Q1 : outcome unit → world bloc → Prop,
    (∀ m2, (∀ l, (∀ j, l ≠ CellWord i c j) → m2 l = m1 l) →
       load_list (CellWord i c) 0 (nwords (length data)) m2 = words_of data → Q1 (Val tt) (World m2 o ws)) →
    through free_left (when (0 <? Z.of_nat (length data)) (store_words (CellWord i c) data)) (World m1 o ws) Q1) as Hstore.
  { intros Q1 HQ1. unfold when. destruct (Z.ltb_spec 0 (Z.of_nat (length data))) as [Hd|Hd].
    - apply (through_within _ inside _ _ (λ _, True) (λ _, False)); [apply tame_store_words; unfold inside; eauto|exact Hinside|].
      apply returns_wp, returns_store_words. apply HQ1; [intros l Hl'; by apply store_list_other|].
      rewrite <- length_words_of. apply load_store_list. by intros ? ? [=].
    - go. apply HQ1; [done|]. by destruct data. }
  go. apply Hstore. intros m2 Hm2 Hw2. lazy beta match.
  assert (∀ l, ¬ inside l → m2 l = m1 l) as Hin2.
  { intros l Hl'. apply Hm2. intros j ->. apply Hl'. left. eauto. }
  assert (∀ m' f v, (∀ l, ¬ inside l → m' l = m1 l) → ∀ l, ¬ inside l → <[Cell i c f := v]> m' l = m1 l) as Hput.
  { intros m' f v Hm' l Hl'. rewrite upd_ne by (intros <-; apply Hl'; right; eauto). by apply Hm'. }
  assert (free_left m2) as Hf2 by (by apply Hinside).
  go. go; [apply Hinside; by apply Hput|].
  go. go. go. go; [apply Hinside; by do 2 apply Hput|].
  set (m3 := <[Cell i c updated_at_ns := _]> _) in *.
  assert (∀ l, ¬ inside l → m3 l = m1 l) as Hin3 by (by do 2 apply Hput).
  assert (table_shows g (<[t_row t := Row (t_epoch t) (Some (written o data p))]> rows)
    (<[Ent i publish := u64 (2 * (p_count p + 1))]> m3)) as Hend.
  { eapply table_row; [exact Hr|..]; fold i.
    - intros l Hl'. rewrite upd_ne by (intros <-; by apply Hl'). rewrite Hin3.
      + unfold m1. by rewrite upd_ne by (intros <-; by apply Hl').
      + intros [[j ->]|[f ->]]; by apply Hl'.
    - assert (∀ f, ¬ inside (Ent i f)) as N1 by (by intros f [[j [=]]|[j [=]]]).
      assert (∀ f, ¬ inside (KeyWord i f)) as N2 by (by intros f [[j [=]]|[j [=]]]).
      apply (shows_written g o m); [by split; [|split]|done|done|..].
      + intros f Hf. rewrite upd_ne by congruence. rewrite Hin3 by done. unfold m1. by rewrite upd_ne by congruence.
      + intros w'. rewrite upd_ne by done. rewrite Hin3 by done. unfold m1. by rewrite upd_ne by done.
      + mem. rewrite u64_small by (unfold is_u64; lia). apply shiftr_double.
      + unfold cell_shows, m3. fields. fold c. mem. split; [apply u32_small; unfold is_u32; lia|]. split; [done|].
        rewrite <- Hw2. apply load_list_ext. intros j _. by mem. }
  assert (S (<[t_row t := Row (t_epoch t) (Some (written o data p))]> rows)) as HS2.
  { specialize (HSw eq_refl (eq_sym Ep)). unfold write in HSw. rewrite Eopen, Ep, Z.eqb_refl, Ecur in HSw.
    by rewrite (proj2 (Z.ltb_ge _ _)) in HSw. }
  go. go.
  { split; [|by eexists]. rewrite upd_ne by done. rewrite Hin3 by (by intros [[j [=]]|[j [=]]]). unfold m1. by rewrite upd_ne. }
  go. apply through_end. eapply through_within; [apply tame_notify| |apply returns_wp, returns_notify].
  - intros m' Hm'. eapply free_loose; [|eassumption]. intros l Hl'. apply Hm'. by rewrite Hl'.
  - intros m' ws' _ Hm'. lazy beta match. by go.
Qed.

(** *** Readers *)

Lemma tame_key_equals i key : tame (λ _ : bloc, False) (key_equals i key) (λ _, True) (λ _, False).
Proof. unfold key_equals. tame_by apply tame_load_words. intros. by tames. Qed.

Lemma tame_resolve r : tame (λ _ : bloc, False) (resolve r) (λ _, True) (λ _, False).
Proof.
  unfold resolve, still_resolved. destruct (negb (r_base_ r)); [by tames|].
  tame_with (λ _ : bool, True); [by tames|]. intros ok _. destruct ok; [by tames|].
  eapply tame_call; [apply (tame_for _ _ _ _ _ (λ _, True) (λ _, True)); [done| |done]|].
  - intros i [] _. tame_with (λ _ : option Z, True); [|intros [t|] _; by tames].
    unfold match_entry. tames; [done|done|]. tame_by apply tame_key_equals. intros. by tames.
  - intros [[]|[i t]] _; by tames.
Qed.

Lemma tame_read r buf : tame (λ _ : bloc, False) (read r buf) (λ _, True) (λ _, False).
Proof.
  unfold read. destruct (negb (r_base_ r)); [by tames|].
  eapply tame_call; [apply (tame_for _ _ _ _ _ (λ _, True) (λ _, True)); [done| |done]|].
  - intros i [r' buf'] _. tame_by apply tame_resolve. intros [ok r2] _. destruct ok; cbn [negb]; [|by tames].
    tame_with (λ _ : list Z + (ReadOutcome * list Z), True); [|intros [b|x] _; by tames].
    unfold read_attempt. tames; try done. tame_by apply tame_load_words. intros. by tames.
  - intros [[? ?]|[? ?]] _; by tames.
Qed.

Lemma tame_read_vector r out : tame (λ _ : bloc, False) (read_vector r out) (λ _, True) (λ _, False).
Proof.
  unfold read_vector.
  eapply tame_call; [apply (tame_for _ _ _ _ _ (λ _, True) (λ _, True)); [done| |done]|].
  - intros i [r' buf'] _. tame_by apply tame_read. intros [[res v] r2] _. by tames.
  - intros [[? ?]|[? ?]] _; by tames.
Qed.
End calls.

(** ** The tables a crash leaves are sound *)

Section sound.
Context (g : Geometry).

Lemma sound_step n rows (k : nat) x x' :
  sound (n + 1) rows → 0 <= n → rows !! k = Some x → r_epoch x <= r_epoch x' <= r_epoch x + 1 →
  (∀ q, r_post x' = Some q → 0 <= p_count q ∧ p_count q + n < 4611686018427387904 ∧
     ∀ j e p, post_at rows j = Some (e, p) → p_key p = p_key q → j = k) →
  sound n (<[k := x']> rows).
Proof.
  intros [H1 H2 H3] Hn Hx He Hq. destruct x' as [e' [q|]]; fields.
  - destruct (Hq q eq_refl) as (Hc & Hcn & Hk). destruct (H1 _ _ Hx). split.
    + apply epochs_insert; [by eapply epochs_mono; [|exact H1]; lia|lia|lia].
    + apply counts_insert; [|done|done]. intros j e p Hp. specialize (H2 _ _ _ Hp). lia.
    + by apply keys_insert.
  - destruct (H1 _ _ Hx). assert (∀ j e p, post_at (<[k := Row e' None]> rows) j = Some (e, p) → post_at rows j = Some (e, p)) as Hold.
    { intros j e p Hp%post_at_row. apply post_at_row. by apply list_lookup_insert_Some in Hp as [(_ & ? & _)|[_ Hp]]. }
    split.
    + apply epochs_insert; [by eapply epochs_mono; [|exact H1]; lia|lia|lia].
    + intros j e p Hp%Hold. specialize (H2 _ _ _ Hp). lia.
    + intros j l e e2 p q Hp%Hold Hp2%Hold. by eapply H3.
Qed.

Lemma fades_post o rows mid (j : nat) e p :
  Forall2 (fades o) rows mid → post_at mid j = Some (e, p) → ∃ e', post_at rows j = Some (e', p).
Proof.
  intros Hf Hp%post_at_row. destruct (Forall2_lookup_r _ _ _ _ _ Hf Hp) as (x & Hx & Hfx).
  inversion Hfx; subst; eexists; apply post_at_row; exact Hx.
Qed.

Lemma fades_ok n o rows mid :
  Forall2 (fades o) rows mid → sound (n + 1) rows → advances rows mid ∧ sound n mid.
Proof.
  intros Hf [H1 H2 H3]. split.
  - split; [symmetry; by eapply Forall2_length|]. intros k x' Hx'.
    destruct (Forall2_lookup_r _ _ _ _ _ Hf Hx') as (x & Hx & Hfx). exists x. split; [done|].
    destruct Hfx; [by left|right; left; cbn; lia..].
  - split.
    + intros k x' Hx'. destruct (Forall2_lookup_r _ _ _ _ _ Hf Hx') as (x & Hx & Hfx).
      specialize (H1 _ _ Hx). destruct Hfx; cbn in *; lia.
    + intros k e p Hp. destruct (fades_post _ _ _ _ _ _ Hf Hp) as [e' Hp']. specialize (H2 _ _ _ Hp'). lia.
    + intros j k e e' p q Hp Hq. destruct (fades_post _ _ _ _ _ _ Hf Hp) as [e1 Hp'], (fades_post _ _ _ _ _ _ Hf Hq) as [e2 Hq'].
      by eapply H3.
Qed.

Lemma fades_keyless o key rows mid :
  Forall2 (fades o) rows mid → first_index (holds_key key) rows = None → first_index (holds_key key) mid = None.
Proof.
  induction 1 as [|x x' rows mid Hx _ IH]; [done|]. cbn. destruct (holds_key key x) eqn:Ex; [done|].
  destruct (first_index (holds_key key) rows); [done|]. intros _.
  assert (holds_key key x' = false) as ->; [by destruct Hx|]. by rewrite IH.
Qed.

Lemma keyless_post key rows (j : nat) e p :
  first_index (holds_key key) rows = None → post_at rows j = Some (e, p) → p_key p ≠ key.
Proof.
  intros Hn Hp%post_at_row Hk. revert j Hp. induction rows as [|x rows IH]; intros j Hp; [done|]. cbn in Hn.
  destruct (holds_key key x) eqn:Ex; [done|]. destruct j as [|j].
  - injection Hp as ->. cbn in Ex. by apply bool_decide_eq_false in Ex.
  - eapply IH; [|exact Hp]. by destruct (first_index (holds_key key) rows).
Qed.

Lemma moved_owner n rows (k : nat) e p pid start e' :
  sound (n + 1) rows → 0 <= n → rows !! k = Some (Row e (Some p)) → e <= e' <= e + 1 →
  advances rows (<[k := Row e' (Some (hired p pid start))]> rows) ∧
  sound n (<[k := Row e' (Some (hired p pid start))]> rows).
Proof.
  intros Hs Hn Hx He. split.
  - eapply advances_moved; [exact Hx|]. destruct (decide (e = e')) as [->|Hne]; [right; right|right; left; cbn; lia].
    split; [done|]. by exists p, (hired p pid start).
  - eapply sound_step; [exact Hs|done|exact Hx|done|]. intros q [= <-]. cbn. pose proof (proj2 (post_at_row _ _ _ _) Hx) as Hp.
    destruct (so_counts _ _ Hs _ _ _ Hp). split; [done|]. split; [lia|]. intros j e2 p2 Hp2 Hk. by eapply (so_keys _ _ Hs).
Qed.

Lemma claims_ok n o key rows (k : nat) x x' :
  sound (n + 1) rows → 0 <= n < 4611686018427387904 → rows !! k = Some x → claims o key x x' →
  (vacant x = true → first_index (holds_key key) rows = None) →
  advances rows (<[k := x']> rows) ∧ sound n (<[k := x']> rows).
Proof.
  intros Hs Hn Hx Hc Hv. destruct Hc as [e|e|e p Ht Hk|e p Ht Hk|e p Ht Hk].
  - split; [eapply advances_insert; [exact Hx|cbn; lia]|]. eapply sound_step; [exact Hs|lia|exact Hx|cbn; lia|done].
  - split; [eapply advances_insert; [exact Hx|cbn; lia]|]. eapply sound_step; [exact Hs|lia|exact Hx|cbn; lia|].
    intros q [= <-]. cbn. split; [done|]. split; [lia|]. intros j e' p Hp Hk. exfalso.
    by eapply keyless_post; [apply Hv|exact Hp|exact Hk].
  - apply (moved_owner n rows k e p); [done|lia|done|lia].
  - apply (moved_owner n rows k e p (os_pid o) (Process.starttime_of o)); [done|lia|done|lia].
  - apply (moved_owner n rows k e p (os_pid o) (Process.starttime_of o)); [done|lia|done|lia].
Qed.

Lemma releases_ok n rows (k : nat) x x' :
  sound (n + 1) rows → 0 <= n → rows !! k = Some x → releases x x' →
  advances rows (<[k := x']> rows) ∧ sound n (<[k := x']> rows).
Proof.
  intros Hs Hn Hx Hr. destruct Hr as [e p|e p|e p].
  - apply (moved_owner n rows k e p 0 (p_start p)); [done|lia|done|lia].
  - apply (moved_owner n rows k e p 0 0); [done|lia|done|lia].
  - apply (moved_owner n rows k e p 0 0); [done|lia|done|lia].
Qed.

(** Burying a process closes its handles and no others. *)
Lemma stands_buried n e m a pid wrs :
  stands g n e m a → Forall2 (λ w w', w' = w ∨ (w_owner_pid_ w = pid ∧ w_owner_pid_ w' = pid)) (writers e) wrs →
  stands g n (bury pid (Handles wrs (readers e))) m (buried pid a (rows a)).
Proof.
  intros [H1 H2 H0 H3 H4 H5 H6] Hw. split; cbn; try done.
  - apply Forall2_fmap_2. clear -H4 Hw. revert wrs Hw.
    induction H4 as [|w t ws ts Ht _ IH]; intros wrs Hw; inversion Hw as [|? w' ? ws2 Hw' Hws]; subst; constructor; [|by apply IH].
    unfold bury_writer, bury_ticket. pose proof Ht as [O1 O2 O3 O4]. destruct (t_open t) eqn:Eo.
    + destruct (O2 eq_refl) as (_ & _ & _ & Ep). destruct Hw' as [->|[E1 E2]].
      * rewrite Ep. destruct (t_pid t =? pid); [|done]. by split.
      * rewrite E2, <- Ep, E1, Z.eqb_refl. by split.
    + assert (∀ t', t_open t' = false → writer_ok g (rows a) (if w_owner_pid_ w' =? pid then dead_writer w' else w') t' ) as Hclosed.
      { intros t' Ht'. split; rewrite Ht'; [|done..]. destruct Hw' as [->|[_ ->]]; [|by rewrite Z.eqb_refl].
        by destruct (w_owner_pid_ w =? pid). }
      destruct (t_pid t =? pid); by apply Hclosed.
  - intros j k t u Ht Hu Ot Ou. rewrite list_lookup_fmap in Ht, Hu.
    destruct (tickets a !! j) as [t0|] eqn:Et; [|done]. destruct (tickets a !! k) as [u0|] eqn:Eu; [|done].
    injection Ht as <-. injection Hu as <-. unfold bury_ticket in *.
    destruct (t_pid t0 =? pid); [done|]. destruct (t_pid u0 =? pid); [done|]. by eapply H6.
Qed.

Lemma stands_at n e m m' a : stands g n e m a → table_shows g (rows a) m' → m' (Hdr lock_token) = 0 → stands g n e m' a.
Proof. by intros [H1 H2 H0 H3 H4 H5 H6] Hr Hl. Qed.

(** ** Every stop of every call *)

(** A table the survivors' handles fit. *)
Definition fits (n : nat) (pid : Z) (e : handles) (a : contents) rows' : Prop :=
  ∀ m', table_shows g rows' m' → m' (Hdr lock_token) = 0 → stands g n (bury pid e) m' (buried pid a rows').

Definition after_call (n : nat) o (c : call) (e : handles) (a : contents) rows' : Prop :=
  aftermath (max_value_size g) o c a rows' ∧ fits n (os_pid o) e a rows'.

Lemma fits_advance n pid e m a rows' :
  stands g (Datatypes.S n) e m a → advances (rows a) rows' → sound (2 * Z.of_nat n) rows' → fits n pid e a rows'.
Proof.
  intros Hst Ha Hs m' Hr Hl.
  pose proof (stands_advance g _ n _ _ m' _ rows' Hst Ha Hr Hl ltac:(lia) Hs) as Hst'.
  destruct e as [wrs rds]. apply (stands_buried n _ _ _ pid wrs) in Hst'; [done|].
  cbn. apply Forall_Forall2_diag, Forall_true. by left.
Qed.

Lemma fits_same n pid e m a : stands g (Datatypes.S n) e m a → fits n pid e a (rows a).
Proof.
  intros Hst. eapply fits_advance; [exact Hst|apply advances_refl|].
  eapply sound_mono; [|apply (st_sound _ _ _ _ _ Hst)]. lia.
Qed.

Context (Hcap : 0 <= capacity g < INVALID_SLOT) (Hmax : 0 <= max_value_size g < 4294967296).

Lemma fits_written (b : board) n k data w t e m a o :
  stands g (Datatypes.S n) e m a → Forall is_u8 data → writers e !! k = Some w → tickets a !! k = Some t →
  t_open t = true → t_pid t = os_pid o →
  fits n (os_pid o) e a (write (max_value_size g) o t data (rows a)).2.
Proof using Hcap Hmax.
  intros Hst Hu Hw Ht Hopen Hpid m' Hr Hl.
  pose proof (Forall2_lookup_lr _ _ _ _ _ _ (st_writers _ _ _ _ _ Hst) Hw Ht) as Hok.
  destruct (wo_open _ _ _ _ Hok Hopen) as (_ & _ & _ & Ep).
  assert (returns (perform b (Write k data) e) (World m o []) (λ '(_, e') w',
    stands g n e' (w_mem w') (promised (max_value_size g) o (Write k data) a).2 ∧
    ∃ w2, (w2 = w ∨ w2 = bumped w) ∧ e' = Handles (<[k := w2]> (writers e)) (readers e))) as Hrun.
  { eapply wp_mono; [apply (wp_det _ _ (λ r w', match r with Val (x, e') => stands g n e' (w_mem w')
      (promised (max_value_size g) o (Write k data) a).2 | Exc _ => False end) (λ r _, match r with Val (_, e') =>
      ∃ w2, (w2 = w ∨ w2 = bumped w) ∧ e' = Handles (<[k := w2]> (writers e)) (readers e) | Exc _ => False end))|].
    - eapply (returns_write_call g Hcap Hmax); [exact Hst|done|]. by intros w' e'.
    - cbn [perform]. rewrite Hw. step. eapply (returns_writer_write g (rows a) w t); [apply Hst|done|done|lia| |].
      { intros p Hp. apply current_row, post_at_row in Hp. destruct (so_counts _ _ (st_sound _ _ _ _ _ Hst) _ _ _ Hp). lia. }
      intros m1 o1 ws1 _ _. lazy beta iota. step. case_decide; eauto.
    - intros [[x e']|x] w'; tauto. }
  destruct Hrun as (fuel & [[x e']|?] & w' & _ & Hq); [|done]. destruct Hq as (Hst' & w2 & Hw2 & ->).
  cbn [promised] in Hst'. rewrite Ht in Hst'. destruct (write _ o t data (rows a)) as [ec rows'] eqn:Ewr.
  cbn [snd] in *. eapply stands_at; [|exact Hr|exact Hl].
  apply (stands_buried n _ _ _ (os_pid o) (writers e)) in Hst'; [by destruct e|]. cbn [writers].
  apply Forall2_same_length_lookup. split; [by rewrite length_insert|]. intros j v v' Hv Hv'.
  apply list_lookup_insert_Some in Hv as [(-> & <- & _)|[_ Hv]]; [right|left; congruence].
  rewrite Hw in Hv'. injection Hv' as <-. destruct Hw2 as [->| ->]; cbn; by rewrite Ep.
Qed.

Lemma call_leaves_well b n c e m a o :
  base_ b = true → geometry_ b = g → stands g (Datatypes.S n) e m a → call_ok c → 0 < os_pid o < 4294967296 →
  through (left_well g (os_pid o) (after_call n o c e a)) (perform b c e) (World m o []) (λ _ _, True).
Proof using Hcap Hmax.
  intros Hb Hg Hst Hc Hpid. pose proof Hst as [Hr Hl Hroom Hs Hw Hrd Hsingle].
  assert (after_call n o c e a (rows a)) as HS by (split; [by left|by eapply fits_same]).
  set (S := after_call n o c e a) in *. assert (left_well g (os_pid o) S m) as Hm by (by eapply left_shown).
  assert (sound (2 * Z.of_nat n + 1 + 1) (rows a)) as Hs2 by (eapply sound_mono; [|exact Hs]; lia).
  assert (∀ mid, Forall2 (fades o) (rows a) mid →
    advances (rows a) mid ∧ sound (2 * Z.of_nat n + 1) mid) as Hfade by (intros mid Hf; by eapply fades_ok).
  destruct c as [key node|k data|k|key|k|]; cbn [perform call_ok] in *.
  - go. apply through_end, through_try. eapply through_mono.
    + apply (through_declare g (os_pid o) S b key node (rows a)); [done|done|done|done|done|lia| |lia|done| |done|..].
      * eapply epochs_mono; [|apply Hs]. lia.
      * intros k. by apply check_key_ok.
      * intros k mid Ek Hf. destruct (Hfade _ Hf) as [Ha Hs1].
        split; [right; exists k, mid; eauto|]. eapply fits_advance; [exact Hst|done|]. eapply sound_mono; [|exact Hs1]. lia.
      * intros k mid j x x' Ek Hf Hx Hcl Hv. destruct (Hfade _ Hf) as [Ha Hs1].
        destruct (claims_ok (2 * Z.of_nat n) o k mid j x x') as [Ha' Hs']; [done|lia|done|done| |].
        { intros Hvac. eapply fades_keyless; [exact Hf|by apply Hv]. }
        split; [right; exists k, mid; split; [done|]; split; [done|]; right; by exists j, x, x'|].
        eapply fits_advance; [exact Hst|by eapply advances_trans|done].
    + intros r w' _ Hm'. lazy beta match. destruct r; cbn [caught]; by go.
  - destruct (writers e !! k) as [w|] eqn:Ew; [|by go].
    destruct (Forall2_lookup_l _ _ _ _ _ Hw Ew) as (t & Et & Hok).
    go. apply through_end. eapply through_mono; [eapply through_weaken|].
    + eapply (through_writer_write g S (rows a) w t); [done|done|done|done|lia| |done|].
      * intros p Hp. apply current_row, post_at_row in Hp. destruct (so_counts _ _ Hs _ _ _ Hp). lia.
      * intros Ho Ep. split; [right; by exists t|]. by eapply (fits_written b).
    + intros m' (Hl' & rows' & HS' & Hr'). by eapply left_shown.
    + intros [[ec w']|?] w1 _ Hm'; lazy beta match; [by go|done].
  - destruct (writers e !! k) as [w|] eqn:Ew; [|by go].
    destruct (Forall2_lookup_l _ _ _ _ _ Hw Ew) as (t & Et & Hok).
    go. apply through_end. eapply through_mono.
    + eapply (through_writer_release g (os_pid o) S w t (rows a)); [done|done|done| |done|lia|done|].
      * eapply epochs_mono; [|apply Hs]. lia.
      * intros x x' Hx He Ho Ep Hrel.
        destruct (releases_ok (2 * Z.of_nat n) (rows a) (t_row t) x x') as [Ha Hs']; [|lia|done|done|].
        { eapply sound_mono; [|exact Hs]. lia. }
        split; [right; exists t; split; [done|]; by exists x, x'|]. by eapply fits_advance.
    + intros [[ec w']|?] w1 _ Hm'; lazy beta match; [by go|done].
  - go. apply through_end, through_try. unfold observe, require_open. rewrite Hb. lazy iota. go. go. go.
    destruct (check_key key) as [k|x]; cbn [of_res].
    + do 2 go. intros _. cbn [caught]. by go.
    + go. intros _. cbn [caught]. by go.
  - destruct (readers e !! k) as [r|] eqn:Er; [|by go].
    go. apply through_end, (through_pure _ _ _ _ _ (λ _, True) (λ _, False)); [apply tame_read_vector|done|].
    eapply wp_mono; [apply wp_tame, tame_read_vector|]. intros [[[res v] r']|x] w' _ Hm'; lazy beta match; [by go|done].
  - go. apply through_end. eapply through_mono.
    + apply (through_board_sweep g (os_pid o) S b (rows a)); [done|done|done|done|done|lia| | |].
      * eapply epochs_mono; [|apply Hs]. lia.
      * unfold is_u32. change INVALID_SLOT with 4294967295 in *. lia.
      * intros mid Hf. destruct (Hfade _ Hf) as [Ha Hs1]. split; [by right|].
        eapply fits_advance; [exact Hst|done|]. eapply sound_mono; [|exact Hs1]. lia.
    + intros [x|x] w' _ Hm'; lazy beta match; [by go|done].
Qed.

Lemma recoverable_shown pid rows' m :
  recoverable g pid rows' m → ∃ m', table_shows g rows' m' ∧ m' (Hdr lock_token) = 0.
Proof using Type.
  intros [[Hl Hr]|[_ Hr]]; [by exists m|].
  destruct (returns_repair g rows' m (Os 0 0 0 0 (λ _, None) 0) [] (λ _ w, table_shows g rows' (w_mem w)))
    as (fuel & [[]|?] & w & _ & Hw); [exact Hr|done| |done].
  exists (<[Hdr lock_token := 0]> (w_mem w)). split; [by apply table_shows_header|by mem].
Qed.
End sound.

(** ** Properties *)

(** C12. A process may crash at any step of any call.  The board then stands for one
    of the tables the call may leave; the next process to sweep takes the lock,
    a dead holder's included, and from there on every session of the survivors
    replies as that table does. *)
Theorem crashed_board_recovered g b c cs e m a o o2 n :
  base_ b = true → geometry_ b = g → 0 <= capacity g < INVALID_SLOT → 0 <= max_value_size g < 4294967296 →
  stands g (2 + length cs) e m a → call_ok c → Forall (λ '(_, c), call_ok c) cs →
  0 < os_pid o < 4294967296 → gone o2 (os_pid o) →
  ∃ rows', aftermath (max_value_size g) o c a rows' ∧
    plays (perform b) ((o2, Sweep) :: cs) (bury (os_pid o) e)
      (w_mem (after n (perform b c e) (World m o []))) (λ replies e' m',
        let end_ := promised_all (promised (max_value_size g)) ((o2, Sweep) :: cs) (buried (os_pid o) a rows') in
        replies = end_.1 ∧ stands g 0 e' m' end_.2).
Proof.
  intros Hb Hg Hcap Hmax Hst Hc Hcs Hpid Hgone.
  destruct (call_leaves_well g Hcap Hmax b (1 + length cs) c e m a o Hb Hg Hst Hc Hpid) as [HI _].
  destruct (HI n) as (rows' & [Haf Hfits] & Hrec). clear HI. exists rows'. split; [done|].
  set (m1 := w_mem (after n _ _)) in *. clearbody m1. cbn zeta.
  destruct (recoverable_shown g (os_pid o) rows' m1 Hrec) as (m0 & Hr0 & Hl0).
  pose proof (Hfits m0 Hr0 Hl0) as Hst0. pose proof (st_sound _ _ _ _ _ Hst0) as Hs0. cbn [rows buried] in Hs0.
  cbn [plays perform]. step. eapply (returns_sweep_recovers g b (os_pid o) rows'); [done|done|exact Hrec|lia|done| | |].
  { eapply epochs_mono; [|apply Hs0]. lia. }
  { unfold is_u32. change INVALID_SLOT with 4294967295 in *. lia. }
  intros m' o' ws' Hl' Hr'. lazy beta. step. cbn [w_mem].
  assert (stands g (length cs) (bury (os_pid o) e) m' (buried (os_pid o) a (sweep o2 rows'))) as Hst'.
  { eapply (stands_advance g _ _ _ _ _ _ (sweep o2 rows') Hst0); [apply advances_sweep|done|done|lia|].
    apply sound_sweep; [|lia]. eapply sound_mono; [|exact Hs0]. lia. }
  eapply plays_mono; [by apply (plays_board g b cs)|]. intros replies e' m2 [-> Hend].
  cbn [promised_all promised rows buried tickets watched]. cbn [rows buried] in Hend.
  destruct (promised_all (promised (max_value_size g)) cs (buried (os_pid o) a (sweep o2 rows'))) as [rs a'] eqn:Ep.
  unfold buried in Ep. rewrite Ep. done.
Qed.

(** *** Example *)

(** Process 7 dies while it claims a row; process 9 sweeps, and takes the key. *)
Definition claiming : call := DeclareKey (Some (str "temp")) None.
Definition aftercare : list (os * call) :=
  [(later 9, claiming); (later 9, Observe (Some (str "temp"))); (later 9, Write 0 [4; 2]); (later 9, Read 0)].

Lemma crashed_board_recovered_witness :
  let m1 := w_mem (after 30 (perform small_board claiming (Handles [] [])) (World (λ _, 0) (now 7) [])) in
  m1 (Ent 0 state) = Claiming ∧ m1 (Hdr lock_token) ≠ 0 ∧
  ∃ rows', aftermath 4 (now 7) claiming (Contents (empty_table 2) [] []) rows' ∧
    plays (perform small_board) ((later 9, Sweep) :: aftercare) (Handles [] []) m1 (λ replies _ _,
      replies = (promised_all (promised 4) ((later 9, Sweep) :: aftercare) (Contents rows' [] [])).1).
Proof.
  cbn zeta. split; [vm_compute; reflexivity|]. split; [vm_compute; discriminate|].
  assert (stands (make_geometry 2 4) (2 + length aftercare) (Handles [] []) (λ _, 0) (Contents (empty_table 2) [] [])) as Hst.
  { apply (stands_empty (make_geometry 2 4)); [vm_compute; congruence| |reflexivity|reflexivity].
    split; [reflexivity|]. intros k x Hx%lookup_replicate. destruct Hx as [-> _]. by repeat split. }
  assert (Forall (λ b, 1 <= b < 256) (str "temp")) as Htemp.
  { vm_compute. repeat constructor; discriminate. }
  assert (Forall is_u8 [4; 2]) as Hdata by (repeat constructor; vm_compute; intuition congruence).
  destruct (crashed_board_recovered (make_geometry 2 4) small_board claiming aftercare (Handles [] []) (λ _, 0)
    (Contents (empty_table 2) [] []) (now 7) (later 9) 30) as (rows' & Haf & Hplays).
  - reflexivity.
  - reflexivity.
  - vm_compute; intuition congruence.
  - vm_compute; intuition congruence.
  - exact Hst.
  - exact Htemp.
  - unfold aftercare. do 4 (apply Forall_cons; split; [first [exact Htemp|exact Hdata|exact I]|]). by apply Forall_nil.
  - vm_compute; intuition congruence.
  - exact I.
  - exists rows'. split; [exact Haf|]. eapply plays_mono; [exact Hplays|]. intros replies e m [Hrep _]. exact Hrep.
Defined.
End Crash.
