(* ===== verification/Tenure.v ===== *)
(** * One live owner per key

    The board lock and the ownership of keys, under every interleaving of the
    threads of processes that start and die ([Lifetimes.v]), provided that the lock
    tokens of processes that may run differ.  The lock is never
    held by two threads that run, and only its holder writes the metadata of the
    entries.  So a process that declared a key keeps it: as long as it runs and
    does not release the key, the entry stays as it was declared, nobody else that
    runs gets the same key, and its writes are not refused.  The metadata may be
    in any state at the start, and processes may die in the middle of any call.

    A [deed] is the token of one tenure: the process, the entry, its tenancy and
    the key. *)

From stdpp Require Import gmap gmultiset.
From S2P Require Import Prelude Prog Conc Embedding Words Process Blackboard Board Crash Lifetimes.
Import Blackboard Board Crash.

Module Tenure.
Record deed := Deed { d_proc : nat; d_entry : Z; d_tenancy : Z; d_key : list Z }.

#[export] Instance deed_eq_dec : EqDecision deed.
Proof. solve_decision. Defined.
#[export] Instance deed_countable : Countable deed.
Proof.
  refine (inj_countable' (λ d, (d_proc d, d_entry d, d_tenancy d, d_key d))
    (λ '(q, i, t, k), Deed q i t k) _). by intros [].
Defined.

Abbreviation deeds := (gmultiset deed).

(** What one thread holds, and two threads, of all deeds. *)
Lemma own_in_all (owns : list deeds) t own : owns !! t = Some own → own ⊆ ⋃+ owns.
Proof. intros Ht. destruct (owns_split owns t own Ht) as (env & -> & _). multiset_solver. Qed.

Lemma two_in_all (owns : list deeds) t t' own own' :
  owns !! t = Some own → owns !! t' = Some own' → t ≠ t' → own ⊎ own' ⊆ ⋃+ owns.
Proof.
  intros Ht Ht' Hne. destruct (owns_split owns t own Ht) as (env & -> & Henv).
  assert (own' ⊆ ∅ ⊎ env); [|multiset_solver]. rewrite <- (Henv ∅). apply (own_in_all _ t').
  by rewrite list_lookup_insert_ne.
Qed.

(** What only the holder of the board lock writes. *)
Definition metadata (l : bloc) : bool :=
  match l with
  | Ent _ publish => false
  | Ent _ _ | KeyWord _ _ | NodeByte _ _ => true
  | _ => false
  end.

(** The key of an entry, as [bb_load_key] reads it. *)
Definition named (m : bloc → Z) (i : Z) : list Z := until_nul (unwords 128 (load_list (KeyWord i) 0 16 m)).

Definition shows_key (m : bloc → Z) (i : Z) (key : list Z) : Prop :=
  m (Ent i state) = Active ∧ m (Ent i key_hash) = key_fingerprint key ∧ named m i = key.

Section tenure.
Context (g : Geometry) (pid start : nat → Z) (base : lives).
Implicit Types (m μ : bloc → Z) (st : lives) (own toks known : deeds) (i : Z) (x y : deed) (q : nat).

Definition mark (q : nat) : Z := make_token (pid q) (start q).

(** ** What a deed promises *)

Record deed_ok m x : Prop := {
  do_entry : 0 <= d_entry x < capacity g;
  do_key : shows_key m (d_entry x) (d_key x);
  do_tenancy : m (Ent (d_entry x) tenancy) = d_tenancy x;
  do_pid : m (Ent (d_entry x) owner_pid) = pid (d_proc x);
  do_start : m (Ent (d_entry x) owner_starttime) = start (d_proc x);
  do_first : ∀ j, 0 <= j < d_entry x → ¬ shows_key m j (d_key x)
}.

Record deeds_ok m st toks : Prop := {
  ds_ok : ∀ x, x ∈ toks → st (d_proc x) ≠ Unborn ∧ (st (d_proc x) = Alive → deed_ok m x);
  ds_one : ∀ x y, {[+ x; y +]} ⊆ toks →
    st (d_proc x) = Alive → st (d_proc y) = Alive → d_entry x ≠ d_entry y
}.

Lemma named_ext m m' i : (∀ w, m' (KeyWord i w) = m (KeyWord i w)) → named m' i = named m i.
Proof. intros Hm. unfold named. f_equal. f_equal. apply load_list_ext. intros. apply Hm. Qed.

Lemma shows_key_same m m' i key :
  m' (Ent i state) = m (Ent i state) → m' (Ent i key_hash) = m (Ent i key_hash) →
  (∀ w, m' (KeyWord i w) = m (KeyWord i w)) → shows_key m i key → shows_key m' i key.
Proof. intros Hs Hh Hw. unfold shows_key. by rewrite Hs, Hh, (named_ext m m' i). Qed.

Lemma shows_key_ext m m' i key :
  (∀ l, entry_of l = Some i → metadata l = true → m' l = m l) → shows_key m i key → shows_key m' i key.
Proof. intros Hm. apply shows_key_same; [..|intros w]; by apply Hm. Qed.

(** Only the entry of a deed, and the keys shown before it, matter. *)
Lemma deed_ok_ext m m' x :
  (∀ l, entry_of l = Some (d_entry x) → metadata l = true → m' l = m l) →
  (∀ j, 0 <= j < d_entry x → shows_key m' j (d_key x) → shows_key m j (d_key x)) →
  deed_ok m x → deed_ok m' x.
Proof.
  intros Hm Hj [H1 H2 H3 H4 H5 H6]. split; rewrite ?Hm by done; try done.
  - by eapply shows_key_ext.
  - intros j Hlt Hs. by apply (H6 j Hlt), Hj.
Qed.

Lemma deeds_ok_ext m m' st toks :
  (∀ l, metadata l = true → m' l = m l) → deeds_ok m st toks → deeds_ok m' st toks.
Proof.
  intros Hm [Hok Hone]. split; [|done]. intros x Hx. destruct (Hok x Hx) as [Hb Hd]. split; [done|].
  intros Ha. eapply deed_ok_ext; [|intros j _|by apply Hd]; [auto|].
  apply shows_key_ext. intros l _ Hl. symmetry. auto.
Qed.

Lemma born_alive st st' q : age st st' → st q ≠ Unborn → st' q = Alive → st q = Alive.
Proof. intros Ha Hb Hq. specialize (Ha q). rewrite Hq in Ha. by destruct (st q). Qed.

Lemma deeds_ok_age m st st' toks : age st st' → deeds_ok m st toks → deeds_ok m st' toks.
Proof.
  intros Ha [Hok Hone]. split.
  - intros x Hx. destruct (Hok x Hx) as [Hb Hd]. split; [by eapply age_born|].
    intros Hq. by apply Hd, (born_alive st st').
  - intros x y Hxy Hx Hy. eapply Hone; [done|..]; (eapply born_alive; [done| |done]); apply Hok; multiset_solver.
Qed.

(** No process that runs has a deed of entry [i]. *)
Definition vacant st toks i : Prop := ∀ x, x ∈ toks → d_entry x = i → st (d_proc x) = Dead.

Lemma vacant_age st st' toks i : age st st' → vacant st toks i → vacant st' toks i.
Proof. intros Ha Hv x Hx Hi. by eapply age_dead, Hv. Qed.

Lemma vacant_by m st toks i :
  deeds_ok m st toks → (∀ x, x ∈ toks → d_entry x = i → st (d_proc x) = Alive → deed_ok m x → False) →
  vacant st toks i.
Proof.
  intros [Hok _] Hno x Hx Hi. destruct (Hok x Hx) as [Hb Hd]. destruct (st (d_proc x)) eqn:Hq; [done| |done].
  destruct (Hno x Hx Hi Hq). by apply Hd.
Qed.

(** A deed ends: its entry is vacant for the others. *)
Lemma vacant_rest m st x toks :
  deeds_ok m st ({[+ x +]} ⊎ toks) → st (d_proc x) = Alive →
  vacant st toks (d_entry x) ∧ deeds_ok m st toks.
Proof.
  intros [Hok Hone] Hx. assert (deeds_ok m st toks) as Hd.
  { split; [intros y Hy; apply Hok; multiset_solver|]. intros y z Hyz. apply Hone. multiset_solver. }
  split; [|done]. eapply vacant_by; [done|]. intros y Hy He Hq _. apply (Hone x y); [multiset_solver|done|done|done].
Qed.

(** A deed is made of a vacant entry: nobody else is shown its key there for
    the first time. *)
Lemma deeds_ok_made m m' st toks x :
  deeds_ok m st toks → vacant st toks (d_entry x) → st (d_proc x) = Alive → deed_ok m' x →
  (∀ l, entry_of l ≠ Some (d_entry x) → metadata l = true → m' l = m l) →
  (∀ key, shows_key m' (d_entry x) key →
     shows_key m (d_entry x) key ∨ ∀ j, 0 <= j < capacity g → ¬ shows_key m j key) →
  deeds_ok m' st ({[+ x +]} ⊎ toks).
Proof.
  intros [Hok Hone] Hv Hx Hd Hm Hnew. split.
  - intros y [->%gmultiset_elem_of_singleton|Hy]%gmultiset_elem_of_disj_union; [by rewrite Hx|].
    destruct (Hok y Hy) as [Hb Hdy]. split; [done|]. intros Hq. specialize (Hdy Hq).
    assert (d_entry y ≠ d_entry x) as Hne. { intros He. specialize (Hv y Hy He). congruence. }
    eapply deed_ok_ext; [| |exact Hdy]; [intros l Hl; apply Hm; congruence|].
    intros j Hj Hs. destruct (decide (j = d_entry x)) as [->|Hj'].
    2: { eapply shows_key_ext; [|exact Hs]. intros l Hl Hml. symmetry. apply Hm; congruence. }
    destruct (Hnew _ Hs) as [?|Hno]; [done|]. destruct (Hno (d_entry y)); apply Hdy.
  - intros y z Hyz Hy Hz. assert (∀ u, u ∈ toks → st (d_proc u) = Alive → d_entry u ≠ d_entry x) as Hne.
    { intros u Hu Hq He. specialize (Hv u Hu He). congruence. }
    destruct (decide (y = x)) as [->|Hyx].
    + assert (z ∈ toks) by multiset_solver. intros He. by apply (Hne z).
    + destruct (decide (z = x)) as [->|Hzx]; [apply Hne; [multiset_solver|done]|].
      apply Hone; [multiset_solver|done|done].
Qed.

(** Only entry [i] changed, and it shows no new key. *)
Record reset i m m' : Prop := {
  rs_other : ∀ l, entry_of l ≠ Some i → metadata l = true → m' l = m l;
  rs_shows : ∀ key, shows_key m' i key → shows_key m i key
}.

Lemma reset_refl i m : reset i m m.
Proof. done. Qed.
Lemma reset_trans i m1 m2 m3 : reset i m1 m2 → reset i m2 m3 → reset i m1 m3.
Proof.
  intros [H1 S1] [H2 S2]. split; [|auto]. intros l Hl Hm. rewrite H2 by done. auto.
Qed.

Lemma reset_fewer i m m' j key : reset i m m' → shows_key m' j key → shows_key m j key.
Proof.
  intros [Ho Hs]. destruct (decide (j = i)) as [->|Hne]; [apply Hs|].
  apply shows_key_ext. intros l Hl Hm. symmetry. apply Ho; [congruence|done].
Qed.

Lemma deeds_ok_reset i m m' st toks :
  vacant st toks i → reset i m m' → deeds_ok m st toks → deeds_ok m' st toks.
Proof.
  intros Hv Hr [Hok Hone]. split; [|done]. intros x Hx. destruct (Hok x Hx) as [Hb Hd]. split; [done|].
  intros Hq. assert (d_entry x ≠ i) as Hne. { intros Hi. specialize (Hv x Hx Hi). congruence. }
  eapply deed_ok_ext; [|intros j _; by eapply reset_fewer|by apply Hd].
  intros l Hl Hm. apply (rs_other _ _ _ Hr); [congruence|done].
Qed.

Lemma reset_write i m l v :
  entry_of l = Some i → (∀ key, shows_key (<[l:=v]> m) i key → shows_key m i key) → reset i m (<[l:=v]> m).
Proof. intros Hl Hs. split; [|done]. intros l' Hl' _. apply upd_ne. congruence. Qed.

(** A write to a field that says nothing about the key. *)
Lemma reset_field i m l v :
  entry_of l = Some i → (l ≠ Ent i state ∧ l ≠ Ent i key_hash ∧ ∀ w, l ≠ KeyWord i w) → reset i m (<[l:=v]> m).
Proof.
  intros Hl (Hs & Hh & Hw). apply reset_write; [done|]. intros key.
  apply shows_key_same; [..|intros w]; by rewrite upd_ne.
Qed.

Lemma reset_hash i m : reset i m (<[Ent i key_hash := 0]> m).
Proof.
  apply reset_write; [done|]. intros key (_ & Hh & _). rewrite upd_same in Hh. by destruct (fingerprint_nonzero key).
Qed.

Lemma reset_state i m v : v ≠ Active → reset i m (<[Ent i state := v]> m).
Proof. intros Hv. apply reset_write; [done|]. intros key (Hs & _). by rewrite upd_same in Hs. Qed.

(** ** With the lock *)

Lemma agree_deeds m m' st toks : agree metadata m m' → deeds_ok m st toks → deeds_ok m' st toks.
Proof. apply deeds_ok_ext. Qed.

Section locked.
Context (K : deeds → Prop) (q : nat).

Abbreviation sp := (spec (Hdr lock_token) metadata pid start mark base deeds_ok K q).

(** The lock's holder, who knows the metadata [μ] and the deeds of the others,
    runs [p]: it keeps the lock, and [Q] holds at the end. *)
Definition locked known st μ own {A} (p : bprog A) (Q : outcome A → lives → (bloc → Z) → deeds → Prop) : Prop :=
  sp st (Some (μ, known)) own p (λ o st' ph' own',
    ∃ μ', ph' = Some (μ', known) ∧ age st st' ∧ Q o st' μ' own').

Context (known : deeds).
Abbreviation lk := (locked known).
Implicit Types (A B : Type).

Lemma lk_mono st μ own {A} (p : bprog A) (Q Q' : outcome A → lives → (bloc → Z) → deeds → Prop) :
  lk st μ own p Q → (∀ o st' μ' own', K own' → age st st' → Q o st' μ' own' → Q' o st' μ' own') → lk st μ own p Q'.
Proof.
  intros Hp HQ. eapply rule_mono; [exact Hp|]. intros o st' ph' own' HK (μ' & -> & Ha & Ho). eauto.
Qed.

Lemma lk_ret st μ own {A} (a : A) (Q : outcome A → lives → (bloc → Z) → deeds → Prop) :
  K own → Q (Val a) st μ own → lk st μ own (Ret a) Q.
Proof. intros HK HQ. apply rule_ret; [done|]. exists μ. split; [done|]. split; [apply age_refl|done]. Qed.

Lemma lk_throw st μ own {A} (e : exn) (Q : outcome A → lives → (bloc → Z) → deeds → Prop) :
  K own → Q (Exc e) st μ own → lk st μ own (Throw e) Q.
Proof. intros HK HQ. apply rule_throw; [done|]. exists μ. split; [done|]. split; [apply age_refl|done]. Qed.

Lemma lk_bind st μ own {A B} (p : bprog A) (f : A → bprog B) (Q : outcome B → lives → (bloc → Z) → deeds → Prop) :
  lk st μ own p (λ o st' μ' own', match o with
    | Val a => lk st' μ' own' (f a) Q
    | Exc e => Q (Exc e) st' μ' own' end) →
  lk st μ own (bind p f) Q.
Proof.
  intros Hp. apply rule_bind. eapply rule_mono; [exact Hp|]. intros [a|e] st' ph' own' HK (μ' & -> & Ha & Ho).
  - eapply rule_mono; [exact Ho|]. intros o st2 ph2 own2 _ (μ2 & -> & Ha2 & HQ).
    exists μ2. split; [done|]. split; [by eapply age_trans|done].
  - eauto.
Qed.

(** A call whose specification is known, and that does not throw. *)
Lemma lk_call st μ own {A B} (p : bprog A) (P : A → lives → (bloc → Z) → deeds → Prop) (f : A → bprog B)
    (Q : outcome B → lives → (bloc → Z) → deeds → Prop) :
  lk st μ own p (λ o st' μ' own', match o with Val a => P a st' μ' own' | Exc _ => False end) →
  (∀ a st' μ' own', K own' → age st st' → P a st' μ' own' → lk st' μ' own' (f a) Q) →
  lk st μ own (bind p f) Q.
Proof.
  intros Hp Hf. apply lk_bind. eapply lk_mono; [exact Hp|]. intros [a|e] st' μ' own' HK Ha HP; [by apply Hf|done].
Qed.

Lemma lk_foreach {S} k lo (s : S) (body : Z → S → bprog S) st μ own
    (J : Z → S → lives → (bloc → Z) → deeds → Prop) :
  K own → J lo s st μ own →
  (∀ i s st' μ' own', lo <= i < lo + Z.of_nat k → K own' → age st st' → J i s st' μ' own' →
     lk st' μ' own' (body i s) (λ o st2 μ2 own2, match o with
       | Val s' => J (i + 1) s' st2 μ2 own2 | Exc _ => False end)) →
  lk st μ own (foreach k lo s body) (λ o st' μ' own', match o with
    | Val s' => J (lo + Z.of_nat k) s' st' μ' own' | Exc _ => False end).
Proof.
  intros HK HJ Hb.
  apply rule_foreach with (J :=
    (λ i s st' ph own, ∃ μ', ph = Some (μ', known) ∧ age st st' ∧ J i s st' μ' own)); [done|..].
  - exists μ. split; [done|]. split; [apply age_refl|done].
  - intros i s' st' ph own' Hi HK' (μ' & -> & Ha & HJ'). eapply rule_mono; [by apply Hb|].
    intros [s2|e] st2 ph2 own2 _ (μ2 & -> & Ha2 & HJ2); [|done].
    exists μ2. split; [done|]. split; [by eapply age_trans|done].
  - intros s' st' ph own' (μ' & -> & Ha & HJ'). eauto.
Qed.

Lemma lk_for {S B} k lo (s : S) (body : Z → S → bprog (S + B)) st μ own
    (J : Z → S → lives → (bloc → Z) → deeds → Prop) (Q : outcome (S + B) → lives → (bloc → Z) → deeds → Prop) :
  K own → J lo s st μ own →
  (∀ i s st' μ' own', lo <= i < lo + Z.of_nat k → K own' → age st st' → J i s st' μ' own' →
     lk st' μ' own' (body i s) (λ o st2 μ2 own2, match o with
       | Val (inl s') => J (i + 1) s' st2 μ2 own2
       | Val (inr b) => Q (Val (inr b)) st2 μ2 own2
       | Exc e => Q (Exc e) st2 μ2 own2 end)) →
  (∀ s st' μ' own', J (lo + Z.of_nat k) s st' μ' own' → Q (Val (inl s)) st' μ' own') →
  lk st μ own (for_ k lo s body) Q.
Proof.
  intros HK HJ Hb HQ.
  apply rule_for with (J :=
    (λ i s st' ph own, ∃ μ', ph = Some (μ', known) ∧ age st st' ∧ J i s st' μ' own)); [done|..].
  - exists μ. split; [done|]. split; [apply age_refl|done].
  - intros i s' st' ph own' Hi HK' (μ' & -> & Ha & HJ'). eapply rule_mono; [by apply Hb|].
    intros [[s2|b]|e] st2 ph2 own2 _ (μ2 & -> & Ha2 & HJ2);
      exists μ2; (split; [done|]); (split; [by eapply age_trans|done]).
  - intros s' st' ph own' (μ' & -> & Ha & HJ'). eauto.
Qed.

(** An action that leaves lock and metadata alone. *)
Lemma lk_idle st μ own {A} (a : act bloc A) (Q : outcome A → lives → (bloc → Z) → deeds → Prop) :
  K own → idle (Hdr lock_token) metadata a → (∀ r, Q (Val r) st μ own) → lk st μ own (Act a Ret) Q.
Proof.
  intros HK Hi HQ. apply rule_idle; [done|apply agree_deeds|done|done|]. intros r. exists μ.
  split; [done|]. split; [apply age_refl|apply HQ].
Qed.

(** A call to the system, whose true answer may tell that an entry is vacant. *)
Lemma lk_ask st μ own {A} (a : act bloc A) (Q : outcome A → lives → (bloc → Z) → deeds → Prop) :
  K own → idle (Hdr lock_token) metadata a →
  (∀ st' r, age st st' → deeds_ok μ st' (own ⊎ known) → truthful pid start a q st' r →
     Q (Val r) st' μ own) →
  lk st μ own (Act a Ret) Q.
Proof.
  intros HK Hi HQ. apply rule_ask; [done|apply agree_deeds|done|done|].
  intros m st' env r m' Ha Hq _ HI Hs _ Ht. exists st'. split; [apply age_refl|].
  exists μ. split; [done|]. split; [done|]. apply HQ; [done| |done].
  eapply sees_inv; [apply agree_deeds|done..].
Qed.

Lemma lk_load st μ own l (Q : outcome Z → lives → (bloc → Z) → deeds → Prop) :
  K own → metadata l = true → Q (Val (μ l)) st μ own → lk st μ own (load l) Q.
Proof.
  intros HK Hl HQ. apply rule_read; [done|apply agree_deeds|done|done|]. intros st' Ha _ _.
  exists st. split; [done|]. exists μ. split; [done|]. split; [apply age_refl|done].
Qed.

(** A read that tells something of the deeds. *)
Lemma lk_learn st μ own l (Q : outcome Z → lives → (bloc → Z) → deeds → Prop) :
  K own → metadata l = true →
  (∀ st', age st st' → deeds_ok μ st' (own ⊎ known) → st' q = Alive → Q (Val (μ l)) st' μ own) →
  lk st μ own (load l) Q.
Proof.
  intros HK Hl HQ. apply rule_read; [done|apply agree_deeds|done|done|]. intros st' Ha Hq HI.
  exists st'. split; [apply age_refl|]. exists μ. split; [done|]. split; [done|]. by apply HQ.
Qed.

(** A write that makes or ends a deed. *)
Lemma lk_deed st μ own l v own' (Q : outcome unit → lives → (bloc → Z) → deeds → Prop) :
  K own → metadata l = true → K own' →
  (∀ st', age st st' → st' q = Alive → deeds_ok μ st' (own ⊎ known) →
     deeds_ok (<[l:=v]> μ) st' (own' ⊎ known) ∧ Q (Val tt) st' (<[l:=v]> μ) own') →
  lk st μ own (store l v) Q.
Proof.
  intros HK Hl HK' HQ. apply rule_write; [done|apply agree_deeds|done|done|]. intros st' Ha Hq HI.
  destruct (HQ st' Ha Hq HI). exists st', own'. split; [apply age_refl|]. split; [done|]. split; [done|].
  exists (<[l:=v]> μ). split_and!; done.
Qed.

Lemma lk_deed_bump st μ own l d own' (Q : outcome Z → lives → (bloc → Z) → deeds → Prop) :
  K own → metadata l = true → K own' →
  (∀ st', age st st' → st' q = Alive → deeds_ok μ st' (own ⊎ known) →
     deeds_ok (<[l:=u64 (μ l + d)]> μ) st' (own' ⊎ known) ∧ Q (Val (μ l)) st' (<[l:=u64 (μ l + d)]> μ) own') →
  lk st μ own (fetch_add u64 l d) Q.
Proof.
  intros HK Hl HK' HQ. apply rule_bump; [done|apply agree_deeds|done|done|]. intros st' Ha Hq HI.
  destruct (HQ st' Ha Hq HI). exists st', own'. split; [apply age_refl|]. split; [done|]. split; [done|].
  exists (<[l:=u64 (μ l + d)]> μ). split_and!; done.
Qed.

(** A write to a vacant entry that shows no new key. *)
Lemma lk_store i st μ own l v (Q : outcome unit → lives → (bloc → Z) → deeds → Prop) :
  K own → metadata l = true → vacant st (own ⊎ known) i → reset i μ (<[l:=v]> μ) →
  Q (Val tt) st (<[l:=v]> μ) own → lk st μ own (store l v) Q.
Proof.
  intros HK Hl Hv Hr HQ. apply rule_write; [done|apply agree_deeds|done|done|]. intros st' Ha Hq HI.
  exists st, own. split; [done|]. split; [by eapply deeds_ok_reset; [eapply vacant_age| |]|]. split; [done|].
  exists (<[l:=v]> μ). split; [done|]. split; [apply age_refl|done].
Qed.

Lemma lk_bump i st μ own l d (Q : outcome Z → lives → (bloc → Z) → deeds → Prop) :
  K own → metadata l = true → vacant st (own ⊎ known) i → reset i μ (<[l:=u64 (μ l + d)]> μ) →
  Q (Val (μ l)) st (<[l:=u64 (μ l + d)]> μ) own → lk st μ own (fetch_add u64 l d) Q.
Proof.
  intros HK Hl Hv Hr HQ. apply rule_bump; [done|apply agree_deeds|done|done|]. intros st' Ha Hq HI.
  exists st, own. split; [done|]. split; [by eapply deeds_ok_reset; [eapply vacant_age| |]|]. split; [done|].
  exists (<[l:=u64 (μ l + d)]> μ). split; [done|]. split; [apply age_refl|done].
Qed.

Lemma lk_when st μ own (b : bool) (p : bprog unit) (Q : outcome unit → lives → (bloc → Z) → deeds → Prop) :
  K own → (b = true → lk st μ own p Q) → (b = false → Q (Val tt) st μ own) → lk st μ own (when b p) Q.
Proof. intros HK Hp HQ. destruct b; [by apply Hp|]. apply lk_ret; auto. Qed.

(** *** Copies

    A program that only moves words of the metadata, run by the holder, does what
    it does alone. *)

Definition plain_act (area : bloc → bool) {A} (a : act bloc A) : Prop :=
  match a with
  | Load l => metadata l = true
  | Store l _ => metadata l = true ∧ area l = true
  | _ => False
  end.

Fixpoint plain (area : bloc → bool) {A} (p : bprog A) : Prop :=
  match p with
  | Ret _ => True
  | Throw _ => False
  | Act a k => plain_act area a ∧ ∀ r, plain area (k r)
  | Loop _ _ _ => False
  end.

Lemma plain_bind area {A B} (p : bprog A) (f : A → bprog B) :
  plain area p → (∀ a, plain area (f a)) → plain area (bind p f).
Proof. induction p as [a|e|R a k IH|A S T body _ s k IH]; intros Hp Hf; cbn in *; [done|done| |done]. destruct Hp. eauto. Qed.

Lemma plain_foreach area {S} k lo (s : S) (body : Z → S → bprog S) :
  (∀ i s, plain area (body i s)) → plain area (foreach k lo s body).
Proof. intros Hb. revert lo s. induction k as [|k IH]; intros lo s; [done|]. apply plain_bind; auto. Qed.

Lemma plain_when area (b : bool) (p : bprog unit) : plain area p → plain area (when b p).
Proof. by destruct b. Qed.

Lemma plain_load_words area (word : Z → bloc) len :
  (∀ w, metadata (word w) = true) → plain area (load_words word len).
Proof.
  intros Hb. unfold load_words. apply plain_bind.
  - apply plain_foreach. intros w out. split; [apply Hb|done].
  - intros out. case_match; [done|]. split; [apply Hb|done].
Qed.

Lemma plain_store_words area (word : Z → bloc) src :
  (∀ w, metadata (word w) = true ∧ area (word w) = true) → plain area (store_words word src).
Proof.
  intros Hb. unfold store_words. apply plain_bind.
  - apply plain_foreach. intros w []. split; [apply Hb|done].
  - intros []. apply plain_when. split; [apply Hb|done].
Qed.

Lemma plain_copy_field area i src : (∀ j, area (NodeByte i j) = true) → plain area (copy_field i src).
Proof.
  intros Ha. unfold copy_field. apply plain_bind; [apply plain_foreach; intros j []; split; [split; auto|done]|].
  intros []. destruct src; [|done]. apply plain_foreach. intros j []. split; [split; auto|done].
Qed.

Lemma lk_plain i area st own μ {A} (p : bprog A) n o w w' :
  K own → plain area p →
  (∀ l v μ1, area l = true → (∀ l', area l' = false → μ1 l' = μ l') →
     vacant st (own ⊎ known) i ∧ reset i μ1 (<[l:=v]> μ1)) →
  (∀ l, area l = false → w_mem w l = μ l) →
  run n p w = Some (o, w') →
  lk st (w_mem w) own p (λ o' st' μ' own', o' = o ∧ μ' = w_mem w' ∧ own' = own ∧ st' = st).
Proof.
  intros HK Hp Ha. revert n w. induction p as [a|e|R A a k IH|A S T body _ s k IH]; intros n w Hp' Hr; cbn in Hp; [..|done].
  - destruct n; [done|]. injection Hr as <- <-. by apply lk_ret.
  - done.
  - destruct Hp as [Hpa Hk]. destruct n as [|n]; [done|]. cbn in Hr.
    change (Act a k) with (bind (Act a Ret) k). apply lk_bind. destruct a; cbn in Hpa; try done.
    + apply lk_load; [done|done|]. cbn in Hr. by eapply IH.
    + destruct Hpa as [Hl Har]. destruct (Ha l v (w_mem w) Har Hp') as [Hv Hres].
      eapply (lk_store i); try done. cbn in Hr. destruct w as [m os ws]. cbn [w_mem] in *.
      specialize (IH tt o (Hk tt) n (World (<[l:=v]> m) os ws)). cbn [w_mem] in IH. apply IH; [|exact Hr].
      intros l' Hl'. rewrite upd_ne by congruence. by apply Hp'.
Qed.

Lemma lk_returns i area st μ own {A} (p : bprog A) o ws (R : A → (bloc → Z) → Prop) :
  K own → plain area p →
  (∀ l v μ1, area l = true → (∀ l', area l' = false → μ1 l' = μ l') →
     vacant st (own ⊎ known) i ∧ reset i μ1 (<[l:=v]> μ1)) →
  returns p (World μ o ws) (λ a w', R a (w_mem w')) →
  lk st μ own p (λ o' st' μ' own', match o' with
    | Val a => R a μ' ∧ own' = own ∧ st' = st | Exc _ => False end).
Proof.
  intros HK Hp Ha (n & o' & w' & Hr & HQ). eapply lk_mono.
  - eapply (lk_plain i area st own μ p n o' (World μ o ws) w'); done.
  - intros o2 st' μ' own' _ _ (-> & -> & -> & ->). by destruct o'.
Qed.

(** Reading changes nothing. *)
Lemma lk_reads st μ own {A} (p : bprog A) o ws (R : A → Prop) :
  K own → plain (λ _, false) p → returns p (World μ o ws) (λ a w', R a ∧ w_mem w' = μ) →
  lk st μ own p (λ o' st' μ' own', match o' with
    | Val a => R a ∧ μ' = μ ∧ own' = own ∧ st' = st | Exc _ => False end).
Proof.
  intros HK Hp Hr. eapply lk_mono; [by apply (lk_returns 0 (λ _, false) _ _ _ _ o ws (λ a μ', R a ∧ μ' = μ))|].
  intros [a|e] st' μ' own' _ _; [|done]. naive_solver.
Qed.
End locked.

Ltac lk1 :=
  lazymatch goal with
  | |- locked _ _ _ _ _ _ (bind _ _) _ => apply lk_bind
  | |- locked _ _ _ _ _ _ (Ret _) _ => apply lk_ret; [done|]
  | |- locked _ _ _ _ _ _ (throw _ _) _ => apply lk_throw; [done|]
  | |- locked _ _ _ _ _ _ (load _) _ => first [apply lk_load; [done|done|] | apply lk_idle; [done|done|intros ?]]
  | |- locked _ _ _ _ _ _ (if ?b then _ else _) _ => let E := fresh "E" in destruct b eqn:E
  end; lazy beta match.
Ltac lks := repeat lk1.

(** A write to a field of a vacant entry. *)
Ltac clears i := eapply (lk_store _ _ _ i); [done|done|done|
  first [by apply reset_field | by apply reset_hash | by apply reset_state | idtac]|]; lazy beta match.

Section operations.
Context (K : deeds → Prop) (q : nat) (known : deeds).
Abbreviation lk := (locked K q known).

Lemma lk_key_equals i key st μ own :
  K own → lk st μ own (key_equals i key) (λ o st' μ' own', match o with
    | Val b => (b = true ↔ named μ i = key) ∧ μ' = μ ∧ own' = own ∧ st' = st | Exc _ => False end).
Proof.
  intros HK. apply lk_reads with (o := Os 0 0 0 0 (λ _, None) 0) (ws := []); [done| |].
  - apply plain_bind; [by apply plain_load_words|done].
  - apply returns_bind, returns_load_words. cbn [w_mem]. apply returns_ret. split; [|done].
    change (nwords (Z.to_nat KEY_MAX)) with 16%nat. change (Z.to_nat KEY_MAX) with 128%nat. unfold named.
    set (copy := unwords 128 _).
    assert (∃ rest, copy = until_nul copy ++ rest) as [rest Hrest].
    { clear. induction copy as [|b bs [rest IH]]; [by exists []|]. cbn. destruct (b =? 0); [by eexists|].
      exists rest. cbn. by rewrite <- IH. }
    rewrite andb_true_iff, Nat.eqb_eq, bool_decide_eq_true. split.
    + intros [Hlen Htake]. rewrite <- Htake, <- Hlen. rewrite Hrest at 3. by rewrite take_app_length.
    + intros <-. split; [done|]. rewrite Hrest at 2. by rewrite take_app_length.
Qed.

Lemma lk_clear_identity i st μ own (Q : outcome unit → lives → (bloc → Z) → deeds → Prop) :
  K own → vacant st (own ⊎ known) i →
  (∀ μ', reset i μ μ' → μ' (Ent i state) = μ (Ent i state) → (∀ key, ¬ shows_key μ' i key) → Q (Val tt) st μ' own) →
  lk st μ own (clear_identity i) Q.
Proof.
  intros HK Hv HQ. unfold clear_identity. lk1. clears i. lk1. clears i. clears i.
  match goal with |- Q _ _ ?m _ => assert (reset i μ m) as Hr end.
  { eapply reset_trans; [|by apply reset_field]. eapply reset_trans; [apply reset_hash|by apply reset_field]. }
  apply HQ; [done|by mem|]. intros key (_ & Hh & _). mem. by destruct (fingerprint_nonzero key).
Qed.

Lemma lk_publish_free i st μ own (Q : outcome unit → lives → (bloc → Z) → deeds → Prop) :
  K own → vacant st (own ⊎ known) i → (∀ μ', reset i μ μ' → Q (Val tt) st μ' own) →
  lk st μ own (publish_free i) Q.
Proof.
  intros HK Hv HQ. unfold publish_free. lk1. apply lk_clear_identity; [done|done|]. intros μ' Hr _ _.
  clears i. apply HQ. eapply reset_trans; [done|by apply reset_state].
Qed.

(** An entry whose state or hash says it is free has no living owner. *)
Lemma vacant_state i m st toks : deeds_ok m st toks → m (Ent i state) ≠ Active → vacant st toks i.
Proof. intros Hd Hs. eapply vacant_by; [done|]. intros x _ <- _ [_ (? & _) _ _ _ _]. done. Qed.
Lemma vacant_hash i m st toks : deeds_ok m st toks → m (Ent i key_hash) = 0 → vacant st toks i.
Proof.
  intros Hd Hs. eapply vacant_by; [done|]. intros x _ <- _ [_ (_ & Hh & _) _ _ _ _].
  destruct (fingerprint_nonzero (d_key x)). congruence.
Qed.

Lemma lk_normalize_entry i st μ own (Q : outcome bool → lives → (bloc → Z) → deeds → Prop) :
  K own → (∀ r st' μ', age st st' → reset i μ μ' → Q (Val r) st' μ' own) →
  lk st μ own (normalize_entry i) Q.
Proof.
  intros HK HQ. unfold normalize_entry. lk1. apply lk_learn; [done|done|]. intros st1 A1 D1 _.
  destruct (Z.eqb_spec (μ (Ent i state)) Claiming) as [Hs|_]; [|destruct (Z.eqb_spec (μ (Ent i state)) Active) as [Hs|_];
    [|destruct (Z.eqb_spec (μ (Ent i state)) Free) as [Hs|_]]].
  - assert (vacant st1 (own ⊎ known) i) as Hv by (eapply vacant_state; [done|by rewrite Hs]).
    lk1. apply lk_clear_identity; [done|done|]. intros μ1 R1 _ _. lk1. clears i. lk1.
    apply HQ; [done|]. eapply reset_trans; [done|by apply reset_state].
  - lk1. apply lk_learn; [done|done|]. intros st2 A2 D2 _. destruct (Z.eqb_spec (μ (Ent i key_hash)) 0) as [Hh|_].
    + assert (vacant st2 (own ⊎ known) i) as Hv by by eapply vacant_hash.
      lk1. apply lk_clear_identity; [done|done|]. intros μ1 R1 _ _. lk1. clears i. lk1.
      apply HQ; [by eapply age_trans|]. eapply reset_trans; [done|by apply reset_state].
    + lk1. apply HQ; [by eapply age_trans|apply reset_refl].
  - assert (vacant st1 (own ⊎ known) i) as Hv by (eapply vacant_state; [done|by rewrite Hs]).
    lks; try (by apply HQ; [done|apply reset_refl]);
      (apply lk_clear_identity; [done|done|]; intros μ1 R1 _ _; lk1; by apply HQ).
  - lk1. apply HQ; [done|apply reset_refl].
Qed.

(** No entry shows a key it did not show. *)
Definition fewer μ μ' : Prop := ∀ j key, shows_key μ' j key → shows_key μ j key.

Lemma fewer_refl μ : fewer μ μ.
Proof. by intros j key. Qed.
Lemma reset_is_fewer i μ μ' : reset i μ μ' → fewer μ μ'.
Proof. intros Hr j key. by eapply reset_fewer. Qed.

Lemma lk_repair_board cap st μ own :
  K own → lk st μ own (repair_board cap) (λ o st' μ' own', match o with
    | Val _ => own' = own ∧ fewer μ μ' | Exc _ => False end).
Proof.
  intros HK. unfold repair_board.
  apply (lk_foreach _ _ _ _ _ _ _ _ _ _ (λ _ _ _ μ' own', own' = own ∧ fewer μ μ')); [done|by split; [|apply fewer_refl]|].
  intros i s st1 μ1 own1 _ _ _ [-> H1]. lk1. apply lk_normalize_entry; [done|]. intros r st2 μ2 _ H2. lk1.
  split; [done|]. intros j key Hs. by eapply H1, reset_is_fewer.
Qed.

(** A verdict on what entry [i] records. *)
Lemma lk_owner_is_dead i st μ own (Q : outcome bool → lives → (bloc → Z) → deeds → Prop) :
  K own → (∀ st', age st st' → Q (Val false) st' μ own) →
  (∀ st', age st st' → vacant st' (own ⊎ known) i → Q (Val true) st' μ own) →
  lk st μ own (Process.owner_is_dead (μ (Ent i owner_pid)) (μ (Ent i owner_starttime))) Q.
Proof.
  intros HK Hno Hyes. unfold Process.owner_is_dead. lk1; [lk1; apply Hno, age_refl|]. lk1.
  apply lk_ask; [done|done|]. intros st1 r A1 D1 Hr.
  destruct r; cbn [negb].
  2: { lk1. apply Hyes; [done|]. eapply vacant_by; [done|]. intros x _ <- Hq Hd.
       apply (Hr eq_refl _ Hq). by rewrite (do_pid _ _ Hd). }
  lk1. apply lk_ask; [done|done|]. intros st2 [s ex] A2 D2 Hr2. cbn in Hr2.
  assert (age st st2) as A12 by by eapply age_trans.
  assert (ex = true ∨ (μ (Ent i owner_starttime) ≠ 0 ∧ s ≠ 0 ∧ μ (Ent i owner_starttime) ≠ s) →
    vacant st2 (own ⊎ known) i) as Hv.
  { intros Hc. eapply vacant_by; [done|]. intros x _ <- Hq Hd.
    destruct (Hr2 _ Hq (eq_sym (do_pid _ _ Hd))) as [[= -> ->]|(_ & [= -> ->])].
    - rewrite (do_start _ _ Hd) in Hc. naive_solver.
    - naive_solver. }
  destruct ex; [lk1; auto|]. lk1; [lk1; auto|]. lk1.
  apply orb_false_iff in E0 as [Hs0 Hs1]. apply Z.eqb_neq in Hs0, Hs1.
  destruct (Z.eqb_spec (μ (Ent i owner_starttime)) s); cbn [negb]; [auto|].
  apply Hyes; [done|]. apply Hv. by right.
Qed.

Lemma lk_sweep_entry i st μ own (Q : outcome bool → lives → (bloc → Z) → deeds → Prop) :
  K own → (∀ r st' μ', age st st' → reset i μ μ' → Q (Val r) st' μ' own) →
  lk st μ own (sweep_entry i) Q.
Proof.
  intros HK HQ. unfold sweep_entry. lk1. apply lk_normalize_entry; [done|]. intros r st1 μ1 A1 R1.
  destruct r; [lk1; by apply HQ|]. lk1. lk1. lk1; [lk1; by apply HQ|]. lk1. lk1. lk1.
  apply lk_owner_is_dead; [done|intros st2 A2..]; cbn [negb].
  - lk1. apply HQ; [by eapply age_trans|done].
  - intros Hv. lk1. eapply (lk_bump _ _ _ i); [done|done|done|by apply reset_field|]. lazy beta match. lk1.
    apply lk_publish_free; [done|done|]. intros μ2 R2. lk1. apply HQ; [by eapply age_trans|].
    eapply reset_trans; [done|]. eapply reset_trans; [|exact R2]. by apply reset_field.
Qed.

Lemma lk_sweep_locked cap st μ own :
  K own → lk st μ own (sweep_locked cap) (λ o st' μ' own', match o with
    | Val _ => own' = own ∧ fewer μ μ' | Exc _ => False end).
Proof.
  intros HK. unfold sweep_locked.
  apply (lk_foreach _ _ _ _ _ _ _ _ _ _ (λ _ _ _ μ' own', own' = own ∧ fewer μ μ')); [done|by split; [|apply fewer_refl]|].
  intros i s st1 μ1 own1 _ _ _ [-> H1]. lk1. apply lk_sweep_entry; [done|]. intros r st2 μ2 _ H2. lk1.
  split; [done|]. intros j key Hs. by eapply H1, reset_is_fewer.
Qed.

Lemma lk_notify st μ own (Q : outcome unit → lives → (bloc → Z) → deeds → Prop) :
  K own → Q (Val tt) st μ own → lk st μ own notify_change Q.
Proof.
  intros HK HQ. unfold notify_change. lk1. apply lk_idle; [done| |intros r].
  { by intros l [= <-]. }
  lk1. lk1. apply lk_when; [done|intros _|done].
  apply lk_idle; [done|done|]. by intros [].
Qed.

(** *** Making a deed *)

Context (Hpid : ∀ q, pid q ≠ 0).
Context (Hadd : ∀ x own, K own → K ({[+ x +]} ⊎ own)).

Definition deed_of (q : nat) (w : Writer) : deed := Deed q (w_entry_idx_ w) (w_tenancy_ w) (w_key_ w).

(** The handle a declaration returns. *)
Record granted (w : Writer) : Prop := {
  gr_base : w_base_ w = true;
  gr_entry : 0 <= w_entry_idx_ w < capacity g;
  gr_geometry : w_geometry_ w = g;
  gr_pid : w_owner_pid_ w = pid q
}.

Definition same_but (f : bloc → bool) μ μ' : Prop := ∀ l, f l = false → μ' l = μ l.

Definition node_byte i (l : bloc) : bool := match l with NodeByte j _ => j =? i | _ => false end.
Definition key_word i (l : bloc) : bool := match l with KeyWord j _ => j =? i | _ => false end.

Lemma lk_copy_field i src st μ own :
  K own → vacant st (own ⊎ known) i → lk st μ own (copy_field i src) (λ o st' μ' own', match o with
    | Val _ => same_but (node_byte i) μ μ' ∧ own' = own ∧ st' = st | Exc _ => False end).
Proof.
  intros HK Hv. apply lk_returns with (i := i) (area := node_byte i) (o := Os 0 0 0 0 (λ _, None) 0) (ws := [])
    (R := λ _ μ', same_but (node_byte i) μ μ'); [done| | |].
  - apply plain_copy_field. intros j. apply Z.eqb_refl.
  - intros [| | |j k| |] v μ1 Hl _; try done. apply Z.eqb_eq in Hl as ->. split; [done|]. by apply reset_field.
  - apply returns_copy_field. intros m' Hm l Hl. apply Hm. intros j ->. cbn in Hl. by rewrite Z.eqb_refl in Hl.
Qed.

Lemma same_but_reset i μ μ' : same_but (node_byte i) μ μ' → reset i μ μ'.
Proof.
  intros Hm. split.
  - intros l Hl _. apply Hm. destruct l; try done. apply Z.eqb_neq. cbn in Hl. congruence.
  - intros key. apply shows_key_same; [| |intros w]; symmetry; by apply Hm.
Qed.

(** The process's own identity, as it reads it. *)
Definition self_ok (self : Process.SelfIdentity) : Prop :=
  Process.self_pid self = pid q ∧ Process.self_starttime self = start q.

(** Nobody that runs has the deed of an entry that may be taken. *)
Lemma lk_entry_takeable i st μ own (Q : outcome bool → lives → (bloc → Z) → deeds → Prop) :
  K own → deeds_ok μ st (own ⊎ known) → (∀ st', age st st' → Q (Val false) st' μ own) →
  (∀ st', age st st' → vacant st' (own ⊎ known) i → Q (Val true) st' μ own) →
  lk st μ own (entry_takeable (μ (Ent i owner_pid)) (μ (Ent i owner_starttime))) Q.
Proof using Hpid.
  intros HK Hd Hno Hyes. unfold entry_takeable. destruct (Z.eqb_spec (μ (Ent i owner_pid)) 0) as [Hz|Hz].
  - lk1. apply Hyes; [apply age_refl|]. eapply vacant_by; [done|]. intros x _ <- _ Hx.
    apply (Hpid (d_proc x)). by rewrite <- (do_pid _ _ Hx).
  - by apply lk_owner_is_dead.
Qed.

Lemma lk_take_over b self key node i st μ own :
  K own → geometry_ b = g → self_ok self → 0 <= i < capacity g →
  (∀ j, 0 <= j < i → ¬ shows_key μ j key) →
  lk st μ own (take_over b self key node i) (λ o st' μ' own', match o with
    | Val None => own' = own ∧ μ' = μ ∧ ¬ shows_key μ i key
    | Val (Some w) => own' = {[+ deed_of q w +]} ⊎ own ∧ granted w ∧ w_key_ w = key
    | Exc _ => own' = own end).
Proof using Hpid Hadd.
  intros HK Hg [Hsp Hss] Hi Hfirst. unfold take_over.
  lk1. lk1. lk1; [lk1; by repeat split; intros (? & _); apply negb_true_iff, Z.eqb_neq in E|].
  apply negb_false_iff, Z.eqb_eq in E as Hs. clear E.
  lk1. lk1. lk1; [lk1; by repeat split; intros (_ & ? & _); apply negb_true_iff, Z.eqb_neq in E|].
  apply negb_false_iff, Z.eqb_eq in E as Hh. clear E.
  lk1. eapply lk_mono; [by apply lk_key_equals|]. intros [same|e] st1 μ1 own1 _ A1; [|done].
  intros (Hkey & -> & -> & ->). destruct same; cbn [negb]; [|lk1; repeat split; intros (_ & _ & ?); naive_solver].
  assert (shows_key μ i key) as Hshows by (by split_and!; [..|apply Hkey]).
  lk1. apply lk_learn; [done|done|]. intros st2 A2 D2 _. lk1. lk1. lk1.
  apply lk_entry_takeable; [done|done|intros st3 A3..]; cbn [negb]; [lk1; done|]. intros Hv.
  lk1. eapply lk_mono; [by apply lk_copy_field|]. intros [[]|e] st4 μ1 own1 _ A4; [|done].
  intros (Hm1 & -> & ->). pose proof (same_but_reset _ _ _ Hm1) as R1.
  assert (∀ l, node_byte i l = false → μ1 l = μ l) as Hsame by done.
  lk1. clears i. lk1. clears i. lk1.
  set (t := u64 (μ (Ent i tenancy) + 1)). set (x := Deed q i t key).
  assert (K ({[+ x +]} ⊎ own)) as HK' by by apply Hadd.
  apply lk_deed_bump with (own' := {[+ x +]} ⊎ own); [done|done|done|]. intros st5 A5 Hq D5.
  rewrite upd_ne, upd_ne, (Hsame (Ent i tenancy)) by done. fold t. rewrite Hsp, Hss in D5 |- *. split.
  - rewrite <- (assoc_L (⊎)). eapply (deeds_ok_made _ _ _ _ x D5).
    + by eapply vacant_age.
    + done.
    + split; cbn [d_entry d_key d_tenancy d_proc x]; [done| |by mem|by mem|by mem|].
      * eapply shows_key_same; [..|exact Hshows]; [..|intros w]; mem; by rewrite Hsame.
      * intros j Hj Hs'. apply (Hfirst j Hj). eapply shows_key_ext; [|exact Hs']. intros l Hl _.
        assert (∀ f, Ent i f ≠ l) by (intros f <-; cbn in Hl; injection Hl; lia). rewrite !upd_ne by done.
        symmetry. apply Hsame. destruct l; try done. apply Z.eqb_neq. cbn in Hl. injection Hl. lia.
    + intros l Hl _. apply upd_ne. intros <-. by apply Hl.
    + intros k Hk. left. eapply shows_key_same; [..|exact Hk]; [..|intros w]; symmetry; by rewrite upd_ne.
  - lazy beta match. lk1. apply lk_idle; [done|done|]. intros p. lk1.
    apply lk_notify; [done|]. lk1. by rewrite Hg.
Qed.

Definition absent μ key : Prop := ∀ j, 0 <= j < capacity g → ¬ shows_key μ j key.

Lemma lk_store_key i key st μ own :
  K own → key_ok key → vacant st (own ⊎ known) i → μ (Ent i state) ≠ Active →
  lk st μ own (bb_store_key i key) (λ o st' μ' own', match o with
    | Val _ => (same_but (key_word i) μ μ' ∧ named μ' i = key) ∧ own' = own ∧ st' = st | Exc _ => False end).
Proof.
  intros HK Hkey Hv Hs. apply lk_returns with (i := i) (area := key_word i) (o := Os 0 0 0 0 (λ _, None) 0) (ws := [])
    (R := λ _ μ', same_but (key_word i) μ μ' ∧ named μ' i = key); [done| | |].
  - apply plain_store_words. intros w. split; [done|apply Z.eqb_refl].
  - intros [| |j w| | |] v μ1 Hl Hm; try done. apply Z.eqb_eq in Hl as ->. split; [done|].
    apply reset_write; [done|]. intros k (Hst & _). rewrite upd_ne, Hm in Hst by done. done.
  - apply returns_store_words. cbn [set_mem w_mem]. split.
    + intros l Hl. apply store_list_other. intros j _ ->. cbn in Hl. by rewrite Z.eqb_refl in Hl.
    + assert (load_list (KeyWord i) 0 16 (store_list (KeyWord i) 0 (words_of (key_bytes key)) μ) = words_of (key_bytes key)) as Hl.
      { replace 16%nat with (length (words_of (key_bytes key))) by (by rewrite length_words_of, length_key_bytes).
        apply load_store_list. by intros ? ? [=]. }
      unfold named. rewrite Hl, <- (length_key_bytes key) by done.
      rewrite unwords_words_of by (by apply key_bytes_u8). rewrite key_bytes_ok by done. apply until_nul_key, Hkey.
Qed.

Lemma lk_claim_entry self key node i st μ own :
  K own → self_ok self → key_ok key → 0 <= i < capacity g → absent μ key →
  lk st μ own (claim_entry self key node i) (λ o st' μ' own', match o with
    | Val false => own' = own ∧ μ' = μ
    | Val true => own' = {[+ Deed q i (μ' (Ent i tenancy)) key +]} ⊎ own
    | Exc _ => False end).
Proof using Hadd.
  intros HK [Hsp Hss] Hkey Hi Hno. unfold claim_entry.
  lk1. apply lk_learn; [done|done|]. intros st1 A1 D1 _. lk1; [by lk1|]. apply negb_false_iff, Z.eqb_eq in E as Hf. clear E.
  assert (vacant st1 (own ⊎ known) i) as Hv by (eapply vacant_state; [done|by rewrite Hf]).
  lk1. clears i. lk1. apply lk_idle; [done|by intros l [= <-]|intros []].
  lk1. eapply lk_mono; [apply lk_store_key; [done|done|done|by rewrite upd_same]|].
  intros [[]|e] st2 μ2 own2 _ _; [|done]. intros ((Hm2 & Hn2) & -> & ->).
  lk1. eapply lk_mono; [by apply lk_copy_field|]. intros [[]|e] st3 μ3 own3 _ _; [|done]. intros (Hm3 & -> & ->).
  assert (∀ f, f ≠ state → μ3 (Ent i f) = μ (Ent i f)) as Hfield.
  { intros f Hne. rewrite Hm3, Hm2 by done. rewrite upd_ne; [done|]. congruence. }
  assert (μ3 (Ent i state) = Claiming) as Hs3 by (rewrite Hm3, Hm2 by done; apply upd_same).
  assert (named μ3 i = key) as Hn3.
  { rewrite <- Hn2. apply named_ext. intros w. by apply Hm3. }
  lk1. apply lk_idle; [done|done|intros now]. lk1. clears i. lk1. clears i. lk1. clears i. lk1. clears i.
  { apply reset_write; [done|]. intros k (Hs & _). rewrite !upd_ne, Hs3 in Hs by done. done. }
  lk1. eapply (lk_bump _ _ _ i); [done|done|done|by apply reset_field|]. lazy beta match. lk1.
  set (μ4 := <[Ent i tenancy := _]> _). set (x := Deed q i (μ4 (Ent i tenancy)) key).
  assert (K ({[+ x +]} ⊎ own)) as HK' by by apply Hadd.
  assert (∀ l, entry_of l ≠ Some i → metadata l = true → μ4 l = μ l) as Hother.
  { intros l Hl Hml. unfold μ4. assert (∀ f, Ent i f ≠ l) by (intros f <-; by apply Hl). rewrite !upd_ne by done.
    rewrite Hm3 by (destruct l; try done; apply Z.eqb_neq; cbn in Hl; congruence).
    rewrite Hm2 by (destruct l; try done; apply Z.eqb_neq; cbn in Hl; congruence). by rewrite upd_ne. }
  assert (named μ4 i = key) as Hn4. { rewrite <- Hn3. apply named_ext. intros w. unfold μ4. by mem. }
  apply lk_deed with (own' := {[+ x +]} ⊎ own); [done|done|done|]. intros st5 A5 Hq D5. split.
  - rewrite <- (assoc_L (⊎)). eapply (deeds_ok_made _ _ _ _ x D5); [by eapply vacant_age|done|..].
    + split; cbn [d_entry d_key d_tenancy d_proc x]; [done| |by rewrite upd_ne| | |].
      * split; [by mem|]. split; [unfold μ4; by mem|]. rewrite <- Hn4. apply named_ext. intros w. by mem.
      * unfold μ4. rewrite Hsp. by mem.
      * unfold μ4. rewrite Hss. by mem.
      * intros j Hj Hs. apply (Hno j ltac:(lia)). eapply shows_key_ext; [|exact Hs]. intros l Hl Hml.
        rewrite upd_ne by (intros <-; cbn in Hl; injection Hl; lia). symmetry. apply Hother; [|done]. rewrite Hl. intros [= ->]. lia.
    + intros l Hl _. apply upd_ne. intros <-. by apply Hl.
    + intros k (_ & _ & Hk). right. assert (k = key) as ->.
      { rewrite <- Hk, <- Hn4. apply named_ext. intros w. by mem. }
      intros j Hj Hs. destruct (decide (j = i)) as [->|Hne].
      * destruct Hs as (Hs & _). unfold μ4 in Hs. mem. by rewrite Hs3 in Hs.
      * apply (Hno j Hj). eapply shows_key_ext; [|exact Hs]. intros l Hl Hml. symmetry. apply Hother; [|done]. congruence.
  - lazy beta match. lk1. unfold x. by mem.
Qed.

Context (Hcap : capacity g < INVALID_SLOT).

Lemma lk_claim_free_slot cap self key node st μ own :
  K own → self_ok self → key_ok key → cap = capacity g → absent μ key →
  lk st μ own (claim_free_slot cap self key node) (λ o st' μ' own', match o with
    | Val i => (i = INVALID_SLOT ∧ own' = own ∧ μ' = μ) ∨
               (0 <= i < capacity g ∧ own' = {[+ Deed q i (μ' (Ent i tenancy)) key +]} ⊎ own)
    | Exc _ => False end).
Proof using Hadd.
  intros HK Hself Hkey -> Hno. unfold claim_free_slot. lk1.
  apply lk_for with (J := λ _ _ _ μ' own', own' = own ∧ μ' = μ); [done|done| |].
  - intros i [] st1 μ1 own1 Hi _ _ [-> ->]. lk1.
    eapply lk_mono; [apply lk_claim_entry; [done|done|done|lia|done]|].
    intros [[]|e] st2 μ2 own2 HK2 _ H2; [| |done]; lk1; [|done]. lk1. right. split; [lia|done].
  - intros [] st1 μ1 own1 [-> ->]. lk1. by left.
Qed.

Lemma fewer_absent μ μ' key : fewer μ μ' → absent μ key → absent μ' key.
Proof. intros Hf Hno j Hj Hs. by apply (Hno j Hj), Hf. Qed.

Lemma lk_declare_locked b self key node st μ own :
  K own → geometry_ b = g → self_ok self → key_ok key →
  lk st μ own (declare_locked b self key node) (λ o st' μ' own', match o with
    | Val w => own' = {[+ deed_of q w +]} ⊎ own ∧ granted w ∧ w_key_ w = key
    | Exc _ => own' = own end).
Proof using All.
  intros HK Hg Hself Hkey. unfold declare_locked. rewrite Hg. lk1.
  apply lk_for with (J := λ i _ _ μ' own', own' = own ∧ μ' = μ ∧ ∀ j, 0 <= j < i → ¬ shows_key μ j key).
  { done. } { split_and!; [done|done|lia]. }
  { intros i [] st1 μ1 own1 Hi _ _ (-> & -> & Hfirst). lk1.
    eapply lk_mono; [apply lk_take_over; [done|done|done|lia|done]|].
    intros [[w|]|e] st2 μ2 own2 HK2 _ H2; [by do 2 lk1| |done]. lk1. destruct H2 as (-> & -> & Hi2).
    split_and!; [done|done|]. intros j Hj. destruct (decide (j = i)) as [->|]; [done|]. apply Hfirst. lia. }
  intros [] st1 μ1 own1 (-> & -> & Hscan). lazy beta match.
  assert (absent μ key) as Hno. { intros j Hj. apply Hscan. lia. }
  lk1. eapply lk_mono; [by apply lk_claim_free_slot|]. intros [i|e] st2 μ2 own2 HK2 _ Hclaim; [|done].
  lk1. apply lk_mono with (Q := λ o st' μ' own', match o with
    | Val i => (i = INVALID_SLOT ∧ own' = own) ∨ (0 <= i < capacity g ∧ own' = {[+ Deed q i (μ' (Ent i tenancy)) key +]} ⊎ own)
    | Exc _ => False end).
  { destruct Hclaim as [(-> & -> & ->)|(Hi & ->)].
    - rewrite Z.eqb_refl. lk1. eapply lk_mono; [by apply lk_sweep_locked|].
      intros [n|e] st3 μ3 own3 _ _; [|done]. intros [-> Hf]. lk1; [|lk1; by left].
      eapply lk_mono; [apply lk_claim_free_slot; try done; by eapply fewer_absent|].
      intros [i|e] st4 μ4 own4 _ _ H4; [|done]. destruct H4 as [(-> & -> & _)|?]; [by left|by right].
    - rewrite (proj2 (Z.eqb_neq _ _)) by lia. lk1. by right. }
  intros [j|e] st3 μ3 own3 HK3 _ Hend; [|done]. destruct Hend as [[-> ->]|[Hj Hown]].
  - rewrite Z.eqb_refl. cbn [negb]. by lk1.
  - rewrite (proj2 (Z.eqb_neq _ _)) by lia. cbn [negb]. lk1. lk1. lk1. apply lk_notify; [done|]. lk1.
    destruct Hself as [-> _]. by rewrite Hown.
Qed.

(** *** Ending one *)

(** The owner's release; [x] is its deed. *)
Lemma lk_release_locked x st μ own :
  K ({[+ x +]} ⊎ own) → K own → d_proc x = q →
  lk st μ ({[+ x +]} ⊎ own) (release_locked (d_entry x) (d_tenancy x)) (λ o st' μ' own', match o with
    | Val e => e = Ok ∧ own' = own | Exc _ => False end).
Proof using Type.
  clear Hpid Hadd Hcap. intros HKx HK Hq. unfold release_locked. set (i := d_entry x).
  assert (∀ st', deeds_ok μ st' ({[+ x +]} ⊎ own ⊎ known) → st' q = Alive → deed_ok μ x) as Hdeed.
  { intros st' [Hok _] Ha. apply Hok; [multiset_solver|by rewrite Hq]. }
  lk1. apply lk_learn; [done|done|]. intros st1 A1 D1 L1. pose proof (Hdeed _ D1 L1) as Hd. clear Hdeed.
  unfold i. rewrite (proj1 (do_key _ _ Hd)). change (Active =? Active) with true. lk1. lk1. lk1. lk1.
  rewrite (do_tenancy _ _ Hd), Z.eqb_refl. cbn [negb]. lazy beta match. fold i.
  lk1. apply lk_deed with (own' := own); [done|done|done|]. intros st2 A2 L2 D2. rewrite <- (assoc_L (⊎)) in D2.
  destruct (vacant_rest _ _ _ _ D2) as [Hv D2']; [by rewrite Hq|]. fold i in Hv. split.
  { eapply deeds_ok_reset; [exact Hv| |done]. by apply reset_field. }
  lazy beta match. lk1. clears i. lk1. eapply (lk_bump _ _ _ i); [done|done|done|by apply reset_field|].
  lazy beta match. lk1. apply lk_notify; [done|]. by lk1.
Qed.
End operations.

(** ** Without the lock *)

(** What anybody may write. *)
Definition open_to_all (l : bloc) : Prop := l ≠ Hdr lock_token ∧ metadata l = false.

Section outside.
Context (K : deeds → Prop) (q : nat).
Abbreviation sp := (spec (Hdr lock_token) metadata pid start mark base deeds_ok K q).
Implicit Types (ph : option ((bloc → Z) * deeds)).

Lemma writes_touches {R} (a : act bloc R) l : touches a = Some l → ∃ r, writes a r = Some l.
Proof. destruct a; cbn; try done; intros [= ->]; first [by exists tt|by exists (true, 0)|by exists 0]. Qed.

(** A program that writes what anybody may write, with or without the lock. *)
Lemma rule_tame st ph own {A} (p : bprog A) (Q : A → Prop) E :
  K own → tame open_to_all p Q E →
  sp st ph own p (λ o st' ph' own', st' = st ∧ ph' = ph ∧ own' = own ∧
    match o with Val a => Q a | Exc e => E e end).
Proof.
  intros HK. revert Q. induction p as [a|e|R A a k IH|A S B body _ s k _]; intros Q Hp; cbn in Hp.
  - by apply rule_ret.
  - by apply rule_throw.
  - change (Act a k) with (bind (Act a Ret) k). apply rule_bind. apply rule_idle; [done|apply agree_deeds|done| |].
    + intros l Hl. destruct (writes_touches a l Hl) as [r Hr]. by apply (Hp r).
    + intros r. apply IH. apply Hp.
  - done.
Qed.

(** The same, by the holder. *)
Lemma lk_tame known st μ own {A} (p : bprog A) (Q : A → Prop) E :
  K own → tame open_to_all p Q E →
  locked K q known st μ own p (λ o st' μ' own', own' = own ∧ match o with Val a => Q a | Exc e => E e end).
Proof.
  intros HK Hp. eapply rule_mono; [by eapply rule_tame|]. intros o st' ph own' _ (-> & -> & -> & Ho).
  exists μ. split; [done|]. split; [apply age_refl|done].
Qed.

Lemma tame_weaken (P P' : bloc → Prop) {A} (p : bprog A) (Q : A → Prop) E :
  (∀ l, P l → P' l) → tame P p Q E → tame P' p Q E.
Proof.
  intros HP. revert Q. induction p as [a|e|R A a k IH|A S B body _ s k _]; intros Q Hp; cbn in *; auto.
  intros r. destruct (Hp r) as [Hw Hk]. split; [intros l Hl; by apply HP, Hw|by apply IH].
Qed.

Lemma tame_notify_change : tame open_to_all notify_change (λ _, True) (λ _, False).
Proof.
  unfold notify_change. tame_with (λ _ : Z, True); [by apply tame_act; [intros r l [= <-]|]|].
  intros _ _. tames; [|done]. apply tame_act; [done|by intros []].
Qed.

(** ** Taking the lock *)

Context (Hpid : ∀ q, 0 < pid q < 4294967296).
(** No two processes that may run have the same token. *)
Context (Hmark : ∀ q q', base q ≠ Dead → base q' ≠ Dead → mark q = mark q' → q = q').

Lemma token_pid_mark q' : token_pid (mark q') = pid q'.
Proof using Hpid. apply token_pid_make. specialize (Hpid q'). lia. Qed.

Lemma mark_nonzero q' : mark q' ≠ 0.
Proof using Hpid. intros H0. pose proof (token_pid_mark q') as Ht. rewrite H0 in Ht. specialize (Hpid q'). change (token_pid 0) with 0 in Ht. lia. Qed.

(** The holder's token [held] was seen in the lock; the verdict is about it. *)
Lemma rule_token_holder_dead held st own :
  K own → (∃ q0, mark q0 = held ∧ base q0 ≠ Dead ∧ st q0 ≠ Unborn) →
  sp st None own (token_holder_dead held) (λ o st' ph' own', ph' = None ∧ own' = own ∧
    match o with Val dead => dead = true → ∀ q', mark q' = held → st' q' = Dead | Exc _ => False end).
Proof using Hpid Hmark.
  intros HK (q0 & <- & Hb0 & Hborn). unfold token_holder_dead. rewrite token_pid_mark.
  rewrite (proj2 (Z.eqb_neq _ _)) by (specialize (Hpid q0); lia).
  assert (∀ m st', age st st' → lock_ok (Hdr lock_token) mark base m st' → st' q0 ≠ Alive →
    ∀ q', mark q' = mark q0 → st' q' = Dead) as Hdead.
  { intros m st' Ha [Hbase _] Hq q' Hq'. destruct (decide (base q' = Dead)) as [Hd|Hd].
    - by eapply age_dead.
    - apply Hmark in Hq' as ->; [|done..]. pose proof (age_born _ _ _ Ha Hborn). by destruct (st' q0). }
  apply rule_bind. apply rule_ask; [done|apply agree_deeds|done|done|].
  intros m1 st1 env1 r m1' A1 _ L1 _ _ _ Hr. exists st1. split; [apply age_refl|]. destruct r; cbn [negb].
  2: { apply rule_ret; [done|]. split_and!; try done. intros _. eapply Hdead; [done..|]. intros Hq. by apply (Hr eq_refl q0 Hq). }
  apply rule_bind. apply rule_ask; [done|apply agree_deeds|done|done|].
  intros m2 st2 env2 [s ex] m2' A2 _ L2 _ _ _ Hr2. exists st2. split; [apply age_refl|]. cbn in Hr2.
  assert (age st st2) as A12 by by eapply age_trans.
  assert (ex = true ∨ s ≠ 0 ∧ make_token (pid q0) s ≠ mark q0 → ∀ q', mark q' = mark q0 → st2 q' = Dead) as Hv.
  { intros Hc. eapply Hdead; [done..|]. intros Hq. destruct (Hr2 q0 Hq eq_refl) as [[= -> ->]|(_ & [= -> ->])]; naive_solver. }
  destruct ex; [by apply rule_ret; [|auto]|]. destruct (Z.eqb_spec s 0) as [|Hs]; [by apply rule_ret|].
  apply rule_ret; [done|]. split_and!; try done. intros Hn%negb_true_iff%Z.eqb_neq. apply Hv. by right.
Qed.

(** Taking the lock: from nobody or from the dead, and then the board is repaired. *)
Definition locked_or_not (own : deeds) (o : outcome bool) st ph own' : Prop :=
  own' = own ∧ match o with
    | Val true => ∃ μ known, ph = Some (μ, known)
    | Val false => ph = None
    | Exc _ => False end.

Lemma rule_board_lock cap budget limit st own :
  K own → sp st None own (board_lock cap (mark q) budget limit) (locked_or_not own).
Proof using Hpid Hmark.
  intros HK. unfold board_lock. apply rule_bind, rule_idle; [done|apply agree_deeds|done|done|]. intros t0.
  apply rule_loop with (J := λ _ _ ph own', ph = None ∧ own' = own); [done|by intros ? ? ? ? [_ ->]|].
  intros attempt st1 ph1 own1 [-> ->]. destruct (negb (budget =? 0) && (budget <=? attempt)); [by apply rule_ret|].
  apply rule_bind. eapply rule_mono; [eapply (rule_tame _ _ _ _ (λ _, True) (λ _, False)); [done|]; destruct (0 <? attempt); tames; done|].
  intros [late|e] st2 ph2 own2 _ (-> & -> & -> & Hlate); [|done]. destruct late; [by apply rule_ret|].
  apply rule_bind. apply rule_ask; [done|apply agree_deeds|done|done|].
  intros m st' env held m' Ha _ Hl _ _ [-> _] _. exists st'. split; [apply age_refl|].
  assert (∀ e st2, (e = 0 ∨ ∀ q', mark q' = e → st2 q' = Dead) →
    sp st2 None own (compare_exchange_strong (Hdr lock_token) e (mark q)) (λ o st ph own', own' = own ∧
      match o with
      | Val (true, _) => ∃ μ known, ph = Some (μ, known)
      | Val (false, _) => ph = None
      | Exc _ => False end)) as Hcas.
  { intros e st2 He. apply rule_take; [done|apply agree_deeds|done|done|done|]. eauto. }
  destruct (Z.eqb_spec (m (Hdr lock_token)) 0) as [Hz|Hz].
  - apply rule_bind. eapply rule_mono; [apply Hcas; by left|]. intros [[[] v]|e] st3 ph3 own3 _ [-> Hph]; [by apply rule_ret..|done].
  - destruct Hl as [_ [?|Hl]]; [done|]. apply rule_bind. eapply rule_mono; [by apply rule_token_holder_dead|].
    intros [dead|e] st3 ph3 own3 _ (-> & -> & Hdead); [|done]. destruct dead; cbn [negb]; [|by apply rule_ret].
    apply rule_bind. eapply rule_mono; [apply Hcas; by right; apply Hdead|].
    intros [[[] v]|e] st4 ph4 own4 HK4 [-> Hph]; [|by apply rule_ret|done]. destruct Hph as (μ & known & ->).
    apply rule_bind. eapply rule_mono; [by eapply lk_repair_board|].
    intros [[]|e] st5 ph5 own5 HK5 (μ' & -> & _ & Hrep); [|done]. destruct Hrep as [-> _].
    apply rule_ret; [done|]. split; [done|]. eauto.
Qed.

(** The process's own identity is true. *)
Lemma rule_self_identity st own :
  K own → sp st None own Process.self_identity_uncached (λ o st' ph' own', st' = st ∧ ph' = None ∧ own' = own ∧
    match o with Val self => self_ok q self | Exc _ => False end).
Proof.
  intros HK. unfold Process.self_identity_uncached, Process.process_starttime.
  apply rule_bind, rule_ask; [done|apply agree_deeds|done|done|]. intros m st1 env r m' A1 _ _ _ _ _ Hp. cbn in Hp. subst r.
  exists st. split; [done|]. apply rule_bind, rule_bind, rule_ask; [done|apply agree_deeds|done|done|].
  intros m2 st2 env2 [s ex] m2' A2 Hq _ _ _ _ Hr. exists st. split; [done|].
  destruct (Hr q Hq eq_refl) as [[= -> ->]|[? _]]; [|done]. apply rule_ret; [done|].
  by apply rule_ret; [done|split_and!].
Qed.

Lemma rule_board_guard {A} cap budget limit (body : bool → bprog A) st own (Q : outcome A → deeds → Prop) :
  K own →
  (∀ st', sp st' None own (body false) (λ o _ ph' own', ph' = None ∧ Q o own')) →
  (∀ st' μ known, locked K q known st' μ own (body true) (λ o _ _ own', Q o own')) →
  sp st None own (board_guard cap budget limit body) (λ o _ ph' own', ph' = None ∧ Q o own').
Proof using Hpid Hmark.
  intros HK Hno Hyes. unfold board_guard, self_token. apply rule_bind, rule_bind.
  eapply rule_mono; [by apply rule_self_identity|]. intros [self|e] st1 ph1 own1 _ (-> & -> & -> & Hself); [|done].
  apply rule_ret; [done|]. destruct Hself as [-> ->]. fold (mark q). apply rule_bind.
  eapply rule_mono; [by apply rule_board_lock|]. intros [[]|e] st2 ph2 own2 _ [-> Hph]; [| |done].
  - destruct Hph as (μ & known & ->). apply rule_bind, rule_try. eapply rule_mono; [apply Hyes|].
    intros o st3 ph3 own3 HK3 (μ' & -> & _ & HQ). cbn [when]. apply rule_bind.
    apply rule_unlock; [done|apply agree_deeds|done|]. by destruct o; [apply rule_ret|apply rule_throw].
  - subst ph2. apply rule_bind, rule_try. eapply rule_mono; [apply Hno|].
    intros o st3 ph3 own3 HK3 [-> HQ]. cbn [when]. apply rule_bind, rule_ret; [done|].
    by destruct o; [apply rule_ret|apply rule_throw].
Qed.
End outside.

(** ** Readers *)

Lemma tame_read_cell h i writes value :
  tame open_to_all (read_cell h i writes value) (λ _, True) (λ _, False).
Proof.
  unfold read_cell. tames; try done. tame_with (λ _ : option (list Z), True); [|intros; by tames].
  destruct value as [v|]; [|by tames]. cbn zeta. match goal with |- tame _ (if ?b then _ else _) _ _ => destruct b end; [|by tames].
  tame_by apply tame_load_words. intros. by tames.
Qed.

Lemma tame_read_entry h i out value :
  tame open_to_all (read_entry h i out value) (λ _, True) (λ _, False).
Proof.
  unfold read_entry. eapply tame_call; [apply (tame_for _ _ _ _ _ (λ _, True) (λ _, True)); [done| |done]|].
  - intros j [rd v] _. tames; try done. tame_with (λ _ : list Z, True).
    { unfold bb_load_key. tame_by apply tame_load_words. intros. by tames. }
    intros key _. tame_with (λ _ : Z, True); [by tames|]. intros p _. cbn zeta.
    tame_with (λ _ : Z * Z * option (list Z), True).
    { match goal with |- tame _ (if ?b then _ else _) _ _ => destruct b end; [apply tame_read_cell|by tames]. }
    intros [[len stamp] value'] _. by tames.
  - intros [[? ?]|[? ?]] _; by tames.
Qed.

Lemma tame_owner_is_dead p s : tame open_to_all (Process.owner_is_dead p s) (λ _, True) (λ _, False).
Proof. unfold Process.owner_is_dead. by tames. Qed.

Lemma tame_snapshot_locked h : tame open_to_all (snapshot_locked h) (λ _, True) (λ _, False).
Proof.
  unfold snapshot_locked. tame_with (λ _ : list (KeyStatus * Z) * EntryRead, True); [|intros [? ?] _; by tames].
  apply tame_foreach; [done|]. intros i [rows rd] _. tame_by apply tame_read_entry.
  intros [e [rd' v]] _. destruct (unlisted e); [by tames|]. tame_with (λ _ : list Z, True).
  { unfold memcpy_out. apply tame_foreach; [done|]. intros; by tames. }
  intros node _. by tames.
Qed.

Lemma tame_probe_owners rows : tame open_to_all (probe_owners rows) (λ _, True) (λ _, False).
Proof.
  induction rows as [|[k s] rows IH]; cbn [probe_owners]; [by tames|]. tame_with (λ _ : bool, True).
  { match goal with |- tame _ (if ?b then _ else _) _ _ => destruct b end; [by tames|].
    tame_by apply tame_owner_is_dead. intros. by tames. }
  intros alive _. tame_by apply IH. intros. by tames.
Qed.

Lemma tame_require_open b : tame open_to_all (require_open b) (λ _, True) (λ _, True).
Proof. unfold require_open. by tames. Qed.

Lemma tame_no_throw {A} (p : bprog A) (Q : A → Prop) : tame open_to_all p Q (λ _, False) → tame open_to_all p Q (λ _, True).
Proof. intros Hp. eapply tame_mono; [exact Hp|done..]. Qed.

Lemma tame_keys b prefix : tame open_to_all (keys b prefix) (λ _, True) (λ _, True).
Proof.
  unfold keys. tame_by apply tame_require_open. intros _ _.
  tame_with (λ _ : list (list Z) * EntryRead, True); [|intros [? ?] _; by tames].
  apply tame_foreach; [done|]. intros i [out rd] _. tame_by apply tame_no_throw, tame_read_entry.
  intros [e [rd' v]] _. by tames.
Qed.

Lemma tame_read_all b prefix : tame open_to_all (read_all b prefix) (λ _, True) (λ _, True).
Proof.
  unfold read_all. tame_by apply tame_require_open. intros _ _.
  eapply tame_call; [apply (tame_foreach _ _ _ _ _ (λ _, True)); [done|]|intros [? ?] _; by tames].
  intros i [out [rd v]] _. tame_by apply tame_no_throw, tame_read_entry.
  intros [e [rd' v']] _. by tames.
Qed.

Lemma tame_owner_alive r : tame open_to_all (owner_alive r) (λ _, True) (λ _, False).
Proof.
  unfold owner_alive. tame_by (eapply tame_weaken; [|apply tame_resolve]; done).
  intros [found r'] _. tames; try done. tame_by apply tame_owner_is_dead. intros. by tames.
Qed.

(** ** The calls *)

(** Every method of the board and of its handles, as a thread calls it. *)
Inductive op :=
  | Post (c : call)
  | Snapshot
  | Keys (prefix : list Z)
  | ReadAll (prefix : list Z)
  | OwnerAlive (k : nat)
  | Wait (last_seen timeout : Z).

Inductive answer :=
  | Told (r : reply)
  | Listed (rows : list KeyStatus)
  | Names (names : list (list Z))
  | Values (values : gmap (list Z) (list Z))
  | OwnerIs (alive : bool)
  | Waited (e : errc).

(** An uncaught exception is told like a reply. *)
Definition caught_as {A} (p : bprog A) (f : A → answer) (e : handles) : bprog (answer * handles) :=
  r <- try_ p ;;
  Ret (match r with inl a => f a | inr x => Told (Thrown x) end, e).

Definition run_op (b : board) (o : op) (e : handles) : bprog (answer * handles) :=
  match o with
  | Post c => '(r, e) <- perform b c e ;; Ret (Told r, e)
  | Snapshot => caught_as (snapshot b) Listed e
  | Keys prefix => caught_as (keys b prefix) Names e
  | ReadAll prefix => caught_as (read_all b prefix) Values e
  | OwnerAlive k =>
      match readers e !! k with
      | Some r => '(alive, r) <- owner_alive r ;; Ret (OwnerIs alive, Handles (writers e) (<[k := r]> (readers e)))
      | None => Ret (Told NoHandle, e)
      end
  | Wait last_seen timeout => caught_as (wait b last_seen timeout) Waited e
  end.

(** The handles of declared keys: open, and not the one being released. *)
Definition tenures (ws : list Writer) : list Writer := List.filter w_base_ ws.
Definition kept_by (o : op) (ws : list Writer) : list Writer :=
  match o with Post (Release k) => tenures (delete k ws) | _ => tenures ws end.
Definition deeds_of (q : nat) (ws : list Writer) : deeds := list_to_set_disj (deed_of q <$> ws).

Definition ready (q : nat) (e : handles) own : Prop :=
  Forall (λ w, w_base_ w = true → granted q w) (writers e) ∧ deeds_of q (tenures (writers e)) ⊆ own.
Definition keeps (q : nat) (o : op) (e : handles) own : Prop := deeds_of q (kept_by o (writers e)) ⊆ own.

(** An owner's writes and releases are not refused. *)
Definition says (e : handles) (o : op) (a : answer) : Prop :=
  match o, a with
  | Post (Write k data), Told r => ∀ w, writers e !! k = Some w → w_base_ w = true →
      r = Result (if max_value_size g <? Z.of_nat (length data) then message_size else Ok)
  | Post (Release k), Told r => ∀ w, writers e !! k = Some w → w_base_ w = true →
      r = Result Ok ∨ r = Result device_or_resource_busy
  | _, _ => True
  end.

Definition op_ok (o : op) : Prop := match o with Post c => call_ok c | _ => True end.

Lemma deeds_of_cons q w ws : deeds_of q (w :: ws) = {[+ deed_of q w +]} ⊎ deeds_of q ws.
Proof. done. Qed.
Lemma deeds_of_app q ws ws' : deeds_of q (ws ++ ws') = deeds_of q ws ⊎ deeds_of q ws'.
Proof. unfold deeds_of. by rewrite fmap_app, list_to_set_disj_app. Qed.
Lemma tenures_app ws ws' : tenures (ws ++ ws') = tenures ws ++ tenures ws'.
Proof. apply List.filter_app. Qed.

Lemma tenures_cons w ws : tenures (w :: ws) = if w_base_ w then w :: tenures ws else tenures ws.
Proof. done. Qed.

(** Replacing a handle by one of the same tenure. *)
Lemma tenures_insert q ws k w w' :
  ws !! k = Some w → w_base_ w' = w_base_ w → deed_of q w' = deed_of q w →
  deeds_of q (tenures (<[k := w']> ws)) = deeds_of q (tenures ws).
Proof.
  revert k. induction ws as [|u ws IH]; intros [|k] Hk Hb Hd; try done.
  - injection Hk as ->. change (<[0%nat := w']> (w :: ws)) with (w' :: ws). rewrite !tenures_cons, Hb.
    destruct (w_base_ w); [|done]. by rewrite !deeds_of_cons, Hd.
  - change (<[S k := w']> (u :: ws)) with (u :: <[k := w']> ws). rewrite !tenures_cons.
    destruct (w_base_ u); [|by apply IH]. rewrite !deeds_of_cons. f_equal. by apply IH.
Qed.

Lemma tenures_delete q ws k w :
  ws !! k = Some w →
  deeds_of q (tenures ws) = (if w_base_ w then {[+ deed_of q w +]} else ∅) ⊎ deeds_of q (tenures (delete k ws)).
Proof.
  revert k. induction ws as [|u ws IH]; intros [|k] Hk; try done.
  - injection Hk as ->. change (delete 0%nat (w :: ws)) with ws. rewrite tenures_cons.
    destruct (w_base_ w); [apply deeds_of_cons|]. by rewrite (left_id_L ∅ (⊎)).
  - change (delete (S k) (u :: ws)) with (u :: delete k ws). rewrite !tenures_cons.
    destruct (w_base_ u); [|by apply IH]. rewrite !deeds_of_cons, (IH k Hk). multiset_solver.
Qed.

Lemma tenures_closed ws k w' : w_base_ w' = false → tenures (<[k := w']> ws) = tenures (delete k ws).
Proof.
  intros Hb. revert k. induction ws as [|u ws IH]; intros [|k]; try done; cbn.
  - by rewrite Hb.
  - destruct (w_base_ u); [f_equal|]; apply IH.
Qed.

Section calls.
Context (Hpid : ∀ q, 0 < pid q < 4294967296).
Context (Hmark : ∀ q q', base q ≠ Dead → base q' ≠ Dead → mark q = mark q' → q = q').
Context (Hcap : 0 <= capacity g < INVALID_SLOT).
Context (K : deeds → Prop) (q : nat).
Abbreviation sp := (spec (Hdr lock_token) metadata pid start mark base deeds_ok K q).

Lemma pid_nonzero q' : pid q' ≠ 0.
Proof using Hpid. clear -Hpid. specialize (Hpid q'). lia. Qed.

Lemma rule_require_open b st own {A} (f : unit → bprog A) (Q : outcome A → lives → option ((bloc → Z) * deeds) → deeds → Prop) :
  K own → (∀ e, Q (Exc e) st None own) → sp st None own (f tt) Q → sp st None own (bind (require_open b) f) Q.
Proof. intros HK He Hf. unfold require_open. destruct (base_ b); [done|]. by apply rule_throw. Qed.

Lemma rule_declare b key node st own :
  K own → (∀ x own, K own → K ({[+ x +]} ⊎ own)) → geometry_ b = g → text_ok key →
  sp st None own (declare b key node) (λ o st' ph' own', ph' = None ∧
    match o with Val w => own' = {[+ deed_of q w +]} ⊎ own ∧ granted q w | Exc _ => own' = own end).
Proof using All.
  intros HK Hadd Hg Hkey. unfold declare. apply rule_require_open; [done|done|].
  destruct (check_key key) as [k|x] eqn:Hck; cbn [Layout.of_res bind]; [|by apply rule_throw].
  pose proof (check_key_ok _ _ Hkey Hck) as Hok.
  apply rule_bind. eapply rule_mono; [by apply rule_self_identity|].
  intros [self|e] st1 ph1 own1 _ (-> & -> & -> & Hself); [|done]. rewrite Hg.
  eapply rule_board_guard with (Q := λ o own', match o with
    | Val w => own' = {[+ deed_of q w +]} ⊎ own ∧ granted q w | Exc _ => own' = own end); [done|done|done|..].
  - intros st2. cbn [negb]. by apply rule_throw.
  - intros st2 μ known. cbn [negb]. eapply lk_mono; [apply lk_declare_locked; try done; [apply pid_nonzero|lia]|].
    intros [w|e] st3 μ3 own3 _ _ Hw; [|done]. by destruct Hw as (-> & ? & _).
Qed.

Lemma rule_sweep_stale b st own :
  K own → sp st None own (sweep_stale b) (λ o st' ph' own', ph' = None ∧ own' = own).
Proof using Hpid Hmark.
  intros HK. unfold sweep_stale. apply rule_require_open; [done|done|].
  apply (rule_board_guard _ _ Hpid Hmark _ _ _ _ _ _ (λ _ own', own' = own)); [done|..].
  - intros st1. by apply rule_ret.
  - intros st1 μ known. cbn [negb]. lk1. eapply lk_mono; [by apply lk_sweep_locked|].
    intros [n|e] st2 μ2 own2 _ _ Hn; [|done]. destruct Hn as [-> _]. lk1.
    apply lk_when; [done|intros _; apply lk_notify; [done|by lk1]|intros _; by lk1].
Qed.

Lemma rule_snapshot b st own :
  K own → sp st None own (snapshot b) (λ o st' ph' own', ph' = None ∧ own' = own).
Proof using Hpid Hmark.
  intros HK. unfold snapshot. apply rule_require_open; [done|done|]. apply rule_bind.
  eapply rule_mono; [apply (rule_board_guard _ _ Hpid Hmark _ _ _ _ _ _ (λ _ own', own' = own)); [done|..]|].
  - intros st1. by apply rule_throw.
  - intros st1 μ known. cbn [negb]. eapply lk_mono; [eapply lk_tame; [done|apply tame_snapshot_locked]|].
    by intros [rows|e] st2 μ2 own2 _ _ [-> _].
  - intros [rows|e] st1 ph1 own1 _ [-> ->]; [|done].
    eapply rule_mono; [eapply rule_tame; [done|apply tame_probe_owners]|]. by intros o st2 ph2 own2 _ (_ & -> & -> & _).
Qed.

Lemma rule_release x w st own :
  K ({[+ x +]} ⊎ own) → K own → granted q w → x = deed_of q w →
  sp st None ({[+ x +]} ⊎ own) (writer_release w) (λ o st' ph' own', ph' = None ∧ own ⊆ own' ∧
    match o with
    | Val (e, w') => (e = Ok ∨ e = device_or_resource_busy) ∧ w' = dead_writer w
    | Exc _ => False end).
Proof using Hpid Hmark Hcap.
  intros HKx HK [Hb Hi Hg Hp] ->. unfold writer_release. rewrite Hb. cbn [negb]. set (x := deed_of q w) in *.
  apply rule_bind. eapply rule_mono; [by apply rule_self_identity|].
  intros [self|e] st1 ph1 own1 _ (-> & -> & -> & Hself); [|done]. destruct Hself as [-> _].
  rewrite Hp, Z.eqb_refl, Hg. cbn [negb]. rewrite (proj2 (Z.ltb_lt _ _)) by lia.
  apply rule_bind. eapply rule_mono; [apply (rule_board_guard _ _ Hpid Hmark _ _ _ _ _ _ (λ o own', own ⊆ own' ∧
    match o with Val e => e = Ok ∨ e = device_or_resource_busy | Exc _ => False end)); [done|..]|].
  - intros st1. cbn [negb]. apply rule_ret; [done|]. split; [done|]. split; [multiset_solver|by right].
  - intros st1 μ known. cbn [negb]. eapply lk_mono; [by apply (lk_release_locked _ _ _ x)|].
    intros [e|e] st2 μ2 own2 _ _ Hrel; [|done]. destruct Hrel as [-> ->]. split; [done|by left].
  - intros [e|e] st1 ph1 own1 HK1 (-> & Hsub & He); [|done]. by apply rule_ret.
Qed.

(** The owner's write finds its entry as it was declared. *)
Lemma rule_write_open w data st own :
  K own → granted q w → deed_of q w ∈ own →
  sp st None own (writer_write w data) (λ o st' ph' own', ph' = None ∧ own' = own ∧
    match o with
    | Val (e, w') => e = (if max_value_size g <? Z.of_nat (length data) then message_size else Ok) ∧
                     granted q w' ∧ deed_of q w' = deed_of q w
    | Exc _ => False end).
Proof using All.
  intros HK Hgr Hx. pose proof Hgr as [Hb Hi Hg Hp]. unfold writer_write. rewrite Hb. cbn [negb].
  apply rule_bind. eapply rule_mono; [by apply rule_self_identity|].
  intros [self|e] st1 ph1 own1 _ (-> & -> & -> & Hself); [|done]. destruct Hself as [-> _].
  rewrite Hp, Z.eqb_refl, Hg. cbn [negb]. rewrite (proj2 (Z.leb_gt _ _)) by lia.
  destruct (max_value_size g <? Z.of_nat (length data)); [by apply rule_ret|].
  assert (∀ m st' env, deeds_ok m st' (own ⊎ env) → st' q = Alive → deed_ok m (deed_of q w)) as Hdeed.
  { intros m st' env [Hok _] Ha. apply Hok; [multiset_solver|done]. }
  apply rule_bind. apply rule_ask; [done|apply agree_deeds|done|done|].
  intros m2 st2 env2 s m2' A2 L2 _ D2 _ [-> _] _. exists st2. split; [apply age_refl|].
  pose proof (Hdeed _ _ _ D2 L2) as H2. rewrite (proj1 (do_key _ _ H2) : m2 (Ent (w_entry_idx_ w) state) = Active). change (Active =? Active) with true. cbn [negb].
  apply rule_bind. apply rule_ask; [done|apply agree_deeds|done|done|].
  intros m3 st3 env3 t m3' A3 L3 _ D3 _ [-> _] _. exists st3. split; [apply age_refl|].
  pose proof (Hdeed _ _ _ D3 L3) as H3. rewrite (do_tenancy _ _ H3 : m3 (Ent (w_entry_idx_ w) tenancy) = w_tenancy_ w), Z.eqb_refl. cbn [negb].
  set (w' := {| w_base_ := true; w_geometry_ := g; w_entry_idx_ := _; w_tenancy_ := _; w_writes_ := _;
                w_owner_pid_ := _; w_key_ := _ |}).
  assert (∀ l v, open_to_all l → tame open_to_all (store l v) (λ _, True) (λ _, False)) as Hst.
  { intros l v Hl. apply tame_act; [by intros [] l' [= <-]|done]. }
  eapply rule_mono; [apply rule_tame with (Q := λ r, r = (Ok, w')) (E := λ _, False); [done|]|].
  - tame_by by apply Hst. intros _ _. tame_with (λ _ : unit, True).
    { apply tame_when; [intros _|done]. by apply tame_store_words. }
    intros _ _. tame_by by apply Hst. intros _ _. tame_with (λ _ : Z, True); [by tames|]. intros now _.
    tame_by by apply Hst. intros _ _. tame_by by apply Hst. intros _ _. tame_by apply tame_notify_change. intros _ _. by tames.
  - intros [[e w2]|x] st4 ph4 own4 _ (_ & -> & -> & Ho); [|done]. injection Ho as -> ->. by split_and!.
Qed.

Lemma rule_wait b last_seen timeout st own :
  K own → sp st None own (wait b last_seen timeout) (λ o st' ph' own', ph' = None ∧ own' = own).
Proof using Type.
  intros HK. unfold wait. apply rule_require_open; [done|done|].
  apply rule_bind, rule_idle; [done|apply agree_deeds|done|done|]. intros t0.
  apply rule_loop with (J := λ _ _ ph own', ph = None ∧ own' = own); [done|by intros ? ? ? ? [_ ->]|].
  intros [] st1 ph1 own1 [-> ->].
  eapply rule_mono; [apply rule_tame with (Q := λ _, True) (E := λ _, False); [done|]|].
  - assert (∀ d, tame open_to_all (fetch_add u64 (Hdr waiters) d) (λ _, True) (λ _, False)) as Hw.
    { intros d. apply tame_act; [by intros r l [= <-]|done]. }
    tame_with (λ _ : Z, True); [by tames|]. intros s _. destruct (negb (s =? last_seen)); [by tames|].
    tame_with (λ _ : Z, True); [by tames|]. intros now _. cbn zeta. destruct (timeout <=? now - t0); [by tames|].
    tame_by apply Hw. intros _ _. tame_with (λ _ : Z, True); [by tames|]. intros s2 _.
    destruct (negb (s2 =? last_seen)); [tame_by apply Hw; intros; by tames|].
    tame_with (λ _ : unit, True); [by apply tame_act|]. intros _ _. tame_by apply Hw. intros. by tames.
  - by intros [[[]|e]|x] st2 ph2 own2 _ (_ & -> & -> & _).
Qed.

Lemma rule_caught {A} (p : bprog A) (f : A → answer) e st own :
  K own → sp st None own p (λ o st' ph' own', ph' = None ∧ own' = own) →
  sp st None own (caught_as p f e) (λ o st' ph' own', ph' = None ∧ own' = own ∧
    match o with Val (_, e') => e' = e | Exc _ => False end).
Proof.
  intros HK Hp. unfold caught_as. apply rule_bind, rule_try. eapply rule_mono; [exact Hp|].
  intros o st1 ph1 own1 HK1 [-> ->]. by apply rule_ret.
Qed.

Lemma rule_neutral {A} (p : bprog A) (Q : A → Prop) E st own :
  K own → tame open_to_all p Q E →
  sp st None own p (λ o st' ph' own', ph' = None ∧ own' = own ∧ match o with Val a => Q a | Exc e => E e end).
Proof. intros HK Hp. eapply rule_mono; [by eapply rule_tame|]. by intros o st1 ph1 own1 _ (_ & -> & -> & ?). Qed.
End calls.

Section threads.
Context (Hpid : ∀ q, 0 < pid q < 4294967296).
Context (Hmark : ∀ q q', base q ≠ Dead → base q' ≠ Dead → mark q = mark q' → q = q').
Context (Hcap : 0 <= capacity g < INVALID_SLOT).
Context (b : board) (Hb : geometry_ b = g) (q : nat).
Abbreviation sp K := (spec (Hdr lock_token) metadata pid start mark base deeds_ok K q).
Abbreviation done_ o e := (ends ready (λ _, says) q o e).

Lemma ready_keeps o e own : ready q e own → keeps q o e own.
Proof using All.
  intros [_ Hsub]. unfold keeps. destruct o as [[]| | | | |]; try done. cbn [kept_by].
  destruct (writers e !! k) as [w|] eqn:Hk.
  2: { apply lookup_ge_None in Hk. by rewrite delete_take_drop, take_ge, drop_ge, app_nil_r by lia. }
  rewrite (tenures_delete q _ _ _ Hk) in Hsub. multiset_solver.
Qed.

Lemma declare_done key node e own st :
  text_ok key → ready q e own →
  sp (keeps q (Post (DeclareKey key node)) e) st None own (run_op b (Post (DeclareKey key node)) e)
    (done_ (Post (DeclareKey key node)) e).
Proof using All.
  intros Hkey Hr. pose proof (ready_keeps (Post (DeclareKey key node)) _ _ Hr) as HK. destruct Hr as [Hall Hsub].
  cbn [run_op perform]. apply rule_bind, rule_bind, rule_try.
  eapply rule_mono; [apply rule_declare; try done|].
  { intros x own' Hk. unfold keeps in *. multiset_solver. }
  intros [w|x] st1 ph1 own1 HK1 (-> & Hw); cbn [caught].
  - destruct Hw as [-> Hgr]. apply rule_ret; [done|]. apply rule_ret; [done|]. split; [done|]. split; [|done].
    split; cbn [writers].
    + apply Forall_app. split; [done|]. by apply Forall_singleton.
    + rewrite tenures_app, deeds_of_app. change (tenures [w]) with (if w_base_ w then [w] else []).
      rewrite (gr_base _ _ Hgr). rewrite deeds_of_cons. multiset_solver.
  - subst own1. apply rule_ret; [done|]. by apply rule_ret.
Qed.

Lemma write_done k data e own st :
  ready q e own → sp (keeps q (Post (Write k data)) e) st None own (run_op b (Post (Write k data)) e)
    (done_ (Post (Write k data)) e).
Proof using All.
  intros Hr. pose proof (ready_keeps (Post (Write k data)) _ _ Hr) as HK. pose proof Hr as [Hall Hsub].
  cbn [run_op perform]. destruct (writers e !! k) as [w|] eqn:Hk.
  2: { apply rule_ret; [done|]. split; [done|]. split; [done|]. cbn. intros w. by rewrite Hk. }
  apply rule_bind, rule_bind. destruct (w_base_ w) eqn:Hbase.
  - pose proof (Forall_lookup_1 _ _ _ _ Hall Hk Hbase) as Hgr.
    eapply rule_mono; [apply rule_write_open; try done|].
    { rewrite (tenures_delete q _ _ _ Hk), Hbase in Hsub. multiset_solver. }
    intros [[ec w']|x] st1 ph1 own1 HK1 (-> & -> & Ho); [|done]. destruct Ho as (-> & Hgr' & Hd).
    apply rule_ret; [done|]. apply rule_ret; [done|]. split; [done|]. split; [split; cbn [writers]|].
    + by apply Forall_insert.
    + rewrite (tenures_insert q _ _ w); [done|done| |done]. by rewrite Hbase, (gr_base _ _ Hgr').
    + cbn. intros w2. rewrite Hk. by intros [= <-].
  - unfold writer_write. rewrite Hbase. cbn [negb]. do 3 (apply rule_ret; [done|]).
    split; [done|]. split; [split; cbn [writers]; rewrite ?list_insert_id by done; done|].
    cbn. intros w2. rewrite Hk. intros [= <-]. congruence.
Qed.

Lemma release_done k e own st :
  ready q e own → sp (keeps q (Post (Release k)) e) st None own (run_op b (Post (Release k)) e)
    (done_ (Post (Release k)) e).
Proof using All.
  intros Hr. pose proof (ready_keeps (Post (Release k)) _ _ Hr) as HK. pose proof Hr as [Hall Hsub].
  cbn [run_op perform]. destruct (writers e !! k) as [w|] eqn:Hk.
  2: { apply rule_ret; [done|]. split; [done|]. split; [done|]. cbn. intros w. by rewrite Hk. }
  apply rule_bind, rule_bind. destruct (w_base_ w) eqn:Hbase.
  - pose proof (Forall_lookup_1 _ _ _ _ Hall Hk Hbase) as Hgr.
    rewrite (tenures_delete q _ _ _ Hk), Hbase in Hsub. set (x := deed_of q w) in *.
    assert (∃ rest, own = {[+ x +]} ⊎ rest ∧ deeds_of q (tenures (delete k (writers e))) ⊆ rest) as (rest & -> & Hrest).
    { exists (own ∖ {[+ x +]}). split; [|multiset_solver]. apply gmultiset_disj_union_difference. multiset_solver. }
    eapply rule_mono; [apply (rule_release Hpid Hmark Hcap _ _ x); try done|].
    intros [[ec w']|y] st1 ph1 own1 HK1 (-> & Hown & Ho); [|done]. destruct Ho as [Hec ->].
    apply rule_ret; [done|]. apply rule_ret; [done|]. split; [done|]. split; [split; cbn [writers]|].
    + by apply Forall_insert.
    + rewrite tenures_closed by done. etrans; [exact Hrest|done].
    + cbn. intros w2 _ _. by destruct Hec as [-> | ->]; [left|right].
  - unfold writer_release. rewrite Hbase. cbn [negb]. do 3 (apply rule_ret; [done|]).
    split; [done|]. split; [split; cbn [writers]; rewrite ?list_insert_id by done; done|].
    cbn. intros w2. rewrite Hk. intros [= <-]. congruence.
Qed.

(** The other calls leave the writers' handles and the deeds alone. *)
Lemma still_done o e own st :
  match o with Post (DeclareKey _ _) | Post (Write _ _) | Post (Release _) => False | _ => True end →
  ready q e own → sp (keeps q o e) st None own (run_op b o e) (done_ o e).
Proof using All.
  intros Ho Hr. pose proof (ready_keeps o _ _ Hr) as HK.
  eapply rule_mono with (Q := λ r st' ph' own', ph' = None ∧ own' = own ∧
    match r with Val (_, e') => writers e' = writers e | Exc _ => True end).
  2: { intros [[a e']|x] st1 ph1 own1 _ (-> & -> & Hw); [|done]. split; [done|]. split; [|by destruct o as [[]| | | | |]].
       unfold ready. by rewrite Hw. }
  destruct o as [c| | | |k|]; cbn [run_op].
  - apply rule_bind. destruct c as [| | |key|k|]; try done; cbn [perform].
    + apply rule_bind, rule_try. eapply rule_mono; [eapply (rule_neutral _ _ (observe b key) (λ _, True) (λ _, True)); [done|]|].
      { unfold observe. tame_by apply tame_require_open. intros _ _. destruct (check_key key); cbn [Layout.of_res bind]; by tames. }
      intros [r|x] st1 ph1 own1 HK1 (-> & -> & _); cbn [caught]; (apply rule_ret; [done|]); by apply rule_ret.
    + destruct (readers e !! k) as [r|]; [|by do 2 (apply rule_ret; [done|])]. apply rule_bind.
      eapply rule_mono; [eapply (rule_neutral _ _ (read_vector r []) (λ _, True) (λ _, False)); [done|]|].
      { eapply tame_weaken; [|apply tame_read_vector]. done. }
      intros [[[res v] r']|x] st1 ph1 own1 HK1 (-> & -> & Hx); [|done]. by do 2 (apply rule_ret; [done|]).
    + apply rule_bind. eapply rule_mono; [by apply rule_sweep_stale|].
      intros [n|x] st1 ph1 own1 HK1 [-> ->]; [|done]. by do 2 (apply rule_ret; [done|]).
  - eapply rule_mono; [apply rule_caught; [done|by apply rule_snapshot]|].
    intros [[a e']|x] st1 ph1 own1 _ (-> & -> & He); [by subst e'|done].
  - eapply rule_mono; [apply rule_caught; [done|]|].
    { eapply rule_mono; [eapply rule_neutral; [done|apply tame_keys]|]. by intros r st1 ph1 own1 _ (-> & -> & _). }
    intros [[a e']|x] st1 ph1 own1 _ (-> & -> & He); [by subst e'|done].
  - eapply rule_mono; [apply rule_caught; [done|]|].
    { eapply rule_mono; [eapply rule_neutral; [done|apply tame_read_all]|]. by intros r st1 ph1 own1 _ (-> & -> & _). }
    intros [[a e']|x] st1 ph1 own1 _ (-> & -> & He); [by subst e'|done].
  - destruct (readers e !! k) as [r|]; [|by apply rule_ret]. apply rule_bind.
    eapply rule_mono; [eapply rule_neutral; [done|apply tame_owner_alive]|].
    intros [[alive r']|x] st1 ph1 own1 HK1 (-> & -> & Hx); [|done]. by apply rule_ret.
  - eapply rule_mono; [apply rule_caught; [done|by apply rule_wait]|].
    intros [[a e']|x] st1 ph1 own1 _ (-> & -> & He); [by subst e'|done].
Qed.
End threads.

(** The threads of a board: every process has a handle of its own. *)
Definition calling (boards : nat → board) (q : nat) (o : op) (e : handles) : bprog (answer * handles) :=
  run_op (boards q) o e.

Lemma calls_honest boards :
  (∀ q, 0 < pid q < 4294967296) → (∀ q q', base q ≠ Dead → base q' ≠ Dead → mark q = mark q' → q = q') →
  0 <= capacity g < INVALID_SLOT → (∀ q, geometry_ (boards q) = g) →
  honest (Hdr lock_token) metadata pid start mark base deeds_ok (calling boards) op_ok ready keeps (λ _, says).
Proof.
  intros Hpid Hmark Hcap Hg q o e own st Hok Hr. unfold calling.
  destruct o as [[key node|k data|k|key|k|]| | | | |];
    [by apply declare_done|by apply write_done|by apply release_done|by apply still_done..].
Qed.

Lemma deeds_none m st : deeds_ok m st ∅.
Proof. split; [intros x Hx; multiset_solver|]. intros x y Hxy. multiset_solver. Qed.

(** The open handles of a thread, without the one it is releasing. *)
Definition tenured (th : thread bloc op handles answer) : list Writer :=
  match t_run th, t_calls th with
  | Some _, o :: _ => kept_by o (writers (t_kept th))
  | _, _ => tenures (writers (t_kept th))
  end.

(** The entry of [w] is as its owner, process [q], declared it. *)
Record stands_for (m : bloc → Z) (q : nat) (w : Writer) : Prop := {
  sf_entry : 0 <= w_entry_idx_ w < capacity g;
  sf_state : m (Ent (w_entry_idx_ w) state) = Active;
  sf_key : named m (w_entry_idx_ w) = w_key_ w;
  sf_tenancy : m (Ent (w_entry_idx_ w) tenancy) = w_tenancy_ w;
  sf_pid : m (Ent (w_entry_idx_ w) owner_pid) = pid q;
  sf_start : m (Ent (w_entry_idx_ w) owner_starttime) = start q
}.

Lemma keys_differ m st toks x y :
  deeds_ok m st toks → {[+ x; y +]} ⊆ toks → st (d_proc x) = Alive → st (d_proc y) = Alive →
  d_key x ≠ d_key y.
Proof.
  intros [Hok Hone] Hxy Hx Hy Hk. pose proof (Hone x y Hxy Hx Hy) as Hne.
  destruct (Hok x) as [_ Dx]; [multiset_solver|]. destruct (Hok y) as [_ Dy]; [multiset_solver|].
  specialize (Dx Hx). specialize (Dy Hy). destruct (do_entry _ _ Dx), (do_entry _ _ Dy).
  destruct (Z.lt_ge_cases (d_entry x) (d_entry y)).
  - apply (do_first _ _ Dy (d_entry x)); [lia|]. rewrite <- Hk. apply Dx.
  - apply (do_first _ _ Dx (d_entry y)); [lia|]. rewrite Hk. apply Dy.
Qed.

Lemma deeds_of_elem q ws w : w ∈ ws → deed_of q w ∈ deeds_of q ws.
Proof. intros Hw. unfold deeds_of. apply elem_of_list_to_set_disj. by apply list_elem_of_fmap_2. Qed.

Lemma deeds_of_two q ws k k' w w' :
  ws !! k = Some w → ws !! k' = Some w' → k ≠ k' → {[+ deed_of q w; deed_of q w' +]} ⊆ deeds_of q ws.
Proof.
  revert k k'. induction ws as [|u ws IH]; intros [|k] [|k'] Hk Hk' Hne; try done; rewrite deeds_of_cons.
  - injection Hk as ->. apply gmultiset_disj_union_mono_l, gmultiset_singleton_subseteq_l, deeds_of_elem.
    by eapply (list_elem_of_lookup_2 ws k').
  - injection Hk' as ->. rewrite (comm_L (⊎)). apply gmultiset_disj_union_mono_l, gmultiset_singleton_subseteq_l, deeds_of_elem.
    by eapply (list_elem_of_lookup_2 ws k).
  - etrans; [apply (IH k k'); [done|done|congruence]|]. apply gmultiset_disj_union_subseteq_r.
Qed.

Lemma tenured_owned q th own :
  match t_run th with
  | None => ready q (t_kept th) own
  | Some _ => ∃ o os, t_calls th = o :: os ∧ keeps q o (t_kept th) own
  end → deeds_of q (tenured th) ⊆ own.
Proof.
  unfold tenured. destruct (t_run th); [|by intros [_ ?]]. by intros (o & os & -> & ?).
Qed.

End tenure.

(** ** The theorems *)

Section theorems.
Context (g : Geometry) (pid start : nat → Z) (boards : nat → board).
Abbreviation board_step := (step (Hdr lock_token) pid start (calling boards)).
Abbreviation board_reachable := (reachable (Hdr lock_token) pid start (calling boards)).
Abbreviation board_system := (system bloc op handles answer).
Abbreviation mark := (mark pid start).

(** Processes have pids, and tokens that tell apart those that may run; nobody
    has declared anything yet and the lock is free. *)
Record begins (s : board_system) : Prop := {
  be_pid : ∀ q, 0 < pid q < 4294967296;
  be_mark : ∀ q q', s_lives s q ≠ Dead → s_lives s q' ≠ Dead → mark q = mark q' → q = q';
  be_capacity : 0 <= capacity g < INVALID_SLOT;
  be_geometry : ∀ q, geometry_ (boards q) = g;
  be_fresh : fresh (Hdr lock_token) s;
  be_threads : ∀ t th, s_threads s !! t = Some th → Forall op_ok (t_calls th) ∧ writers (t_kept th) = []
}.

Section run.
Context (s0 s : board_system) (Hb : begins s0) (Hr : board_reachable s0 s).

Lemma run_honest : honest (Hdr lock_token) metadata pid start mark (s_lives s0) (deeds_ok g pid start)
  (calling boards) op_ok (ready g pid) keeps (λ _, says g).
Proof using Hb. by destruct Hb; apply calls_honest. Qed.

Lemma run_ready t th : s_threads s0 !! t = Some th →
  Forall op_ok (t_calls th) ∧ ready g pid (t_proc th) (t_kept th) ∅.
Proof using Hb. intros Ht. destruct (be_threads _ Hb _ _ Ht) as [Hc Hw]. split; [done|]. unfold ready. by rewrite Hw. Qed.

Lemma run_excludes t t' th th' : holder s t th → holder s t' th' → t = t'.
Proof using All.
  exact (never_two_holders (Hdr lock_token) metadata _ _ _ _ _ _ eq_refl (agree_deeds g pid start)
    (deeds_ok_age g pid start) (mark_nonzero _ _ (be_pid _ Hb)) _ _ _ _ run_honest s0 s eq_refl (be_fresh _ Hb)
    (deeds_none _ _ _ _ _) run_ready Hr t t' th th').
Qed.

Lemma run_writes s' l :
  board_step s s' → metadata l = true → s_mem s' l ≠ s_mem s l →
  ∃ t th, holder s t th ∧ ∀ t', t' ≠ t → s_threads s' !! t' = s_threads s !! t'.
Proof using All.
  exact (holder_writes (Hdr lock_token) metadata _ _ _ _ _ _ eq_refl (agree_deeds g pid start)
    (deeds_ok_age g pid start) (mark_nonzero _ _ (be_pid _ Hb)) _ _ _ _ run_honest s0 s eq_refl (be_fresh _ Hb)
    (deeds_none _ _ _ _ _) run_ready Hr s' l).
Qed.

(** Each thread owns the deeds of its open handles. *)
Lemma run_deeds : ∃ owns : list deeds, deeds_ok g pid start (s_mem s) (s_lives s) (⋃+ owns) ∧
  ∀ t th, s_threads s !! t = Some th → ∃ own, owns !! t = Some own ∧
    deeds_of (t_proc th) (tenured th) ⊆ own ∧ Forall (λ '(e, o, a), says g e o a) (t_told th).
Proof using All.
  destruct (ledger (Hdr lock_token) metadata _ _ _ _ _ _ eq_refl (agree_deeds g pid start)
    (deeds_ok_age g pid start) (mark_nonzero _ _ (be_pid _ Hb)) _ _ _ _ run_honest s0 s eq_refl (be_fresh _ Hb)
    (deeds_none _ _ _ _ _) run_ready Hr) as (owns & Hd & Hall).
  exists owns. split; [done|]. intros t th Ht. destruct (Hall t th Ht) as (own & Ho & Htold & Hrun).
  exists own. split; [done|]. split; [by eapply tenured_owned|done].
Qed.
End run.

(** C8. If the lock tokens of the processes that may run differ ([be_mark]; see
    [collision_breaks_lock]): however the threads of a board interleave, whatever
    processes start and die meanwhile, and whatever the entries hold at the start, no two threads of
    processes that run ever both hold the board lock, and a step that changes the
    metadata of an entry is a step of the thread that holds it. *)
Theorem board_lock_excludes s0 s :
  begins s0 → board_reachable s0 s →
  (∀ t t' th th', holder s t th → holder s t' th' → t = t') ∧
  ∀ s' l, board_step s s' → metadata l = true → s_mem s' l ≠ s_mem s l →
    ∃ t th, holder s t th ∧ ∀ t', t' ≠ t → s_threads s' !! t' = s_threads s !! t'.
Proof. intros Hb Hr. split; [by eapply run_excludes|]. intros s' l. by eapply run_writes. Qed.

(** C9. If the lock tokens of the processes that may run differ, as above, whoever
    declared a key keeps it while it runs, until it releases it: the
    entry stays Active under its key, tenancy and owner, nobody else that runs has
    a handle of the same key, and its writes are refused for their size only. *)
Theorem declared_key_kept s0 s :
  begins s0 → board_reachable s0 s →
  (∀ t th w, running s t th → w ∈ tenured th → stands_for g pid start (s_mem s) (t_proc th) w) ∧
  (∀ t t' th th' k k' w w', running s t th → running s t' th' →
     tenured th !! k = Some w → tenured th' !! k' = Some w' → w_key_ w = w_key_ w' → t = t' ∧ k = k') ∧
  (∀ t th e k data a w, s_threads s !! t = Some th → (e, Post (Write k data), Told a) ∈ t_told th →
     writers e !! k = Some w → w_base_ w = true →
     a = Result (if max_value_size g <? Z.of_nat (length data) then message_size else Ok)).
Proof.
  intros Hb Hr. destruct (run_deeds s0 s Hb Hr) as (owns & Hd & Hown). split_and!.
  - intros t th w [Ht Hq] Hw. destruct (Hown t th Ht) as (own & Ho & Hsub & _).
    pose proof (deeds_of_elem (t_proc th) _ _ Hw) as Hx. pose proof (own_in_all _ _ _ Ho) as Hin.
    assert (deed_of (t_proc th) w ∈ ⋃+ owns) as Hx' by multiset_solver.
    by destruct (proj2 (ds_ok _ _ _ _ _ _ Hd _ Hx') Hq) as [D1 (D2 & _ & D3) D4 D5 D6 _].
  - intros t t' th th' k k' w w' [Ht Hq] [Ht' Hq'] Hk Hk' Hkey.
    destruct (Hown t th Ht) as (own & Ho & Hsub & _), (Hown t' th' Ht') as (own' & Ho' & Hsub' & _).
    pose proof (own_in_all _ _ _ Ho) as Hin.
    destruct (decide (t = t')) as [<-|Hne].
    + split; [done|]. destruct (decide (k = k')) as [|Hkk]; [done|]. simplify_eq.
      destruct (keys_differ _ _ _ _ _ _ (deed_of (t_proc th) w) (deed_of (t_proc th) w') Hd); [|done..].
      etrans; [exact (deeds_of_two (t_proc th) _ _ _ _ _ Hk Hk' Hkk)|]. by etrans.
    + destruct (keys_differ _ _ _ _ _ _ (deed_of (t_proc th) w) (deed_of (t_proc th') w') Hd); [|done..].
      etrans; [|by apply (two_in_all _ _ _ _ _ Ho Ho')].
      apply gmultiset_disj_union_mono; apply gmultiset_singleton_subseteq_l;
        (eapply gmultiset_elem_of_subseteq; [by eapply deeds_of_elem, list_elem_of_lookup_2|done]).
  - intros t th e k data a w Ht Hin Hk Hbase. destruct (Hown t th Ht) as (own & _ & _ & Htold).
    rewrite Forall_forall in Htold. exact (Htold _ Hin w Hk Hbase).
Qed.
End theorems.

(** ** A run *)

Definition handle_on (g : Geometry) (q : nat) : board :=
  {| shm_open_ := true; name_ := []; owner_name_ := [110]; base_ := true; size_ := 0; geometry_ := g |}.
Definition caller (q : nat) (os : list op) : thread bloc op handles answer :=
  Thread q os (Handles [] []) None false [].
Definition declares (c : Z) : op := Post (DeclareKey (Some [c]) None).

(** Three processes; the third gets the pid of the first, once that one is dead. *)
Definition some_pids (q : nat) : Z := match q with 1%nat => 8 | _ => 7 end.
Definition some_starts (q : nat) : Z := match q with 0%nat => 5 | 1%nat => 6 | _ => 9 end.
Definition two_keys : Geometry := make_geometry 2 16.
Definition first_state : system bloc op handles answer :=
  System (λ _, 0) (λ q, if (q <? 3)%nat then Unborn else Dead)
    [caller 0 [declares 65; declares 66];
     caller 1 [declares 66; declares 65; Post (Write 0 [4; 5]); Post (Write 1 (replicate 17 0))];
     caller 2 [declares 65]].
Definition some_run (evs : list event) : system bloc op handles answer :=
  play (Hdr lock_token) some_pids some_starts (calling (handle_on two_keys)) [0; 1; 2]%nat evs first_state.

(** The first process dies with the lock, in the middle of its second declaration,
    and the second takes both keys. *)
Definition until_death : list event := ([Birth 0; Birth 1] ++ replicate 130 (Turn 0))%nat.
Definition succession : list event := (until_death ++ [Death 0; Birth 2] ++ replicate 300 (Turn 1) ++ replicate 100 (Turn 2))%nat.

Lemma first_begins : begins two_keys some_pids some_starts (handle_on two_keys) first_state.
Proof.
  split.
  - intros [|[|q]]; by compute.
  - assert (NoDup (mark some_pids some_starts <$> seq 0 3)) as Hnd by (apply (bool_decide_unpack _); vm_compute; exact I).
    intros q q' Hq Hq' Hm. change ((if (q <? 3)%nat then Unborn else Dead) ≠ Dead) in Hq.
    change ((if (q' <? 3)%nat then Unborn else Dead) ≠ Dead) in Hq'.
    destruct (q <? 3)%nat eqn:E; [|by destruct Hq]. destruct (q' <? 3)%nat eqn:E'; [|by destruct Hq']. apply Nat.ltb_lt in E, E'.
    apply (NoDup_lookup _ q q' (mark some_pids some_starts q) Hnd).
    + rewrite list_lookup_fmap, lookup_seq_lt by done. done.
    + rewrite list_lookup_fmap, lookup_seq_lt by done. rewrite Hm. done.
  - by compute.
  - done.
  - split; [done|]. by intros [|[|[|t]]] th [= <-].
  - intros [|[|[|t]]] th [= <-]; (split; [|done]); repeat constructor; by compute.
Qed.

Lemma some_run_reachable evs :
  reachable (Hdr lock_token) some_pids some_starts (calling (handle_on two_keys)) first_state (some_run evs).
Proof.
  apply played_reachable.
  - intros q _. destruct q as [|[|q]]; by split_and!.
  - assert (∀ q, s_lives first_state q ≠ Alive) as Hn by (intros q; unfold first_state; simpl s_lives; by destruct (Nat.ltb q 3)).
    split; [intros q Hq|intros q q' Hq]; by destruct (Hn q).
Qed.

Lemma board_lock_excludes_witness :
  t_holds <$> s_threads (some_run until_death) = [true; false; false] ∧
  ∀ t th, holder (some_run until_death) t th → t = 0%nat.
Proof.
  split; [vm_compute; reflexivity|]. intros t th Hth.
  assert (∃ th0, s_threads (some_run until_death) !! 0%nat = Some th0 ∧ (0%nat, true) = (t_proc th0, t_holds th0))
    as (th0 & H0 & [= Hq Hh]) by (apply fmap_Some; vm_compute; reflexivity).
  assert (s_lives (some_run until_death) 0 = Alive) as Hl by (vm_compute; reflexivity). rewrite Hq in Hl.
  exact (proj1 (board_lock_excludes two_keys some_pids some_starts (handle_on two_keys) first_state
    (some_run until_death) first_begins (some_run_reachable until_death)) t 0%nat th th0 Hth
    (conj (conj H0 Hl) (eq_sym Hh))).
Defined.

Lemma declared_key_kept_witness :
  map (λ th : thread bloc op handles answer, map w_key_ (tenured th)) (s_threads (some_run succession)) = [[[65]]; [[66]; [65]]; []] ∧
  ∃ th w, s_threads (some_run succession) !! 1%nat = Some th ∧
    map snd (t_told th) = [Told KeyDeclared; Told KeyDeclared; Told (Result Ok); Told (Result message_size)] ∧
    tenured th !! 1%nat = Some w ∧ stands_for two_keys some_pids some_starts (s_mem (some_run succession)) 1 w.
Proof.
  split; [vm_compute; reflexivity|].
  assert (∃ th, s_threads (some_run succession) !! 1%nat = Some th ∧
    (1%nat, [Told KeyDeclared; Told KeyDeclared; Told (Result Ok); Told (Result message_size)], Some [65]) =
    (t_proc th, map snd (t_told th), w_key_ <$> tenured th !! 1%nat))
    as (th & Hth & [= Hq Htold Hkey]) by (apply fmap_Some; vm_compute; reflexivity).
  assert (s_lives (some_run succession) 1 = Alive) as Hl by (vm_compute; reflexivity). rewrite Hq in Hl.
  symmetry in Hkey. apply fmap_Some in Hkey as (w & Hw & _).
  exists th, w. split; [done|]. split; [done|]. split; [done|]. rewrite Hq.
  exact (proj1 (declared_key_kept two_keys some_pids some_starts (handle_on two_keys) first_state
    (some_run succession) first_begins (some_run_reachable succession)) 1%nat th w (conj Hth Hl) (list_elem_of_lookup_2 _ _ _ Hw)).
Defined.

(** ** Colliding tokens *)

(** The fourth process has the pid of the first and another start time, but both
    have the same token. *)
Definition reused_pids (q : nat) : Z := match q with 1%nat => 8 | 2%nat => 9 | _ => 7 end.
Definition colliding_starts (q : nat) : Z := match q with 0%nat => 109249451 | 3%nat => 109576336 | _ => 9 end.
Definition four_callers : system bloc op handles answer :=
  System (λ _, 0) (λ q, if (q <? 4)%nat then Unborn else Dead) (map (λ q, caller q [declares 65]) [0; 1; 2; 3]%nat).
Definition collided (evs : list event) : system bloc op handles answer :=
  play (Hdr lock_token) reused_pids colliding_starts (calling (handle_on (make_geometry 4 16))) [0; 1; 2; 3]%nat
    evs four_callers.

(** The first dies with the lock; the second finds it dead, and waits just before
    it takes the lock; the third takes the lock and gives it back; the fourth,
    born meanwhile, locks; the second then takes the lock from it. *)
Definition mistaken : list event :=
  ([Birth 0; Birth 1; Birth 2] ++ replicate 20 (Turn 0) ++ [Death 0] ++ replicate 9 (Turn 1) ++
   replicate 200 (Turn 2) ++ [Birth 3] ++ replicate 15 (Turn 3) ++ [Turn 1])%nat.

(** What [be_mark] asks is needed: with two start times whose tokens collide, two
    threads of processes that run hold the lock at once. *)
Lemma collision_breaks_lock : ∃ s th th',
  reachable (Hdr lock_token) reused_pids colliding_starts (calling (handle_on (make_geometry 4 16))) four_callers s ∧
  holder s 1 th ∧ holder s 3 th'.
Proof.
  assert (∃ th, s_threads (collided mistaken) !! 1%nat = Some th ∧ (1%nat, true) = (t_proc th, t_holds th))
    as (th & H1 & [= Hq Hh]) by (apply fmap_Some; vm_compute; reflexivity).
  assert (∃ th, s_threads (collided mistaken) !! 3%nat = Some th ∧ (3%nat, true) = (t_proc th, t_holds th))
    as (th' & H3 & [= Hq' Hh']) by (apply fmap_Some; vm_compute; reflexivity).
  assert (s_lives (collided mistaken) 1 = Alive) as Hl by (vm_compute; reflexivity). rewrite Hq in Hl.
  assert (s_lives (collided mistaken) 3 = Alive) as Hl' by (vm_compute; reflexivity). rewrite Hq' in Hl'.
  exists (collided mistaken), th, th'. split; [|exact (conj (conj (conj H1 Hl) (eq_sym Hh)) (conj (conj H3 Hl') (eq_sym Hh')))].
  apply played_reachable; [intros q _; destruct q as [|[|[|[|q]]]]; unfold is_u64; split_and!; vm_compute; congruence|].
  assert (∀ q, s_lives four_callers q ≠ Alive) as Hn
    by (intros q; unfold four_callers; simpl s_lives; by destruct (Nat.ltb q 4)).
  split; [intros q Hq0|intros q q' Hq0]; by destruct (Hn q).
Qed.

End Tenure.
