(* ===== verification/Seqlock.v ===== *)
(** * Blackboard values are never torn

    The value path of the board under every interleaving: one writer per entry,
    any number of readers.  A reader that gets a value gets one that was written
    whole, and never an older one than it got before from that entry.

    [Pen i stamps ph] is the right to write entry [i]: it has completed as many
    writes as there are [stamps], and [ph] is how far the one in progress is.
    [Late i n] records that the entry's [publish] has reached [n]; [Knows i stamps]
    that those writes have completed. *)

From stdpp Require Import gmultiset.
From S2P Require Import Prelude Prog Conc Words Process Blackboard.
Import Blackboard.

Module Seqlock.
(** How far the write in progress is: words stored, length stored, time stamp
    stored. *)
Inductive phase := Idle | Words (n : nat) | WithLen | Stamped (t : Z).

Inductive token :=
  | Pen (i : Z) (stamps : list Z) (ph : phase)
  | Late (i n : Z)
  | Knows (i : Z) (stamps : list Z).

#[export] Instance phase_eq_dec : EqDecision phase.
Proof. solve_decision. Defined.
#[export] Instance token_eq_dec : EqDecision token.
Proof. solve_decision. Defined.
#[export] Instance phase_countable : Countable phase.
Proof.
  refine (inj_countable'
    (λ p, match p with Idle => inl () | Words n => inr (inl n) | WithLen => inr (inr (inl ()))
                     | Stamped t => inr (inr (inr t)) end)
    (λ p, match p with inl () => Idle | inr (inl n) => Words n | inr (inr (inl ())) => WithLen
                     | inr (inr (inr t)) => Stamped t end) _).
  by intros [].
Defined.
#[export] Instance token_countable : Countable token.
Proof.
  refine (inj_countable'
    (λ t, match t with Pen i s p => inl (i, s, p) | Late i n => inr (inl (i, n))
                     | Knows i s => inr (inr (i, s)) end)
    (λ t, match t with inl (i, s, p) => Pen i s p | inr (inl (i, n)) => Late i n
                     | inr (inr (i, s)) => Knows i s end) _).
  by intros [].
Defined.

Abbreviation tokens := (gmultiset token).
Abbreviation watch := (λ _ : bloc, false).
Definition guard (R : Type) (a : act bloc R) (own : tokens) : Prop := True.

Lemma parity_cases (n : Z) : parity n = n `mod` 2.
Proof. apply (Z.land_ones n 1). lia. Qed.

Lemma parity_succ (k : Z) : 0 <= k → parity (k + 1) ≠ parity k.
Proof. intros Hk. rewrite !parity_cases. lia. Qed.

Section seqlock.
(** The values of each entry, in the order they are written. *)
Context (g : Geometry) (script : Z → list (list Z)).
Implicit Types (m : bloc → Z) (own env : tokens) (i n : Z) (stamps : list Z).

Definition script_ok : Prop := ∀ i, 0 <= i < capacity g →
  Z.of_nat (length (script i)) < 4611686018427387904 ∧
  Forall (λ d, Forall is_u8 d ∧ Z.of_nat (length d) <= max_value_size g ∧
               Z.of_nat (length d) < 4294967296) (script i).

(** The words of write [k + 1] that are stored, up to [n]. *)
Definition words_in m i (k n : nat) : Prop :=
  ∀ d w x, script i !! k = Some d → (w < n)%nat → words_of d !! w = Some x →
    m (CellWord i (parity (Z.of_nat k + 1)) (Z.of_nat w)) = x.
Definition len_in m i (k : nat) : Prop :=
  ∀ d, script i !! k = Some d → m (Cell i (parity (Z.of_nat k + 1)) value_len) = Z.of_nat (length d).
Definition stamp_in m i (k : nat) (t : Z) : Prop :=
  m (Cell i (parity (Z.of_nat k + 1)) updated_at_ns) = t.

Definition all_words i (k : nat) : nat := match script i !! k with Some d => nwords (length d) | None => 0 end.

(** Write [k] is whole in its cell; there is no write 0. *)
Definition holds m i stamps (k : nat) : Prop :=
  match k with
  | O => True
  | S k => words_in m i k (all_words i k) ∧ len_in m i k ∧ ∃ t, stamps !! k = Some t ∧ stamp_in m i k t
  end.

Definition progress m i (k : nat) (ph : phase) : Prop :=
  match ph with
  | Idle => True
  | Words n => words_in m i k n
  | WithLen => words_in m i k (all_words i k) ∧ len_in m i k
  | Stamped t => words_in m i k (all_words i k) ∧ len_in m i k ∧ stamp_in m i k t
  end.

Definition busy (ph : phase) : Z := match ph with Idle => 0 | _ => 1 end.

Record entry_ok m i stamps ph : Prop := {
  eo_publish : m (Ent i publish) = 2 * Z.of_nat (length stamps) + busy ph;
  eo_script : Z.of_nat (length stamps) + busy ph <= Z.of_nat (length (script i));
  eo_live : holds m i stamps (length stamps);
  eo_previous : ph = Idle → holds m i stamps (pred (length stamps));
  eo_progress : progress m i (length stamps) ph
}.

(** Every entry has one writer; what readers know is so. *)
Record inv m (cnt : Z) (toks : tokens) : Prop := {
  iv_pen : ∀ i, 0 <= i < capacity g → ∃ stamps ph rest,
    toks = {[+ Pen i stamps ph +]} ⊎ rest ∧ (∀ s' p', Pen i s' p' ∉ rest) ∧ entry_ok m i stamps ph;
  iv_late : ∀ i n, 0 <= i < capacity g → Late i n ∈ toks → n <= m (Ent i publish);
  iv_knows : ∀ i s, 0 <= i < capacity g → Knows i s ∈ toks → ∃ s' ph, Pen i s' ph ∈ toks ∧ s `prefix_of` s'
}.

Abbreviation sp := (spec watch 1 guard inv).

(** ** Frames *)

(** Locations of entry [i] the value path reads. *)
Definition value_loc i (l : bloc) : bool :=
  match l with
  | Ent j publish => j =? i
  | Cell j _ _ | CellWord j _ _ => j =? i
  | _ => false
  end.

Lemma entry_ok_ext m m' i stamps ph :
  (∀ l, value_loc i l = true → m' l = m l) → entry_ok m i stamps ph → entry_ok m' i stamps ph.
Proof.
  intros Hm [Hp Hs Hl Hv Hg].
  assert (∀ k (n : nat), words_in m i k n → words_in m' i k n) as Hw.
  { intros k n Hw d w x Hd Hwn Hx. rewrite Hm by (cbn; lia). eauto. }
  assert (∀ k, len_in m i k → len_in m' i k) as Hn.
  { intros k Hk d Hd. rewrite Hm by (cbn; lia). auto. }
  assert (∀ k t, stamp_in m i k t → stamp_in m' i k t) as Ht.
  { intros k t Hk. unfold stamp_in. rewrite Hm by (cbn; lia). auto. }
  assert (∀ k, holds m i stamps k → holds m' i stamps k) as Hh.
  { intros [|k]; [done|]. intros (H1 & H2 & t & H3 & H4). split; [by apply Hw|]. split; [by apply Hn|]. exists t. auto. }
  split; [by rewrite Hm by (cbn; lia)|done|auto|auto|].
  destruct ph; cbn in *; naive_solver.
Qed.

Lemma value_inv_other m cnt cnt' toks l v :
  (∀ i, value_loc i l = false) → inv m cnt toks → inv (<[l:=v]> m) cnt' toks.
Proof.
  intros Hl [Hp Hla Hk].
  assert (∀ i l', value_loc i l' = true → (<[l:=v]> m) l' = m l') as Hm.
  { intros i l' Hl'. apply upd_ne. intros <-. by rewrite Hl in Hl'. }
  split; [|..].
  - intros i Hi. destruct (Hp i Hi) as (s & ph & rest & -> & Hu & Ho). exists s, ph, rest.
    split; [done|]. split; [done|]. eapply entry_ok_ext; [|done]. apply Hm.
  - intros i n Hi Hin. rewrite (Hm i) by (cbn; lia). auto.
  - done.
Qed.

(** Knowledge may be forgotten. *)
Definition knowledge (own : tokens) : Prop := ∀ i s ph, Pen i s ph ∉ own.

Lemma pen_split (X Y : tokens) i s ph :
  Pen i s ph ∈ X → ∃ X', X = {[+ Pen i s ph +]} ⊎ X'.
Proof. intros Hin. exists (X ∖ {[+ Pen i s ph +]}). multiset_solver. Qed.

Lemma inv_pen_unique m cnt toks i s ph rest :
  inv m cnt toks → 0 <= i < capacity g → toks = {[+ Pen i s ph +]} ⊎ rest →
  (∀ s' p', Pen i s' p' ∉ rest) ∧ entry_ok m i s ph.
Proof.
  intros [Hp _ _] Hi Heq. destruct (Hp i Hi) as (s1 & p1 & rest1 & Heq1 & Hu & Ho).
  assert (Pen i s ph ∈ {[+ Pen i s1 p1 +]} ⊎ rest1) as Hin by (rewrite <- Heq1, Heq; multiset_solver).
  apply gmultiset_elem_of_disj_union in Hin as [Hin|Hin]; [|by destruct (Hu s ph)].
  apply gmultiset_elem_of_singleton in Hin as [= <- <-]. split; [|done].
  assert (rest = rest1) as -> by (apply (inj ({[+ Pen i s ph +]} ⊎.)); congruence). done.
Qed.

Lemma elem_pen_other (env : tokens) i s ph s' ph' t :
  (∀ s1 p1, t ≠ Pen i s1 p1) → t ∈ {[+ Pen i s ph +]} ⊎ env → t ∈ {[+ Pen i s' ph' +]} ⊎ env.
Proof.
  intros Ht [[= ->]%gmultiset_elem_of_singleton|Hin]%gmultiset_elem_of_disj_union; [by destruct (Ht s ph)|].
  apply gmultiset_elem_of_disj_union. by right.
Qed.

(** The holder of a pen makes a step of its write. *)
Lemma inv_pen_step m m' cnt cnt' env i s ph s' ph' :
  inv m cnt ({[+ Pen i s ph +]} ⊎ env) → 0 <= i < capacity g →
  (∀ l, value_loc i l = false → m' l = m l) → m (Ent i publish) <= m' (Ent i publish) →
  s `prefix_of` s' → entry_ok m' i s' ph' → inv m' cnt' ({[+ Pen i s' ph' +]} ⊎ env).
Proof.
  intros Hinv Hi Hm Hle Hpre Hok'. pose proof Hinv as [Hp Hla Hk].
  destruct (inv_pen_unique _ _ _ _ _ _ _ Hinv Hi eq_refl) as [Hu Hok].
  split.
  - intros j Hj. destruct (decide (j = i)) as [->|Hne]; [by exists s', ph', env|].
    destruct (Hp j Hj) as (s1 & p1 & rest & Heq & Hu1 & Ho1).
    assert (Pen j s1 p1 ∈ env) as Hin.
    { assert (Pen j s1 p1 ∈ {[+ Pen i s ph +]} ⊎ env) as Hin by (rewrite Heq; multiset_solver).
      apply gmultiset_elem_of_disj_union in Hin as [Hin|Hin]; [|done].
      apply gmultiset_elem_of_singleton in Hin as [= ? ? ?]. done. }
    apply pen_split in Hin as [env' ->]; [|done..].
    exists s1, p1, ({[+ Pen i s' ph' +]} ⊎ env'). split; [multiset_solver|]. split.
    + intros s2 p2. assert (rest = {[+ Pen i s ph +]} ⊎ env') as ->.
      { apply (inj ({[+ Pen j s1 p1 +]} ⊎.)). rewrite <- Heq. multiset_solver. }
      specialize (Hu1 s2 p2). intros [[= ? ? ?]%gmultiset_elem_of_singleton|Hin]%gmultiset_elem_of_disj_union; [done|].
      apply Hu1. apply gmultiset_elem_of_disj_union. by right.
    + eapply entry_ok_ext; [|exact Ho1]. intros l Hl. apply Hm. destruct l as [| |? ?|? ?|? ? ?|? ? ?]; cbn in *; try done;
        [destruct f; (done || lia)|lia|lia].
  - intros j n Hj Hin. assert (n <= m (Ent j publish)) as Hn.
    { apply Hla; [done|]. eapply elem_pen_other; [|exact Hin]. done. }
    destruct (decide (j = i)) as [->|Hne]; [lia|]. rewrite Hm; [done|cbn; lia].
  - intros j s1 Hj Hin. destruct (Hk j s1 Hj) as (s2 & p2 & Hin2 & Hpre2).
    { eapply elem_pen_other; [|exact Hin]. done. }
    apply gmultiset_elem_of_disj_union in Hin2 as [[= -> -> ->]%gmultiset_elem_of_singleton|Hin2].
    + exists s', ph'. split; [multiset_solver|]. by etrans.
    + exists s2, p2. split; [multiset_solver|done].
Qed.

Lemma any_guard_mono R (a : act bloc R) own own' : guard R a own → own ⊆ own' → guard R a own'.
Proof. done. Qed.

Lemma value_frame {A} own F (p : bprog A) (Q : A → tokens → Prop) :
  sp own p (λ a own', Q a (own' ⊎ F)) → sp (own ⊎ F) p Q.
Proof. apply spec_frame. apply any_guard_mono. Qed.

(** Steps that touch no value. *)
Lemma sp_any {R} (a : act bloc R) own (Q : R → tokens → Prop) :
  readonly a = true → (∀ r, Q r own) → sp own (Act a Ret) Q.
Proof. intros Ha HQ. by apply spec_readonly. Qed.

Lemma sp_store_other l v own (Q : unit → tokens → Prop) :
  (∀ i, value_loc i l = false) → Q tt own → sp own (store l v) Q.
Proof. intros Hl HQ. eapply spec_store; [done|done| |exact HQ]. intros. by eapply value_inv_other. Qed.

Lemma sp_fetch_add_other wrap l d own (Q : Z → tokens → Prop) :
  (∀ i, value_loc i l = false) → (∀ v, Q v own) → sp own (fetch_add wrap l d) Q.
Proof.
  intros Hl HQ. eapply spec_fetch_add; [done|done|]. intros m cnt env Hi. exists own.
  split; [by eapply value_inv_other|done].
Qed.
End seqlock.

Ltac walk :=
  match goal with
  | |- spec _ _ _ _ _ (bind _ _) _ => apply spec_bind
  | |- spec _ _ _ _ _ (Ret _) _ => apply spec_ret
  | |- spec _ _ _ _ _ (load _) _ => apply sp_any; [done|intros]
  | |- spec _ _ _ _ _ (store _ _) _ => apply sp_store_other; [done|]
  | |- spec _ _ _ _ _ (fetch_add _ _ _) _ => apply sp_fetch_add_other; [done|intros]
  | |- spec _ _ _ _ _ (when _ _) _ => apply spec_when; intros
  | |- spec _ _ _ _ _ (futex_wake_all _) _ => apply sp_any; [done|intros]
  | |- spec _ _ _ _ _ monotonic_ns _ => apply sp_any; [done|intros]
  | |- spec _ _ _ _ _ current_pid _ => apply sp_any; [done|intros]
  | |- spec _ _ _ _ _ (process_probe _) _ => apply sp_any; [done|intros]
  | |- spec _ _ _ _ _ (match ?r with (_, _) => _ end) _ => destruct r
  | |- spec _ _ _ _ _ (if ?b then _ else _) _ => let E := fresh "E" in destruct b eqn:E
  | |- (λ _ _, _) _ _ => idtac
  end; lazy beta match.

Section operations.
Context (g : Geometry) (script : Z → list (list Z)) (Hscript : script_ok g script).
Implicit Types (m : bloc → Z) (own env : tokens) (i : Z) (stamps : list Z).
Abbreviation sp := (spec watch 1 guard (inv g script)).

(** ** Writing *)

Lemma sp_notify own : sp own notify_change (λ _ own', own' = own).
Proof. unfold notify_change. repeat walk; done. Qed.

(** A store of the write in progress. *)
Lemma sp_pen_store l v i s ph ph' (Q : unit → tokens → Prop) :
  0 <= i < capacity g → value_loc i l = true → busy ph = 1 → busy ph' = 1 →
  l ≠ Ent i publish →
  (∀ m, entry_ok script m i s ph → progress script (<[l:=v]> m) i (length s) ph') →
  (∀ m, entry_ok script m i s ph → holds script (<[l:=v]> m) i s (length s)) →
  Q tt {[+ Pen i s ph' +]} → sp {[+ Pen i s ph +]} (store l v) Q.
Proof.
  intros Hi Hl Hb Hb' Hne Hprog Hhold HQ. eapply spec_store; [done|done| |exact HQ].
  intros m cnt env Hinv. destruct (inv_pen_unique _ _ _ _ _ _ _ _ _ Hinv Hi eq_refl) as [_ Hok].
  pose proof Hok as [Hp Hs Hlv Hv Hg].
  eapply inv_pen_step; [exact Hinv|done|..|done|].
  - intros l' Hl'. apply upd_ne. intros <-. congruence.
  - rewrite upd_ne by done. lia.
  - split; [rewrite upd_ne by done; lia|lia|by apply Hhold| |by apply Hprog].
    intros ->. done.
Qed.

(** The cell being written is not the live one. *)
Lemma holds_live m i s l v :
  (∀ c f, l = Cell i c f → c = parity (Z.of_nat (length s) + 1)) →
  (∀ c w, l = CellWord i c w → c = parity (Z.of_nat (length s) + 1)) →
  (∀ j f, l ≠ Ent j f) → holds script m i s (length s) → holds script (<[l:=v]> m) i s (length s).
Proof.
  intros Hc Hw _. destruct (length s) as [|k] eqn:Ek; [done|].
  assert (parity (Z.of_nat k + 1) ≠ parity (Z.of_nat (S k) + 1)) as Hne.
  { replace (Z.of_nat (S k)) with (Z.of_nat k + 1) by lia. apply not_eq_sym, parity_succ. lia. }
  intros (H1 & H2 & t & H3 & H4). split; [|split; [|exists t; split; [done|]]].
  - intros d w x Hd Hwn Hx. rewrite upd_ne; [by eapply H1|]. intros ->. by destruct (Hw _ _ eq_refl).
  - intros d Hd. rewrite upd_ne; [by apply H2|]. intros ->. by destruct (Hc _ _ eq_refl).
  - unfold stamp_in. rewrite upd_ne; [done|]. intros ->. by destruct (Hc _ _ eq_refl).
Qed.

Lemma lookup_words_of (d : list Z) (w : nat) :
  (w < nwords (length d))%nat → words_of d !! w = Some (word_at d w 8).
Proof. intros Hw. unfold words_of. by rewrite list_lookup_fmap, lookup_seq_lt. Qed.

Lemma sp_store_word i s (n : nat) d (Q : unit → tokens → Prop) :
  0 <= i < capacity g → script i !! length s = Some d → (n < nwords (length d))%nat →
  Q tt {[+ Pen i s (Words (S n)) +]} →
  sp {[+ Pen i s (Words n) +]}
    (store (CellWord i (parity (Z.of_nat (length s) + 1)) (Z.of_nat n)) (word_at d n 8)) Q.
Proof.
  intros Hi Hd Hn HQ. eapply sp_pen_store with (ph' := Words (S n)); [done|cbn; lia|done|done|done|..|exact HQ].
  - intros m [_ _ _ _ Hg] d' w x Hd' Hw Hx. rewrite Hd in Hd'. injection Hd' as <-.
    destruct (decide (w = n)) as [->|Hne].
    + rewrite upd_same. rewrite lookup_words_of in Hx by done. congruence.
    + rewrite upd_ne by (intros [= E]; lia). eapply Hg; [done|lia|done].
  - intros m Hok. apply holds_live; [done|by intros ? ? [= <- _]|done|apply Hok].
Qed.

Lemma sp_store_words i s d :
  0 <= i < capacity g → script i !! length s = Some d →
  sp {[+ Pen i s (Words 0) +]} (store_words (CellWord i (parity (Z.of_nat (length s) + 1))) d)
    (λ _ own, own = {[+ Pen i s (Words (nwords (length d))) +]}).
Proof.
  intros Hi Hd. unfold store_words. cbn zeta. walk.
  apply (spec_foreach _ _ _ _ _ _ _ _ _ (λ w _ own, own = {[+ Pen i s (Words (Z.to_nat w)) +]})); [done|..].
  - intros w [] own Hw ->. assert (Z.to_nat (w + 1) = S (Z.to_nat w)) as -> by lia.
    rewrite <- (Z2Nat.id w) at 2 by lia. apply sp_store_word with (d := d); [done|done| |done].
    unfold nwords. lia.
  - intros [] own ->. rewrite Z.add_0_l, Nat2Z.id. unfold nwords. walk.
    + apply negb_true_iff in H. rewrite word_at_last. apply sp_store_word with (d := d); [done|done| |].
      * unfold nwords. rewrite H. lia.
      * rewrite H. do 3 f_equal. lia.
    + apply negb_false_iff in H. rewrite H. do 3 f_equal. lia.
Qed.

(** The pen that is held tells what the entry's script is. *)
Lemma sp_writer_write w data i s :
  w_geometry_ w = g → w_entry_idx_ w = i → 0 <= i → w_writes_ w = Z.of_nat (length s) →
  script i !! length s = Some data →
  sp {[+ Pen i s Idle +]} (writer_write w data) (λ '(e, w') own,
    (e = Ok ∧ ∃ t, own = {[+ Pen i (s ++ [t]) Idle +]} ∧
       w' = {| w_base_ := w_base_ w; w_geometry_ := g; w_entry_idx_ := i; w_tenancy_ := w_tenancy_ w;
               w_writes_ := Z.of_nat (length (s ++ [t])); w_owner_pid_ := w_owner_pid_ w; w_key_ := w_key_ w |}) ∨
    (e ≠ Ok ∧ own = {[+ Pen i s Idle +]} ∧ w' = w)).
Proof using Hscript.
  intros Hwg Hwi Hi0 Hww Hd. unfold writer_write. cbn zeta.
  walk; [walk; right; naive_solver|]. walk. unfold Process.self_identity_uncached, Process.process_starttime.
  do 6 walk. do 2 walk. walk; [walk; right; naive_solver|]. rewrite Hwg, Hwi.
  walk; [walk; right; naive_solver|]. apply Z.leb_gt in E1. assert (0 <= i < capacity g) as Hi by lia.
  walk; [walk; right; naive_solver|].
  do 2 walk. walk; [walk; right; naive_solver|]. do 2 walk. walk; [walk; right; naive_solver|].
  destruct (Hscript i Hi) as [Hlen Hall].
  eapply Forall_lookup in Hd as Hdok; [|exact Hall]. destruct Hdok as (Hbytes & Hfit & Hu32).
  apply lookup_lt_Some in Hd as Hk.
  assert (u64 (w_writes_ w + 1) = Z.of_nat (length s) + 1) as -> by (rewrite Hww; word).
  walk.
  (* the odd publish *)
  eapply spec_store with (own' := {[+ Pen i s (Words 0) +]}); [done|done|..].
  { intros m cnt env Hinv. destruct (inv_pen_unique _ _ _ _ _ _ _ _ _ Hinv Hi eq_refl) as [_ Hok].
    pose proof Hok as [Hp Hs Hlv Hv Hg]. cbn in Hp.
    eapply inv_pen_step; [exact Hinv|lia|..|done|].
    - intros l Hl. apply upd_ne. intros <-. cbn in Hl. lia.
    - rewrite upd_same. word.
    - split.
      + rewrite upd_same. cbn. word.
      + cbn. lia.
      + revert Hlv. destruct (length s) as [|k] eqn:Ek; [done|]. intros (H1 & H2 & t & H3 & H4).
        split; [|split; [|exists t; split; [done|]]].
        * intros d' w' x Hd' Hw' Hx. rewrite upd_ne by done. by eapply H1.
        * intros d' Hd'. rewrite upd_ne by done. by apply H2.
        * unfold stamp_in. by rewrite upd_ne.
      + done.
      + intros d' w' x _ Hw'. lia. }
  walk. apply (spec_mono _ _ _ _ _ _ (λ _ own, own = {[+ Pen i s (Words (nwords (length data))) +]})).
  { walk.
    - by apply sp_store_words.
    - apply Z.ltb_ge in H. by replace (length data) with 0%nat by lia. }
  intros _ own ->. lazy beta. walk.
  assert (all_words script i (length s) = nwords (length data)) as Haw by (unfold all_words; by rewrite Hd).
  eapply sp_pen_store with (ph' := WithLen); [lia|cbn; lia|done|done|done|..].
  { intros m [_ _ _ _ Hg]. cbn in Hg |- *. rewrite Haw. split.
    - intros d' w' x Hd' Hw' Hx. rewrite upd_ne by done. by eapply Hg.
    - intros d' Hd'. rewrite upd_same. rewrite Hd in Hd'. injection Hd' as <-. apply u32_small. unfold is_u32. lia. }
  { intros m Hok. apply holds_live; [by intros ? ? [= <- _]|done|done|apply Hok]. }
  do 3 walk.
  match goal with |- spec _ _ _ _ _ (store _ (u64 ?t)) _ => rename t into tm end.
  eapply sp_pen_store with (ph' := Stamped (u64 tm)); [lia|cbn; lia|done|done|done|..].
  { intros m [_ _ _ _ [H1 H2]]. cbn. split; [|split].
    - intros d' w' x Hd' Hw' Hx. rewrite upd_ne by done. by eapply H1.
    - intros d' Hd'. rewrite upd_ne by (intros [=]). by apply H2.
    - apply upd_same. }
  { intros m Hok. apply holds_live; [by intros ? ? [= <- _]|done|done|apply Hok]. }
  walk.
  eapply spec_store with (own' := {[+ Pen i (s ++ [u64 tm]) Idle +]}); [done|done|..].
  { intros m cnt env Hinv. destruct (inv_pen_unique _ _ _ _ _ _ _ _ _ Hinv Hi eq_refl) as [_ Hok].
    pose proof Hok as [Hp Hs Hlv Hv (H1 & H2 & H3)]. cbn in Hp, Hs.
    eapply inv_pen_step; [exact Hinv|lia|..].
    - intros l Hl. apply upd_ne. intros <-. cbn in Hl. lia.
    - rewrite upd_same. word.
    - by eexists.
    - split.
      + rewrite upd_same, length_app. cbn. word.
      + rewrite length_app. cbn. lia.
      + rewrite length_app, Nat.add_1_r. split; [|split; [|exists (u64 tm); split]].
        * intros d' w' x Hd' Hw' Hx. rewrite upd_ne by done. by eapply H1.
        * intros d' Hd'. rewrite upd_ne by done. by apply H2.
        * rewrite lookup_app_r by lia. by rewrite Nat.sub_diag.
        * unfold stamp_in. by rewrite upd_ne.
      + intros _. rewrite length_app, Nat.add_1_r. cbn [pred].
        revert Hlv. clear -Hk. destruct (length s) as [|k] eqn:Ek; [done|]. intros (H1 & H2 & t & H3 & H4).
        split; [|split; [|exists t; split]].
        * intros d' w' x Hd' Hw' Hx. rewrite upd_ne by done. by eapply H1.
        * intros d' Hd'. rewrite upd_ne by done. by apply H2.
        * rewrite lookup_app_l by (rewrite Ek; lia). done.
        * unfold stamp_in. by rewrite upd_ne.
      + done. }
  walk. eapply spec_mono; [apply sp_notify|]. intros _ own ->. lazy beta. walk. left. split; [done|].
  exists (u64 tm). split; [done|]. rewrite length_app. cbn. by replace (Z.of_nat (length s + 1)) with (Z.of_nat (length s) + 1) by lia.
Qed.

(** ** What readers know *)

Definition is_pen (t : token) : bool := match t with Pen _ _ _ => true | _ => false end.

(** A piece of knowledge that is so. *)
Definition known m (toks : tokens) (t : token) : Prop :=
  match t with
  | Pen _ _ _ => False
  | Late i n => 0 <= i < capacity g → n <= m (Ent i publish)
  | Knows i s => 0 <= i < capacity g → ∃ s' ph, Pen i s' ph ∈ toks ∧ s `prefix_of` s'
  end.

Lemma inv_learn m cnt cnt' toks t :
  inv g script m cnt toks → known m toks t → inv g script m cnt' ({[+ t +]} ⊎ toks).
Proof using Type.
  clear. intros [Hp Hla Hk] Ht. split.
  - intros i Hi. destruct (Hp i Hi) as (s & ph & rest & -> & Hu & Ho). exists s, ph, ({[+ t +]} ⊎ rest).
    split; [multiset_solver|]. split; [|done]. intros s' p'.
    intros [<-%gmultiset_elem_of_singleton|Hin]%gmultiset_elem_of_disj_union; [done|by eapply Hu].
  - intros i n Hi [<-%gmultiset_elem_of_singleton|Hin]%gmultiset_elem_of_disj_union; [by apply Ht|auto].
  - intros i s Hi Hin. assert (∃ s' ph, Pen i s' ph ∈ toks ∧ s `prefix_of` s') as (s' & ph & Hin' & Hpre).
    { apply gmultiset_elem_of_disj_union in Hin as [<-%gmultiset_elem_of_singleton|Hin]; [by apply Ht|auto]. }
    exists s', ph. split; [multiset_solver|done].
Qed.

Lemma inv_forget m cnt cnt' toks t :
  inv g script m cnt ({[+ t +]} ⊎ toks) → is_pen t = false → inv g script m cnt' toks.
Proof using Type.
  clear. intros [Hp Hla Hk] Ht. split.
  - intros i Hi. destruct (Hp i Hi) as (s & ph & rest & Heq & Hu & Ho).
    assert (Pen i s ph ∈ toks) as Hin.
    { assert (Pen i s ph ∈ {[+ t +]} ⊎ toks) as Hin by (rewrite Heq; multiset_solver).
      apply gmultiset_elem_of_disj_union in Hin as [<-%gmultiset_elem_of_singleton|Hin]; done. }
    apply pen_split in Hin as [toks' ->]; [|done..]. exists s, ph, toks'. split; [done|]. split; [|done].
    intros s' p' Hin. apply (Hu s' p'). assert (rest = {[+ t +]} ⊎ toks') as ->.
    { apply (inj ({[+ Pen i s ph +]} ⊎.)). rewrite <- Heq. multiset_solver. }
    multiset_solver.
  - intros i n Hi Hin. apply Hla; [done|multiset_solver].
  - intros i s Hi Hin. destruct (Hk i s Hi) as (s' & ph & Hin' & Hpre); [multiset_solver|].
    exists s', ph. split; [|done].
    apply gmultiset_elem_of_disj_union in Hin' as [<-%gmultiset_elem_of_singleton|Hin']; done.
Qed.

Lemma inv_entry m cnt toks i s ph :
  inv g script m cnt toks → 0 <= i < capacity g → Pen i s ph ∈ toks → entry_ok script m i s ph.
Proof using Type.
  clear. intros Hinv Hi Hin. apply pen_split in Hin as [X ->]; [|done..].
  by eapply inv_pen_unique in Hinv as [_ Hok].
Qed.

(** A reader of entry [i] that found [stamps] writes complete: what it has read
    since is as [P] says, or a later write may have clobbered the cell. *)
Definition reading i stamps (F : tokens) (P : Prop) own : Prop :=
  (own = {[+ Knows i stamps +]} ⊎ F ∧ P) ∨ own = {[+ Late i (2 * Z.of_nat (length stamps) + 3) +]} ⊎ F.

Lemma holds_prefix m i s s' k :
  s `prefix_of` s' → (k <= length s)%nat → holds script m i s' k → holds script m i s k.
Proof using Type.
  clear. intros [r ->] Hk. destruct k as [|k]; [done|]. intros (H1 & H2 & t & H3 & H4).
  split; [done|]. split; [done|]. exists t. split; [|done]. by rewrite lookup_app_l in H3 by lia.
Qed.

(** The cell of the last write known is whole until the write after the next. *)
Lemma known_holds m cnt toks i s :
  inv g script m cnt toks → 0 <= i < capacity g → Knows i s ∈ toks →
  holds script m i s (length s) ∨ 2 * Z.of_nat (length s) + 3 <= m (Ent i publish).
Proof using Type.
  clear. intros Hinv Hi Hin. destruct (iv_knows _ _ _ _ _ Hinv i s Hi Hin) as (s' & ph & Hpen & Hpre).
  destruct (inv_entry _ _ _ _ _ _ Hinv Hi Hpen) as [Hp _ Hl Hv _].
  pose proof (prefix_length _ _ Hpre) as Hlen.
  destruct (decide (length s' = length s)) as [E|Hne].
  { left. rewrite E in Hl. by eapply holds_prefix. }
  destruct (decide (length s' = S (length s) ∧ ph = Idle)) as [[E ->]|Hne'].
  { left. specialize (Hv eq_refl). rewrite E in Hv. by eapply holds_prefix. }
  right. rewrite Hp. destruct ph; cbn [busy]; [|lia..].
  assert (length s' ≠ S (length s)) by tauto. lia.
Qed.

Lemma sp_reading_load i s F P l x own (Q : Z → tokens → Prop) :
  0 <= i < capacity g → (∀ m, holds script m i s (length s) → m l = x) → reading i s F P own →
  (∀ v own', reading i s F (P ∧ v = x) own' → Q v own') → sp own (load l) Q.
Proof using Type.
  clear. intros Hi Hl Hrd HQ. apply spec_act; [done|]. intros m cnt seen env r m' Hinv _ [-> ->].
  change (inv g script m cnt (own ⊎ env)) in Hinv.
  assert (count watch (Load l) (m l) cnt = cnt) as -> by done.
  destruct Hrd as [[-> HP]| ->].
  - assert (Knows i s ∈ {[+ Knows i s +]} ⊎ F ⊎ env) as Hin by multiset_solver.
    destruct (known_holds _ _ _ _ _ Hinv Hi Hin) as [Hh|Hlate].
    + exists ({[+ Knows i s +]} ⊎ F). split; [done|]. apply HQ. left. split; [done|]. split; [done|by apply Hl].
    + exists ({[+ Late i (2 * Z.of_nat (length s) + 3) +]} ⊎ F). split; [|apply HQ; by right].
      rewrite <- !(assoc_L (⊎)) in *. apply (inv_learn m cnt); [by eapply inv_forget|by intros _].
  - eexists. split; [exact Hinv|]. apply HQ. by right.
Qed.

(** ** Reading *)

Lemma reading_mono i s F (P P' : Prop) own : (P → P') → reading i s F P own → reading i s F P' own.
Proof using Type. clear. unfold reading. tauto. Qed.

(** Load the words of a write whose length is known. *)
Lemma sp_load_words i s k d F P len own (Q : list Z → tokens → Prop) :
  0 <= i < capacity g → length s = S k → script i !! k = Some d → Forall is_u8 d →
  reading i s F (P ∧ len = Z.of_nat (length d)) own →
  (∀ bytes own', reading i s F (P ∧ len = Z.of_nat (length d) ∧ bytes = d) own' → Q bytes own') →
  sp own (load_words (CellWord i (parity (Z.of_nat (length s)))) len) Q.
Proof using Type.
  clear Hscript. intros Hi Hs Hd Hu Hrd HQ. unfold load_words. cbn zeta.
  set (ws := words_of d). assert (parity (Z.of_nat (length s)) = parity (Z.of_nat k + 1)) as ->.
  { rewrite Hs. f_equal. lia. }
  assert (length ws = nwords (length d)) as Hws by apply length_words_of.
  set (known n out := P ∧ len = Z.of_nat (length d) ∧ out = concat (map (le_bytes 8) (take n ws))).
  assert (∀ (w : nat) out own1 (Q1 : Z → tokens → Prop), (len = Z.of_nat (length d) → (w < nwords (length d))%nat) →
    reading i s F (known w out) own1 →
    (∀ v own2, reading i s F (known w out ∧ ws !! w = Some v) own2 → Q1 v own2) →
    sp own1 (load (CellWord i (parity (Z.of_nat k + 1)) (Z.of_nat w))) Q1) as Hword.
  { intros w out own1 Q1 Hw [[-> Hk]| ->] HQ1; [|by apply sp_any; [|intros; apply HQ1; right]].
    destruct Hk as (HP & Hlen & Hout). specialize (Hw Hlen). rewrite <- Hws in Hw.
    destruct (lookup_lt_is_Some_2 _ _ Hw) as [x Hx].
    eapply (sp_reading_load i s F (known w out) _ x); [done| |by left|].
    - rewrite Hs. intros m (H1 & _ & _). eapply H1; [done| |done]. unfold all_words. rewrite Hd. by rewrite Hws in Hw.
    - intros v own2 Hr. apply HQ1. eapply reading_mono; [|exact Hr]. intros [? ->]. done. }
  walk. apply (spec_foreach _ _ _ _ _ _ _ _ _ (λ w out own, reading i s F (known (Z.to_nat w) out) own)).
  - eapply reading_mono; [|exact Hrd]. intros [HP Hlen]. done.
  - intros w out own1 Hw Hr1. walk. replace w with (Z.of_nat (Z.to_nat w)) at 1 by lia.
    eapply Hword; [|exact Hr1|].
    { intros ->. unfold nwords. rewrite Nat2Z.id in Hw. lia. }
    intros v own2 Hr2. walk. eapply reading_mono; [|exact Hr2]. intros ((HP & Hlen & ->) & Hv).
    split; [done|]. split; [done|]. replace (Z.to_nat (w + 1)) with (S (Z.to_nat w)) by lia.
    erewrite take_S_r by done. rewrite map_app, concat_app. cbn [map concat]. by rewrite app_nil_r.
  - intros out own1 Hr1. rewrite Z.add_0_l, Nat2Z.id in Hr1.
    destruct (Nat.eqb_spec (Z.to_nat len `mod` 8) 0) as [E|E].
    + walk. apply HQ. eapply reading_mono; [|exact Hr1]. intros (HP & -> & ->). rewrite Nat2Z.id in *.
      split; [done|]. split; [done|]. rewrite take_ge.
      * rewrite <- unwords_full. etrans; [|exact (unwords_words_of d Hu)]. f_equal.
        rewrite Hws. unfold nwords. rewrite (proj2 (Nat.eqb_eq _ _) E).
        pose proof (Nat.div_mod_eq (length d) 8). lia.
      * rewrite Hws. unfold nwords. rewrite (proj2 (Nat.eqb_eq _ _) E). lia.
    + walk. eapply Hword; [|exact Hr1|].
      { intros ->. rewrite Nat2Z.id in *. unfold nwords. destruct (Nat.eqb_spec (length d `mod` 8) 0); [done|lia]. }
      intros v own2 Hr2. walk. apply HQ. eapply reading_mono; [|exact Hr2].
      intros ((HP & -> & ->) & Hv). rewrite Nat2Z.id in *. split; [done|]. split; [done|].
      rewrite <- unwords_last.
      * etrans; [|exact (unwords_words_of d Hu)]. fold ws. f_equal. rewrite <- (take_S_r ws) by done.
        apply take_ge. rewrite Hws. unfold nwords. destruct (Nat.eqb_spec (length d `mod` 8) 0); [done|lia].
      * rewrite length_take, Hws. unfold nwords. destruct (Nat.eqb_spec (length d `mod` 8) 0); [done|lia].
      * done.
Qed.

(** Any load of a reader, with what the memory tells it. *)
Lemma sp_look l own (Q : Z → tokens → Prop) :
  (∀ m cnt env, inv g script m cnt (own ⊎ env) →
     ∃ own', (inv g script m cnt (own ⊎ env) → inv g script m cnt (own' ⊎ env)) ∧ Q (m l) own') →
  sp own (load l) Q.
Proof using Type.
  clear. intros HQ. apply spec_act; [done|]. intros m cnt seen env r m' Hinv _ [-> ->].
  destruct (HQ m cnt env Hinv) as (own' & Hi & ?). eauto.
Qed.

Lemma sp_load_publish i F (Q : Z → tokens → Prop) :
  0 <= i < capacity g →
  (∀ s b, 0 <= b <= 1 → (length s <= length (script i))%nat →
     (∀ n, Late i n ∈ F → n <= 2 * Z.of_nat (length s) + b) →
     Q (2 * Z.of_nat (length s) + b) ({[+ Knows i s +]} ⊎ F)) →
  sp F (load (Ent i publish)) Q.
Proof using Type.
  clear Hscript. intros Hi HQ. apply sp_look. intros m cnt env Hinv.
  destruct (iv_pen _ _ _ _ _ Hinv i Hi) as (s & ph & rest & Heq & _ & Hok).
  exists ({[+ Knows i s +]} ⊎ F). split.
  - intros _. rewrite <- (assoc_L (⊎)). eapply inv_learn; [exact Hinv|]. intros _. exists s, ph.
    split; [rewrite Heq; multiset_solver|done].
  - rewrite (eo_publish _ _ _ _ _ Hok). pose proof (eo_script _ _ _ _ _ Hok). apply HQ.
    + by destruct ph; cbn.
    + destruct ph; cbn in *; lia.
    + intros n Hn. rewrite <- (eo_publish _ _ _ _ _ Hok). apply (iv_late _ _ _ _ _ Hinv); [done|multiset_solver].
Qed.

Lemma sp_load_publish_after i s F P own (Q : Z → tokens → Prop) :
  0 <= i < capacity g → reading i s F P own →
  (∀ p, P → Q p ({[+ Knows i s +]} ⊎ F)) →
  (∀ p, 2 * Z.of_nat (length s) + 3 <= p < 18446744073709551616 → Q p ({[+ Late i (2 * Z.of_nat (length s) + 3) +]} ⊎ F)) →
  sp own (load (Ent i publish)) Q.
Proof using Hscript.
  intros Hi Hrd Hok Hlate. apply sp_look. intros m cnt env Hinv. exists own. split; [done|].
  destruct Hrd as [[-> HP]| ->]; [by apply Hok|]. apply Hlate.
  destruct (iv_pen _ _ _ _ _ Hinv i Hi) as (s1 & ph & rest & Heq & _ & Hok1).
  assert (2 * Z.of_nat (length s) + 3 <= m (Ent i publish)) as Hle.
  { apply (iv_late _ _ _ _ _ Hinv); [done|]. multiset_solver. }
  rewrite (eo_publish _ _ _ _ _ Hok1) in *. pose proof (eo_script _ _ _ _ _ Hok1) as Hs.
  destruct (Hscript i Hi) as [Hlen _]. destruct ph; cbn in *; lia.
Qed.

Lemma sp_load_conclude l i s F (Q : Z → tokens → Prop) :
  0 <= i < capacity g → (∀ v, Q v ({[+ Late i (2 * Z.of_nat (length s)) +]} ⊎ F)) →
  sp ({[+ Knows i s +]} ⊎ F) (load l) Q.
Proof using Type.
  clear Hscript. intros Hi HQ. apply sp_look. intros m cnt env Hinv. eexists. split; [|apply HQ].
  intros _. rewrite <- !(assoc_L (⊎)) in *.
  assert (Knows i s ∈ {[+ Knows i s +]} ⊎ (F ⊎ env)) as Hin by multiset_solver.
  destruct (iv_knows _ _ _ _ _ Hinv i s Hi Hin) as (s' & ph & Hpen & Hpre).
  pose proof (inv_entry _ _ _ _ _ _ Hinv Hi Hpen) as Hok.
  apply (inv_learn m cnt); [by eapply inv_forget|]. intros _. rewrite (eo_publish _ _ _ _ _ Hok).
  apply prefix_length in Hpre. destruct ph; cbn; lia.
Qed.

(** What a reading that ended says: whole, published, and no older than known. *)
Definition fresh_value i F (res : ReadOutcome) (buf : list Z) own : Prop :=
  ∃ k d, out_update_count res = Z.of_nat (S k) ∧ script i !! k = Some d ∧
    out_len res = Z.of_nat (length d) ∧ take (length d) buf = d ∧
    (∀ n, Late i n ∈ F → n <= 2 * Z.of_nat (S k) + 1) ∧ own = {[+ Late i (2 * Z.of_nat (S k)) +]} ⊎ F.

Definition more (F own : tokens) : Prop := ∃ G, own = G ⊎ F.

Lemma more_refl F : more F F.
Proof using Type. clear. exists ∅. multiset_solver. Qed.
Lemma more_trans F1 F2 F3 : more F1 F2 → more F2 F3 → more F1 F3.
Proof using Type. clear. intros [G1 ->] [G2 ->]. exists (G2 ⊎ G1). multiset_solver. Qed.
Lemma more_cons t F : more F ({[+ t +]} ⊎ F).
Proof using Type. clear. by exists {[+ t +]}. Qed.

Lemma seqlock_bits (k b : Z) : 0 <= k → 0 <= b <= 1 →
  Z.shiftr (2 * k + b) 1 = k ∧ Z.ldiff (2 * k + b) 1 = 2 * k.
Proof using Type.
  clear. intros Hk Hb. split.
  - rewrite Z.shiftr_div_pow2 by lia. change (2 ^ 1) with 2. lia.
  - assert (b = 0 ∨ b = 1) as [-> | ->] by lia; rewrite ?Z.add_0_r; [by destruct k|by destruct k].
Qed.

Lemma clobbered_late (k b p : Z) : 0 <= k → 0 <= b <= 1 →
  2 * k + 3 <= p < 18446744073709551616 → cell_clobbered (2 * k + b) p = true.
Proof using Type.
  clear. intros Hk Hb Hp. unfold cell_clobbered. destruct (seqlock_bits k b Hk Hb) as [_ ->].
  rewrite u64_small by (unfold is_u64; lia). apply Z.leb_le. change (2 * CELLS_PER_KEY - 1) with 3. lia.
Qed.

Lemma sp_read_attempt r buf i F :
  r_geometry_ r = g → r_entry_idx_ r = i → 0 <= i < capacity g →
  sp F (read_attempt r buf) (λ a own, match a with
    | inl _ => more F own
    | inr (res, buf') => more F own ∧ (ec res = Ok → fresh_value i F res buf' own) end).
Proof using Hscript.
  intros Hrg Hri Hi. unfold read_attempt. cbn zeta. rewrite Hrg, Hri.
  do 2 walk. walk; [walk; apply more_refl|]. walk.
  apply sp_load_publish; [done|]. intros s b Hb Hs Hlate. lazy beta.
  destruct (seqlock_bits (Z.of_nat (length s)) b ltac:(lia) Hb) as [-> Hld].
  walk; [walk; split; [apply more_cons|done]|].
  apply Z.eqb_neq in E0. destruct (length s) as [|k] eqn:Ek; [done|].
  destruct (lookup_lt_is_Some_2 (script i) k ltac:(lia)) as [d Hd].
  destruct (Hscript i Hi) as [_ Hall]. eapply Forall_lookup in Hd as Hdok; [|exact Hall].
  destruct Hdok as (Hbytes & Hfit & Hu32).
  assert (parity (Z.of_nat (S k)) = parity (Z.of_nat k + 1)) as Ec by (f_equal; lia).
  walk. eapply (sp_reading_load i s F True _ (Z.of_nat (length d))); [done| |by left|].
  { rewrite Ek. intros m (_ & H2 & _). rewrite Ec. by apply H2. }
  intros len own1 Hr1. lazy beta.
  set (len' := if max_value_size g <? len then _ else len).
  assert (reading i s F (len' = Z.of_nat (length d)) own1) as Hr1'.
  { eapply reading_mono; [|exact Hr1]. intros [_ ->]. subst len'.
    by rewrite (proj2 (Z.ltb_ge _ _)). }
  clear Hr1. walk.
  apply (spec_mono _ _ _ _ _ _ (λ buf' own2, reading i s F (len' = Z.of_nat (length d) ∧
    (len' <= Z.of_nat (length buf) → take (length d) buf' = d)) own2)).
  { walk.
    - apply andb_true_iff in E1 as [E1 E2]. walk. rewrite <- Ek.
      eapply (sp_load_words i s k d F True len'); [done|done|done|done| |].
      { eapply reading_mono; [|exact Hr1']. done. }
      intros bytes own2 Hr2. lazy beta. walk. eapply reading_mono; [|exact Hr2].
      intros (_ & Hl & ->). split; [done|]. intros _. unfold fill. by rewrite take_app_length.
    - walk. eapply reading_mono; [|exact Hr1']. intros Hl. split; [done|]. intros Hfits.
      apply andb_false_iff in E1 as [E1|E1]; [apply Z.leb_gt in E1; lia|].
      apply Z.ltb_ge in E1. destruct d; [by rewrite take_0|cbn in Hl; lia]. }
  intros buf' own2 Hr2. lazy beta. walk.
  assert (∃ t, s !! k = Some t) as [t Ht] by (apply lookup_lt_is_Some_2; lia).
  eapply (sp_reading_load i s F _ _ t); [done| |exact Hr2|].
  { rewrite Ek. intros m (_ & _ & t' & H3 & H4). rewrite Ec. unfold stamp_in in H4. congruence. }
  intros stamp own3 Hr3. lazy beta. walk.
  eapply (sp_load_publish_after i s F); [done|exact Hr3|..].
  - intros pa [[Hl Hbuf] _]. lazy beta. walk. apply sp_load_conclude; [done|]. intros ta. lazy beta.
    rewrite Ek. walk; [walk; apply more_cons|]. walk; [walk; apply more_cons|].
    walk. split; [apply more_cons|]. cbn. intros Hec.
    destruct (Z.leb_spec len' (Z.of_nat (length buf))) as [Hf|Hf]; [|done].
    exists k, d. split; [done|]. split; [done|]. split; [done|]. split; [auto|]. split; [|done].
    intros n Hn. specialize (Hlate n Hn). lia.
  - intros pa Hpa. lazy beta. do 2 walk. walk; [walk; apply more_cons|].
    rewrite <- Ek. rewrite clobbered_late by lia. walk. apply more_cons.
Qed.
Lemma more_elem F own (t : token) : more F own → t ∈ F → t ∈ own.
Proof using Type. clear. intros [G ->] Ht. multiset_solver. Qed.

(** ** Finding the entry *)

Definition placed (r : Reader) : Prop := r_geometry_ r = g ∧ 0 <= r_entry_idx_ r.

Lemma sp_key_equals i key own : sp own (key_equals i key) (λ _ own', own' = own).
Proof using Type.
  clear. unfold key_equals, load_words. cbn zeta. do 2 walk.
  apply (spec_foreach _ _ _ _ _ _ _ _ _ (λ _ _ own', own' = own)); [done|..].
  - intros w out own' _ ->. walk. walk. walk. done.
  - intros out own' ->. walk; [by do 2 walk|]. walk. walk. by do 2 walk.
Qed.

Lemma sp_still_resolved r own :
  sp own (still_resolved r) (λ ok own', own' = own ∧ (ok = true → r_entry_idx_ r < capacity (r_geometry_ r))).
Proof using Type.
  clear. unfold still_resolved. walk; [|by walk]. apply Z.ltb_lt in E.
  walk. walk. walk; [|by walk]. walk. walk. by walk.
Qed.

Lemma sp_match_entry r i own : sp own (match_entry r i) (λ _ own', own' = own).
Proof using Type.
  clear. unfold match_entry. walk. walk. walk; [by walk|]. walk. walk. walk; [by walk|].
  walk. walk. walk. eapply spec_mono; [apply sp_key_equals|]. intros same own' ->. by walk.
Qed.

Lemma sp_resolve r own :
  placed r → sp own (resolve r) (λ '(found, r') own', own' = own ∧ placed r' ∧
    ((found : bool) = true → r_entry_idx_ r' < capacity g)).
Proof using Type.
  clear. intros [Hg Hi]. unfold resolve. walk; [by walk|]. walk.
  eapply spec_mono; [apply sp_still_resolved|]. intros ok own' [-> Hok]. lazy beta. rewrite Hg in *.
  walk; [walk; by auto|]. walk.
  apply (spec_for _ _ _ _ _ _ _ _ _ (λ _ _ own', own' = own)); [done|..].
  - intros i [] own' Hr ->. walk. eapply spec_mono; [apply sp_match_entry|]. intros [t|] own' ->; lazy beta iota.
    + walk. walk. split; [done|]. split; [|cbn; lia]. split; [done|cbn; lia].
    + by walk.
  - intros [] own' ->. walk. split; [done|]. by split.
Qed.

(** ** The whole reading *)

Definition whole_value i (F : tokens) (res : ReadOutcome) (buf : list Z) own : Prop :=
  ∃ k d, out_update_count res = Z.of_nat (S k) ∧ script i !! k = Some d ∧
    out_len res = Z.of_nat (length d) ∧ take (length d) buf = d ∧
    (∀ n, Late i n ∈ F → n <= 2 * Z.of_nat (S k) + 1) ∧ Late i (2 * Z.of_nat (S k)) ∈ own.

Lemma sp_read r buf F :
  placed r → sp F (read r buf) (λ '((res, buf'), r') own, more F own ∧ placed r' ∧
    (ec res = Ok → r_entry_idx_ r' < capacity g ∧ whole_value (r_entry_idx_ r') F res buf' own)).
Proof using Hscript.
  intros Hr. unfold read. walk; [walk; split; [apply more_refl|done]|]. walk.
  apply (spec_for _ _ _ _ _ _ _ _ _ (λ _ '(r, _) own, placed r ∧ more F own)); [split; [done|apply more_refl]|..].
  - intros _ [r1 buf1] own _ [Hr1 Hmore]. walk. eapply spec_mono; [by apply sp_resolve|].
    intros [found r2] own' (-> & Hr2 & Hfound). lazy beta iota. walk; [walk; walk; by split|].
    apply negb_false_iff in E0. specialize (Hfound E0). walk.
    eapply spec_mono; [eapply sp_read_attempt; [apply Hr2|done|split; [apply Hr2|done]]|].
    intros [buf2|[res buf2]] own2 H2; lazy beta iota.
    + walk. split; [done|]. by eapply more_trans.
    + walk. walk. destruct H2 as [H2 Hval]. split; [by eapply more_trans|]. split; [done|].
      intros Hec. split; [done|]. destruct (Hval Hec) as (k & d & H3 & H4 & H5 & H6 & H7 & ->).
      exists k, d. do 4 (split; [done|]). split; [|multiset_solver].
      intros n Hn. apply H7. by eapply more_elem.
  - intros [r1 buf1] own [Hr1 Hmore]. walk. by split.
Qed.

(** ** Clients *)

(** Does the reading give a value of entry [i], in full, and none older than the
    [last] one read? *)
Definition consistent (last : Z → Z) i (res : ReadOutcome) (buf : list Z) : bool :=
  (1 <=? out_update_count res) && (last i <=? out_update_count res) &&
  bool_decide (script i !! Z.to_nat (out_update_count res - 1) = Some (take (Z.to_nat (out_len res)) buf)).

(** A reader that reads [n] times and throws when a reading is not consistent. *)
Fixpoint observing (n : nat) (r : Reader) (buf : list Z) (last : Z → Z) : bprog unit :=
  match n with
  | O => Ret tt
  | S n =>
      '((res, buf), r) <- read r buf ;;
      if decide (ec res = Ok) then
        if consistent last (r_entry_idx_ r) res buf then
          observing n r buf (<[r_entry_idx_ r := out_update_count res]> last)
        else throw runtime_error "inconsistent reading"
      else observing n r buf last
  end.

Lemma whole_value_consistent last i (F : tokens) res buf own :
  (∀ j, last j = 0 ∨ Late j (2 * last j) ∈ F) → whole_value i F res buf own →
  consistent last i res buf = true.
Proof using Type.
  clear. intros Hlast (k & d & Hc & Hd & Hl & Hb & Hlate & _). unfold consistent. rewrite Hc, Hl.
  rewrite !andb_true_iff, bool_decide_eq_true. split; [split|]; [apply Z.leb_le; lia|apply Z.leb_le|].
  - destruct (Hlast i) as [->|Hin]; [lia|]. specialize (Hlate _ Hin). lia.
  - rewrite Nat2Z.id, Hb. rewrite <- Hd. f_equal. lia.
Qed.

Lemma sp_observing n r buf last F :
  placed r → (∀ j, last j = 0 ∨ Late j (2 * last j) ∈ F) →
  sp F (observing n r buf last) (λ _ _, True).
Proof using Hscript.
  revert r buf last F. induction n as [|n IH]; intros r buf last F Hr Hlast; [by apply spec_ret|]. cbn [observing].
  walk. eapply spec_mono; [by apply sp_read|]. intros [[res buf'] r'] own (Hmore & Hr' & Hval). lazy beta iota.
  assert (∀ j, last j = 0 ∨ Late j (2 * last j) ∈ own) as Hlast'.
  { intros j. destruct (Hlast j) as [?|Hin]; [by left|right; by eapply more_elem]. }
  destruct (decide (ec res = Ok)) as [Hec|_]; [|by apply IH].
  destruct (Hval Hec) as [_ Hw]. rewrite (whole_value_consistent _ _ _ _ _ _ Hlast Hw). apply IH; [done|].
  intros j. destruct (decide (j = r_entry_idx_ r')) as [->|Hne].
  - right. rewrite fn_lookup_insert. destruct Hw as (k & d & Hc & _ & _ & _ & _ & Hin). by rewrite Hc.
  - by rewrite fn_lookup_insert_ne.
Qed.

(** The owner of an entry writes its values, until a write fails. *)
Fixpoint writing (w : Writer) (values : list (list Z)) : bprog unit :=
  match values with
  | [] => Ret tt
  | v :: values =>
      '(e, w) <- writer_write w v ;;
      if decide (e = Ok) then writing w values else Ret tt
  end.

Lemma sp_writing w values i s :
  w_geometry_ w = g → w_entry_idx_ w = i → 0 <= i → w_writes_ w = Z.of_nat (length s) →
  drop (length s) (script i) = values →
  sp {[+ Pen i s Idle +]} (writing w values) (λ _ _, True).
Proof using Hscript.
  revert w s. induction values as [|v values IH]; intros w s Hwg Hwi Hi Hw Hdrop; [by apply spec_ret|]. cbn [writing].
  assert (script i !! length s = Some v) as Hv.
  { by rewrite <- (Nat.add_0_r (length s)), <- lookup_drop, Hdrop. }
  walk. eapply spec_mono; [by eapply sp_writer_write|].
  intros [e w'] own [(-> & t & -> & ->)|(He & -> & ->)]; lazy beta iota.
  - rewrite decide_True by done. apply IH; cbn [w_geometry_ w_entry_idx_ w_writes_]; try done.
    rewrite length_app, <- drop_drop, Hdrop. done.
  - rewrite decide_False by done. by apply spec_ret.
Qed.
End operations.

(** ** Boards in use *)

(** A board entry in use: its owner's handle and the values it will write. *)
Abbreviation owner := (Writer * list (list Z))%type.
(** A reader: the readings it makes, its handle and its buffer. *)
Abbreviation observer := (nat * Reader * list Z)%type.

(** The values written to an entry; entry [i] is owned by the [i]-th owner. *)
Definition script_of (owners : list owner) (i : Z) : list (list Z) :=
  if 0 <=? i then default [] (snd <$> owners !! Z.to_nat i) else [].

(** Every entry has just been declared by its owner. *)
Definition declared (g : Geometry) (m : bloc → Z) (owners : list owner) : Prop :=
  Z.of_nat (length owners) = capacity g ∧
  (∀ k w values, owners !! k = Some (w, values) →
     w_geometry_ w = g ∧ w_entry_idx_ w = Z.of_nat k ∧ w_writes_ w = 0) ∧
  (∀ i, 0 <= i < capacity g → m (Ent i publish) = 0).

Definition in_use (m : bloc → Z) (owners : list owner) (observers : list observer) : config bloc :=
  Conc.Config m 0
    (map (λ '(w, values), Thread (writing w values) 0) owners ++
     map (λ '(n, r, buf), Thread (observing (script_of owners) n r buf (λ _, 0)) 0) observers).

Section boards.
Context (g : Geometry) (m : bloc → Z) (owners : list owner) (observers : list observer).
Context (Hscript : script_ok g (script_of owners)) (Hdecl : declared g m owners)
  (Hobs : Forall (λ '(_, r, _), placed g r) observers).

Definition first_tokens : list tokens :=
  imap (λ k _, {[+ Pen (Z.of_nat k) [] Idle +]}) owners ++ map (λ _, ∅) observers.

Lemma first_tokens_elem t : t ∈ ⋃+ first_tokens → ∃ k, t = Pen (Z.of_nat k) [] Idle ∧ (k < length owners)%nat.
Proof using Type.
  clear. intros (own & Hin & Ht)%elem_of_gmultiset_disj_union_list.
  apply list_elem_of_lookup in Hin as [k Hk]. unfold first_tokens in Hk.
  apply lookup_app_Some in Hk as [Hk|[_ Hk]].
  - rewrite list_lookup_imap in Hk. destruct (owners !! k) as [x|] eqn:Ho; [|done]. injection Hk as <-.
    exists k. split; [by apply gmultiset_elem_of_singleton|]. by eapply lookup_lt_Some.
  - rewrite list_lookup_fmap in Hk. destruct (observers !! _); [|done]. injection Hk as <-. multiset_solver.
Qed.

Lemma first_tokens_lookup k own :
  first_tokens !! k = Some own →
  (own = {[+ Pen (Z.of_nat k) [] Idle +]} ∧ ∃ w values, owners !! k = Some (w, values)) ∨
  (own = ∅ ∧ length owners <= k)%nat.
Proof using Type.
  clear. unfold first_tokens. intros [Hk|[Hle Hk]]%lookup_app_Some.
  - left. rewrite list_lookup_imap in Hk. destruct (owners !! k) as [[w values]|] eqn:Ho; [|done].
    injection Hk as <-. eauto.
  - right. rewrite length_imap in Hle. rewrite list_lookup_fmap in Hk.
    destruct (observers !! _); [|done]. by injection Hk as <-.
Qed.

Lemma first_inv : inv g (script_of owners) m 0 (⋃+ first_tokens).
Proof using Hdecl.
  clear Hscript Hobs. destruct Hdecl as (Hlen & _ & Hfresh). split.
  - intros i Hi. assert (first_tokens !! Z.to_nat i = Some {[+ Pen i [] Idle +]}) as Hi'.
    { unfold first_tokens. rewrite lookup_app_l by (rewrite length_imap; lia). rewrite list_lookup_imap.
      destruct (lookup_lt_is_Some_2 owners (Z.to_nat i)) as [x ->]; [lia|]. cbn. by rewrite Z2Nat.id by lia. }
    destruct (owns_split _ _ _ Hi') as (env & HE & Henv). exists [], Idle, env. split; [done|]. split.
    + intros s' p' Hin. assert (Pen i s' p' ∈ ⋃+ <[Z.to_nat i := ∅]> first_tokens) as Hin'.
      { rewrite Henv. multiset_solver. }
      apply elem_of_gmultiset_disj_union_list in Hin' as (own & Hown & Hpen).
      apply list_elem_of_lookup in Hown as [k Hk].
      destruct (decide (k = Z.to_nat i)) as [->|Hne].
      * rewrite list_lookup_insert_eq in Hk by (by eapply lookup_lt_Some). injection Hk as <-. multiset_solver.
      * rewrite list_lookup_insert_ne in Hk by done.
        destruct (first_tokens_lookup _ _ Hk) as [[-> _]|[-> _]]; [|multiset_solver].
        apply gmultiset_elem_of_singleton in Hpen as [= ? ? ?]. lia.
    + split; cbn; [by rewrite Hfresh|lia|done|done|done].
  - intros i n _ (k & [=] & _)%first_tokens_elem.
  - intros i s _ (k & [=] & _)%first_tokens_elem.
Qed.

Definition ends_well (o : outcome unit) (_ : Z) (_ : tokens) : Prop :=
  match o with Val _ => True | Exc _ => False end.

Lemma in_use_safe n :
  pool_safe watch 1 guard (inv g (script_of owners)) n
    (replicate (length owners + length observers) ends_well) (in_use m owners observers) first_tokens.
Proof using All.
  split; cbn [in_use c_mem c_count c_threads].
  - apply first_inv.
  - unfold first_tokens. by rewrite !length_app, length_imap, !length_map.
  - intros t th own Q Ht Ho [-> _]%lookup_replicate.
    destruct (first_tokens_lookup _ _ Ho) as [[-> (w & values & Hw)]|[-> Hle]].
    + rewrite lookup_app_l in Ht by (rewrite length_map; by eapply lookup_lt_Some).
      rewrite list_lookup_fmap, Hw in Ht. injection Ht as <-. cbn [t_prog t_seen].
      destruct Hdecl as (Hlen & Hall & _). destruct (Hall _ _ _ Hw) as (Hg & Hi & Hz).
      eapply safe_mono; [eapply (sp_writing g (script_of owners) Hscript w values (Z.of_nat t) []);
        [done|done|lia|done|]|by intros [] ].
      unfold script_of. rewrite (proj2 (Z.leb_le _ _)) by lia. by rewrite Nat2Z.id, Hw.
    + rewrite lookup_app_r in Ht by (by rewrite length_map). rewrite list_lookup_fmap in Ht.
      destruct (observers !! _) as [[[k r] buf]|] eqn:Hr; [|done]. injection Ht as <-. cbn [t_prog t_seen].
      eapply Forall_lookup in Hr; [|exact Hobs]. cbn in Hr.
      eapply safe_mono; [eapply (sp_observing g (script_of owners) Hscript); [exact Hr|by left]|by intros [] ].
  - by rewrite length_app, !length_map, length_replicate.
Qed.
End boards.
(** ** The theorems *)

(** C7. However the owners and any number of readers of a board interleave, and
    wherever any of them stops, a successful reading is one write of its entry:
    the reported count is the number of that write, the bytes and the length are
    the bytes and the length written, and no reader sees an entry go back. *)
Theorem readings_whole g m owners observers c t e seen :
  script_ok g (script_of owners) → declared g m owners → Forall (λ '(_, r, _), placed g r) observers →
  reachable watch 1 (in_use m owners observers) c → c_threads c !! t ≠ Some (Thread (Throw e) seen).
Proof.
  intros Hscript Hdecl Hobs Hr Ht.
  destruct (reachable_throw _ _ _ _ _ _ _ _ _ _ _ (in_use_safe g m owners observers Hscript Hdecl Hobs) Hr Ht)
    as (own & Q & [-> _]%lookup_replicate & HQ). exact HQ.
Qed.

(** C22. A writer that stops in the middle of a write leaves the last complete value
    of its entry whole: in every state the owners and readers reach, the cell
    [publish] selects has the length and the words of the last write counted. *)
Theorem last_value_kept g m owners observers c i k d :
  script_ok g (script_of owners) → declared g m owners → Forall (λ '(_, r, _), placed g r) observers →
  reachable watch 1 (in_use m owners observers) c → 0 <= i < capacity g →
  Z.shiftr (c_mem c (Ent i publish)) 1 = Z.of_nat (S k) → script_of owners i !! k = Some d →
  let cell := parity (Z.shiftr (c_mem c (Ent i publish)) 1) in
  c_mem c (Cell i cell value_len) = Z.of_nat (length d) ∧
  load_list (CellWord i cell) 0 (nwords (length d)) (c_mem c) = words_of d.
Proof.
  intros Hscript Hdecl Hobs Hr Hi Hk Hd cell. subst cell. rewrite Hk.
  destruct (reachable_safe _ _ _ _ _ _ _ _ (in_use_safe g m owners observers Hscript Hdecl Hobs) Hr)
    as (owns & Hinv & _). destruct (iv_pen _ _ _ _ _ Hinv i Hi) as (s & ph & rest & _ & _ & Hok).
  pose proof (eo_live _ _ _ _ _ Hok) as Hlive. rewrite (eo_publish _ _ _ _ _ Hok) in Hk.
  destruct (seqlock_bits (Z.of_nat (length s)) (busy ph)) as [Hb _]; [lia|by destruct ph; cbn|].
  rewrite Hb in Hk. apply Nat2Z.inj in Hk. rewrite Hk in Hlive. destruct Hlive as (Hw & Hlen & _).
  replace (Z.of_nat (S k)) with (Z.of_nat k + 1) by lia. split; [by apply Hlen|].
  apply list_eq. intros w. unfold load_list. rewrite list_lookup_fmap.
  destruct (decide (w < nwords (length d))%nat) as [Hlt|Hge].
  - rewrite lookup_seq_lt by done. cbn [fmap option_fmap option_map]. rewrite lookup_words_of by done. cbn. f_equal.
    eapply Hw; [done| |by apply lookup_words_of]. unfold all_words. by rewrite Hd.
  - rewrite (proj2 (lookup_ge_None _ _)) by (rewrite length_seq; lia).
    cbn [fmap option_fmap option_map]. symmetry. apply lookup_ge_None. rewrite length_words_of. lia.
Qed.
(** ** A run *)

(** A board with the one key "A", declared by process 7, and its reader. *)
Definition small : Geometry := make_geometry 1 16.
Definition small_mem : bloc → Z := λ l,
  match l with
  | Ent 0 state => Active
  | Ent 0 tenancy => 1
  | Ent 0 owner_pid => 7
  | Ent 0 owner_starttime => 5
  | Ent 0 key_hash => key_fingerprint [65]
  | KeyWord 0 0 => 65
  | _ => 0
  end.
Definition small_owner : Writer :=
  {| w_base_ := true; w_geometry_ := small; w_entry_idx_ := 0; w_tenancy_ := 1; w_writes_ := 0;
     w_owner_pid_ := 7; w_key_ := [65] |}.
Definition small_reader : Reader :=
  {| r_base_ := true; r_geometry_ := small; r_entry_idx_ := INVALID_SLOT; r_tenancy_ := 0;
     r_key_hash_ := key_fingerprint [65]; r_key_ := [65] |}.
Definition small_owners : list owner := [(small_owner, [[1; 2; 3]; [4; 5; 6; 7; 8; 9; 10; 11; 12]])].
Definition small_observers : list observer := [(2%nat, small_reader, replicate 16 0)].
Definition one_process : os := Os 0 1000 0 7 (λ pid, if pid =? 7 then Some (5, false) else None) 0.
Lemma one_process_typed : os_typed one_process.
Proof. split; [done|]. intros pid. cbn. by destruct (pid =? 7). Qed.
Definition small_run (schedule : list nat) : config bloc :=
  play watch 1 one_process schedule (in_use small_mem small_owners small_observers).
Lemma small_script_ok : script_ok small (script_of small_owners).
Proof.
  intros i Hi. cbn in Hi. assert (i = 0) as -> by lia. split; [done|].
  change (script_of small_owners 0) with [[1; 2; 3]; [4; 5; 6; 7; 8; 9; 10; 11; 12]].
  assert (∀ d, forallb (λ b, (0 <=? b) && (b <? 256)) d = true → Forall is_u8 d) as Hb.
  { intros d Hd. apply Forall_forall. intros b Hin. rewrite forallb_forall in Hd.
    specialize (Hd b (proj1 (list_elem_of_In _ _) Hin)). unfold is_u8. lia. }
  apply Forall_cons. split; [split; [by apply Hb|done]|].
  apply Forall_cons. split; [split; [by apply Hb|done]|]. done.
Qed.
Lemma small_declared : declared small small_mem small_owners.
Proof.
  split; [done|]. split.
  - intros [|k] w values; [|done]. by intros [= <- <-].
  - intros i Hi. cbn in Hi. by assert (i = 0) as -> by lia.
Qed.
Lemma small_placed : Forall (λ '(_, r, _), placed small r) small_observers.
Proof. by repeat constructor. Qed.
Lemma small_run_reachable schedule :
  reachable watch 1 (in_use small_mem small_owners small_observers) (small_run schedule).
Proof. apply play_reachable, one_process_typed. Qed.

(** The reader reads while the second write is in progress, and after it. *)
Definition overlapping : list nat :=
  replicate 14 0%nat ++ replicate 12 1%nat ++ replicate 6 0%nat ++ replicate 12 1%nat ++
  replicate 6 0%nat ++ replicate 60 1%nat.

Lemma readings_whole_witness :
  c_threads (small_run overlapping) !! 1%nat = Some (Thread (Ret tt) 0) ∧
  ∀ e seen, c_threads (small_run overlapping) !! 1%nat ≠ Some (Thread (Throw e) seen).
Proof.
  split; [vm_compute; reflexivity|]. intros e seen.
  exact (readings_whole small small_mem small_owners small_observers _ 1 e seen small_script_ok
    small_declared small_placed (small_run_reachable overlapping)).
Defined.

(** The owner stops after a word of its second write. *)
Lemma last_value_kept_witness :
  c_mem (small_run (replicate 18 0%nat)) (Ent 0 publish) = 3 ∧
  c_mem (small_run (replicate 18 0%nat)) (Cell 0 1 value_len) = 3 ∧
  load_list (CellWord 0 1) 0 1 (c_mem (small_run (replicate 18 0%nat))) = words_of [1; 2; 3].
Proof.
  split; [vm_compute; reflexivity|].
  refine (last_value_kept small small_mem small_owners small_observers _ 0 0 [1; 2; 3] small_script_ok
    small_declared small_placed (small_run_reachable (replicate 18 0%nat)) _ _ _);
    [cbn; lia|vm_compute; reflexivity|reflexivity].
Defined.
End Seqlock.
