(* ===== verification/WaitAny.v ===== *)
(** * Waiting on several subscribers ([src/WaitAny.cc])

    [wait_any] arms every subscriber, polls their descriptors, disarms and
    drains.  The subscribers may belong to different regions: a location is a
    region number and a location of that region.  Polling and draining
    descriptors are system calls, an interface. *)

From S2P Require Import Prelude Prog Hash Types Layout Embedding Pool Slots Subscriber.
Import Types Layout Subscriber.

(** What [wait_any] needs of [Waker] and [WaitSet]: is a waker's descriptor
    open, drain it, and poll a set of descriptors for at most a time. *)
Class WakeBackend (L : Type) := {
  waker_valid : nat → bool;
  waker_drain : nat → prog L unit;
  wait_set : list nat → Z → prog L bool
}.

Module WaitAny.
Abbreviation mloc := (nat * loc)%type.

(** A subscriber of region [r]. *)
Record member := { in_region : nat; member_sub : subscriber }.

Definition on {A} (m : member) (p : rprog A) : prog mloc A := embed (λ l, (in_region m, l)) p.

Section wait_any.
Context `{WakeBackend mloc}.

(** The first pass: the distinct wakers, and whether every subscriber has one. *)
Fixpoint collect (subs : list member) (wakers : list nat) (covered : bool)
    : list nat * bool :=
  match subs with
  | [] => (wakers, covered)
  | m :: subs =>
      match waker_ (member_sub m) with
      | None => collect subs wakers false
      | Some w =>
          if negb (waker_valid w) then collect subs wakers false
          else collect subs (if bool_decide (w ∈ wakers) then wakers else wakers ++ [w])
                 covered
      end
  end.

(** The arming pass: is a sample ready, must the wait be capped? *)
Fixpoint arm_all (subs : list member) (ready capped : bool) : prog mloc (bool * bool) :=
  match subs with
  | [] => Ret (ready, capped)
  | m :: subs =>
      w <- on m (arm_wait (member_sub m)) ;;
      match w with
      | Ready => arm_all subs true capped
      | Poll => arm_all subs ready true
      | Armed => arm_all subs ready capped
      end
  end.

Fixpoint disarm_all (subs : list member) : prog mloc unit :=
  match subs with
  | [] => Ret tt
  | m :: subs => on m (disarm_wait (member_sub m)) ;; disarm_all subs
  end.

Fixpoint drain_all (wakers : list nat) : prog mloc unit :=
  match wakers with
  | [] => Ret tt
  | w :: wakers => waker_drain w ;; drain_all wakers
  end.

Definition wait_any (subs : list member) (timeout poll_cap : Z) : prog mloc bool :=
  if bool_decide (subs = []) then Ret false
  else
    let '(wakers, covered) := collect subs [] true in
    start <- monotonic_ns ;;
    loop tt (λ _,
      '(ready, capped) <- arm_all subs false false ;;
      budget <- (if ready : bool then Ret 0
                 else
                   now <- monotonic_ns ;;
                   let elapsed := now - start in
                   Ret (if elapsed <? timeout then
                          let budget := timeout - elapsed in
                          if capped || negb covered then Z.min budget poll_cap else budget
                        else 0)) ;;
      when (0 <? budget)
        (if bool_decide (wakers = []) then sleep budget
         else wait_set wakers budget ;;; Ret tt) ;;
      disarm_all subs ;;
      drain_all wakers ;;
      Ret (if ready : bool then inr true
           else if budget =? 0 then inr false
           else inl tt)).
End wait_any.

(** ** Waiting ends *)

(** What is asked of wakers and wait sets: draining only takes time, and so does a
    wait, while other processes write any memory. *)
Class WakesReturn `{WakeBackend mloc} : Prop := {
  drain_returns w M o ws : returns (waker_drain w) (World M o ws) (λ _ w', ∃ d, 0 <= d ∧ w' = World M (os_advance o d) ws);
  wait_returns wakers t M o ws : returns (wait_set wakers t) (World M o ws)
    (λ _ w', ∃ M' d, 0 <= d ∧ w' = World M' (os_advance o d) ws)
}.

Definition in_place (r : nat) (l : mloc) : option loc := if decide (l.1 = r) then Some l.2 else None.

Lemma in_place_found r l l' : in_place r l' = Some l ↔ l' = (r, l).
Proof.
  unfold in_place. destruct l' as [r' k]. cbn. case_decide as E; [subst|]; split; intros [=]; by subst.
Qed.

Lemma os_advance_more o d1 d2 : os_advance (os_advance o d1) d2 = os_advance o (d1 + d2).
Proof. destruct o. unfold os_advance. cbn. by rewrite Z.add_assoc. Qed.

Section ends.
Context `{HW : WakeBackend mloc} {HR : WakesReturn}.
Implicit Types (M : mloc → Z) (o : os) (ws : list mloc) (m : member).

(** One subscriber's program, which only writes memory. *)
Lemma returns_on {A} m (p : rprog A) M o ws (Q : A → world mloc → Prop) :
  (∀ μ, returns p (World μ o []) (λ _ w', ∃ μ', w' = World μ' o [])) →
  (∀ a M', Q a (World M' o ws)) → returns (on m p) (World M o ws) Q.
Proof.
  intros Hp HQ. unfold on. apply (returns_embed _ (in_place (in_region m))); [apply in_place_found|]. cbn.
  eapply returns_mono; [apply Hp|]. intros a w' [μ' ->]. apply HQ.
Qed.

Lemma returns_head_state_any s μ o : returns (head_state s) (World μ o []) (λ _ w', ∃ μ', w' = World μ' o []).
Proof. unfold head_state. steps; by eexists. Qed.

Lemma returns_arm_wait_any s μ o : returns (arm_wait s) (World μ o []) (λ _ w', ∃ μ', w' = World μ' o []).
Proof.
  unfold arm_wait. step; [step; by eexists|]. do 2 step. step.
  eapply returns_mono; [apply returns_head_state_any|]. intros r w [μ1 ->].
  destruct r; [step; by eexists| |]; [|step; by eexists]. destruct (waker_ s); [|step; by eexists].
  do 5 step; [|step; by eexists]. step. unfold disarm_wait. step; [congruence|]. step. apply returns_head_state_any.
Qed.

Lemma returns_arm_all subs ready capped M o ws (Q : bool * bool → world mloc → Prop) :
  (∀ r M', Q r (World M' o ws)) → returns (arm_all subs ready capped) (World M o ws) Q.
Proof.
  intros HQ. revert ready capped M. induction subs as [|m subs IH]; intros ready capped M; cbn [arm_all]; [step; apply HQ|].
  step. apply returns_on; [intros μ; apply returns_arm_wait_any|]. intros [] M'; apply IH.
Qed.

Definition disarmed M m : Prop :=
  ring_idx_ (member_sub m) ≠ NO_RING → M (in_region m, Ring (ring_idx_ (member_sub m)) has_waiter) = ring.WaiterNone.

Lemma returns_disarm_all subs (done : list member) M o ws (Q : unit → world mloc → Prop) :
  (∀ m, m ∈ done → disarmed M m) →
  (∀ M', (∀ m, m ∈ done ++ subs → disarmed M' m) → Q tt (World M' o ws)) →
  returns (disarm_all subs) (World M o ws) Q.
Proof.
  revert done M. induction subs as [|m subs IH]; intros done M Hd HQ; cbn [disarm_all].
  { step. apply HQ. by rewrite app_nil_r. }
  step. unfold on. apply (returns_embed _ (in_place (in_region m))); [apply in_place_found|]. cbn [w_mem w_os w_wakes].
  unfold disarm_wait. step.
  - step. unfold placed. cbn. rewrite (place_same _ _ (in_place_found (in_region m))).
    apply (IH (done ++ [m])); [|by rewrite <- app_assoc].
    intros m' [Hm'|Hm']%elem_of_app; [by apply Hd|]. apply list_elem_of_singleton in Hm' as ->. intros Hr. by apply Z.eqb_eq in E.
  - step. unfold placed. cbn. rewrite <- (place_upd _ _ (in_place_found (in_region m))), (place_same _ _ (in_place_found (in_region m))).
    apply (IH (done ++ [m])); [|by rewrite <- app_assoc].
    intros m' [Hm'|Hm']%elem_of_app; [|apply list_elem_of_singleton in Hm' as ->; intros _; by rewrite upd_same].
    intros Hr. destruct (decide ((in_region m', Ring (ring_idx_ (member_sub m')) has_waiter) = (in_region m, Ring (ring_idx_ (member_sub m)) has_waiter)))
      as [->|Hne]; [by rewrite upd_same|]. rewrite upd_ne by congruence. by apply Hd.
Qed.

Lemma returns_drain_all wakers M o ws (Q : unit → world mloc → Prop) :
  (∀ d, 0 <= d → Q tt (World M (os_advance o d) ws)) → returns (drain_all wakers) (World M o ws) Q.
Proof.
  revert o. induction wakers as [|w wakers IH]; intros o HQ; cbn [drain_all].
  { step. destruct o as [c t]. specialize (HQ 0 ltac:(lia)). unfold os_advance in HQ. cbn in HQ. by rewrite Z.add_0_r in HQ. }
  step. eapply returns_mono; [apply drain_returns|]. intros _ w' (d & Hd & ->). apply IH. intros d' Hd'.
  rewrite os_advance_more. apply HQ. lia.
Qed.

(** C38. On a clock that advances, a wait on any number of subscribers ends, whatever
    other processes do meanwhile, and leaves every subscriber's ring disarmed.  It
    comes back without a sample only when there is no subscriber, when its timeout
    has passed, or when the caller asked for a [poll_cap] of 0. *)
Theorem wait_any_ends subs timeout poll_cap M o ws :
  0 < os_tick o →
  returns (wait_any subs timeout poll_cap) (World M o ws) (λ r w',
    (r = false → subs = [] ∨ poll_cap = 0 ∨ timeout <= os_clock (w_os w') - os_clock o) ∧
    ∀ m, m ∈ subs → disarmed (w_mem w') m).
Proof.
  intros Htick. unfold wait_any. case_bool_decide as He.
  { step. split; [by left|]. rewrite He. intros m Hm. by apply not_elem_of_nil in Hm. }
  destruct (collect subs [] true) as [wakers covered]. do 2 step. set (start := os_clock o).
  apply (returns_loop_measure _ _ (λ k _ w, ∃ M' o', w = World M' o' ws ∧ os_tick o' = os_tick o ∧
    k = Z.to_nat (timeout - (os_clock o' - start))) (Z.to_nat (timeout - (os_clock o + os_tick o - start)))).
  { by exists M, (os_advance o (os_tick o)). }
  intros k [] w (M1 & o1 & -> & Ho & ->). step. apply returns_arm_all. intros [ready capped] M2. step.
  apply (returns_mono _ _ (λ budget w, ∃ d, 0 <= d ∧ w = World M2 (os_advance o1 d) ws ∧
    (ready = false → budget = 0 → poll_cap = 0 ∨ timeout <= os_clock o1 - start) ∧
    (budget ≠ 0 → 0 < d ∧ os_clock o1 - start < timeout))).
  { destruct ready; step.
    - exists 0. split; [done|]. split; [|split; [done|lia]]. destruct o1. unfold os_advance. cbn. by rewrite Z.add_0_r.
    - step. step. exists (os_tick o1). split; [lia|]. split; [done|].
      destruct (Z.ltb_spec (os_clock o1 - start) timeout); [|split; [by right|lia]].
      destruct (capped || negb covered); lia. }
  intros budget w (d & Hd & -> & Hend & Hgo).
  assert (∀ M3 d3, d <= d3 → returns (disarm_all subs ;; drain_all wakers ;;
      Ret (if ready then inr true else if budget =? 0 then inr false else inl tt)) (World M3 (os_advance o1 d3) ws)
    (λ r w', match r with
      | inl _ => ∃ n', (n' < Z.to_nat (timeout - (os_clock o1 - start)))%nat ∧
          ∃ M' o', w' = World M' o' ws ∧ os_tick o' = os_tick o ∧ n' = Z.to_nat (timeout - (os_clock o' - start))
      | inr b => (b = false → subs = [] ∨ poll_cap = 0 ∨ timeout <= os_clock (w_os w') - os_clock o) ∧
          ∀ m, m ∈ subs → disarmed (w_mem w') m
      end)) as Hrest.
  { intros M3 d3 Hd3. step. apply (returns_disarm_all subs []); [by intros m Hm%not_elem_of_nil|].
    intros M4 Hdis. step. apply returns_drain_all. intros d4 Hd4. step. rewrite os_advance_more.
    destruct ready; [by split|]. destruct (Z.eqb_spec budget 0) as [Hb|Hb].
    - split; [|exact Hdis]. intros _. right. destruct (Hend eq_refl Hb) as [?|?]; [by left|right]. cbn. fold start. lia.
    - destruct (Hgo Hb) as [Hpos Hlt]. eexists. split; [|do 2 eexists; split; [done|]; split; [exact Ho|done]]. cbn. lia. }
  do 2 step; [|by apply Hrest]. step.
  - step. rewrite os_advance_more. apply Hrest. lia.
  - step. eapply returns_mono; [apply wait_returns|]. intros _ w (M3 & d3 & Hd3 & ->). step.
    rewrite os_advance_more. apply Hrest. lia.
Qed.
End ends.

(** ** Wakers that never wake *)

Definition mute : WakeBackend mloc :=
  {| waker_valid _ := true; waker_drain _ := Ret tt; wait_set _ t := sleep t ;; Ret false |}.

Lemma mute_returns : @WakesReturn mute.
Proof.
  split; intros; cbn [waker_drain wait_set mute].
  - exists 1%nat, (Val tt), (World M o ws). split; [done|]. exists 0. split; [lia|]. destruct o. unfold os_advance. cbn. by rewrite Z.add_0_r.
  - apply returns_bind, returns_sleep, returns_ret. exists M, (Z.max 0 t). split; [lia|done].
Qed.

(** A reader of ring 0 of region [r], which has seen all of it. *)
Definition idle_member (r : nat) (waker : option nat) : member :=
  {| in_region := r; member_sub := {| sub_geometry := Slots.tiny; ring_idx_ := 0; start_pos_ := 0; read_pos_ := 0;
       lost_ := 0; drain_timeouts_ := 0; recv_buf_ := []; waker_ := waker |} |}.

(** Two regions; the second reader has no waker, so the wait looks again every 200. *)
Lemma wait_any_ends_witness :
  returns (@wait_any mute [idle_member 0 (Some 5%nat); idle_member 1 None] 1000 200)
    (World (λ _, 0) (Os 0 10 0 7 (λ _, None) 0) [])
    (λ r w', (r = false → 1000 <= os_clock (w_os w')) ∧ w_mem w' (1%nat, Ring 0 has_waiter) = ring.WaiterNone).
Proof.
  eapply returns_mono; [by apply (@wait_any_ends mute mute_returns)|].
  intros r w' [Hr Hd]. split.
  - intros ->. destruct (Hr eq_refl) as [He|[Hc|Ht]]; [discriminate He|discriminate Hc|]. cbn in Ht. lia.
  - apply (Hd (idle_member 1 None)); [apply list_elem_of_In; right; by left|discriminate].
Defined.
End WaitAny.
