(* ===== verification/Node.v ===== *)
(** * Nodes ([src/Node.cc], [include/kickmsg/Node.h])

    A node maps logical names to regions and boards, caches what it opened and
    records itself in the namespace's registry.  Its memory is the union of the
    regions, boards and registry it reaches: a location is a shared-memory name
    and a location of that object, so a [create] stamps the memory of the name
    anew (peers' mappings of a replaced object are not tracked). *)

From stdpp Require Import gmap.
From S2P Require Import Prelude Prog Hash Types Layout Shm Naming.
From S2P Require Import Region Publisher Subscriber Registry Blackboard.
Import Hash Types Layout Naming.

Module Node.
Inductive nloc :=
  | InRegion (name : list Z) (l : loc)
  | InRegistry (l : Registry.rloc)
  | InBoard (name : list Z) (l : Blackboard.bloc).

#[local] Existing Instances Registry.rloc_eq_dec Blackboard.bloc_eq_dec.
#[export] Instance nloc_eq_dec : EqDecision nloc.
Proof. solve_decision. Defined.

Abbreviation nprog A := (prog nloc A).

Record RegistrySlot := { slot_index : Z; slot_role : Z }.

Record node := {
  name_ : list Z;
  namespace_ : list Z;
  regions_ : gmap (list Z) Region.region;
  blackboards_ : gmap (list Z) Blackboard.board;
  registry_slots_ : gmap (list Z) RegistrySlot;
  registry_ : option Registry.registry;
  registry_disabled_ : bool;
  registry_full_warned_ : bool
}.

Definition set_regions (n : node) (r : gmap (list Z) Region.region) : node :=
  {| name_ := name_ n; namespace_ := namespace_ n; regions_ := r;
     blackboards_ := blackboards_ n; registry_slots_ := registry_slots_ n;
     registry_ := registry_ n; registry_disabled_ := registry_disabled_ n;
     registry_full_warned_ := registry_full_warned_ n |}.
Definition set_blackboards (n : node) (b : gmap (list Z) Blackboard.board) : node :=
  {| name_ := name_ n; namespace_ := namespace_ n; regions_ := regions_ n;
     blackboards_ := b; registry_slots_ := registry_slots_ n;
     registry_ := registry_ n; registry_disabled_ := registry_disabled_ n;
     registry_full_warned_ := registry_full_warned_ n |}.
Definition set_slots (n : node) (s : gmap (list Z) RegistrySlot) : node :=
  {| name_ := name_ n; namespace_ := namespace_ n; regions_ := regions_ n;
     blackboards_ := blackboards_ n; registry_slots_ := s;
     registry_ := registry_ n; registry_disabled_ := registry_disabled_ n;
     registry_full_warned_ := registry_full_warned_ n |}.
Definition set_registry (n : node) (r : option Registry.registry) : node :=
  {| name_ := name_ n; namespace_ := namespace_ n; regions_ := regions_ n;
     blackboards_ := blackboards_ n; registry_slots_ := registry_slots_ n;
     registry_ := r; registry_disabled_ := registry_disabled_ n;
     registry_full_warned_ := registry_full_warned_ n |}.
Definition set_disabled (n : node) : node :=
  {| name_ := name_ n; namespace_ := namespace_ n; regions_ := regions_ n;
     blackboards_ := blackboards_ n; registry_slots_ := registry_slots_ n;
     registry_ := registry_ n; registry_disabled_ := true;
     registry_full_warned_ := registry_full_warned_ n |}.
Definition warn_full (n : node) : node :=
  {| name_ := name_ n; namespace_ := namespace_ n; regions_ := regions_ n;
     blackboards_ := blackboards_ n; registry_slots_ := registry_slots_ n;
     registry_ := registry_ n; registry_disabled_ := registry_disabled_ n;
     registry_full_warned_ := true |}.

(** The constructor. *)
Definition make_node (name kmsg_namespace : list Z) : res node :=
  res_bind (sanitize_shm_component name "node") (λ n,
  res_bind (sanitize_shm_component kmsg_namespace "namespace") (λ ns,
  inl {| name_ := n; namespace_ := ns; regions_ := ∅; blackboards_ := ∅;
         registry_slots_ := ∅; registry_ := None; registry_disabled_ := false;
         registry_full_warned_ := false |})).

(** ** Names *)

Definition with_leading_slash (s : list Z) : list Z :=
  match s with
  | c :: _ => if c =? slash then s else slash :: s
  | [] => [slash]
  end.

Definition mailbox_topic (owner tag : list Z) : res (list Z) :=
  res_bind (sanitize_shm_component owner "mailbox owner") (λ o,
  inl (slash :: o ++ slash :: tag)).

Definition make_topic_name (n : node) (topic : list Z) : res (list Z) :=
  res_bind (sanitize_shm_component topic "topic") (λ t,
  compose_shm_name (namespace_ n) t).

Definition make_broadcast_name (n : node) (channel : list Z) : res (list Z) :=
  res_bind (sanitize_shm_component channel "channel") (λ c,
  compose_shm_name (namespace_ n) (str "broadcast_" ++ c)).

Definition make_mailbox_name (n : node) (owner tag : list Z) : res (list Z) :=
  res_bind (sanitize_shm_component owner "mailbox owner") (λ o,
  res_bind (sanitize_shm_component tag "mailbox tag") (λ t,
  compose_shm_name (namespace_ n) (o ++ str "_mbx_" ++ t))).

(** ** Identities *)

Definition identity_chain (component : list Z) (identity : Z) : Z :=
  fnv1a_64_int 8 (Z.of_nat (length component)) (fnv1a_64 component identity).

Definition topic_identity (n : node) (topic : list Z) : Z :=
  let identity := identity_chain (str "topic") FNV1A_64_OFFSET_BASIS in
  let identity := identity_chain (namespace_ n) identity in
  identity_chain topic identity.

Definition broadcast_identity (n : node) (channel : list Z) : Z :=
  let identity := identity_chain (str "broadcast") FNV1A_64_OFFSET_BASIS in
  let identity := identity_chain (namespace_ n) identity in
  identity_chain channel identity.

Definition mailbox_identity (n : node) (owner tag : list Z) : res Z :=
  let identity := identity_chain (str "mailbox") FNV1A_64_OFFSET_BASIS in
  let identity := identity_chain (namespace_ n) identity in
  res_bind (sanitize_shm_component owner "mailbox owner") (λ o,
  inl (identity_chain tag (identity_chain o identity))).

(** ** The node's objects *)

Section node.
Context (region_shm : list Z → SharedMemory loc) `{SharedMemory Registry.rloc}.
Context (board_shm : list Z → SharedMemory Blackboard.bloc).

Definition on_region {A} (shm : list Z) (p : prog loc A) : nprog A := embed (InRegion shm) p.
Definition on_registry {A} (p : prog Registry.rloc A) : nprog A := embed InRegistry p.
Definition on_board {A} (shm : list Z) (p : prog Blackboard.bloc A) : nprog A :=
  embed (InBoard shm) p.

Definition find_region (n : node) (shm : list Z) : option Region.region := regions_ n !! shm.

Definition check_cached_identity (shm : list Z) (expected_identity : Z) : nprog unit :=
  stamped <- on_region shm (load (Hdr identity_hash)) ;;
  if negb (expected_identity =? 0) && negb (stamped =? 0) &&
     negb (stamped =? expected_identity) then
    throw runtime_error
      ("Identity mismatch on existing region (shm name collision): " +:+ text_of_bytes shm)
  else Ret tt.

Definition check_cached_config (shm : list Z) (type : Z) (cfg : channel.Config) : nprog unit :=
  h <- on_region shm (load (Hdr h_config_hash)) ;;
  if negb (h =? compute_config_hash type cfg) then
    throw runtime_error ("Config mismatch on existing region: " +:+ text_of_bytes shm)
  else Ret tt.

Definition lazy_registry (n : node) : nprog (Registry.registry * node) :=
  match registry_ n with
  | Some r => Ret (r, n)
  | None =>
      r <- on_registry (Registry.open_or_create (namespace_ n) Registry.DEFAULT_CAPACITY) ;;
      Ret (r, set_registry n (Some r))
  end.

(** The destructor. *)
Fixpoint deregister_all (r : Registry.registry) (slots : list RegistrySlot) : nprog unit :=
  match slots with
  | [] => Ret tt
  | s :: slots => on_registry (Registry.deregister r (slot_index s)) ;; deregister_all r slots
  end.

Definition node_destroy (n : node) : nprog node :=
  match registry_ n with
  | Some r => deregister_all r (map snd (map_to_list (registry_slots_ n)))
  | None => Ret tt
  end ;;
  Ret (set_slots n ∅).

(** The body of the [try] block of [touch_registry]. *)
Definition touch_body (n : node) (shm topic : list Z) (type kind role : Z) : nprog node :=
  '(reg, n) <- lazy_registry n ;;
  let register r := on_registry (Registry.register_participant reg
    {| Registry.r_shm_name := shm; Registry.r_topic_name := topic;
       Registry.r_channel_type := type; Registry.r_kind := kind;
       Registry.r_role := r; Registry.r_node_name := name_ n |}) in
  match registry_slots_ n !! shm with
  | Some held =>
      if negb (slot_role held =? role) && negb (slot_role held =? Registry.Role.Both) then
        on_registry (Registry.deregister reg (slot_index held)) ;;
        slot <- register Registry.Role.Both ;;
        if slot =? INVALID_SLOT then
          let prior := slot_role held in
          fallback <- register prior ;;
          if fallback =? INVALID_SLOT then
            Ret (set_slots (warn_full n) (delete shm (registry_slots_ n)))
          else
            Ret (set_slots n (<[shm := {| slot_index := fallback; slot_role := prior |}]>
                                (registry_slots_ n)))
        else
          Ret (set_slots n (<[shm := {| slot_index := slot;
                                        slot_role := Registry.Role.Both |}]>
                              (registry_slots_ n)))
      else Ret n
  | None =>
      slot <- register role ;;
      if slot =? INVALID_SLOT then Ret (warn_full n)
      else
        Ret (set_slots n (<[shm := {| slot_index := slot; slot_role := role |}]>
                            (registry_slots_ n)))
  end.

Definition touch_registry (n : node) (shm topic : list Z) (type kind role : Z) : nprog node :=
  if registry_disabled_ n then Ret n
  else
    r <- try_ (touch_body n shm topic type kind role) ;;
    match r with
    | inl n => Ret n
    | inr (Exn version_mismatch msg) => throw version_mismatch msg
    | inr _ => Ret (set_disabled n)
    end.

(** ** Channels *)

(** [emplace]: an existing entry is kept. *)
Definition emplace_region (n : node) (shm : list Z) (r : Region.region) : node :=
  match regions_ n !! shm with
  | Some _ => n
  | None => set_regions n (<[shm := r]> (regions_ n))
  end.

Definition publisher_of (r : Region.region) (backend : bool) : Publisher.publisher :=
  Publisher.make_publisher (Region.geometry_ r) backend.
Definition subscriber_of (shm : list Z) (r : Region.region) : nprog Subscriber.subscriber :=
  on_region shm (Subscriber.make_subscriber (Region.geometry_ r)).

Definition with_identity (cfg : channel.Config) (identity : Z) : channel.Config := {|
  channel.max_subscribers := channel.max_subscribers cfg;
  channel.sub_ring_capacity := channel.sub_ring_capacity cfg;
  channel.pool_size := channel.pool_size cfg;
  channel.max_payload_size := channel.max_payload_size cfg;
  channel.commit_timeout := channel.commit_timeout cfg;
  channel.cfg_schema := channel.cfg_schema cfg;
  channel.schema_capacity := channel.schema_capacity cfg;
  channel.schema_blob := channel.schema_blob cfg;
  channel.cfg_identity := identity |}.

(** A mailbox has one subscriber. *)
Definition mailbox_config (cfg : channel.Config) (identity : Z) : channel.Config := {|
  channel.max_subscribers := 1;
  channel.sub_ring_capacity := channel.sub_ring_capacity cfg;
  channel.pool_size := channel.pool_size cfg;
  channel.max_payload_size := channel.max_payload_size cfg;
  channel.commit_timeout := channel.commit_timeout cfg;
  channel.cfg_schema := channel.cfg_schema cfg;
  channel.schema_capacity := channel.schema_capacity cfg;
  channel.schema_blob := channel.schema_blob cfg;
  channel.cfg_identity := identity |}.

Definition advertise (n : node) (topic : list Z) (cfg : channel.Config) (backend : bool)
    : nprog (Publisher.publisher * node) :=
  shm <- of_res (make_topic_name n topic) ;;
  let path := with_leading_slash topic in
  match find_region n shm with
  | Some r =>
      check_cached_identity shm (topic_identity n topic) ;;
      check_cached_config shm channel.PubSub cfg ;;
      n <- touch_registry n shm path channel.PubSub Registry.Kind.Pubsub
             Registry.Role.Publisher ;;
      Ret (publisher_of r backend, n)
  | None =>
      let stamped_cfg := with_identity cfg (topic_identity n topic) in
      r <- on_region shm (Region.create (H := region_shm shm) shm channel.PubSub stamped_cfg
             (Some (name_ n))) ;;
      let n := emplace_region n shm r in
      n <- touch_registry n shm path channel.PubSub Registry.Kind.Pubsub
             Registry.Role.Publisher ;;
      Ret (publisher_of r backend, n)
  end.

Definition subscribe (n : node) (topic : list Z) : nprog (Subscriber.subscriber * node) :=
  shm <- of_res (make_topic_name n topic) ;;
  let path := with_leading_slash topic in
  match find_region n shm with
  | Some r =>
      check_cached_identity shm (topic_identity n topic) ;;
      n <- touch_registry n shm path channel.PubSub Registry.Kind.Pubsub
             Registry.Role.Subscriber ;;
      s <- subscriber_of shm r ;;
      Ret (s, n)
  | None =>
      r <- on_region shm (Region.open (H := region_shm shm) shm (topic_identity n topic)) ;;
      let n := emplace_region n shm r in
      n <- touch_registry n shm path channel.PubSub Registry.Kind.Pubsub
             Registry.Role.Subscriber ;;
      s <- subscriber_of shm r ;;
      Ret (s, n)
  end.

(** [create_or_open_handle<Handle>]; [make] builds the handle. *)
Definition create_or_open_handle {Handle} (make : Region.region → nprog Handle)
    (n : node) (shm path : list Z) (type kind role : Z) (cfg : channel.Config)
    : nprog (Handle * node) :=
  match find_region n shm with
  | Some r =>
      check_cached_identity shm (channel.cfg_identity cfg) ;;
      check_cached_config shm type cfg ;;
      n <- touch_registry n shm path type kind role ;;
      h <- make r ;;
      Ret (h, n)
  | None =>
      r <- on_region shm (Region.create_or_open (H := region_shm shm) shm type cfg
             (Some (name_ n))) ;;
      let n := emplace_region n shm r in
      n <- touch_registry n shm path type kind role ;;
      h <- make r ;;
      Ret (h, n)
  end.

Definition advertise_or_join (n : node) (topic : list Z) (cfg : channel.Config)
    (backend : bool) : nprog (Publisher.publisher * node) :=
  shm <- of_res (make_topic_name n topic) ;;
  create_or_open_handle (λ r, Ret (publisher_of r backend)) n shm (with_leading_slash topic)
    channel.PubSub Registry.Kind.Pubsub Registry.Role.Publisher
    (with_identity cfg (topic_identity n topic)).

Definition subscribe_or_create (n : node) (topic : list Z) (cfg : channel.Config)
    : nprog (Subscriber.subscriber * node) :=
  shm <- of_res (make_topic_name n topic) ;;
  create_or_open_handle (subscriber_of shm) n shm (with_leading_slash topic)
    channel.PubSub Registry.Kind.Pubsub Registry.Role.Subscriber
    (with_identity cfg (topic_identity n topic)).

Definition join_broadcast (n : node) (channel : list Z) (cfg : channel.Config)
    (backend : bool)
    : nprog ((Publisher.publisher * Subscriber.subscriber) * node) :=
  shm <- of_res (make_broadcast_name n channel) ;;
  let path := with_leading_slash channel in
  match find_region n shm with
  | Some r =>
      check_cached_identity shm (broadcast_identity n channel) ;;
      check_cached_config shm channel.Broadcast cfg ;;
      n <- touch_registry n shm path channel.Broadcast Registry.Kind.Broadcast
             Registry.Role.Both ;;
      s <- subscriber_of shm r ;;
      Ret ((publisher_of r backend, s), n)
  | None =>
      let stamped_cfg := with_identity cfg (broadcast_identity n channel) in
      r <- on_region shm (Region.create_or_open (H := region_shm shm) shm channel.Broadcast
             stamped_cfg (Some (name_ n))) ;;
      let n := emplace_region n shm r in
      n <- touch_registry n shm path channel.Broadcast Registry.Kind.Broadcast
             Registry.Role.Both ;;
      s <- subscriber_of shm r ;;
      Ret ((publisher_of r backend, s), n)
  end.

Definition create_mailbox (n : node) (tag : list Z) (cfg : channel.Config)
    : nprog (Subscriber.subscriber * node) :=
  identity <- of_res (mailbox_identity n (name_ n) tag) ;;
  let mbx_cfg := mailbox_config cfg identity in
  shm <- of_res (make_mailbox_name n (name_ n) tag) ;;
  path <- of_res (mailbox_topic (name_ n) tag) ;;
  match find_region n shm with
  | Some r =>
      check_cached_identity shm identity ;;
      check_cached_config shm channel.PubSub mbx_cfg ;;
      n <- touch_registry n shm path channel.PubSub Registry.Kind.Mailbox
             Registry.Role.Subscriber ;;
      s <- subscriber_of shm r ;;
      Ret (s, n)
  | None =>
      r <- on_region shm (Region.create (H := region_shm shm) shm channel.PubSub mbx_cfg
             (Some (name_ n))) ;;
      let n := emplace_region n shm r in
      n <- touch_registry n shm path channel.PubSub Registry.Kind.Mailbox
             Registry.Role.Subscriber ;;
      s <- subscriber_of shm r ;;
      Ret (s, n)
  end.

Definition open_mailbox (n : node) (owner_node tag : list Z) (backend : bool)
    : nprog (Publisher.publisher * node) :=
  shm <- of_res (make_mailbox_name n owner_node tag) ;;
  path <- of_res (mailbox_topic owner_node tag) ;;
  identity <- of_res (mailbox_identity n owner_node tag) ;;
  match find_region n shm with
  | Some r =>
      check_cached_identity shm identity ;;
      n <- touch_registry n shm path channel.PubSub Registry.Kind.Mailbox
             Registry.Role.Publisher ;;
      Ret (publisher_of r backend, n)
  | None =>
      r <- on_region shm (Region.open (H := region_shm shm) shm identity) ;;
      let n := emplace_region n shm r in
      n <- touch_registry n shm path channel.PubSub Registry.Kind.Mailbox
             Registry.Role.Publisher ;;
      Ret (publisher_of r backend, n)
  end.

Definition create_or_open_mailbox (n : node) (tag : list Z) (cfg : channel.Config)
    : nprog (Subscriber.subscriber * node) :=
  identity <- of_res (mailbox_identity n (name_ n) tag) ;;
  shm <- of_res (make_mailbox_name n (name_ n) tag) ;;
  path <- of_res (mailbox_topic (name_ n) tag) ;;
  create_or_open_handle (subscriber_of shm) n shm path channel.PubSub Registry.Kind.Mailbox
    Registry.Role.Subscriber (mailbox_config cfg identity).

Definition open_or_create_mailbox (n : node) (owner_node tag : list Z)
    (cfg : channel.Config) (backend : bool) : nprog (Publisher.publisher * node) :=
  identity <- of_res (mailbox_identity n owner_node tag) ;;
  shm <- of_res (make_mailbox_name n owner_node tag) ;;
  path <- of_res (mailbox_topic owner_node tag) ;;
  create_or_open_handle (λ r, Ret (publisher_of r backend)) n shm path channel.PubSub
    Registry.Kind.Mailbox Registry.Role.Publisher (mailbox_config cfg identity).

Definition blackboard (n : node) (name : list Z) (cfg : Blackboard.Config)
    : nprog (Blackboard.board * node) :=
  let path := with_leading_slash name in
  '(b, n) <- (match blackboards_ n !! name with
    | None =>
        shm <- of_res (Blackboard.shm_name (namespace_ n) name) ;;
        b <- on_board shm (Blackboard.open_or_create (H := board_shm shm) (namespace_ n)
               name cfg (name_ n)) ;;
        Ret (b, set_blackboards n (<[name := b]> (blackboards_ n)))
    | Some b =>
        let shm := Blackboard.name_ b in
        h <- on_board shm (load (Blackboard.Hdr Blackboard.config_hash)) ;;
        if negb (h =? Blackboard.bb_config_hash cfg) then
          throw runtime_error ("Blackboard config mismatch on " +:+ text_of_bytes shm)
        else
          collision <- (if Blackboard.cfg_identity cfg =? 0 then Ret false
            else
              stamped <- on_board shm (load (Blackboard.Hdr Blackboard.identity_hash)) ;;
              if stamped =? 0 then Ret false
              else
                stamped <- on_board shm (load (Blackboard.Hdr Blackboard.identity_hash)) ;;
                Ret (negb (stamped =? Blackboard.cfg_identity cfg))) ;;
          if collision : bool then
            throw runtime_error ("Blackboard identity mismatch on " +:+ text_of_bytes shm)
          else Ret (b, n)
    end) ;;
  n <- touch_registry n (Blackboard.name_ b) path channel.None_ Registry.Kind.Blackboard
         Registry.Role.Both ;;
  Ret (b, n).

(** ** Unlinking *)

Definition unlink_topic (n : node) (topic : list Z) : nprog unit :=
  shm <- of_res (make_topic_name n topic) ;;
  on_region shm (shm_unlink (SharedMemory := region_shm shm)).

Definition unlink_broadcast (n : node) (channel : list Z) : nprog unit :=
  shm <- of_res (make_broadcast_name n channel) ;;
  on_region shm (shm_unlink (SharedMemory := region_shm shm)).

Definition unlink_mailbox (n : node) (tag : list Z) (owner_node : option (list Z))
    : nprog unit :=
  shm <- of_res (make_mailbox_name n (default (name_ n) owner_node) tag) ;;
  on_region shm (shm_unlink (SharedMemory := region_shm shm)).

Definition unlink_blackboard (n : node) (name : list Z) : nprog unit :=
  shm <- of_res (Blackboard.shm_name (namespace_ n) name) ;;
  on_board shm (shm_unlink (SharedMemory := board_shm shm)).

(** ** Schemas *)

Definition topic_schema (n : node) (topic : list Z) : nprog (option SchemaInfo) :=
  shm <- of_res (make_topic_name n topic) ;;
  match find_region n shm with
  | None => Ret None
  | Some _ => on_region shm Region.schema_read
  end.

Definition topic_schema_blob (n : node) (topic : list Z) : nprog (list Z) :=
  shm <- of_res (make_topic_name n topic) ;;
  match find_region n shm with
  | None => Ret []
  | Some r => on_region shm (Region.schema_blob_read (Region.geometry_ r))
  end.

Definition try_claim_topic_schema (n : node) (topic : list Z) (info : SchemaInfo)
    (blob : list Z) : nprog bool :=
  shm <- of_res (make_topic_name n topic) ;;
  match find_region n shm with
  | None => Ret false
  | Some r => on_region shm (Region.try_claim_schema (Region.geometry_ r) info blob)
  end.
End node.
End Node.
