(* ===== verification/Network.v ===== *)
(** * A topic of a namespace is a channel

    The composition of [Node.v], [Registry.v], [Region.v] and [Channel.v]: a node
    advertises a topic, others of its namespace subscribe to it, and what they
    send and receive is what the bounded queues of [Channel.v] promise.  The
    registry is only a directory: whatever its memory holds, its calls end, touch
    nothing else, and only a version mismatch reaches the caller. *)

From stdpp Require Import gmap.
From S2P Require Import Prelude Prog Embedding Hash Types Layout Words Shm Process Naming.
From S2P Require Import Slots Publisher Subscriber Region Stamping Channel Registry Blackboard Node.
Import Types Layout Slots Node.

Module Network.
(** ** The registry's calls end *)

Section registry.
Context (reg : SharedMemory Registry.rloc).
Abbreviation any := (λ _, True).
Abbreviation quiet p := (tame any p any any).

Context (Hcreate : ∀ bytes, quiet (shm_try_create (SharedMemory := reg) bytes)).
Context (Hopen : quiet (shm_try_open (SharedMemory := reg))).

Lemma tame_of_res {L A} (r : res A) (Q : A → Prop) (E : exn → Prop) :
  match r with inl a => Q a | inr e => E e end → tame (λ _ : L, True) (of_res r) Q E.
Proof. by destruct r. Qed.

Lemma quiet_starttime {L} pid : quiet (Process.process_starttime (L := L) pid).
Proof. unfold Process.process_starttime. by tames. Qed.

Lemma quiet_owner_is_dead {L} pid start : quiet (Process.owner_is_dead (L := L) pid start).
Proof. unfold Process.owner_is_dead. by tames. Qed.

Lemma quiet_init cap : quiet (Registry.init_as_creator cap).
Proof.
  unfold Registry.init_as_creator. tame_by (apply tame_zero_locs). intros _ _.
  tame_by (apply (tame_foreach _ _ _ _ _ any); [done|]; intros; apply tame_zero_locs).
  intros _ _. by tames.
Qed.

Lemma quiet_spin_open name : quiet (Registry.spin_open (H := reg) name).
Proof using Hopen.
  unfold Registry.spin_open. tame_with any.
  - apply (tame_for _ _ _ _ _ any); [done| |done]. intros _ _ _.
    tame_by (exact Hopen). intros opened _. tame_with any.
    + destruct opened; tames; done.
    + intros [r|] _; by tames.
  - intros [u|r] _; by tames.
Qed.

Lemma quiet_open_or_create ns cap : quiet (Registry.open_or_create (H := reg) ns cap).
Proof using Hcreate Hopen.
  unfold Registry.open_or_create. tames; [done|]. tame_by (apply (tame_of_res _ any); by destruct (Registry.make_shm_name ns)).
  intros name _. tame_by (apply Hcreate). intros created _. tames.
  - tame_by (apply quiet_init). intros _ _. by tames.
  - tame_by (apply quiet_spin_open). intros [r|] _; by tames.
Qed.

Lemma quiet_write_row i a pid start now : quiet (Registry.write_row i a pid start now).
Proof.
  unfold Registry.write_row, Registry.open_generation, Registry.settle_generation, Registry.store_name.
  tames. do 3 (tame_by (by apply tame_store_words); intros _ _).
  tame_by (by apply tame_memset); intros _ _. by tames.
Qed.

Lemma quiet_try_claim r a : quiet (Registry.try_claim r a).
Proof.
  unfold Registry.try_claim. tames. tame_by (apply quiet_starttime). intros st _. tames.
  tame_with any; [|intros [u|i] _; by tames].
  apply (tame_for _ _ _ _ _ any); [done| |done]. intros i _ _. tames; [done|].
  tame_by (apply quiet_write_row). intros _ _. by tames.
Qed.

Lemma quiet_sweep_stale r : quiet (Registry.sweep_stale r).
Proof.
  apply (tame_foreach _ _ _ _ _ any); [done|]. intros i freed _. tame_with any; [|intros; by tames].
  unfold Registry.sweep_row. tames; try done. tame_by (apply quiet_owner_is_dead). intros dead _.
  unfold Registry.acquire_tenancy, Registry.clear_identity, Registry.settle_generation. tames; done.
Qed.

Lemma quiet_register r a : quiet (Registry.register_participant r a).
Proof.
  unfold Registry.register_participant. tame_by (apply quiet_try_claim). intros slot _. tames; [done|].
  tame_with any; [|intros [u|i] _; by tames].
  apply (tame_for _ _ _ _ _ any); [done| |done]. intros i _ _.
  tame_by (apply quiet_sweep_stale). intros freed _. tames; [done|].
  tame_by (apply quiet_try_claim). intros slot' _. by tames.
Qed.

Lemma quiet_deregister r i : quiet (Registry.deregister r i).
Proof.
  unfold Registry.deregister, Registry.open_generation, Registry.clear_identity, Registry.settle_generation.
  tames; done.
Qed.

(** *** Recording a node *)

Definition of_registry (l : nloc) : Prop := ∃ k, l = InRegistry k.

Definition same_node (n n' : node) : Prop :=
  regions_ n' = regions_ n ∧ namespace_ n' = namespace_ n ∧ name_ n' = name_ n.

Lemma tame_on_registry {A} (p : prog Registry.rloc A) : quiet p → tame of_registry (on_registry p) any any.
Proof using Type. intros Hp. apply tame_placed; [by eexists|exact Hp]. Qed.

Lemma tame_touch_body n shm topic type kind role :
  tame of_registry (touch_body (H := reg) n shm topic type kind role) (same_node n) any.
Proof using Hcreate Hopen.
  unfold touch_body. tame_with (λ '(_, n'), same_node n n').
  { unfold lazy_registry. destruct (registry_ n); [by tames|].
    tame_by (apply tame_on_registry, quiet_open_or_create). intros r _. by tames. }
  intros [r n'] Hn. cbv zeta. destruct (registry_slots_ n' !! shm) as [held|].
  - tames; [|done]. tame_by (apply tame_on_registry, quiet_deregister). intros _ _.
    tame_by (apply tame_on_registry, quiet_register). intros slot _. tames; [|done].
    tame_by (apply tame_on_registry, quiet_register). intros fallback _. by tames.
  - tame_by (apply tame_on_registry, quiet_register). intros slot _. by tames.
Qed.

Lemma tame_touch_registry n shm topic type kind role :
  tame of_registry (touch_registry (H := reg) n shm topic type kind role) (same_node n)
    (λ e, exn_kind_of e = version_mismatch).
Proof using Hcreate Hopen.
  unfold touch_registry. destruct (registry_disabled_ n); [done|].
  tame_with (λ r, match r with inl n' => same_node n n' | inr _ => True end).
  { eapply tame_try; [apply tame_touch_body|done]. }
  intros [n'|[[] msg]] Hn; done.
Qed.
End registry.

(** ** One region of the namespace *)

Section region.
Context (shm : list Z).

Definition found_region (l : nloc) : option loc :=
  match l with InRegion n l => if decide (n = shm) then Some l else None | _ => None end.

Lemma found_region_spec l l' : found_region l' = Some l ↔ l' = InRegion shm l.
Proof.
  destruct l' as [nm l'| |]; cbn; [|done|done]. destruct (decide (nm = shm)) as [->|]; [|naive_solver].
  split; [by intros [= ->]|by intros [= ->]].
Qed.

(** The region's memory. *)
Definition region_mem (M : nloc → Z) : loc → Z := λ l, M (InRegion shm l).

Lemma wp_on_region {A} (p : prog loc A) M o ws (Q : outcome A → world nloc → Prop) :
  wp p (World (region_mem M) o []) (λ r w', ∀ M' ws', region_mem M' = w_mem w' → Q r (World M' (w_os w') ws')) →
  wp (on_region shm p) (World M o ws) Q.
Proof.
  intros Hp. apply (wp_embed _ found_region); [exact found_region_spec|]. cbn [w_mem w_os w_wakes].
  eapply wp_mono; [exact Hp|]. intros r w' HQ. apply HQ.
  apply functional_extensionality. intros l. apply place_at, found_region_spec.
Qed.

(** A call of the registry leaves the region alone. *)
Lemma wp_touch (reg : SharedMemory Registry.rloc) n topic type kind role M o ws
    (Q : outcome node → world nloc → Prop) :
  (∀ bytes, tame (λ _, True) (shm_try_create (SharedMemory := reg) bytes) (λ _, True) (λ _, True)) →
  tame (λ _, True) (shm_try_open (SharedMemory := reg)) (λ _, True) (λ _, True) →
  (∀ n' M' o' ws', same_node n n' → steady o o' → region_mem M' = region_mem M → Q (Val n') (World M' o' ws')) →
  (∀ e w', exn_kind_of e = version_mismatch → Q (Exc e) w') →
  wp (touch_registry (H := reg) n shm topic type kind role) (World M o ws) Q.
Proof.
  intros Hc Ho HQ HE. eapply wp_mono; [apply wp_tame, tame_touch_registry; done|].
  intros [n'|e] [M' o' ws'] (Hr & Hos & Hm); [|by apply HE]. apply HQ; [done|done|].
  apply functional_extensionality. intros l. apply Hm. by intros [k [=]].
Qed.
End region.

(** ** Advertising and subscribing *)

Section topic.
Context (region_shm : list Z → SharedMemory loc) (reg : SharedMemory Registry.rloc).
Context (Hreg_create : ∀ bytes,
  tame (λ _, True) (shm_try_create (SharedMemory := reg) bytes) (λ _, True) (λ _, True)).
Context (Hreg_open : tame (λ _, True) (shm_try_open (SharedMemory := reg)) (λ _, True) (λ _, True)).

(** The nodes [bs] subscribe, one after the other. *)
Fixpoint subscribe_all (bs : list node) (topic : list Z) (acc : list Subscriber.subscriber)
    : nprog (list Subscriber.subscriber) :=
  match bs with
  | [] => Ret acc
  | b :: bs =>
      '(s, _) <- subscribe (H := reg) region_shm b topic ;;
      subscribe_all bs topic (acc ++ [s])
  end.

Context (a : node) (topic : list Z) (cfg : channel.Config) (shm : list Z) (l : RegionLayout) (size : Z).
Abbreviation cfg' := (with_identity cfg (topic_identity a topic)).
Context (Hname : make_topic_name a topic = inl shm).
Context (Hty : channel.config_typed cfg) (Hv : validate_config channel.PubSub cfg = inl tt).
Context (Hl : compute_layout cfg (Some (name_ a)) = inl l).
Context (Hsize : is_u64 size) (Hle : l_total_size l <= size).
Context (Hcreate : ∀ w Q, Q (l_total_size l) w →
  returns (shm_create (SharedMemory := region_shm shm) (l_total_size l)) w Q).
Context (Hopen : ∀ w Q, Q size w → returns (shm_open (SharedMemory := region_shm shm)) w Q).
Context (Hroom : channel.max_subscribers cfg * channel.sub_ring_capacity cfg < channel.pool_size cfg).
Abbreviation g := (geometry_of_layout cfg l).

Lemma topic_identity_u64 n t : is_u64 (topic_identity n t).
Proof.
  assert (∀ c i, is_u64 i → is_u64 (identity_chain c i)) as Hc.
  { intros c i Hi. unfold identity_chain, Hash.fnv1a_64_int. by do 2 apply Hash.fnv1a_64_range. }
  unfold topic_identity. do 3 apply Hc. by compute.
Qed.

Lemma cfg_typed : channel.config_typed cfg'.
Proof using Hty. destruct Hty. split; try done. apply topic_identity_u64. Qed.

Lemma wp_advertise backend M o ws (Q : outcome (Publisher.publisher * node) → world nloc → Prop) :
  find_region a shm = None → 0 < os_tick o →
  (∀ n' M' o' ws', steady o o' → Stamping.stamped channel.PubSub cfg' (name_ a) l o (region_mem shm M') →
     Q (Val (Publisher.make_publisher g backend, n')) (World M' o' ws')) →
  (∀ e w', exn_kind_of e = version_mismatch → Q (Exc e) w') →
  wp (advertise (H := reg) region_shm a topic cfg backend) (World M o ws) Q.
Proof using Hreg_create Hreg_open Hname Hty Hv Hl Hcreate.
  intros Hnone Htick HQ HE. unfold advertise. rewrite Hname. apply wp_bind, wp_ret. rewrite Hnone.
  apply wp_bind, wp_on_region. unfold Region.create.
  change (validate_config channel.PubSub cfg') with (validate_config channel.PubSub cfg). rewrite Hv.
  change (compute_layout cfg' (Some (name_ a))) with (compute_layout cfg (Some (name_ a))). rewrite Hl.
  apply returns_wp. cbn [of_res]. do 5 step. apply Hcreate. lazy beta. step.
  eapply Stamping.returns_stamp; [exact cfg_typed|exact Hv|exact Hl|]. intros m' Hst. step.
  intros M1 ws1 Hm1. cbn [w_mem w_os Region.geometry_] in *.
  apply wp_bind. apply wp_touch; [done|done| |done]. intros n' M2 o2 ws2 _ Hos Hm2.
  apply wp_ret. apply HQ; [done|]. by rewrite Hm2, Hm1.
Qed.

(** *** The others *)

Definition joins (b : node) : Prop := namespace_ b = namespace_ a ∧ find_region b shm = None.

Lemma joins_name b : joins b → make_topic_name b topic = inl shm ∧ topic_identity b topic = topic_identity a topic.
Proof using Hname. intros [Hns _]. unfold make_topic_name, topic_identity in *. by rewrite Hns. Qed.

Lemma geometry_facts : pool_geometry g ∧ sub_ring_capacity g < 549755813888 ∧
  slot_data_size g <= MAX_PAYLOAD_SIZE.
Proof using Hty Hv Hl Hroom.
  pose proof (Stamping.layout_pool_geometry _ _ _ _ Hty Hv Hl) as Hg.
  destruct (geometry_of_layout_typed _ _ _ _ Hty Hv Hl) as [Hgk _].
  split; [done|]. split; [by apply Channel.roomy_capacity|apply (gk_slot_data _ _ _ Hgk)].
Qed.

Lemma wp_subscribe b k o0 p ss qs M o ws (Q : outcome (Subscriber.subscriber * node) → world nloc → Prop) :
  joins b → 0 <= k → 0 < os_tick o →
  Stamping.headed channel.PubSub cfg' l o0 (region_mem shm M) →
  Channel.serves g k (region_mem shm M) {| Channel.pubs := p; Channel.subs := ss |} qs →
  Channel.taken_rings qs < max_subs g →
  (∀ s n' M' o' ws', steady o o' → Stamping.headed channel.PubSub cfg' l o0 (region_mem shm M') →
     Channel.serves g k (region_mem shm M') {| Channel.pubs := p; Channel.subs := ss ++ [s] |} (qs ++ [Channel.fresh]) →
     Q (Val (s, n')) (World M' o' ws')) →
  (∀ e w', exn_kind_of e = version_mismatch → Q (Exc e) w') →
  wp (subscribe (H := reg) region_shm b topic) (World M o ws) Q.
Proof using Hreg_create Hreg_open Hname Hty Hv Hl Hsize Hle Hopen Hroom.
  intros Hb Hk Htick Hh Hsv Hfree HQ HE. destruct (joins_name b Hb) as [Hbname Hbid]. destruct Hb as [_ Hnone].
  unfold subscribe. rewrite Hbname. apply wp_bind, wp_ret. rewrite Hnone.
  apply wp_bind, wp_on_region. apply returns_wp. unfold Region.open. step. apply Hopen. step.
  apply (Stamping.returns_validate_headed channel.PubSub cfg' (name_ a) l cfg_typed Hv Hl size o0); [done|done|done|].
  do 2 step. destruct Hh as (Hmagic & Hid & Hh). rewrite Hid, Hbid. cbn [channel.cfg_identity with_identity].
  rewrite Z.eqb_refl. cbn [negb]. rewrite andb_false_r. step.
  intros M1 ws1 Hm1. cbn [w_mem w_os] in *.
  apply wp_bind. apply wp_touch; [done|done| |done]. intros n' M2 o2 ws2 _ Hos Hm2.
  unfold subscriber_of. cbn [Region.geometry_]. change (geometry_of_layout cfg' l) with g.
  apply wp_bind, wp_on_region.
  assert (region_mem shm M2 = region_mem shm M) as Hm by congruence. rewrite Hm.
  eapply Channel.wp_join; [apply geometry_facts|exact Hsv|done| |intros; exfalso; lia].
  intros m' s _ Hsv' Hhdr M3 ws3 Hm3. cbn [w_mem w_os] in *. apply wp_ret. apply HQ; [done| |by rewrite Hm3].
  rewrite Hm3. split; [by rewrite Hhdr|]. split; [by rewrite Hhdr|]. intros. rewrite Hhdr. auto.
Qed.

Lemma taken_rings_fresh qs n :
  Channel.taken_rings (qs ++ replicate n Channel.fresh) = Channel.taken_rings qs + Z.of_nat n.
Proof.
  unfold Channel.taken_rings. rewrite filter_app, length_app.
  assert (length (filter (λ q, Channel.attached q = true) (replicate n Channel.fresh)) = n) as ->; [|lia].
  induction n as [|n IH]; [done|]. cbn [replicate]. rewrite filter_cons_True by done. cbn [length]. lia.
Qed.

Lemma wp_subscribe_all bs k o0 p ss qs M o ws (Q : outcome (list Subscriber.subscriber) → world nloc → Prop) :
  Forall joins bs → 0 <= k → 0 < os_tick o →
  Stamping.headed channel.PubSub cfg' l o0 (region_mem shm M) →
  Channel.serves g k (region_mem shm M) {| Channel.pubs := p; Channel.subs := ss |} qs →
  Channel.taken_rings qs + Z.of_nat (length bs) <= max_subs g →
  (∀ ss' M' o' ws', steady o o' →
     Channel.serves g k (region_mem shm M') {| Channel.pubs := p; Channel.subs := ss' |}
       (qs ++ replicate (length bs) Channel.fresh) →
     Q (Val ss') (World M' o' ws')) →
  (∀ e w', exn_kind_of e = version_mismatch → Q (Exc e) w') →
  wp (subscribe_all bs topic ss) (World M o ws) Q.
Proof using Hreg_create Hreg_open Hname Hty Hv Hl Hsize Hle Hopen Hroom.
  intros Hbs Hk. revert ss qs M o ws. induction Hbs as [|b bs Hb _ IH]; intros ss qs M o ws Htick Hh Hsv Hfree HQ HE;
    cbn [subscribe_all length replicate] in *.
  - apply wp_ret. apply HQ; [apply steady_refl|]. by rewrite app_nil_r.
  - apply wp_bind. eapply wp_subscribe; [done|done|done|exact Hh|exact Hsv|lia| |done].
    intros s n' M' o' ws' Hos Hh' Hsv'. pose proof Hos as (Ht & _). 
    eapply (IH (ss ++ [s]) (qs ++ [Channel.fresh])); [lia|done|exact Hsv'| | |done].
    + pose proof (taken_rings_fresh qs 1). cbn [replicate] in *. lia.
    + intros ss' M2 o2 ws2 Hos2 Hsv2. apply HQ; [by eapply steady_trans|].
      by rewrite <- (assoc_L (++)) in Hsv2.
Qed.
End topic.

(** ** The theorem *)

(** C10. A node advertises a topic, with more slots than the rings have entries
    together, and others of its namespace, at most as many as the channel has rings,
    subscribe to it: unless the registry was stamped by
    another version, every call succeeds and any session of sends, joins,
    receives and leaves replies as one fresh bounded queue per subscriber does,
    whatever the memory held before. *)
Theorem topic_is_channel region_shm reg a bs topic cfg shm l size backend cs M o ws :
  (∀ bytes, tame (λ _, True) (shm_try_create (SharedMemory := reg) bytes) (λ _, True) (λ _, True)) →
  tame (λ _, True) (shm_try_open (SharedMemory := reg)) (λ _, True) (λ _, True) →
  make_topic_name a topic = inl shm → channel.config_typed cfg →
  validate_config channel.PubSub cfg = inl tt → compute_layout cfg (Some (name_ a)) = inl l →
  is_u64 size → l_total_size l <= size →
  (∀ w Q, Q (l_total_size l) w → returns (shm_create (SharedMemory := region_shm shm) (l_total_size l)) w Q) →
  (∀ w Q, Q size w → returns (shm_open (SharedMemory := region_shm shm)) w Q) →
  channel.max_subscribers cfg * channel.sub_ring_capacity cfg < channel.pool_size cfg →
  find_region a shm = None → Forall (joins a shm) bs →
  Z.of_nat (length bs) <= channel.max_subscribers cfg →
  Z.of_nat (length cs) < 2305843009213693952 → 0 < os_tick o →
  let g := geometry_of_layout cfg l in
  wp ('(p, _) <- advertise (H := reg) region_shm a topic cfg backend ;;
      ss <- subscribe_all region_shm reg bs topic [] ;;
      on_region shm (Channel.perform_all g cs {| Channel.pubs := [p]; Channel.subs := ss |}))
    (World M o ws) (λ r _, match r with
      | Val (replies, _) =>
          replies = (Channel.promised_all g 1 cs (replicate (length bs) Channel.fresh)).1
      | Exc e => exn_kind_of e = version_mismatch
      end).
Proof.
  intros Hrc Hro Hname Hty Hv Hl Hsize Hle Hcreate Hopen Hroom Hnone Hbs Hlen Hcs Htick g.
  pose proof (geometry_facts a cfg l Hty Hv Hl Hroom) as (Hg & Hcap & Hdata). fold g in Hg, Hcap, Hdata.
  apply wp_bind. eapply wp_advertise; [done..| |done]. intros n' M1 o1 ws1 Hos1 Hst.
  apply wp_bind. pose proof (cfg_typed a topic cfg Hty) as Hty'.
  eapply wp_subscribe_all with (k := 0 + Z.of_nat (length cs)) (qs := []);
    [done|done|exact Hname|exact Hty|exact Hv|exact Hl|exact Hsize|exact Hle|exact Hopen|exact Hroom|exact Hbs
    |lia|destruct Hos1; lia| | |exact Hlen| |done].
  - eapply Stamping.stamped_headed, Hst.
  - apply (Channel.serves_new channel.PubSub _ (name_ a) l o (region_mem shm M1) 1 backend _ Hty' Hv Hl Hst Hcap). lia.
  - intros ss M2 o2 ws2 Hos2 Hsv. apply wp_on_region, returns_wp.
    eapply (Channel.returns_perform_all g Hg Hcap Hdata Hroom 0); [exact Hsv|done| |].
    + destruct Hos1, Hos2. lia.
    + intros e' w' _ M3 ws3 _. done.
Qed.

(** C27. Two topics whose names meet in one object are told apart by their
    identity: subscribing to a name that another topic's region was stamped under
    throws, and leaves the region as it was. *)
Theorem collision_refused region_shm reg b topic shm type cfg creator l size o0 M o ws :
  make_topic_name b topic = inl shm → find_region b shm = None →
  channel.config_typed cfg → validate_config type cfg = inl tt → compute_layout cfg (Some creator) = inl l →
  Stamping.headed type cfg l o0 (region_mem shm M) → is_u64 size → l_total_size l <= size →
  (∀ w Q, Q size w → returns (shm_open (SharedMemory := region_shm shm)) w Q) →
  channel.cfg_identity cfg ≠ 0 → topic_identity b topic ≠ 0 →
  channel.cfg_identity cfg ≠ topic_identity b topic →
  wp (subscribe (H := reg) region_shm b topic) (World M o ws) (λ r w',
    r = Exc (Exn runtime_error
      ("Identity mismatch on existing region (shm name collision): " +:+ text_of_bytes shm)) ∧
    region_mem shm (w_mem w') = region_mem shm M ∧ w_os w' = o).
Proof.
  intros Hname Hnone Hty Hv Hl Hh Hsize Hle Hopen Hid Hid' Hne.
  unfold subscribe. rewrite Hname. apply wp_bind, wp_ret. rewrite Hnone.
  apply wp_bind, wp_on_region. unfold Region.open. step. apply Hopen. lazy beta. step.
  apply (Stamping.returns_validate_headed type cfg creator l Hty Hv Hl size o0); [done|done|done|].
  do 2 step. destruct Hh as (_ & Hst & _). rewrite Hst.
  rewrite (proj2 (Z.eqb_neq _ _) Hid), (proj2 (Z.eqb_neq _ _) Hid'), (proj2 (Z.eqb_neq _ _) Hne). cbn [negb andb].
  step. intros M' ws' HM. done.
Qed.

(** *** Two nodes *)

Definition talker : node := {|
  name_ := str "c1"; namespace_ := str "lab"; regions_ := ∅; blackboards_ := ∅;
  registry_slots_ := ∅; registry_ := None; registry_disabled_ := false; registry_full_warned_ := false |}.
Definition listener : node := {|
  name_ := str "log"; namespace_ := str "lab"; regions_ := ∅; blackboards_ := ∅;
  registry_slots_ := ∅; registry_ := None; registry_disabled_ := false; registry_full_warned_ := false |}.
Definition roomy_size : Z := 1600.

(** Every named object can be created, and opened with the size of the region. *)
Definition lab_shm (L : Type) : SharedMemory L := {|
  shm_create := λ size, Ret size; shm_try_create := λ _, Ret true; shm_open := Ret roomy_size;
  shm_try_open := Ret (Some roomy_size); shm_unlink := Ret tt |}.

Definition lab_session : list Channel.call :=
  [Channel.Send 0 [1; 2]; Channel.Send 0 [3]; Channel.Receive 1; Channel.Receive 0; Channel.Send 0 [4];
   Channel.Send 0 [5]; Channel.Receive 0; Channel.Join; Channel.Leave 1].

(** The region of the broadcast channel [x], under the name of the topic [broadcast_x]. *)
Lemma broadcast_region : ∃ m, Stamping.headed channel.Broadcast
  (with_identity Channel.roomy_config (broadcast_identity listener (str "x"))) Channel.roomy_layout
  Stamping.quiet_os m.
Proof.
  destruct (Stamping.returns_stamp channel.Broadcast
    (with_identity Channel.roomy_config (broadcast_identity listener (str "x"))) (str "c1") Channel.roomy_layout
    (λ _, 255) Stamping.quiet_os [] (λ _ w', Stamping.headed channel.Broadcast
      (with_identity Channel.roomy_config (broadcast_identity listener (str "x"))) Channel.roomy_layout
      Stamping.quiet_os (w_mem w'))) as (n & [r|e] & w' & _ & Hh).
  - by constructor; vm_compute; intuition congruence.
  - reflexivity.
  - vm_compute; reflexivity.
  - intros m' Hst. by eapply Stamping.stamped_headed.
  - by exists (w_mem w').
  - done.
Qed.

Lemma collision_refused_witness :
  make_topic_name listener (str "broadcast_x") = make_broadcast_name listener (str "x") ∧
  ∃ m, wp (subscribe (H := lab_shm _) (λ _, lab_shm _) listener (str "broadcast_x"))
    (World (λ l, match l with InRegion _ l => m l | _ => 255 end) Stamping.quiet_os [])
    (λ r _, r = Exc (Exn runtime_error
      "Identity mismatch on existing region (shm name collision): /lab_broadcast_x")).
Proof.
  split; [vm_compute; reflexivity|]. destruct broadcast_region as [m Hh]. exists m. eapply wp_mono.
  - refine (collision_refused (λ _, lab_shm _) (lab_shm _) listener (str "broadcast_x")
      (str "/lab_broadcast_x") channel.Broadcast
      (with_identity Channel.roomy_config (broadcast_identity listener (str "x"))) (str "c1")
      Channel.roomy_layout roomy_size Stamping.quiet_os (λ l, match l with InRegion _ l => m l | _ => 255 end)
      Stamping.quiet_os [] _ _ _ _ _ Hh _ _ _ _ _ _).
    + vm_compute; reflexivity.
    + reflexivity.
    + by constructor; vm_compute; intuition congruence.
    + reflexivity.
    + vm_compute; reflexivity.
    + vm_compute; intuition congruence.
    + vm_compute; congruence.
    + intros w Q HQ. by apply returns_ret.
    + vm_compute; discriminate.
    + vm_compute; discriminate.
    + vm_compute; discriminate.
  - intros r w (-> & _). vm_compute. reflexivity.
Defined.

Lemma topic_is_channel_witness :
  wp ('(p, _) <- advertise (H := lab_shm _) (λ _, lab_shm _) talker (str "pose") Channel.roomy_config false ;;
      ss <- subscribe_all (λ _, lab_shm _) (lab_shm _) [listener; listener] (str "pose") [] ;;
      on_region (str "/lab_pose") (Channel.perform_all (geometry_of_layout Channel.roomy_config Channel.roomy_layout)
        lab_session {| Channel.pubs := [p]; Channel.subs := ss |}))
    (World (λ _, 255) Stamping.quiet_os []) (λ r _, match r with
      | Val (replies, _) => replies =
          [Channel.Sent 2; Channel.Sent 1; Channel.Received (Some [1; 2]) 0; Channel.Received (Some [1; 2]) 0;
           Channel.Sent 1; Channel.Sent 1; Channel.Received (Some [4]) 1; Channel.Joined false; Channel.Left]
      | Exc e => exn_kind_of e = version_mismatch
      end).
Proof.
  eapply wp_mono.
  - refine (topic_is_channel (λ _, lab_shm _) (lab_shm _) talker [listener; listener] (str "pose")
      Channel.roomy_config (str "/lab_pose") Channel.roomy_layout roomy_size false lab_session (λ _, 255)
      Stamping.quiet_os [] _ _ _ Channel.roomy_typed _ _ _ _ _ _ _ _ _ _ _ _).
    + done.
    + done.
    + vm_compute; reflexivity.
    + reflexivity.
    + vm_compute; reflexivity.
    + vm_compute; intuition congruence.
    + vm_compute; congruence.
    + intros w Q HQ. by apply returns_ret.
    + intros w Q HQ. by apply returns_ret.
    + reflexivity.
    + reflexivity.
    + repeat constructor.
    + vm_compute; congruence.
    + reflexivity.
    + reflexivity.
  - intros [[rs e]|e] w; [|done]. intros ->. vm_compute. reflexivity.
Defined.
End Network.
