(* ===== verification/Probe.v ===== *)
(** * Probing a process ([src/os/linux/Process.cc], [src/os/posix/Process.cc],
    [src/os/darwin/Process.cc])

    What Linux tells of a process: [process_probe] parses [/proc/<pid>/stat] and
    [process_exists] sends signal 0.  Reading the file and [kill] are system
    calls, parameters of the definitions.  Text is a list of bytes. *)

From S2P Require Import Prelude Prog Hash Text.

Module Probe.

(** ** Walking the line *)

Definition CLOSE_PAREN : Z := 41.
Definition LETTER_Z : Z := 90.

(** What follows the last [')'] ([strrchr] and the [+ 1]). *)
Fixpoint after_last_paren (s : list Z) : option (list Z) :=
  match s with
  | [] => None
  | c :: s =>
      match after_last_paren s with
      | Some t => Some t
      | None => if c =? CLOSE_PAREN then Some s else None
      end
  end.

(** [while ( *p == ' ') ++p] *)
Fixpoint skip_spaces (s : list Z) : list Z :=
  match s with
  | c :: t => if c =? SPACE then skip_spaces t else s
  | [] => []
  end.

(** [while ( *p != '\0' and *p != ' ') ++p] *)
Fixpoint skip_word (s : list Z) : list Z :=
  match s with
  | c :: t => if c =? SPACE then s else skip_word t
  | [] => []
  end.

Fixpoint skip_fields (n : nat) (s : list Z) : list Z :=
  match n with
  | O => s
  | S n => skip_fields n (skip_spaces (skip_word s))
  end.

(** [sscanf(p, "%llu", &v)]: the value converted, with [strtoull]'s sign and
    saturation, or nothing when no digit comes first. *)
Definition scan_llu (s : list Z) : option Z :=
  let s := skip_isspace s in
  let '(negative, s) := match s with
    | c :: t => if c =? 45 then (true, t) else if c =? 43 then (false, t) else (false, s)
    | [] => (false, s)
    end in
  match s with
  | c :: _ =>
      if isdigit c then
        let v := scan_digits s 0 in
        Some (if 18446744073709551615 <? v then 18446744073709551615
              else if negative : bool then u64 (- v) else v)
      else None
  | [] => None
  end.

(** ** The probes *)

Section probes.
(** The contents of a file, when it can be opened; what [kill(pid, 0)] answers:
    0, or an error number. *)
Context (read_file : list Z → option (list Z)) (kill : Z → Z).

Definition stat_path (pid : Z) : list Z := str "/proc/" ++ decimal pid ++ str "/stat".

Definition process_probe (pid : Z) : Z * bool :=
  if pid =? 0 then (0, false)
  else
    match read_file (stat_path pid) with
    | None => (0, false)
    | Some contents =>
        let buf := take 511 contents in
        if bool_decide (buf = []) then (0, false)
        else
          match after_last_paren (c_string buf) with
          | None => (0, false)
          | Some p =>
              let p := skip_spaces p in
              let exited := hd 0 p =? LETTER_Z in
              match scan_llu (skip_fields 19 p) with
              | None => (0, exited)
              | Some starttime => (starttime, exited)
              end
          end
    end.

Definition EPERM : Z := 1.

(** A [pid_t] is a signed 32-bit integer. *)
Definition to_pid_t (pid : Z) : Z := (pid + 2147483648) mod 4294967296 - 2147483648.

Definition process_exists (pid : Z) : bool :=
  if pid =? 0 then false
  else
    let rc := kill (to_pid_t pid) in
    (rc =? 0) || (rc =? EPERM).
End probes.

(** ** Darwin *)

(** What [kinfo_proc] says: the state, and the start time. *)
Record kinfo_proc := KinfoProc { p_stat : Z; tv_sec : Z; tv_usec : Z }.

Definition SZOMB : Z := 5.

(** [sysctl] on a pid: nothing when it fails, else the length and the contents. *)
Definition darwin_process_probe (sysctl : Z → option (Z * kinfo_proc)) (pid : Z) : Z * bool :=
  if pid =? 0 then (0, false)
  else
    match sysctl (to_pid_t pid) with
    | None => (0, false)
    | Some (len, kp) =>
        if len =? 0 then (0, false)
        else (u64 (u64 (u64 (tv_sec kp) * 1000000) + u64 (tv_usec kp)), p_stat kp =? SZOMB)
    end.

(** ** What the parser finds *)

(** One line of [/proc/<pid>/stat]: the command in parentheses, the state, the
    fields between, the start time and what follows. *)
Definition stat_line (pid : Z) (comm : list Z) (state : Z) (between : list (list Z)) (starttime : Z) (rest : list Z) :=
  decimal pid ++ [SPACE; 40] ++ comm ++ [CLOSE_PAREN; SPACE; state; SPACE] ++
  concat (map (λ f, f ++ [SPACE]) between) ++ decimal starttime ++ rest.

(** A byte that neither ends the text nor looks like the end of the command. *)
Definition plain (c : Z) : Prop := c ≠ 0 ∧ c ≠ CLOSE_PAREN.
Definition word_byte (c : Z) : Prop := plain c ∧ c ≠ SPACE.

Lemma no_paren_after s : Forall (λ c, c ≠ CLOSE_PAREN) s → after_last_paren s = None.
Proof. induction 1 as [|c s Hc _ IH]; cbn; [done|]. rewrite IH. by rewrite (proj2 (Z.eqb_neq c _)). Qed.

Lemma last_paren_found a b : Forall (λ c, c ≠ CLOSE_PAREN) b → after_last_paren (a ++ CLOSE_PAREN :: b) = Some b.
Proof.
  intros Hb. induction a as [|c a IH]; cbn [app after_last_paren]; [|by rewrite IH].
  by rewrite no_paren_after.
Qed.

Lemma skip_word_of w t : Forall (λ c, c ≠ SPACE) w → skip_word (w ++ SPACE :: t) = SPACE :: t.
Proof. induction 1 as [|c w Hc _ IH]; cbn; [done|]. by rewrite (proj2 (Z.eqb_neq c _)). Qed.

Lemma skip_spaces_word c t : c ≠ SPACE → skip_spaces (c :: t) = c :: t.
Proof. intros Hc. cbn. by rewrite (proj2 (Z.eqb_neq c _)). Qed.

Lemma skip_fields_over between c t :
  Forall (λ f, f ≠ [] ∧ Forall (λ c, c ≠ SPACE) f) between → c ≠ SPACE →
  skip_fields (length between) (concat (map (λ f, f ++ [SPACE]) between) ++ c :: t) = c :: t.
Proof.
  intros Hb Hc. induction Hb as [|f between [_ Hf] Hb IH]; [done|]. cbn [length skip_fields map concat].
  rewrite <- !app_assoc. cbn [app]. rewrite skip_word_of by done.
  change (skip_spaces (SPACE :: ?x)) with (skip_spaces x).
  rewrite <- IH at 2. f_equal. destruct Hb as [|f' between [Hne Hf'] _]; cbn; [by rewrite (proj2 (Z.eqb_neq c _))|].
  destruct f' as [|c' f']; [done|]. apply Forall_cons in Hf' as [Hc' _]. cbn.
  by rewrite (proj2 (Z.eqb_neq c' _)).
Qed.

Lemma scan_decimal v t :
  0 <= v < 18446744073709551616 → (∀ c, head t = Some c → isdigit c = false) →
  scan_llu (decimal v ++ t) = Some v.
Proof.
  intros Hv Ht. assert (10 ^ Z.of_nat 20 = 100000000000000000000) as Hp by reflexivity.
  pose proof (decimal_digits 20 v ltac:(lia)) as Hd. pose proof (decimal_value 20 v ltac:(lia)) as Hval.
  fold (decimal v) in *. destruct (decimal_nonempty v) as (c & ds & E). rewrite E in *.
  pose proof (proj1 (proj1 (Forall_cons _ _ _) Hd)) as Hc. unfold isdigit in Hc.
  apply andb_true_iff in Hc as [H1%Z.leb_le H2%Z.leb_le].
  unfold scan_llu. cbn [app skip_isspace]. unfold isspace, SPACE.
  rewrite (proj2 (Z.eqb_neq c 32)), (proj2 (Z.leb_gt c 13)), andb_false_r by lia. cbn [orb].
  rewrite (proj2 (Z.eqb_neq c 45)), (proj2 (Z.eqb_neq c 43)) by lia. unfold isdigit at 1.
  rewrite (proj2 (Z.leb_le 48 c)), (proj2 (Z.leb_le c 57)) by lia. cbn [andb].
  change (c :: ds ++ t) with ((c :: ds) ++ t). rewrite scan_digits_app, Hval by done.
  assert (scan_digits t v = v) as ->.
  { destruct t as [|d t]; [done|]. cbn. by rewrite Ht. }
  by rewrite (proj2 (Z.ltb_ge _ _)) by lia.
Qed.

Lemma digits_plain v : 0 <= v → Forall (λ c, plain c ∧ c ≠ SPACE ∧ isdigit c = true) (decimal v).
Proof.
  intros Hv. eapply Forall_impl; [by apply decimal_digits|]. intros c Hc. pose proof Hc as Hd. unfold isdigit in Hd.
  apply andb_true_iff in Hd as [H1%Z.leb_le H2%Z.leb_le]. unfold plain, CLOSE_PAREN, SPACE. split_and!; lia || done.
Qed.

(** The bytes after the command hold no parenthesis and no NUL. *)
Lemma tail_plain state between starttime rest :
  word_byte state → Forall (λ f, f ≠ [] ∧ Forall word_byte f) between → 0 <= starttime → Forall plain rest →
  Forall plain (SPACE :: state :: SPACE :: concat (map (λ f, f ++ [SPACE]) between) ++ decimal starttime ++ rest).
Proof.
  intros [Hs _] Hb Hst Hrest. assert (plain SPACE) as Hsp by done.
  do 3 (apply Forall_cons; split; [done|]). apply Forall_app. split.
  - induction Hb as [|f between [_ Hf] _ IH]; [constructor|]. cbn [map concat]. rewrite !Forall_app. split; [split|done].
    + eapply Forall_impl; [exact Hf|]. by intros c [Hc _].
    + by constructor.
  - apply Forall_app. split; [|done]. eapply Forall_impl; [by apply digits_plain|]. by intros c (Hc & _).
Qed.

(** The parse itself, on a line without NULs. *)
Lemma parse_line pid comm state between starttime rest :
  word_byte state → length between = 18%nat → Forall (λ f, f ≠ [] ∧ Forall word_byte f) between →
  0 <= starttime < 18446744073709551616 → Forall plain rest → (∀ c, head rest = Some c → isdigit c = false) →
  ∃ p, after_last_paren (stat_line pid comm state between starttime rest) = Some p ∧
    hd 0 (skip_spaces p) = state ∧ scan_llu (skip_fields 19 (skip_spaces p)) = Some starttime.
Proof.
  intros Hstate Hlen Hb Hst Hrest Hnd. pose proof (tail_plain state between starttime rest Hstate Hb ltac:(lia) Hrest) as Ht.
  set (tail := concat (map (λ f, f ++ [SPACE]) between) ++ decimal starttime ++ rest) in *.
  exists (SPACE :: state :: SPACE :: tail). split; [|split].
  - unfold stat_line. fold tail. rewrite !app_assoc. rewrite <- (app_assoc _ _ tail). cbn [app].
    apply last_paren_found. eapply Forall_impl; [exact Ht|]. by intros c [_ Hc].
  - change (skip_spaces (SPACE :: ?x)) with (skip_spaces x). by rewrite skip_spaces_word by apply Hstate.
  - change (skip_spaces (SPACE :: ?x)) with (skip_spaces x). rewrite skip_spaces_word by apply Hstate. unfold tail.
    destruct (decimal_nonempty starttime) as (c & ds & E).
    assert (c ≠ SPACE) as Hc.
    { pose proof (digits_plain starttime ltac:(lia)) as Hd. rewrite E in Hd. by apply Forall_cons in Hd as [(_ & ? & _) _]. }
    rewrite <- (scan_decimal starttime rest Hst Hnd), E. cbn [app].
    pose proof (skip_fields_over ([state] :: between) c (ds ++ rest)) as Hskip. cbn [length map concat app] in Hskip.
    rewrite Hlen in Hskip. rewrite Hskip; [done| |done].
    constructor; [split; [done|repeat constructor; apply Hstate]|].
    eapply Forall_impl; [exact Hb|]. intros f [Hne Hf]. split; [done|]. eapply Forall_impl; [exact Hf|]. by intros ? [].
Qed.

Lemma line_nonzero pid comm state between starttime rest :
  0 <= pid → Forall (λ c, c ≠ 0) comm → word_byte state → Forall (λ f, f ≠ [] ∧ Forall word_byte f) between →
  0 <= starttime → Forall plain rest → Forall (λ c, c ≠ 0) (stat_line pid comm state between starttime rest).
Proof.
  intros Hpid Hcomm Hstate Hb Hst Hrest. pose proof (tail_plain state between starttime rest Hstate Hb Hst Hrest) as Ht.
  unfold stat_line. rewrite Forall_app. split.
  { eapply Forall_impl; [by apply digits_plain|]. by intros c ([? _] & _). }
  cbn [app]. do 2 (apply Forall_cons; split; [done|]). apply Forall_app. split; [done|].
  apply Forall_cons. split; [done|]. eapply Forall_impl; [exact Ht|]. by intros c [].
Qed.

Lemma take_line pid comm state between starttime rest n :
  (length (stat_line pid comm state between starttime []) <= n)%nat →
  take n (stat_line pid comm state between starttime rest) =
  stat_line pid comm state between starttime (take (n - length (stat_line pid comm state between starttime [])) rest).
Proof.
  intros Hfit. assert (∀ r, stat_line pid comm state between starttime r = stat_line pid comm state between starttime [] ++ r) as Happ.
  { intros r. unfold stat_line. by rewrite <- !app_assoc, app_nil_l. }
  rewrite (Happ rest), (Happ (take _ rest)). by rewrite take_app_ge by done.
Qed.

(** The whole probe. *)
Lemma process_probe_line read_file pid comm state between starttime rest :
  0 < pid → read_file (stat_path pid) = Some (stat_line pid comm state between starttime rest) →
  Forall (λ c, c ≠ 0) comm → word_byte state → length between = 18%nat →
  Forall (λ f, f ≠ [] ∧ Forall word_byte f) between → 0 <= starttime < 18446744073709551616 →
  Forall plain rest → (∀ c, head rest = Some c → isdigit c = false) →
  (length (stat_line pid comm state between starttime []) <= 511)%nat →
  process_probe read_file pid = (starttime, state =? LETTER_Z).
Proof.
  intros Hpid Hread Hcomm Hstate Hlen Hb Hst Hrest Hnd Hfit. unfold process_probe.
  rewrite (proj2 (Z.eqb_neq pid 0)), Hread, take_line by (lia || done). set (rest' := take _ rest).
  assert (Forall plain rest') as Hrest' by (by apply Forall_take).
  assert (∀ c, head rest' = Some c → isdigit c = false) as Hnd'.
  { intros c Hc. apply Hnd. unfold rest' in Hc. by destruct (511 - _)%nat, rest. }
  rewrite bool_decide_eq_false_2.
  2: { unfold stat_line. destruct (decimal_nonempty pid) as (c & t & ->). done. }
  rewrite c_string_whole by (apply line_nonzero; lia || done).
  destruct (parse_line pid comm state between starttime rest') as (p & -> & Hhd & Hscan); [done..|].
  cbn zeta. by rewrite Hscan, Hhd.
Qed.

(** ** Properties *)

(** C35. Whatever bytes a process puts in its name, [process_probe] reads its state
    and its start time from the line the kernel writes for it. *)
Theorem probe_reads_stat read_file pid comm state between starttime rest :
  0 < pid → read_file (stat_path pid) = Some (stat_line pid comm state between starttime rest) →
  Forall (λ c, c ≠ 0) comm → word_byte state → length between = 18%nat →
  Forall (λ f, f ≠ [] ∧ Forall word_byte f) between → 0 <= starttime < 18446744073709551616 →
  Forall plain rest → (∀ c, head rest = Some c → isdigit c = false) →
  (length (stat_line pid comm state between starttime []) <= 511)%nat →
  process_probe read_file pid = (starttime, state =? LETTER_Z).
Proof. exact (process_probe_line read_file pid comm state between starttime rest). Qed.

(** A shell whose name is [") Z 1 "], running since tick 4242. *)
Definition shell_line : list Z :=
  str "77 () Z 1 ) S 1 77 77 0 -1 4194560 100 0 0 0 1 2 0 0 20 0 1 0 4242 1000 0".

Lemma probe_reads_stat_witness : process_probe (λ _, Some shell_line) 77 = (4242, false).
Proof.
  assert (shell_line = stat_line 77 (str ") Z 1 ") 83 (map str
    ["1"; "77"; "77"; "0"; "-1"; "4194560"; "100"; "0"; "0"; "0"; "1"; "2"; "0"; "0"; "20"; "0"; "1"; "0"]) 4242
    (str " 1000 0")) as E by (vm_compute; reflexivity).
  refine (probe_reads_stat (λ _, Some shell_line) 77 (str ") Z 1 ") 83 _ 4242 (str " 1000 0") _ (f_equal Some E) _ _ _ _ _ _ _ _).
  - lia.
  - vm_compute. repeat constructor; discriminate.
  - vm_compute. intuition discriminate.
  - reflexivity.
  - vm_compute. repeat first [apply Forall_cons; split|apply Forall_nil|split|discriminate].
  - lia.
  - vm_compute. repeat first [apply Forall_cons; split|apply Forall_nil|split|discriminate].
  - intros c [= <-]. reflexivity.
  - apply Nat.leb_le. vm_compute. reflexivity.
Defined.
End Probe.
