(* ===== verification/Syscalls.v ===== *)
(** * System calls

    Code that calls the operating system: a method reads and writes the object it
    is called on, [errno] and the kernel, and returns a value or throws.  [does]
    says what a method does whatever the kernel answers, from what is documented
    of each call in terms of a [view] of the kernel's state. *)

From stdpp Require Import gmap.
From S2P Require Import Prelude.

(** What a method runs in: the object it is called on, [errno] and the kernel. *)
Record process (H K : Type) := Process { this : H; errno : Z; sys : K }.
Arguments Process {H K}. Arguments this {H K}. Arguments errno {H K}. Arguments sys {H K}.

Section methods.
Context {H E K : Type}.

(** [E]: what it throws. *)
Definition io (A : Type) : Type := process H K → (A + E) * process H K.

Definition io_ret {A} (a : A) : io A := λ p, (inl a, p).
Definition io_bind {A B} (m : io A) (f : A → io B) : io B := λ p,
  match m p with
  | (inl a, p) => f a p
  | (inr e, p) => (inr e, p)
  end.

Definition throw {A} (e : E) : io A := λ p, (inr e, p).

(** [try { m } catch (...) { cleanup; throw; }] *)
Definition on_failure {A} (m : io A) (cleanup : io unit) : io A := λ p,
  match m p with
  | (inl a, p) => (inl a, p)
  | (inr e, p) => match cleanup p with (inl _, p) => (inr e, p) | (inr e', p) => (inr e', p) end
  end.

(** A system call: a failure sets [errno]. *)
Definition syscall {A} (f : K → (A + Z) * K) : io (option A) := λ p,
  match f (sys p) with
  | (inl a, k) => (inl (Some a), Process (this p) (errno p) k)
  | (inr e, k) => (inl None, Process (this p) e k)
  end.

(** A call that sets no error number. *)
Definition plain {A} (f : K → A * K) : io A := λ p,
  let '(a, k) := f (sys p) in (inl a, Process (this p) (errno p) k).

(** A call of Windows: the last error is what it leaves, on success too. *)
Definition api {A} (f : K → option A * Z * K) : io (option A) := λ p,
  let '(r, e, k) := f (sys p) in (inl r, Process (this p) e k).

Definition get : io H := λ p, (inl (this p), p).
Definition put (h : H) : io unit := λ p, (inl tt, Process h (errno p) (sys p)).
Definition get_errno : io Z := λ p, (inl (errno p), p).
End methods.
Arguments io : clear implicits.

Notation "x <~ m ;; f" := (io_bind m (λ x, f)) (at level 100, m at next level, right associativity).
Notation "m ;;~ f" := (io_bind m (λ _, f)) (at level 100, right associativity).

Section does.
Context {H E K V : Type} (view : K → V).
Implicit Types (h : H) (v : V).
Abbreviation post A := (A + E → H → Z → V → Prop).
Local Abbreviation io := (io H E K).

(** The outcome of a method on [h] with [errno] at [e], whatever the kernel answers. *)
Definition does {A} (m : io A) h e v (Q : post A) : Prop :=
  ∀ k, view k = v → let '(r, p) := m (Process h e k) in Q r (this p) (errno p) (view (sys p)).

Lemma does_mono {A} (m : io A) h e v (Q Q' : post A) :
  does m h e v Q → (∀ r h' e' v', Q r h' e' v' → Q' r h' e' v') → does m h e v Q'.
Proof. intros Hm HQ k Hk. specialize (Hm k Hk). destruct (m _) as [r p]. by apply HQ. Qed.

Lemma does_ret {A} (a : A) h e v (Q : post A) : Q (inl a) h e v → does (io_ret a) h e v Q.
Proof. by intros HQ k <-. Qed.

Lemma does_bind {A B} (m : io A) (f : A → io B) h e v (Q : post B) :
  does m h e v (λ r h' e' v', match r with inl a => does (f a) h' e' v' Q | inr x => Q (inr x) h' e' v' end) →
  does (io_bind m f) h e v Q.
Proof.
  intros Hm k Hk. specialize (Hm k Hk). unfold io_bind. destruct (m _) as [[a|x] [h' e' k']]; [|done].
  by apply (Hm k').
Qed.

Lemma does_get h e v (Q : post H) : Q (inl h) h e v → does get h e v Q.
Proof. by intros HQ k <-. Qed.
Lemma does_put h h' e v (Q : post unit) : Q (inl tt) h' e v → does (put h') h e v Q.
Proof. by intros HQ k <-. Qed.
Lemma does_errno h e v (Q : post Z) : Q (inl e) h e v → does get_errno h e v Q.
Proof. by intros HQ k <-. Qed.
Lemma does_throw {A} (x : E) h e v (Q : post A) : Q (inr x) h e v → does (throw x) h e v Q.
Proof. by intros HQ k <-. Qed.

Lemma does_on_failure {A} (m : io A) (cleanup : io unit) h e v (Q : post A) :
  does m h e v (λ r h' e' v', match r with
    | inl a => Q (inl a) h' e' v'
    | inr x => does cleanup h' e' v' (λ r, match r with inl _ => Q (inr x) | inr x' => Q (inr x') end)
    end) → does (on_failure m cleanup) h e v Q.
Proof.
  intros Hm k Hk. specialize (Hm k Hk). unfold on_failure. destruct (m _) as [[a|x] [h' e' k']]; [done|].
  specialize (Hm k' eq_refl). by destruct (cleanup _) as [[?|?] ?].
Qed.

Lemma does_syscall {A} (f : K → (A + Z) * K) h e v (Q : post (option A)) :
  (∀ k, view k = v → match f k with
    | (inl a, k') => Q (inl (Some a)) h e (view k')
    | (inr x, k') => Q (inl None) h x (view k')
    end) → does (syscall f) h e v Q.
Proof. intros Hf k Hk. specialize (Hf k Hk). unfold syscall. cbn [sys this errno]. by destruct (f k) as [[a|x] k']. Qed.

Lemma does_plain {A} (f : K → A * K) h e v (Q : post A) :
  (∀ k, view k = v → let '(a, k') := f k in Q (inl a) h e (view k')) → does (plain f) h e v Q.
Proof. intros Hf k Hk. specialize (Hf k Hk). unfold plain. cbn [sys]. by destruct (f k). Qed.

Lemma does_api {A} (f : K → option A * Z * K) h e v (Q : post (option A)) :
  (∀ k, view k = v → let '(r, x, k') := f k in Q (inl r) h x (view k')) → does (api f) h e v Q.
Proof. intros Hf k Hk. specialize (Hf k Hk). unfold api. cbn [sys]. by destruct (f k) as [[r x] k']. Qed.
End does.

(** ** Fresh keys, for the kernels of examples *)

(** More than every key. *)
Definition above {A} (m : gmap Z A) : Z := map_fold (λ k _ acc, Z.max acc (k + 1)) 1 m.

Lemma above_spec {A} (m : gmap Z A) : 1 <= above m ∧ ∀ k, is_Some (m !! k) → k < above m.
Proof.
  unfold above. apply (map_fold_weak_ind (λ r m, 1 <= r ∧ ∀ k, is_Some (m !! k) → k < r)).
  - split; [done|]. intros k [x Hx]. by rewrite lookup_empty in Hx.
  - intros i x m' r _ [Hr IH]. split; [lia|]. intros k [y Hk]. apply lookup_insert_Some in Hk as [[-> _]|[_ Hk]]; [lia|].
    pose proof (IH k (mk_is_Some _ _ Hk)). lia.
Qed.

Lemma above_fresh {A} (m : gmap Z A) : m !! above m = None.
Proof. apply eq_None_not_Some. intros Hs. pose proof (proj2 (above_spec m) _ Hs). lia. Qed.
