(* ===== verification/WinProbe.v ===== *)
(** * Probing a process on Windows ([src/os/windows/Process.cc])

    The calls are a parameter ([ProcessCalls]) and [Documented] is what is documented
    of them, for a table of processes that does not change while one probe runs.  A
    probe keeps no handle, and what it says is in the table. *)

From stdpp Require Import gmap.
From S2P Require Import Prelude Prog Syscalls.

(** The calls: null is [None]; a [FILETIME] is its high and low words. *)
Class ProcessCalls (K : Type) := {
  OpenProcess : Z → Z → K → option Z * Z * K;                 (** rights, process id *)
  WaitForSingleObject : Z → Z → K → Z * K;                    (** handle, milliseconds *)
  GetProcessTimes : Z → K → option (Z * Z) * Z * K;           (** creation time *)
  CloseHandle : Z → K → option unit * Z * K
}.

Module WinProbe.
Definition PROCESS_QUERY_LIMITED_INFORMATION : Z := 4096.
Definition SYNCHRONIZE : Z := 1048576.
Definition WAIT_OBJECT_0 : Z := 0.
Definition ERROR_ACCESS_DENIED : Z := 5.

Section probes.
Context {K : Type} `{ProcessCalls K}.
Local Abbreviation io := (io unit Empty_set K).

(** The end of a probe, when a handle was granted. *)
Definition creation_time (h : Z) (exited : bool) : io (Z * bool) :=
  times <~ api (GetProcessTimes h) ;;
  api (CloseHandle h) ;;~
  match times with
  | None => io_ret (0, exited)
  | Some (high, low) => io_ret (Z.lor (Z.shiftl high 32) low, exited)
  end.

Definition process_probe (pid : Z) : io (Z * bool) :=
  if pid =? 0 then io_ret (0, false)
  else
    h <~ api (OpenProcess (Z.lor PROCESS_QUERY_LIMITED_INFORMATION SYNCHRONIZE) (u32 pid)) ;;
    match h with
    | None =>
        h <~ api (OpenProcess PROCESS_QUERY_LIMITED_INFORMATION (u32 pid)) ;;
        match h with
        | None => io_ret (0, false)
        | Some h => creation_time h false
        end
    | Some h =>
        w <~ plain (WaitForSingleObject h 0) ;;
        creation_time h (w =? WAIT_OBJECT_0)
    end.

Definition process_exists (pid : Z) : io bool :=
  if pid =? 0 then io_ret false
  else
    h <~ api (OpenProcess PROCESS_QUERY_LIMITED_INFORMATION (u32 pid)) ;;
    match h with
    | Some h => api (CloseHandle h) ;;~ io_ret true
    | None => e <~ get_errno ;; io_ret (e =? ERROR_ACCESS_DENIED)
    end.
End probes.

(** ** What Windows documents *)

(** The processes: creation time, and whether they have exited; and the handles of
    the caller: process id and rights. *)
Record table := Table { procs : gmap Z (Z * bool); handles : gmap Z (Z * Z) }.

Definition with_handles (f : gmap Z (Z * Z) → gmap Z (Z * Z)) (v : table) : table := Table (procs v) (f (handles v)).

Class Documented {K} `{ProcessCalls K} (view : K → table) : Prop := {
  doc_open rights pid k :
    match OpenProcess rights pid k with
    | (None, e, k') => view k' = view k ∧ (e = ERROR_ACCESS_DENIED ↔ is_Some (procs (view k) !! pid))
    | (Some h, _, k') => handles (view k) !! h = None ∧ is_Some (procs (view k) !! pid) ∧
        view k' = with_handles (insert h (pid, rights)) (view k)
    end;
  doc_wait h pid rights k : handles (view k) !! h = Some (pid, rights) → Z.land rights SYNCHRONIZE ≠ 0 →
    let '(w, k') := WaitForSingleObject h 0 k in
    view k' = view k ∧ (w = WAIT_OBJECT_0 ↔ ∃ s, procs (view k) !! pid = Some (s, true));
  doc_times h pid rights k : handles (view k) !! h = Some (pid, rights) →
    match GetProcessTimes h k with
    | (None, _, k') => view k' = view k
    | (Some (high, low), _, k') => view k' = view k ∧ 0 <= high < 4294967296 ∧ 0 <= low < 4294967296 ∧
        ∃ z, procs (view k) !! pid = Some (high * 4294967296 + low, z)
    end;
  doc_close h k : view (CloseHandle h k).2 = with_handles (delete h) (view k)
}.

Section laws.
Context {K : Type} `{ProcessCalls K} (view : K → table) `{!Documented view}.
Implicit Types (v : table).
Abbreviation post A := (A + Empty_set → unit → Z → table → Prop).

Lemma handle_closed h m v : handles v !! h = None → with_handles (delete h) (with_handles (insert h m) v) = v.
Proof. intros Hf. destruct v. unfold with_handles. cbn in *. by rewrite delete_insert_id. Qed.

Lemma does_close_handle h m e v (Q : post (option unit)) :
  handles v !! h = None → (∀ r e', Q (inl r) tt e' v) →
  does view (api (CloseHandle h)) tt e (with_handles (insert h m) v) Q.
Proof.
  intros Hf HQ. apply does_api. intros k Hk. pose proof (doc_close h k) as Hc. rewrite Hk, handle_closed in Hc by done.
  destruct (CloseHandle h k) as [[r x] k']. cbn [snd] in Hc. rewrite Hc. apply HQ.
Qed.

(** The handle is given back, and a time that is read is that of the process. *)
Lemma does_creation_time h pid rights exited e v (Q : post (Z * bool)) :
  handles v !! h = None →
  (∀ s e', (s ≠ 0 → ∃ z, procs v !! pid = Some (s, z)) → Q (inl (s, exited)) tt e' v) →
  does view (creation_time h exited) tt e (with_handles (insert h (pid, rights)) v) Q.
Proof.
  intros Hf HQ. unfold creation_time. apply does_bind, does_api. intros k Hk.
  pose proof (doc_times h pid rights k) as Ht. rewrite Hk in Ht. specialize (Ht (lookup_insert_eq _ _ _)).
  destruct (GetProcessTimes h k) as [[[[high low]|] x] k'].
  - destruct Ht as (-> & Hh & Hl & z & Hz). apply does_bind, does_close_handle; [done|]. intros r e'. apply does_ret, HQ.
    intros _. exists z. by rewrite lor_shift_add by (change (2 ^ 32) with 4294967296; lia).
  - rewrite Ht. apply does_bind, does_close_handle; [done|]. intros r e'. by apply does_ret, HQ.
Qed.

(** What a probe says is so, no handle is kept, and an exit is seen by who may wait
    on the process. *)
Lemma process_probe_spec pid e k :
  0 < pid < 4294967296 →
  let '(r, p) := process_probe pid (Process tt e k) in
  let procs := procs (view k) in
  view (sys p) = view k ∧
  match r with
  | inl (s, z) =>
      (z = true → ∃ s', procs !! pid = Some (s', true)) ∧ (s ≠ 0 → ∃ z', procs !! pid = Some (s, z')) ∧
      (is_Some (OpenProcess (Z.lor PROCESS_QUERY_LIMITED_INFORMATION SYNCHRONIZE) pid k).1.1 →
       (∃ s', procs !! pid = Some (s', true)) → z = true)
  | inr _ => False
  end.
Proof.
  intros Hpid. assert (u32 pid = pid) as Hu by (unfold u32; by apply Z.mod_small; lia). unfold process_probe.
  rewrite (proj2 (Z.eqb_neq pid 0)), Hu by lia. unfold io_bind at 1, api at 1. cbn [sys this].
  set (rights := Z.lor _ _). pose proof (doc_open rights pid k) as Ho.
  destruct (OpenProcess rights pid k) as [[[h|] x] k1]; cbn [fst].
  - destruct Ho as (Hf & Hex & Hv). pose proof (doc_wait h pid rights k1) as Hw. rewrite Hv in Hw.
    specialize (Hw (lookup_insert_eq _ _ _) ltac:(done)). unfold io_bind at 1, plain at 1. cbn [sys this errno].
    destruct (WaitForSingleObject h 0 k1) as [w k2]. destruct Hw as [Hv2 Hw].
    assert (∀ z, z = (w =? WAIT_OBJECT_0) → (z = true ↔ ∃ s', procs (view k) !! pid = Some (s', true))) as Hz.
    { intros z ->. by rewrite Z.eqb_eq. }
    refine (does_creation_time h pid rights (w =? WAIT_OBJECT_0) x (view k) (λ r _ _ v', v' = view k ∧ match r with
      | inl (s, z) => _ | inr _ => False end) Hf _ k2 Hv2).
    intros s e' Hs. split; [done|]. cbn beta iota. split_and!; [by apply Hz|exact Hs|]. intros _. by apply Hz.
  - destruct Ho as [Hv _]. unfold io_bind at 1, api at 1. cbn [sys this].
    pose proof (doc_open PROCESS_QUERY_LIMITED_INFORMATION pid k1) as Ho. rewrite Hv in Ho.
    destruct (OpenProcess PROCESS_QUERY_LIMITED_INFORMATION pid k1) as [[[h|] x2] k2].
    + destruct Ho as (Hf & _ & Hv2).
      refine (does_creation_time h pid _ false x2 (view k) (λ r _ _ v', v' = view k ∧ match r with
        | inl (s, z) => _ | inr _ => False end) Hf _ k2 Hv2).
      intros s e' Hs. split; [done|]. cbn beta iota. split_and!; [done|exact Hs|]. by intros [? [=]].
    + destruct Ho as [Hv2 _]. cbn. split; [done|]. split_and!; [done|done|]. by intros [? [=]].
Qed.

(** Whether there is a process of that id, and no handle is kept. *)
Lemma process_exists_spec pid e k :
  0 < pid < 4294967296 →
  let '(r, p) := process_exists pid (Process tt e k) in
  view (sys p) = view k ∧ match r with inl b => b = true ↔ is_Some (procs (view k) !! pid) | inr _ => False end.
Proof.
  intros Hpid. assert (u32 pid = pid) as Hu by (unfold u32; by apply Z.mod_small; lia). unfold process_exists.
  rewrite (proj2 (Z.eqb_neq pid 0)), Hu by lia. unfold io_bind at 1, api at 1. cbn [sys this].
  pose proof (doc_open PROCESS_QUERY_LIMITED_INFORMATION pid k) as Ho.
  destruct (OpenProcess PROCESS_QUERY_LIMITED_INFORMATION pid k) as [[[h|] x] k1].
  - destruct Ho as (Hf & Hex & Hv). refine (_ (does_close_handle h _ x (view k) (λ _ _ _ v', v' = view k) Hf _ k1 Hv)); [|done].
    unfold io_bind. destruct (api (CloseHandle h) _) as [[r|[]] [[] e2 k2]]. cbn. by intros ->.
  - destruct Ho as [Hv Hx]. cbn. split; [done|]. by rewrite Z.eqb_eq.
Qed.
End laws.

(** ** A system *)

Definition ERROR_INVALID_PARAMETER : Z := 87.
Definition ERROR_INVALID_HANDLE : Z := 6.
Definition WAIT_TIMEOUT : Z := 258.

(** Processes and handles, with a plan of which handles are refused. *)
Record toy := Toy { toy_table : table; plan : list bool }.

#[export] Instance toy_calls : ProcessCalls toy := {
  OpenProcess rights pid t :=
    match procs (toy_table t) !! pid, plan t with
    | None, _ => (None, ERROR_INVALID_PARAMETER, t)
    | Some _, true :: rest => (None, ERROR_ACCESS_DENIED, Toy (toy_table t) rest)
    | Some _, rest =>
        let h := above (handles (toy_table t)) in
        (Some h, 0, Toy (with_handles (insert h (pid, rights)) (toy_table t)) (tail rest))
    end;
  WaitForSingleObject h _ t :=
    match handles (toy_table t) !! h ≫= λ r, procs (toy_table t) !! r.1 with
    | Some (_, true) => (WAIT_OBJECT_0, t)
    | _ => (WAIT_TIMEOUT, t)
    end;
  GetProcessTimes h t :=
    match handles (toy_table t) !! h ≫= λ r, procs (toy_table t) !! r.1 with
    | Some (s, _) =>
        if bool_decide (0 <= s < 18446744073709551616) then (Some (s / 4294967296, s mod 4294967296), 0, t)
        else (None, ERROR_INVALID_HANDLE, t)
    | None => (None, ERROR_INVALID_HANDLE, t)
    end;
  CloseHandle h t := (Some tt, 0, Toy (with_handles (delete h) (toy_table t)) (plan t))
}.

#[export] Instance toy_documented : Documented toy_table.
Proof.
  split; cbn [OpenProcess WaitForSingleObject GetProcessTimes CloseHandle toy_calls].
  - intros rights pid t. destruct (procs (toy_table t) !! pid) as [sz|] eqn:Hp.
    + destruct (plan t) as [|[|] rest]; cbn; rewrite ?Hp; (split; [done || apply above_fresh|]); by split.
    + split; [done|]. by split; [|intros []].
  - intros h pid rights t Hh _. rewrite Hh. cbn. destruct (procs (toy_table t) !! pid) as [[s [|]]|] eqn:Hp; cbn;
      (split; [done|]); rewrite ?Hp; split; try done; try (by intros [s' [=]]). intros _. by exists s.
  - intros h pid rights t Hh. rewrite Hh. cbn. destruct (procs (toy_table t) !! pid) as [[s z]|] eqn:Hp; cbn; [|done].
    case_bool_decide; [|done]. split; [done|]. split; [lia|]. split; [lia|]. exists z. rewrite ?Hp. do 2 f_equal. lia.
  - done.
Qed.
End WinProbe.
