(* ===== verification/Liveness.v ===== *)
(** * Whether an owner is dead, on each platform

    [Process.owner_is_dead] asks the platform whether a process exists and what a
    probe of it says.  [Platform] is that interface and [Truthful] what a platform
    promises: the probes of Linux, Darwin and Windows keep the promise, given what
    is documented of the calls they make.  On top of it, and for every platform: an
    owner that runs is never declared dead, and one that is gone is. *)

From stdpp Require Import gmap.
From S2P Require Import Prelude Prog Hash Text Syscalls Process Probe WinProbe.

Module Liveness.
Import Process Probe WinProbe.

(** ** The interface *)

(** [W] is a moment in the life of the system, at which a call is made. *)
Class Platform (W : Type) := {
  process_exists_at : W → Z → bool;
  process_probe_at : W → Z → Z * bool
}.

(** [procs]: the start time of each process and whether it has exited.  [watchable]:
    the caller may learn that the process exits.  Process ids are below
    [PID_END]. *)
Class Truthful `{Platform W} (procs : W → Z → option (Z * bool)) (watchable : W → Z → Prop) (PID_END : Z) : Prop := {
  law_exists w pid : 0 < pid < PID_END → process_exists_at w pid = true ↔ is_Some (procs w pid);
  law_exited w pid : 0 < pid < PID_END → (process_probe_at w pid).2 = true → ∃ s, procs w pid = Some (s, true);
  law_starttime w pid : 0 < pid < PID_END → (process_probe_at w pid).1 ≠ 0 →
    ∃ z, procs w pid = Some ((process_probe_at w pid).1, z);
  law_watchable w pid : 0 < pid < PID_END → watchable w pid →
    (∃ s, procs w pid = Some (s, true)) → (process_probe_at w pid).2 = true
}.

(** ** The verdict *)

(** A program that only asks about processes, with the answers to each question. *)
Fixpoint answered {L A} (exists_ : Z → bool) (probe : Z → Z * bool) (p : prog L A) : option A :=
  match p with
  | Ret a => Some a
  | Act a k =>
      match a in act _ R return (R → option A) → option A with
      | ProcessExists pid => λ f, f (exists_ pid)
      | ProcessProbe pid => λ f, f (probe pid)
      | _ => λ _, None
      end (λ r, answered exists_ probe (k r))
  | _ => None
  end.

(** The verdict of a caller that asks at [w1] whether the process exists and probes
    it at [w2]. *)
Definition verdict `{Platform W} (w1 w2 : W) (pid recorded : Z) : option bool :=
  answered (process_exists_at w1) (process_probe_at w2) (Process.owner_is_dead (L := False) pid recorded).

Lemma verdict_cases `{Platform W} (w1 w2 : W) pid recorded : pid ≠ 0 →
  verdict w1 w2 pid recorded = Some (negb (process_exists_at w1 pid) || (process_probe_at w2 pid).2 ||
    negb ((recorded =? 0) || ((process_probe_at w2 pid).1 =? 0) || (recorded =? (process_probe_at w2 pid).1))).
Proof.
  intros Hp. unfold verdict, Process.owner_is_dead. rewrite (proj2 (Z.eqb_neq pid 0)) by done. cbn.
  destruct (process_exists_at w1 pid); [|done]. cbn. destruct (process_probe_at w2 pid) as [s [|]]; [done|].
  cbn. by destruct (recorded =? 0), (s =? 0).
Qed.

(** C17. On every platform, an owner that runs from the moment its existence is asked to the
    moment it is probed, and that left its start time in its record or left none, is
    not declared dead, whatever the platform refuses to tell; an owner that does not
    exist is; so is one that has exited and that the caller may watch, and one whose
    pid another process has taken, once the platform gives its start time. *)
Theorem verdict_right {W} `{Platform W} (procs : W → Z → option (Z * bool)) watchable PID_END
    `{!Truthful procs watchable PID_END} (w1 w2 : W) pid recorded :
  0 < pid < PID_END →
  ∃ dead, verdict w1 w2 pid recorded = Some dead ∧
    (dead = true → ¬ ∃ s, (recorded = 0 ∨ recorded = s) ∧
       procs w1 pid = Some (s, false) ∧ procs w2 pid = Some (s, false)) ∧
    (procs w1 pid = None → dead = true) ∧
    (watchable w2 pid → (∃ s, procs w2 pid = Some (s, true)) → dead = true) ∧
    (recorded ≠ 0 → (process_probe_at w2 pid).1 ≠ 0 → (∀ z, procs w2 pid ≠ Some (recorded, z)) → dead = true).
Proof.
  intros Hpid. eexists. split; [apply verdict_cases; lia|].
  pose proof (law_exists w1 pid Hpid) as He. pose proof (law_exited w2 pid Hpid) as Hx.
  pose proof (law_starttime w2 pid Hpid) as Hs. pose proof (law_watchable w2 pid Hpid) as Hw.
  destruct (process_probe_at w2 pid) as [s z]. cbn [fst snd] in *. split_and!.
  - intros Hd (s' & Hr & H1 & H2). rewrite (proj2 He) in Hd by (by eexists). cbn [negb orb] in Hd.
    destruct z; [destruct (Hx eq_refl); congruence|]. cbn [orb] in Hd. apply negb_true_iff in Hd.
    apply orb_false_iff in Hd as [Hd H4%Z.eqb_neq]. apply orb_false_iff in Hd as [H3%Z.eqb_neq H5%Z.eqb_neq].
    destruct (Hs H5) as [z' Hz']. destruct Hr; congruence.
  - intros Hn. destruct (process_exists_at w1 pid); [|done]. rewrite Hn in He. by destruct (proj1 He eq_refl).
  - intros Hwt Hz. rewrite Hw by done. by rewrite orb_true_r.
  - intros Hr H5 Hne. destruct (Hs H5) as [z' Hz'].
    rewrite (proj2 (Z.eqb_neq recorded 0)), (proj2 (Z.eqb_neq s 0)), (proj2 (Z.eqb_neq recorded s)) by (done || (intros ->; by apply (Hne z'))).
    by rewrite orb_true_r.
Qed.

(** ** Linux *)

(** A line of [/proc/<pid>/stat]. *)
Record stat_text := StatText {
  comm : list Z; state : Z; between : list (list Z); starttime : Z; rest : list Z
}.

Definition stat_ok (t : stat_text) : Prop :=
  (length (comm t) <= 64)%nat ∧ Forall (λ c, c ≠ 0) (comm t) ∧ word_byte (state t) ∧
  length (between t) = 18%nat ∧ Forall (λ f, f ≠ [] ∧ Forall word_byte f ∧ (length f <= 20)%nat) (between t) ∧
  0 <= starttime t < 18446744073709551616 ∧ Forall plain (rest t) ∧ (∀ c, head (rest t) = Some c → isdigit c = false).

Definition stat_of (pid : Z) (t : stat_text) : list Z :=
  stat_line pid (comm t) (state t) (between t) (starttime t) (rest t).

(** Linux at a moment: its processes, and what its calls answer.  A zombie has state
    Z; reading the file of a process may be refused. *)
Record linux := Linux {
  l_procs : Z → option (Z * bool);
  read_file : list Z → option (list Z);
  l_kill : Z → Z;
  doc_l_kill pid : 0 < pid < 2147483648 → (l_kill pid = 0 ∨ l_kill pid = EPERM) ↔ is_Some (l_procs pid);
  doc_stat pid contents : 0 < pid < 2147483648 → read_file (stat_path pid) = Some contents →
    ∃ t, stat_ok t ∧ contents = stat_of pid t ∧ l_procs pid = Some (starttime t, state t =? LETTER_Z)
}.

#[export] Instance linux_platform : Platform linux := {
  process_exists_at w := Probe.process_exists (l_kill w);
  process_probe_at w := Probe.process_probe (read_file w)
}.

Lemma length_concat_words (fs : list (list Z)) n :
  Forall (λ f, (length f <= n)%nat) fs → (length (concat (map (λ f, f ++ [SPACE]) fs)) <= length fs * S n)%nat.
Proof.
  induction 1 as [|f fs Hf _ IH]; cbn [map concat length]; [done|]. rewrite !length_app. cbn [length]. lia.
Qed.

Lemma stat_fits pid t : stat_ok t → (length (stat_line pid (comm t) (state t) (between t) (starttime t) []) <= 511)%nat.
Proof.
  intros (Hc & _ & _ & Hn & Hb & _). unfold stat_line, decimal. rewrite !length_app.
  pose proof (decimal_length 20 pid). pose proof (decimal_length 20 (starttime t)).
  pose proof (length_concat_words (between t) 20) as Hw. rewrite Hn in Hw. cbn [length] in *.
  specialize (Hw ltac:(eapply Forall_impl; [exact Hb|]; by intros f (_ & _ & Hf))). lia.
Qed.

(** The probe gives what the file says, or nothing. *)
Lemma linux_probe w pid : 0 < pid < 2147483648 →
  (∃ s z, l_procs w pid = Some (s, z) ∧ process_probe_at w pid = (s, z)) ∨
  read_file w (stat_path pid) = None ∧ process_probe_at w pid = (0, false).
Proof.
  intros Hpid. destruct (read_file w (stat_path pid)) as [contents|] eqn:Hr.
  - left. destruct (doc_stat w pid contents Hpid Hr) as (t & Hok & -> & Hp).
    exists (starttime t), (state t =? LETTER_Z). split; [done|].
    pose proof (stat_fits pid t Hok) as Hfit. destruct Hok as (_ & Hc & Hs & Hn & Hb & Ht & Hrest & Hd).
    eapply (process_probe_line (read_file w)); [lia|exact Hr|done..| |done|done|done|done].
    eapply Forall_impl; [exact Hb|]. by intros f (? & ? & _).
  - right. split; [done|]. cbn. unfold Probe.process_probe. by rewrite (proj2 (Z.eqb_neq pid 0)), Hr by lia.
Qed.

Lemma to_pid_t_small pid : 0 < pid < 2147483648 → to_pid_t pid = pid.
Proof. intros Hpid. unfold to_pid_t. lia. Qed.

Lemma posix_exists kill pid : 0 < pid < 2147483648 →
  Probe.process_exists kill pid = true ↔ kill pid = 0 ∨ kill pid = EPERM.
Proof.
  intros Hpid. unfold Probe.process_exists. rewrite (proj2 (Z.eqb_neq pid 0)), to_pid_t_small by lia.
  by rewrite orb_true_iff, !Z.eqb_eq.
Qed.

#[export] Instance linux_truthful : Truthful l_procs (λ w pid, is_Some (read_file w (stat_path pid))) 2147483648.
Proof.
  split; intros w pid Hpid; [cbn; rewrite posix_exists by done; by apply doc_l_kill|..];
    destruct (linux_probe w pid Hpid) as [(s & z & Hp & ->)|[Hr ->]]; cbn [fst snd]; try done.
  - intros ->. by exists s.
  - intros _. by exists z.
  - intros _ [s' Hs']. congruence.
  - rewrite Hr. by intros [c Hc].
Qed.

(** ** Darwin *)

(** What [kinfo_proc] holds of a process. *)
Definition kinfo_start (kp : kinfo_proc) : Z := u64 (u64 (u64 (tv_sec kp) * 1000000) + u64 (tv_usec kp)).

(** [sysctl] of a process that is gone succeeds with nothing. *)
Record darwin := Darwin {
  d_procs : Z → option (Z * bool);
  sysctl : Z → option (Z * kinfo_proc);
  d_kill : Z → Z;
  doc_d_kill pid : 0 < pid < 2147483648 → (d_kill pid = 0 ∨ d_kill pid = EPERM) ↔ is_Some (d_procs pid);
  doc_sysctl pid len kp : 0 < pid < 2147483648 → sysctl pid = Some (len, kp) → len ≠ 0 →
    d_procs pid = Some (kinfo_start kp, p_stat kp =? SZOMB)
}.

#[export] Instance darwin_platform : Platform darwin := {
  process_exists_at w := Probe.process_exists (d_kill w);
  process_probe_at w := Probe.darwin_process_probe (sysctl w)
}.

Lemma darwin_probe w pid : 0 < pid < 2147483648 →
  (∃ s z, d_procs w pid = Some (s, z) ∧ process_probe_at w pid = (s, z)) ∨
  (¬ ∃ len kp, sysctl w pid = Some (len, kp) ∧ len ≠ 0) ∧ process_probe_at w pid = (0, false).
Proof.
  intros Hpid. cbn. unfold Probe.darwin_process_probe. rewrite (proj2 (Z.eqb_neq pid 0)), to_pid_t_small by lia.
  destruct (sysctl w pid) as [[len kp]|] eqn:Hs; [|right; split; [by intros (? & ? & ? & _)|done]].
  destruct (Z.eqb_spec len 0) as [->|Hlen].
  - right. split; [|done]. by intros (len & kp' & [= <- _] & ?).
  - left. do 2 eexists. split; [by eapply doc_sysctl|done].
Qed.

#[export] Instance darwin_truthful :
  Truthful d_procs (λ w pid, ∃ len kp, sysctl w pid = Some (len, kp) ∧ len ≠ 0) 2147483648.
Proof.
  split; intros w pid Hpid; [cbn; rewrite posix_exists by done; by apply doc_d_kill|..];
    destruct (darwin_probe w pid Hpid) as [(s & z & Hp & ->)|[Hr ->]]; cbn [fst snd]; try done.
  - intros ->. by exists s.
  - intros _. by exists z.
  - intros _ [s' Hs']. congruence.
Qed.

(** ** Windows *)

Section windows.
Context {K : Type} `{ProcessCalls K} (view : K → table) `{!WinProbe.Documented view}.

(** The answer of a method that throws nothing. *)
Definition answer {A} (m : io unit Empty_set K A) (k : K) : A :=
  match (m (Syscalls.Process tt 0 k)).1 with inl a => a | inr e => match e with end end.

#[export] Instance windows_platform : Platform K := {
  process_exists_at k pid := answer (WinProbe.process_exists pid) k;
  process_probe_at k pid := answer (WinProbe.process_probe pid) k
}.

(** To watch is to be granted [SYNCHRONIZE]. *)
Definition waits_on (k : K) (pid : Z) : Prop :=
  is_Some (OpenProcess (Z.lor PROCESS_QUERY_LIMITED_INFORMATION SYNCHRONIZE) pid k).1.1.

#[export] Instance windows_truthful : Truthful (λ k pid, procs (view k) !! pid) waits_on 4294967296.
Proof.
  split; intros k pid Hpid; cbn; unfold answer.
  - pose proof (process_exists_spec view pid 0 k Hpid) as Hs.
    destruct (WinProbe.process_exists pid _) as [[b|[]] p]. by destruct Hs as [_ Hs].
  - pose proof (process_probe_spec view pid 0 k Hpid) as Hs.
    destruct (WinProbe.process_probe pid _) as [[[s z]|[]] p]. by destruct Hs as (_ & Hs & _).
  - pose proof (process_probe_spec view pid 0 k Hpid) as Hs.
    destruct (WinProbe.process_probe pid _) as [[[s z]|[]] p]. by destruct Hs as (_ & _ & Hs & _).
  - pose proof (process_probe_spec view pid 0 k Hpid) as Hs.
    destruct (WinProbe.process_probe pid _) as [[[s z]|[]] p]. by destruct Hs as (_ & _ & _ & Hs).
Qed.
End windows.

(** ** Witness *)

(** Process 77, a shell, since tick 4242; process 78 cannot be read. *)
Definition shell : stat_text := StatText (str "sh") 83 (replicate 18 (str "1")) 4242 (str " 0").

Lemma shell_ok : stat_ok shell.
Proof.
  assert (word_byte 49 ∧ word_byte 83) as [H49 H83] by (unfold word_byte, plain, CLOSE_PAREN, SPACE; lia).
  unfold stat_ok, shell. cbn [comm state between starttime rest]. split_and!; [|by vm_compute; repeat constructor|done|done| |done..| |].
  - apply Nat.leb_le. reflexivity.
  - apply Forall_replicate. split; [done|]. split; [by repeat constructor|]. apply Nat.leb_le. reflexivity.
  - unfold plain, CLOSE_PAREN. vm_compute. repeat constructor; lia.
  - by intros c [= <-].
Qed.

Definition kill_77 (pid : Z) : Z := if pid =? 77 then 0 else if pid =? 78 then EPERM else 3.
Definition procs_77 (pid : Z) : option (Z * bool) :=
  if pid =? 77 then Some (4242, false) else if pid =? 78 then Some (99, false) else None.
Definition read_77 (path : list Z) : option (list Z) :=
  if bool_decide (path = stat_path 77) then Some (stat_of 77 shell) else None.

Lemma kill_77_documented pid : 0 < pid < 2147483648 → (kill_77 pid = 0 ∨ kill_77 pid = EPERM) ↔ is_Some (procs_77 pid).
Proof.
  intros _. unfold kill_77, procs_77. destruct (pid =? 77); [split; [by eexists|by left]|].
  destruct (pid =? 78); [split; [by eexists|by right]|]. split; [by intros []|by intros []].
Qed.

Lemma stat_path_inj p q : 0 < p < 2147483648 → 0 < q < 2147483648 → stat_path p = stat_path q → p = q.
Proof.
  intros Hp Hq He. unfold stat_path in He. apply app_inv_head, app_inv_tail in He. unfold decimal in He.
  assert (10 ^ Z.of_nat 20 = 100000000000000000000) as H20 by reflexivity.
  rewrite <- (decimal_value 20 p), <- (decimal_value 20 q) by lia. by rewrite He.
Qed.

Lemma read_77_documented pid contents : 0 < pid < 2147483648 → read_77 (stat_path pid) = Some contents →
  ∃ t, stat_ok t ∧ contents = stat_of pid t ∧ procs_77 pid = Some (starttime t, state t =? LETTER_Z).
Proof.
  intros Hpid. unfold read_77. case_bool_decide as Hp; [|done]. intros [= <-].
  apply stat_path_inj in Hp as ->; [|lia..]. exists shell. split; [apply shell_ok|done].
Qed.

Definition linux_77 : linux := Linux procs_77 read_77 kill_77 kill_77_documented read_77_documented.

(** On Windows, process 8 has exited with code 259 and somebody still has a handle of
    it; the second time, the right to wait on it is refused. *)
Definition windows_8 (plan : list bool) : toy := Toy (Table {[ 8 := (132850000000000000, true) ]} ∅) plan.

(** The shell is alive, and so is 78 whatever is recorded of it; an older owner of
    77 is dead, and so is 79; and 8 is dead to who may watch it. *)
Lemma verdict_right_witness :
  verdict linux_77 linux_77 77 4242 = Some false ∧ verdict linux_77 linux_77 78 99 = Some false ∧
  verdict linux_77 linux_77 77 4241 = Some true ∧ verdict linux_77 linux_77 79 1 = Some true ∧
  verdict (windows_8 []) (windows_8 []) 8 132850000000000000 = Some true ∧
  verdict (windows_8 []) (windows_8 [true]) 8 132850000000000000 = Some false.
Proof.
  pose proof (verdict_right l_procs (λ w pid, is_Some (read_file w (stat_path pid))) 2147483648 linux_77 linux_77) as Hr.
  split_and!.
  - destruct (Hr 77 4242 ltac:(lia)) as ([|] & Hv & Hd & _); [|done]. destruct Hd; [done|]. exists 4242. auto.
  - destruct (Hr 78 99 ltac:(lia)) as ([|] & Hv & Hd & _); [|done]. destruct Hd; [done|]. exists 99. auto.
  - destruct (Hr 77 4241 ltac:(lia)) as (dead & Hv & _ & _ & _ & Hd). rewrite Hv, Hd; [done|done|by vm_compute|by intros z [=]].
  - destruct (Hr 79 1 ltac:(lia)) as (dead & Hv & _ & Hd & _). by rewrite Hv, Hd.
  - destruct (verdict_right (λ k pid, procs (toy_table k) !! pid) waits_on 4294967296 (windows_8 []) (windows_8 [])
      8 132850000000000000 ltac:(lia)) as (dead & Hv & _ & _ & Hd & _).
    rewrite Hv, Hd; [done|by eexists|]. exists 132850000000000000. by vm_compute.
  - by vm_compute.
Defined.
End Liveness.
