(* ===== verification/Timing.v ===== *)
(** * Clocks, sleeps and timeouts ([include/kickmsg/os/Time.h], [src/os/*/Time.cc],
    [src/os/*/Futex.cc])

    The conversions of a time in nanoseconds to what each system call takes, the
    sleep of Linux and the futex waits of Linux, Darwin and Windows.  The calls are
    a parameter ([TimeCalls]); what is documented of the sleep is [Documented], in
    terms of the time and of how many more calls signals will interrupt.

    A 64-bit count of nanoseconds is a [Z]: the model has no wrap-around of times. *)

From S2P Require Import Prelude Prog Syscalls.

Record timespec := Timespec { tv_sec : Z; tv_nsec : Z }.

Inductive clock := CLOCK_MONOTONIC | CLOCK_REALTIME.

Class TimeCalls (K : Type) := {
  (** An error number, 0 for none, and what remained to be slept. *)
  sys_clock_nanosleep : timespec → K → (Z * timespec) * K;
  sys_nanosleep : timespec → K → (Z * timespec) * K;      (** Darwin: the number is in [errno] *)
  sys_clock_gettime : clock → K → (timespec + Z) * K;
  (** Whether the low half of the word is the value expected: wait. *)
  sys_futex_wait : Z → timespec → K → (unit + Z) * K;     (** Linux: value, timeout *)
  sys_ulock_wait : Z → Z → K → Z * K;                     (** Darwin: value, microseconds *)
  sys_wait_on_address : Z → Z → K → (unit + Z) * K;       (** Windows: value, milliseconds *)
  sys_switch_to_thread : K → unit * K;
  sys_sleep : Z → K → unit * K;                           (** [Sleep]: milliseconds *)
  sys_query_performance_frequency : K → Z * K;
  sys_query_performance_counter : K → Z * K;
  sys_get_system_time : K → (Z * Z) * K                   (** a [FILETIME]: high and low words *)
}.

Module Timing.
Definition EINTR : Z := 4.
Definition EAGAIN : Z := 11.
Definition EINVAL : Z := 22.
Definition ETIMEDOUT : Z := 110.
Definition ERROR_TIMEOUT : Z := 1460.
Definition INT_MAX : Z := 2147483647.

(** ** Conversions *)

(** [duration_cast] truncates towards zero, [ceil] rounds up. *)
Definition duration_cast (unit time : Z) : Z := Z.quot time unit.
Definition ceil (unit time : Z) : Z :=
  let t := duration_cast unit time in
  if t * unit <? time then t + 1 else t.

Definition to_poll_ms (timeout : Z) : Z :=
  if timeout <=? 0 then 0
  else
    let ms := ceil 1000000 timeout in
    i32 (Z.min ms INT_MAX).

Definition to_timespec (time : Z) : timespec :=
  let secs := duration_cast 1000000000 time in
  Timespec secs (time - secs * 1000000000).

(** What Darwin's futex waits for, in microseconds. *)
Definition ulock_us (timeout : Z) : Z :=
  let us := duration_cast 1000 timeout in
  let us := if us <=? 0 then 1 else us in
  let us := if U32_MAX <? us then U32_MAX else us in
  u32 us.

(** A count of ticks at [freq] a second. *)
Definition ticks_to_ns (now freq : Z) : Z :=
  let secs := Z.quot now freq in
  let frac := Z.rem now freq in
  let nanos := Z.quot (frac * 1000000000) freq in
  secs * 1000000000 + nanos.

(** A [FILETIME] counts 100 ns from 1601. *)
Definition filetime_to_ns (high low : Z) : Z :=
  let epoch_offset_100ns := 116444736000000000 in
  let ns100 := u64 (Z.lor (Z.shiftl high 32) low - epoch_offset_100ns) in
  i64 (u64 (ns100 * 100)).

(** ** Calls *)

Inductive posix := Linux | Darwin.

(** [std::system_error]: its code and its context. *)
Record failure := Failure { code : Z; context : string }.

Section calls.
Context {K : Type} `{TimeCalls K}.
Local Abbreviation io := (io unit failure K).

(** The loop of Linux and Darwin, from what remains; false when the fuel runs
    out. *)
Fixpoint sleep_loop (call : timespec → K → (Z * timespec) * K) (context : string) (fuel : nat) (remaining : timespec) : io bool :=
  match fuel with
  | O => io_ret false
  | S fuel =>
      r <~ plain (call remaining) ;;
      let '(result, remaining) := r in
      if result =? 0 then io_ret true
      else if result =? EINTR then sleep_loop call context fuel remaining
      else throw (Failure result context)
  end.

Definition linux_sleep (fuel : nat) (ns : Z) : io bool :=
  sleep_loop sys_clock_nanosleep "clock_nanosleep()" fuel (to_timespec ns).
Definition darwin_sleep (fuel : nat) (ns : Z) : io bool :=
  sleep_loop sys_nanosleep "nanosleep()" fuel (to_timespec ns).
Definition sleep (os : posix) : nat → Z → io bool :=
  match os with Linux => linux_sleep | Darwin => darwin_sleep end.

Definition windows_yield : io unit := plain sys_switch_to_thread.

Definition windows_sleep (ns : Z) : io unit :=
  let ms := duration_cast 1000000 ns in
  if ms <=? 0 then windows_yield else plain (sys_sleep (u32 ms)).

Definition read_clock (c : clock) (context : string) : io Z :=
  ts <~ syscall (sys_clock_gettime c) ;;
  match ts with
  | None => e <~ get_errno ;; throw (Failure e context)
  | Some ts => io_ret (tv_sec ts * 1000000000 + tv_nsec ts)
  end.

Definition monotonic_ns : io Z := read_clock CLOCK_MONOTONIC "clock_gettime(MONOTONIC)".
Definition since_epoch : io Z := read_clock CLOCK_REALTIME "clock_gettime(REALTIME)".
Definition elapsed_time (start : Z) : io Z := now <~ monotonic_ns ;; io_ret (now - start).

(** [freq] is a static, 0 until the first call; the result is the time and what
    [freq] becomes. *)
Definition windows_monotonic_ns (freq : Z) : io (Z * Z) :=
  freq <~ (if freq =? 0 then plain sys_query_performance_frequency else io_ret freq) ;;
  now <~ plain sys_query_performance_counter ;;
  io_ret (ticks_to_ns now freq, freq).

Definition windows_since_epoch : io Z :=
  ft <~ plain sys_get_system_time ;;
  io_ret (filetime_to_ns ft.1 ft.2).

Definition linux_futex_wait (expected timeout : Z) : io Z :=
  rc <~ syscall (sys_futex_wait (u32 expected) (to_timespec timeout)) ;;
  match rc with
  | Some _ => io_ret 0
  | None =>
      e <~ get_errno ;;
      if (e =? EINTR) || (e =? EAGAIN) then io_ret 0 else io_ret (- e)
  end.

Definition darwin_futex_wait (expected timeout : Z) : io Z :=
  rc <~ plain (sys_ulock_wait (u32 expected) (ulock_us timeout)) ;;
  if (0 <=? rc) || (rc =? - EINTR) then io_ret 0 else io_ret rc.

Definition windows_futex_wait (expected timeout : Z) : io Z :=
  ok <~ syscall (sys_wait_on_address (u32 expected) (u32 (to_poll_ms timeout))) ;;
  match ok with
  | Some _ => io_ret 0
  | None => e <~ get_errno ;; if e =? ERROR_TIMEOUT then io_ret (- ETIMEDOUT) else io_ret (- EINVAL)
  end.
End calls.

(** ** What is documented of the sleep *)

Definition duration (t : timespec) : Z := tv_sec t * 1000000000 + tv_nsec t.
Definition valid_timespec (t : timespec) : Prop := 0 <= tv_sec t ∧ 0 <= tv_nsec t < 1000000000.

(** The time, and how many more calls signals will interrupt. *)
Record moment := Moment { now : Z; patience : nat }.

(** A sleep that a signal cuts short leaves what remained of it. *)
Definition sleeps {K} (view : K → moment) (call : timespec → K → (Z * timespec) * K) : Prop :=
  ∀ t k, valid_timespec t →
    let '((result, remaining), k') := call t k in
    (result = 0 → now (view k) + duration t <= now (view k')) ∧
    (result = EINTR → valid_timespec remaining ∧ now (view k) + duration t <= now (view k') + duration remaining ∧
       (patience (view k') < patience (view k))%nat).

Class Documented {K} `{TimeCalls K} (view : K → moment) : Prop := {
  doc_clock_nanosleep : sleeps view sys_clock_nanosleep;
  doc_nanosleep : sleeps view sys_nanosleep
}.

(** ** Lemmas *)

Lemma duration_cast_nonneg unit time : 0 < unit → 0 <= time → duration_cast unit time = time / unit.
Proof. intros. unfold duration_cast. by apply Z.quot_div_nonneg. Qed.

Lemma ceil_pos unit time : 0 < unit → 0 < time → time <= ceil unit time * unit < time + unit.
Proof.
  intros Hu Ht. unfold ceil. rewrite duration_cast_nonneg by lia.
  pose proof (Z.div_mod time unit). pose proof (Z.mod_pos_bound time unit).
  destruct (Z.ltb_spec (time / unit * unit) time); nia.
Qed.

Lemma to_timespec_valid t : 0 <= t → valid_timespec (to_timespec t).
Proof.
  intros Ht. unfold valid_timespec, to_timespec. rewrite duration_cast_nonneg by lia. cbn [tv_sec tv_nsec].
  pose proof (Z.div_pos t 1000000000). pose proof (Z.mod_pos_bound t 1000000000). pose proof (Z.div_mod t 1000000000). lia.
Qed.

Lemma to_timespec_duration t : duration (to_timespec t) = t.
Proof. unfold duration, to_timespec. cbn. lia. Qed.

Lemma to_poll_ms_pos t : 0 < t → to_poll_ms t = Z.min (ceil 1000000 t) INT_MAX.
Proof.
  intros Ht. unfold to_poll_ms, INT_MAX, i32. rewrite (proj2 (Z.leb_gt t 0)) by done. pose proof (ceil_pos 1000000 t).
  rewrite Z.mod_small; lia.
Qed.

Lemma to_poll_ms_nonneg t : 0 <= to_poll_ms t.
Proof.
  destruct (Z.lt_ge_cases 0 t) as [Ht|Ht].
  - rewrite to_poll_ms_pos by done. pose proof (ceil_pos 1000000 t). unfold INT_MAX. lia.
  - unfold to_poll_ms. by rewrite (proj2 (Z.leb_le t 0)).
Qed.

Lemma ulock_us_clamped t : ulock_us t = Z.min (Z.max 1 (duration_cast 1000 t)) U32_MAX.
Proof.
  unfold ulock_us. cbn zeta. destruct (Z.leb_spec (duration_cast 1000 t) 0) as [H|H].
  - rewrite Z.max_l by lia. reflexivity.
  - rewrite Z.max_r by lia. destruct (Z.ltb_spec U32_MAX (duration_cast 1000 t)); unfold u32; rewrite Z.mod_small; lia.
Qed.

Lemma ticks_exact now freq : 0 <= now → 0 < freq → ticks_to_ns now freq = now * 1000000000 / freq.
Proof.
  intros Hn Hf. unfold ticks_to_ns. rewrite Z.rem_mod_nonneg, !Z.quot_div_nonneg by (try apply Z.mul_nonneg_nonneg; try apply Z.mod_pos_bound; lia).
  rewrite (Z.div_mod now freq) at 3 by lia.
  replace ((freq * (now / freq) + now mod freq) * 1000000000) with ((now mod freq) * 1000000000 + (now / freq * 1000000000) * freq) by lia.
  rewrite Z.div_add by lia. lia.
Qed.

Lemma filetime_exact high low :
  0 <= low < 4294967296 → 0 <= (high * 4294967296 + low) * 100 - 11644473600000000000 < 9223372036854775808 →
  filetime_to_ns high low = (high * 4294967296 + low) * 100 - 11644473600000000000.
Proof.
  intros Hl Hb. unfold filetime_to_ns. rewrite lor_shift_add by (change (2 ^ 32) with 4294967296; lia).
  change (2 ^ 32) with 4294967296. unfold i64, u64. lia.
Qed.

(** Windows sleeps for whole milliseconds: less than it is asked to, and not at all
    below one. *)
Lemma windows_sleep_truncates {K} `{TimeCalls K} ns : 0 <= ns →
  windows_sleep ns = if ns <? 1000000 then plain sys_switch_to_thread else plain (sys_sleep (u32 (ns / 1000000))).
Proof.
  intros Hns. unfold windows_sleep. rewrite duration_cast_nonneg by lia.
  destruct (Z.ltb_spec ns 1000000), (Z.leb_spec (ns / 1000000) 0); (done || lia).
Qed.

Section sleeping.
Context {K : Type} (view : K → moment).

Lemma does_sleep_loop call context fuel t e v (Q : bool + failure → unit → Z → moment → Prop) :
  sleeps view call → valid_timespec t → (patience v < fuel)%nat →
  (∀ v', now v + duration t <= now v' → Q (inl true) tt e v') →
  (∀ x v', code x ≠ EINTR → code x ≠ 0 → Q (inr x) tt e v') →
  does view (sleep_loop call context fuel t) tt e v Q.
Proof.
  intros Hcall. revert t v. induction fuel as [|fuel IH]; intros t v Ht Hf Hyes Hno; [lia|]. cbn [sleep_loop].
  apply does_bind, does_plain. intros k <-. pose proof (Hcall t k Ht) as Hd.
  destruct (call t k) as [[result remaining] k']. destruct Hd as [Hdone Hcut].
  destruct (Z.eqb_spec result 0) as [->|H0]; [by apply does_ret, Hyes, Hdone|].
  destruct (Z.eqb_spec result EINTR) as [->|H1]; [|by apply does_throw, Hno].
  destruct (Hcut eq_refl) as (Hr & Htime & Hp). apply IH; [done|lia| |done].
  intros v' Hv'. apply Hyes. lia.
Qed.
End sleeping.

(** ** Properties *)

(** C39. On Linux and Darwin a sleep lasts at least as long as it was asked to, however
    many signals cut it short, and ends; it throws only what is not an interruption.
    ([windows_sleep_truncates] is about the third platform.) *)
Theorem sleep_lasts {K} `{TimeCalls K} (view : K → moment) `{!Documented view} os fuel ns e k :
  0 <= ns → (patience (view k) < fuel)%nat →
  let '(r, p) := sleep os fuel ns (Process tt e k) in
  match r with
  | inl ended => ended = true ∧ now (view k) + ns <= now (view (sys p))
  | inr x => code x ≠ EINTR ∧ code x ≠ 0
  end.
Proof.
  intros Hns Hf. enough (does view (sleep os fuel ns) tt e (view k) (λ r _ _ v', match r with
    | inl ended => ended = true ∧ now (view k) + ns <= now v'
    | inr x => code x ≠ EINTR ∧ code x ≠ 0 end)) as Hall by exact (Hall k eq_refl).
  pose proof (to_timespec_valid ns Hns) as Ht.
  destruct os; (apply does_sleep_loop; [apply doc_clock_nanosleep || apply doc_nanosleep|done|done| |by intros x v' H1 H2]);
    intros v' Hv'; (split; [done|]); by rewrite to_timespec_duration in Hv'.
Qed.

(** C40. No timeout becomes another one on its way to a system call: a positive time
    polls for at least that long and less than a millisecond more, unless [int]
    cannot hold it, when it polls for the longest time [int] holds and never for
    ever; Darwin's wait is never 0, which would be for ever, nor longer than a
    positive time allows but for that; a [timespec] is valid and exact.  Nor on its
    way back on Windows: ticks and [FILETIME]s become nanoseconds rounded down, and
    no step overflows when the result does not. *)
Theorem timeouts_fit t :
  (0 <= to_poll_ms t <= INT_MAX ∧ (to_poll_ms t = 0 ↔ t <= 0) ∧
   (0 < t → to_poll_ms t = INT_MAX ∨ t <= to_poll_ms t * 1000000 < t + 1000000)) ∧
  (1 <= ulock_us t <= U32_MAX ∧ (0 < t → ulock_us t = 1 ∨ ulock_us t * 1000 <= t)) ∧
  (0 <= t → valid_timespec (to_timespec t) ∧ duration (to_timespec t) = t) ∧
  (∀ freq, 0 <= t → 0 < freq <= 9223372036 →
     ticks_to_ns t freq = t * 1000000000 / freq ∧ Z.rem t freq * 1000000000 < 9223372036854775808 ∧
     (t * 1000000000 / freq < 9223372036854775808 → Z.quot t freq * 1000000000 < 9223372036854775808)) ∧
  (∀ low, 0 <= t → 0 <= low < 4294967296 → let ft := t * 4294967296 + low in
     0 <= ft * 100 - 11644473600000000000 < 9223372036854775808 →
     filetime_to_ns t low = ft * 100 - 11644473600000000000).
Proof.
  split; [|split; [|split; [by split; [apply to_timespec_valid|apply to_timespec_duration]|]]].
  - destruct (Z.lt_ge_cases 0 t) as [Ht|Ht].
    + rewrite to_poll_ms_pos by done. pose proof (ceil_pos 1000000 t). unfold INT_MAX. lia.
    + unfold to_poll_ms, INT_MAX. rewrite (proj2 (Z.leb_le t 0)) by done. lia.
  - rewrite ulock_us_clamped. split; [lia|]. intros Ht. rewrite duration_cast_nonneg by lia.
    pose proof (Z.div_mod t 1000). pose proof (Z.mod_pos_bound t 1000). lia.
  - split; [|by intros; apply filetime_exact]. intros freq Ht Hf. split; [apply ticks_exact; lia|].
    rewrite Z.rem_mod_nonneg, Z.quot_div_nonneg by lia. pose proof (Z.mod_pos_bound t freq). split; [nia|].
    intros Hr. pose proof (Z.div_le_mono (freq * (t / freq) * 1000000000) (t * 1000000000) freq).
    replace (freq * (t / freq) * 1000000000) with (t / freq * 1000000000 * freq) in * by lia.
    rewrite Z.div_mul in * by lia. pose proof (Z.mul_div_le t freq). lia.
Qed.

(** ** A clock *)

(** Every interruption comes half way. *)
Definition moment_sleep (t : timespec) (v : moment) : (Z * timespec) * moment :=
  match patience v with
  | O => ((0, t), Moment (now v + duration t) 0)
  | S n => let slept := duration t / 2 in ((EINTR, to_timespec (duration t - slept)), Moment (now v + slept) n)
  end.

#[export] Instance moment_calls : TimeCalls moment := {
  sys_clock_nanosleep := moment_sleep;
  sys_nanosleep := moment_sleep;
  sys_clock_gettime _ v := (inl (to_timespec (now v)), v);
  sys_futex_wait _ _ v := (inr ETIMEDOUT, v);
  sys_ulock_wait _ _ v := (- ETIMEDOUT, v);
  sys_wait_on_address _ _ v := (inr ERROR_TIMEOUT, v);
  sys_switch_to_thread v := (tt, v);
  sys_sleep ms v := (tt, Moment (now v + ms * 1000000) (patience v));
  sys_query_performance_frequency v := (10000000, v);
  sys_query_performance_counter v := (now v / 100, v);
  sys_get_system_time v := let ft := now v / 100 + 116444736000000000 in ((ft / 4294967296, ft mod 4294967296), v)
}.

Lemma moment_sleeps : sleeps (λ v : moment, v) moment_sleep.
Proof.
  intros t v [Hs Hn]. unfold moment_sleep.
  destruct (patience v) eqn:Hp; cbn; (split; [try done; intros _; cbn; lia|intros Hi; try done]).
  assert (0 <= duration t - duration t / 2) as Hd.
  { unfold duration. pose proof (Z.div_mod (tv_sec t * 1000000000 + tv_nsec t) 2).
    pose proof (Z.mod_pos_bound (tv_sec t * 1000000000 + tv_nsec t) 2). lia. }
  split; [by apply to_timespec_valid|]. rewrite to_timespec_duration. lia.
Qed.

#[export] Instance moment_documented : Documented (λ v : moment, v).
Proof. split; apply moment_sleeps. Qed.

Lemma sleep_lasts_witness :
  let p := (sleep Linux 4 1000000 (Process tt 0 (Moment 5 3))).2 in 1000005 <= now (sys p) ∧ patience (sys p) = 0%nat.
Proof.
  pose proof (sleep_lasts (λ v : moment, v) Linux 4 1000000 0 (Moment 5 3) ltac:(lia) ltac:(cbn; lia)) as Hl.
  assert ((sleep Linux 4 1000000 (Process tt 0 (Moment 5 3))).1 = inl true ∧
    patience (sys (sleep Linux 4 1000000 (Process tt 0 (Moment 5 3))).2) = 0%nat) as [Hr Hp] by (vm_compute; done).
  destruct (sleep Linux 4 1000000 _) as [r p]. cbn [fst snd] in *. subst r. destruct Hl as [_ Hl]. cbn in Hl. cbn zeta. split; [lia|done].
Defined.
End Timing.
