(* ===== verification/Handles.v ===== *)
(** * Handles of shared-memory objects ([include/kickmsg/os/SharedMemory.h])

    A [SharedMemory] is a descriptor and a mapping of a named object, on every
    platform.  [Platform] is what the implementations define (POSIX in [Objects.v],
    Windows in [WinObjects.v]) and [Laws] what they promise: an acquisition on a
    handle that is not open takes one descriptor and one mapping or nothing, [close]
    gives them back.  That a process which acquires on such handles only leaks
    neither is proved here from these laws alone.  The methods do not look at what
    their handle holds, so an acquisition on an open one loses it. *)

From stdpp Require Import gmap.
From S2P Require Import Prelude Prog Syscalls.

Module Handles.
Record handle := Handle { size_ : Z; address_ : Z; fd_ : Z }.

(** [std::system_error] *)
Record failure := Failure { code : Z; context : string; subject : list Z }.

(** The four methods that get an object, for the statements about all of them. *)
Inductive how := Creating (size : Z) | TryCreating (size : Z) | Opening | TryOpening.

(** The descriptor of a closed handle, [INVALID_SHM_HANDLE]. *)
Class Invalid := invalid : Z.

Section methods.
Context `{Invalid} {K : Type}.
Local Abbreviation io := (io handle failure K).

Definition closed : handle := Handle 0 0 invalid.

Definition is_open (h : handle) : bool := negb (address_ h =? 0).

(** A handle that holds nothing; [try_open] that fails leaves the size it read. *)
Definition shut (size : Z) : handle := Handle size 0 invalid.

Definition set_fd (fd : Z) : io unit := h <~ get ;; put (Handle (size_ h) (address_ h) fd).
Definition set_address (a : Z) : io unit := h <~ get ;; put (Handle (size_ h) a (fd_ h)).
Definition set_size (s : Z) : io unit := h <~ get ;; put (Handle s (address_ h) (fd_ h)).

(** [errno], or the last error of Windows, as an exception. *)
Definition throw_error {A} (context : string) (name : list Z) : io A :=
  e <~ get_errno ;; throw (Failure e context name).

(** The new handle and the moved-from one. *)
Definition handle_move (other : handle) : handle * handle := (other, closed).

(** A handle is closed, or owns a descriptor and a mapping. *)
Definition idle (h : handle) : Prop := address_ h = 0 ∧ fd_ h = invalid.
Definition open_ (h : handle) : Prop := address_ h ≠ 0 ∧ fd_ h ≠ invalid.

#[export] Instance idle_dec h : Decision (idle h).
Proof. unfold idle. apply _. Defined.

Lemma idle_shut h : idle h → h = shut (size_ h).
Proof. destruct h as [s a f]. unfold shut. by intros [[= ->] [= ->]]. Qed.

Context {V : Type} (view : K → V).
Abbreviation post A := (A + failure → handle → Z → V → Prop).

Lemma does_throw_error {A} context name h e v (Q : post A) :
  Q (inr (Failure e context name)) h e v → does view (throw_error context name) h e v Q.
Proof. intros HQ. by apply does_bind, does_errno, does_throw. Qed.
Lemma does_set_fd fd h e v (Q : post unit) :
  Q (inl tt) (Handle (size_ h) (address_ h) fd) e v → does view (set_fd fd) h e v Q.
Proof. intros HQ. by apply does_bind, does_get, does_put. Qed.
Lemma does_set_address a h e v (Q : post unit) :
  Q (inl tt) (Handle (size_ h) a (fd_ h)) e v → does view (set_address a) h e v Q.
Proof. intros HQ. by apply does_bind, does_get, does_put. Qed.
Lemma does_set_size s h e v (Q : post unit) :
  Q (inl tt) (Handle s (address_ h) (fd_ h)) e v → does view (set_size s) h e v Q.
Proof. intros HQ. by apply does_bind, does_get, does_put. Qed.
End methods.

(** The methods of a platform. *)
Class Platform `{Invalid} (K : Type) := {
  create : list Z → Z → io handle failure K unit;
  try_create : list Z → Z → io handle failure K bool;
  open : list Z → io handle failure K unit;
  try_open : list Z → io handle failure K bool;
  close : io handle failure K unit;
  unlink : list Z → io handle failure K unit
}.

Section platform.
Context `{Platform K}.

(** Assigning to another handle than [this]; the result is what [other] becomes. *)
Definition move_assign (other : handle) : io handle failure K handle :=
  close ;;~ put other ;;~ io_ret closed.

(** The destructor. *)
Definition destroy (p : process handle K) : Z * K := let '(_, p) := close p in (errno p, sys p).

Definition acquire (w : how) (name : list Z) : io handle failure K bool :=
  match w with
  | Creating size => _ <~ create name size ;; io_ret true
  | TryCreating size => try_create name size
  | Opening => _ <~ open name ;; io_ret true
  | TryOpening => try_open name
  end.
End platform.

(** What a platform promises, in terms of the descriptors and the mappings of the
    process.  [fits] relates a handle's size to its mapping's and [stable] says what
    never happens to the objects of others. *)
Class Laws `{Invalid} {K V : Type} (P : Platform K) (view : K → V) (fds : V → gmap Z Z) (maps : V → gmap Z (Z * Z))
    (fits : Z → Z → Prop) (stable : V → V → Prop) : Prop := {
  stable_preorder :: PreOrder stable;
  law_acquire w name size e v :
    does view (acquire w name) (shut size) e v (λ r h _ v', stable v v' ∧
      match r with
      | inl true => open_ h ∧ fds v !! fd_ h = None ∧ maps v !! address_ h = None ∧
          ∃ id size, fits (size_ h) size ∧
            fds v' = <[fd_ h := id]> (fds v) ∧ maps v' = <[address_ h := (id, size)]> (maps v)
      | _ => idle h ∧ fds v' = fds v ∧ maps v' = maps v
      end);
  law_close_idle h e v : idle h →
    does view close h e v (λ r h' _ v', r = inl tt ∧ h' = closed ∧ v' = v);
  law_close_open h id size e v : open_ h →
    fds v !! fd_ h = Some id → maps v !! address_ h = Some (id, size) → fits (size_ h) size →
    does view close h e v (λ r h' _ v', r = inl tt ∧ h' = closed ∧ stable v v' ∧
      fds v' = delete (fd_ h) (fds v) ∧ maps v' = delete (address_ h) (maps v));
  law_unlink name e v :
    does view (unlink name) closed e v (λ _ _ _ v', stable v v' ∧ fds v' = fds v ∧ maps v' = maps v)
}.

(** ** Sessions *)

(** What a process does with its handles: the default constructor, the methods that
    get an object and [close] on handle [i], the move constructor, move assignment,
    the destructor, and [unlink]. *)
Inductive call :=
  | Default
  | Acquire (i : nat) (w : how) (name : list Z)
  | Close (i : nat)
  | Move (i : nat)
  | Assign (i j : nat)
  | Drop (i : nat)
  | Remove (name : list Z).

Section sessions.
Context `{Invalid} {K : Type} (P : Platform K).

(** The handles of a process, with [errno] and the kernel. *)
Definition state : Type := list handle * Z * K.

Definition perform (c : call) (s : state) : state :=
  let '(hs, e, k) := s in
  match c with
  | Default => (hs ++ [closed], e, k)
  | Acquire i w name =>
      match hs !! i with
      | Some h => let '(_, p) := acquire w name (Process h e k) in (<[i := this p]> hs, errno p, sys p)
      | None => s
      end
  | Close i =>
      match hs !! i with
      | Some h => let '(_, p) := close (Process h e k) in (<[i := this p]> hs, errno p, sys p)
      | None => s
      end
  | Move i =>
      match hs !! i with
      | Some other => let '(h, other) := handle_move other in (<[i := other]> hs ++ [h], e, k)
      | None => s
      end
  | Assign i j =>
      match hs !! i, hs !! j with
      | Some h, Some other =>
          if decide (i = j) then s
          else
            match move_assign other (Process h e k) with
            | (inl moved, p) => (<[j := moved]> (<[i := this p]> hs), errno p, sys p)
            | (inr _, p) => (hs, errno p, sys p)
            end
      | _, _ => s
      end
  | Drop i =>
      match hs !! i with
      | Some h => let '(e, k) := destroy (Process h e k) in (delete i hs, e, k)
      | None => s
      end
  | Remove name => let '(_, p) := unlink name (Process closed e k) in (hs, errno p, sys p)
  end.

Definition perform_all (cs : list call) (s : state) : state := fold_left (λ s c, perform c s) cs s.

(** No object is got on a handle that is open. *)
Definition on_shut (c : call) (s : state) : bool :=
  match c with
  | Acquire i _ _ => match s.1.1 !! i with Some h => bool_decide (idle h) | None => true end
  | _ => true
  end.
Fixpoint disciplined (cs : list call) (s : state) : bool :=
  match cs with
  | [] => true
  | c :: cs => on_shut c s && disciplined cs (perform c s)
  end.

(** Every handle is destroyed. *)
Fixpoint drop_all (hs : list handle) (e : Z) (k : K) : K :=
  match hs with
  | [] => k
  | h :: hs => let '(e, k) := destroy (Process h e k) in drop_all hs e k
  end.
End sessions.

(** ** Who holds what *)

(** Exchanging two handles. *)
Lemma insert_swaps {A} (l : list A) (j : nat) (y x : A) : l !! j = Some y → y :: <[j := x]> l ≡ₚ x :: l.
Proof.
  intros Hj. pose proof (lookup_lt_Some _ _ _ Hj) as Hlt. rewrite (delete_Permutation _ _ _ Hj) at 2.
  rewrite insert_take_drop, delete_take_drop by done. rewrite <- !Permutation_middle. apply Permutation_swap.
Qed.

Lemma insert_over {A} (l : list A) (i : nat) (h h' : A) : l !! i = Some h → <[i := h']> l ≡ₚ h' :: delete i l.
Proof.
  intros Hi. apply (Permutation_cons_inv (a := h)). rewrite (insert_swaps _ _ _ _ Hi), (delete_Permutation _ _ _ Hi) at 1.
  apply Permutation_swap.
Qed.

Lemma two_owners `{Invalid} (hs : list handle) (i j : nat) (h other : handle) :
  hs !! i = Some h → hs !! j = Some other → i ≠ j →
  ∃ j', delete i hs !! j' = Some other ∧ <[j := closed]> (<[i := other]> hs) ≡ₚ other :: closed :: delete j' (delete i hs).
Proof.
  intros Hi Hj Hne.
  assert (∃ j', delete i hs !! j' = Some other) as [j' Hj'].
  { destruct (decide (j < i)%nat).
    - exists j. by rewrite list_lookup_delete_lt.
    - exists (j - 1)%nat. rewrite list_lookup_delete_ge by lia. rewrite <- Hj. f_equal. lia. }
  exists j'. split; [done|].
  assert (<[i := other]> hs !! j = Some other) as Hj2 by (by rewrite list_lookup_insert_ne).
  pose proof (insert_swaps _ _ _ closed Hj2) as P1. pose proof (insert_swaps _ _ _ other Hi) as P2.
  pose proof (delete_Permutation _ _ _ Hi) as P3. pose proof (delete_Permutation _ _ _ Hj') as P4.
  apply (Permutation_cons_inv (a := other)), (Permutation_cons_inv (a := h)).
  transitivity (h :: closed :: <[i := other]> hs); [by rewrite P1|].
  transitivity (closed :: other :: hs); [by rewrite (Permutation_swap closed h), P2|].
  transitivity (closed :: other :: h :: other :: delete j' (delete i hs)); [by rewrite <- P4, <- P3|].
  solve_Permutation.
Qed.

Section holding.
Context `{Invalid} (fits : Z → Z → Prop).

(** The descriptors [F] and mappings [M] are those of the start and those of the
    handles, each once. *)
Inductive holds (F0 : gmap Z Z) (M0 : gmap Z (Z * Z)) : list handle → gmap Z Z → gmap Z (Z * Z) → Prop :=
  | holds_none : holds F0 M0 [] F0 M0
  | holds_idle h hs F M : idle h → holds F0 M0 hs F M → holds F0 M0 (h :: hs) F M
  | holds_open h hs F M id size :
      open_ h → F !! fd_ h = None → M !! address_ h = None → fits (size_ h) size →
      holds F0 M0 hs F M → holds F0 M0 (h :: hs) (<[fd_ h := id]> F) (<[address_ h := (id, size)]> M).

Lemma holds_perm F0 M0 hs hs' F M : hs ≡ₚ hs' → holds F0 M0 hs F M → holds F0 M0 hs' F M.
Proof.
  intros Hp. revert F M. induction Hp as [|h hs hs' _ IH|h h' hs|hs1 hs2 hs3 _ IH1 _ IH2]; intros F M Hh; [done|..].
  - inversion Hh as [|? ? ? ? Hi Ht|? ? F' M' id sz Ho HF HM Hz Ht]; subst; [by apply holds_idle, IH|by apply holds_open, IH].
  - inversion Hh as [|? ? ? ? Hi Ht|? ? F1 M1 id sz Ho HF HM Hz Ht]; subst;
      inversion Ht as [|? ? ? ? Hi2 Ht2|? ? F2 M2 id2 sz2 Ho2 HF2 HM2 Hz2 Ht2]; subst.
    + apply holds_idle; [done|by apply holds_idle].
    + apply holds_open; [done..|by apply holds_idle].
    + apply holds_idle; [done|by apply holds_open].
    + apply lookup_insert_None in HF as [HF Hne]. apply lookup_insert_None in HM as [HM Hne2].
      rewrite (insert_insert_ne F2) by congruence. rewrite (insert_insert_ne M2) by congruence.
      apply holds_open; [done..| | |done|by apply holds_open]; by rewrite lookup_insert_ne by congruence.
  - by apply IH2, IH1.
Qed.

Lemma holds_split F0 M0 hs i h F M : hs !! i = Some h → holds F0 M0 hs F M → holds F0 M0 (h :: delete i hs) F M.
Proof. intros Hi. apply holds_perm. by apply delete_Permutation. Qed.

(** The next owner of what a closed handle held. *)
Lemma holds_moved F0 M0 h hs F M : holds F0 M0 (h :: hs) F M → holds F0 M0 (h :: closed :: hs) F M.
Proof.
  intros Hh. apply (holds_perm _ _ (closed :: h :: hs)); [by apply Permutation_swap|]. by apply holds_idle.
Qed.
End holding.

Section accounting.
Context `{Invalid} {K V : Type} (P : Platform K) (view : K → V) (fds : V → gmap Z Z) (maps : V → gmap Z (Z * Z)).
Context (fits : Z → Z → Prop) (stable : V → V → Prop) `{!Laws P view fds maps fits stable} (v0 : V).

(** The handles account for everything. *)
Definition accounted (hs : list handle) (v : V) : Prop :=
  holds fits (fds v0) (maps v0) hs (fds v) (maps v) ∧ stable v0 v.

Lemma does_close_accounted h hs e v (Q : unit + failure → handle → Z → V → Prop) :
  accounted (h :: hs) v → (∀ e' v', accounted hs v' → Q (inl tt) closed e' v') → does view close h e v Q.
Proof.
  intros [Hh Hs] HQ.
  inversion Hh as [|? ? F M Hi Ht|? ? F M id sz Ho HF HM Hz Ht Eh EF EM]; subst.
  - eapply does_mono; [by apply law_close_idle|]. intros r h' e' v' (-> & -> & ->). by apply HQ.
  - eapply does_mono; [apply (law_close_open h id sz); [done|..|done]|].
    + rewrite <- EF. apply lookup_insert_eq.
    + rewrite <- EM. apply lookup_insert_eq.
    + intros r h' e' v' (-> & -> & Hst & EF' & EM'). apply HQ. split; [|by etrans].
      rewrite EF', EM', <- EF, <- EM, !delete_insert_id by done. done.
Qed.

Lemma destroy_accounted h hs e k :
  accounted (h :: hs) (view k) → accounted hs (view (destroy (Process h e k)).2).
Proof.
  intros Ha. pose proof (does_close_accounted h hs e (view k) (λ _ _ _ v, accounted hs v) Ha) as Hc.
  specialize (Hc (λ _ v' Hv, Hv) k eq_refl). unfold destroy. destruct (close _) as [r p]. exact Hc.
Qed.

(** An acquisition makes a handle that holds nothing the owner of what it takes. *)
Lemma acquire_accounted w name h hs e v :
  idle h → accounted (h :: hs) v → does view (acquire w name) h e v (λ _ h' _ v', accounted (h' :: hs) v').
Proof.
  intros Hi [Hh Hs]. rewrite (idle_shut h Hi). eapply does_mono; [apply law_acquire|]. intros r h' e' v' [Hst Hr].
  assert (holds fits (fds v0) (maps v0) hs (fds v) (maps v)) as Hrest.
  { by inversion Hh as [|? ? ? ? _ Ht|? ? ? ? ? ? [Ho _]]; subst; [|destruct (Ho (proj1 Hi))]. }
  split; [|by etrans]. destruct r as [[|]|f].
  1: destruct Hr as (Ho & HF & HM & id & sz & Hz & -> & ->); by apply holds_open.
  all: destruct Hr as (Hi' & -> & ->); by apply holds_idle.
Qed.

Lemma idle_closed : idle closed.
Proof. done. Qed.

Lemma accounted_perm hs hs' v : hs ≡ₚ hs' → accounted hs v → accounted hs' v.
Proof. intros Hp [Hh Hs]. split; [by eapply holds_perm|done]. Qed.

Lemma perform_accounted c hs e k :
  on_shut c (hs, e, k) = true → accounted hs (view k) →
  let '(hs', _, k') := perform P c (hs, e, k) in accounted hs' (view k').
Proof.
  intros Hshut Hacc. destruct c as [|i w name|i|i|i j|i|name]; cbn [perform].
  - eapply accounted_perm; [apply Permutation_cons_append|].
    destruct Hacc as [Hh Hs]. split; [by apply holds_idle|done].
  - cbn in Hshut. destruct (hs !! i) as [h|] eqn:Hi; [|done]. apply bool_decide_eq_true in Hshut.
    pose proof (acquire_accounted w name h (delete i hs) e (view k) Hshut) as Hw.
    specialize (Hw (accounted_perm _ _ _ (delete_Permutation _ _ _ Hi) Hacc) k eq_refl).
    destruct (acquire w name (Process h e k)) as [r p].
    eapply accounted_perm; [symmetry; by eapply insert_over|exact Hw].
  - destruct (hs !! i) as [h|] eqn:Hi; [|done].
    pose proof (does_close_accounted h (delete i hs) e (view k) (λ _ h' _ v, accounted (h' :: delete i hs) v)) as Hc.
    refine (_ (Hc (accounted_perm _ _ _ (delete_Permutation _ _ _ Hi) Hacc) _ k eq_refl)).
    + destruct (close (Process h e k)) as [r p]. intros Hp. eapply accounted_perm; [symmetry; by eapply insert_over|exact Hp].
    + intros e' v' [Hh Hs]. split; [by apply holds_idle|done].
  - destruct (hs !! i) as [h|] eqn:Hi; [|done]. cbn [handle_move]. destruct Hacc as [Hh Hs]. split; [|done].
    apply (holds_perm _ _ _ (closed :: hs)); [|by apply holds_idle].
    by rewrite <- (insert_swaps _ _ _ closed Hi), Permutation_cons_append.
  - destruct (hs !! i) as [h|] eqn:Hi; [|done]. destruct (hs !! j) as [other|] eqn:Hj; [|done].
    case_decide as Hne; [done|].
    assert (does view (move_assign other) h e (view k) (λ r h' _ v', match r with
      | inl moved => accounted (<[j := moved]> (<[i := h']> hs)) v'
      | inr _ => False end)) as Hm.
    { unfold move_assign. apply does_bind. eapply (does_close_accounted h (delete i hs)).
      - destruct Hacc as [Hh Hs]. split; [by apply holds_split|done].
      - intros e' v' [Hh Hs]. apply does_bind, does_put, does_ret. split; [|done].
        destruct (two_owners hs i j h other Hi Hj Hne) as (j' & Hj' & Hp).
        eapply holds_perm; [symmetry; exact Hp|]. apply holds_moved. by apply holds_split. }
    specialize (Hm k eq_refl). destruct (move_assign other (Process h e k)) as [[moved|f] p]; [exact Hm|done].
  - destruct (hs !! i) as [h|] eqn:Hi; [|done]. destruct Hacc as [Hh Hs].
    pose proof (destroy_accounted h (delete i hs) e k) as Hd. destruct (destroy (Process h e k)) as [e' k'].
    apply Hd. split; [by apply holds_split|done].
  - pose proof (law_unlink name e (view k) k eq_refl) as Hu. destruct (unlink name _) as [r p].
    destruct Hu as (Hst & EF & EM), Hacc as [Hh Hs]. split; [by rewrite EF, EM|by etrans].
Qed.

Lemma perform_all_accounted cs hs e k :
  disciplined P cs (hs, e, k) = true → accounted hs (view k) →
  let '(hs', _, k') := perform_all P cs (hs, e, k) in accounted hs' (view k').
Proof.
  revert hs e k. induction cs as [|c cs IH]; intros hs e k Hd Ha; [done|].
  cbn [disciplined] in Hd. apply andb_true_iff in Hd as [Hshut Hd].
  unfold perform_all. cbn [fold_left]. pose proof (perform_accounted c hs e k Hshut Ha) as Hc.
  destruct (perform P c (hs, e, k)) as [[hs1 e1] k1]. by apply IH.
Qed.

Lemma drop_all_accounted hs e k : accounted hs (view k) → accounted [] (view (drop_all P hs e k)).
Proof.
  revert e k. induction hs as [|h hs IH]; intros e k Ha; [done|]. cbn [drop_all].
  pose proof (destroy_accounted h hs e k Ha) as Hd. destruct (destroy (Process h e k)) as [e' k']. by apply IH.
Qed.
End accounting.

(** A process that gets objects on handles that are not open, and otherwise does
    what it likes, holds the descriptors and mappings it started with once its
    handles are destroyed. *)
Lemma handles_balance `{Invalid} {K V} (P : Platform K) (view : K → V) fds maps fits stable `{!Laws P view fds maps fits stable} cs e k :
  disciplined P cs ([], e, k) = true →
  let '(hs, e', k') := perform_all P cs ([], e, k) in
  let v' := view (drop_all P hs e' k') in
  fds v' = fds (view k) ∧ maps v' = maps (view k) ∧ stable (view k) v'.
Proof.
  intros Hd. pose proof (perform_all_accounted P view fds maps fits stable (view k) cs [] e k Hd) as Hp.
  destruct (perform_all P cs ([], e, k)) as [[hs e'] k'].
  destruct (drop_all_accounted P view fds maps fits stable (view k) hs e' k') as [Hh Hs].
  - apply Hp. split; [constructor|reflexivity].
  - by inversion Hh.
Qed.
End Handles.
