(* ===== verification/Objects.v ===== *)
(** * Shared-memory objects over POSIX ([src/os/posix/SharedMemory.cc] and the
    [create] of [src/os/linux] and [src/os/darwin])

    A [SharedMemory] handle wraps a descriptor and a mapping of a named object.
    The system calls are a parameter of the definitions ([Kernel]); what POSIX
    documents of them is [Documented], in terms of the names, the objects' sizes
    and the process's descriptors and mappings.  [try_create] is all or nothing,
    and a process leaks neither descriptor nor mapping. *)

From stdpp Require Import gmap.
From S2P Require Import Prelude Prog Hash Text Syscalls Handles.
Import Handles.

(** The system calls: a result or an error number, and the new state.  A null
    address is 0. *)
Class Kernel (K : Type) := {
  sys_shm_open : list Z → bool → Z → K → (Z + Z) * K;  (** [bool]: [O_CREAT | O_EXCL] *)
  sys_ftruncate : Z → Z → K → (unit + Z) * K;
  sys_mmap : Z → Z → K → (Z + Z) * K;                  (** size, descriptor *)
  sys_munmap : Z → Z → K → (unit + Z) * K;
  sys_fstat : Z → K → (Z + Z) * K;                     (** [st_size] *)
  sys_close : Z → K → (unit + Z) * K;
  sys_shm_unlink : list Z → K → (unit + Z) * K
}.

Module Objects.
Definition ENOENT : Z := 2.
Definition EEXIST : Z := 17.
Definition INVALID_SHM_HANDLE : Z := -1.
#[export] Instance posix_invalid : Invalid := INVALID_SHM_HANDLE.

(** ** The creation mode *)

Definition isoctal (c : Z) : bool := (48 <=? c) && (c <=? 55).

(** The digits of [strtoul(_, &end, 8)]: value, and what follows. *)
Fixpoint octal_digits (s : list Z) (v : Z) : Z * list Z :=
  match s with
  | c :: t => if isoctal c then octal_digits t (v * 8 + (c - 48)) else (v, s)
  | [] => (v, [])
  end.

(** [strtoul(s, &end, 8)]: the value, whether it was out of range, and the text
    from [end]; no conversion leaves [end] at the start. *)
Definition strtoul8 (s : list Z) : Z * bool * list Z :=
  let '(negative, t) := match skip_isspace s with
    | c :: t => if c =? 45 then (true, t) else if c =? 43 then (false, t) else (false, c :: t)
    | [] => (false, [])
    end in
  match t with
  | c :: _ =>
      if isoctal c then
        let '(v, rest) := octal_digits t 0 in
        if 18446744073709551615 <? v then (18446744073709551615, true, rest)
        else ((if negative : bool then u64 (- v) else v), false, rest)
      else (0, false, s)
  | [] => (0, false, s)
  end.

(** [env] is the value of KICKMSG_SHM_MODE. *)
Definition kickmsg_shm_mode (env : option (list Z)) : Z :=
  let DEFAULT_MODE := 384 (* 0600 *) in
  match c_string <$> env with
  | None | Some [] => DEFAULT_MODE
  | Some env =>
      let '(v, range, rest) := strtoul8 env in
      if range || bool_decide (rest = env) || negb (bool_decide (rest = [])) || (4095 <? v) then DEFAULT_MODE
      else v
  end.

(** ** Handles *)

(** [static_cast<off_t>] of a [size_t]. *)
Definition off_t (x : Z) : Z := if x <? 9223372036854775808 then x else x - 18446744073709551616.

Section methods.
Context {K : Type} `{Kernel K} (mode : Z).

Local Abbreviation io := (io handle failure K).

Definition throw_system_error {A} (context : string) (name : list Z) : io A := throw_error context name.

Definition sys_close_fd : io unit :=
  h <~ get ;; syscall (sys_close (fd_ h)) ;;~ set_fd INVALID_SHM_HANDLE.

Definition map_ (size : Z) : io unit :=
  h <~ get ;;
  ok <~ syscall (sys_ftruncate (fd_ h) (off_t size)) ;;
  match ok with
  | None => sys_close_fd ;;~ throw_system_error "SharedMemory: ftruncate()" []
  | Some _ =>
      a <~ syscall (sys_mmap size (fd_ h)) ;;
      match a with
      | None => set_address 0 ;;~ sys_close_fd ;;~ throw_system_error "SharedMemory: mmap()" []
      | Some a => set_address a ;;~ set_size size
      end
  end.

(** [::shm_open]: -1 on failure. *)
Definition shm_open_fd (name : list Z) (exclusive : bool) (mode : Z) : io Z :=
  fd <~ syscall (sys_shm_open name exclusive mode) ;;
  let fd := default (-1) fd in
  set_fd fd ;;~ io_ret fd.

Definition create (name : list Z) (size : Z) : io unit :=
  syscall (sys_shm_unlink name) ;;~
  fd <~ shm_open_fd name true mode ;;
  if fd <? 0 then throw_system_error "SharedMemory: shm_open(create)" name else map_ size.

Definition try_create (name : list Z) (size : Z) : io bool :=
  fd <~ shm_open_fd name true mode ;;
  if fd <? 0 then
    e <~ get_errno ;;
    if e =? EEXIST then set_fd INVALID_SHM_HANDLE ;;~ io_ret false
    else throw_system_error "SharedMemory: shm_open(try_create)" name
  else
    on_failure (map_ size) (syscall (sys_shm_unlink name) ;;~ io_ret tt) ;;~
    io_ret true.

Definition try_open (name : list Z) : io bool :=
  fd <~ shm_open_fd name false 0 ;;
  if fd <? 0 then
    e <~ get_errno ;;
    if e =? ENOENT then set_fd INVALID_SHM_HANDLE ;;~ io_ret false
    else throw_system_error "SharedMemory: shm_open(try_open)" name
  else
    st <~ syscall (sys_fstat fd) ;;
    match st with
    | None => sys_close_fd ;;~ throw_system_error "SharedMemory: fstat()" []
    | Some st_size =>
        let size := u64 st_size in
        set_size size ;;~
        if size =? 0 then sys_close_fd ;;~ io_ret false
        else
          a <~ syscall (sys_mmap size fd) ;;
          match a with
          | None => set_address 0 ;;~ sys_close_fd ;;~ throw_system_error "SharedMemory: mmap()" []
          | Some a => set_address a ;;~ io_ret true
          end
    end.

Definition open (name : list Z) : io unit :=
  ok <~ try_open name ;;
  if ok : bool then io_ret tt else throw_system_error "SharedMemory: shm_open(open)" name.

Definition close : io unit :=
  h <~ get ;;
  (if negb (address_ h =? 0) then syscall (sys_munmap (address_ h) (size_ h)) ;;~ set_address 0 else io_ret tt) ;;~
  (if negb (fd_ h =? INVALID_SHM_HANDLE) then sys_close_fd else io_ret tt) ;;~
  set_size 0.

Definition unlink (name : list Z) : io unit := syscall (sys_shm_unlink name) ;;~ io_ret tt.

(** The methods, when objects are created with [mode]. *)
Definition posix : Platform K := {|
  Handles.create := create;
  Handles.try_create := try_create;
  Handles.open := open;
  Handles.try_open := try_open;
  Handles.close := close;
  Handles.unlink := unlink
|}.
End methods.

(** ** What POSIX documents *)

(** The names of the system, the sizes of its objects, and the descriptors and
    mappings of this process. *)
Record objects := Objects {
  names : gmap (list Z) Z;
  sizes : gmap Z Z;
  fds : gmap Z Z;
  maps : gmap Z (Z * Z)
}.

Definition with_names (f : gmap (list Z) Z → gmap (list Z) Z) (v : objects) : objects :=
  Objects (f (names v)) (sizes v) (fds v) (maps v).
Definition with_sizes (f : gmap Z Z → gmap Z Z) (v : objects) : objects :=
  Objects (names v) (f (sizes v)) (fds v) (maps v).
Definition with_fds (f : gmap Z Z → gmap Z Z) (v : objects) : objects :=
  Objects (names v) (sizes v) (f (fds v)) (maps v).
Definition with_maps (f : gmap Z (Z * Z) → gmap Z (Z * Z)) (v : objects) : objects :=
  Objects (names v) (sizes v) (fds v) (f (maps v)).

(** Each call fails and changes nothing, or does what it says; new descriptors
    and addresses are fresh.  [close] releases the descriptor whatever it
    answers, and the caller may remove the names it uses. *)
Class Documented {K} `{Kernel K} (view : K → objects) : Prop := {
  doc_create name mode k :
    match sys_shm_open name true mode k with
    | (inr e, k') => view k' = view k ∧ (e = EEXIST → is_Some (names (view k) !! name))
    | (inl fd, k') => 0 <= fd ∧ fds (view k) !! fd = None ∧ names (view k) !! name = None ∧
        ∃ id, sizes (view k) !! id = None ∧
          view k' = with_fds (insert fd id) (with_sizes (insert id 0) (with_names (insert name id) (view k)))
    end;
  doc_open name mode k :
    match sys_shm_open name false mode k with
    | (inr e, k') => view k' = view k ∧ (e = ENOENT → names (view k) !! name = None)
    | (inl fd, k') => 0 <= fd ∧ fds (view k) !! fd = None ∧
        ∃ id, names (view k) !! name = Some id ∧ view k' = with_fds (insert fd id) (view k)
    end;
  doc_ftruncate fd size id k : fds (view k) !! fd = Some id →
    match sys_ftruncate fd size k with
    | (inr _, k') => view k' = view k
    | (inl _, k') => view k' = with_sizes (insert id size) (view k)
    end;
  doc_mmap size fd id k : fds (view k) !! fd = Some id →
    match sys_mmap size fd k with
    | (inr _, k') => view k' = view k
    | (inl a, k') => a ≠ 0 ∧ maps (view k) !! a = None ∧ view k' = with_maps (insert a (id, size)) (view k)
    end;
  doc_munmap a id size k : maps (view k) !! a = Some (id, size) →
    view (sys_munmap a size k).2 = with_maps (delete a) (view k);
  doc_fstat fd id k : fds (view k) !! fd = Some id →
    match sys_fstat fd k with
    | (inr _, k') => view k' = view k
    | (inl size, k') => view k' = view k ∧ sizes (view k) !! id = Some size
    end;
  doc_close fd k : view (sys_close fd k).2 = with_fds (delete fd) (view k);
  doc_unlink name k : view (sys_shm_unlink name k).2 = with_names (delete name) (view k)
}.

Ltac objs := unfold with_names, with_sizes, with_fds, with_maps in *; cbn [names sizes fds maps size_ address_ fd_] in *.

Section laws.
Context {K : Type} `{Kernel K} (view : K → objects) `{!Documented view} (mode : Z).
Implicit Types (h : handle) (v : objects) (name : list Z).
Abbreviation post A := (A + failure → handle → Z → objects → Prop).

(** *** Running a method *)

Lemma does_throw_system_error {A} context name h e v (Q : post A) :
  Q (inr (Failure e context name)) h e v → does view (throw_system_error context name) h e v Q.
Proof. exact (does_throw_error _ _ _ _ _ _ _). Qed.

Lemma does_close_fd h e v (Q : post unit) :
  (∀ e', Q (inl tt) (Handle (size_ h) (address_ h) INVALID_SHM_HANDLE) e' (with_fds (delete (fd_ h)) v)) →
  does view sys_close_fd h e v Q.
Proof.
  intros HQ. unfold sys_close_fd. apply does_bind, does_get, does_bind, does_syscall. intros k <-.
  pose proof (doc_close (fd_ h) k) as Hc. destruct (sys_close (fd_ h) k) as [[[]|x] k']; cbn [snd] in Hc;
    apply does_set_fd; rewrite Hc; apply HQ.
Qed.

Lemma does_unlink name h e v (Q : post unit) :
  (∀ e', Q (inl tt) h e' (with_names (delete name) v)) → does view (unlink name) h e v Q.
Proof.
  intros HQ. unfold unlink. apply does_bind, does_syscall. intros k <-. pose proof (doc_unlink name k) as Hu.
  destruct (sys_shm_unlink name k) as [[[]|x] k']; cbn [snd] in *; apply does_ret; rewrite Hu; apply HQ.
Qed.

Lemma does_open_exclusive name h e v (Q : post Z) :
  (∀ x, (x = EEXIST → is_Some (names v !! name)) → Q (inl (-1)) (Handle (size_ h) (address_ h) (-1)) x v) →
  (∀ fd id, 0 <= fd → fds v !! fd = None → names v !! name = None → sizes v !! id = None →
     Q (inl fd) (Handle (size_ h) (address_ h) fd) e
       (with_fds (insert fd id) (with_sizes (insert id 0) (with_names (insert name id) v)))) →
  does view (shm_open_fd name true mode) h e v Q.
Proof.
  intros Hno Hyes. unfold shm_open_fd. apply does_bind, does_syscall. intros k <-. pose proof (doc_create name mode k) as Hd.
  destruct (sys_shm_open name true mode k) as [[fd|x] k']; cbn [default]; apply does_bind, does_set_fd, does_ret.
  - destruct Hd as (Hfd & Hf & Hn & id & Hid & ->). by apply Hyes.
  - destruct Hd as [-> Hx]. by apply Hno.
Qed.

Lemma does_open_existing name h e v (Q : post Z) :
  (∀ x, (x = ENOENT → names v !! name = None) → Q (inl (-1)) (Handle (size_ h) (address_ h) (-1)) x v) →
  (∀ fd id, 0 <= fd → fds v !! fd = None → names v !! name = Some id →
     Q (inl fd) (Handle (size_ h) (address_ h) fd) e (with_fds (insert fd id) v)) →
  does view (shm_open_fd name false 0) h e v Q.
Proof.
  intros Hno Hyes. unfold shm_open_fd. apply does_bind, does_syscall. intros k <-. pose proof (doc_open name 0 k) as Hd.
  destruct (sys_shm_open name false 0 k) as [[fd|x] k']; cbn [default]; apply does_bind, does_set_fd, does_ret.
  - destruct Hd as (Hfd & Hf & id & Hid & ->). by eapply Hyes.
  - destruct Hd as [-> Hx]. by apply Hno.
Qed.

(** *** The methods *)

(** A handle whose descriptor is of object [id] is sized and mapped, or loses its
    descriptor. *)
Lemma does_map s0 size id fd e v (Q : post unit) :
  fds v !! fd = Some id →
  (∀ a e', a ≠ 0 → maps v !! a = None →
     Q (inl tt) (Handle size a fd) e' (with_maps (insert a (id, size)) (with_sizes (insert id (off_t size)) v))) →
  (∀ f e' s, s = sizes v ∨ s = <[id := off_t size]> (sizes v) →
     Q (inr f) (shut s0) e' (with_fds (delete fd) (with_sizes (λ _, s) v))) →
  does view (map_ size) (Handle s0 0 fd) e v Q.
Proof.
  intros Hfd Hyes Hno. unfold map_. apply does_bind, does_get, does_bind, does_syscall. intros k <-. cbn [fd_].
  pose proof (doc_ftruncate fd (off_t size) id k Hfd) as Ht. destruct (sys_ftruncate fd (off_t size) k) as [[[]|x] k1].
  2: { rewrite Ht. apply does_bind, does_close_fd. intros e'. apply does_throw_system_error. destruct (view k); apply Hno. by left. }
  apply does_bind, does_syscall. intros k2 Hk2. rewrite Ht in Hk2.
  pose proof (doc_mmap size fd id k2) as Hm. rewrite Hk2 in Hm. specialize (Hm Hfd).
  destruct (sys_mmap size fd k2) as [[a|x] k3].
  - destruct Hm as (Ha & Hfree & Hv). apply does_bind, does_set_address, does_set_size. rewrite Hv. by apply Hyes.
  - rewrite Hm. apply does_bind, does_set_address, does_bind, does_close_fd. intros e'. apply does_throw_system_error. apply Hno. by right.
Qed.

Lemma does_try_create s0 name size e v (Q : post bool) :
  (∀ a fd id e', a ≠ 0 → maps v !! a = None → 0 <= fd → fds v !! fd = None → names v !! name = None →
     sizes v !! id = None →
     Q (inl true) (Handle size a fd) e' (Objects (<[name := id]> (names v)) (<[id := off_t size]> (sizes v))
       (<[fd := id]> (fds v)) (<[a := (id, size)]> (maps v)))) →
  (∀ e', is_Some (names v !! name) → Q (inl false) (shut s0) e' v) →
  (∀ f e', Q (inr f) (shut s0) e' v) →
  (∀ f e' id s, names v !! name = None → sizes v !! id = None →
     Q (inr f) (shut s0) e' (with_sizes (insert id s) v)) →
  does view (try_create mode name size) (shut s0) e v Q.
Proof.
  intros Hyes Hexists Hno Hundone. unfold try_create. apply does_bind, does_open_exclusive.
  - intros x Hx. change (-1 <? 0) with true. lazy iota. apply does_bind, does_errno.
    destruct (Z.eqb_spec x EEXIST) as [E|E].
    + apply does_bind, does_set_fd, does_ret. by apply Hexists, Hx.
    + apply does_throw_system_error. apply Hno.
  - intros fd id Hfd Hfree Hn Hid. rewrite (proj2 (Z.ltb_ge fd 0)) by done. apply does_bind, does_on_failure.
    eapply (does_map s0 size id fd); [by apply lookup_insert_eq|..].
    + intros a e' Ha Hfa. apply does_ret. objs. rewrite insert_insert_eq. by apply Hyes.
    + intros f e' s Hs. apply (does_unlink name). intros e2. objs. rewrite !delete_insert_id by done.
      destruct Hs as [->| ->]; [|rewrite insert_insert_eq]; by apply Hundone.
Qed.

Lemma does_create s0 name size e v (Q : post unit) :
  (∀ a fd id e', a ≠ 0 → maps v !! a = None → 0 <= fd → fds v !! fd = None → sizes v !! id = None →
     Q (inl tt) (Handle size a fd) e' (Objects (<[name := id]> (names v)) (<[id := off_t size]> (sizes v))
       (<[fd := id]> (fds v)) (<[a := (id, size)]> (maps v)))) →
  (∀ f e', Q (inr f) (shut s0) e' (with_names (delete name) v)) →
  (∀ f e' id s, sizes v !! id = None →
     Q (inr f) (shut s0) e' (Objects (<[name := id]> (names v)) (<[id := s]> (sizes v)) (fds v) (maps v))) →
  does view (create mode name size) (shut s0) e v Q.
Proof.
  intros Hyes Hno Hleft. unfold create. apply does_bind. eapply (does_syscall view (sys_shm_unlink name)).
  intros k <-. pose proof (doc_unlink name k) as Hu. set (v := view k) in *.
  assert (∀ e', does view (fd <~ shm_open_fd name true mode ;;
      if fd <? 0 then throw_system_error "SharedMemory: shm_open(create)" name else map_ size)
    (shut s0) e' (with_names (delete name) v) Q) as Hrest.
  { intros e'. apply does_bind, does_open_exclusive.
    - intros x _. apply does_throw_system_error. apply Hno.
    - intros fd id Hfd Hfree _ Hid. rewrite (proj2 (Z.ltb_ge fd 0)) by done.
      eapply (does_map s0 size id fd); [by apply lookup_insert_eq|..]; objs.
      + intros a e2 Ha Hfa. rewrite insert_insert_eq, insert_delete_eq. by apply Hyes.
      + intros f e2 s Hs. rewrite delete_insert_id, insert_delete_eq by done.
        destruct Hs as [->| ->]; [|rewrite insert_insert_eq]; by apply Hleft. }
  destruct (sys_shm_unlink name k) as [[[]|x] k']; cbn [snd] in Hu; rewrite Hu; apply Hrest.
Qed.

Lemma does_try_open s0 name e v (Q : post bool) :
  (∀ a fd id size e', a ≠ 0 → maps v !! a = None → 0 <= fd → fds v !! fd = None → names v !! name = Some id →
     sizes v !! id = Some size → u64 size ≠ 0 →
     Q (inl true) (Handle (u64 size) a fd) e' (Objects (names v) (sizes v) (<[fd := id]> (fds v)) (<[a := (id, u64 size)]> (maps v)))) →
  (∀ s e', names v !! name = None ∨ (∃ id size, names v !! name = Some id ∧ sizes v !! id = Some size ∧ u64 size = 0) →
     Q (inl false) (shut s) e' v) →
  (∀ f s e', Q (inr f) (Handle s 0 (-1)) e' v) →
  does view (try_open name) (shut s0) e v Q.
Proof.
  intros Hyes Hnot Hno. unfold try_open. apply does_bind, does_open_existing.
  - intros x Hx. change (-1 <? 0) with true. lazy iota. apply does_bind, does_errno.
    destruct (Z.eqb_spec x ENOENT) as [E|E].
    + apply does_bind, does_set_fd, does_ret. apply Hnot. left. by apply Hx.
    + apply does_throw_system_error. apply Hno.
  - intros fd id Hfd Hfree Hn. rewrite (proj2 (Z.ltb_ge fd 0)) by done. apply does_bind, does_syscall.
    intros k Hk. assert (fds (view k) !! fd = Some id) as Hfdk by (rewrite Hk; apply lookup_insert_eq).
    assert (with_fds (delete fd) (with_fds (insert fd id) v) = v) as Hback.
    { objs. rewrite delete_insert_id by done. by destruct v. }
    pose proof (doc_fstat fd id k Hfdk) as Hd. destruct (sys_fstat fd k) as [[size|x] k1].
    2: { rewrite Hd, Hk. apply does_bind, does_close_fd. intros e2. apply does_throw_system_error. cbn [fd_ size_ address_].
         rewrite Hback. apply Hno. }
    destruct Hd as [Hv Hsize]. rewrite Hv, Hk. rewrite Hk in Hsize. cbn zeta. apply does_bind, does_set_size.
    destruct (Z.eqb_spec (u64 size) 0) as [Hz|Hne].
    { apply does_bind, does_close_fd. intros e2. apply does_ret. cbn [fd_ size_ address_]. rewrite Hback.
      rewrite Hz. apply Hnot. right. by exists id, size. }
    apply does_bind, does_syscall. intros k2 Hk2. pose proof (doc_mmap (u64 size) fd id k2) as Hm. rewrite Hk2 in Hm.
    specialize (Hm (lookup_insert_eq _ _ _)). destruct (sys_mmap (u64 size) fd k2) as [[a|x] k3].
    + destruct Hm as (Ha & Hfa & ->). apply does_bind, does_set_address, does_ret. objs. by apply Hyes.
    + rewrite Hm. apply does_bind, does_set_address, does_bind, does_close_fd. intros e2. apply does_throw_system_error.
      cbn [fd_ size_ address_]. rewrite Hback. apply Hno.
Qed.

Lemma does_open s0 name e v (Q : post unit) :
  (∀ a fd id size e', a ≠ 0 → maps v !! a = None → 0 <= fd → fds v !! fd = None → names v !! name = Some id →
     sizes v !! id = Some size → u64 size ≠ 0 →
     Q (inl tt) (Handle (u64 size) a fd) e' (Objects (names v) (sizes v) (<[fd := id]> (fds v)) (<[a := (id, u64 size)]> (maps v)))) →
  (∀ f s e', Q (inr f) (Handle s 0 (-1)) e' v) →
  does view (open name) (shut s0) e v Q.
Proof.
  intros Hyes Hno. unfold open. apply does_bind, does_try_open.
  - intros a fd id size e' Ha Hfa Hfd Hff Hn Hs Hne. apply does_ret. by apply Hyes.
  - intros s e' _. apply does_throw_system_error. apply Hno.
  - exact Hno.
Qed.

Lemma does_close_idle h e v (Q : post unit) :
  idle h → Q (inl tt) closed e v → does view close h e v Q.
Proof.
  intros [Ha Hf] HQ. unfold close. apply does_bind, does_get. rewrite Ha, Hf. cbn [negb Z.eqb].
  change (negb (INVALID_SHM_HANDLE =? INVALID_SHM_HANDLE)) with false. lazy iota.
  apply does_bind, does_ret, does_bind, does_ret, does_set_size. by rewrite Ha, Hf.
Qed.

Lemma does_close_open h id e v (Q : post unit) :
  address_ h ≠ 0 → fd_ h ≠ INVALID_SHM_HANDLE → maps v !! address_ h = Some (id, size_ h) →
  (∀ e', Q (inl tt) closed e' (with_fds (delete (fd_ h)) (with_maps (delete (address_ h)) v))) →
  does view close h e v Q.
Proof.
  intros Ha Hf Hm HQ. unfold close. apply does_bind, does_get.
  rewrite (proj2 (Z.eqb_neq (address_ h) 0)), (proj2 (Z.eqb_neq (fd_ h) _)) by done. cbn [negb].
  apply does_bind, does_bind, does_syscall. intros k <-. pose proof (doc_munmap _ _ _ k Hm) as Hu.
  destruct (sys_munmap (address_ h) (size_ h) k) as [[[]|x] k']; cbn [snd] in Hu;
    apply does_set_address, does_bind, does_close_fd; intros e'; apply does_set_size; rewrite Hu; apply HQ.
Qed.
End laws.

(** No object of before has changed size. *)
Definition same_sizes (v v' : objects) : Prop := sizes v ⊆ sizes v'.

#[export] Instance same_sizes_preorder : PreOrder same_sizes.
Proof. unfold same_sizes. split; [by intros x|]. intros x y z H1 H2. by etrans. Qed.

Lemma same_sizes_grown v nm id s F M :
  sizes v !! id = None → same_sizes v (Objects nm (<[id := s]> (sizes v)) F M).
Proof. intros Hid. by apply insert_subseteq. Qed.

Lemma same_sizes_eq v v' : sizes v' = sizes v → same_sizes v v'.
Proof. unfold same_sizes. by intros ->. Qed.

Lemma open_handle size a fd : a ≠ 0 → 0 <= fd → open_ (Handle size a fd).
Proof. intros Ha Hfd. split; [done|]. unfold invalid, posix_invalid, INVALID_SHM_HANDLE. cbn. lia. Qed.

#[export] Instance posix_laws {K} `{Kernel K} (view : K → objects) `{!Documented view} mode :
  Laws (posix mode) view fds maps eq same_sizes.
Proof.
  split; [exact _|..].
  - intros w name s0 e v. destruct w as [size|size| |]; cbn.
    + apply does_bind, does_create; [done|..].
      * intros a fd id e' Ha HM Hfd HF Hid. apply does_ret. split; [by apply same_sizes_grown|].
        split_and!; [by apply open_handle|done..|]. by exists id, size.
      * intros f e'. split; [by apply same_sizes_eq|done].
      * intros f e' id s Hid. split; [by apply same_sizes_grown|done].
    + apply does_try_create; [done|..].
      * intros a fd id e' Ha HM Hfd HF Hn Hid. split; [by apply same_sizes_grown|].
        split_and!; [by apply open_handle|done..|]. by exists id, size.
      * intros e' _. split; [by apply same_sizes_eq|done].
      * intros f e'. split; [by apply same_sizes_eq|done].
      * intros f e' id s _ Hid. split; [by apply same_sizes_grown|done].
    + apply does_bind, does_open; [done|..].
      * intros a fd id size e' Ha HM Hfd HF Hn Hid Hne. apply does_ret. split; [by apply same_sizes_eq|].
        split_and!; [by apply open_handle|done..|]. by exists id, (u64 size).
      * intros f s e'. split; [by apply same_sizes_eq|done].
    + apply does_try_open; [done|..].
      * intros a fd id size e' Ha HM Hfd HF Hn Hid Hne. split; [by apply same_sizes_eq|].
        split_and!; [by apply open_handle|done..|]. by exists id, (u64 size).
      * intros s e' _. split; [by apply same_sizes_eq|done].
      * intros f s e'. split; [by apply same_sizes_eq|done].
  - intros h e v Hi. by apply does_close_idle.
  - intros h id size e v [Ha Hf] Hfd HM <-. apply (does_close_open view h id); [done..|].
    intros e'. split_and!; [done..|by apply same_sizes_eq|done|done].
  - intros name e v. apply does_unlink; [done|]. intros e'. split; [by apply same_sizes_eq|done].
Qed.

(** C32. A process makes handles, gets objects on those that are not open - create,
    try_create, open and try_open, that succeed, report or throw at any system call -
    and closes, moves, assigns over, destroys and unlinks what it likes: once its
    handles are destroyed it holds the descriptors and mappings it started with, no
    more and no fewer, and no object that existed before has changed size under its
    peers.  ([reopening_leaks]: getting an object on an open handle is a leak.) *)
Theorem no_leak {K} `{Kernel K} (view : K → objects) `{!Documented view} mode (cs : list call) e k :
  disciplined (posix mode) cs ([], e, k) = true →
  let '(hs, e', k') := perform_all (posix mode) cs ([], e, k) in
  let v' := view (drop_all (posix mode) hs e' k') in
  fds v' = fds (view k) ∧ maps v' = maps (view k) ∧ sizes (view k) ⊆ sizes v'.
Proof. exact (handles_balance (posix mode) view fds maps eq same_sizes cs e k). Qed.

(** C33. [try_create] creates all or nothing: true means the name was free and now
    names a new object of the size asked for, which the handle maps; false means
    the name was taken and nothing changed; and when any of its system calls fails
    the name is free again, no descriptor or mapping is kept and the handle is
    closed. *)
Theorem try_create_all_or_nothing {K} `{Kernel K} (view : K → objects) `{!Documented view} mode name size e k :
  0 <= size < 9223372036854775808 →
  let '(r, p) := try_create mode name size (Process closed e k) in
  let v := view k in
  let v' := view (sys p) in
  match r with
  | inl true => names v !! name = None ∧ size_ (this p) = size ∧ address_ (this p) ≠ 0 ∧
      ∃ id, sizes v !! id = None ∧ names v' = <[name := id]> (names v) ∧ sizes v' = <[id := size]> (sizes v) ∧
        fds v' = <[fd_ (this p) := id]> (fds v) ∧ maps v' = <[address_ (this p) := (id, size)]> (maps v)
  | inl false => is_Some (names v !! name) ∧ v' = v ∧ this p = closed
  | inr _ => names v' = names v ∧ fds v' = fds v ∧ maps v' = maps v ∧ sizes v ⊆ sizes v' ∧ this p = closed
  end.
Proof.
  intros Hsize.
  pose proof (does_try_create view mode 0 name size e (view k) (λ r h _ v', let v := view k in match r with
    | inl true => names v !! name = None ∧ size_ h = size ∧ address_ h ≠ 0 ∧
        ∃ id, sizes v !! id = None ∧ names v' = <[name := id]> (names v) ∧ sizes v' = <[id := size]> (sizes v) ∧
          fds v' = <[fd_ h := id]> (fds v) ∧ maps v' = <[address_ h := (id, size)]> (maps v)
    | inl false => is_Some (names v !! name) ∧ v' = v ∧ h = closed
    | inr _ => names v' = names v ∧ fds v' = fds v ∧ maps v' = maps v ∧ sizes v ⊆ sizes v' ∧ h = closed
    end)) as Ht.
  assert (off_t size = size) as Hoff by (unfold off_t; rewrite (proj2 (Z.ltb_lt _ _)); lia).
  refine (Ht _ _ _ _ k eq_refl); cbn zeta.
  - intros a fd id e' Ha _ _ _ Hn Hid. rewrite Hoff. repeat split; [done..|]. by exists id.
  - by intros e' Hn.
  - by intros f e'.
  - intros f e' id s Hn Hid. objs. repeat split. by apply insert_subseteq.
Qed.

(** ** The creation mode *)

Lemma octal_digits_nonneg s v : 0 <= v → 0 <= (octal_digits s v).1.
Proof.
  revert v. induction s as [|c s IH]; intros v Hv; cbn [octal_digits]; [done|].
  destruct (isoctal c) eqn:Hc; [|done]. apply IH. unfold isoctal in Hc. apply andb_prop in Hc as [H1%Z.leb_le _]. lia.
Qed.

Lemma strtoul8_nonneg s : 0 <= (strtoul8 s).1.1.
Proof.
  unfold strtoul8. destruct (match skip_isspace s with [] => _ | _ => _ end) as [negative [|c t]]; [done|].
  destruct (isoctal c); [|done]. pose proof (octal_digits_nonneg (c :: t) 0 ltac:(done)) as Hv.
  destruct (octal_digits (c :: t) 0) as [v rest]. cbn [fst] in Hv. destruct (18446744073709551615 <? v); [done|].
  destruct negative; cbn; [|done]. unfold u64. by apply Z.mod_pos_bound.
Qed.

(** What [printf("%04o")] writes. *)
Definition four_octal_digits (m : Z) : list Z :=
  [48 + (m / 512) mod 8; 48 + (m / 64) mod 8; 48 + (m / 8) mod 8; 48 + m mod 8].

Definition reads_back (m : Z) : bool := kickmsg_shm_mode (Some (four_octal_digits m)) =? m.

Lemma four_octal_digits_read m : 0 <= m <= 4095 → kickmsg_shm_mode (Some (four_octal_digits m)) = m.
Proof.
  intros Hm. apply Z.eqb_eq. change (reads_back m = true).
  assert (∀ n, forallb (λ i, reads_back (Z.of_nat i)) (seq 0 n) = true → ∀ i, (i < n)%nat → reads_back (Z.of_nat i) = true) as Hall.
  { intros n Hn i Hi. rewrite forallb_forall in Hn. apply (Hn i), in_seq. lia. }
  rewrite <- (Z2Nat.id m) by lia. apply (Hall 4096%nat); [|lia]. vm_compute. reflexivity.
Qed.

(** Whatever KICKMSG_SHM_MODE holds, the mode objects are created with is made
    of permission bits; written as four octal digits it is the mode written. *)
Theorem shm_mode_permission_bits :
  (∀ env, 0 <= kickmsg_shm_mode env <= 4095) ∧
  (∀ mode, 0 <= mode <= 4095 → kickmsg_shm_mode (Some (four_octal_digits mode)) = mode).
Proof.
  split.
  - intros env. unfold kickmsg_shm_mode. destruct (c_string <$> env) as [[|c s]|]; [done| |done].
    pose proof (strtoul8_nonneg (c :: s)) as Hv. destruct (strtoul8 (c :: s)) as [[v range] rest]. cbn [fst] in Hv.
    destruct range; [done|]. cbn [orb]. destruct (_ || negb _); [done|]. cbn [orb].
    destruct (Z.ltb_spec 4095 v); [done|lia].
  - apply four_octal_digits_read.
Qed.

(** ** A kernel *)

Definition EBADF : Z := 9.
Definition EMFILE : Z := 24.

(** Objects, with a plan of which calls fail. *)
Record toy := Toy { toy_objects : objects; plan : list bool }.

Definition toy_call {A} (f : objects → (A + Z) * objects) (t : toy) : (A + Z) * toy :=
  match plan t with
  | true :: rest => (inr EMFILE, Toy (toy_objects t) rest)
  | rest => let '(r, v) := f (toy_objects t) in (r, Toy v (tail rest))
  end.

Definition toy_release (f : objects → objects) (t : toy) : (unit + Z) * toy :=
  (inl tt, Toy (f (toy_objects t)) (plan t)).

#[export] Instance toy_kernel : Kernel toy := {
  sys_shm_open name exclusive _ := toy_call (λ v,
    let fd := above (fds v) in
    match names v !! name, exclusive with
    | Some _, true => (inr EEXIST, v)
    | Some id, false => (inl fd, with_fds (insert fd id) v)
    | None, true =>
        let id := above (sizes v) in
        (inl fd, with_fds (insert fd id) (with_sizes (insert id 0) (with_names (insert name id) v)))
    | None, false => (inr ENOENT, v)
    end);
  sys_ftruncate fd size := toy_call (λ v,
    match fds v !! fd with
    | Some id => (inl tt, with_sizes (insert id size) v)
    | None => (inr EBADF, v)
    end);
  sys_mmap size fd := toy_call (λ v,
    match fds v !! fd with
    | Some id => let a := above (maps v) in (inl a, with_maps (insert a (id, size)) v)
    | None => (inr EBADF, v)
    end);
  sys_munmap a _ := toy_release (with_maps (delete a));
  sys_fstat fd := toy_call (λ v,
    match fds v !! fd ≫= λ id, sizes v !! id with
    | Some size => (inl size, v)
    | None => (inr EBADF, v)
    end);
  sys_close fd := toy_release (with_fds (delete fd));
  sys_shm_unlink name := toy_release (with_names (delete name))
}.

Ltac toy := unfold toy_call; intros; match goal with |- context [plan ?t] => destruct t as [v [|[|] rest]] end; cbn in *.

#[export] Instance toy_documented : Documented toy_objects.
Proof.
  assert (∀ m : gmap Z Z, 0 <= above m) as Hpos by (intros m; pose proof (proj1 (above_spec m)); lia).
  assert (∀ m : gmap Z (Z * Z), above m ≠ 0) as Hne by (intros m; pose proof (proj1 (above_spec m)); lia).
  split; cbn [sys_shm_open sys_ftruncate sys_mmap sys_munmap sys_fstat sys_close sys_shm_unlink toy_kernel]; [..|done|done].
  - toy; [|by split|]; (destruct (names v !! name) as [id|] eqn:Hn; cbn; [by split|]);
      (split_and!; [done|apply above_fresh|done|]); exists (above (sizes v)); by rewrite above_fresh.
  - toy; [|by split|]; (destruct (names v !! name) as [id|] eqn:Hn; cbn; [|by split]);
      (split_and!; [done|apply above_fresh|by exists id]).
  - toy; [|done|]; by simplify_option_eq.
  - toy; [|done|]; simplify_option_eq; (split_and!; [done|apply above_fresh|done]).
  - done.
  - toy; [|done|]; destruct (fds v !! fd) as [id'|]; simplify_eq; cbn; by destruct (sizes v !! id) eqn:E.
Qed.

(** ** Witnesses *)

Definition kernel0 (plan : list bool) : toy := Toy (Objects ∅ ∅ ∅ ∅) plan.
Definition demo : list Z := [47; 107].

(** [mmap] fails the first time and not the second. *)
Lemma try_create_all_or_nothing_witness :
  let attempt := try_create 384 demo 64 (Process closed 0 (kernel0 [false; false; true])) in
  (∃ f, attempt.1 = inr f ∧ code f = EMFILE) ∧
  names (toy_objects (sys attempt.2)) = ∅ ∧ fds (toy_objects (sys attempt.2)) = ∅ ∧
  (try_create 384 demo 64 attempt.2).1 = inl true.
Proof.
  cbn zeta. pose proof (try_create_all_or_nothing toy_objects 384 demo 64 0 (kernel0 [false; false; true]) ltac:(lia)) as Hall.
  assert (∃ f, (try_create 384 demo 64 (Process closed 0 (kernel0 [false; false; true]))).1 = inr f ∧ code f = EMFILE) as (f & Hf & Hc)
    by (vm_compute; by eexists).
  split; [by exists f|].
  assert ((try_create 384 demo 64 (try_create 384 demo 64 (Process closed 0 (kernel0 [false; false; true]))).2).1 = inl true) as Hagain
    by (vm_compute; done).
  destruct (try_create 384 demo 64 (Process closed 0 (kernel0 [false; false; true]))) as [r p].
  cbn [fst snd] in *. subst r. destruct Hall as (Hn & Hfds & _). by split.
Defined.

(** A process creates, opens, assigns over a handle, is refused a mapping, tries
    again on the same handle, closes and opens once more. *)
Definition busy : list call :=
  [Default; Acquire 0 (TryCreating 64) demo; Default; Acquire 1 TryOpening demo; Assign 0 1; Acquire 1 (Creating 8) demo;
   Acquire 1 (TryCreating 8) [47; 108]; Close 0; Acquire 0 Opening [47; 108]].
Definition kernel1 : toy := kernel0 [false; false; false; false; false; false; false; false; true].

Lemma no_leak_witness :
  let '(hs, e, k) := perform_all (posix 384) busy ([], 0, kernel1) in
  is_open <$> hs = [true; true] ∧ fds (toy_objects (drop_all (posix 384) hs e k)) = ∅.
Proof.
  assert (disciplined (posix 384) busy ([], 0, kernel1) = true) as Hd by (vm_compute; reflexivity).
  pose proof (no_leak toy_objects 384 busy 0 kernel1 Hd) as Hall.
  assert (let '(hs, e, k) := perform_all (posix 384) busy ([], 0, kernel1) in is_open <$> hs = [true; true]) as Hrun
    by (vm_compute; reflexivity).
  destruct (perform_all (posix 384) busy ([], 0, kernel1)) as [[hs e] k]. split; [exact Hrun|]. by destruct Hall as [Hfds _].
Defined.

(** The methods that get an object overwrite what an open handle holds. *)
Lemma reopening_leaks :
  let '(hs, e, k) := perform_all (posix 384) [Default; Acquire 0 (TryCreating 64) demo; Acquire 0 TryOpening demo] ([], 0, kernel0 []) in
  is_open <$> hs = [true] ∧ size (fds (toy_objects (drop_all (posix 384) hs e k))) = 1%nat ∧
  size (maps (toy_objects (drop_all (posix 384) hs e k))) = 1%nat.
Proof. vm_compute. done. Qed.

(** [create] does not undo: when its [ftruncate] fails the name is left on an
    object of size 0, which [try_create] takes for a live one and [try_open] for
    one not ready, in every process and for ever. *)
Lemma create_wedges :
  let '(r, p) := create 384 demo 64 (Process closed 0 (kernel0 [false; true])) in
  let '(r2, p2) := try_create 384 demo 64 p in
  let '(r3, p3) := try_open demo p2 in
  (∃ f, r = inr f) ∧ r2 = inl false ∧ r3 = inl false ∧ toy_objects (sys p3) = toy_objects (sys p).
Proof. vm_compute. split_and!; [by eexists|done..]. Qed.
End Objects.
