(* ===== verification/WinObjects.v ===== *)
(** * Shared-memory objects over Windows ([src/os/windows/SharedMemory.cc])

    The methods of a [SharedMemory] over named file mappings.  The calls of Windows
    are a parameter ([Win32]) and [Documented] is what is documented of them: a
    mapping object lives as long as a handle or a view of it, of any process, and
    its name with it.  An acquisition is all or nothing, never replaces an object,
    and a process leaks neither handle nor view. *)

From stdpp Require Import gmap fin_maps.
From S2P Require Import Prelude Prog Syscalls Handles.
Import Handles.

(** The calls: a result, the last error they leave and the new state.  Null is
    [None]. *)
Class Win32 (K : Type) := {
  CreateFileMappingA : Z → Z → list Z → K → option Z * Z * K;  (** size: high and low words *)
  OpenFileMappingA : list Z → K → option Z * Z * K;
  MapViewOfFile : Z → Z → K → option Z * Z * K;                (** handle, bytes: 0 for all *)
  VirtualQuery : Z → K → option Z * Z * K;                     (** [RegionSize] *)
  UnmapViewOfFile : Z → K → option unit * Z * K;
  CloseHandle : Z → K → option unit * Z * K
}.

Module WinObjects.
Definition ERROR_FILE_NOT_FOUND : Z := 2.
Definition ERROR_ALREADY_EXISTS : Z := 183.

(** Null. *)
Definition INVALID_SHM_HANDLE : Z := 0.
#[export] Instance windows_invalid : Invalid := INVALID_SHM_HANDLE.

(** ** The methods *)

Section methods.
Context {K : Type} `{Win32 K}.

Local Abbreviation io := (io handle failure K).

Definition GetLastError : io Z := get_errno.

Definition throw_last_error {A} (context : string) (name : list Z) : io A :=
  e <~ GetLastError ;; throw (Failure (i32 e) context name).

Definition close_fd : io unit :=
  h <~ get ;; api (CloseHandle (fd_ h)) ;;~ set_fd INVALID_SHM_HANDLE.

Definition map_ (size : Z) : io unit :=
  h <~ get ;;
  a <~ api (MapViewOfFile (fd_ h) size) ;;
  set_address (default 0 a) ;;~
  match a with
  | None => close_fd ;;~ throw_last_error "SharedMemory: MapViewOfFile()" []
  | Some _ => set_size size
  end.

(** The handle, null on failure. *)
Definition create_file_mapping (name : list Z) (size : Z) : io Z :=
  fd <~ api (CreateFileMappingA (Z.land (Z.shiftr size 32) 4294967295) (Z.land size 4294967295) name) ;;
  let fd := default INVALID_SHM_HANDLE fd in
  set_fd fd ;;~ io_ret fd.

Definition create (name : list Z) (size : Z) : io unit :=
  fd <~ create_file_mapping name size ;;
  if fd =? INVALID_SHM_HANDLE then throw_last_error "SharedMemory: CreateFileMappingA(create)" name
  else
    e <~ GetLastError ;;
    if e =? ERROR_ALREADY_EXISTS then
      close_fd ;;~ throw (Failure ERROR_ALREADY_EXISTS "SharedMemory: mapping already exists" name)
    else map_ size.

Definition try_create (name : list Z) (size : Z) : io bool :=
  fd <~ create_file_mapping name size ;;
  if fd =? INVALID_SHM_HANDLE then throw_last_error "SharedMemory: CreateFileMappingA(try_create)" name
  else
    e <~ GetLastError ;;
    if e =? ERROR_ALREADY_EXISTS then close_fd ;;~ io_ret false
    else map_ size ;;~ io_ret true.

Definition try_open (name : list Z) : io bool :=
  fd <~ api (OpenFileMappingA name) ;;
  let fd := default INVALID_SHM_HANDLE fd in
  set_fd fd ;;~
  if fd =? INVALID_SHM_HANDLE then
    e <~ GetLastError ;;
    if e =? ERROR_FILE_NOT_FOUND then io_ret false
    else throw_last_error "SharedMemory: OpenFileMappingA(try_open)" name
  else
    a <~ api (MapViewOfFile fd 0) ;;
    set_address (default 0 a) ;;~
    match a with
    | None => close_fd ;;~ throw_last_error "SharedMemory: MapViewOfFile()" []
    | Some a =>
        info <~ api (VirtualQuery a) ;;
        match info with
        | None =>
            api (UnmapViewOfFile a) ;;~ set_address 0 ;;~ close_fd ;;~
            throw_last_error "SharedMemory: VirtualQuery()" []
        | Some RegionSize => set_size RegionSize ;;~ io_ret true
        end
    end.

Definition open (name : list Z) : io unit :=
  ok <~ try_open name ;;
  if ok : bool then io_ret tt else throw_last_error "SharedMemory: OpenFileMappingA(open)" name.

Definition close : io unit :=
  h <~ get ;;
  (if negb (address_ h =? 0) then api (UnmapViewOfFile (address_ h)) ;;~ set_address 0 else io_ret tt) ;;~
  (if negb (fd_ h =? INVALID_SHM_HANDLE) then close_fd else io_ret tt) ;;~
  set_size 0.

Definition unlink (_ : list Z) : io unit := io_ret tt.

#[export] Instance windows : Platform K := {|
  Handles.create := create;
  Handles.try_create := try_create;
  Handles.open := open;
  Handles.try_open := try_open;
  Handles.close := close;
  Handles.unlink := unlink
|}.
End methods.

(** ** What Windows documents *)

(** The names of the session, the sizes of its mapping objects, the handles and
    views of this process, and the objects other processes have handles or views
    of. *)
Record sections := Sections {
  names : gmap (list Z) Z;
  sizes : gmap Z Z;
  fds : gmap Z Z;
  maps : gmap Z (Z * Z);
  others : gset Z
}.

(** Objects in use. *)
Definition used (v : sections) : gset Z := others v ∪ map_img (fds v) ∪ map_img (fst <$> maps v).

(** The objects that are no longer in use are destroyed. *)
Definition reap (v : sections) : sections :=
  Sections (filter (λ kv, kv.2 ∈ used v) (names v)) (filter (λ kv, kv.1 ∈ used v) (sizes v)) (fds v) (maps v) (others v).

Definition reaped (v : sections) : Prop :=
  (∀ name id, names v !! name = Some id → id ∈ used v) ∧ (∀ id, is_Some (sizes v !! id) → id ∈ used v).

Definition with_fds (f : gmap Z Z → gmap Z Z) (v : sections) : sections :=
  Sections (names v) (sizes v) (f (fds v)) (maps v) (others v).
Definition with_maps (f : gmap Z (Z * Z) → gmap Z (Z * Z)) (v : sections) : sections :=
  Sections (names v) (sizes v) (fds v) (f (maps v)) (others v).
Definition with_object (name : list Z) (id size : Z) (v : sections) : sections :=
  Sections (<[name := id]> (names v)) (<[id := size]> (sizes v)) (fds v) (maps v) (others v).

(** Each call fails and changes nothing, or does what it says; a view of 0 bytes
    is of the whole object, and views have whole pages. *)
Class Documented {K} `{Win32 K} (view : K → sections) : Prop := {
  doc_reaped k : reaped (view k);
  doc_create high low name k :
    match CreateFileMappingA high low name k with
    | (None, _, k') => view k' = view k
    | (Some fd, e, k') => fd ≠ 0 ∧ fds (view k) !! fd = None ∧
        match names (view k) !! name with
        | Some id => e = ERROR_ALREADY_EXISTS ∧ view k' = with_fds (insert fd id) (view k)
        | None => e ≠ ERROR_ALREADY_EXISTS ∧ ∃ id, (id ∉ used (view k)) ∧
            view k' = with_fds (insert fd id) (with_object name id (high * 4294967296 + low) (view k))
        end
    end;
  doc_open name k :
    match OpenFileMappingA name k with
    | (None, e, k') => view k' = view k ∧ (e = ERROR_FILE_NOT_FOUND → names (view k) !! name = None)
    | (Some fd, _, k') => fd ≠ 0 ∧ fds (view k) !! fd = None ∧
        ∃ id, names (view k) !! name = Some id ∧ view k' = with_fds (insert fd id) (view k)
    end;
  doc_map fd bytes id k : fds (view k) !! fd = Some id →
    match MapViewOfFile fd bytes k with
    | (None, _, k') => view k' = view k
    | (Some a, _, k') => a ≠ 0 ∧ maps (view k) !! a = None ∧
        ∃ extent, bytes <= extent ∧ (bytes = 0 → ∀ size, sizes (view k) !! id = Some size → size <= extent) ∧
          view k' = with_maps (insert a (id, extent)) (view k)
    end;
  doc_query a id extent k : maps (view k) !! a = Some (id, extent) →
    match VirtualQuery a k with
    | (None, _, k') => view k' = view k
    | (Some size, _, k') => view k' = view k ∧ size = extent
    end;
  doc_unmap a id extent k : maps (view k) !! a = Some (id, extent) →
    view (UnmapViewOfFile a k).2 = reap (with_maps (delete a) (view k));
  doc_close fd id k : fds (view k) !! fd = Some id →
    view (CloseHandle fd k).2 = reap (with_fds (delete fd) (view k))
}.
Lemma used_views v a id extent : maps v !! a = Some (id, extent) → id ∈ used v.
Proof.
  intros Hm. unfold used. apply elem_of_union_r, elem_of_map_img. exists a. by rewrite lookup_fmap, Hm.
Qed.

Lemma used_handles v fd id : fds v !! fd = Some id → id ∈ used v.
Proof. intros Hf. unfold used. apply elem_of_union_l, elem_of_union_r, elem_of_map_img. by exists fd. Qed.

Lemma reap_id v : reaped v → reap v = v.
Proof.
  intros [Hn Hs]. destruct v as [nm sz F M O]. unfold reap. cbn in *. f_equal.
  - apply map_filter_id. intros name id Hid. by apply (Hn name).
  - apply map_filter_id. intros id size Hid. by apply Hs.
Qed.

Lemma reaped_taken fd id v : fds v !! fd = None → reaped v → reaped (with_fds (insert fd id) v).
Proof.
  intros Hf [Hn Hs]. assert (used v ⊆ used (with_fds (insert fd id) v)) as Hu.
  { unfold used, with_fds. cbn. rewrite map_img_insert_notin_L by done. set_solver. }
  split; [intros name id' Hid; by apply Hu, (Hn name)|intros id' Hid; by apply Hu, Hs].
Qed.

(** An object made and dropped leaves no trace. *)
Lemma reap_object name id size v :
  reaped v → names v !! name = None → id ∉ used v → reap (with_object name id size v) = v.
Proof.
  intros Hr Hn Hid. assert (sizes v !! id = None) as Hs.
  { apply eq_None_not_Some. intros Hs. by apply Hid, (proj2 Hr). }
  rewrite <- (reap_id v Hr) at 2. unfold reap, with_object. cbn [names sizes fds maps others].
  change (used (Sections _ _ (fds v) (maps v) (others v))) with (used v).
  f_equal; (rewrite map_filter_insert_False by done); by rewrite delete_id.
Qed.

Lemma closed_again fd id v : fds v !! fd = None → with_fds (delete fd) (with_fds (insert fd id) v) = v.
Proof. intros Hf. destruct v. unfold with_fds. cbn in *. by rewrite delete_insert_id. Qed.

Lemma unmapped_again a m v : maps v !! a = None → with_maps (delete a) (with_maps (insert a m) v) = v.
Proof. intros Hf. destruct v. unfold with_maps. cbn in *. by rewrite delete_insert_id. Qed.

Section laws.
Context {K : Type} `{Win32 K} (view : K → sections) `{!Documented view}.
(** The size an object's new handle holds before. *)
Context (s0 : Z).
Implicit Types (h : handle) (v : sections) (name : list Z).
Abbreviation post A := (A + failure → handle → Z → sections → Prop).

(** *** Running a method *)

Lemma does_reaped {A} (m : io handle failure K A) h e v (Q : post A) :
  (reaped v → does view m h e v Q) → does view m h e v Q.
Proof. intros Hm k <-. apply Hm; [apply doc_reaped|done]. Qed.

Lemma does_throw_last_error {A} context name h e v (Q : post A) :
  Q (inr (Failure (i32 e) context name)) h e v → does view (throw_last_error context name) h e v Q.
Proof. intros HQ. by apply does_bind, does_errno, does_throw. Qed.

Lemma does_win_close_fd h id e v (Q : post unit) :
  fds v !! fd_ h = Some id →
  (∀ e', Q (inl tt) (Handle (size_ h) (address_ h) INVALID_SHM_HANDLE) e' (reap (with_fds (delete (fd_ h)) v))) →
  does view close_fd h e v Q.
Proof.
  intros Hf HQ. unfold close_fd. apply does_bind, does_get, does_bind, does_api. intros k <-.
  pose proof (doc_close (fd_ h) id k Hf) as Hc. destruct (CloseHandle (fd_ h) k) as [[r x] k']; cbn [snd] in Hc.
  apply does_set_fd. rewrite Hc. apply HQ.
Qed.

(** A descriptor that is closed as soon as it is taken. *)
Lemma does_close_taken fd id e v (Q : post unit) :
  fds v !! fd = None → reaped v → (∀ e', Q (inl tt) (shut s0) e' v) →
  does view close_fd (Handle s0 0 fd) e (with_fds (insert fd id) v) Q.
Proof.
  intros Hf Hr HQ. apply (does_win_close_fd _ id); [apply lookup_insert_eq|]. intros e'. cbn [fd_ size_ address_].
  rewrite closed_again, reap_id by done. apply HQ.
Qed.

Lemma does_unmap a id extent h e v (Q : post (option unit)) :
  maps v !! a = Some (id, extent) →
  (∀ r e', Q (inl r) h e' (reap (with_maps (delete a) v))) → does view (api (UnmapViewOfFile a)) h e v Q.
Proof.
  intros Hm HQ. apply does_api. intros k <-. pose proof (doc_unmap a id extent k Hm) as Hu.
  destruct (UnmapViewOfFile a k) as [[r x] k']; cbn [snd] in Hu. rewrite Hu. apply HQ.
Qed.

(** *** The methods *)

Lemma does_create_file_mapping name size e v (Q : post Z) :
  (∀ x, Q (inl 0) (shut s0) x v) →
  (∀ fd id, fd ≠ 0 → fds v !! fd = None → names v !! name = Some id →
     Q (inl fd) (Handle s0 0 fd) ERROR_ALREADY_EXISTS (with_fds (insert fd id) v)) →
  (∀ fd id x, fd ≠ 0 → fds v !! fd = None → names v !! name = None → x ≠ ERROR_ALREADY_EXISTS → id ∉ used v →
     Q (inl fd) (Handle s0 0 fd) x (with_fds (insert fd id) (with_object name id (u64 size) v))) →
  does view (create_file_mapping name size) (shut s0) e v Q.
Proof.
  intros Hno Hold Hnew. unfold create_file_mapping. apply does_bind, does_api. intros k <-.
  set (high := Z.land (Z.shiftr size 32) _). set (low := Z.land size _). pose proof (doc_create high low name k) as Hd.
  assert (high * 4294967296 + low = u64 size) as Hwords.
  { unfold high, low, u64. change 4294967295 with (Z.ones 32). rewrite !Z.land_ones, Z.shiftr_div_pow2 by done.
    change (2 ^ 32) with 4294967296. lia. }
  destruct (CreateFileMappingA high low name k) as [[[fd|] x] k']; cbn [default from_option Datatypes.id]; apply does_bind, does_set_fd, does_ret.
  - destruct Hd as (Hfd & Hf & Hd). destruct (names (view k) !! name) as [id|] eqn:Hn.
    + destruct Hd as [-> ->]. by apply Hold.
    + destruct Hd as (Hx & id & Hid & ->). rewrite Hwords. by apply Hnew.
  - rewrite Hd. apply Hno.
Qed.

Lemma does_win_map size id fd e v (Q : post unit) :
  fds v !! fd = Some id →
  (∀ a extent e', a ≠ 0 → maps v !! a = None → size <= extent →
     Q (inl tt) (Handle size a fd) e' (with_maps (insert a (id, extent)) v)) →
  (∀ f e', Q (inr f) (shut s0) e' (reap (with_fds (delete fd) v))) →
  does view (map_ size) (Handle s0 0 fd) e v Q.
Proof.
  intros Hf Hyes Hno. unfold map_. apply does_bind, does_get, does_bind, does_api. intros k <-. cbn [fd_].
  pose proof (doc_map fd size id k Hf) as Hm. destruct (MapViewOfFile fd size k) as [[[a|] x] k']; cbn [default from_option Datatypes.id];
    apply does_bind, does_set_address; cbn [fd_ size_ address_].
  - destruct Hm as (Ha & Hfree & extent & Hext & _ & ->). apply does_set_size. by apply Hyes.
  - rewrite Hm. apply does_bind, (does_win_close_fd _ id); [done|]. intros e'. apply does_throw_last_error. apply Hno.
Qed.

(** A new object is mapped, or is gone. *)
Lemma does_map_new name size id fd e v (Q : post unit) :
  reaped v → fds v !! fd = None → names v !! name = None → id ∉ used v →
  (∀ a extent e', a ≠ 0 → maps v !! a = None → size <= extent → Q (inl tt) (Handle size a fd) e'
     (with_maps (insert a (id, extent)) (with_fds (insert fd id) (with_object name id (u64 size) v)))) →
  (∀ f e', Q (inr f) (shut s0) e' v) →
  does view (map_ size) (Handle s0 0 fd) e (with_fds (insert fd id) (with_object name id (u64 size) v)) Q.
Proof.
  intros Hr Hf Hn Hid Hyes Hno. apply (does_win_map size id); [apply lookup_insert_eq|exact Hyes|]. intros f e'.
  rewrite closed_again, reap_object by done. apply Hno.
Qed.

Lemma does_win_create name size e v (Q : post unit) :
  (∀ a fd id extent e', a ≠ 0 → maps v !! a = None → fd ≠ 0 → fds v !! fd = None → names v !! name = None →
     id ∉ used v → size <= extent → Q (inl tt) (Handle size a fd) e'
       (with_maps (insert a (id, extent)) (with_fds (insert fd id) (with_object name id (u64 size) v)))) →
  (∀ f e', Q (inr f) (shut s0) e' v) →
  does view (create name size) (shut s0) e v Q.
Proof.
  intros Hyes Hno. apply does_reaped. intros Hr. unfold create.
  apply does_bind, does_create_file_mapping.
  - intros x. apply does_throw_last_error. apply Hno.
  - intros fd id Hfd Hf Hn. rewrite (proj2 (Z.eqb_neq fd _)) by done. apply does_bind, does_errno.
    apply does_bind, does_close_taken; [done..|]. intros e'. apply does_throw, Hno.
  - intros fd id x Hfd Hf Hn Hx Hid. rewrite (proj2 (Z.eqb_neq fd _)) by done. apply does_bind, does_errno.
    rewrite (proj2 (Z.eqb_neq x _)) by done. apply does_map_new; auto.
Qed.

Lemma does_win_try_create name size e v (Q : post bool) :
  (∀ a fd id extent e', a ≠ 0 → maps v !! a = None → fd ≠ 0 → fds v !! fd = None → names v !! name = None →
     id ∉ used v → size <= extent → Q (inl true) (Handle size a fd) e'
       (with_maps (insert a (id, extent)) (with_fds (insert fd id) (with_object name id (u64 size) v)))) →
  (∀ e', is_Some (names v !! name) → Q (inl false) (shut s0) e' v) →
  (∀ f e', Q (inr f) (shut s0) e' v) →
  does view (try_create name size) (shut s0) e v Q.
Proof.
  intros Hyes Hold Hno. apply does_reaped. intros Hr. unfold try_create.
  apply does_bind, does_create_file_mapping.
  - intros x. apply does_throw_last_error. apply Hno.
  - intros fd id Hfd Hf Hn. rewrite (proj2 (Z.eqb_neq fd _)) by done. apply does_bind, does_errno.
    apply does_bind, does_close_taken; [done..|]. intros e'. apply does_ret, Hold. by exists id.
  - intros fd id x Hfd Hf Hn Hx Hid. rewrite (proj2 (Z.eqb_neq fd _)) by done. apply does_bind, does_errno.
    rewrite (proj2 (Z.eqb_neq x _)) by done. apply does_bind, does_map_new; auto.
    intros a extent e' Ha HM Hext. apply does_ret. by apply Hyes.
Qed.

Lemma does_win_try_open name e v (Q : post bool) :
  (∀ a fd id extent e', a ≠ 0 → maps v !! a = None → fd ≠ 0 → fds v !! fd = None → names v !! name = Some id →
     (∀ size, sizes v !! id = Some size → size <= extent) →
     Q (inl true) (Handle extent a fd) e' (with_maps (insert a (id, extent)) (with_fds (insert fd id) v))) →
  (∀ e', names v !! name = None → Q (inl false) (shut s0) e' v) →
  (∀ f e', Q (inr f) (shut s0) e' v) →
  does view (try_open name) (shut s0) e v Q.
Proof.
  intros Hyes Hnot Hno. apply does_reaped. intros Hr. unfold try_open. apply does_bind, does_api. intros k <-.
  pose proof (doc_open name k) as Hd. set (v := view k) in *.
  destruct (OpenFileMappingA name k) as [[[fd|] x] k']; cbn [default from_option Datatypes.id]; apply does_bind, does_set_fd.
  2: { destruct Hd as [-> Hx]. change (INVALID_SHM_HANDLE =? INVALID_SHM_HANDLE) with true. lazy iota.
    apply does_bind, does_errno. destruct (Z.eqb_spec x ERROR_FILE_NOT_FOUND) as [E|_].
    - by apply does_ret, Hnot, Hx.
    - apply does_throw_last_error, Hno. }
  destruct Hd as (Hfd & Hf & id & Hn & ->). rewrite (proj2 (Z.eqb_neq fd _)) by done. cbn [size_ address_].
  apply does_bind, does_api. intros k2 Hk2. pose proof (doc_map fd 0 id k2) as Hm. rewrite Hk2 in Hm.
  specialize (Hm (lookup_insert_eq _ _ _)). destruct (MapViewOfFile fd 0 k2) as [[[a|] x2] k3]; cbn [default from_option Datatypes.id];
    apply does_bind, does_set_address; cbn [fd_ size_ address_].
  2: { rewrite Hm. apply does_bind, does_close_taken; [done..|]. intros e'. apply does_throw_last_error, Hno. }
  destruct Hm as (Ha & HM & extent & _ & Hext & ->). specialize (Hext eq_refl).
  apply does_bind, does_api. intros k4 Hk4. pose proof (doc_query a id extent k4) as Hq. rewrite Hk4 in Hq.
  specialize (Hq (lookup_insert_eq _ _ _)). destruct (VirtualQuery a k4) as [[[size|] x3] k5].
  - destruct Hq as [-> ->]. apply does_bind, does_set_size, does_ret. by apply Hyes.
  - rewrite Hq. apply does_bind, (does_unmap a id extent); [apply lookup_insert_eq|]. intros r e'.
    rewrite unmapped_again by done. apply does_bind, does_set_address. cbn [fd_ size_ address_].
    rewrite reap_id by (by apply reaped_taken).
    apply does_bind, does_close_taken; [done..|]. intros e2. apply does_throw_last_error, Hno.
Qed.

Lemma does_win_open name e v (Q : post unit) :
  (∀ a fd id extent e', a ≠ 0 → maps v !! a = None → fd ≠ 0 → fds v !! fd = None → names v !! name = Some id →
     (∀ size, sizes v !! id = Some size → size <= extent) →
     Q (inl tt) (Handle extent a fd) e' (with_maps (insert a (id, extent)) (with_fds (insert fd id) v))) →
  (∀ f e', Q (inr f) (shut s0) e' v) →
  does view (open name) (shut s0) e v Q.
Proof.
  intros Hyes Hno. unfold open. apply does_bind, does_win_try_open.
  - intros a fd id extent e' Ha HM Hfd Hf Hn Hext. apply does_ret. by apply Hyes.
  - intros e' _. apply does_throw_last_error, Hno.
  - exact Hno.
Qed.

Lemma does_win_close_idle h e v (Q : post unit) :
  idle h → Q (inl tt) closed e v → does view close h e v Q.
Proof.
  intros [Ha Hf] HQ. unfold close. apply does_bind, does_get. rewrite Ha, Hf. cbn [negb Z.eqb].
  change (negb (invalid =? INVALID_SHM_HANDLE)) with false. lazy iota.
  apply does_bind, does_ret, does_bind, does_ret, does_set_size. by rewrite Ha, Hf.
Qed.

Lemma does_win_close_open h id id' extent e v (Q : post unit) :
  open_ h → fds v !! fd_ h = Some id → maps v !! address_ h = Some (id', extent) →
  (∀ e', Q (inl tt) closed e' (reap (with_fds (delete (fd_ h)) (reap (with_maps (delete (address_ h)) v))))) →
  does view close h e v Q.
Proof.
  intros [Ha Hf] Hfd Hm HQ. unfold close. apply does_bind, does_get.
  rewrite (proj2 (Z.eqb_neq (address_ h) 0)), (proj2 (Z.eqb_neq (fd_ h) _)) by done. cbn [negb].
  apply does_bind, does_bind, (does_unmap _ id' extent); [done|]. intros r e'.
  apply does_set_address, does_bind, (does_win_close_fd _ id); [done|]. intros e2. apply does_set_size. apply HQ.
Qed.
End laws.

(** ** What other processes see *)

(** The objects others use keep their sizes and names. *)
Definition untouched (v v' : sections) : Prop :=
  others v' = others v ∧ ∀ id, id ∈ others v →
    sizes v' !! id = sizes v !! id ∧ ∀ name, names v' !! name = Some id ↔ names v !! name = Some id.

#[export] Instance untouched_preorder : PreOrder untouched.
Proof.
  split; [done|]. intros v1 v2 v3 [Ho1 H1] [Ho2 H2]. split; [by rewrite Ho2|]. intros id Hid.
  destruct (H1 id Hid) as [Hs1 Hn1]. rewrite <- Ho1 in Hid. destruct (H2 id Hid) as [Hs2 Hn2].
  split; [by rewrite Hs2|]. intros name. by rewrite Hn2.
Qed.

Lemma untouched_reap v : untouched v (reap v).
Proof.
  split; [done|]. intros id Hid. assert (id ∈ used v) as Hu by (unfold used; set_solver).
  unfold reap. cbn. split.
  - rewrite map_lookup_filter. destruct (sizes v !! id); [|done]. cbn. by rewrite option_guard_True.
  - intros name. rewrite map_lookup_filter_Some. naive_solver.
Qed.

Lemma untouched_same v v' :
  others v' = others v → sizes v' = sizes v → names v' = names v → untouched v v'.
Proof. intros Ho Hs Hn. split; [done|]. intros id _. by rewrite Hs, Hn. Qed.

Lemma untouched_object name id size v :
  names v !! name = None → id ∉ used v → untouched v (with_object name id size v).
Proof.
  intros Hn Hid. split; [done|]. intros id' Hid'. assert (id' ≠ id) as Hne by (unfold used in Hid; set_solver).
  cbn. rewrite lookup_insert_ne by done. split; [done|]. intros n. rewrite lookup_insert_Some. naive_solver.
Qed.

Lemma untouched_made name id size fd a m v :
  names v !! name = None → id ∉ used v →
  untouched v (with_maps (insert a m) (with_fds (insert fd id) (with_object name id size v))).
Proof. intros Hn Hid. etrans; [by apply (untouched_object name id size)|]. by apply untouched_same. Qed.

#[export] Instance windows_laws {K} `{Win32 K} (view : K → sections) `{!Documented view} :
  Laws windows view fds maps Z.le untouched.
Proof.
  split; [exact _|..].
  - intros w name s0 e v. destruct w as [size|size| |]; cbn.
    + apply does_bind, does_win_create; [done|..].
      * intros a fd id extent e' Ha HM Hfd Hf Hn Hid Hext. apply does_ret. split; [by apply untouched_made|].
        split_and!; [done..|]. by exists id, extent.
      * by intros f e'.
    + apply does_win_try_create; [done|..].
      * intros a fd id extent e' Ha HM Hfd Hf Hn Hid Hext. split; [by apply untouched_made|].
        split_and!; [done..|]. by exists id, extent.
      * by intros e' _.
      * by intros f e'.
    + apply does_bind, does_win_open; [done|..].
      * intros a fd id extent e' Ha HM Hfd Hf Hn Hext. apply does_ret. split; [by apply untouched_same|].
        split_and!; [done..|]. by exists id, extent.
      * by intros f e'.
    + apply does_win_try_open; [done|..].
      * intros a fd id extent e' Ha HM Hfd Hf Hn Hext. split; [by apply untouched_same|].
        split_and!; [done..|]. by exists id, extent.
      * by intros e' _.
      * by intros f e'.
  - intros h e v Hi. by apply does_win_close_idle.
  - intros h id size e v Ho Hfd HM _. apply (does_win_close_open view h id id size); [done..|].
    intros e'. split_and!; [done..| |done|done]. etrans; [|apply untouched_reap].
    etrans; [|by apply untouched_same]. etrans; [|apply untouched_reap]. by apply untouched_same.
  - intros name e v. by apply does_ret.
Qed.

(** A process that gets objects on handles that are not open, and otherwise does
    what it likes with its handles on Windows: once they are destroyed it holds the handles and views it started with; what others use has kept its
    size and its name; and what nobody uses any more is gone, name and all, with
    no call to [unlink]. *)
Theorem windows_no_leak {K} `{Win32 K} (view : K → sections) `{!Documented view} (cs : list call) e k :
  disciplined windows cs ([], e, k) = true →
  let '(hs, e', k') := perform_all windows cs ([], e, k) in
  let v' := view (drop_all windows hs e' k') in
  fds v' = fds (view k) ∧ maps v' = maps (view k) ∧ untouched (view k) v' ∧
  ∀ name id, names v' !! name = Some id → id ∈ used (view k).
Proof.
  intros Hd. pose proof (handles_balance windows view fds maps Z.le untouched cs e k Hd) as Hb.
  destruct (perform_all windows cs _) as [[hs e'] k']. destruct Hb as (HF & HM & HU). split_and!; [done..|].
  intros name id Hn. pose proof (proj1 (doc_reaped (drop_all windows hs e' k')) name id Hn) as Hu.
  unfold used in *. destruct HU as [HO _]. by rewrite HF, HM, HO in Hu.
Qed.

(** What getting an object promises. *)
Definition got (w : how) (name : list Z) (v : sections) (r : bool + failure) (h : handle) (v' : sections) : Prop :=
  match r with
  | inl true => ∃ id extent, names v' !! name = Some id ∧ fds v' = <[fd_ h := id]> (fds v) ∧
      maps v' = <[address_ h := (id, extent)]> (maps v) ∧ size_ h <= extent ∧
      match w with
      | Creating size | TryCreating size =>
          names v !! name = None ∧ size_ h = size ∧ sizes v' = <[id := u64 size]> (sizes v)
      | Opening | TryOpening =>
          names v !! name = Some id ∧ sizes v' = sizes v ∧ (∀ size, sizes v !! id = Some size → size <= size_ h)
      end
  | inl false => v' = v ∧ h = closed ∧
      match w with
      | TryCreating _ => is_Some (names v !! name)
      | TryOpening => names v !! name = None
      | _ => False
      end
  | inr _ => v' = v ∧ h = closed
  end.

(** C34. On Windows getting an object is all or nothing: a handle that is returned has
    a view of at least its size of the named object, which [create] and
    [try_create] have just made with the size asked for, under a name that was free,
    and [open] and [try_open] have found, whole; and false, or an exception at any
    call, leaves the system and the handle as they were - in particular [create]
    never replaces an object. *)
Theorem windows_all_or_nothing {K} `{Win32 K} (view : K → sections) `{!Documented view} w name e k :
  let '(r, p) := acquire w name (Process closed e k) in
  got w name (view k) r (this p) (view (sys p)).
Proof.
  enough (does view (acquire w name) closed e (view k) (λ r h _ v', got w name (view k) r h v')) as Hall
    by exact (Hall k eq_refl).
  destruct w as [size|size| |]; cbn.
  - apply does_bind, does_win_create; [done| |done]. intros a fd id extent e' _ _ _ _ Hn _ Hext. apply does_ret.
    exists id, extent. split_and!; [apply lookup_insert_eq|done..].
  - apply does_win_try_create; [done| |done|done]. intros a fd id extent e' _ _ _ _ Hn _ Hext.
    exists id, extent. split_and!; [apply lookup_insert_eq|done..].
  - apply does_bind, does_win_open; [done| |done]. intros a fd id extent e' _ _ _ _ Hn Hext. apply does_ret.
    by exists id, extent.
  - apply does_win_try_open; [done| |done|done]. intros a fd id extent e' _ _ _ _ Hn Hext. by exists id, extent.
Qed.

(** ** A system *)

Definition ERROR_INVALID_HANDLE : Z := 6.
Definition ERROR_TOO_MANY_OPEN_FILES : Z := 4.
Definition PAGE : Z := 4096.
Definition pages (size : Z) : Z := (size + (PAGE - 1)) / PAGE * PAGE.

(** Mapping objects, with a plan of which calls fail. *)
Record toy := Toy { toy_objects : sections; plan : list bool }.

Definition toy_view (t : toy) : sections := reap (toy_objects t).

Definition toy_call {A} (f : sections → option A * Z * sections) (t : toy) : option A * Z * toy :=
  match plan t with
  | true :: rest => (None, ERROR_TOO_MANY_OPEN_FILES, Toy (toy_objects t) rest)
  | rest => let '(r, e, v) := f (toy_view t) in (r, e, Toy v (tail rest))
  end.

Definition toy_release (f : sections → sections) (t : toy) : option unit * Z * toy :=
  (Some tt, 0, Toy (f (toy_view t)) (plan t)).

#[export] Instance toy_win32 : Win32 toy := {
  CreateFileMappingA high low name := toy_call (λ v,
    let fd := above (fds v) in
    match names v !! name with
    | Some id => (Some fd, ERROR_ALREADY_EXISTS, with_fds (insert fd id) v)
    | None =>
        let id := fresh (used v) in
        (Some fd, 0, with_fds (insert fd id) (with_object name id (high * 4294967296 + low) v))
    end);
  OpenFileMappingA name := toy_call (λ v,
    match names v !! name with
    | Some id => let fd := above (fds v) in (Some fd, 0, with_fds (insert fd id) v)
    | None => (None, ERROR_FILE_NOT_FOUND, v)
    end);
  MapViewOfFile fd bytes := toy_call (λ v,
    match fds v !! fd with
    | Some id =>
        let size := default 0 (sizes v !! id) in
        let a := above (maps v) in
        (Some a, 0, with_maps (insert a (id, pages (Z.max 0 (Z.max bytes size)))) v)
    | None => (None, ERROR_INVALID_HANDLE, v)
    end);
  VirtualQuery a := toy_call (λ v,
    match maps v !! a with
    | Some (_, extent) => (Some extent, 0, v)
    | None => (None, ERROR_INVALID_HANDLE, v)
    end);
  UnmapViewOfFile a := toy_release (with_maps (delete a));
  CloseHandle fd := toy_release (with_fds (delete fd))
}.

Lemma reaped_reap v : reaped (reap v).
Proof.
  split.
  - intros name id. unfold reap at 1. cbn. rewrite map_lookup_filter_Some. by intros [_ Hu].
  - intros id [size Hs]. revert Hs. unfold reap at 1. cbn. rewrite map_lookup_filter_Some. by intros [_ Hu].
Qed.

Lemma reaped_viewed a m v : maps v !! a = None → reaped v → reaped (with_maps (insert a m) v).
Proof.
  intros Hf [Hn Hs]. assert (used v ⊆ used (with_maps (insert a m) v)) as Hu.
  { unfold used, with_maps. cbn. rewrite fmap_insert, map_img_insert_notin_L by (by rewrite lookup_fmap, Hf). set_solver. }
  split; [intros name id' Hid; by apply Hu, (Hn name)|intros id' Hid; by apply Hu, Hs].
Qed.

Lemma reaped_new fd name id size v :
  fds v !! fd = None → reaped v → reaped (with_fds (insert fd id) (with_object name id size v)).
Proof.
  intros Hf [Hn Hs]. set (v' := with_fds _ _).
  assert (used v' = {[id]} ∪ used v) as Hu.
  { unfold used, v', with_fds, with_object. cbn. rewrite map_img_insert_notin_L by done. set_solver. }
  split; rewrite Hu.
  - intros n id'. unfold v', with_fds, with_object. cbn. rewrite lookup_insert_Some. intros [[_ ->]|[_ Hid]]; [set_solver|].
    apply elem_of_union_r. by apply (Hn n).
  - intros id' [s Hid]. revert Hid. unfold v', with_fds, with_object. cbn. rewrite lookup_insert_Some.
    intros [[-> _]|[_ Hid]]; [set_solver|]. apply elem_of_union_r, Hs. by exists s.
Qed.

Lemma pages_enough size : size <= pages size.
Proof. unfold pages, PAGE. lia. Qed.

Ltac toy := unfold toy_call; intros; match goal with |- context [plan ?t] => destruct t as [v [|[|] rest]] end;
  unfold toy_view in *; cbn [plan toy_objects tail] in *;
  match goal with v : sections |- _ => pose proof (reaped_reap v) as Hr; set (u := reap v) in * end.

#[export] Instance toy_documented : Documented toy_view.
Proof.
  assert (∀ A (m : gmap Z A), above m ≠ 0) as Hne by (intros A m; pose proof (proj1 (above_spec m)); lia).
  split; cbn [CreateFileMappingA OpenFileMappingA MapViewOfFile VirtualQuery UnmapViewOfFile CloseHandle toy_win32]; [..|done|done].
  - intros k. apply reaped_reap.
  - toy; [|done|]; (destruct (names u !! name) as [id|] eqn:Hn; (split; [done|]); (split; [apply above_fresh|]);
      [by rewrite reap_id by (apply reaped_taken; [apply above_fresh|done])|];
      split; [done|]; exists (fresh (used u)); (split; [apply is_fresh|]);
      by rewrite reap_id by (apply reaped_new; [apply above_fresh|done])).
  - toy; [|by split|]; (destruct (names u !! name) as [id|] eqn:Hn; [|by rewrite reap_id]; 
      (split; [done|]); (split; [apply above_fresh|]); exists id; split; [done|];
      by rewrite reap_id by (apply reaped_taken; [apply above_fresh|done])).
  - toy; [|done|]; rewrite H; (split; [done|]); (split; [apply above_fresh|]); exists (pages (Z.max 0 (Z.max bytes (default 0 (sizes u !! id))))); (split; [etrans; [|apply pages_enough]; lia|]);
      (split; [intros _ size ->; cbn; (etrans; [|apply pages_enough]); lia|]);
      by rewrite reap_id by (apply reaped_viewed; [apply above_fresh|done]).
  - toy; [|done|]; rewrite H; by rewrite reap_id.
Qed.

(** ** Witnesses *)

(** Another process uses object 7, named "/other". *)
Definition system0 (plan : list bool) : toy := Toy (Sections {[ [47; 111] := 7 ]} {[ 7 := 128 ]} ∅ ∅ {[ 7 ]}) plan.
Definition demo : list Z := [47; 107].

(** A process makes an object, is refused a view of the other one, opens the other
    one and moves its handle over its first. *)
Definition busy : list call :=
  [Default; Acquire 0 (TryCreating 64) demo; Default; Acquire 1 TryOpening [47; 111]; Acquire 1 (Creating 8) demo;
   Acquire 1 TryOpening [47; 111]; Assign 0 1].

Lemma windows_no_leak_witness :
  let '(hs, e, k) := perform_all windows busy ([], 0, system0 [false; false; false; true]) in
  is_open <$> hs = [true; false] ∧ names (toy_view k) !! demo = None ∧
  fds (toy_view (drop_all windows hs e k)) = ∅ ∧ names (toy_view (drop_all windows hs e k)) !! [47; 111] = Some 7.
Proof.
  set (k0 := system0 _). assert (disciplined windows busy ([], 0, k0) = true) as Hd by (vm_compute; reflexivity).
  pose proof (windows_no_leak toy_view busy 0 k0 Hd) as Hall.
  assert (let '(hs, e, k) := perform_all windows busy ([], 0, k0) in
    is_open <$> hs = [true; false] ∧ names (toy_view k) !! demo = None) as Hrun by (vm_compute; by split).
  destruct (perform_all windows busy ([], 0, k0)) as [[hs e] k]. destruct Hrun as (H1 & H3).
  destruct Hall as (Hfds & _ & HU & _). rewrite Hfds. split_and!; [exact H1|exact H3|by vm_compute|].
  assert (7 ∈ others (toy_view k0)) as Hin by (apply (bool_decide_eq_true_1 _); vm_compute; reflexivity).
  apply (proj2 HU 7 Hin). by vm_compute.
Defined.

(** [MapViewOfFile] fails the first time; the name is free for the second. *)
Lemma windows_all_or_nothing_witness :
  let first := acquire (TryCreating 5000) demo (Process closed 0 (system0 [false; true])) in
  let second := acquire (TryCreating 5000) demo first.2 in
  (∃ f, first.1 = inr f) ∧ toy_view (sys first.2) = toy_view (system0 []) ∧
  second.1 = inl true ∧ size_ (this second.2) = 5000 ∧ (acquire TryOpening demo (Process closed 0 (sys second.2))).1 = inl true.
Proof.
  cbn zeta. pose proof (windows_all_or_nothing toy_view (TryCreating 5000) demo 0 (system0 [false; true])) as Hall.
  assert (∃ f, (acquire (TryCreating 5000) demo (Process closed 0 (system0 [false; true]))).1 = inr f) as (f & Hf)
    by (vm_compute; by eexists).
  split; [by exists f|].
  match goal with |- _ ∧ ?P => assert P as Hagain by (vm_compute; repeat split) end. split; [|exact Hagain].
  destruct (acquire (TryCreating 5000) demo (Process closed 0 (system0 [false; true]))) as [r p].
  cbn [fst snd] in *. subst r. by destruct Hall as [-> _].
Defined.
End WinObjects.
