(* ===== verification/Wake.v ===== *)
(** * Wake backends ([src/Waker.cc], [src/os/posix/WakeBackends.cc])

    A publisher signals a channel with a loopback multicast datagram; a subscriber
    polls a socket that has joined the channel's group.  The socket calls are a
    parameter of the definitions ([SocketCalls]), and what is documented of them is
    [Documented], in terms of the sockets of the host's processes, to which
    datagrams may arrive at any time, and of the datagrams sent, which may get lost.
    The address of a channel comes from the identity its [Node] gives it, so both
    ends meet: the datagram of a signal is addressed to the waiting descriptor, and
    makes it readable when it is delivered.  Opening is all or nothing; draining is
    bounded.

    Addresses and ports are in host byte order. *)

From stdpp Require Import gmap.
From S2P Require Import Prelude Prog Hash Layout Node Syscalls Timing.
Import Hash Layout Node.
Import Timing(to_poll_ms_nonneg, EINTR, EAGAIN, posix, Linux, Darwin, to_timespec, to_poll_ms, valid_timespec, to_timespec_valid).

(** ** Socket calls *)

Inductive sockopt :=
  | IP_MULTICAST_TTL (ttl : Z)
  | IP_MULTICAST_LOOP (loop : Z)
  | IP_MULTICAST_IF (iface : Z)
  | SO_REUSEADDR (on : Z)
  | SO_REUSEPORT (on : Z)
  | IP_ADD_MEMBERSHIP (multiaddr iface : Z).

Record pollfd := Pollfd { fd : Z; events : Z; revents : Z }.

(** The calls of process [nat]: a result or an error number. *)
Class SocketCalls (K : Type) := {
  sys_socket : nat → K → (Z + Z) * K;                       (** AF_INET, SOCK_DGRAM *)
  sys_getfl : nat → Z → K → (Z + Z) * K;                    (** [fcntl] F_GETFL *)
  sys_setfl : nat → Z → Z → K → (unit + Z) * K;             (** [fcntl] F_SETFL *)
  sys_cloexec : nat → Z → K → (unit + Z) * K;               (** [fcntl] F_SETFD, FD_CLOEXEC *)
  sys_setsockopt : nat → Z → sockopt → K → (unit + Z) * K;
  sys_bind : nat → Z → Z → Z → K → (unit + Z) * K;
  sys_recv : nat → Z → Z → K → (Z + Z) * K;
  sys_sendto : nat → Z → list Z → Z → Z → K → (Z + Z) * K;
  sys_close : nat → Z → K → (unit + Z) * K;
  sys_ppoll : nat → list pollfd → timespec → K → (Z * list pollfd + Z) * K;
  sys_poll : nat → list pollfd → Z → K → (Z * list pollfd + Z) * K     (** milliseconds *)
}.

Module Wake.
Definition O_NONBLOCK : Z := 2048.
Definition POLLIN : Z := 1.
Definition INADDR_LOOPBACK : Z := 0x7F000001.
Definition DRAIN_MAX : Z := 256.
Definition STACK_FDS : nat := 64.

(** ** Addresses *)

Definition PORT_SPAN : Z := 512.
Definition DEFAULT_PORT_BASE : Z := 27182.

Record Address := { group : Z; port : Z }.

Definition derive (hash port_base : Z) : res Address :=
  if (port_base =? 0) || (65535 - PORT_SPAN + 1 <? port_base) then
    inr (Exn invalid_argument "UdpMulticastBackend: port_base leaves no room for PORT_SPAN")
  else
    inl {| group := Z.lor 0xEFFF0000 (Z.land hash 65535);
           port := u16 (port_base + Z.shiftr hash 32 `mod` PORT_SPAN) |}.

(** A null name is [None]. *)
Definition require_name (name : option (list Z)) (what : string) : res (list Z) :=
  match name with
  | None => inr (Exn invalid_argument ("UdpMulticastBackend: " +:+ what +:+ " must not be null"))
  | Some name => inl name
  end.

(** ** The backend *)

Record backend := Backend { group_ : Z; port_ : Z; sender_ : Z }.

(** A set of descriptors, with the polling buffer of the thread that waits. *)
Record wait_set := WaitSet { fds_ : list Z; heap : list pollfd }.

Section methods.
Context {K : Type} `{SocketCalls K} (me : nat).
Local Abbreviation io := (io backend exn K).

Definition configure_sender (fd : Z) : io bool :=
  flags <~ syscall (sys_getfl me fd) ;;
  match flags with
  | None => io_ret false
  | Some flags =>
      ok <~ syscall (sys_setfl me fd (Z.lor flags O_NONBLOCK)) ;;
      match ok with
      | None => io_ret false
      | Some _ =>
          ok <~ syscall (sys_setsockopt me fd (IP_MULTICAST_TTL 0)) ;;
          match ok with
          | None => io_ret false
          | Some _ =>
              ok <~ syscall (sys_setsockopt me fd (IP_MULTICAST_LOOP 1)) ;;
              match ok with
              | None => io_ret false
              | Some _ =>
                  ok <~ syscall (sys_setsockopt me fd (IP_MULTICAST_IF INADDR_LOOPBACK)) ;;
                  match ok with
                  | None => io_ret false
                  | Some _ => syscall (sys_cloexec me fd) ;;~ io_ret true
                  end
              end
          end
      end
  end.

Definition set_sender (fd : Z) : io unit := b <~ get ;; put (Backend (group_ b) (port_ b) fd).

Definition open_sender : io unit :=
  fd <~ syscall (sys_socket me) ;;
  let fd := default (-1) fd in
  set_sender fd ;;~
  (if 0 <=? fd then
     ok <~ configure_sender fd ;;
     if ok : bool then io_ret tt else syscall (sys_close me fd) ;;~ set_sender (-1)
   else io_ret tt) ;;~
  b <~ get ;;
  if sender_ b <? 0 then throw (Exn runtime_error "UdpMulticastBackend: cannot open a multicast sender")
  else io_ret tt.

(** The constructors run on the storage of the new backend, whatever it holds. *)
Definition backend_at (a : Address) : io unit :=
  put (Backend (group a) (port a) (-1)) ;;~ open_sender.

Definition backend_exact (g p : Z) : io unit :=
  put (Backend g p (-1)) ;;~
  if negb (Z.land g 0xF0000000 =? 0xE0000000) then
    throw (Exn invalid_argument "UdpMulticastBackend: group is not IPv4 multicast")
  else if p =? 0 then throw (Exn invalid_argument "UdpMulticastBackend: port must not be 0")
  else open_sender.

Definition io_res {A} (r : res A) : io A := match r with inl a => io_ret a | inr e => throw e end.

Definition backend_named (name : option (list Z)) (port_base : Z) : io unit :=
  name <~ io_res (require_name name "name") ;;
  a <~ io_res (derive (fnv1a_64_str name) port_base) ;;
  backend_at a.

Definition for_topic (n : Node.node) (topic : option (list Z)) (port_base : Z) : io unit :=
  topic <~ io_res (require_name topic "topic") ;;
  a <~ io_res (derive (Node.topic_identity n topic) port_base) ;;
  backend_at a.

Definition for_broadcast (n : Node.node) (channel : option (list Z)) (port_base : Z) : io unit :=
  channel <~ io_res (require_name channel "channel") ;;
  a <~ io_res (derive (Node.broadcast_identity n channel) port_base) ;;
  backend_at a.

Definition for_mailbox (n : Node.node) (tag owner_node : option (list Z)) (port_base : Z) : io unit :=
  let owner := default (Node.name_ n) owner_node in
  tag <~ io_res (require_name tag "tag") ;;
  identity <~ io_res (Node.mailbox_identity n owner tag) ;;
  a <~ io_res (derive identity port_base) ;;
  backend_at a.

(** The destructor. *)
Definition backend_destroy : io unit :=
  b <~ get ;;
  if 0 <=? sender_ b then syscall (sys_close me (sender_ b)) ;;~ io_ret tt else io_ret tt.

(** [-1]: this backend cannot open a descriptor here. *)
Definition backend_open : io Z :=
  b <~ get ;;
  fd <~ syscall (sys_socket me) ;;
  match fd with
  | None => io_ret (-1)
  | Some fd =>
      let refuse := syscall (sys_close me fd) ;;~ io_ret (-1) in
      flags <~ syscall (sys_getfl me fd) ;;
      match flags with
      | None => refuse
      | Some flags =>
          ok <~ syscall (sys_setfl me fd (Z.lor flags O_NONBLOCK)) ;;
          match ok with
          | None => refuse
          | Some _ =>
              syscall (sys_cloexec me fd) ;;~
              ok <~ syscall (sys_setsockopt me fd (SO_REUSEADDR 1)) ;;
              match ok with
              | None => refuse
              | Some _ =>
                  syscall (sys_setsockopt me fd (SO_REUSEPORT 1)) ;;~
                  ok <~ syscall (sys_bind me fd (group_ b) (port_ b)) ;;
                  match ok with
                  | None => refuse
                  | Some _ =>
                      ok <~ syscall (sys_setsockopt me fd (IP_ADD_MEMBERSHIP (group_ b) INADDR_LOOPBACK)) ;;
                      match ok with None => refuse | Some _ => io_ret fd end
                  end
              end
          end
      end
  end.

Definition backend_close (fd : Z) : io unit := syscall (sys_close me fd) ;;~ io_ret tt.

(** From turn [i]; false when the fuel runs out. *)
Fixpoint drain_loop (fuel : nat) (fd i : Z) : io bool :=
  match fuel with
  | O => io_ret false
  | S fuel =>
      if i <? DRAIN_MAX then
        rc <~ syscall (sys_recv me fd 64) ;;
        e <~ get_errno ;;
        match rc with
        | None => if e =? EINTR then drain_loop fuel fd i else io_ret true
        | Some _ => drain_loop fuel fd (i + 1)
        end
      else io_ret true
  end.

Definition backend_drain (fuel : nat) (fd : Z) : io bool := drain_loop fuel fd 0.

Fixpoint backend_signal (fuel : nat) : io bool :=
  match fuel with
  | O => io_ret false
  | S fuel =>
      b <~ get ;;
      rc <~ syscall (sys_sendto me (sender_ b) [1] (group_ b) (port_ b)) ;;
      e <~ get_errno ;;
      match rc with
      | None => if e =? EINTR then backend_signal fuel else io_ret true
      | Some _ => io_ret true
      end
  end.

(** *** Wakers *)

(** The constructor: the descriptor. *)
Definition waker_new : io Z := backend_open.
Definition waker_valid (fd : Z) : bool := 0 <=? fd.
Definition waker_destroy (fd : Z) : io unit := if 0 <=? fd then backend_close fd else io_ret tt.
Definition waker_drain (fuel : nat) (fd : Z) : io bool :=
  if 0 <=? fd then backend_drain fuel fd else io_ret true.

(** *** Wait sets *)

Definition add_native (s : wait_set) (fd : Z) : wait_set :=
  if fd <? 0 then s
  else if bool_decide (fd ∈ fds_ s) then s else WaitSet (fds_ s ++ [fd]) (heap s).

Definition clear (s : wait_set) : wait_set := WaitSet [] (heap s).

(** [vector::resize] *)
Definition resize_entries (n : nat) (l : list pollfd) : list pollfd := resize n (Pollfd 0 0 0) l.

(** [ppoll] where there is one. *)
Definition poll_call (os : posix) (entries : list pollfd) (timeout : Z) : K → (Z * list pollfd + Z) * K :=
  match os with
  | Linux => sys_ppoll me entries (to_timespec timeout)
  | Darwin => sys_poll me entries (to_poll_ms timeout)
  end.

Definition wait (os : posix) (timeout : Z) : Syscalls.io wait_set exn K bool :=
  s <~ get ;;
  if bool_decide (fds_ s = []) then io_ret false
  else
    let count := length (fds_ s) in
    let on_heap := bool_decide (STACK_FDS < count)%nat in
    let entries := if on_heap then resize_entries count (heap s) else replicate STACK_FDS (Pollfd 0 0 0) in
    let entries := imap (λ i entry, match fds_ s !! i with Some fd => Pollfd fd POLLIN 0 | None => entry end) entries in
    rc <~ syscall (poll_call os (take count entries) timeout) ;;
    let entries := match rc with Some (_, polled) => polled ++ drop count entries | None => entries end in
    put (WaitSet (fds_ s) (if on_heap then entries else heap s)) ;;~
    match rc with
    | Some (n, _) =>
        if n <=? 0 then io_ret false
        else io_ret (existsb (λ entry, negb (Z.land (revents entry) POLLIN =? 0)) (take count entries))
    | None => io_ret false
    end.
End methods.

(** ** What is documented of the calls *)

Record socket := Socket {
  sk_flags : Z;
  sk_ttl : Z;
  sk_loop : Z;
  sk_iface : Z;
  sk_reuse : bool;
  sk_bound : option (Z * Z);
  sk_groups : list (Z * Z);
  sk_pending : list (list Z)
}.

Definition new_socket : socket := Socket 2 1 1 0 false None [] [].

Definition with_pending (f : list (list Z) → list (list Z)) (s : socket) : socket :=
  Socket (sk_flags s) (sk_ttl s) (sk_loop s) (sk_iface s) (sk_reuse s) (sk_bound s) (sk_groups s) (f (sk_pending s)).
Definition with_flags (flags : Z) (s : socket) : socket :=
  Socket flags (sk_ttl s) (sk_loop s) (sk_iface s) (sk_reuse s) (sk_bound s) (sk_groups s) (sk_pending s).
Definition with_bound (g p : Z) (s : socket) : socket :=
  Socket (sk_flags s) (sk_ttl s) (sk_loop s) (sk_iface s) (sk_reuse s) (Some (g, p)) (sk_groups s) (sk_pending s).
Definition with_option (o : sockopt) (s : socket) : socket :=
  let '(Socket flags ttl loop iface reuse bound groups pending) := s in
  match o with
  | IP_MULTICAST_TTL n => Socket flags n loop iface reuse bound groups pending
  | IP_MULTICAST_LOOP n => Socket flags ttl n iface reuse bound groups pending
  | IP_MULTICAST_IF a => Socket flags ttl loop a reuse bound groups pending
  | SO_REUSEADDR on => Socket flags ttl loop iface (negb (on =? 0)) bound groups pending
  | SO_REUSEPORT _ => s
  | IP_ADD_MEMBERSHIP g a => Socket flags ttl loop iface reuse bound ((g, a) :: groups) pending
  end.

Definition nonblocking (s : socket) : Prop := Z.land (sk_flags s) O_NONBLOCK = O_NONBLOCK.
Definition listens (s : socket) (g p : Z) : Prop := sk_bound s = Some (g, p) ∧ (g, INADDR_LOOPBACK) ∈ sk_groups s.
(** What it sends stays on the host, and never makes the sender wait. *)
Definition sends_locally (s : socket) : Prop :=
  nonblocking s ∧ sk_ttl s = 0 ∧ sk_loop s = 1 ∧ sk_iface s = INADDR_LOOPBACK.

(** A datagram, to a group and a port. *)
Record datagram := Datagram { dg_group : Z; dg_port : Z; dg_data : list Z }.

(** The sockets of the host's processes, the datagrams sent so far, and how many
    more calls signals will interrupt. *)
Record host := Host { socks : gmap (nat * Z) socket; sent : list datagram; patience : nat }.
Definition with_socks (f : gmap (nat * Z) socket → gmap (nat * Z) socket) (v : host) : host :=
  Host (f (socks v)) (sent v) (patience v).
Definition with_sent (d : datagram) (v : host) : host := Host (socks v) (sent v ++ [d]) (patience v).

(** Datagrams arrive, and others are sent. *)
Definition more (s s' : socket) : Prop := ∃ ds, s' = with_pending (λ l, l ++ ds) s.
Record arrives (v v' : host) : Prop := {
  ar_socks : map_Forall2 (λ _, more) (socks v) (socks v');
  ar_sent : sent v `prefix_of` sent v';
  ar_patience : (patience v' <= patience v)%nat
}.

#[export] Instance listens_dec s g p : Decision (listens s g p).
Proof. unfold listens. apply _. Defined.

(** The network delivers [d]: every socket that [listening] says listens to its
    group and port gets it. *)
Definition delivered (listening : socket → Z → Z → Prop) `{∀ s g p, Decision (listening s g p)}
    (d : datagram) (v : host) : host :=
  with_socks (fmap (λ s, if decide (listening s (dg_group d) (dg_port d)) then
    with_pending (λ l, l ++ [dg_data d]) s else s)) v.
Abbreviation deliver := (delivered listens).

(** The [i]-th entry asks, with [flag], for what can be read. *)
Definition readable_for (flag : Z) (me : nat) (v : host) (entries : list pollfd) (i : nat) : Prop :=
  ∃ entry s, entries !! i = Some entry ∧ Z.land (events entry) flag ≠ 0 ∧
    socks v !! (me, fd entry) = Some s ∧ sk_pending s ≠ [].
Definition readable : nat → host → list pollfd → nat → Prop := readable_for POLLIN.

(** A call that polls fails, or reports what can be read. *)
Definition polls_for {K} (flag : Z) (view : K → host) (me : nat) (entries : list pollfd)
    (call : K → (Z * list pollfd + Z) * K) : Prop :=
  ∀ k, match call k with
  | (inr x, k') => arrives (view k) (view k') ∧ 0 < x
  | (inl (n, polled), k') => arrives (view k) (view k') ∧ length polled = length entries ∧
      (∀ i, readable_for flag me (view k) entries i →
        0 < n ∧ ∃ entry, polled !! i = Some entry ∧ Z.land (revents entry) flag ≠ 0)
  end.
Definition polls {K} : (K → host) → nat → list pollfd → (K → (Z * list pollfd + Z) * K) → Prop := polls_for POLLIN.

(** A call fails and changes nothing, or does what it says, while datagrams
    arrive.  A non-blocking [recv] that would block found nothing; [sendto] that
    succeeds has sent its datagram, which is no promise that it is delivered;
    [ppoll] and [poll], when they do not fail, report what can be read. *)
Class Documented {K} `{SocketCalls K} (view : K → host) : Prop := {
  doc_socket me k :
    match sys_socket me k with
    | (inr _, k') => arrives (view k) (view k')
    | (inl fd, k') => 0 <= fd ∧ socks (view k) !! (me, fd) = None ∧
        arrives (with_socks (insert (me, fd) new_socket) (view k)) (view k')
    end;
  doc_getfl me fd k : arrives (view k) (view (sys_getfl me fd k).2);
  doc_setfl me fd flags k :
    match sys_setfl me fd flags k with
    | (inr _, k') => arrives (view k) (view k')
    | (inl _, k') => arrives (with_socks (alter (with_flags flags) (me, fd)) (view k)) (view k')
    end;
  doc_cloexec me fd k : arrives (view k) (view (sys_cloexec me fd k).2);
  doc_setsockopt me fd o k :
    match sys_setsockopt me fd o k with
    | (inr _, k') => arrives (view k) (view k')
    | (inl _, k') => arrives (with_socks (alter (with_option o) (me, fd)) (view k)) (view k')
    end;
  doc_bind me fd g p k :
    match sys_bind me fd g p k with
    | (inr _, k') => arrives (view k) (view k')
    | (inl _, k') => arrives (with_socks (alter (with_bound g p) (me, fd)) (view k)) (view k')
    end;
  doc_close me fd k : arrives (with_socks (delete (me, fd)) (view k)) (view (sys_close me fd k).2);
  doc_recv me fd n s k : socks (view k) !! (me, fd) = Some s → nonblocking s →
    match sys_recv me fd n k with
    | (inr e, k') => arrives (view k) (view k') ∧
        (e = EINTR → (patience (view k') < patience (view k))%nat) ∧ (e = EAGAIN → sk_pending s = [])
    | (inl _, k') => ∃ v s' d rest, arrives (view k) v ∧ socks v !! (me, fd) = Some s' ∧ sk_pending s' = d :: rest ∧
        arrives (with_socks (insert (me, fd) (with_pending (λ _, rest) s')) v) (view k')
    end;
  doc_sendto me fd data g p s k : socks (view k) !! (me, fd) = Some s → sends_locally s →
    match sys_sendto me fd data g p k with
    | (inr e, k') => arrives (view k) (view k') ∧ 0 < e ∧
        (e = EINTR → (patience (view k') < patience (view k))%nat)
    | (inl _, k') => arrives (with_sent (Datagram g p data) (view k)) (view k')
    end;
  doc_ppoll me entries t : valid_timespec t → polls view me entries (sys_ppoll me entries t);
  doc_poll me entries ms : 0 <= ms → polls view me entries (sys_poll me entries ms)
}.

(** ** Addresses *)

(** ** Arrivals *)

Lemma grows_refl s : more s s.
Proof. exists []. destruct s. unfold with_pending. cbn. by rewrite app_nil_r. Qed.
Lemma grows_trans s1 s2 s3 : more s1 s2 → more s2 s3 → more s1 s3.
Proof. intros [d1 ->] [d2 ->]. exists (d1 ++ d2). unfold with_pending. cbn. by rewrite app_assoc. Qed.
#[export] Hint Resolve grows_refl : core.

#[export] Instance arrives_preorder : PreOrder arrives.
Proof.
  split.
  - intros v. split; [|done|done]. intros i. destruct (socks v !! i); by constructor.
  - intros v1 v2 v3 [H12 S12 P12] [H23 S23 P23]. split; [|by etrans|lia]. intros i. specialize (H12 i). specialize (H23 i).
    destruct H12; inversion H23; constructor. by eapply grows_trans.
Qed.

Lemma arrives_lookup v v' key s :
  arrives v v' → socks v !! key = Some s → ∃ s', socks v' !! key = Some s' ∧ more s s'.
Proof. intros [Hv _ _] Hs. specialize (Hv key). rewrite Hs in Hv. inversion Hv as [? s' Hm|]; subst. by exists s'. Qed.

Lemma arrives_lookup_inv v v' key s' :
  arrives v v' → socks v' !! key = Some s' → ∃ s, socks v !! key = Some s ∧ more s s'.
Proof. intros [Hv _ _] Hs. specialize (Hv key). rewrite Hs in Hv. inversion Hv as [s ? Hm|]; subst. by exists s. Qed.

Lemma arrives_delete key v v' : arrives v v' → arrives (with_socks (delete key) v) (with_socks (delete key) v').
Proof. intros [Hv Hs Hp]. split; [|done..]. by apply map_Forall2_delete. Qed.

(** Changes of a socket's settings. *)
Definition settings (f : socket → socket) : Prop := ∀ s ds, f (with_pending (λ l, l ++ ds) s) = with_pending (λ l, l ++ ds) (f s).

Lemma settings_flags flags : settings (with_flags flags).
Proof. done. Qed.
Lemma settings_bound g p : settings (with_bound g p).
Proof. done. Qed.
Lemma settings_option o : settings (with_option o).
Proof. intros [] ds. by destruct o. Qed.
#[export] Hint Resolve settings_flags settings_bound settings_option : core.

Lemma arrives_alter f key v v' :
  settings f → arrives v v' → arrives (with_socks (alter f key) v) (with_socks (alter f key) v').
Proof.
  intros Hf [Hv Hn Hp]. split; [|done..]. intros i. specialize (Hv i). cbn. destruct (decide (i = key)) as [->|Hne].
  - rewrite !lookup_alter_eq. destruct Hv as [s s' [ds ->]|]; constructor. exists ds. apply Hf.
  - by rewrite !lookup_alter_ne by done.
Qed.

(** A socket [s] has been added to those of [v] under [key]. *)
Definition built v key s w : Prop := socks v !! key = None ∧ arrives (with_socks (insert key s) v) w.

Lemma built_quiet v key s w w' : built v key s w → arrives w w' → built v key s w'.
Proof. intros [Hn Hb] Ha. split; [done|]. by etrans. Qed.

Lemma built_set v key s w w' f :
  settings f → built v key s w → arrives (with_socks (alter f key) w) w' → built v key (f s) w'.
Proof.
  intros Hf [Hn Hb] Ha. split; [done|]. etrans; [|exact Ha].
  replace (with_socks (insert key (f s)) v) with (with_socks (alter f key) (with_socks (insert key s) v)).
  - by apply arrives_alter.
  - unfold with_socks. cbn. f_equal. apply map_eq. intros i. destruct (decide (i = key)) as [->|Hne].
    + by rewrite lookup_alter_eq, !lookup_insert_eq.
    + by rewrite lookup_alter_ne, !lookup_insert_ne by done.
Qed.

Lemma built_undone v key s w w' : built v key s w → arrives (with_socks (delete key) w) w' → arrives v w'.
Proof.
  intros [Hn Hb] Ha. etrans; [|exact Ha]. apply (arrives_delete key) in Hb.
  unfold with_socks in Hb at 1 2. cbn in Hb. rewrite delete_insert_id in Hb by done. by destruct v.
Qed.

Lemma nonblocking_set flags : Z.land (Z.lor flags O_NONBLOCK) O_NONBLOCK = O_NONBLOCK.
Proof.
  apply Z.bits_inj'. intros i Hi. rewrite Z.land_spec, Z.lor_spec.
  by destruct (Z.testbit flags i), (Z.testbit O_NONBLOCK i).
Qed.

(** ** What the methods do *)

Section laws.
Context {K : Type} `{SocketCalls K} (view : K → host) `{!Documented view}.
Context {H0 : Type}.
Implicit Types (h : H0) (v w : host).
Local Abbreviation post A := (A + exn → H0 → Z → host → Prop).

Lemma does_quiet {A} (f : K → (A + Z) * K) h e v (Q : post (option A)) :
  (∀ k, arrives (view k) (view (f k).2)) →
  (∀ a e' v', arrives v v' → Q (inl a) h e' v') → does view (syscall f) h e v Q.
Proof.
  intros Hf HQ. apply does_syscall. intros k <-. specialize (Hf k). destruct (f k) as [[a|x] k']; by apply HQ.
Qed.

Lemma does_set {A} (f : K → (A + Z) * K) key s (u : socket → socket) h e v w (Q : post (option A)) :
  (∀ k, match f k with
    | (inr _, k') => arrives (view k) (view k')
    | (inl _, k') => arrives (with_socks (alter u key) (view k)) (view k')
    end) → settings u → built v key s w →
  (∀ e' w', built v key s w' → Q (inl None) h e' w') →
  (∀ a e' w', built v key (u s) w' → Q (inl (Some a)) h e' w') → does view (syscall f) h e w Q.
Proof.
  intros Hf Hu Hb Hno Hyes. apply does_syscall. intros k <-. specialize (Hf k).
  destruct (f k) as [[a|x] k']; [apply Hyes; by eapply built_set|apply Hno; by eapply built_quiet].
Qed.
End laws.

Section methods_laws.
Context {K : Type} `{SocketCalls K} (view : K → host) `{!Documented view} (me : nat).
Implicit Types (b : backend) (v w : host) (s : socket).
Local Abbreviation post A := (A + exn → backend → Z → host → Prop).

(** One setting of the socket being built; a failure is [no]. *)
Ltac setting :=
  apply does_bind; eapply (does_set view);
  [let k := fresh in intros k;
   first [apply (doc_setfl (view := view) me)|apply (doc_setsockopt (view := view) me)|apply (doc_bind (view := view) me)]
  |auto|eassumption| |];
  [let e' := fresh "e" in let w' := fresh "w" in let Hb := fresh "Hb" in intros e' w' Hb
  |let a := fresh "a" in let e' := fresh "e" in let w' := fresh "w" in let Hb := fresh "Hb" in intros a e' w' Hb].

Lemma does_configure_sender fd s b e v w (Q : post bool) :
  built v (me, fd) s w →
  (∀ e' w' s', built v (me, fd) s' w' → Q (inl false) b e' w') →
  (∀ e' w' s', built v (me, fd) s' w' → sends_locally s' → Q (inl true) b e' w') →
  does view (configure_sender me fd) b e w Q.
Proof.
  intros Hw Hno Hyes. unfold configure_sender.
  apply does_bind, does_quiet; [exact (doc_getfl me fd)|]. intros flags e0 w0 Ha.
  apply (built_quiet _ _ _ _ _ Hw) in Ha. destruct flags as [flags|]; [|apply does_ret; by eapply Hno].
  setting; [apply does_ret; by eapply Hno|].
  setting; [apply does_ret; by eapply Hno|].
  setting; [apply does_ret; by eapply Hno|].
  setting; [apply does_ret; by eapply Hno|].
  apply does_bind, does_quiet; [exact (doc_cloexec me fd)|]. intros ok e5 w5 Ha5.
  apply does_ret. eapply Hyes; [by eapply built_quiet|].
  destruct s. repeat split. apply nonblocking_set.
Qed.

Lemma does_socket b e v (Q : post (option Z)) :
  (∀ e' v', arrives v v' → Q (inl None) b e' v') →
  (∀ fd e' v', 0 <= fd → built v (me, fd) new_socket v' → Q (inl (Some fd)) b e' v') →
  does view (syscall (sys_socket me)) b e v Q.
Proof.
  intros Hno Hyes. apply does_syscall. intros k <-. pose proof (doc_socket me k) as Hd.
  destruct (sys_socket me k) as [[fd|x] k']; [|by apply Hno]. destruct Hd as (Hfd & Hn & Ha). by apply Hyes.
Qed.

Lemma does_close_socket fd b e v (Q : post (option unit)) :
  (∀ r e' v', arrives (with_socks (delete (me, fd)) v) v' → Q (inl r) b e' v') →
  does view (syscall (sys_close me fd)) b e v Q.
Proof.
  intros HQ. apply does_syscall. intros k <-. pose proof (doc_close me fd k) as Hd.
  destruct (sys_close me fd k) as [[[]|x] k']; by apply HQ.
Qed.

Lemma does_open_sender g p b e v (Q : post unit) :
  group_ b = g → port_ b = p →
  (∀ x e' v', arrives v v' → Q (inr x) (Backend g p (-1)) e' v') →
  (∀ fd s e' v', 0 <= fd → built v (me, fd) s v' → sends_locally s → Q (inl tt) (Backend g p fd) e' v') →
  does view (open_sender me) b e v Q.
Proof.
  intros <- <- Hno Hyes. unfold open_sender. apply does_bind, does_socket.
  - intros e1 v1 Ha. apply does_bind, does_bind, does_get, does_put, does_bind.
    change (0 <=? -1) with false. lazy iota. apply does_ret, does_bind, does_get. cbn [sender_].
    change (-1 <? 0) with true. lazy iota. by apply does_throw, Hno.
  - intros fd e1 v1 Hfd Hb. change (default (-1) (Some fd)) with fd. apply does_bind, does_bind, does_get, does_put, does_bind.
    rewrite (proj2 (Z.leb_le 0 fd)) by done. apply does_bind. eapply does_configure_sender; [done|..].
    + intros e2 v2 s Hb2. apply does_bind, does_close_socket. intros r e3 v3 Ha.
      apply (built_undone _ _ _ _ _ Hb2) in Ha. apply does_bind, does_get, does_put, does_bind, does_get. cbn [sender_].
      change (-1 <? 0) with true. lazy iota. by apply does_throw, Hno.
    + intros e2 v2 s Hb2 Hs. apply does_ret, does_bind, does_get. cbn [sender_].
      rewrite (proj2 (Z.ltb_ge fd 0)) by done. apply does_ret. by eapply Hyes.
Qed.

Lemma does_backend_open b e v (Q : post Z) :
  (∀ e' v', arrives v v' → Q (inl (-1)) b e' v') →
  (∀ fd s e' v', 0 <= fd → built v (me, fd) s v' → nonblocking s → listens s (group_ b) (port_ b) → Q (inl fd) b e' v') →
  does view (backend_open me) b e v Q.
Proof.
  intros Hno Hyes. unfold backend_open. apply does_bind, does_get, does_bind, does_socket.
  { intros e1 v1 Ha. by apply does_ret, Hno. }
  intros fd e1 v1 Hfd Hb1. cbn zeta.
  assert (∀ s e2 v2, built v (me, fd) s v2 → does view (syscall (sys_close me fd) ;;~ io_ret (-1)) b e2 v2 Q) as Hgive.
  { intros s e2 v2 Hb. apply does_bind, does_close_socket. intros r e3 v3 Ha. apply does_ret, Hno. by eapply built_undone. }
  apply does_bind, does_quiet; [exact (doc_getfl me fd)|]. intros flags e2 v2 Ha2.
  apply (built_quiet _ _ _ _ _ Hb1) in Ha2. destruct flags as [flags|]; [|by eapply Hgive].
  setting; [by eapply Hgive|].
  apply does_bind, does_quiet; [exact (doc_cloexec me fd)|]. intros ok e3 v3 Ha3.
  eapply built_quiet in Ha3; [|eassumption].
  setting; [by eapply Hgive|].
  apply does_bind. eapply (does_set view _ _ _ (with_option (SO_REUSEPORT 1))); [exact (doc_setsockopt me fd _)|auto|eassumption|..].
  all: intros; setting; [by eapply Hgive|]; setting; [by eapply Hgive|]; apply does_ret; eapply Hyes; [done|eassumption|..];
    [apply nonblocking_set|split; [done|apply list_elem_of_here]].
Qed.

(** *** Signals *)

(** [d] has been sent between [v] and [v']. *)
Definition newly (d : datagram) (v v' : host) : Prop := d ∈ drop (length (sent v)) (sent v').

Lemma newly_sent d v v' : arrives (with_sent d v) v' → newly d v v'.
Proof.
  intros [_ [ds Hs] _]. unfold newly. cbn in Hs. rewrite Hs, <- app_assoc, drop_app_length. apply list_elem_of_here.
Qed.

Lemma newly_later d v1 v2 v' : sent v1 `prefix_of` sent v2 → newly d v2 v' → newly d v1 v'.
Proof.
  intros [ds Hp]. unfold newly. rewrite Hp, length_app. intros Hd.
  rewrite <- drop_drop in Hd. rewrite <- (take_drop (length ds)). apply elem_of_app. by right.
Qed.

Lemma arrives_sent d v v' : arrives (with_sent d v) v' → arrives v v'.
Proof. intros [Hs Hn Hp]. split; [done| |done]. etrans; [|exact Hn]. by exists [d]. Qed.

Lemma does_signal fuel b e v s (Q : post bool) :
  socks v !! (me, sender_ b) = Some s → sends_locally s → (patience v < fuel)%nat → e = 0 ∨ e = EINTR →
  (∀ e' v', arrives v v' →
     (e' = 0 ∨ e' = EINTR → newly (Datagram (group_ b) (port_ b) [1]) v v') → Q (inl true) b e' v') →
  does view (backend_signal me fuel) b e v Q.
Proof.
  revert e v s. induction fuel as [|fuel IH]; intros e v s Hs Hl Hf He HQ; [lia|]. cbn [backend_signal].
  apply does_bind, does_get, does_bind, does_syscall. intros k <-.
  pose proof (doc_sendto me (sender_ b) [1] (group_ b) (port_ b) s k Hs Hl) as Hd.
  destruct (sys_sendto me (sender_ b) [1] (group_ b) (port_ b) k) as [[n|x] k']; apply does_bind, does_errno.
  - apply does_ret, HQ; [by eapply arrives_sent|]. intros _. by apply newly_sent.
  - destruct Hd as (Ha & Hx & Hi). destruct (Z.eqb_spec x EINTR) as [->|Hne].
    + destruct (arrives_lookup _ _ _ _ Ha Hs) as (s' & Hs' & ds & ->).
      eapply IH; [exact Hs'|done|specialize (Hi eq_refl); lia|by right|].
      intros e' v' Ha' Hr. apply HQ; [by etrans|]. intros He'. eapply newly_later; [apply Ha|by apply Hr].
    + apply does_ret, HQ; [done|]. lia.
Qed.

(** *** Draining *)

(** [n] datagrams of those [pending] or arrived have been consumed. *)
Definition consumed (s : socket) (n : nat) (s' : socket) : Prop :=
  ∃ arrived, (n <= length (sk_pending s ++ arrived))%nat ∧ s' = with_pending (λ l, drop n (l ++ arrived)) s.

Lemma consumed_more s n s1 s2 : consumed s n s1 → more s1 s2 → consumed s n s2.
Proof.
  intros (a & Hn & ->) [ds ->]. exists (a ++ ds). split; [rewrite !length_app in *; lia|].
  unfold with_pending. cbn. f_equal. by rewrite (app_assoc (sk_pending s)), (drop_app_le (sk_pending s ++ a)).
Qed.

Lemma consumed_one s n s1 d rest : consumed s n s1 → sk_pending s1 = d :: rest → consumed s (S n) (with_pending (λ _, rest) s1).
Proof.
  intros (a & Hn & ->) Hp. cbn in Hp. exists a. unfold with_pending. cbn. split.
  - assert (length (drop n (sk_pending s ++ a)) = S (length rest)) as Hl by (by rewrite Hp). rewrite length_drop in Hl. lia.
  - f_equal. rewrite <- Nat.add_1_r, <- drop_drop, Hp. done.
Qed.

Lemma does_drain fuel (fd : Z) s n s1 b e v (Q : post bool) :
  nonblocking s → socks v !! (me, fd) = Some s1 → consumed s n s1 → (n <= 256)%nat →
  (256 - n + patience v < fuel)%nat →
  (∀ n' s' e' v', socks v' !! (me, fd) = Some s' → consumed s n' s' → (n' <= 256)%nat →
     (n' = 256%nat ∨ e' ≠ EAGAIN ∨ (length (sk_pending s) <= n')%nat) → Q (inl true) b e' v') →
  does view (drain_loop me fuel fd (Z.of_nat n)) b e v Q.
Proof.
  intros Hnb. revert n s1 e v. induction fuel as [|fuel IH]; intros n s1 e v Hs Hc Hn Hf HQ; [lia|]. cbn [drain_loop].
  destruct (Z.ltb_spec (Z.of_nat n) DRAIN_MAX) as [Hlt|Hge]; unfold DRAIN_MAX in *.
  2: { apply does_ret. eapply HQ; [done..|]. left. lia. }
  apply does_bind, does_syscall. intros k <-.
  assert (nonblocking s1) as Hnb1 by (by destruct Hc as (? & _ & ->)).
  pose proof (doc_recv me fd 64 s1 k Hs Hnb1) as Hd. destruct (sys_recv me fd 64 k) as [[m|x] k']; apply does_bind, does_errno.
  - destruct Hd as (v1 & s2 & d & rest & Ha1 & Hs2 & Hp & Ha2).
    destruct (arrives_lookup _ _ _ _ Ha1 Hs) as (s2' & Hs2' & Hm). simplify_eq.
    eapply consumed_more in Hm; [|exact Hc]. eapply consumed_one in Hm; [|exact Hp].
    destruct (arrives_lookup _ _ (me, fd) (with_pending (λ _, rest) s2) Ha2) as (s3 & Hs3 & Hm3).
    { apply lookup_insert_eq. }
    replace (Z.of_nat n + 1) with (Z.of_nat (S n)) by lia. eapply IH; [exact Hs3|by eapply consumed_more|lia| |done].
    destruct Ha1 as [_ _ Hp1], Ha2 as [_ _ Hp2]. cbn in Hp2. lia.
  - destruct Hd as (Ha & Hi & Hg). destruct (arrives_lookup _ _ _ _ Ha Hs) as (s2 & Hs2 & Hm).
    destruct (Z.eqb_spec x EINTR) as [->|Hne].
    + eapply IH; [exact Hs2|by eapply consumed_more|done|specialize (Hi eq_refl); lia|done].
    + apply does_ret. eapply HQ; [exact Hs2|by eapply consumed_more|done|].
      destruct (decide (x = EAGAIN)) as [->|]; [|by right; left]. right. right.
      destruct Hc as (a & Hl & ->). specialize (Hg eq_refl). cbn in Hg.
      assert (length (drop n (sk_pending s ++ a)) = 0%nat) as H0 by (by rewrite Hg).
      rewrite length_drop, length_app in *. lia.
Qed.

End methods_laws.

(** *** Wait sets *)

(** What [wait] polls. *)
Definition polled_entries (s : wait_set) (buffer : list pollfd) : list pollfd :=
  imap (λ i entry, match fds_ s !! i with Some fd => Pollfd fd POLLIN 0 | None => entry end) buffer.

Lemma polled_entries_lookup s buffer i fd :
  fds_ s !! i = Some fd → (length (fds_ s) <= length buffer)%nat →
  take (length (fds_ s)) (polled_entries s buffer) !! i = Some (Pollfd fd POLLIN 0).
Proof.
  intros Hi Hl. pose proof (lookup_lt_Some _ _ _ Hi) as Hlt. rewrite lookup_take_lt by done.
  unfold polled_entries. rewrite list_lookup_imap.
  destruct (lookup_lt_is_Some_2 buffer i ltac:(lia)) as [entry ->].
  cbn. by rewrite Hi.
Qed.

Lemma does_wait {K} `{SocketCalls K} (view : K → host) `{!Documented view} me os timeout s (fd : Z) sk e v
    (Q : bool + exn → wait_set → Z → host → Prop) :
  0 <= timeout → fd ∈ fds_ s → socks v !! (me, fd) = Some sk → sk_pending sk ≠ [] →
  (∀ s' e' v', fds_ s' = fds_ s → arrives v v' → Q (inl true) s' e' v') →
  (∀ s' x v', fds_ s' = fds_ s → arrives v v' → 0 < x → Q (inl false) s' x v') →
  does view (wait me os timeout) s e v Q.
Proof.
  intros Ht Hin Hsk Hp HQ Hno. unfold wait. apply does_bind, does_get.
  rewrite bool_decide_eq_false_2 by (intros Hn; rewrite Hn in Hin; by apply not_elem_of_nil in Hin).
  set (on_heap := bool_decide _). set (buffer := if on_heap then _ else _). fold (polled_entries s buffer). cbn zeta.
  assert (length (fds_ s) <= length buffer)%nat as Hl.
  { unfold buffer, on_heap. case_bool_decide; [unfold resize_entries; by rewrite length_resize|rewrite length_replicate; lia]. }
  apply list_elem_of_lookup in Hin as [i Hi]. pose proof (polled_entries_lookup s buffer i fd Hi Hl) as Hentry.
  set (entries := polled_entries s buffer) in *.
  assert (length entries = length buffer) as Hle by apply length_imap.
  apply does_bind, does_syscall. intros k <-.
  assert (readable me (view k) (take (length (fds_ s)) entries) i) as Hr by (by exists (Pollfd fd POLLIN 0), sk).
  assert (polls view me (take (length (fds_ s)) entries) (poll_call me os (take (length (fds_ s)) entries) timeout)) as Hd.
  { destruct os; [apply doc_ppoll, to_timespec_valid, Ht|apply doc_poll, to_poll_ms_nonneg]. }
  specialize (Hd k). destruct (poll_call me os _ timeout k) as [[[n polled]|x] k'].
  2: { destruct Hd as [Ha Hx]. by apply does_bind, does_put, does_ret, Hno. }
  destruct Hd as (Ha & Hlen & Hd). destruct (Hd i Hr) as (Hn & entry & Hpi & Hbit).
  apply does_bind, does_put. rewrite (proj2 (Z.leb_gt n 0)) by done. apply does_ret.
  rewrite length_take_le in Hlen by lia. rewrite take_app_length' by done.
  replace (existsb _ polled) with true; [by apply HQ|]. symmetry. apply existsb_exists. exists entry.
  split; [by apply list_elem_of_In; eapply list_elem_of_lookup_2|]. apply negb_true_iff. by apply Z.eqb_neq.
Qed.

Lemma built_lookup v key s w : built v key s w → ∃ s', socks w !! key = Some s' ∧ more s s'.
Proof. intros [_ Ha]. eapply arrives_lookup; [exact Ha|]. apply lookup_insert_eq. Qed.

Lemma built_other v key s w key' s' :
  built v key s w → socks v !! key' = Some s' → ∃ s2, socks w !! key' = Some s2 ∧ more s' s2.
Proof.
  intros [Hn Ha] Hs. eapply arrives_lookup; [exact Ha|]. cbn. rewrite lookup_insert_ne; [done|]. intros <-. congruence.
Qed.

Lemma more_listens s s' g p : more s s' → listens s g p → listens s' g p.
Proof. by intros [ds ->]. Qed.
Lemma more_local s s' : more s s' → sends_locally s → sends_locally s'.
Proof. by intros [ds ->]. Qed.

(** What is delivered to a socket that listens is there to be read. *)
Lemma deliver_pending (d : datagram) v v' key s `{∀ s g p, Decision (L s g p)} :
  socks v !! key = Some s → L s (dg_group d) (dg_port d) → arrives (delivered L d v) v' →
  ∃ s', socks v' !! key = Some s' ∧ sk_pending s' ≠ [].
Proof.
  intros Hs Hl Ha. destruct (arrives_lookup _ _ key (with_pending (λ l, l ++ [dg_data d]) s) Ha) as (s' & Hs' & ds & ->).
  { cbn. rewrite lookup_fmap, Hs. cbn. by rewrite decide_True. }
  exists (with_pending (λ l, l ++ ds) (with_pending (λ l, l ++ [dg_data d]) s)). split; [done|].
  cbn. intros []%app_nil. by destruct (sk_pending s).
Qed.

Lemma add_native_in s (fd : Z) : 0 <= fd → fd ∈ fds_ (add_native s fd).
Proof.
  intros Hfd. unfold add_native. rewrite (proj2 (Z.ltb_ge fd 0)) by done. case_bool_decide; [done|].
  cbn. set_solver.
Qed.

Lemma does_for_topic {K} `{SocketCalls K} (view : K → host) `{!Documented view} me n topic port_base b e v
    (Q : unit + exn → backend → Z → host → Prop) :
  (∀ x b' e' v', Q (inr x) b' e' v') →
  (∀ name a fd s e' v', topic = Some name → derive (Node.topic_identity n name) port_base = inl a →
     0 <= fd → built v (me, fd) s v' → sends_locally s → Q (inl tt) (Backend (group a) (port a) fd) e' v') →
  does view (for_topic me n topic port_base) b e v Q.
Proof.
  intros Hno Hyes. unfold for_topic. apply does_bind. destruct topic as [name|]; [|by apply does_throw].
  apply does_ret, does_bind. destruct (derive (Node.topic_identity n name) port_base) as [a|x] eqn:Ha; [|by apply does_throw].
  apply does_ret. apply does_bind, does_put. apply (does_open_sender view me (group a) (port a)); [done|done|by intros|].
  intros fd s e' v' Hfd Hb Hs. by eapply Hyes.
Qed.

Section results.
Context {K : Type} `{SocketCalls K} (view : K → host) `{!Documented view} (me : nat).

Lemma for_topic_result n topic port_base b e k :
  let '(r, p) := for_topic me n topic port_base (Process b e k) in
  r = inl tt → ∃ name a s, topic = Some name ∧ derive (Node.topic_identity n name) port_base = inl a ∧
    group_ (this p) = group a ∧ port_ (this p) = port a ∧
    built (view k) (me, sender_ (this p)) s (view (sys p)) ∧ sends_locally s.
Proof.
  refine (does_for_topic view me n topic port_base b e (view k) (λ r b' _ v', r = inl tt →
    ∃ name a s, topic = Some name ∧ derive (Node.topic_identity n name) port_base = inl a ∧
      group_ b' = group a ∧ port_ b' = port a ∧ built (view k) (me, sender_ b') s v' ∧ sends_locally s) _ _ k eq_refl).
  - by intros.
  - intros name a fd s e' v' Hn Ha Hfd Hb Hs _. by exists name, a, s.
Qed.

Lemma waker_new_result b e k :
  let '(r, p) := waker_new me (Process b e k) in
  ∀ fd, r = inl fd → waker_valid fd = true →
  0 <= fd ∧ ∃ s, built (view k) (me, fd) s (view (sys p)) ∧ listens s (group_ b) (port_ b).
Proof.
  refine (does_backend_open view me b e (view k) (λ r _ _ v', ∀ fd, r = inl fd → waker_valid fd = true →
    0 <= fd ∧ ∃ s, built (view k) (me, fd) s v' ∧ listens s (group_ b) (port_ b)) _ _ k eq_refl).
  - by intros e' v' _ fd [= <-].
  - intros fd s e' v' Hfd Hb _ Hl fd' [= <-] _. split; [done|]. by exists s.
Qed.
End results.

(** ** Properties *)

(** C36. A publisher and a subscriber whose nodes share a namespace need only name
    the same topic: once the subscriber's waker is open, a signal of the
    publisher's backend ends and, unless [sendto] failed for good, has sent a
    datagram to the group and the port of the waker's descriptor.  The network may
    lose it; whenever it is delivered, whatever else arrives, a wait on a set that
    holds the descriptor returns true, unless the poll itself fails. *)
Theorem topic_wake_reaches {K} `{SocketCalls K} (view : K → host) `{!Documented view}
    os sub pub n n' topic port_base fuel timeout b b' ws e k :
  Node.namespace_ n = Node.namespace_ n' → 0 <= timeout → (patience (view k) < fuel)%nat →
  let '(r1, p1) := for_topic sub n topic port_base (Process b e k) in
  let '(r2, p2) := waker_new sub p1 in
  let '(r3, p3) := for_topic pub n' topic port_base (Process b' e (sys p2)) in
  ∀ fd, r1 = inl tt → r2 = inl fd → waker_valid fd = true → r3 = inl tt →
  let '(r4, p4) := backend_signal pub fuel (Process (this p3) 0 (sys p3)) in
  r4 = inl true ∧
  (errno p4 = 0 ∨ errno p4 = EINTR →
   ∃ d, newly d (view (sys p3)) (view (sys p4)) ∧
   ∀ k5, arrives (deliver d (view (sys p4))) (view k5) →
     let '(r5, p5) := wait sub os timeout (Process (add_native ws fd) 0 k5) in
     r5 = inl true ∨ r5 = inl false ∧ 0 < errno p5).
Proof.
  intros Hns Ht Hf.
  pose proof (for_topic_result view sub n topic port_base b e k) as H1.
  destruct (for_topic sub n topic port_base (Process b e k)) as [r1 [b1 e1 k1]].
  pose proof (waker_new_result view sub b1 e1 k1) as H2. destruct (waker_new sub (Process b1 e1 k1)) as [r2 [b2 e2 k2]].
  pose proof (for_topic_result view pub n' topic port_base b' e k2) as H3. cbn [this sys] in *.
  destruct (for_topic pub n' topic port_base (Process b' e k2)) as [r3 [b3 e3 k3]].
  intros fd E1 E2 Hv E3. destruct (H1 E1) as (name & a & s1 & -> & Ha & Hg1 & Hp1 & B1 & _); clear H1.
  destruct (H2 fd E2 Hv) as (Hfd & s2 & B2 & Hl); clear H2.
  destruct (H3 E3) as (? & a' & s3 & [= <-] & Ha' & Hg3 & Hp3 & B3 & Hs3); clear H3. cbn [this sys] in *.
  unfold Node.topic_identity in Ha, Ha'. rewrite <- Hns, Ha in Ha'. injection Ha' as <-.
  destruct (built_lookup _ _ _ _ B2) as (l2 & Hl2 & Hm2). destruct (built_other _ _ _ _ _ _ B3 Hl2) as (l3 & Hl3 & Hm3).
  destruct (built_lookup _ _ _ _ B3) as (s4 & Hs4 & Hm4).
  assert (listens l3 (group_ b3) (port_ b3)) as Hl3'.
  { rewrite Hg3, Hp3, <- Hg1, <- Hp1. eapply more_listens; [exact Hm3|]. by eapply more_listens. }
  destruct B1 as [_ [_ _ P1]], B2 as [_ [_ _ P2]], B3 as [_ [_ _ P3]]. cbn in P1, P2, P3.
  refine (_ (does_signal view pub fuel b3 0 (view k3) s4 (λ r _ e' v', r = inl true ∧ arrives (view k3) v' ∧
    (e' = 0 ∨ e' = EINTR → newly (Datagram (group_ b3) (port_ b3) [1]) (view k3) v')) Hs4 (more_local _ _ Hm4 Hs3)
    ltac:(lia) ltac:(by left) ltac:(done) k3 eq_refl)).
  destruct (backend_signal pub fuel (Process b3 0 k3)) as [r4 [b4 e4 k4]]. cbn [this errno sys].
  intros (-> & Ha4 & Hnew). split; [done|]. intros He. exists (Datagram (group_ b3) (port_ b3) [1]).
  split; [by apply Hnew|]. intros k5 Ha5. destruct (arrives_lookup _ _ _ _ Ha4 Hl3) as (l4 & Hl4 & Hm4').
  destruct (deliver_pending _ _ _ _ _ Hl4 (more_listens _ _ _ _ Hm4' Hl3') Ha5) as (l5 & Hl5 & Hpend).
  refine (_ (does_wait view sub os timeout (add_native ws fd) fd l5 0 (view k5)
    (λ r _ x _, r = inl true ∨ r = inl false ∧ 0 < x) Ht (add_native_in ws fd Hfd) Hl5 Hpend _ _ k5 eq_refl)).
  - by destruct (wait sub os timeout _) as [r5 p5].
  - by left.
  - by right.
Qed.

(** Opening a wake is all or nothing: a waker's descriptor is a new
    non-blocking socket that has joined the backend's group and port, a backend's
    sender is a new one whose datagrams cannot leave the host, and when any of
    their calls fails no socket is kept. *)
Theorem opening_all_or_nothing {K} `{SocketCalls K} (view : K → host) `{!Documented view} me b a e k :
  (let '(r, p) := waker_new me (Process b e k) in
   match r with
   | inl fd => (waker_valid fd = false ∧ arrives (view k) (view (sys p))) ∨
       (waker_valid fd = true ∧ ∃ s, built (view k) (me, fd) s (view (sys p)) ∧ nonblocking s ∧ listens s (group_ b) (port_ b))
   | inr _ => False
   end) ∧
  (let '(r, p) := backend_at me a (Process b e k) in
   match r with
   | inl _ => group_ (this p) = group a ∧ port_ (this p) = port a ∧ 0 <= sender_ (this p) ∧
       ∃ s, built (view k) (me, sender_ (this p)) s (view (sys p)) ∧ sends_locally s
   | inr _ => sender_ (this p) = -1 ∧ arrives (view k) (view (sys p))
   end).
Proof.
  split.
  - refine (does_backend_open view me b e (view k) (λ r _ _ v', match r with
      | inl fd => (waker_valid fd = false ∧ arrives (view k) v') ∨
          (waker_valid fd = true ∧ ∃ s, built (view k) (me, fd) s v' ∧ nonblocking s ∧ listens s (group_ b) (port_ b))
      | inr _ => False end) _ _ k eq_refl).
    + intros e' v' Ha. by left.
    + intros fd s e' v' Hfd Hb Hn Hl. right. split; [by apply Z.leb_le|by exists s].
  - refine (does_bind view _ _ _ _ _ (λ r b' _ v', match r with
      | inl _ => group_ b' = group a ∧ port_ b' = port a ∧ 0 <= sender_ b' ∧
          ∃ s, built (view k) (me, sender_ b') s v' ∧ sends_locally s
      | inr _ => sender_ b' = -1 ∧ arrives (view k) v' end) _ k eq_refl).
    apply does_put. apply (does_open_sender view me (group a) (port a)); [done|done|by intros|].
    intros fd s e' v' Hfd Hb Hs. split_and!; [done..|]. by exists s.
Qed.

(** A drain ends, within 256 datagrams and the interruptions of signals,
    however fast datagrams arrive; the ones it consumes are the oldest, and unless
    [recv] failed it consumes 256 or all those that were pending when it started. *)
Theorem drain_ends {K} `{SocketCalls K} (view : K → host) `{!Documented view} me fuel (fd : Z) s b e k :
  0 <= fd → socks (view k) !! (me, fd) = Some s → nonblocking s → (256 + patience (view k) < fuel)%nat →
  let '(r, p) := waker_drain me fuel fd (Process b e k) in
  r = inl true ∧
  ∃ n s', socks (view (sys p)) !! (me, fd) = Some s' ∧ consumed s n s' ∧ (n <= 256)%nat ∧
    (n = 256%nat ∨ errno p ≠ EAGAIN ∨ (length (sk_pending s) <= n)%nat).
Proof.
  intros Hfd Hs Hnb Hf. unfold waker_drain. rewrite (proj2 (Z.leb_le 0 fd)) by done.
  refine (does_drain view me fuel fd s 0 s b e (view k) (λ r _ e' v', r = inl true ∧
    ∃ n s', socks v' !! (me, fd) = Some s' ∧ consumed s n s' ∧ (n <= 256)%nat ∧
      (n = 256%nat ∨ e' ≠ EAGAIN ∨ (length (sk_pending s) <= n)%nat)) Hnb Hs _ _ _ _ k eq_refl); [|lia|lia|].
  - exists []. rewrite app_nil_r. split; [lia|]. unfold with_pending. rewrite app_nil_r. by destruct s.
  - intros n' s' e' v' Hs' Hc Hn Hend. split; [done|]. by exists n', s'.
Qed.

(** Whatever identity a channel has, the address derived for its wakes is an
    IPv4 multicast group that routers do not forward, and a port of the range
    [\[port_base, port_base + 512)], which fits 16 bits and is not 0: the exact
    constructor would accept it.  It is refused only when that range has no room. *)
Theorem derived_address hash port_base :
  is_u64 hash → is_u16 port_base →
  match derive hash port_base with
  | inl a => group a - group a `mod` 65536 = 0xEFFF0000 ∧ Z.land (group a) 0xF0000000 = 0xE0000000 ∧
      is_u16 (port a) ∧ port a ≠ 0 ∧ port_base <= port a < port_base + PORT_SPAN ∧ port_base + PORT_SPAN <= 65536
  | inr _ => port_base = 0 ∨ 65536 < port_base + PORT_SPAN
  end.
Proof.
  intros Hh Hp. unfold derive, PORT_SPAN. destruct (Z.eqb_spec port_base 0) as [->|Hne]; [by left|]. cbn [orb].
  destruct (Z.ltb_spec (65535 - 512 + 1) port_base) as [Hlt|Hle]; [right; lia|]. cbn [group port].
  assert (Z.land hash 65535 = hash `mod` 65536) as -> by (by apply (land_ones_mod hash 16)).
  pose proof (Z.mod_pos_bound hash 65536 ltac:(lia)) as Hm.
  rewrite (lor_disjoint_add _ _ 16) by (done || lia).
  assert (Z.land (0xEFFF0000 + hash `mod` 65536) 0xF0000000 = 0xE0000000) as ->.
  { change 0xF0000000 with (Z.ldiff (Z.ones 32) (Z.ones 28)). rewrite (land_clear_low 32 _ 28) by lia.
    change (2 ^ 28) with 268435456. lia. }
  pose proof (Z.mod_pos_bound (Z.shiftr hash 32) 512 ltac:(lia)) as Hs. unfold u16, is_u16 in *.
  rewrite (Z.mod_small (port_base + _)) by lia. repeat split; lia.
Qed.

(** ** A host *)

(** More than every descriptor. *)
Definition next_fd (m : gmap (nat * Z) socket) : Z := map_fold (λ key _ acc, Z.max acc (key.2 + 1)) 3 m.

Lemma next_fd_spec m : 0 <= next_fd m ∧ ∀ key, is_Some (m !! key) → key.2 < next_fd m.
Proof.
  unfold next_fd. apply (map_fold_weak_ind (λ r m, 0 <= r ∧ ∀ key, is_Some (m !! key) → key.2 < r)).
  - split; [done|]. intros key [x Hx]. by rewrite lookup_empty in Hx.
  - intros i x m' r _ [Hr IH]. split; [lia|]. intros key [y Hk]. apply lookup_insert_Some in Hk as [[-> _]|[_ Hk]]; [lia|].
    pose proof (IH key (mk_is_Some _ _ Hk)). lia.
Qed.

Lemma next_fd_fresh me m : m !! (me, next_fd m) = None.
Proof. apply eq_None_not_Some. intros Hs. pose proof (proj2 (next_fd_spec m) _ Hs). cbn in *. lia. Qed.

(** A signal interrupts [recv] and [sendto] while there is patience. *)
Definition interrupted {A} (v : host) (f : (A + Z) * host) : (A + Z) * host :=
  match patience v with
  | O => f
  | S n => (inr EINTR, Host (socks v) (sent v) n)
  end.

Definition poll_one (flag : Z) (me : nat) (v : host) (entry : pollfd) : pollfd :=
  Pollfd (fd entry) (events entry)
    match socks v !! (me, fd entry) with
    | Some (Socket _ _ _ _ _ _ _ (_ :: _)) => Z.land (events entry) flag
    | _ => 0
    end.
Definition poll_all (flag : Z) (me : nat) (entries : list pollfd) (v : host) : Z * list pollfd :=
  let polled := poll_one flag me v <$> entries in
  (Z.of_nat (length (List.filter (λ entry, negb (revents entry =? 0)) polled)), polled).

Lemma poll_all_reports flag me entries v i : readable_for flag me v entries i →
  0 < (poll_all flag me entries v).1 ∧
  ∃ entry, (poll_all flag me entries v).2 !! i = Some entry ∧ Z.land (revents entry) flag ≠ 0.
Proof.
  intros (entry & s & Hi & He & Hs & Hp). cbn [poll_all fst snd].
  assert (Z.land (revents (poll_one flag me v entry)) flag ≠ 0) as Hbit.
  { unfold poll_one. cbn [revents]. rewrite Hs. destruct s as [? ? ? ? ? ? ? [|d l]]; [done|].
    by rewrite <- Z.land_assoc, Z.land_diag. }
  assert ((poll_one flag me v <$> entries) !! i = Some (poll_one flag me v entry)) as Hpi by (by rewrite list_lookup_fmap, Hi).
  split; [|by exists (poll_one flag me v entry)].
  assert (poll_one flag me v entry ∈ List.filter (λ entry, negb (revents entry =? 0)) (poll_one flag me v <$> entries)) as Hin.
  { apply list_elem_of_In, filter_In. split; [by eapply list_elem_of_In, list_elem_of_lookup_2|].
    apply negb_true_iff, Z.eqb_neq. intros E. by rewrite E in Hbit. }
  destruct (List.filter _ _); [by apply not_elem_of_nil in Hin|cbn; lia].
Qed.

Lemma poll_all_polls flag me entries : polls_for flag (λ v : host, v) me entries (λ v, (inl (poll_all flag me entries v), v)).
Proof. intros v. split; [done|]. split; [apply length_fmap|]. intros i. apply poll_all_reports. Qed.

#[export] Instance host_calls : SocketCalls host := {
  sys_socket me v :=
    let fd := next_fd (socks v) in (inl fd, with_socks (insert (me, fd) new_socket) v);
  sys_getfl me fd v := (inl (default 0 (sk_flags <$> socks v !! (me, fd))), v);
  sys_setfl me fd flags v := (inl tt, with_socks (alter (with_flags flags) (me, fd)) v);
  sys_cloexec me fd v := (inl tt, v);
  sys_setsockopt me fd o v := (inl tt, with_socks (alter (with_option o) (me, fd)) v);
  sys_bind me fd g p v := (inl tt, with_socks (alter (with_bound g p) (me, fd)) v);
  sys_recv me fd n v :=
    interrupted v match socks v !! (me, fd) with
    | Some s =>
        match sk_pending s with
        | d :: rest => (inl (Z.of_nat (length d)), with_socks (insert (me, fd) (with_pending (λ _, rest) s)) v)
        | [] => (inr EAGAIN, v)
        end
    | None => (inr 9, v)
    end;
  sys_sendto me fd data g p v :=
    interrupted v (inl (Z.of_nat (length data)), with_sent (Datagram g p data) v);
  sys_close me fd v := (inl tt, with_socks (delete (me, fd)) v);
  sys_ppoll me entries t v := (inl (poll_all POLLIN me entries v), v);
  sys_poll me entries ms v := (inl (poll_all POLLIN me entries v), v)
}.

#[export] Instance host_documented : Documented (λ v : host, v).
Proof.
  split; intros me; cbn [sys_socket sys_getfl sys_setfl sys_cloexec sys_setsockopt sys_bind sys_recv sys_sendto sys_close sys_ppoll sys_poll host_calls].
  all: try by intros.
  - intros v. split_and!; [apply next_fd_spec|apply next_fd_fresh|done].
  - intros fd n s v Hs Hn. unfold interrupted. destruct (patience v) eqn:Hp.
    + rewrite Hs. destruct (sk_pending s) as [|d rest] eqn:Hd; [split; [reflexivity|by split]|].
      exists v, s, d, rest. split_and!; done.
    + split; [|split; [intros _; cbn; lia|done]]. split; [|done|cbn; lia]. apply (reflexivity (R := arrives) v).
  - intros fd data g p s v Hs Hl. unfold interrupted. destruct (patience v) eqn:Hp; [done|].
    split; [|split; [done|intros _; cbn; lia]]. split; [|done|cbn; lia]. apply (reflexivity (R := arrives) v).
  - intros entries t _. apply poll_all_polls.
  - intros entries ms _. apply poll_all_polls.
Qed.

(** ** Witnesses *)

Definition quiet_host : host := Host ∅ [] 2.
Definition plant_node (name : list Z) : node :=
  {| name_ := name; namespace_ := str "plant"; regions_ := ∅; blackboards_ := ∅; registry_slots_ := ∅;
     registry_ := None; registry_disabled_ := false; registry_full_warned_ := false |}.
Definition listener : node := plant_node (str "listener").
Definition talker : node := plant_node (str "talker").
Definition nothing : backend := Backend 0 0 (-1).

(** The signal is interrupted twice; its datagram is then delivered. *)
Lemma topic_wake_reaches_witness :
  let '(r1, p1) := for_topic 1 listener (Some (str "imu")) DEFAULT_PORT_BASE (Process nothing 0 quiet_host) in
  let '(r2, p2) := waker_new 1 p1 in
  let '(r3, p3) := for_topic 2 talker (Some (str "imu")) DEFAULT_PORT_BASE (Process nothing 0 (sys p2)) in
  let '(r4, p4) := backend_signal 2 3 (Process (this p3) 0 (sys p3)) in
  r2 = inl 4 ∧ errno p4 = EINTR ∧ ∃ d, sent (sys p4) = [d] ∧
  (wait 1 Linux 5000000 (Process (add_native (WaitSet [] []) 4) 0 (deliver d (sys p4)))).1 = inl true.
Proof.
  pose proof (topic_wake_reaches (λ v : host, v) Linux 1 2 listener talker (Some (str "imu")) DEFAULT_PORT_BASE 3 5000000
    nothing nothing (WaitSet [] []) 0 quiet_host eq_refl ltac:(done) ltac:(cbn; lia)) as Hall.
  destruct (for_topic 1 listener _ _ _) as [r1 p1] eqn:E1. vm_compute in E1. injection E1 as <- <-.
  destruct (waker_new 1 _) as [r2 p2] eqn:E2. vm_compute in E2. injection E2 as <- <-.
  destruct (for_topic 2 talker _ _ _) as [r3 p3] eqn:E3. vm_compute in E3. injection E3 as <- <-.
  specialize (Hall 4 eq_refl eq_refl eq_refl eq_refl).
  destruct (backend_signal 2 3 _) as [r4 p4] eqn:E4. vm_compute in E4. injection E4 as <- <-.
  destruct Hall as [_ Hall]. split; [done|]. split; [done|]. destruct (Hall (or_intror eq_refl)) as (d & Hd & Hk).
  apply list_elem_of_singleton in Hd as ->. eexists. split; [reflexivity|].
  specialize (Hk _ (reflexivity _)). destruct (wait 1 _ _ _) as [r5 p5] eqn:E5. vm_compute in E5. injection E5 as <- <-.
  destruct Hk as [Hk|[Hk _]]; [exact Hk|discriminate Hk].
Defined.

(** Three datagrams wait, and two signals come. *)
Definition busy_socket : socket := Socket (2 + O_NONBLOCK) 1 1 0 true None [] [[1]; [2]; [3]].

Lemma drain_ends_witness :
  let p := (waker_drain 1 300 3 (Process nothing 0 (Host {[(1%nat, 3) := busy_socket]} [] 2))).2 in
  errno p = EAGAIN ∧ ∃ n s, socks (sys p) !! (1%nat, 3) = Some s ∧ consumed busy_socket n s ∧ (3 <= n)%nat.
Proof.
  assert (errno (waker_drain 1 300 3 (Process nothing 0 (Host {[(1%nat, 3) := busy_socket]} [] 2))).2 = EAGAIN) as He
    by (vm_compute; reflexivity).
  pose proof (drain_ends (λ v : host, v) 1 300 3 busy_socket nothing 0 (Host {[(1%nat, 3) := busy_socket]} [] 2)
    ltac:(done) ltac:(apply lookup_insert_eq) ltac:(done) ltac:(cbn; lia)) as Hd.
  destruct (waker_drain 1 300 3 _) as [r p]. cbn [snd] in *. cbn zeta.
  destruct Hd as (_ & n & s & Hs & Hc & Hn & [->|[?|Hl]]); [|done|]; (split; [done|]); eexists; exists s; (split; [exact Hs|]);
    (split; [exact Hc|]); [lia|exact Hl].
Defined.

Lemma opening_all_or_nothing_witness :
  ∃ s, built quiet_host (1%nat, 3) s (sys (waker_new 1 (Process (Backend 0xEFFF0001 27182 (-1)) 0 quiet_host)).2) ∧
    nonblocking s ∧ listens s 0xEFFF0001 27182.
Proof.
  pose proof (opening_all_or_nothing (λ v : host, v) 1 (Backend 0xEFFF0001 27182 (-1)) {| group := 0; port := 0 |} 0 quiet_host) as [Ho _].
  assert ((waker_new 1 (Process (Backend 0xEFFF0001 27182 (-1)) 0 quiet_host)).1 = inl 3) as E by (vm_compute; reflexivity).
  destruct (waker_new 1 _) as [r p]. cbn [fst] in E. subst r. cbn [snd].
  destruct Ho as [[Hv _]|[_ Hs]]; [discriminate Hv|exact Hs].
Defined.
Lemma derived_address_witness : ∃ a, derive (fnv1a_64_str (str "imu")) DEFAULT_PORT_BASE = inl a ∧
  group a - group a `mod` 65536 = 0xEFFF0000 ∧ DEFAULT_PORT_BASE <= port a < DEFAULT_PORT_BASE + 512.
Proof.
  assert (is_u64 (fnv1a_64_str (str "imu"))) as Hu by (vm_compute; split; [discriminate|reflexivity]).
  pose proof (derived_address (fnv1a_64_str (str "imu")) DEFAULT_PORT_BASE Hu ltac:(split; done)) as Hd.
  destruct (derive _ _) as [a|x] eqn:E; [|by vm_compute in E]. exists a. by destruct Hd as (? & _ & _ & _ & ? & _).
Defined.
End Wake.
