(* ===== verification/WinWake.v ===== *)
(** * Wake backends on Windows ([src/os/windows/WakeBackends.cc])

    The UDP backend and the wait sets over Winsock.  The calls are a parameter
    ([WinsockCalls]); what is documented of them is stated for the sockets of
    [Wake.host], to which datagrams may arrive at any time.  A backend that opens
    keeps one socket or none, sockets that an [int] cannot hold are given back, and
    a datagram that is sent and delivered wakes who waits on the group. *)

From stdpp Require Import gmap.
From S2P Require Import Prelude Prog Layout Syscalls Timing Wake.
Import Layout Wake.
Import Timing(INT_MAX, to_poll_ms).

(** The calls of process [nat]: a result or an error number.  A socket is a [SOCKET],
    an unsigned 64-bit number. *)
Class WinsockCalls (K : Type) := {
  WSAStartup : nat → K → Z * K;                             (** version 2.2; 0: ready *)
  ws_socket : nat → K → (Z + Z) * K;                        (** AF_INET, SOCK_DGRAM *)
  ws_fionbio : nat → Z → Z → K → (unit + Z) * K;            (** [ioctlsocket] FIONBIO *)
  ws_setsockopt : nat → Z → sockopt → K → (unit + Z) * K;
  ws_bind : nat → Z → Z → Z → K → (unit + Z) * K;
  ws_recv : nat → Z → Z → K → (Z + Z) * K;
  ws_sendto : nat → Z → list Z → Z → Z → K → (Z + Z) * K;
  closesocket : nat → Z → K → (unit + Z) * K;
  WSAPoll : nat → list pollfd → Z → K → (Z * list pollfd + Z) * K   (** milliseconds *)
}.

Module WinWake.
Definition INADDR_ANY : Z := 0.
Definition POLLRDNORM : Z := 256.
Definition DRAIN_MAX : nat := 256.
Definition STACK_FDS : nat := 64.

Definition to_socket (fd : Z) : Z := u64 fd.

Section methods.
Context {K : Type} `{WinsockCalls K} (me : nat).

(** An object and the static of [winsock_ready], once it is initialised. *)
Local Abbreviation io H := (io (H * option bool) exn K).

Definition this_ {H} : io H H := s <~ get ;; io_ret s.1.
Definition set_this {H} (h : H) : io H unit := s <~ get ;; put (h, s.2).

Definition winsock_ready {H} : io H bool :=
  s <~ get ;;
  match s.2 with
  | Some ready => io_ret ready
  | None =>
      rc <~ plain (WSAStartup me) ;;
      let ready := rc =? 0 in
      put (s.1, Some ready) ;;~ io_ret ready
  end.

(** [None] is INVALID_SOCKET. *)
Definition to_fd {H} (socket : option Z) : io H Z :=
  match socket with
  | None => io_ret (-1)
  | Some socket =>
      if INT_MAX <? socket then syscall (closesocket me socket) ;;~ io_ret (-1)
      else io_ret socket
  end.

(** [ok] unless one of the calls is SOCKET_ERROR: the rest is skipped. *)
Fixpoint settings_of {H} (calls : list (K → (unit + Z) * K)) : io H bool :=
  match calls with
  | [] => io_ret true
  | call :: calls =>
      ok <~ syscall call ;;
      match ok with None => io_ret false | Some _ => settings_of calls end
  end.

Definition configure_sender {H} (socket : Z) : io H bool :=
  settings_of [ws_fionbio me socket 1; ws_setsockopt me socket (IP_MULTICAST_TTL 0);
    ws_setsockopt me socket (IP_MULTICAST_LOOP 1); ws_setsockopt me socket (IP_MULTICAST_IF INADDR_LOOPBACK)].

Definition set_sender (fd : Z) : io backend unit := b <~ this_ ;; set_this (Backend (group_ b) (port_ b) fd).

Definition open_sender : io backend unit :=
  ready <~ winsock_ready ;;
  (if ready : bool then
     socket <~ syscall (ws_socket me) ;;
     match socket with
     | Some socket =>
         ok <~ configure_sender socket ;;
         if ok : bool then fd <~ to_fd (Some socket) ;; set_sender fd
         else syscall (closesocket me socket) ;;~ io_ret tt
     | None => io_ret tt
     end
   else io_ret tt) ;;~
  b <~ this_ ;;
  if sender_ b <? 0 then throw (Exn runtime_error "UdpMulticastBackend: cannot open a multicast sender")
  else io_ret tt.

(** The constructor from an address ([src/Waker.cc]), on this platform. *)
Definition backend_at (a : Address) : io backend unit :=
  set_this (Backend (group a) (port a) (-1)) ;;~ open_sender.

Definition backend_destroy : io backend unit :=
  b <~ this_ ;;
  if 0 <=? sender_ b then syscall (closesocket me (to_socket (sender_ b))) ;;~ io_ret tt else io_ret tt.

Definition backend_open : io backend Z :=
  ready <~ winsock_ready ;;
  if negb ready then io_ret (-1)
  else
    b <~ this_ ;;
    socket <~ syscall (ws_socket me) ;;
    match socket with
    | None => io_ret (-1)
    | Some socket =>
        ok <~ settings_of [ws_fionbio me socket 1; ws_setsockopt me socket (SO_REUSEADDR 1);
          ws_bind me socket INADDR_ANY (port_ b); ws_setsockopt me socket (IP_ADD_MEMBERSHIP (group_ b) INADDR_LOOPBACK)] ;;
        if ok : bool then to_fd (Some socket)
        else syscall (closesocket me socket) ;;~ io_ret (-1)
    end.

Definition backend_close (fd : Z) : io backend unit := syscall (closesocket me (to_socket fd)) ;;~ io_ret tt.

(** [n] turns are left. *)
Fixpoint drain_loop (n : nat) (fd : Z) : io backend unit :=
  match n with
  | O => io_ret tt
  | S n =>
      rc <~ syscall (ws_recv me (to_socket fd) 64) ;;
      match rc with None => io_ret tt | Some _ => drain_loop n fd end
  end.

Definition backend_drain (fd : Z) : io backend unit := drain_loop DRAIN_MAX fd.

Definition backend_signal : io backend unit :=
  b <~ this_ ;;
  syscall (ws_sendto me (to_socket (sender_ b)) [1] (group_ b) (port_ b)) ;;~ io_ret tt.

(** *** Wait sets *)

(** The entries before the first negative descriptor are written; false when there
    is one. *)
Fixpoint gather (fds : list Z) (entries : list pollfd) : list pollfd * bool :=
  match fds, entries with
  | fd :: fds, entry :: entries =>
      if fd <? 0 then (entry :: entries, false)
      else let '(entries, ok) := gather fds entries in (Pollfd (to_socket fd) POLLRDNORM 0 :: entries, ok)
  | _, _ => (entries, true)
  end.

Definition wait (timeout : Z) : io wait_set bool :=
  s <~ this_ ;;
  if bool_decide (fds_ s = []) then io_ret false
  else
    ready <~ winsock_ready ;;
    if negb ready then io_ret false
    else
      let count := length (fds_ s) in
      let on_heap := bool_decide (STACK_FDS < count)%nat in
      let keep entries := set_this (WaitSet (fds_ s) (if on_heap then entries else heap s)) in
      let entries := if on_heap then resize_entries count (heap s) else replicate STACK_FDS (Pollfd 0 0 0) in
      let '(entries, ok) := gather (fds_ s) entries in
      if negb ok then keep entries ;;~ io_ret false
      else
        rc <~ syscall (WSAPoll me (take count entries) (to_poll_ms timeout)) ;;
        match rc with
        | Some (n, polled) =>
            keep (polled ++ drop count entries) ;;~
            if n <=? 0 then io_ret false
            else io_ret (existsb (λ entry, negb (Z.land (revents entry) POLLRDNORM =? 0)) polled)
        | None => keep entries ;;~ io_ret false
        end.
End methods.

(** ** What is documented of the calls *)

Definition listens_any (s : socket) (g p : Z) : Prop :=
  sk_bound s = Some (INADDR_ANY, p) ∧ (g, INADDR_LOOPBACK) ∈ sk_groups s.
#[export] Instance listens_any_dec s g p : Decision (listens_any s g p).
Proof. unfold listens_any. apply _. Defined.
Abbreviation deliver_any := (delivered listens_any).

(** A call fails and changes nothing, or does what it says, while datagrams arrive.
    FIONBIO is the flag [O_NONBLOCK] of the socket.  [sendto] that succeeds has sent
    its datagram, which is no promise that it is delivered. *)
Class Documented {K} `{WinsockCalls K} (view : K → host) : Prop := {
  doc_startup me k : arrives (view k) (view (WSAStartup me k).2);
  doc_ws_socket me k :
    match ws_socket me k with
    | (inr _, k') => arrives (view k) (view k')
    | (inl fd, k') => 0 <= fd < 18446744073709551615 ∧ socks (view k) !! (me, fd) = None ∧
        arrives (with_socks (insert (me, fd) new_socket) (view k)) (view k')
    end;
  doc_fionbio me fd k :
    match ws_fionbio me fd 1 k with
    | (inr _, k') => arrives (view k) (view k')
    | (inl _, k') => arrives (with_socks (alter (with_flags O_NONBLOCK) (me, fd)) (view k)) (view k')
    end;
  doc_ws_setsockopt me fd o k :
    match ws_setsockopt me fd o k with
    | (inr _, k') => arrives (view k) (view k')
    | (inl _, k') => arrives (with_socks (alter (with_option o) (me, fd)) (view k)) (view k')
    end;
  doc_ws_bind me fd g p k :
    match ws_bind me fd g p k with
    | (inr _, k') => arrives (view k) (view k')
    | (inl _, k') => arrives (with_socks (alter (with_bound g p) (me, fd)) (view k)) (view k')
    end;
  doc_closesocket me fd k : arrives (with_socks (delete (me, fd)) (view k)) (view (closesocket me fd k).2);
  doc_ws_recv me fd n s k : socks (view k) !! (me, fd) = Some s → nonblocking s →
    match ws_recv me fd n k with
    | (inr _, k') => arrives (view k) (view k')
    | (inl _, k') => ∃ v s' d rest, arrives (view k) v ∧ socks v !! (me, fd) = Some s' ∧ sk_pending s' = d :: rest ∧
        arrives (with_socks (insert (me, fd) (with_pending (λ _, rest) s')) v) (view k')
    end;
  doc_ws_sendto me fd data g p s k : socks (view k) !! (me, fd) = Some s → sends_locally s →
    match ws_sendto me fd data g p k with
    | (inr e, k') => arrives (view k) (view k') ∧ e ≠ 0
    | (inl _, k') => arrives (with_sent (Datagram g p data) (view k)) (view k')
    end;
  doc_wsapoll me entries ms : polls_for POLLRDNORM view me entries (WSAPoll me entries ms)
}.

(** ** What the methods do *)

Section laws.
Context {K : Type} `{WinsockCalls K} (view : K → host) `{!Documented view} (me : nat).
Implicit Types (v w : host) (s : socket).
Local Abbreviation post T A := (A + exn → T * option bool → Z → host → Prop).

Lemma does_this {T} (h : T * option bool) e v (Q : post T T) : Q (inl h.1) h e v → does view this_ h e v Q.
Proof. intros HQ. by apply does_bind, does_get, does_ret. Qed.
Lemma does_set_this {T} (h' : T) (h : T * option bool) e v (Q : post T unit) :
  Q (inl tt) (h', h.2) e v → does view (set_this h') h e v Q.
Proof. intros HQ. by apply does_bind, does_get, does_put. Qed.

Lemma does_winsock_ready {T} (h : T * option bool) e v (Q : post T bool) :
  (∀ ready v', arrives v v' → (∀ r, h.2 = Some r → ready = r) → Q (inl ready) (h.1, Some ready) e v') →
  does view (winsock_ready me) h e v Q.
Proof.
  intros HQ. unfold winsock_ready. apply does_bind, does_get. destruct h as [h [ready|]]; cbn [fst snd] in *.
  - apply does_ret. apply HQ; [done|]. by intros r [= ->].
  - apply does_bind, does_plain. intros k <-. pose proof (doc_startup me k) as Ha. destruct (WSAStartup me k) as [rc k'].
    apply does_bind, does_put, does_ret. by apply HQ.
Qed.

(** Settings of the socket that is being built, each with the change it makes. *)
Lemma does_settings {T} key (calls : list ((K → (unit + Z) * K) * (socket → socket))) s (h : T * option bool) e v w (Q : post T bool) :
  (∀ call u, (call, u) ∈ calls → settings u ∧ ∀ k, match call k with
    | (inr _, k') => arrives (view k) (view k')
    | (inl _, k') => arrives (with_socks (alter u key) (view k)) (view k') end) →
  built v key s w →
  (∀ s' e' w', built v key s' w' → Q (inl false) h e' w') →
  (∀ e' w', built v key (fold_left (λ s u, u s) calls.*2 s) w' → Q (inl true) h e' w') →
  does view (settings_of calls.*1) h e w Q.
Proof.
  revert s e w. induction calls as [|[call u] calls IH]; intros s e w Hc Hb Hno Hyes; cbn [fmap list_fmap settings_of].
  - by apply does_ret, Hyes.
  - destruct (Hc call u) as [Hu Hcall]; [apply list_elem_of_here|]. apply does_bind.
    eapply (does_set view _ _ _ u); [exact Hcall|done|done|..].
    + intros e' w' Hb'. apply does_ret. by eapply Hno.
    + intros a e' w' Hb'. apply (IH (u s)); [|done..]. intros call' u' Hin. apply Hc. by apply list_elem_of_further.
Qed.

(** The settings of a socket that sends, and of one that listens. *)
Lemma does_win_configure_sender {T} fd s (h : T * option bool) e v w (Q : post T bool) :
  built v (me, fd) s w →
  (∀ s' e' w', built v (me, fd) s' w' → Q (inl false) h e' w') →
  (∀ s' e' w', built v (me, fd) s' w' → sends_locally s' → Q (inl true) h e' w') →
  does view (configure_sender me fd) h e w Q.
Proof.
  intros Hb Hno Hyes. unfold configure_sender.
  eapply (does_settings (me, fd) [(ws_fionbio me fd 1, with_flags O_NONBLOCK);
    (ws_setsockopt me fd (IP_MULTICAST_TTL 0), with_option (IP_MULTICAST_TTL 0));
    (ws_setsockopt me fd (IP_MULTICAST_LOOP 1), with_option (IP_MULTICAST_LOOP 1));
    (ws_setsockopt me fd (IP_MULTICAST_IF INADDR_LOOPBACK), with_option (IP_MULTICAST_IF INADDR_LOOPBACK))] s); [|exact Hb|exact Hno|].
  - intros call u Hin. repeat (apply elem_of_cons in Hin as [[= -> ->]|Hin]);
      [split; [auto|apply doc_fionbio || apply doc_ws_setsockopt]..|by apply not_elem_of_nil in Hin].
  - intros e' w' Hb'. eapply Hyes; [exact Hb'|]. by destruct s.
Qed.

Lemma does_listening fd g p s (h : backend * option bool) e v w (Q : post backend bool) :
  built v (me, fd) s w →
  (∀ s' e' w', built v (me, fd) s' w' → Q (inl false) h e' w') →
  (∀ s' e' w', built v (me, fd) s' w' → nonblocking s' → listens_any s' g p → Q (inl true) h e' w') →
  does view (settings_of [ws_fionbio me fd 1; ws_setsockopt me fd (SO_REUSEADDR 1); ws_bind me fd INADDR_ANY p;
    ws_setsockopt me fd (IP_ADD_MEMBERSHIP g INADDR_LOOPBACK)]) h e w Q.
Proof.
  intros Hb Hno Hyes.
  eapply (does_settings (me, fd) [(ws_fionbio me fd 1, with_flags O_NONBLOCK);
    (ws_setsockopt me fd (SO_REUSEADDR 1), with_option (SO_REUSEADDR 1));
    (ws_bind me fd INADDR_ANY p, with_bound INADDR_ANY p);
    (ws_setsockopt me fd (IP_ADD_MEMBERSHIP g INADDR_LOOPBACK), with_option (IP_ADD_MEMBERSHIP g INADDR_LOOPBACK))] s); [|exact Hb|exact Hno|].
  - intros call u Hin. repeat (apply elem_of_cons in Hin as [[= -> ->]|Hin]);
      [split; [auto|first [apply doc_fionbio|apply doc_ws_bind|apply doc_ws_setsockopt]]..|by apply not_elem_of_nil in Hin].
  - intros e' w' Hb'. eapply Hyes; [exact Hb'|by destruct s|]. destruct s. split; [done|apply list_elem_of_here].
Qed.

Lemma does_closesocket {T} fd (h : T * option bool) e v (Q : post T (option unit)) :
  (∀ r e' v', arrives (with_socks (delete (me, fd)) v) v' → Q (inl r) h e' v') →
  does view (syscall (closesocket me fd)) h e v Q.
Proof.
  intros HQ. apply does_syscall. intros k <-. pose proof (doc_closesocket me fd k) as Hd.
  destruct (closesocket me fd k) as [[[]|x] k']; by apply HQ.
Qed.

Lemma does_ws_socket {T} (h : T * option bool) e v (Q : post T (option Z)) :
  (∀ e' v', arrives v v' → Q (inl None) h e' v') →
  (∀ fd e' v', 0 <= fd → built v (me, fd) new_socket v' → Q (inl (Some fd)) h e' v') →
  does view (syscall (ws_socket me)) h e v Q.
Proof.
  intros Hno Hyes. apply does_syscall. intros k <-. pose proof (doc_ws_socket me k) as Hd.
  destruct (ws_socket me k) as [[fd|x] k']; [|by apply Hno]. destruct Hd as (Hfd & Hn & Ha). apply Hyes; [lia|done].
Qed.

(** A socket an [int] cannot hold is given back. *)
Lemma does_to_fd {T} fd s (h : T * option bool) e v w (Q : post T Z) :
  0 <= fd → built v (me, fd) s w →
  (∀ e' w', arrives v w' → Q (inl (-1)) h e' w') →
  (fd <= INT_MAX → Q (inl fd) h e w) →
  does view (to_fd me (Some fd)) h e w Q.
Proof.
  intros Hfd Hb Hno Hyes. cbn [to_fd]. destruct (Z.ltb_spec INT_MAX fd).
  - apply does_bind, does_closesocket. intros r e' w' Ha. apply does_ret, Hno. by eapply built_undone.
  - by apply does_ret, Hyes.
Qed.

Lemma built_before v0 v key s w : arrives v0 v → built v key s w → built v0 key s w.
Proof.
  intros [Hv Hst Hp] [Hn Ha]. split.
  - specialize (Hv key). rewrite Hn in Hv. by inversion Hv.
  - etrans; [|exact Ha]. split; [|done..]. intros i. cbn. destruct (decide (i = key)) as [->|Hne].
    + rewrite !lookup_insert_eq. by constructor.
    + rewrite !lookup_insert_ne by done. apply Hv.
Qed.

Lemma does_win_open_sender g p (h : backend * option bool) e v (Q : post backend unit) :
  h.1 = Backend g p (-1) →
  (∀ x h' e' v', arrives v v' → h'.1 = Backend g p (-1) → Q (inr x) h' e' v') →
  (∀ fd s h' e' v', 0 <= fd <= INT_MAX → built v (me, fd) s v' → sends_locally s → h'.1 = Backend g p fd → Q (inl tt) h' e' v') →
  does view (open_sender me) h e v Q.
Proof.
  intros Hh Hno Hyes. destruct h as [h st]. cbn in Hh. subst h. unfold open_sender.
  apply does_bind, does_winsock_ready. intros ready v1 Ha1 _. cbn [fst].
  assert (∀ e2 v2, arrives v v2 → does view (b <~ this_ ;;
    if sender_ b <? 0 then throw (Exn runtime_error "UdpMulticastBackend: cannot open a multicast sender") else io_ret tt)
    (Backend g p (-1), Some ready) e2 v2 Q) as Hfail.
  { intros e2 v2 Ha. apply does_bind, does_this. cbn. apply does_throw. by apply Hno. }
  apply does_bind. destruct ready; [|by apply does_ret, Hfail].
  apply does_bind, does_ws_socket.
  - intros e2 v2 Ha2. apply does_ret, Hfail. by etrans.
  - intros fd e2 v2 Hfd Hb. apply (built_before _ _ _ _ _ Ha1) in Hb.
    apply does_bind. eapply does_win_configure_sender; [exact Hb|..].
    + intros s e3 v3 Hb3. apply does_bind, does_closesocket. intros r e4 v4 Ha4.
      apply does_ret, Hfail. by eapply built_undone.
    + intros s e3 v3 Hb3 Hs. apply does_bind. eapply does_to_fd; [done|exact Hb3|..].
      * intros e4 v4 Ha4. apply does_bind, does_this, does_set_this. by apply Hfail.
      * intros Hmax. apply does_bind, does_this, does_set_this. apply does_bind, does_this. cbn [sender_ fst group_ port_].
        rewrite (proj2 (Z.ltb_ge fd 0)) by done. apply does_ret. by eapply Hyes.
Qed.

Lemma does_win_backend_open (h : backend * option bool) e v (Q : post backend Z) :
  (∀ h' e' v', h'.1 = h.1 → arrives v v' → Q (inl (-1)) h' e' v') →
  (∀ fd s h' e' v', h' = (h.1, Some true) → 0 <= fd <= INT_MAX → built v (me, fd) s v' → nonblocking s →
     listens_any s (group_ h.1) (port_ h.1) → Q (inl fd) h' e' v') →
  does view (backend_open me) h e v Q.
Proof.
  intros Hno Hyes. unfold backend_open. apply does_bind, does_winsock_ready. intros ready v1 Ha1 _.
  destruct ready; [|by apply does_ret, Hno]. cbn [negb]. apply does_bind, does_this. cbn [fst].
  apply does_bind, does_ws_socket.
  - intros e2 v2 Ha2. apply does_ret, Hno; [done|by etrans].
  - intros fd e2 v2 Hfd Hb. apply (built_before _ _ _ _ _ Ha1) in Hb.
    apply does_bind. eapply does_listening; [exact Hb|..].
    + intros s e3 v3 Hb3. apply does_bind, does_closesocket. intros r e4 v4 Ha4.
      apply does_ret, Hno; [done|by eapply built_undone].
    + intros s e3 v3 Hb3 Hs Hl. eapply does_to_fd; [done|exact Hb3|..].
      * intros e4 v4 Ha4. by apply Hno.
      * intros Hmax. by eapply Hyes.
Qed.

Lemma to_socket_int fd : 0 <= fd <= INT_MAX → to_socket fd = fd.
Proof. intros Hfd. unfold to_socket, u64, INT_MAX in *. lia. Qed.

(** A signal: nobody is told when its datagram is not sent. *)
Lemma does_win_signal s (h : backend * option bool) v (Q : post backend unit) :
  0 <= sender_ h.1 <= INT_MAX → socks v !! (me, sender_ h.1) = Some s → sends_locally s →
  (∀ e' v', arrives v v' → (e' = 0 → newly (Datagram (group_ h.1) (port_ h.1) [1]) v v') → Q (inl tt) h e' v') →
  does view (backend_signal me) h 0 v Q.
Proof.
  intros Hfd Hs Hl HQ. unfold backend_signal. apply does_bind, does_this. rewrite to_socket_int by done.
  apply does_bind, does_syscall. intros k <-.
  pose proof (doc_ws_sendto me (sender_ h.1) [1] (group_ h.1) (port_ h.1) s k Hs Hl) as Hd.
  destruct (ws_sendto me _ _ _ _ k) as [[n|x] k'].
  - apply does_ret, HQ; [by eapply arrives_sent|]. intros _. by apply newly_sent.
  - destruct Hd as [Ha Hx]. by apply does_ret, HQ.
Qed.

(** Draining takes at most the turns it has, the oldest first. *)
Lemma does_win_drain m fd s n s1 (h : backend * option bool) e v (Q : post backend unit) :
  0 <= fd <= INT_MAX → nonblocking s → socks v !! (me, fd) = Some s1 → consumed s n s1 →
  (∀ n' s' e' v', socks v' !! (me, fd) = Some s' → consumed s n' s' → (n' <= n + m)%nat → Q (inl tt) h e' v') →
  does view (drain_loop me m fd) h e v Q.
Proof.
  intros Hfd Hnb. revert n s1 e v. induction m as [|m IH]; intros n s1 e v Hs Hc HQ; cbn [drain_loop].
  { apply does_ret. eapply HQ; [exact Hs|exact Hc|lia]. }
  rewrite to_socket_int by done. apply does_bind, does_syscall. intros k <-.
  assert (nonblocking s1) as Hnb1 by (by destruct Hc as (? & _ & ->)).
  pose proof (doc_ws_recv me fd 64 s1 k Hs Hnb1) as Hd. destruct (ws_recv me fd 64 k) as [[x|x] k'].
  - destruct Hd as (v1 & s2 & d & rest & Ha1 & Hs2 & Hp & Ha2).
    destruct (arrives_lookup _ _ _ _ Ha1 Hs) as (s2' & Hs2' & Hm). simplify_eq.
    eapply consumed_more in Hm; [|exact Hc]. eapply consumed_one in Hm; [|exact Hp].
    destruct (arrives_lookup _ _ (me, fd) (with_pending (λ _, rest) s2) Ha2) as (s3 & Hs3 & Hm3); [apply lookup_insert_eq|].
    eapply IH; [exact Hs3|by eapply consumed_more|]. intros n' s' e' v' Hs' Hc' Hn'. eapply HQ; [exact Hs'|exact Hc'|lia].
  - destruct (arrives_lookup _ _ _ _ Hd Hs) as (s2 & Hs2 & Hm).
    apply does_ret. eapply HQ; [exact Hs2|by eapply consumed_more|lia].
Qed.

(** *** Wait sets *)

Lemma gather_all fds entries :
  Forall (λ fd, 0 <= fd) fds → (length fds <= length entries)%nat →
  gather fds entries = (map (λ fd, Pollfd (to_socket fd) POLLRDNORM 0) fds ++ drop (length fds) entries, true).
Proof.
  intros Hf. revert entries. induction Hf as [|fd fds Hfd _ IH]; intros entries Hl; cbn [gather map length app drop].
  - by destruct entries.
  - destruct entries as [|entry entries]; cbn [length] in Hl; [lia|].
    rewrite (proj2 (Z.ltb_ge fd 0)), IH by (done || lia). done.
Qed.

(** What is polled. *)
Definition asked (set : wait_set) : list pollfd := map (λ fd, Pollfd (to_socket fd) POLLRDNORM 0) (fds_ set).

Lemma does_win_wait timeout (set : wait_set) ready (fd : Z) sk e v (Q : post wait_set bool) :
  Forall (λ fd, 0 <= fd) (fds_ set) → fd ∈ fds_ set → fd <= INT_MAX →
  socks v !! (me, fd) = Some sk → sk_pending sk ≠ [] →
  (∀ r h' e' v', arrives v v' → (∀ r', ready = Some r' → r = r') → Q (inl r) h' e' v') →
  (∀ h' x v', arrives v v' → 0 < x → Q (inl false) h' x v') →
  does view (wait me timeout) (set, ready) e v Q.
Proof.
  intros Hnn Hin Hmax Hsk Hp HQ Hno. unfold wait. apply does_bind, does_this. cbn [fst].
  rewrite bool_decide_eq_false_2 by (intros Hn; rewrite Hn in Hin; by apply not_elem_of_nil in Hin).
  apply does_bind, does_winsock_ready. intros r v1 Ha1 Hr0. cbn [fst snd] in *.
  destruct r; [|by apply does_ret, HQ]. cbn [negb].
  set (on_heap := bool_decide _). set (buffer := if on_heap then _ else _). cbn zeta.
  assert (length (fds_ set) <= length buffer)%nat as Hl.
  { unfold buffer, on_heap. case_bool_decide; [unfold resize_entries; by rewrite length_resize|rewrite length_replicate; lia]. }
  rewrite (gather_all _ _ Hnn Hl). fold (asked set). cbn [negb].
  assert (length (asked set) = length (fds_ set)) as Hla by apply length_map. rewrite <- Hla, take_app_length.
  destruct (arrives_lookup _ _ _ _ Ha1 Hsk) as (sk1 & Hsk1 & ds & ->).
  apply list_elem_of_lookup in Hin as [i Hi].
  assert (0 <= fd <= INT_MAX) as Hfd by (split; [by eapply Forall_lookup_1 in Hi|done]).
  apply does_bind, does_syscall. intros k Hk.
  assert (readable_for POLLRDNORM me (view k) (asked set) i) as Hr.
  { exists (Pollfd fd POLLRDNORM 0), (with_pending (λ l, l ++ ds) sk). rewrite Hk. split_and!; [|done|done|].
    - unfold asked. rewrite list_lookup_fmap, Hi. cbn. by rewrite to_socket_int.
    - destruct sk as [? ? ? ? ? ? ? l]. cbn in *. by intros []%app_nil. }
  pose proof (doc_wsapoll me (asked set) (to_poll_ms timeout) k) as Hd.
  destruct (WSAPoll me (asked set) (to_poll_ms timeout) k) as [[[n polled]|x] k'].
  2: { destruct Hd as [Ha Hx]. apply does_bind, does_set_this, does_ret, Hno; [rewrite Hk in Ha; by etrans|done]. }
  destruct Hd as (Ha & Hlen & Hd). destruct (Hd i Hr) as (Hn & entry & Hpi & Hbit).
  apply does_bind, does_set_this. rewrite (proj2 (Z.leb_gt n 0)) by done. apply does_ret.
  replace (existsb _ polled) with true; [apply HQ; [rewrite Hk in Ha; by etrans|done]|].
  symmetry. apply existsb_exists. exists entry.
  split; [by apply list_elem_of_In; eapply list_elem_of_lookup_2|]. apply negb_true_iff. by apply Z.eqb_neq.
Qed.
End laws.

(** ** Properties *)

(** Opening is all or nothing: a descriptor is a new non-blocking socket that has
    joined the backend's group, a sender is one whose datagrams stay on the host, and
    otherwise no socket is kept. *)
Lemma windows_opening_all_or_nothing {K} `{WinsockCalls K} (view : K → host) `{!Documented view} me h a e k :
  (let '(r, p) := backend_open me (Process h e k) in
   match r with
   | inl fd => (fd = -1 ∧ arrives (view k) (view (sys p))) ∨
       (0 <= fd <= INT_MAX ∧ this p = (h.1, Some true) ∧
        ∃ s, built (view k) (me, fd) s (view (sys p)) ∧ nonblocking s ∧ listens_any s (group_ h.1) (port_ h.1))
   | inr _ => False
   end) ∧
  (let '(r, p) := backend_at me a (Process h e k) in
   match r with
   | inl _ => ∃ fd s, (this p).1 = Backend (group a) (port a) fd ∧ 0 <= fd <= INT_MAX ∧
       built (view k) (me, fd) s (view (sys p)) ∧ sends_locally s
   | inr _ => sender_ (this p).1 = -1 ∧ arrives (view k) (view (sys p))
   end).
Proof.
  split.
  - refine (does_win_backend_open view me h e (view k) (λ r h' _ v', match r with
      | inl fd => (fd = -1 ∧ arrives (view k) v') ∨ (0 <= fd <= INT_MAX ∧ h' = (h.1, Some true) ∧
          ∃ s, built (view k) (me, fd) s v' ∧ nonblocking s ∧ listens_any s (group_ h.1) (port_ h.1))
      | inr _ => False end) _ _ k eq_refl).
    + intros h' e' v' _ Ha. by left.
    + intros fd s h' e' v' -> Hfd Hb Hn Hl. right. split; [done|]. split; [done|]. by exists s.
  - refine (does_bind view _ _ _ _ _ (λ r h' _ v', match r with
      | inl _ => ∃ fd s, h'.1 = Backend (group a) (port a) fd ∧ 0 <= fd <= INT_MAX ∧
          built (view k) (me, fd) s v' ∧ sends_locally s
      | inr _ => sender_ h'.1 = -1 ∧ arrives (view k) v' end) _ k eq_refl).
    apply does_set_this. apply (does_win_open_sender view me (group a) (port a)); [done|..].
    + intros x h' e' v' Ha Hh. by rewrite Hh.
    + intros fd s h' e' v' Hfd Hb Hs Hh. by exists fd, s.
Qed.

(** C37. On Windows a subscriber's process opens a descriptor of a backend and a
    publisher's opens a backend of the same address, each all or nothing, giving back
    the sockets an [int] cannot hold.  When the [sendto] of a signal succeeds, it has
    sent a datagram to the group and the port of the descriptor.  The network may
    lose it; whenever it is delivered, whatever else arrives, the subscriber's next
    wait on a set with the descriptor answers that it is ready, unless the poll
    itself fails. *)
Theorem windows_wake_reaches {K} `{WinsockCalls K} (view : K → host) `{!Documented view} sub pub a
    (b : backend) st1 (h2 : backend * option bool) (ws : wait_set) fd timeout e k :
  group_ b = group a → port_ b = port a → Forall (λ fd, 0 <= fd) (fds_ ws) →
  let '(r1, p1) := backend_open sub (Process (b, st1) e k) in
  let '(r2, p2) := backend_at pub a (Process h2 e (sys p1)) in
  let '(r3, p3) := backend_signal pub (Process (this p2) 0 (sys p2)) in
  (r1 = inl (-1) ∧ arrives (view k) (view (sys p1)) ∨
   ∃ d s, r1 = inl d ∧ 0 <= d <= INT_MAX ∧ built (view k) (sub, d) s (view (sys p1)) ∧ nonblocking s) ∧
  (r2 = inl tt ∨ sender_ (this p2).1 = -1 ∧ arrives (view (sys p1)) (view (sys p2))) ∧
  (r1 = inl fd → 0 <= fd → r2 = inl tt → errno p3 = 0 →
   ∃ d, newly d (view (sys p2)) (view (sys p3)) ∧
   ∀ k4, arrives (deliver_any d (view (sys p3))) (view k4) →
     let '(r4, p4) := wait sub timeout (Process (add_native ws fd, (this p1).2) 0 k4) in
     r4 = inl true ∨ r4 = inl false ∧ 0 < errno p4).
Proof.
  intros Hg Hp Hnn.
  pose proof (proj1 (windows_opening_all_or_nothing view sub (b, st1) a e k)) as H1.
  destruct (backend_open sub _) as [[d|x] p1]; [|done].
  pose proof (proj2 (windows_opening_all_or_nothing view pub h2 a e (sys p1))) as H2.
  destruct (backend_at pub a _) as [r2 [h e2 k2]]. cbn [this sys] in *.
  destruct (backend_signal pub _) as [r3 p3] eqn:E3.
  split; [|split].
  - destruct H1 as [[-> Ha]|(Hd & _ & s & Hb & Hnb & _)]; [by left|right]. by exists d, s.
  - destruct r2 as [[]|x]; [by left|by right].
  - intros [= ->] Hfd -> Hsent. destruct H1 as [[-> _]|(Hd & -> & s & Hb & _ & Hl)]; [lia|].
    destruct H2 as (sfd & s2 & Hh & Hsfd & Hb2 & Hs2). cbn [fst snd] in *.
    destruct (built_lookup _ _ _ _ Hb2) as (s3 & Hs3 & Hm3).
    destruct (built_lookup _ _ _ _ Hb) as (l1 & Hl1 & Hm1). destruct (built_other _ _ _ _ _ _ Hb2 Hl1) as (l2 & Hl2 & Hm2).
    assert (sender_ h.1 = sfd) as Hsender by (by rewrite Hh).
    pose proof (does_win_signal view pub s3 h (view k2) (λ _ _ e' v', arrives (view k2) v' ∧
      (e' = 0 → newly (Datagram (group_ h.1) (port_ h.1) [1]) (view k2) v'))) as D.
    rewrite Hsender in D. specialize (D Hsfd Hs3 (more_local _ _ Hm3 Hs2) ltac:(done) k2 eq_refl).
    rewrite E3 in D. destruct D as [Ha3 Hnew]. rewrite Hh in Hnew. eexists. split; [exact (Hnew Hsent)|].
    intros k4 Ha4. destruct (arrives_lookup _ _ _ _ Ha3 Hl2) as (l3 & Hl3 & Hm).
    assert (listens_any l3 (group a) (port a)) as Hl3'
      by (rewrite <- Hg, <- Hp; destruct Hm as [? ->], Hm2 as [? ->], Hm1 as [? ->]; exact Hl).
    destruct (deliver_pending _ _ _ _ _ Hl3 Hl3' Ha4) as (l & Hlk & Hpend).
    refine (_ (does_win_wait view sub timeout (add_native ws fd) (Some true) fd l 0 (view k4)
      (λ r _ x _, r = inl true ∨ r = inl false ∧ 0 < x) _ (add_native_in ws fd Hfd) (proj2 Hd) Hlk Hpend _ _ k4 eq_refl)).
    + by destruct (wait sub timeout _) as [r4 p4].
    + unfold add_native. rewrite (proj2 (Z.ltb_ge fd 0)) by done. case_bool_decide; [done|].
      cbn. by apply Forall_app; split; [|constructor].
    + intros r h' e' v' _ Hr. left. by rewrite (Hr true).
    + by right.
Qed.

(** A drain takes no more than 256 datagrams, the oldest. *)
Lemma windows_drain_ends {K} `{WinsockCalls K} (view : K → host) `{!Documented view} me fd s h e k :
  0 <= fd <= INT_MAX → socks (view k) !! (me, fd) = Some s → nonblocking s →
  let '(r, p) := backend_drain me fd (Process h e k) in
  r = inl tt ∧ ∃ n s', socks (view (sys p)) !! (me, fd) = Some s' ∧ consumed s n s' ∧ (n <= 256)%nat.
Proof.
  intros Hfd Hs Hnb. refine (does_win_drain view me DRAIN_MAX fd s 0 s h e (view k) (λ r _ _ v', r = inl tt ∧
    ∃ n s', socks v' !! (me, fd) = Some s' ∧ consumed s n s' ∧ (n <= 256)%nat) Hfd Hnb Hs _ _ k eq_refl).
  - exists []. rewrite app_nil_r. split; [lia|]. unfold with_pending. rewrite app_nil_r. by destruct s.
  - intros n' s' e' v' Hs' Hc Hn. split; [done|]. by exists n', s'.
Qed.

(** ** A host *)

Definition WSAEWOULDBLOCK : Z := 10035.

(** Descriptors run out at 2^64 - 1. *)
#[export] Instance win_host_calls : WinsockCalls host := {
  WSAStartup me v := (0, v);
  ws_socket me v :=
    let fd := next_fd (socks v) in
    if fd <? 18446744073709551615 then (inl fd, with_socks (insert (me, fd) new_socket) v) else (inr 10024, v);
  ws_fionbio me fd on v := (inl tt, with_socks (alter (with_flags O_NONBLOCK) (me, fd)) v);
  ws_setsockopt me fd o v := (inl tt, with_socks (alter (with_option o) (me, fd)) v);
  ws_bind me fd g p v := (inl tt, with_socks (alter (with_bound g p) (me, fd)) v);
  ws_recv me fd n v :=
    match socks v !! (me, fd) with
    | Some s =>
        match sk_pending s with
        | d :: rest => (inl (Z.of_nat (length d)), with_socks (insert (me, fd) (with_pending (λ _, rest) s)) v)
        | [] => (inr WSAEWOULDBLOCK, v)
        end
    | None => (inr 10038, v)
    end;
  ws_sendto me fd data g p v :=
    (inl (Z.of_nat (length data)), with_sent (Datagram g p data) v);
  closesocket me fd v := (inl tt, with_socks (delete (me, fd)) v);
  WSAPoll me entries ms v := (inl (poll_all POLLRDNORM me entries v), v)
}.

#[export] Instance win_host_documented : Documented (λ v : host, v).
Proof.
  split; intros me; cbn [WSAStartup ws_socket ws_fionbio ws_setsockopt ws_bind ws_recv ws_sendto closesocket WSAPoll win_host_calls].
  all: try by intros.
  - intros v. destruct (Z.ltb_spec (next_fd (socks v)) 18446744073709551615); [|done].
    pose proof (proj1 (next_fd_spec (socks v))). split_and!; [done|done|apply next_fd_fresh|done].
  - intros fd n s v Hs Hn. rewrite Hs. destruct (sk_pending s) as [|d rest] eqn:Hd; [done|].
    exists v, s, d, rest. split_and!; done.
  - intros entries ms. apply poll_all_polls.
Qed.

(** ** Witness *)

Definition address : Address := {| group := 0xEFFF0001; port := 27182 |}.

Lemma windows_wake_reaches_witness :
  let '(r1, p1) := backend_open 1 (Process (Backend 0xEFFF0001 27182 (-1), None) 0 quiet_host) in
  let '(r2, p2) := backend_at 2 address (Process (nothing, None) 0 (sys p1)) in
  let '(r3, p3) := backend_signal 2 (Process (this p2) 0 (sys p2)) in
  r1 = inl 3 ∧ ∃ d, sent (sys p3) = [d] ∧
  (wait 1 5000000 (Process (add_native (WaitSet [] []) 3, (this p1).2) 0 (deliver_any d (sys p3)))).1 = inl true.
Proof.
  pose proof (windows_wake_reaches (λ v : host, v) 1 2 address (Backend 0xEFFF0001 27182 (-1)) None (nothing, None)
    (WaitSet [] []) 3 5000000 0 quiet_host eq_refl eq_refl (Forall_nil_2 _)) as Hall.
  destruct (backend_open 1 _) as [r1 p1] eqn:E1. vm_compute in E1. injection E1 as <- <-.
  destruct (backend_at 2 address _) as [r2 p2] eqn:E2. vm_compute in E2. injection E2 as <- <-.
  destruct (backend_signal 2 _) as [r3 p3] eqn:E3. vm_compute in E3. injection E3 as <- <-.
  destruct Hall as (_ & _ & Hall). split; [done|].
  destruct (Hall eq_refl ltac:(done) eq_refl eq_refl) as (d & Hd & Hk).
  apply list_elem_of_singleton in Hd as ->. eexists. split; [reflexivity|].
  specialize (Hk _ (reflexivity _)). destruct (wait 1 _ _) as [r4 p4] eqn:E4. vm_compute in E4. injection E4 as <- <-.
  destruct Hk as [Hk|[Hk _]]; [exact Hk|discriminate Hk].
Defined.
End WinWake.
